(* ===== verification/_CoqProject ===== *)
-Q . S2P
Prelude.v
JsString.v
JsMap.v
Utf8.v
Json.v
TextDecoder.v
Envelope.v
TimelineFold.v
Receipts.v
ReadState.v
SyncManager.v
Base64.v
GroupName.v
Verification.v
Anchors.v
RoomEvidence.v
Payments.v
Wire.v
RoomHistory.v
AuthHeaders.v
HttpTransport.v
HttpCalls.v
HttpAuth.v
HttpPolling.v
Aad.v
SessionKeys.v
Encryption.v
WsFrames.v
WsTransport.v
WsProps.v
HybridTransport.v
MlsRows.v
MlsTypes.v
MlsCertificates.v
MlsTrust.v
MlsSession.v
MlsFrame.v
MlsSeal.v
MlsHistory.v
MlsSelf.v
MlsRenewal.v
MlsBackup.v
HostedStore.v
HostedLease.v
HostedProps.v
Attachments.v
ClientMessage.v
Client.v
ClientRead.v
ClientProps.v
ClientSafety.v
ClientRelease.v
ClientExamples.v
MlsRelayer.v
Recovery.v
Contracts.v
GroupCalls.v
TransactionTypes.v
GroupCallProps.v
PaidMessaging.v
PaidProps.v
Pagination.v
MessageWindow.v
ReplyQueue.v
