(* ===== verification/Prelude.v ===== *)
(** * Messaging stack SDK: a verification development

    The program is the TypeScript SDK under
    [src/ts-sdks/packages/myso-messaging-stack/src] (file names below are
    relative to it): end-to-end encrypted group messaging, in which a client
    seals content envelopes, signs them, sends them to a relayer over HTTP, and
    folds the rows it reads back into a timeline, receipts, unread counts and
    evidence of what was anchored on chain.

    ** Parts, and the files that model them

    Language layer (no source file; what the code uses of JavaScript):
    - [Prelude]: outcomes (a value or a thrown error), the effect monad [eff],
      list lemmas, tactics and hint databases;
    - [JsString]: UTF-16 strings, decimal and hexadecimal numbers, [split],
      [join], [trim], [padStart], case mapping (class [JsText]);
    - [JsMap]: insertion-ordered [Map] and stable sorting;
    - [Utf8], [TextDecoder], [Base64], [Json]: [TextEncoder] and [TextDecoder]
      (with [fatal] and without), [btoa] and [atob], [JSON.stringify] and
      [JSON.parse] with their round trips (the printing of numbers is the class
      [JsonNumbers]).

    Content:
    - [Envelope] ([content/envelope.ts]): [encodeContentEnvelope],
      [decodeContentEnvelope], [padme], the validators;
    - [TimelineFold] ([content/timeline-fold.ts]): the class's maps are the
      record [FoldState], [ingest] is its method, [apply] the private one;
    - [GroupName] ([content/group-name.ts]), [Payments] ([payments.ts],
      [coin.ts], [emoji.ts]).

    Trust:
    - [Verification] ([verification.ts]): what a message signature covers;
    - [Aad], [Encryption], [SessionKeys] ([encryption/], [derive.ts]): what a
      ciphertext is bound to, the data keys and their cache, session keys;
    - [Anchors] ([anchors.ts]), [RoomEvidence] ([room-evidence.ts]),
      [RoomHistory] ([room-history.ts]): pointers on chain, their matching with
      decrypted messages, the strict validation of history pages.

    Relayer:
    - [Wire] ([relayer/wire.ts], [relayer/types.ts]): wire records and domain
      records;
    - [AuthHeaders] ([relayer/auth-headers.ts]), [HttpTransport], [HttpCalls],
      [HttpPolling] ([relayer/http-transport.ts]): signatures, the request
      engine, every REST call, the polling generators; [HttpAuth] holds what is
      proved of all calls;
    - [WsFrames], [WsTransport] ([relayer/ws-transport.ts]): the frames, and both
      subscriptions as one state machine driven by socket callbacks, timers,
      abort, disconnect and the consumer; [WsProps] proves its properties;
    - [HybridTransport] ([relayer/hybrid-transport.ts]): the socket with polling
      behind it;
    - [Receipts] ([relayer/receipts.ts]): ticks and max-wins merging;
    - [ReadState], [SyncManager] ([sync/]): the encrypted read state and the
      compare-and-set loop that shares it between devices;
    - [Recovery] ([recovery/]): pages of the relayer's archive.

    MLS ([mls/]), one device's state across its groups:
    - [MlsRows], [MlsTypes] ([mls/types.ts]): the row codec, certificates, inner
      plaintexts, the state store;
    - [MlsCertificates] ([mls/certificates.ts], [mls/registry.ts]): verifying
      device certificates, the cache of verdicts, the registry's rule;
      [MlsTrust]: the life of a cache, and what is behind its verdict [c_valid];
    - [MlsSession] ([mls/session.ts]): the session's record, commits, the
      membership rule, joining, reading the log, sealing, history bundles;
      [MlsFrame]: which properties of the device and of the cache its operations
      keep; [MlsSeal] and [MlsHistory] hold what else is proved of it;
    - [MlsSelf]: the self-group of an account's devices; [MlsRenewal]: opening a
      session, the authority key on chain, certificate renewal, logout;
    - [MlsBackup] ([mls/backup.ts]): the passkey backup;
    - [HostedStore], [HostedLease] ([mls/hosted-store.ts]): the snapshot store, and
      an operation under the lease as a machine of the server and any number of
      instances; [HostedProps] proves its properties;
    - [MlsRelayer] ([mls/relayer.ts]): the session's calls over HTTP.

    The client ([client.ts]), which joins the parts:
    - [Attachments] ([attachments/]): upload, resolution, handles, deletion;
    - [ClientMessage]: the checks a row passes before it is a message;
    - [Client]: the client's state, metadata, MLS sessions, sending;
    - [ClientRead]: reading, editing, events, names, subscriptions;
    - [ClientProps], [ClientSafety], [ClientRelease] hold what is proved of it,
      [ClientExamples] the runs that apply it.

    Transactions:
    - [Contracts] ([contracts/]): [normalizeMoveArguments] and the bindings of the
      Move package the SDK calls;
    - [GroupCalls] ([call.ts], [transactions.ts]): a builder gives the list of the
      commands it puts in a transaction; [TransactionTypes] types such lists, and
      [GroupCallProps] holds what else is proved of them;
    - [PaidMessaging] ([paid-messaging.ts], [gating.ts]): opening, paying, claiming
      and refunding escrows; [PaidProps] proves its properties.

    The chat application ([src/chat-app/src], whose files are named from there), a
    user interface over the SDK, of which its own logic without rendering:
    - [Pagination] ([lib/pagination.ts], [hooks/usePaginatedList.ts]): walking all pages
      of a list, and loading them progressively;
    - [MessageWindow] ([lib/message-page-ledger.ts], [lib/message-session-cache.ts],
      [hooks/useMessages.ts]): the loaded window of a conversation and its cache;
    - [ReplyQueue] ([lib/agents/agent-reply-sessions.ts]): the queue of questions to
      agents, as a machine of handlers and promises.

    ** How the parts meet

    [Envelope] bytes are what [Encryption.encrypt] seals under an [Aad];
    [Verification] signs the ciphertext and its metadata; [HttpCalls] sends them
    under [AuthHeaders] signatures and reads rows back through [Wire];
    [RoomHistory] validates those rows, [TimelineFold] folds them, and
    [RoomEvidence] compares them with [Anchors].  [SyncManager] uses
    [ReadState]'s encryption and the transport's PUT, whose 409 becomes the
    conflict it retries on ([HttpAuth.read_state_conflict] is the other side of
    that contract).  [ClientRead] reads rows through the transport as [ClientMessage]
    checks them, and [Client] sends them, through [MlsSession] in a group whose
    metadata asks for MLS and through [Encryption] in the others.  [HostedLease] runs
    an operation on a [HostedStore], which stands for the store of [MlsTypes].
    [GroupCalls] wraps the keys of [Encryption] and the names of [GroupName] into
    calls of [Contracts], and [PaidMessaging] composes those calls.

    ** State, effects and concurrency

    Pure code is a function; a thrown error is [None] or [Throw].  A method with
    effects is a function from the state it reaches to an outcome and the state
    after, a throw keeping the mutations made before it.  Where other parties
    act between awaits, an environment indexed by the number of the await (or
    request) says what they did, and the theorems quantify over it:
    [SyncManager] (other devices, time, network), [HttpTransport] (disconnect,
    abort, time, network answer).  [SessionKeys] interleaves callers with the
    end of a key's creation, [WsTransport] the consumer with its socket, and
    [HostedLease] the requests of all instances with the server, as machines whose
    theorems hold for every sequence of events.  Results of one transaction are named
    by the position of their command, as the library does.

    ** What the theorems show

    - [Envelope]: envelopes decode to what was encoded, only canonical frames
      are accepted, padding hides lengths within its bounds;
    - [TimelineFold]: the fold depends on the set of rows only, means
      last-writer-wins registers over the authorised writes, and reports the
      targets it changes;
    - [Receipts]: ticks, and receipts that never go back;
    - [ReadState], [SyncManager]: encryption round trip, max-wins merge, and the
      manager's update loop: safe, terminating, complete counts; and the first
      write after a 404, which does overwrite;
    - [Encryption], [Aad], [SessionKeys]: envelope encryption between members,
      the agent binding, a rotation believed before it lands, AADs, single-flight
      session keys;
    - [Verification], [Anchors]: canonical signatures (injective, sign then
      verify) and digests;
    - [RoomEvidence], [RoomHistory]: evidence and strict history;
    - [Payments]: payment bodies;
    - [HttpAuth], [HttpPolling]: every HTTP call is authenticated, retried at
      most once, refused after disconnect, and ends as documented; polling
      reports exactly the changes of reactions and resumes after errors;
    - [WsProps]: frames are delivered once and in order, get through on a
      connection that stays open, reconnections are bounded and resume after what
      the consumer has, stopping is final and leaks no socket; and the close
      that goes unnoticed;
    - [HybridTransport]: which failures fall back to polling, and from where;
    - [MlsSeal]: who a sealed message can be read by, and the race in which that
      check is stale; [MlsCertificates]: when a revocation takes effect, that a
      verified certificate stays valid, what an outage cannot condemn;
    - [MlsHistory]: imported history changes nothing held and claims no
      verification, bundles arrive whole, resyncs are bounded, a commit whose
      answer is lost is settled by the log;
    - [MlsSelf]: own history is for own devices whose certificate was checked, the run in which it is
      not, and the chunk that is sent before its key is used up on disk;
    - [MlsTrust], [MlsFrame]: a certificate called valid was verified, trusted, or
      is signed and listed by a recent registry answer, whatever the session did
      before;
    - [MlsRenewal]: across crashes the renewal does not lose its key and ends with a
      certificate other members accept, and the lost answer after which it does not;
    - [MlsBackup]: a first backup restores every row on a new device; history
      that arrives late is not backed up;
    - [HostedStore], [HostedProps]: the snapshot store refines an abstract store
      cut to its limits, what is stored is a history of the device's states in which no
      instance overwrites what it has not read, and leases are given back;
    - [MlsRelayer]: every call is signed as the relayer checks it, rows of the log
      verify at their readers, and answers mean what the session takes them for;
    - [Attachments]: what is uploaded resolves to the files given, and only under
      the additional data of its message;
    - [ClientProps], [ClientSafety], [ClientRelease]: what one member sends another
      reads, verified; rows of MLS groups are sealed to the readers on chain;
      nothing unverified or of another group is released; a room page is
      complete and checked on both sides of the reads;
    - [Recovery]: a page of the archive holds its live rows in order;
    - [TransactionTypes], [PaidProps]: every transaction is well typed under the
      signatures its bindings expect, linear in the objects it creates; the Move
      sources of the repository declare other ones, which refuse an agent's group
      and a group made without an account;
      [GroupCallProps]: a removal rotates the key, a sealed name opens;
      [PaidProps]: no escrow is paid against the recipient's policy;
    - [Pagination]: both ways to page send the same requests and keep the same rows, a
      walk ends and says what it collected; and the totals on which they part;
    - [MessageWindow]: paging back reaches every message once, up to the cache's bound,
      and where it stops behind it;
    - [ReplyQueue]: questions are answered one at a time and in order, none is lost,
      and all are once nothing keeps them; and the one that is not counted.

    Each theorem with hypotheses is applied at a concrete input by the lemma of
    the same name ending in [_witness].

    ** Parameters

    Third-party code is a class with, where needed, a class of laws, and an
    instance that satisfies them for the witnesses: number printing
    ([JsonNumbers]), Unicode tables ([JsText]), SHA-256 ([Sha256]), AES-GCM
    ([AesGcm], [EncryptionLib]), keypairs and hex of the MySo SDK
    ([MySoCrypto], [HexCodec]), BCS ([MySoBcs]), base64 of the SDK
    ([Base64Codec]), MyData ([EncryptionLib], [SessionKeyLib]), [ClientCache]
    ([DekCache]), the WebAssembly MLS engine ([MlsEngine]), the libraries that
    verify certificates ([CertificateLib]), ed25519 keypairs ([AuthorityKeys]),
    HKDF and AES-GCM of backups and hosted blobs ([BackupCrypto]), dates
    ([DateParser]), serialisation of pure call arguments ([PureBcs]).  [fetch], timers
    and the clock are the environment.  The signatures of the deployed packages and
    [removeMember] of the groups package are arguments of the theorems on
    transactions: [TransactionTypes.relied_on] are the declarations that agree with the
    Move sources of the repository, [bindings_only] those that only the TypeScript
    bindings have, and [repository_move] what the Move sources declare instead.

    ** Bounds and fuel

    32-bit fields wrap at 2^32 where the code writes them; other integers are
    mathematical within the code's own checks (safe integers, u64).  The
    recursions that are not structural take fuel with a lemma that it suffices:
    decimal printing ([JsString.dec_fuel]) and the JSON parser
    ([Json.json_parse_fuel]); the compare-and-set loop's fuel is its retry
    limit.  A walk over pages takes its page limit ([Pagination.paging_ends]), and draining
    a queue of replies starts anew at most once ([ReplyQueue.replies_in_order] shows fuel
    for one loop is enough).  Generators are run for a number of rounds.  The loops of the MLS
    sessions over pages of a log take the number of pages as fuel; the theorems
    that need an end say how much is enough ([MlsHistory.commit_settled],
    [MlsBackup.backup_restore]).

    ** Not modelled

    Of the client: calls that only forward to the transport (typing, presence,
    receipts), the choice of a default transport, and the parsing of
    [historyShareDays].  Promises joined by [Promise.all] run in order, and abort
    signals are modelled in the transports only; calls a hosted operation makes
    after it has returned are left out.  Storage adapters, Web Crypto, [genesis.ts],
    [agent-*.ts], [relayer/workflow.ts] and the HTTP side of [block-gating.ts] are I/O or
    wiring.  [bcs.ts], most reads of [view.ts] and the bindings nothing calls decode
    chain objects: what they answer is an argument of the models.
    The rest of the chat application is rendering and calls of the SDK; the relayer and
    the MLS engine (Rust), the Move packages, the discovery indexer and the publishing
    scripts are outside the SDK.  Cryptographic strength is not modelled: the theorems say which
    bytes are bound, never that an adversary cannot find collisions. *)
From stdpp Require Export base list numbers option gmap strings.
From Stdlib Require Export ZArith Lia Sorted.
#[global] Open Scope Z_scope.

(** * Notations *)

Declare Scope msg_scope.
Delimit Scope msg_scope with msg.

(** * Effects

    The code throws errors and mutates objects.  An effectful call is a
    function from the state of the objects it can reach to an outcome and the
    state afterwards: a thrown error keeps the mutations made before it, as in
    JavaScript. *)

Inductive outcome (E A : Type) : Type :=
  | Ok (a : A)
  | Throw (e : E).
Arguments Ok {E A} a.
Arguments Throw {E A} e.

Definition eff (S E A : Type) : Type := S → outcome E A * S.

#[global] Instance eff_ret {S E} : MRet (eff S E) := λ _ a s, (Ok a, s).
#[global] Instance eff_bind {S E} : MBind (eff S E) := λ A B (k : A → eff S E B) (m : eff S E A) s,
  match m s with
  | (Ok a, s') => k a s'
  | (Throw e, s') => (Throw e, s')
  end.

Definition throw {S E A} (e : E) : eff S E A := λ s, (Throw e, s).
Definition get_state {S E} : eff S E S := λ s, (Ok s, s).
Definition put_state {S E} (s : S) : eff S E unit := λ _, (Ok tt, s).
Definition modify {S E} (f : S → S) : eff S E unit := λ s, (Ok tt, f s).

(** [try m catch h]: the handler runs in the state the error left behind. *)
Definition try_catch {S E A} (m : eff S E A) (h : E → eff S E A) : eff S E A := λ s,
  match m s with
  | (Ok a, s') => (Ok a, s')
  | (Throw e, s') => h e s'
  end.

(** * Automation *)

Create HintDb msg.
Create Rewrite HintDb msg.

Lemma bind_ok {S E A B} (m : eff S E A) (k : A → eff S E B) s a s' :
  m s = (Ok a, s') → (m ≫= k) s = k a s'.
Proof. unfold mbind, eff_bind. by intros ->. Qed.

Lemma bind_throw {S E A B} (m : eff S E A) (k : A → eff S E B) s e s' :
  m s = (Throw e, s') → (m ≫= k) s = (Throw e, s').
Proof. unfold mbind, eff_bind. by intros ->. Qed.

Lemma ok_inj {E A} (a b : A) : (Ok a : outcome E A) = Ok b → b = a.
Proof. by intros [= <-]. Qed.

(** Inversion of a finished run. *)
Lemma bind_ok_inv {S E A B} (m : eff S E A) (k : A → eff S E B) s b s' :
  (m ≫= k) s = (Ok b, s') → ∃ a s1, m s = (Ok a, s1) ∧ k a s1 = (Ok b, s').
Proof. unfold mbind, eff_bind. destruct (m s) as [[a|e] s1]; [eauto|done]. Qed.

Lemma bind_throw_inv {S E A B} (m : eff S E A) (k : A → eff S E B) s e s' :
  (m ≫= k) s = (Throw e, s') →
  m s = (Throw e, s') ∨ ∃ a s1, m s = (Ok a, s1) ∧ k a s1 = (Throw e, s').
Proof. unfold mbind, eff_bind. destruct (m s) as [[a|e'] s1]; [eauto|]. intros [= -> ->]. by left. Qed.

Lemma try_catch_inv {S E A} (m : eff S E A) (h : E → eff S E A) s r s' :
  try_catch m h s = (r, s') →
  (∃ a, m s = (Ok a, s') ∧ r = Ok a) ∨ ∃ e s1, m s = (Throw e, s1) ∧ h e s1 = (r, s').
Proof. unfold try_catch. destruct (m s) as [[a|e] s1]; [intros [= <- <-]|]; eauto. Qed.

Lemma mret_inv {S E A} (a b : A) (s s' : S) : (mret a : eff S E A) s = (Ok b, s') → b = a ∧ s' = s.
Proof. by intros [= <- <-]. Qed.

(** ** Program logic

    [hoare P m Q]: run from a state with [P], [m] ends with [Q] of its outcome
    and its state.  [keeps I m]: [m] preserves [I], whether it returns or throws. *)

Definition hoare {S E A} (P : S → Prop) (m : eff S E A) (Q : outcome E A → S → Prop) : Prop :=
  ∀ s, P s → Q (m s).1 (m s).2.

Definition keeps {S E A} (I : S → Prop) (m : eff S E A) : Prop := hoare I m (λ _, I).

Lemma hoare_bind {S E A B} (P : S → Prop) (R : A → S → Prop) Q (m : eff S E A) (k : A → eff S E B) :
  hoare P m (λ r s, match r with Ok a => R a s | Throw e => Q (Throw e) s end) →
  (∀ a, hoare (R a) (k a) Q) → hoare P (m ≫= k) Q.
Proof.
  intros Hm Hk s Hs. specialize (Hm s Hs). unfold mbind, eff_bind.
  destruct (m s) as [[a|e] s']; simpl in *; [by apply Hk|done].
Qed.

Lemma hoare_conseq {S E A} (P P' : S → Prop) (Q Q' : outcome E A → S → Prop) (m : eff S E A) :
  hoare P' m Q' → (∀ s, P s → P' s) → (∀ r s, Q' r s → Q r s) → hoare P m Q.
Proof. intros Hm HP HQ s Hs. apply HQ, Hm, HP, Hs. Qed.

Lemma keeps_ret {S E A} (I : S → Prop) (a : A) : keeps I (mret a : eff S E A).
Proof. by intros s Hs. Qed.

Lemma keeps_throw {S E A} (I : S → Prop) (e : E) : keeps I (throw e : eff S E A).
Proof. by intros s Hs. Qed.

Lemma keeps_get {S E} (I : S → Prop) : keeps I (get_state : eff S E S).
Proof. by intros s Hs. Qed.

Lemma keeps_bind {S E A B} (I : S → Prop) (m : eff S E A) (k : A → eff S E B) :
  keeps I m → (∀ a, keeps I (k a)) → keeps I (m ≫= k).
Proof. intros Hm Hk. apply (hoare_bind I (λ _, I)); [|done]. eapply hoare_conseq; [exact Hm|done|]. by intros []. Qed.

Lemma keeps_bind_get {S E A} (I : S → Prop) (k : S → eff S E A) : (∀ s, I s → keeps I (k s)) → keeps I (get_state ≫= k).
Proof. intros Hk s Hs. exact (Hk s Hs s Hs). Qed.

Lemma keeps_modify {S E} (I : S → Prop) (f : S → S) : (∀ s, I s → I (f s)) → keeps I (modify f : eff S E unit).
Proof. intros Hf s Hs. by apply Hf. Qed.

Lemma keeps_catch {S E A} (I : S → Prop) (m : eff S E A) (h : E → eff S E A) :
  keeps I m → (∀ e, keeps I (h e)) → keeps I (try_catch m h).
Proof.
  intros Hm Hh s Hs. specialize (Hm s Hs). unfold try_catch. destruct (m s) as [[a|e] s']; simpl in *; [done|by apply Hh].
Qed.

#[export] Hint Resolve keeps_ret keeps_throw keeps_get keeps_bind keeps_modify keeps_catch : msg.

(** [run_eff] unfolds the effect combinators of a run, so that only the calls
    of the modelled code are left. *)
Ltac run_eff :=
  unfold mbind, mret, eff_bind, eff_ret, throw, get_state, put_state, modify, try_catch in *;
  simpl in *.

(** Inverts the finished runs among the hypotheses, call by call. *)
Ltac inv_eff :=
  repeat match goal with
    | H : (_ ≫= _) _ = (Ok _, _) |- _ => apply bind_ok_inv in H as (? & ? & ? & H)
    | H : (_ ≫= _) _ = (Throw _, _) |- _ => apply bind_throw_inv in H as [H|(? & ? & ? & H)]
    | H : mret _ _ = _ |- _ => unfold mret, eff_ret in H
    | H : throw _ _ = _ |- _ => unfold throw in H
    | H : get_state _ = _ |- _ => unfold get_state in H
    | H : put_state _ _ = _ |- _ => unfold put_state in H
    | H : modify _ _ = _ |- _ => unfold modify in H
    | H : (_, _) = (_, _) |- _ => injection H as H; subst
    | H : Ok _ = Ok _ |- _ => injection H as H; subst
    | H : Throw _ = Throw _ |- _ => injection H as H; subst
    | H : Ok _ = Throw _ |- _ => discriminate H
    | H : Throw _ = Ok _ |- _ => discriminate H
    end.

(** Case analysis on every [if]/[match] scrutinee of the goal, remembering the
    equations, then closing with the given hypotheses. *)
Ltac split_matches :=
  repeat (case_match; simplify_eq/=; try done).

(** Turns boolean comparisons on [Z] into propositions. *)
Ltac bool_to_Z :=
  repeat match goal with
    | H : (_ && _) = true |- _ => apply andb_prop in H as [? ?]
    | H : (_ || _) = false |- _ => apply orb_false_elim in H as [? ?]
    | H : negb _ = true |- _ => apply negb_true_iff in H
    | H : negb _ = false |- _ => apply negb_false_iff in H
    | H : (_ <=? _) = true |- _ => apply Z.leb_le in H
    | H : (_ <=? _) = false |- _ => apply Z.leb_gt in H
    | H : (_ <? _) = true |- _ => apply Z.ltb_lt in H
    | H : (_ <? _) = false |- _ => apply Z.ltb_ge in H
    | H : (_ =? _) = true |- _ => apply Z.eqb_eq in H
    | H : (_ =? _) = false |- _ => apply Z.eqb_neq in H
    | H : bool_decide _ = true |- _ => apply bool_decide_eq_true_1 in H
    | H : bool_decide _ = false |- _ => apply bool_decide_eq_false_1 in H
    end.

(** * Generic lemmas *)

Definition is_nil {A} (l : list A) : bool := match l with [] => true | _ => false end.

Lemma foldl_ind {A B} (P : list A → B → Prop) (f : B → A → B) (b : B) (l : list A) :
  P [] b →
  (∀ l' x b', P l' b' → P (l' ++ [x]) (f b' x)) →
  P l (foldl f b l).
Proof.
  intros H0 Hs. induction l as [|x l IH] using rev_ind; [done|].
  rewrite foldl_app. simpl. by apply Hs.
Qed.

Lemma Forall_forallb {A} (P : A → Prop) (f : A → bool) (l : list A) :
  (∀ x, f x = true ↔ P x) → forallb f l = true ↔ Forall P l.
Proof.
  intros Hf. rewrite forallb_forall, Forall_forall.
  split; intros H x Hx; apply Hf, H; by apply list_elem_of_In.
Qed.

Lemma filter_all {A} (P : A → Prop) `{∀ x, Decision (P x)} l : Forall P l → filter P l = l.
Proof. induction 1 as [|x l Hx _ IH]; [done|]. by rewrite filter_cons_True, IH. Qed.

Lemma NoDup_omap {A B} (f : A → option B) (l : list A) :
  (∀ x y b, x ∈ l → y ∈ l → f x = Some b → f y = Some b → x = y) → NoDup l → NoDup (omap f l).
Proof.
  induction l as [|x l IH]; intros Hf Hnd; [constructor|].
  inversion Hnd as [|? ? Hni Hnd']; subst. cbn [omap list_omap].
  assert (NoDup (omap f l)) as Hl by (apply IH; [|done]; intros y z b ? ?; apply Hf; by right).
  destruct (f x) as [b|] eqn:E; [|done]. constructor; [|done].
  intros (y & Hy & Ey)%list_elem_of_omap. apply Hni. by rewrite (Hf x y b); [|left|right|..].
Qed.
