(* ===== verification/JsString.v ===== *)
(** JavaScript strings and numbers, as far as the code uses them.

    A string is the list of its UTF-16 code units.  [js "..."] writes an ASCII
    literal.  The case mapping and the Unicode normal form are table driven:
    they are the operations of the class [JsText], with the documented laws the
    development relies on in [JsTextLaws] and an ASCII instance. *)
From S2P Require Import Prelude.

(** * Code units *)

Abbreviation jsstr := (list Z).

Definition js (s : string) : jsstr := (λ a, Z.of_N (Ascii.N_of_ascii a)) <$> String.list_ascii_of_string s.

Definition is_unit (c : Z) : Prop := 0 ≤ c < 65536.
Abbreviation wf_str := (Forall is_unit).

Definition is_ascii (c : Z) : Prop := 0 ≤ c < 128.

(** Checks the bounds of every element by evaluation. *)
Lemma Forall_below (n : Z) (s : list Z) :
  forallb (λ c, (0 <=? c) && (c <? n)) s = true → Forall (λ c, 0 ≤ c < n) s.
Proof.
  apply Forall_forallb. intros c. by rewrite andb_true_iff, Z.leb_le, Z.ltb_lt.
Qed.

Lemma wf_js s : wf_str (js s).
Proof.
  unfold js. induction (String.list_ascii_of_string s) as [|a l IH]; [constructor|].
  constructor; [|done]. pose proof (Ascii.N_ascii_bounded a). unfold is_unit. lia.
Qed.

(** * Prefixes, search, slices *)

Fixpoint startsWith (p s : jsstr) : bool :=
  match p, s with
  | [], _ => true
  | a :: p', b :: s' => (a =? b) && startsWith p' s'
  | _ :: _, [] => false
  end.

(** [s.indexOf(c)] for a one-unit string; [None] is [-1]. *)
Fixpoint indexOf (c : Z) (s : jsstr) : option nat :=
  match s with
  | [] => None
  | a :: s' => if a =? c then Some 0%nat else S <$> indexOf c s'
  end.

Lemma startsWith_app p s : startsWith p (p ++ s) = true.
Proof. induction p as [|a p IH]; [done|]. simpl. by rewrite Z.eqb_refl. Qed.

Lemma startsWith_inv p s : startsWith p s = true → ∃ r, s = p ++ r.
Proof.
  revert s. induction p as [|a p IH]; intros s; [by exists s|]. destruct s as [|b s]; simpl; [done|].
  intros [Hab [r ->]%IH]%andb_prop. apply Z.eqb_eq in Hab as ->. by exists r.
Qed.

Lemma indexOf_split c s i : indexOf c s = Some i →
  s = take i s ++ c :: drop (S i) s ∧ (c ∉ take i s) ∧ (i < length s)%nat.
Proof.
  revert i. induction s as [|a s IH]; intros i; simpl; [done|].
  destruct (a =? c) eqn:E; bool_to_Z.
  - intros [= <-]. subst. simpl. split; [done|]. split; [apply not_elem_of_nil|lia].
  - destruct (indexOf c s) as [j|]; [|done]. intros [= <-]. destruct (IH j eq_refl) as (Es & Hn & Hl). simpl.
    split; [by f_equal|]. split; [|lia]. rewrite not_elem_of_cons. split; [congruence|done].
Qed.

Lemma indexOf_none c s : indexOf c s = None ↔ (c ∉ s).
Proof.
  induction s as [|a s IH]; simpl; [split; [intros _; apply not_elem_of_nil|done]|].
  rewrite not_elem_of_cons, <-IH. destruct (a =? c) eqn:E; bool_to_Z.
  - naive_solver.
  - destruct (indexOf c s); simpl; naive_solver.
Qed.

Lemma indexOf_app c s r : c ∉ s → indexOf c (s ++ c :: r) = Some (length s).
Proof.
  induction s as [|a s IH]; simpl; intros Hc; [by rewrite Z.eqb_refl|].
  apply not_elem_of_cons in Hc as [Hne Hc]. rewrite (proj2 (Z.eqb_neq _ _)) by done. by rewrite IH.
Qed.

(** [s.split(c)] for a one-unit separator. *)
Fixpoint split_on (c : Z) (s : jsstr) : list jsstr :=
  match s with
  | [] => [[]]
  | a :: s' =>
      match split_on c s' with
      | [] => [[a]]
      | w :: ws => if a =? c then [] :: w :: ws else (a :: w) :: ws
      end
  end.

(** [l.join(sep)] *)
Fixpoint join (sep : jsstr) (l : list jsstr) : jsstr :=
  match l with
  | [] => []
  | [s] => s
  | s :: l' => s ++ sep ++ join sep l'
  end.

Lemma split_on_none c s : c ∉ s → split_on c s = [s].
Proof.
  induction s as [|a s IH]; [done|]. rewrite not_elem_of_cons. intros [Hne Hs]. simpl. rewrite IH by done.
  by rewrite (proj2 (Z.eqb_neq _ _)).
Qed.

Lemma split_on_nonempty c s : split_on c s ≠ [].
Proof. destruct s as [|a s]; [done|]. simpl. destruct (split_on c s); [done|]. by destruct (a =? c). Qed.

Lemma split_on_cons c s t : c ∉ s → split_on c (s ++ c :: t) = s :: split_on c t.
Proof.
  induction s as [|a s IH]; intros Hs; simpl.
  - destruct (split_on c t) eqn:E; [by destruct (split_on_nonempty c t)|]. by rewrite Z.eqb_refl.
  - apply not_elem_of_cons in Hs as [Hne Hs]. rewrite IH by done. by rewrite (proj2 (Z.eqb_neq _ _)).
Qed.

Lemma split_on_one c s t : c ∉ s → c ∉ t → split_on c (s ++ c :: t) = [s; t].
Proof. intros Hs Ht. by rewrite split_on_cons, split_on_none. Qed.

(** Joining on a unit that no part holds loses nothing, when no part is empty. *)
Lemma split_on_join c l : l ≠ [] → Forall (λ s, c ∉ s) l → split_on c (join [c] l) = l.
Proof.
  intros Hne Hl. induction Hl as [|s l Hs Hl IH]; [done|]. destruct l as [|s' l]; [by apply split_on_none|].
  change (join [c] (s :: s' :: l)) with (s ++ c :: join [c] (s' :: l)). rewrite split_on_cons by done. by rewrite IH.
Qed.

Lemma join_inj c l l' : Forall (λ s, s ≠ [] ∧ c ∉ s) l → Forall (λ s, s ≠ [] ∧ c ∉ s) l' →
  join [c] l = join [c] l' → l = l'.
Proof.
  assert (∀ k, Forall (λ s, s ≠ [] ∧ c ∉ s) k → k ≠ [] → join [c] k ≠ []) as Hnil.
  { intros [|s k] Hk; [done|]. apply Forall_cons in Hk as [[Hs _] _]. destruct s, k; simpl; done. }
  assert (∀ k, Forall (λ s : jsstr, s ≠ [] ∧ c ∉ s) k → Forall (λ s, c ∉ s) k) as Hc.
  { intros k Hk. eapply Forall_impl; [exact Hk|]. naive_solver. }
  intros Hl Hl' E. destruct (decide (l = [])) as [->|Hn], (decide (l' = [])) as [->|Hn']; [done|..].
  - by destruct (Hnil l').
  - by destruct (Hnil l).
  - rewrite <-(split_on_join c l), <-(split_on_join c l') by auto. by rewrite E.
Qed.

Definition padStart (n : nat) (c : Z) (s : jsstr) : jsstr := replicate (n - length s) c ++ s.
Definition padEnd (n : nat) (c : Z) (s : jsstr) : jsstr := s ++ replicate (n - length s) c.

(** Removes the trailing units equal to [c]: [s.replace(/c+$/, '')]. *)
Definition strip_trailing (c : Z) (s : jsstr) : jsstr :=
  reverse ((fix go (l : jsstr) := match l with
             | [] => []
             | a :: l' => if a =? c then go l' else l
             end) (reverse s)).

(** White space and line terminators, the units [trim] removes. *)
Definition is_space (c : Z) : bool :=
  bool_decide (c ∈ [9; 10; 11; 12; 13; 32; 160; 0x1680; 0x2028; 0x2029; 0x202F; 0x205F; 0x3000; 0xFEFF])
  || ((0x2000 <=? c) && (c <=? 0x200A)).

Fixpoint trim_start (s : jsstr) : jsstr :=
  match s with
  | [] => []
  | c :: s' => if is_space c then trim_start s' else s
  end.

Definition trim (s : jsstr) : jsstr := reverse (trim_start (reverse (trim_start s))).

(** A string without white space is its own trimming. *)
Lemma trim_id s : Forall (λ c, is_space c = false) s → trim s = s.
Proof.
  assert (∀ t, Forall (λ c, is_space c = false) t → trim_start t = t) as H.
  { intros t Ht. destruct Ht as [|c t Hc _]; [done|]. simpl. by rewrite Hc. }
  intros Hs. unfold trim. rewrite (H s) by done. rewrite H by (by apply Forall_reverse).
  apply reverse_involutive.
Qed.

Lemma trim_start_incl P s : Forall P s → Forall P (trim_start s).
Proof. induction 1 as [|c s Hc Hs IH]; [constructor|]. simpl. case_match; [done|by constructor]. Qed.

Lemma trim_incl P s : Forall P s → Forall P (trim s).
Proof. intros H. unfold trim. by apply Forall_reverse, trim_start_incl, Forall_reverse, trim_start_incl. Qed.

(** * Character classes *)

Definition is_digit (c : Z) : bool := (48 <=? c) && (c <=? 57).
Definition is_lower_hex (c : Z) : bool := is_digit c || ((97 <=? c) && (c <=? 102)).
Definition is_upper_hex (c : Z) : bool := is_digit c || ((65 <=? c) && (c <=? 70)).
Definition is_hex (c : Z) : bool := is_lower_hex c || is_upper_hex c.

(** * Case mapping and normal form *)

Definition ascii_lower (c : Z) : Z := if (65 <=? c) && (c <=? 90) then c + 32 else c.

Class JsText := {
  toLowerCase : jsstr → jsstr;
  normalizeNFC : jsstr → jsstr;
}.

Class JsTextLaws `{JsText} : Prop := {
  toLowerCase_ascii s : Forall is_ascii s → toLowerCase s = ascii_lower <$> s;
  toLowerCase_idemp s : toLowerCase (toLowerCase s) = toLowerCase s;
  normalizeNFC_ascii s : Forall is_ascii s → normalizeNFC s = s;
  normalizeNFC_idemp s : normalizeNFC (normalizeNFC s) = normalizeNFC s;
  toLowerCase_wf s : wf_str s → wf_str (toLowerCase s);
}.

(** The ASCII instance: what the engine does on ASCII text, the identity
    elsewhere.  It is not an instance, so that no theorem picks it silently. *)
Definition ascii_text : JsText := {| toLowerCase := fmap ascii_lower; normalizeNFC := id |}.

Lemma ascii_lower_idemp c : ascii_lower (ascii_lower c) = ascii_lower c.
Proof.
  unfold ascii_lower. destruct ((65 <=? c) && (c <=? 90)) eqn:E; [|by rewrite E].
  bool_to_Z. replace ((65 <=? c + 32) && (c + 32 <=? 90)) with false; [done|].
  symmetry. apply andb_false_iff. right. lia.
Qed.

Lemma ascii_text_laws : @JsTextLaws ascii_text.
Proof.
  split; try done.
  - intros s. simpl. rewrite <-list_fmap_compose.
    apply list_fmap_ext. intros i c _. apply ascii_lower_idemp.
  - intros s Hs. simpl. apply Forall_fmap. eapply Forall_impl; [exact Hs|]. intros c Hc.
    unfold compose, ascii_lower, is_unit in *. case_match; bool_to_Z; lia.
Qed.

(** * Decimal numerals *)

Fixpoint dec_digits (fuel : nat) (n : Z) : jsstr :=
  match fuel with
  | O => []
  | S f => (if n <? 10 then [] else dec_digits f (n / 10)) ++ [48 + n mod 10]
  end.

(** [n.toString()] for a non-negative integer. The fuel is the number of
    binary digits, at least the number of decimal ones. *)
Definition dec (n : Z) : jsstr := dec_digits (S (Z.to_nat (Z.log2 n))) n.

(** [n.toString()] for an integer. *)
Definition dec_Z (n : Z) : jsstr := if n <? 0 then 45 :: dec (- n) else dec n.

(** The value of a numeral. *)
Definition digits_value (s : jsstr) : Z := foldl (λ a c, a * 10 + (c - 48)) 0 s.

Definition all_digits (s : jsstr) : bool := forallb is_digit s.

Lemma digits_value_snoc s c : digits_value (s ++ [c]) = digits_value s * 10 + (c - 48).
Proof. unfold digits_value. by rewrite foldl_app. Qed.

Lemma is_digit_spec c : is_digit c = true ↔ 48 ≤ c ≤ 57.
Proof. unfold is_digit. rewrite andb_true_iff, !Z.leb_le. lia. Qed.

Lemma digits_value_nonneg s : all_digits s = true → 0 ≤ digits_value s.
Proof.
  induction s as [|c s IH] using rev_ind; [done|].
  unfold all_digits in *. rewrite forallb_app, andb_true_iff. intros [H1 H2].
  rewrite digits_value_snoc. simpl in H2. rewrite andb_true_r in H2.
  apply is_digit_spec in H2. specialize (IH H1). lia.
Qed.

Lemma dec_digits_spec fuel n :
  0 ≤ n < 10 ^ Z.of_nat fuel →
  digits_value (dec_digits fuel n) = n ∧ all_digits (dec_digits fuel n) = true.
Proof.
  revert n. induction fuel as [|f IH]; intros n Hn.
  { simpl in Hn. unfold digits_value, all_digits. simpl. split; [lia|done]. }
  simpl dec_digits. rewrite Nat2Z.inj_succ, Z.pow_succ_r in Hn by lia.
  pose proof (Z.mod_pos_bound n 10 ltac:(lia)) as Hm.
  assert (is_digit (48 + n mod 10) = true) as Hd by (apply is_digit_spec; lia).
  rewrite digits_value_snoc. unfold all_digits in *. rewrite forallb_app. simpl. rewrite Hd.
  destruct (n <? 10) eqn:E.
  - apply Z.ltb_lt in E. rewrite Z.mod_small by lia. unfold digits_value. simpl. split; [lia|done].
  - destruct (IH (n / 10)) as [-> ->]; [split; [apply Z.div_pos; lia|apply Z.div_lt_upper_bound; lia]|].
    split; [|done]. pose proof (Z.div_mod n 10 ltac:(lia)). lia.
Qed.

Lemma dec_fuel n : 0 ≤ n → n < 10 ^ Z.of_nat (S (Z.to_nat (Z.log2 n))).
Proof.
  intros Hn. pose proof (Z.log2_nonneg n) as Hl.
  rewrite Nat2Z.inj_succ, Z2Nat.id by done.
  assert (n < 2 ^ Z.succ (Z.log2 n)) as H.
  { destruct (decide (n = 0)) as [->|]; [done|]. apply Z.log2_spec. lia. }
  apply Z.lt_le_trans with (1 := H). apply Z.pow_le_mono_l. lia.
Qed.

Lemma dec_value n : 0 ≤ n → digits_value (dec n) = n.
Proof. intros Hn. apply dec_digits_spec. split; [done|by apply dec_fuel]. Qed.

Lemma dec_all_digits n : 0 ≤ n → all_digits (dec n) = true.
Proof. intros Hn. apply dec_digits_spec. split; [done|by apply dec_fuel]. Qed.

Lemma dec_nonempty n : dec n ≠ [].
Proof. unfold dec. simpl. intros [_ ?]%app_eq_nil. done. Qed.

Lemma dec_inj n m : 0 ≤ n → 0 ≤ m → dec n = dec m → n = m.
Proof. intros Hn Hm H. by rewrite <-(dec_value n), <-(dec_value m), H. Qed.

Lemma dec_Forall_digit n : 0 ≤ n → Forall (λ c, 48 ≤ c ≤ 57) (dec n).
Proof.
  intros Hn. apply (Forall_forallb _ is_digit); [apply is_digit_spec|by apply dec_all_digits].
Qed.

Lemma dec_Z_inj n m : dec_Z n = dec_Z m → n = m.
Proof.
  assert (∀ k r, 0 ≤ k → dec k ≠ 45 :: r) as Hne.
  { intros k r Hk E. pose proof (dec_Forall_digit k Hk) as HF. rewrite E in HF.
    inversion HF; lia. }
  unfold dec_Z. destruct (n <? 0) eqn:En, (m <? 0) eqn:Em; bool_to_Z; intros E.
  - injection E as E. apply dec_inj in E; lia.
  - symmetry in E. by apply Hne in E.
  - by apply Hne in E.
  - by apply dec_inj.
Qed.

Lemma digits_not_space s : all_digits s = true → Forall (λ c, is_space c = false) s.
Proof.
  intros Hs. apply (Forall_forallb (λ c, 48 ≤ c ≤ 57)) in Hs; [|apply is_digit_spec].
  eapply Forall_impl; [exact Hs|]. intros c Hc. cbv beta in Hc. unfold is_space. apply orb_false_iff. split.
  - apply bool_decide_eq_false_2. rewrite !elem_of_cons, elem_of_nil. lia.
  - apply andb_false_iff. rewrite !Z.leb_gt. lia.
Qed.

(** [BigInt(s)] on a string: [None] is the [SyntaxError]. *)
Definition hex_digit_value (c : Z) : Z :=
  if is_digit c then c - 48 else if is_lower_hex c then c - 87 else c - 55.

Definition radix_value (b : Z) (ok : Z → bool) (s : jsstr) : option Z :=
  match s with
  | [] => None
  | _ => if forallb ok s then Some (foldl (λ a c, a * b + hex_digit_value c) 0 s) else None
  end.

Definition StringToBigInt (s : jsstr) : option Z :=
  match trim s with
  | [] => Some 0
  | 48 :: 120 :: h | 48 :: 88 :: h => radix_value 16 is_hex h
  | 48 :: 111 :: h | 48 :: 79 :: h => radix_value 8 (λ c, (48 <=? c) && (c <=? 55)) h
  | 48 :: 98 :: h | 48 :: 66 :: h => radix_value 2 (λ c, (48 <=? c) && (c <=? 49)) h
  | 45 :: d => Z.opp <$> radix_value 10 is_digit d
  | 43 :: d => radix_value 10 is_digit d
  | d => radix_value 10 is_digit d
  end.

(** * Numbers

    A finite integral Number is [Int z]; the other values are kept apart so
    that the checks on untrusted input ([Number.isFinite],
    [Number.isSafeInteger]) have something to reject. *)
Inductive number : Type :=
  | Int (z : Z)
  | Frac (q : Z * positive)  (* a finite value that is not an integer *)
  | PosInf
  | NegInf
  | NaN.

#[global] Instance number_eq_dec : EqDecision number.
Proof. solve_decision. Defined.

Definition isFinite (n : number) : bool :=
  match n with Int _ | Frac _ => true | _ => false end.
Definition isInteger (n : number) : bool :=
  match n with Int _ => true | _ => false end.
Definition isSafeInteger (n : number) : bool :=
  match n with Int z => Z.abs z <=? 2 ^ 53 - 1 | _ => false end.

(** [a <= b]; every comparison with [NaN] is false. *)
Definition num_le (a b : number) : bool :=
  match a, b with
  | NaN, _ | _, NaN => false
  | NegInf, _ | _, PosInf => true
  | PosInf, _ | _, NegInf => false
  | Int x, Int y => x <=? y
  | Int x, Frac (p, q) => x * Zpos q <=? p
  | Frac (p, q), Int y => p <=? y * Zpos q
  | Frac (p, q), Frac (p', q') => p * Zpos q' <=? p' * Zpos q
  end.

(** [a < b] *)
Definition num_lt (a b : number) : bool :=
  match a, b with
  | NaN, _ | _, NaN => false
  | PosInf, _ | _, NegInf => false
  | NegInf, _ | _, PosInf => true
  | Int x, Int y => x <? y
  | Int x, Frac (p, q) => x * Zpos q <? p
  | Frac (p, q), Int y => p <? y * Zpos q
  | Frac (p, q), Frac (p', q') => p * Zpos q' <? p' * Zpos q
  end.

Lemma isSafeInteger_inv n : isSafeInteger n = true → ∃ z, n = Int z ∧ Z.abs z ≤ 2 ^ 53 - 1.
Proof. destruct n; simpl; try done. intros H. bool_to_Z. eauto. Qed.
