(* ===== verification/JsMap.v ===== *)
(** JavaScript's [Map] (insertion ordered) and the stable [Array.prototype.sort]. *)
From S2P Require Import Prelude.

Section js_map.
Context {K V : Type} `{!EqDecision K}.

(** A [Map] is the list of its entries in insertion order. *)
Fixpoint map_get (k : K) (m : list (K * V)) : option V :=
  match m with
  | [] => None
  | (k', v) :: m' => if decide (k' = k) then Some v else map_get k m'
  end.

(** [m.set(k, v)] keeps the place of an existing key and appends a new one. *)
Fixpoint map_set (k : K) (v : V) (m : list (K * V)) : list (K * V) :=
  match m with
  | [] => [(k, v)]
  | (k', v') :: m' => if decide (k' = k) then (k, v) :: m' else (k', v') :: map_set k v m'
  end.

Fixpoint map_delete (k : K) (m : list (K * V)) : list (K * V) :=
  match m with
  | [] => []
  | (k', v) :: m' => if decide (k' = k) then map_delete k m' else (k', v) :: map_delete k m'
  end.

Definition map_has (k : K) (m : list (K * V)) : bool := bool_decide (is_Some (map_get k m)).

Lemma map_get_set k k' v m :
  map_get k' (map_set k v m) = if decide (k' = k) then Some v else map_get k' m.
Proof.
  induction m as [|[k0 v0] m IH]; simpl; repeat case_decide; subst; simpl;
    repeat case_decide; subst; try done; by rewrite IH, ?decide_True, ?decide_False.
Qed.

Lemma map_get_set_eq k v m : map_get k (map_set k v m) = Some v.
Proof. by rewrite map_get_set, decide_True. Qed.

Lemma map_get_set_ne k k' v m : k' ≠ k → map_get k' (map_set k v m) = map_get k' m.
Proof. intros. by rewrite map_get_set, decide_False. Qed.

Lemma map_get_delete k k' m :
  map_get k' (map_delete k m) = if decide (k' = k) then None else map_get k' m.
Proof.
  induction m as [|[k0 v0] m IH]; simpl; repeat case_decide; subst; simpl;
    repeat case_decide; subst; try done.
Qed.

Lemma map_get_delete_eq k m : map_get k (map_delete k m) = None.
Proof. by rewrite map_get_delete, decide_True. Qed.

Lemma map_get_delete_ne k k' m : k' ≠ k → map_get k' (map_delete k m) = map_get k' m.
Proof. intros. by rewrite map_get_delete, decide_False. Qed.

(** A [Map] holds a key once. *)
Definition map_ok (m : list (K * V)) : Prop := NoDup m.*1.

Lemma map_set_keys k v m x : x ∈ (map_set k v m).*1 ↔ x = k ∨ x ∈ m.*1.
Proof.
  induction m as [|[k0 v0] m IH]; simpl.
  - rewrite list_elem_of_singleton. set_solver.
  - case_decide; subst; simpl; set_solver.
Qed.

Lemma map_set_ok k v m : map_ok m → map_ok (map_set k v m).
Proof.
  unfold map_ok. induction m as [|[k0 v0] m IH]; simpl; intros H.
  - constructor; [set_solver|constructor].
  - inversion H as [|? ? Hni Hnd]; subst. case_decide; subst; simpl; constructor; auto.
    rewrite map_set_keys. set_solver.
Qed.

Lemma map_delete_ok k m : map_ok m → map_ok (map_delete k m).
Proof.
  unfold map_ok. induction m as [|[k0 v0] m IH]; simpl; intros H; [done|].
  inversion H as [|? ? Hni Hnd]; subst. case_decide; [auto|]. simpl. constructor; auto.
  intros Hin. apply Hni. clear -Hin. induction m as [|[k1 v1] m IH]; simpl in *; [done|].
  case_decide; set_solver.
Qed.

Lemma map_ok_nil : map_ok [].
Proof. constructor. Qed.

Lemma elem_of_map_get k v m : map_ok m → (k, v) ∈ m ↔ map_get k m = Some v.
Proof.
  unfold map_ok. induction m as [|[k0 v0] m IH]; simpl; intros H.
  - split; [by intros ?%elem_of_nil|done].
  - inversion H as [|? ? Hni Hnd]; subst. rewrite elem_of_cons. case_decide; subst.
    + split; [|intros [= ->]; by left].
      intros [Heq|Hin]; [by simplify_eq|]. destruct Hni.
      by apply (list_elem_of_fmap_2 fst) in Hin.
    + rewrite IH by done. split; [intros [Heq|?]; by simplify_eq|by right].
Qed.

Lemma map_get_absent k m : (k ∉ m.*1) → map_get k m = None.
Proof.
  induction m as [|[k' v] m IH]; [done|]. simpl. rewrite not_elem_of_cons. intros [Hk Hm].
  rewrite decide_False by congruence. by apply IH.
Qed.

Lemma map_get_None k m : map_get k m = None → (k ∉ m.*1).
Proof.
  induction m as [|[k' v] m IH]; [intros _; apply not_elem_of_nil|]. simpl. case_decide; [done|]. intros Hk.
  apply not_elem_of_cons. split; [congruence|auto].
Qed.

Lemma map_get_app k (m l : list (K * V)) : map_get k (m ++ l) = match map_get k m with Some v => Some v | None => map_get k l end.
Proof. induction m as [|[k' v] m IH]; [done|]. simpl. by case_decide. Qed.

Lemma map_set_same k v m : map_get k m = Some v → map_set k v m = m.
Proof. induction m as [|[k' v'] m IH]; [done|]. simpl. case_decide; [intros [= ->]; by subst|]. intros E. by rewrite IH. Qed.

(** Setting a new key appends it. *)
Lemma map_set_fresh k v m : (k ∉ m.*1) → map_set k v m = m ++ [(k, v)].
Proof.
  induction m as [|[k0 v0] m IH]; simpl; [done|]. rewrite not_elem_of_cons. intros [Hne Hm].
  rewrite decide_False by congruence. by rewrite IH.
Qed.

Lemma map_entries_perm m1 m2 :
  map_ok m1 → map_ok m2 → (∀ k, map_get k m1 = map_get k m2) → m1 ≡ₚ m2.
Proof.
  intros H1 H2 H. apply NoDup_Permutation; [by apply (NoDup_fmap_1 fst)..|].
  intros [k v]. by rewrite !elem_of_map_get, H.
Qed.
End js_map.

#[export] Hint Resolve map_ok_nil map_set_ok map_delete_ok : msg.
#[export] Hint Rewrite @map_get_set_eq @map_get_delete_eq : msg.

(** * Stable sort by an integer key *)

Section sort.
Context {A : Type} (key : A → Z).

(** [x] goes before the first element with a greater key: equal keys keep
    their order when the list is inserted from its end. *)
Fixpoint sort_insert (x : A) (l : list A) : list A :=
  match l with
  | [] => [x]
  | y :: l' => if key x <=? key y then x :: l else y :: sort_insert x l'
  end.

(** [l.sort((a, b) => key(a) - key(b))] *)
Definition sort_by (l : list A) : list A := foldr sort_insert [] l.

Definition sorted_by : list A → Prop := StronglySorted (λ x y, key x ≤ key y).

Lemma sort_insert_perm x l : sort_insert x l ≡ₚ x :: l.
Proof.
  induction l as [|y l IH]; simpl; [done|]. case_match; [done|].
  rewrite IH. apply Permutation_swap.
Qed.

Lemma sort_by_perm l : sort_by l ≡ₚ l.
Proof. induction l as [|x l IH]; simpl; [done|]. by rewrite sort_insert_perm, IH. Qed.

Lemma sort_insert_sorted x l : sorted_by l → sorted_by (sort_insert x l).
Proof.
  unfold sorted_by. induction 1 as [|y l Hl IH Hy]; simpl; [repeat constructor|].
  case_match; bool_to_Z.
  - constructor; [by constructor|]. constructor; [done|].
    eapply Forall_impl; [done|]. simpl. lia.
  - constructor; [done|]. rewrite sort_insert_perm. constructor; [lia|done].
Qed.

Lemma sort_by_sorted l : sorted_by (sort_by l).
Proof. induction l; simpl; [constructor|by apply sort_insert_sorted]. Qed.

(** With distinct keys the sorted order is unique. *)
Lemma sorted_unique l1 l2 :
  sorted_by l1 → sorted_by l2 → l1 ≡ₚ l2 → NoDup (key <$> l1) → l1 = l2.
Proof.
  intros H1. revert l2. induction H1 as [|x l1 Hl1 IH Hx]; intros l2 H2 Hp Hnd.
  { by apply Permutation_nil_l in Hp. }
  destruct H2 as [|y l2 Hl2 Hy]; [by apply Permutation_nil_r in Hp|].
  rewrite fmap_cons in Hnd. inversion Hnd as [|? ? Hni Hnd']; subst.
  assert (x = y) as ->.
  { assert (x ∈ y :: l2) as Hin by (rewrite <-Hp; left).
    assert (y ∈ x :: l1) as Hin' by (rewrite Hp; left).
    apply elem_of_cons in Hin as [->|Hin]; [done|].
    apply elem_of_cons in Hin' as [->|Hin']; [done|].
    rewrite Forall_forall in Hx, Hy. specialize (Hx _ Hin'). specialize (Hy _ Hin).
    destruct Hni. replace (key x) with (key y) by lia. by apply list_elem_of_fmap_2. }
  f_equal. apply IH; [done| |done]. by apply Permutation_cons_inv in Hp.
Qed.

Lemma sort_by_unique l1 l2 :
  l1 ≡ₚ l2 → NoDup (key <$> l1) → sort_by l1 = sort_by l2.
Proof.
  intros Hp Hnd. apply sorted_unique; [apply sort_by_sorted..| |].
  - by rewrite !sort_by_perm.
  - by rewrite sort_by_perm.
Qed.

Lemma elem_of_sort_by x l : x ∈ sort_by l ↔ x ∈ l.
Proof. by rewrite sort_by_perm. Qed.
End sort.
