(* ===== verification/Utf8.v ===== *)
(** [TextEncoder] and the fatal [TextDecoder]: UTF-16 strings to UTF-8 bytes and
    back, and the round trip on well-formed strings. *)
From S2P Require Import Prelude JsString.

Definition is_byte (b : Z) : Prop := 0 ≤ b < 256.
Abbreviation bytes := (list Z).
Abbreviation wf_bytes := (Forall is_byte).

(** * Surrogates and code points *)

Definition is_high (c : Z) : bool := (0xD800 <=? c) && (c <=? 0xDBFF).
Definition is_low (c : Z) : bool := (0xDC00 <=? c) && (c <=? 0xDFFF).
Definition is_surrogate (c : Z) : bool := is_high c || is_low c.

Definition pair_value (h l : Z) : Z := 0x10000 + (h - 0xD800) * 1024 + (l - 0xDC00).

(** The code points of a string; a lone surrogate stands for itself. *)
Fixpoint code_points (s : jsstr) : list Z :=
  match s with
  | [] => []
  | c :: s' =>
      if is_high c then
        match s' with
        | d :: s'' => if is_low d then pair_value c d :: code_points s'' else c :: code_points s'
        | [] => [c]
        end
      else c :: code_points s'
  end.

(** No lone surrogate. *)
Fixpoint wf_utf16 (s : jsstr) : bool :=
  match s with
  | [] => true
  | c :: s' =>
      if is_high c then
        match s' with
        | d :: s'' => is_low d && wf_utf16 s''
        | [] => false
        end
      else negb (is_low c) && wf_utf16 s'
  end.

(** The UTF-16 units of a code point. *)
Definition units_of (cp : Z) : jsstr :=
  if cp <? 0x10000 then [cp]
  else [0xD800 + (cp - 0x10000) / 1024; 0xDC00 + (cp - 0x10000) mod 1024].

(** * UTF-8 *)

Definition encode_cp (cp : Z) : bytes :=
  if cp <? 0x80 then [cp]
  else if cp <? 0x800 then [0xC0 + cp / 64; 0x80 + cp mod 64]
  else if cp <? 0x10000 then [0xE0 + cp / 4096; 0x80 + (cp / 64) mod 64; 0x80 + cp mod 64]
  else [0xF0 + cp / 262144; 0x80 + (cp / 4096) mod 64; 0x80 + (cp / 64) mod 64; 0x80 + cp mod 64].

(** [new TextEncoder().encode(s)]: a lone surrogate becomes U+FFFD. *)
Definition utf8_encode (s : jsstr) : bytes :=
  code_points s ≫= λ cp, encode_cp (if is_surrogate cp then 0xFFFD else cp).

Definition is_cont (b : Z) : bool := (0x80 <=? b) && (b <=? 0xBF).

Definition is_scalar (cp : Z) : bool :=
  (0 <=? cp) && (cp <=? 0x10FFFF) && negb (is_surrogate cp).

(** The decoder's strict reading of the code points: [None] is the [TypeError]
    of a fatal decoder.  Overlong forms, surrogates and values past U+10FFFF are
    errors. *)
Fixpoint decode_cps (b : bytes) : option (list Z) :=
  match b with
  | [] => Some []
  | b0 :: r0 =>
      if (0 <=? b0) && (b0 <? 0x80) then cons b0 <$> decode_cps r0
      else match r0 with
      | [] => None
      | b1 :: r1 =>
          if negb (is_cont b1) then None
          else if (0xC2 <=? b0) && (b0 <=? 0xDF) then
            cons ((b0 - 0xC0) * 64 + (b1 - 0x80)) <$> decode_cps r1
          else match r1 with
          | [] => None
          | b2 :: r2 =>
              if negb (is_cont b2) then None
              else if (0xE0 <=? b0) && (b0 <=? 0xEF) then
                let cp := (b0 - 0xE0) * 4096 + (b1 - 0x80) * 64 + (b2 - 0x80) in
                if (0x800 <=? cp) && is_scalar cp then cons cp <$> decode_cps r2 else None
              else match r2 with
              | [] => None
              | b3 :: r3 =>
                  if negb (is_cont b3) then None
                  else if (0xF0 <=? b0) && (b0 <=? 0xF4) then
                    let cp := (b0 - 0xF0) * 262144 + (b1 - 0x80) * 4096
                              + (b2 - 0x80) * 64 + (b3 - 0x80) in
                    if (0x10000 <=? cp) && is_scalar cp then cons cp <$> decode_cps r3 else None
                  else None
              end
          end
      end
  end.

(** A leading byte order mark is dropped, the default of [TextDecoder]. *)
Definition strip_bom (b : bytes) : bytes :=
  match b with
  | 0xEF :: 0xBB :: 0xBF :: b' => b'
  | _ => b
  end.

(** [new TextDecoder('utf-8', {fatal: true}).decode(b)] *)
Definition utf8_decode (b : bytes) : option jsstr :=
  mbind units_of <$> decode_cps (strip_bom b).

(** * Lemmas *)

#[local] Ltac Zify.zify_post_hook ::= Z.div_mod_to_equations.

(** Decides the comparisons of the goal whose value follows by [lia]. *)
Ltac decide_comparisons :=
  repeat match goal with
    | |- context [?a <=? ?b] =>
        first [rewrite (proj2 (Z.leb_le a b)) by lia | rewrite (proj2 (Z.leb_gt a b)) by lia]
    | |- context [?a <? ?b] =>
        first [rewrite (proj2 (Z.ltb_lt a b)) by lia | rewrite (proj2 (Z.ltb_ge a b)) by lia]
    | |- context [?a =? ?b] =>
        first [rewrite (proj2 (Z.eqb_eq a b)) by lia | rewrite (proj2 (Z.eqb_neq a b)) by lia]
    end; simpl.

(** Induction that gives the hypothesis for the tail and the tail's tail. *)
Lemma list_two_step {A} (P : list A → Prop) :
  P [] → (∀ c s, P s → (∀ d s', s = d :: s' → P s') → P (c :: s)) → ∀ s, P s.
Proof.
  intros H0 Hs s. enough (P s ∧ ∀ d s', s = d :: s' → P s') as [? ?] by done.
  induction s as [|c s [IH1 IH2]]; [split; [done|by intros]|].
  split; [by apply Hs|]. intros d s' [= -> ->]. done.
Qed.

Lemma is_high_spec c : is_high c = true ↔ 0xD800 ≤ c ≤ 0xDBFF.
Proof. unfold is_high. rewrite andb_true_iff, !Z.leb_le. lia. Qed.
Lemma is_low_spec c : is_low c = true ↔ 0xDC00 ≤ c ≤ 0xDFFF.
Proof. unfold is_low. rewrite andb_true_iff, !Z.leb_le. lia. Qed.

Lemma is_scalar_spec cp :
  is_scalar cp = true ↔ 0 ≤ cp ≤ 0x10FFFF ∧ ¬ (0xD800 ≤ cp ≤ 0xDFFF).
Proof.
  unfold is_scalar, is_surrogate. rewrite !andb_true_iff, negb_true_iff, orb_false_iff, !Z.leb_le.
  rewrite <-!not_true_iff_false, is_high_spec, is_low_spec. lia.
Qed.

Lemma decode_encode_cp cp r :
  is_scalar cp = true → decode_cps (encode_cp cp ++ r) = cons cp <$> decode_cps r.
Proof.
  intros Hs. pose proof (proj1 (is_scalar_spec cp) Hs) as [Hr Hns].
  unfold encode_cp.
  destruct (cp <? 0x80) eqn:E1; [bool_to_Z; simpl; decide_comparisons; done|].
  destruct (cp <? 0x800) eqn:E2.
  { bool_to_Z. simpl. unfold is_cont. decide_comparisons. do 2 f_equal. lia. }
  destruct (cp <? 0x10000) eqn:E3; bool_to_Z; simpl; unfold is_cont; decide_comparisons.
  - replace ((224 + cp / 4096 - 224) * 4096 + (128 + (cp / 64) mod 64 - 128) * 64
      + (128 + cp mod 64 - 128)) with cp by lia.
    rewrite Hs. decide_comparisons. done.
  - replace ((240 + cp / 262144 - 240) * 262144 + (128 + (cp / 4096) mod 64 - 128) * 4096
      + (128 + (cp / 64) mod 64 - 128) * 64 + (128 + cp mod 64 - 128)) with cp by lia.
    rewrite Hs. decide_comparisons. done.
Qed.

Lemma encode_cp_wf cp : is_scalar cp = true → wf_bytes (encode_cp cp).
Proof.
  intros [? ?]%is_scalar_spec. unfold encode_cp, is_byte.
  repeat case_match; bool_to_Z; repeat constructor; lia.
Qed.

Lemma wf_utf16_cons c s :
  wf_utf16 (c :: s) = true →
  (is_surrogate c = false ∧ wf_utf16 s = true)
  ∨ ∃ d s', s = d :: s' ∧ is_high c = true ∧ is_low d = true ∧ wf_utf16 s' = true.
Proof.
  simpl. destruct (is_high c) eqn:Eh.
  - destruct s as [|d s']; [done|]. intros [? ?]%andb_prop. right. by exists d, s'.
  - intros [El%negb_true_iff ?]%andb_prop. left. unfold is_surrogate. by rewrite Eh, El.
Qed.

Lemma code_points_pair c d s :
  is_high c = true → is_low d = true → code_points (c :: d :: s) = pair_value c d :: code_points s.
Proof. intros H1 H2. simpl. by rewrite H1, H2. Qed.

Lemma code_points_single c s : is_surrogate c = false → code_points (c :: s) = c :: code_points s.
Proof. unfold is_surrogate. intros [H ?]%orb_false_elim. simpl. by rewrite H. Qed.

Lemma pair_value_scalar c d :
  is_high c = true → is_low d = true →
  is_scalar (pair_value c d) = true ∧ is_surrogate (pair_value c d) = false
  ∧ units_of (pair_value c d) = [c; d].
Proof.
  intros Hc%is_high_spec Hd%is_low_spec.
  assert (0x10000 ≤ pair_value c d ≤ 0x10FFFF) as Hv by (unfold pair_value; lia).
  assert (is_scalar (pair_value c d) = true) as Hs by (apply is_scalar_spec; lia).
  split_and!; [done|by unfold is_scalar in Hs; bool_to_Z|].
  unfold units_of. rewrite (proj2 (Z.ltb_ge _ _)) by lia. unfold pair_value.
  f_equal; [|f_equal]; lia.
Qed.

(** On well-formed strings the code points are scalar values and spell the string. *)
Lemma code_points_wf s :
  wf_str s → wf_utf16 s = true →
  Forall (λ cp, is_scalar cp = true) (code_points s) ∧ code_points s ≫= units_of = s.
Proof.
  induction s as [|c s IH1 IH2] using list_two_step; [by split; [constructor|]|].
  intros Hw Hu. inversion Hw as [|? ? Hc Hw']; subst. unfold is_unit in Hc.
  apply wf_utf16_cons in Hu as [[Hns Hu]|(d & s' & -> & Hh & Hl & Hu)].
  - destruct (IH1 Hw' Hu) as [IHs IHu].
    rewrite code_points_single by done. split.
    + constructor; [|done]. apply is_scalar_spec. unfold is_surrogate in Hns.
      apply orb_false_elim in Hns as [Hnh Hnl].
      rewrite <-not_true_iff_false, is_high_spec in Hnh.
      rewrite <-not_true_iff_false, is_low_spec in Hnl. lia.
    + rewrite bind_cons. rewrite IHu. unfold units_of.
      rewrite (proj2 (Z.ltb_lt _ _)) by lia. done.
  - inversion Hw' as [|? ? Hd Hw'']; subst.
    destruct (IH2 d s' eq_refl Hw'' Hu) as [IHs IHu].
    rewrite code_points_pair by done.
    destruct (pair_value_scalar c d Hh Hl) as (Hsc & _ & Hun). split.
    + by constructor.
    + rewrite bind_cons. by rewrite Hun, IHu.
Qed.

Lemma scalar_not_surrogate cp : is_scalar cp = true → is_surrogate cp = false.
Proof. unfold is_scalar. intros H. by bool_to_Z. Qed.

Lemma decode_cps_encode cps r :
  Forall (λ cp, is_scalar cp = true) cps →
  decode_cps ((cps ≫= λ cp, encode_cp (if is_surrogate cp then 0xFFFD else cp)) ++ r)
  = app cps <$> decode_cps r.
Proof.
  induction 1 as [|cp cps Hcp _ IH]; [by simpl; destruct (decode_cps r)|].
  rewrite bind_cons, (scalar_not_surrogate cp Hcp), <-(assoc_L (++)), decode_encode_cp, IH by done.
  by destruct (decode_cps r).
Qed.

Lemma utf8_encode_wf s : wf_str s → wf_utf16 s = true → wf_bytes (utf8_encode s).
Proof.
  intros Hw Hu. destruct (code_points_wf s Hw Hu) as [Hs _]. unfold utf8_encode.
  induction Hs as [|cp cps Hcp _ IH]; [constructor|].
  rewrite bind_cons, (scalar_not_surrogate cp Hcp). apply Forall_app. by split; [apply encode_cp_wf|].
Qed.

(** Decoding what was encoded, for a string that does not start with U+FEFF. *)
Lemma utf8_decode_encode s :
  wf_str s → wf_utf16 s = true → strip_bom (utf8_encode s) = utf8_encode s →
  utf8_decode (utf8_encode s) = Some s.
Proof.
  intros Hw Hu Hb. unfold utf8_decode. rewrite Hb. unfold utf8_encode.
  destruct (code_points_wf s Hw Hu) as [Hs Hsp].
  pose proof (decode_cps_encode (code_points s) [] Hs) as H.
  rewrite app_nil_r in H. rewrite H. simpl. by rewrite app_nil_r, Hsp.
Qed.

Lemma strip_bom_ascii b r : 0 ≤ b < 0x80 → strip_bom (b :: r) = b :: r.
Proof.
  intros Hb. unfold strip_bom. repeat (case_match; try done); subst; lia.
Qed.

Lemma utf8_encode_ascii_cons c s :
  0 ≤ c < 0x80 → utf8_encode (c :: s) = c :: utf8_encode s.
Proof.
  intros Hc. unfold utf8_encode.
  assert (is_surrogate c = false) as Hns.
  { unfold is_surrogate, is_high, is_low. decide_comparisons. done. }
  rewrite code_points_single by done. rewrite bind_cons, Hns.
  unfold encode_cp. by decide_comparisons.
Qed.

Lemma wf_utf16_app s t : wf_utf16 s = true → wf_utf16 t = true → wf_utf16 (s ++ t) = true.
Proof.
  induction s as [|c s IH1 IH2] using list_two_step; [done|].
  intros Hs Ht. apply wf_utf16_cons in Hs as [[Hns Hs]|(d & s' & -> & Hh & Hl & Hs)].
  - unfold is_surrogate in Hns. apply orb_false_elim in Hns as [Hh Hl].
    simpl. rewrite Hh, Hl. simpl. by apply IH1.
  - simpl. rewrite Hh, Hl. simpl. by eapply IH2.
Qed.

Lemma wf_utf16_ascii s : Forall is_ascii s → wf_utf16 s = true.
Proof.
  induction 1 as [|c s Hc _ IH]; [done|]. unfold is_ascii in Hc. simpl. unfold is_high, is_low.
  decide_comparisons. done.
Qed.
