(* ===== verification/Json.v ===== *)
(** [JSON.stringify] and [JSON.parse] on the values the code exchanges, and the
    round trip between them.

    Numbers are printed by the engine's Number-to-string algorithm, which is the
    class [JsonNumbers]; its laws are the ones ECMAScript documents (a finite
    Number other than -0 is read back from its own spelling, an integer below
    10^21 is spelled in decimal), with an instance for the integers. *)
From S2P Require Import Prelude JsString Utf8.

#[local] Set Warnings "-register-all".

(** * Values *)

Inductive json : Type :=
  | JNull
  | JBool (b : bool)
  | JNum (n : number)
  | JStr (s : jsstr)
  | JArr (l : list json)
  | JObj (l : list (jsstr * json)).

Section json_induction.
Context (P : json → Prop).
Context (Hnull : P JNull) (Hbool : ∀ b, P (JBool b)) (Hnum : ∀ n, P (JNum n))
  (Hstr : ∀ s, P (JStr s)) (Harr : ∀ l, Forall P l → P (JArr l))
  (Hobj : ∀ l, Forall (λ kv, P kv.2) l → P (JObj l)).

Fixpoint json_nested_ind (v : json) : P v :=
  match v with
  | JNull => Hnull
  | JBool b => Hbool b
  | JNum n => Hnum n
  | JStr s => Hstr s
  | JArr l => Harr l ((fix go l : Forall P l :=
      match l with
      | [] => Forall_nil_2 P
      | x :: l' => Forall_cons_2 P x l' (json_nested_ind x) (go l')
      end) l)
  | JObj l => Hobj l ((fix go l : Forall (λ kv, P kv.2) l :=
      match l with
      | [] => Forall_nil_2 _
      | x :: l' => Forall_cons_2 _ x l' (json_nested_ind x.2) (go l')
      end) l)
  end.
End json_induction.

(** Property access on a parsed value: [None] is [undefined].  A repeated key
    keeps its last value, as [JSON.parse] does. *)
Fixpoint assoc_last (k : jsstr) (l : list (jsstr * json)) : option json :=
  match l with
  | [] => None
  | (k', v) :: l' =>
      match assoc_last k l' with
      | Some w => Some w
      | None => if decide (k' = k) then Some v else None
      end
  end.

Definition obj_get (v : json) (k : jsstr) : option json :=
  match v with JObj l => assoc_last k l | _ => None end.

(** * Printing *)

Class JsonNumbers := {
  num_print : number → jsstr;    (* JSON.stringify(n) *)
  num_parse : jsstr → number;    (* the value of a JSON number token *)
  num_stable : number → bool;    (* finite and not -0 *)
}.

Definition hex_digit (d : Z) : Z := if d <? 10 then 48 + d else 87 + d.

(** [\uXXXX] with lowercase digits. *)
Definition unicode_escape (c : Z) : jsstr :=
  [92; 117; hex_digit (c / 4096); hex_digit ((c / 256) mod 16);
   hex_digit ((c / 16) mod 16); hex_digit (c mod 16)].

Definition escape_unit (c : Z) : jsstr :=
  if c =? 8 then [92; 98] else if c =? 9 then [92; 116] else if c =? 10 then [92; 110]
  else if c =? 12 then [92; 102] else if c =? 13 then [92; 114]
  else if c =? 34 then [92; 34] else if c =? 92 then [92; 92]
  else if c <? 32 then unicode_escape c else [c].

(** QuoteJSONString: surrogate pairs are kept, lone surrogates escaped. *)
Fixpoint quote_units (s : jsstr) : jsstr :=
  match s with
  | [] => []
  | c :: s' =>
      if is_high c then
        match s' with
        | d :: s'' => if is_low d then c :: d :: quote_units s'' else unicode_escape c ++ quote_units s'
        | [] => unicode_escape c
        end
      else if is_low c then unicode_escape c ++ quote_units s'
      else escape_unit c ++ quote_units s'
  end.

Definition quote (s : jsstr) : jsstr := 34 :: quote_units s ++ [34].

Section stringify.
Context `{JsonNumbers}.

Fixpoint stringify (v : json) : jsstr :=
  match v with
  | JNull => js "null"
  | JBool true => js "true"
  | JBool false => js "false"
  | JNum n => num_print n
  | JStr s => quote s
  | JArr l => 91 :: (fix elems (l : list json) : jsstr :=
      match l with
      | [] => []
      | v :: l' => stringify v ++ match l' with [] => [] | _ => 44 :: elems l' end
      end) l ++ [93]
  | JObj l => 123 :: (fix members (l : list (jsstr * json)) : jsstr :=
      match l with
      | [] => []
      | kv :: l' => quote kv.1 ++ 58 :: stringify kv.2
                    ++ match l' with [] => [] | _ => 44 :: members l' end
      end) l ++ [125]
  end.

Fixpoint print_elems (l : list json) : jsstr :=
  match l with
  | [] => []
  | v :: l' => stringify v ++ match l' with [] => [] | _ => 44 :: print_elems l' end
  end.

Fixpoint print_members (l : list (jsstr * json)) : jsstr :=
  match l with
  | [] => []
  | kv :: l' => quote kv.1 ++ 58 :: stringify kv.2
                ++ match l' with [] => [] | _ => 44 :: print_members l' end
  end.

Lemma stringify_arr l : stringify (JArr l) = 91 :: print_elems l ++ [93].
Proof. done. Qed.
Lemma stringify_obj l : stringify (JObj l) = 123 :: print_members l ++ [125].
Proof. done. Qed.
End stringify.

(** * Parsing *)

Definition is_json_ws (c : Z) : bool := (c =? 32) || (c =? 9) || (c =? 10) || (c =? 13).

Fixpoint skip_ws (s : jsstr) : jsstr :=
  match s with
  | [] => []
  | c :: s' => if is_json_ws c then skip_ws s' else s
  end.

Fixpoint span (f : Z → bool) (s : jsstr) : jsstr * jsstr :=
  match s with
  | [] => ([], [])
  | c :: s' => if f c then let '(a, b) := span f s' in (c :: a, b) else ([], s)
  end.

Definition is_numchar (c : Z) : bool :=
  is_digit c || (c =? 43) || (c =? 45) || (c =? 46) || (c =? 69) || (c =? 101).

(** The JSON number grammar: [-? (0|[1-9][0-9]* ) (.[0-9]+)? ([eE][+-]?[0-9]+)?]. *)
Definition exponent_ok (s : jsstr) : bool :=
  match s with
  | [] => true
  | e :: r =>
      ((e =? 69) || (e =? 101)) &&
      let r' := match r with c :: r' => if (c =? 43) || (c =? 45) then r' else r | [] => r end in
      let '(x, rest) := span is_digit r' in
      negb (bool_decide (x = [])) && bool_decide (rest = [])
  end.

Definition fraction_ok (s : jsstr) : bool :=
  match s with
  | c :: r =>
      if c =? 46 then
        let '(f, rest) := span is_digit r in negb (bool_decide (f = [])) && exponent_ok rest
      else exponent_ok s
  | [] => true
  end.

Definition is_number_token (t : jsstr) : bool :=
  let u := match t with c :: r => if c =? 45 then r else t | [] => t end in
  let '(i, rest) := span is_digit u in
  match i with
  | [] => false
  | c :: i' => ((negb (c =? 48)) || bool_decide (i' = [])) && fraction_ok rest
  end.

Definition simple_escape (e : Z) : option Z :=
  if e =? 34 then Some 34 else if e =? 92 then Some 92 else if e =? 47 then Some 47
  else if e =? 98 then Some 8 else if e =? 102 then Some 12 else if e =? 110 then Some 10
  else if e =? 114 then Some 13 else if e =? 116 then Some 9 else None.

Definition push_unit (c : Z) (o : option (jsstr * jsstr)) : option (jsstr * jsstr) :=
  match o with Some (s, r) => Some (c :: s, r) | None => None end.

(** The characters of a string literal after its opening quote. *)
Fixpoint parse_string (s : jsstr) : option (jsstr * jsstr) :=
  match s with
  | [] => None
  | c :: r =>
      if c =? 34 then Some ([], r)
      else if c =? 92 then
        match r with
        | [] => None
        | e :: r1 =>
            if e =? 117 then
              match r1 with
              | h1 :: h2 :: h3 :: h4 :: r2 =>
                  if forallb is_hex [h1; h2; h3; h4]
                  then push_unit (hex_digit_value h1 * 4096 + hex_digit_value h2 * 256
                                  + hex_digit_value h3 * 16 + hex_digit_value h4) (parse_string r2)
                  else None
              | _ => None
              end
            else match simple_escape e with
                 | Some x => push_unit x (parse_string r1)
                 | None => None
                 end
        end
      else if c <? 32 then None
      else push_unit c (parse_string r)
  end.

Section parse.
Context `{JsonNumbers}.

Definition parse_literal (s : jsstr) : option (json * jsstr) :=
  if startsWith (js "true") s then Some (JBool true, drop 4 s)
  else if startsWith (js "false") s then Some (JBool false, drop 5 s)
  else if startsWith (js "null") s then Some (JNull, drop 4 s)
  else let '(t, r) := span is_numchar s in
       if is_number_token t then Some (JNum (num_parse t), r) else None.

Fixpoint parse_value (fuel : nat) (s : jsstr) : option (json * jsstr) :=
  match fuel with
  | O => None
  | S f =>
      match skip_ws s with
      | [] => None
      | c :: r =>
          if c =? 34 then '(x, r') ← parse_string r; Some (JStr x, r')
          else if c =? 91 then
            match skip_ws r with
            | d :: r' => if d =? 93 then Some (JArr [], r')
                         else '(l, r'') ← parse_elems f r; Some (JArr l, r'')
            | [] => None
            end
          else if c =? 123 then
            match skip_ws r with
            | d :: r' => if d =? 125 then Some (JObj [], r')
                         else '(l, r'') ← parse_members f r; Some (JObj l, r'')
            | [] => None
            end
          else parse_literal (c :: r)
      end
  end
with parse_elems (fuel : nat) (s : jsstr) : option (list json * jsstr) :=
  match fuel with
  | O => None
  | S f =>
      '(v, r) ← parse_value f s;
      match skip_ws r with
      | d :: r' =>
          if d =? 44 then '(l, r'') ← parse_elems f r'; Some (v :: l, r'')
          else if d =? 93 then Some ([v], r') else None
      | [] => None
      end
  end
with parse_members (fuel : nat) (s : jsstr) : option (list (jsstr * json) * jsstr) :=
  match fuel with
  | O => None
  | S f =>
      match skip_ws s with
      | q :: r =>
          if q =? 34 then
            '(k, r1) ← parse_string r;
            match skip_ws r1 with
            | d :: r2 =>
                if d =? 58 then
                  '(v, r3) ← parse_value f r2;
                  match skip_ws r3 with
                  | e :: r4 =>
                      if e =? 44 then '(l, r5) ← parse_members f r4; Some ((k, v) :: l, r5)
                      else if e =? 125 then Some ([(k, v)], r4) else None
                  | [] => None
                  end
                else None
            | [] => None
            end
          else None
      | [] => None
      end
  end.

(** [JSON.parse(s)]; [None] is the [SyntaxError].  Two units of fuel per
    character are enough, see [json_parse_fuel]. *)
Definition json_parse (s : jsstr) : option json :=
  '(v, r) ← parse_value (2 * length s + 2) s;
  match skip_ws r with [] => Some v | _ => None end.
End parse.

(** * The laws of number printing *)

Class JsonNumbersLaws `{JsonNumbers} : Prop := {
  num_print_token n : num_stable n = true → is_number_token (num_print n) = true;
  num_parse_print n : num_stable n = true → num_parse (num_print n) = n;
  num_print_int z : Z.abs z < 10 ^ 21 → num_print (Int z) = dec_Z z;
  num_stable_int z : Z.abs z ≤ 2 ^ 53 - 1 → num_stable (Int z) = true;
}.

(** Well-formed values: code units in range, numbers that survive printing. *)
Fixpoint json_ok `{JsonNumbers} (v : json) : Prop :=
  match v with
  | JNull | JBool _ => True
  | JNum n => num_stable n = true
  | JStr s => wf_str s
  | JArr l => (fix go (l : list json) : Prop :=
      match l with [] => True | v :: l' => json_ok v ∧ go l' end) l
  | JObj l => (fix go (l : list (jsstr * json)) : Prop :=
      match l with [] => True | kv :: l' => wf_str kv.1 ∧ json_ok kv.2 ∧ go l' end) l
  end.

Lemma json_ok_arr `{JsonNumbers} l : json_ok (JArr l) ↔ Forall json_ok l.
Proof.
  induction l as [|v l IH]; [by split; [constructor|]|].
  rewrite Forall_cons, <-IH. done.
Qed.

Lemma json_ok_obj `{JsonNumbers} l :
  json_ok (JObj l) ↔ Forall (λ kv, wf_str kv.1 ∧ json_ok kv.2) l.
Proof.
  induction l as [|v l IH]; [by split; [constructor|]|].
  rewrite Forall_cons, <-IH. simpl. tauto.
Qed.

(** * String literals *)

#[local] Ltac Zify.zify_post_hook ::= Z.div_mod_to_equations.

Lemma hex_digit_ok d :
  0 ≤ d < 16 → is_hex (hex_digit d) = true ∧ hex_digit_value (hex_digit d) = d.
Proof.
  intros Hd. unfold is_hex, is_lower_hex, is_upper_hex, hex_digit_value, is_lower_hex, is_digit, hex_digit.
  destruct (d <? 10) eqn:E; bool_to_Z; decide_comparisons; split; (done || lia).
Qed.

Lemma parse_unicode_escape c r :
  is_unit c → parse_string (unicode_escape c ++ r) = push_unit c (parse_string r).
Proof.
  unfold is_unit. intros Hc. unfold unicode_escape.
  destruct (hex_digit_ok (c / 4096)) as [H1 V1]; [lia|].
  destruct (hex_digit_ok ((c / 256) mod 16)) as [H2 V2]; [lia|].
  destruct (hex_digit_ok ((c / 16) mod 16)) as [H3 V3]; [lia|].
  destruct (hex_digit_ok (c mod 16)) as [H4 V4]; [lia|].
  simpl. rewrite H1, H2, H3, H4, V1, V2, V3, V4. simpl. f_equal. lia.
Qed.

Lemma parse_string_plain c r :
  32 ≤ c → c ≠ 34 → c ≠ 92 → parse_string (c :: r) = push_unit c (parse_string r).
Proof. intros. simpl. by decide_comparisons. Qed.

Lemma parse_escape_unit c r :
  0 ≤ c → is_surrogate c = false → parse_string (escape_unit c ++ r) = push_unit c (parse_string r).
Proof.
  intros Hc Hs. unfold escape_unit.
  repeat match goal with
    | |- context [if c =? ?b then _ else _] => destruct (Z.eqb_spec c b); [subst; done|]
    end.
  destruct (c <? 32) eqn:E; bool_to_Z.
  - apply parse_unicode_escape. unfold is_unit. lia.
  - by apply parse_string_plain.
Qed.

(** One step of [quote_units], by the kind of the first unit. *)
Lemma quote_units_pair c d s :
  is_high c = true → is_low d = true → quote_units (c :: d :: s) = c :: d :: quote_units s.
Proof. intros H1 H2. simpl. by rewrite H1, H2. Qed.

Lemma quote_units_single c s :
  match s with d :: _ => is_high c && is_low d = false | [] => True end →
  quote_units (c :: s)
  = (if is_surrogate c then unicode_escape c else escape_unit c) ++ quote_units s.
Proof.
  unfold is_surrogate. intros Hs. destruct (is_high c) eqn:Eh.
  - destruct s as [|d s]; simpl; rewrite Eh; simpl; [done|].
    simpl in Hs. by rewrite Hs.
  - simpl. rewrite Eh. by destruct (is_low c).
Qed.

(** Case analysis on the first unit of a string: a surrogate pair or a single unit. *)
Lemma units_cases c s :
  (∃ d s', s = d :: s' ∧ is_high c = true ∧ is_low d = true)
  ∨ match s with d :: _ => is_high c && is_low d = false | [] => True end.
Proof.
  destruct s as [|d s]; [by right|].
  destruct (is_high c) eqn:E1; [|by right].
  destruct (is_low d) eqn:E2; [left; eauto|by right].
Qed.

Lemma parse_quote_units s r :
  wf_str s → parse_string (quote_units s ++ 34 :: r) = Some (s, r).
Proof.
  induction s as [|c s IH1 IH2] using list_two_step; intros Hw; [done|].
  inversion Hw as [|? ? Hc Hw']; subst.
  destruct (units_cases c s) as [(d & s' & -> & Eh & El)|Hs].
  - rewrite quote_units_pair by done. rewrite <-!app_comm_cons.
    inversion Hw' as [|? ? Hd Hw'']; subst.
    assert (32 ≤ c ∧ c ≠ 34 ∧ c ≠ 92) as (? & ? & ?) by (apply is_high_spec in Eh; lia).
    assert (32 ≤ d ∧ d ≠ 34 ∧ d ≠ 92) as (? & ? & ?) by (apply is_low_spec in El; lia).
    rewrite !parse_string_plain by done. by rewrite (IH2 d s' eq_refl Hw'').
  - rewrite quote_units_single, <-(assoc_L (++)) by done.
    destruct (is_surrogate c) eqn:Es.
    + rewrite parse_unicode_escape by done. by rewrite IH1.
    + rewrite parse_escape_unit; [by rewrite IH1|by destruct Hc|done].
Qed.

(** * Numbers *)

(** What may follow a value: nothing, or a unit no number contains. *)
Definition delimited (r : jsstr) : Prop :=
  match r with [] => True | c :: _ => is_numchar c = false end.

Lemma span_app f s r :
  forallb f s = true → match r with [] => True | c :: _ => f c = false end →
  span f (s ++ r) = (s, r).
Proof.
  induction s as [|c s IH]; simpl; intros Hs Hr.
  - destruct r as [|c r]; [done|]. simpl. by rewrite Hr.
  - apply andb_prop in Hs as [-> Hs]. by rewrite IH.
Qed.

Lemma span_eq f s : let '(a, b) := span f s in s = a ++ b ∧ forallb f a = true.
Proof.
  induction s as [|c s IH]; simpl; [done|]. destruct (f c) eqn:E; [|done].
  destruct (span f s) as [a b]. destruct IH as [-> IH]. simpl. by rewrite E.
Qed.

Lemma numchar_digits s : forallb is_digit s = true → forallb is_numchar s = true.
Proof.
  induction s as [|c s IH]; simpl; [done|]. intros [Hc Hs]%andb_prop.
  unfold is_numchar at 1. rewrite Hc, IH by done. done.
Qed.

Lemma exponent_numchar s : exponent_ok s = true → forallb is_numchar s = true.
Proof.
  destruct s as [|e r]; [done|]. unfold exponent_ok. intros [He Hr]%andb_prop.
  assert (is_numchar e = true) as Hn.
  { unfold is_numchar. apply orb_prop in He as [->| ->]; by rewrite ?orb_true_r. }
  simpl. rewrite Hn. simpl. destruct r as [|c r']; [done|].
  destruct ((c =? 43) || (c =? 45)) eqn:Ec.
  - pose proof (span_eq is_digit r') as Hsp. destruct (span is_digit r') as [x rest].
    destruct Hsp as [-> Hx]. bool_to_Z. subst. simpl. rewrite app_nil_r.
    rewrite numchar_digits by done. unfold is_numchar.
    apply orb_prop in Ec as [->| ->]; by rewrite ?orb_true_r.
  - pose proof (span_eq is_digit (c :: r')) as Hsp. destruct (span is_digit (c :: r')) as [x rest].
    destruct Hsp as [-> Hx]. bool_to_Z. subst. rewrite app_nil_r. by apply numchar_digits.
Qed.

Lemma fraction_numchar s : fraction_ok s = true → forallb is_numchar s = true.
Proof.
  destruct s as [|c r]; [done|]. unfold fraction_ok. destruct (c =? 46) eqn:Ec.
  - pose proof (span_eq is_digit r) as Hsp. destruct (span is_digit r) as [f rest].
    destruct Hsp as [-> Hf]. intros [_ He]%andb_prop. simpl. rewrite forallb_app.
    rewrite numchar_digits, exponent_numchar by done.
    unfold is_numchar. rewrite Ec. by rewrite ?orb_true_r.
  - apply exponent_numchar.
Qed.

(** A token is made of number characters and starts with a digit or a sign. *)
Lemma number_token_shape t :
  is_number_token t = true →
  forallb is_numchar t = true ∧ ∃ c t', t = c :: t' ∧ (c = 45 ∨ is_digit c = true).
Proof.
  assert (∀ u, (let '(i, rest) := span is_digit u in
    match i with
    | [] => false
    | c :: i' => ((negb (c =? 48)) || bool_decide (i' = [])) && fraction_ok rest
    end) = true →
    forallb is_numchar u = true ∧ ∃ c u', u = c :: u' ∧ is_digit c = true) as Hu.
  { intros u. pose proof (span_eq is_digit u) as Hsp. destruct (span is_digit u) as [i rest].
    destruct Hsp as [-> Hi]. destruct i as [|c i]; [done|]. intros [_ Hf]%andb_prop.
    rewrite forallb_app, (numchar_digits (c :: i)), fraction_numchar by done.
    split; [done|]. exists c, (i ++ rest). split; [done|].
    simpl in Hi. by apply andb_prop in Hi as [? _]. }
  unfold is_number_token. destruct t as [|c t]; [done|].
  destruct (c =? 45) eqn:Ec; intros H; apply Hu in H as [H1 (d & u & E & Hd)].
  - apply Z.eqb_eq in Ec as ->. split; [by simpl|]. eauto.
  - split; [done|]. injection E as -> ->. eauto.
Qed.

(** * The round trip *)

Section roundtrip.
Context `{JsonNumbersLaws}.

Definition value_start (c : Z) : Prop :=
  c = 34 ∨ c = 91 ∨ c = 123 ∨ c = 110 ∨ c = 116 ∨ c = 102 ∨ c = 45 ∨ 48 ≤ c ≤ 57.

Lemma stringify_start v : json_ok v → ∃ c t, stringify v = c :: t ∧ value_start c.
Proof.
  assert (∀ c t, value_start c → ∃ c' t', c :: t = c' :: t' ∧ value_start c') as Hst by eauto.
  destruct v as [|b|n|s|l|l]; intros Hok.
  - apply (Hst 110). unfold value_start. lia.
  - destruct b; [apply (Hst 116)|apply (Hst 102)]; unfold value_start; lia.
  - destruct (number_token_shape (num_print n)) as [_ (c & t & E & Hc)].
    { by apply num_print_token. }
    exists c, t. split; [done|]. unfold value_start. rewrite is_digit_spec in Hc. lia.
  - apply (Hst 34). by left.
  - rewrite stringify_arr. apply (Hst 91). unfold value_start. lia.
  - rewrite stringify_obj. apply (Hst 123). unfold value_start. lia.
Qed.

Lemma skip_ws_start c t : value_start c → skip_ws (c :: t) = c :: t.
Proof. unfold value_start. intros Hc. simpl. unfold is_json_ws. by decide_comparisons. Qed.

Lemma parse_literal_number n r :
  num_stable n = true → delimited r → parse_literal (num_print n ++ r) = Some (JNum n, r).
Proof.
  intros Hn Hr. pose proof (num_print_token n Hn) as Ht.
  destruct (number_token_shape _ Ht) as [Hall (c & t & E & Hc)].
  assert (c = 45 ∨ 48 ≤ c ≤ 57) as Hc' by (by rewrite <-is_digit_spec).
  assert (∀ d p, d ≠ c → startsWith (d :: p) (num_print n ++ r) = false) as Hne.
  { intros d p Hd. rewrite E. simpl. by rewrite (proj2 (Z.eqb_neq _ _) Hd). }
  unfold parse_literal.
  rewrite (Hne 116 (js "rue") ltac:(lia) : startsWith (js "true") _ = false).
  rewrite (Hne 102 (js "alse") ltac:(lia) : startsWith (js "false") _ = false).
  rewrite (Hne 110 (js "ull") ltac:(lia) : startsWith (js "null") _ = false).
  by rewrite (span_app is_numchar (num_print n) r Hall Hr), Ht, num_parse_print.
Qed.

Definition parses (v : json) : Prop := ∀ fuel r,
  delimited r → (2 * length (stringify v) ≤ fuel)%nat →
  parse_value fuel (stringify v ++ r) = Some (v, r).

Lemma parse_elems_print l fuel r :
  l ≠ [] → Forall parses l → Forall json_ok l →
  (2 * length (print_elems l) + 1 ≤ fuel)%nat →
  parse_elems fuel (print_elems l ++ 93 :: r) = Some (l, r).
Proof.
  revert fuel. induction l as [|v l IH]; intros fuel Hne HP Hok Hf; [done|].
  inversion HP as [|? ? HPv HPl]; subst. inversion Hok as [|? ? Hokv Hokl]; subst.
  cbn [print_elems] in *. destruct fuel as [|fuel]; [lia|]. cbn [parse_elems].
  destruct l as [|w l].
  - rewrite app_nil_r in *. by rewrite HPv by (done || lia).
  - rewrite <-(assoc_L (++)), <-app_comm_cons. rewrite length_app, length_cons in Hf.
    rewrite HPv by (done || lia). specialize (IH fuel ltac:(done) HPl Hokl ltac:(lia)).
    clear Hf. generalize dependent (print_elems (w :: l)). intros es IH. simpl. by rewrite IH.
Qed.

Lemma parse_members_print l fuel r :
  l ≠ [] → Forall (λ kv, parses kv.2) l → Forall (λ kv, wf_str kv.1 ∧ json_ok kv.2) l →
  (2 * length (print_members l) + 1 ≤ fuel)%nat →
  parse_members fuel (print_members l ++ 125 :: r) = Some (l, r).
Proof.
  revert fuel. induction l as [|[k v] l IH]; intros fuel Hne HP Hok Hf; [done|].
  inversion HP as [|? ? HPv HPl]; subst. inversion Hok as [|? ? [Hk Hokv] Hokl]; subst.
  cbn [print_members fst snd] in *. destruct fuel as [|fuel]; [lia|].
  rewrite length_app, length_cons, length_app in Hf. cbn [parse_members]. unfold quote at 1. rewrite <-!app_comm_cons.
  rewrite (skip_ws_start 34) by (left; done). cbn [Z.eqb Pos.eqb].
  rewrite <-!(assoc_L (++)). cbn [app]. rewrite parse_quote_units by done.
  cbn [mbind option_bind skip_ws is_json_ws Z.eqb Pos.eqb orb].
  destruct l as [|w l].
  - rewrite <-(assoc_L (++)). by rewrite HPv by (done || lia).
  - rewrite <-!(assoc_L (++)), <-app_comm_cons. rewrite length_cons in Hf.
    rewrite HPv by (done || lia). specialize (IH fuel ltac:(done) HPl Hokl ltac:(lia)).
    clear Hf. generalize dependent (print_members (w :: l)). intros es IH. simpl. by rewrite IH.
Qed.

Lemma quote_length s : (2 ≤ length (quote s))%nat.
Proof. unfold quote. simpl. rewrite length_app. simpl. lia. Qed.

Lemma print_elems_cons_start v l r : json_ok v →
  ∃ c t, print_elems (v :: l) ++ r = c :: t ∧ value_start c.
Proof.
  intros (c & t & E & Hc)%stringify_start. cbn [print_elems]. rewrite E.
  rewrite <-!app_comm_cons. eauto.
Qed.

Lemma parse_print v : json_ok v → parses v.
Proof.
  induction v as [| b | n | s | l IH | l IH] using json_nested_ind; intros Hok fuel r Hr Hf.
  - destruct fuel; [simpl in Hf; lia|done].
  - destruct fuel; [destruct b; simpl in Hf; lia|by destruct b].
  - destruct (stringify_start (JNum n) Hok) as (c & t & E & Hc). rewrite E in Hf.
    destruct fuel as [|fuel]; [simpl in Hf; lia|]. cbn [parse_value].
    destruct (number_token_shape (num_print n)) as [_ (c' & t' & E' & Hc')].
    { by apply num_print_token. }
    simpl in E. rewrite E in E'. injection E' as <- <-.
    simpl stringify. rewrite E, <-app_comm_cons, skip_ws_start by done.
    assert (c = 45 ∨ 48 ≤ c ≤ 57) by (by rewrite <-is_digit_spec).
    decide_comparisons. rewrite app_comm_cons, <-E. by apply parse_literal_number.
  - destruct fuel as [|fuel]; [pose proof (quote_length s); simpl in Hf; lia|].
    cbn [parse_value stringify]. unfold quote. rewrite <-app_comm_cons.
    rewrite (skip_ws_start 34) by (left; done). cbn [Z.eqb Pos.eqb].
    rewrite <-(assoc_L (++)). cbn [app]. by rewrite parse_quote_units.
  - apply json_ok_arr in Hok. rewrite stringify_arr in *. simpl length in Hf.
    rewrite length_app in Hf. simpl length in Hf.
    destruct fuel as [|fuel]; [lia|]. cbn [parse_value]. rewrite <-app_comm_cons.
    rewrite (skip_ws_start 91) by (right; left; done). cbn [Z.eqb Pos.eqb].
    rewrite <-(assoc_L (++)). cbn [app]. destruct l as [|v l]; [done|].
    destruct (print_elems_cons_start v l (93 :: r)) as (c & t & E & Hc); [by inversion Hok|].
    rewrite E, skip_ws_start, <-E by done.
    assert ((c =? 93) = false) as -> by (unfold value_start in Hc; lia).
    rewrite parse_elems_print; [done|done| |done|lia].
    apply Forall_forall. intros x Hx. rewrite Forall_forall in IH, Hok. by apply IH, Hok.
  - apply json_ok_obj in Hok. rewrite stringify_obj in *. simpl length in Hf.
    rewrite length_app in Hf. simpl length in Hf.
    destruct fuel as [|fuel]; [lia|]. cbn [parse_value]. rewrite <-app_comm_cons.
    rewrite (skip_ws_start 123) by (right; right; left; done). cbn [Z.eqb Pos.eqb].
    rewrite <-(assoc_L (++)). cbn [app]. destruct l as [|[k v] l]; [done|].
    assert (skip_ws (print_members ((k, v) :: l) ++ 125 :: r)
      = print_members ((k, v) :: l) ++ 125 :: r) as -> by done.
    rewrite parse_members_print; [done|done| |done|lia].
    apply Forall_forall. intros x Hx. rewrite Forall_forall in IH, Hok. by apply IH, Hok.
Qed.

(** [JSON.parse(JSON.stringify(v))] gives [v] back. *)
Lemma json_parse_stringify v : json_ok v → json_parse (stringify v) = Some v.
Proof.
  intros Hok. unfold json_parse. pose proof (parse_print v Hok (2 * length (stringify v) + 2)%nat []) as Hp.
  rewrite app_nil_r in Hp. rewrite Hp; [done|done|lia].
Qed.

Lemma stringify_inj v w : json_ok v → json_ok w → stringify v = stringify w → v = w.
Proof.
  intros Hv Hw E. apply (inj Some). by rewrite <-(json_parse_stringify v), E, json_parse_stringify.
Qed.
End roundtrip.

(** * What is printed is well-formed text *)

Definition text_ok (s : jsstr) : Prop := wf_str s ∧ wf_utf16 s = true.

Lemma text_ok_app s t : text_ok s → text_ok t → text_ok (s ++ t).
Proof. intros [??] [??]. split; [by apply Forall_app|by apply wf_utf16_app]. Qed.

Lemma text_ok_ascii s : Forall is_ascii s → text_ok s.
Proof.
  intros Hs. split; [|by apply wf_utf16_ascii].
  eapply Forall_impl; [done|]. unfold is_ascii, is_unit. lia.
Qed.

Lemma text_ok_cons_ascii c s : is_ascii c → text_ok s → text_ok (c :: s).
Proof. intros Hc Hs. apply (text_ok_app [c] s); [|done]. apply text_ok_ascii. by constructor. Qed.

Lemma text_ok_nil : text_ok [].
Proof. by split; [constructor|]. Qed.

Lemma numchar_ascii c : is_numchar c = true → is_ascii c.
Proof.
  unfold is_numchar, is_ascii, is_digit. rewrite !orb_true_iff, andb_true_iff, !Z.eqb_eq, !Z.leb_le. lia.
Qed.

Lemma text_ok_number t : is_number_token t = true → text_ok t.
Proof.
  intros [Hall _]%number_token_shape. apply text_ok_ascii, Forall_forall.
  intros c Hc. apply numchar_ascii. rewrite forallb_forall in Hall.
  apply Hall. by apply list_elem_of_In.
Qed.

Lemma text_ok_unicode_escape c : is_unit c → text_ok (unicode_escape c).
Proof.
  unfold is_unit. intros Hc.
  assert (∀ d, 0 ≤ d < 16 → is_ascii (hex_digit d)) as Hh.
  { intros d Hd. unfold hex_digit, is_ascii. case_match; bool_to_Z; lia. }
  apply text_ok_ascii. unfold unicode_escape.
  repeat (constructor; [first [apply Hh; lia|unfold is_ascii; lia]|]). constructor.
Qed.

Lemma text_ok_escape_unit c : is_unit c → is_surrogate c = false → text_ok (escape_unit c).
Proof.
  intros Hc Hs. unfold escape_unit.
  repeat (case_match; [apply text_ok_ascii; repeat constructor; unfold is_ascii; lia|]).
  case_match; [by apply text_ok_unicode_escape|]. split; [by constructor; [|constructor]|].
  unfold is_surrogate in Hs. apply orb_false_elim in Hs as [Hh Hl]. simpl. by rewrite Hh, Hl.
Qed.

Lemma text_ok_quote_units s : wf_str s → text_ok (quote_units s).
Proof.
  induction s as [|c s IH1 IH2] using list_two_step; intros Hw; [apply text_ok_nil|].
  inversion Hw as [|? ? Hc Hw']; subst.
  destruct (units_cases c s) as [(d & s' & -> & Eh & El)|Hs].
  - inversion Hw' as [|? ? Hd Hw'']; subst.
    rewrite quote_units_pair by done. apply (text_ok_app [c; d]); [|by eapply IH2].
    split; [by do 2 (constructor; [done|]); constructor|]. simpl. by rewrite Eh, El.
  - rewrite quote_units_single by done. apply text_ok_app; [|by apply IH1].
    destruct (is_surrogate c) eqn:Es; [by apply text_ok_unicode_escape|by apply text_ok_escape_unit].
Qed.

Lemma text_ok_quote s : wf_str s → text_ok (quote s).
Proof.
  intros Hs. unfold quote. apply text_ok_cons_ascii; [unfold is_ascii; lia|].
  apply text_ok_app; [by apply text_ok_quote_units|].
  apply text_ok_ascii. repeat constructor; unfold is_ascii; lia.
Qed.

Section stringify_text.
Context `{JsonNumbersLaws}.

Let one (c : Z) (Hc : is_ascii c) : text_ok [c] := text_ok_cons_ascii c [] Hc text_ok_nil.

Lemma stringify_text_ok v : json_ok v → text_ok (stringify v).
Proof.
  induction v as [| b | n | s | l IH | l IH] using json_nested_ind; intros Hok.
  - apply text_ok_ascii. repeat constructor; unfold is_ascii; simpl; lia.
  - apply text_ok_ascii. destruct b; repeat constructor; unfold is_ascii; simpl; lia.
  - by apply text_ok_number, num_print_token.
  - by apply text_ok_quote.
  - rewrite stringify_arr. apply json_ok_arr in Hok.
    apply text_ok_cons_ascii; [unfold is_ascii; lia|].
    apply text_ok_app; [|apply one; unfold is_ascii; lia].
    induction IH as [|v l IHv _ IHl]; [apply text_ok_nil|].
    inversion Hok; subst. cbn [print_elems]. apply text_ok_app; [by apply IHv|].
    destruct l as [|w l]; [apply text_ok_nil|].
    apply text_ok_cons_ascii; [unfold is_ascii; lia|by apply IHl].
  - rewrite stringify_obj. apply json_ok_obj in Hok.
    apply text_ok_cons_ascii; [unfold is_ascii; lia|].
    apply text_ok_app; [|apply one; unfold is_ascii; lia].
    induction IH as [|v l IHv _ IHl]; [apply text_ok_nil|].
    inversion Hok as [|? ? [Hk Hv] Hl]; subst. cbn [print_members].
    apply text_ok_app; [by apply text_ok_quote|].
    apply text_ok_cons_ascii; [unfold is_ascii; lia|]. apply text_ok_app; [by apply IHv|].
    destruct l as [|w l]; [apply text_ok_nil|].
    apply text_ok_cons_ascii; [unfold is_ascii; lia|by apply IHl].
Qed.
End stringify_text.

(** * The integer instance *)

(** The numbers of the code are integers; this instance prints and reads them in
    decimal and gives every other token or value up. *)
Definition integer_numbers : JsonNumbers := {|
  num_print n := match n with Int z => dec_Z z | _ => js "null" end;
  num_parse t :=
    match t with
    | c :: r => if c =? 45 then (if all_digits r then Int (- digits_value r) else NaN)
                else if all_digits t then Int (digits_value t) else NaN
    | [] => NaN
    end;
  num_stable n := isInteger n;
|}.

Lemma span_all f s : forallb f s = true → span f s = (s, []).
Proof. intros Hs. rewrite <-(app_nil_r s) at 1. by apply span_app. Qed.

Lemma dec_digits_head fuel n c t :
  0 < n < 10 ^ Z.of_nat fuel → dec_digits fuel n = c :: t → c ≠ 48.
Proof.
  revert n c t. induction fuel as [|f IH]; intros n c t Hn E; [done|].
  simpl in E. rewrite Nat2Z.inj_succ, Z.pow_succ_r in Hn by lia.
  destruct (n <? 10) eqn:En; bool_to_Z.
  - simpl in E. injection E as <- <-. rewrite Z.mod_small by lia. lia.
  - destruct (dec_digits f (n / 10)) as [|c' t'] eqn:E'.
    + destruct f; [simpl in Hn; lia|]. simpl in E'. by apply app_eq_nil in E' as [_ ?].
    + injection E as <- _. eapply (IH (n / 10)); [lia|done].
Qed.

Lemma dec_token n : 0 ≤ n → is_number_token (dec n) = true.
Proof.
  intros Hn. pose proof (dec_all_digits n Hn) as Hd. pose proof (dec_Forall_digit n Hn) as HF.
  destruct (dec n) as [|c t] eqn:E; [by apply dec_nonempty in E|].
  inversion HF as [|? ? Hc _]; subst. unfold is_number_token.
  rewrite (proj2 (Z.eqb_neq c 45)) by lia. rewrite span_all by done. rewrite andb_true_r.
  apply orb_true_iff. destruct (decide (n = 0)) as [->|Hne].
  - right. unfold dec in E. simpl in E. injection E as <- <-. done.
  - left. apply negb_true_iff, Z.eqb_neq. eapply dec_digits_head; [|exact E].
    split; [lia|by apply dec_fuel].
Qed.

Lemma integer_numbers_laws : @JsonNumbersLaws integer_numbers.
Proof.
  split; cbn [num_stable num_print num_parse integer_numbers]; try done.
  - intros [z| | | |]; try done. intros _. unfold dec_Z. case_match; bool_to_Z; [|by apply dec_token].
    unfold is_number_token. cbn [Z.eqb Pos.eqb]. pose proof (dec_token (- z) ltac:(lia)) as Ht.
    pose proof (dec_Forall_digit (- z) ltac:(lia)) as HF.
    unfold is_number_token in Ht. destruct (dec (- z)) as [|c t]; [done|].
    inversion HF; subst. by rewrite (proj2 (Z.eqb_neq c 45)) in Ht by lia.
  - intros [z| | | |]; try done. intros _. unfold dec_Z. destruct (z <? 0) eqn:Ez; bool_to_Z.
    + cbn [Z.eqb Pos.eqb]. rewrite dec_all_digits, dec_value by lia. f_equal. lia.
    + pose proof (dec_Forall_digit z ltac:(lia)) as HF.
      pose proof (dec_value z ltac:(lia)) as Hv. pose proof (dec_all_digits z ltac:(lia)) as Hd.
      destruct (dec z) as [|c t] eqn:E; [by apply dec_nonempty in E|]. inversion HF; subst.
      by rewrite (proj2 (Z.eqb_neq c 45)), Hd by lia.
Qed.

(** * The parser's fuel is enough

    Whatever the parser accepts with some fuel it accepts with two units per
    character: [json_parse] rejects nothing for lack of fuel. *)

Lemma skip_ws_length s : (length (skip_ws s) ≤ length s)%nat.
Proof. induction s as [|c s IH]; simpl; [lia|]. case_match; simpl; lia. Qed.

Lemma push_unit_inv c o x r :
  push_unit c o = Some (x, r) → ∃ y, o = Some (y, r) ∧ x = c :: y.
Proof. destruct o as [[y r']|]; simpl; [|done]. intros [= <- <-]. eauto. Qed.

Lemma parse_string_length s x r : parse_string s = Some (x, r) → (length r < length s)%nat.
Proof.
  revert x r. induction s as [s IH] using (induction_ltof1 _ (@length Z)). unfold ltof in IH.
  intros x r. destruct s as [|c s]; simpl; [done|].
  destruct (c =? 34); [intros [= _ <-]; lia|].
  destruct (c =? 92).
  - destruct s as [|e s]; [done|]. destruct (e =? 117).
    + destruct s as [|h1 [|h2 [|h3 [|h4 s]]]]; try done. case_match; [|done].
      intros (y & Hy & _)%push_unit_inv. apply IH in Hy; simpl in *; lia.
    + case_match; [|done]. intros (y & Hy & _)%push_unit_inv. apply IH in Hy; simpl in *; lia.
  - case_match; [done|]. intros (y & Hy & _)%push_unit_inv. apply IH in Hy; simpl in *; lia.
Qed.

Section fuel.
Context `{JsonNumbers}.

Lemma parse_literal_length s v r : parse_literal s = Some (v, r) → (length r < length s)%nat.
Proof.
  unfold parse_literal.
  assert (∀ p, p ≠ [] → startsWith p s = true → (0 < length s)%nat) as Hs.
  { intros p Hp. destruct p, s; simpl; (done || lia). }
  destruct (startsWith (js "true") s) eqn:E1; [intros [= _ <-]; apply Hs in E1; [|done]; rewrite length_drop; lia|].
  destruct (startsWith (js "false") s) eqn:E2; [intros [= _ <-]; apply Hs in E2; [|done]; rewrite length_drop; lia|].
  destruct (startsWith (js "null") s) eqn:E3; [intros [= _ <-]; apply Hs in E3; [|done]; rewrite length_drop; lia|].
  pose proof (span_eq is_numchar s) as Hsp. destruct (span is_numchar s) as [t r'].
  destruct Hsp as [-> _]. case_match; [|done]. intros [= _ <-].
  destruct (number_token_shape t) as [_ (c & t' & -> & _)]; [done|].
  rewrite length_app. simpl. lia.
Qed.

Ltac parse_step :=
  repeat match goal with
    | Hp : (match skip_ws ?s with [] => None | _ => _ end) = Some _ |- _ =>
        let E := fresh "E" in
        pose proof (skip_ws_length s); destruct (skip_ws s) eqn:E; [discriminate Hp|]
    | Hp : (if ?b then _ else _) = Some _ |- _ => destruct b
    | Hp : (?o ≫= _) = Some _ |- _ =>
        let Ho := fresh "Ho" in apply bind_Some in Hp as ([? ?] & Ho & Hp)
    | Hp : Some _ = Some _ |- _ => injection Hp as ? ?; subst
    | Hp : None = Some _ |- _ => discriminate Hp
    | Hp : parse_string _ = Some _ |- _ => apply parse_string_length in Hp
    end.

Lemma parse_length fuel :
  (∀ s v r, parse_value fuel s = Some (v, r) → (length r < length s)%nat)
  ∧ (∀ s l r, parse_elems fuel s = Some (l, r) → (length r < length s)%nat)
  ∧ (∀ s l r, parse_members fuel s = Some (l, r) → (length r < length s)%nat).
Proof.
  induction fuel as [|fuel (IHv & IHe & IHm)]; [by split_and!|].
  split_and!; intros s v r Hp; cbn [parse_value parse_elems parse_members] in Hp; parse_step;
    repeat match goal with
      | H : parse_value fuel _ = Some _ |- _ => apply IHv in H
      | H : parse_elems fuel _ = Some _ |- _ => apply IHe in H
      | H : parse_members fuel _ = Some _ |- _ => apply IHm in H
      | H : parse_literal _ = Some _ |- _ => apply parse_literal_length in H
      end; simpl in *; lia.
Qed.

Lemma parse_mono f :
  ∀ f', (f ≤ f')%nat →
  (∀ s x, parse_value f s = Some x → parse_value f' s = Some x)
  ∧ (∀ s x, parse_elems f s = Some x → parse_elems f' s = Some x)
  ∧ (∀ s x, parse_members f s = Some x → parse_members f' s = Some x).
Proof.
  induction f as [|f IH]; intros f' Hf; [by split_and!|].
  destruct f' as [|f']; [lia|]. destruct (IH f' ltac:(lia)) as (IHv & IHe & IHm).
  split_and!; intros s x Hp; cbn [parse_value parse_elems parse_members] in *;
    repeat match goal with
      | Hp : (match skip_ws ?s with [] => None | _ => _ end) = Some _ |- _ => destruct (skip_ws s); [done|]
      | Hp : (if ?b then _ else _) = Some _ |- _ => destruct b
      | Hp : (?o ≫= _) = Some _ |- _ =>
          let Ho := fresh "Ho" in
          apply bind_Some in Hp as ([? ?] & Ho & Hp); (apply IHv in Ho || apply IHe in Ho || apply IHm in Ho || idtac);
          rewrite Ho; simpl
      end; try done.
Qed.

Lemma parse_fuel_enough fuel :
  (∀ s x, parse_value fuel s = Some x → parse_value (2 * length s) s = Some x)
  ∧ (∀ s x, parse_elems fuel s = Some x → parse_elems (2 * length s + 1) s = Some x)
  ∧ (∀ s x, parse_members fuel s = Some x → parse_members (2 * length s + 1) s = Some x).
Proof.
  induction fuel as [|fuel (IHv & IHe & IHm)]; [by split_and!|].
  destruct (parse_length fuel) as (LV & _).
  split_and!; intros s x Hp; cbn [parse_value parse_elems parse_members] in Hp.
  - pose proof (skip_ws_length s) as Hs.
    destruct (2 * length s)%nat as [|g] eqn:Eg.
    { destruct s; simpl in *; [done|lia]. }
    cbn [parse_value]. destruct (skip_ws s) as [|c r]; [done|]. simpl in Hs.
    destruct (c =? 34); [done|].
    destruct (c =? 91); [|destruct (c =? 123); [|done]];
      (destruct (skip_ws r) as [|d r']; [done|]; case_match; [done|]).
    + apply bind_Some in Hp as ([l r''] & Ho & Hp). apply IHe in Ho.
      apply (parse_mono _ g) in Ho; [|lia]. by rewrite Ho.
    + apply bind_Some in Hp as ([l r''] & Ho & Hp). apply IHm in Ho.
      apply (parse_mono _ g) in Ho; [|lia]. by rewrite Ho.
  - replace (2 * length s + 1)%nat with (S (2 * length s)) by lia. cbn [parse_elems].
    apply bind_Some in Hp as ([v r] & Hv & Hp). pose proof (LV _ _ _ Hv).
    apply IHv in Hv. rewrite Hv. simpl mbind. pose proof (skip_ws_length r).
    cbn [mbind option_bind]. destruct (skip_ws r) as [|d r']; [done|]. simpl in *.
    case_match; [|done]. apply bind_Some in Hp as ([l r''] & Ho & Hp). apply IHe in Ho.
    apply (parse_mono _ (length s + (length s + 0))%nat) in Ho; [|lia]. by rewrite Ho.
  - replace (2 * length s + 1)%nat with (S (2 * length s)) by lia. cbn [parse_members].
    pose proof (skip_ws_length s). destruct (skip_ws s) as [|q r0]; [done|]. case_match; [|done].
    apply bind_Some in Hp as ([k r1] & Hk & Hp). rewrite Hk. apply parse_string_length in Hk.
    cbn [mbind option_bind]. pose proof (skip_ws_length r1).
    destruct (skip_ws r1) as [|d r2]; [done|]. case_match; [|done].
    apply bind_Some in Hp as ([v r3] & Hv & Hp). pose proof (LV _ _ _ Hv).
    apply IHv in Hv. simpl in *.
    apply (parse_mono _ (length s + (length s + 0))%nat) in Hv; [|lia]. rewrite Hv.
    cbn [mbind option_bind]. pose proof (skip_ws_length r3).
    destruct (skip_ws r3) as [|e r4]; [done|]. case_match; [|done].
    apply bind_Some in Hp as ([l r5] & Ho & Hp). apply IHm in Ho. simpl in *.
    apply (parse_mono _ (length s + (length s + 0))%nat) in Ho; [|lia]. by rewrite Ho.
Qed.

Lemma json_parse_fuel fuel s x :
  parse_value fuel s = Some x → parse_value (2 * length s + 2) s = Some x.
Proof.
  intros Hp%parse_fuel_enough. apply (parse_mono (2 * length s)); [lia|done].
Qed.
End fuel.
