(* ===== verification/TextDecoder.v ===== *)
(** The platform's [TextDecoder] without [fatal]: every malformed sequence
    becomes U+FFFD, byte by byte as the encoding standard's decoder does. *)
From S2P Require Import Prelude JsString Utf8 Json.

(** The sequence being read: its value so far, the bytes still needed, and the
    bounds of the next one. *)
Definition utf8_state : Type := Z * nat * Z * Z.

(** A byte that starts a sequence: what it emits, and the state after. *)
Definition utf8_lead (b : Z) : list Z * option utf8_state :=
  if b <? 0x80 then ([b], None)
  else if (0xC2 <=? b) && (b <=? 0xDF) then ([], Some (b - 0xC0, 1%nat, 0x80, 0xBF))
  else if (0xE0 <=? b) && (b <=? 0xEF) then
    ([], Some (b - 0xE0, 2%nat, (if b =? 0xE0 then 0xA0 else 0x80), (if b =? 0xED then 0x9F else 0xBF)))
  else if (0xF0 <=? b) && (b <=? 0xF4) then
    ([], Some (b - 0xF0, 3%nat, (if b =? 0xF0 then 0x90 else 0x80), (if b =? 0xF4 then 0x8F else 0xBF)))
  else ([0xFFFD], None).

Fixpoint lossy_cps (st : option utf8_state) (b : bytes) : list Z :=
  match b with
  | [] => match st with Some _ => [0xFFFD] | None => [] end
  | x :: r =>
      match st with
      | Some (cp, needed, lower, upper) =>
          if (lower <=? x) && (x <=? upper) then
            let cp' := cp * 64 + (x - 0x80) in
            match needed with
            | S (S n) => lossy_cps (Some (cp', S n, 0x80, 0xBF)) r
            | _ => cp' :: lossy_cps None r
            end
          else 0xFFFD :: (utf8_lead x).1 ++ lossy_cps (utf8_lead x).2 r
      | None => (utf8_lead x).1 ++ lossy_cps (utf8_lead x).2 r
      end
  end.

(** [new TextDecoder().decode(b)] *)
Definition text_decode (b : bytes) : jsstr := lossy_cps None (strip_bom b) ≫= units_of.

Lemma lossy_two a b r : 2 ≤ a ≤ 31 → 0 ≤ b < 64 → lossy_cps None ([192 + a; 128 + b] ++ r) = a * 64 + b :: lossy_cps None r.
Proof. intros Ha Hb. simpl. unfold utf8_lead. do 2 decide_comparisons. f_equal. lia. Qed.

Lemma lossy_three a b c r : 0 ≤ a ≤ 15 → 0 ≤ b < 64 → 0 ≤ c < 64 → (a = 0 → 32 ≤ b) → (a = 13 → b < 32) →
  lossy_cps None ([224 + a; 128 + b; 128 + c] ++ r) = (a * 64 + b) * 64 + c :: lossy_cps None r.
Proof.
  intros Ha Hb Hc H0 Hd. simpl. unfold utf8_lead.
  destruct (Z.eqb_spec (224 + a) 224), (Z.eqb_spec (224 + a) 237); try lia; do 4 decide_comparisons; f_equal; lia.
Qed.

Lemma lossy_four a b c d r : 0 ≤ a ≤ 4 → 0 ≤ b < 64 → 0 ≤ c < 64 → 0 ≤ d < 64 → (a = 0 → 16 ≤ b) → (a = 4 → b < 16) →
  lossy_cps None ([240 + a; 128 + b; 128 + c; 128 + d] ++ r) = ((a * 64 + b) * 64 + c) * 64 + d :: lossy_cps None r.
Proof.
  intros Ha Hb Hc Hd H0 H4. simpl. unfold utf8_lead.
  destruct (Z.eqb_spec (240 + a) 240), (Z.eqb_spec (240 + a) 244); try lia; do 4 decide_comparisons; f_equal; lia.
Qed.

#[local] Ltac Zify.zify_post_hook ::= Z.div_mod_to_equations.

Lemma lossy_encode_cp cp r : is_scalar cp = true → lossy_cps None (encode_cp cp ++ r) = cp :: lossy_cps None r.
Proof.
  intros Hs. apply is_scalar_spec in Hs as [? ?]. unfold encode_cp.
  destruct (Z.ltb_spec cp 0x80); [|destruct (Z.ltb_spec cp 0x800); [|destruct (Z.ltb_spec cp 0x10000)]].
  - simpl. unfold utf8_lead. decide_comparisons. done.
  - rewrite lossy_two by lia. f_equal. lia.
  - rewrite lossy_three by lia. f_equal. lia.
  - rewrite lossy_four by lia. f_equal. lia.
Qed.

Lemma text_decode_encode s :
  wf_str s → wf_utf16 s = true → strip_bom (utf8_encode s) = utf8_encode s → text_decode (utf8_encode s) = s.
Proof.
  intros Hw Hu Hb. unfold text_decode. rewrite Hb. unfold utf8_encode. destruct (code_points_wf s Hw Hu) as [Hs Hsp].
  rewrite <-Hsp at 2. f_equal. clear Hsp. induction Hs as [|cp cps Hcp _ IH]; [done|].
  rewrite bind_cons, (scalar_not_surrogate cp Hcp), lossy_encode_cp by done. by f_equal.
Qed.

Example truncated_sequence : text_decode [72; 0xE2; 0x82; 72] = [72; 0xFFFD; 72].
Proof. reflexivity. Qed.

(** A stringified value is read back as it was. *)
Lemma text_stringify `{JsonNumbersLaws} v : json_ok v → text_decode (utf8_encode (stringify v)) = stringify v.
Proof.
  intros Hv. destruct (stringify_text_ok v Hv) as [Hw Hu]. apply text_decode_encode; [done..|].
  destruct (stringify_start v Hv) as (c & t & E & Hc). unfold value_start in Hc.
  rewrite E, utf8_encode_ascii_cons by lia. apply strip_bom_ascii. lia.
Qed.
