(* ===== verification/Envelope.v ===== *)
(** Content envelope v2 ([content/envelope.ts]): the padded plaintext that is
    sealed for every message, its encoder, its decoder and the validation of the
    JSON inside. *)
From S2P Require Import Prelude JsString Utf8 Json.

(** * Data *)

Record PosterRef := { poster_id : jsstr; poster_k : jsstr; poster_n : jsstr }.

Record EnvelopeAttachment := {
  att_id : jsstr;
  att_k : jsstr;   (* hex 32-byte key *)
  att_n : jsstr;   (* hex 12-byte nonce *)
  att_name : jsstr;
  att_mime : jsstr;
  att_size : number;
  att_poster : option PosterRef;
  att_dur : option number;
  att_w : option number;
  att_h : option number;
}.

Inductive EnvelopeMessageType := text | poll | post | token_transfer | request_payment.

Inductive MessageEvent :=
  | Reaction (target emoji : jsstr) (add : bool)
  | Edit (target txt : jsstr) (att : option (list EnvelopeAttachment))
  | Delete (target : jsstr)
  | Pin (target : jsstr) (pinned : bool)
  | PollVote (target : jsstr) (options : list number).

Inductive ContentEnvelope :=
  | Message (t : EnvelopeMessageType) (txt : jsstr) (att : option (list EnvelopeAttachment))
  | Event (e : MessageEvent).

#[global] Instance PosterRef_eq_dec : EqDecision PosterRef.
Proof. solve_decision. Defined.
#[global] Instance EnvelopeAttachment_eq_dec : EqDecision EnvelopeAttachment.
Proof. solve_decision. Defined.
#[global] Instance MessageEvent_eq_dec : EqDecision MessageEvent.
Proof. solve_decision. Defined.

Definition event_target (e : MessageEvent) : jsstr :=
  match e with
  | Reaction t _ _ | Edit t _ _ | Delete t | Pin t _ | PollVote t _ => t
  end.

(** [MESSAGE_TYPES], by name. *)
Definition message_type_name (t : EnvelopeMessageType) : jsstr :=
  match t with
  | text => js "text"
  | poll => js "poll"
  | post => js "post"
  | token_transfer => js "token_transfer"
  | request_payment => js "request_payment"
  end.

Definition MESSAGE_TYPES (s : jsstr) : option EnvelopeMessageType :=
  if decide (s = js "text") then Some text
  else if decide (s = js "poll") then Some poll
  else if decide (s = js "post") then Some post
  else if decide (s = js "token_transfer") then Some token_transfer
  else if decide (s = js "request_payment") then Some request_payment
  else None.

(** * Padding *)

Definition CONTENT_ENVELOPE_VERSION : Z := 0x02.
Definition CONTENT_ENVELOPE_MIN_LENGTH : Z := 256.
Definition HEADER_LENGTH : Z := 5.

(** [Math.floor(Math.log2(n))] is [Z.log2 n] on the lengths a typed array can have. *)
Definition padme (length : Z) : Z :=
  if length <=? 1 then length
  else
    let e := Z.log2 length in
    let s := Z.log2 e + 1 in
    let lastBits := e - s in
    let mask := 2 ^ lastBits - 1 in
    (length + mask) / (mask + 1) * (mask + 1).

Definition paddedEnvelopeLength (jsonLength : Z) : Z :=
  Z.max CONTENT_ENVELOPE_MIN_LENGTH (padme (HEADER_LENGTH + jsonLength)).

(** * Encoding *)

(** [DataView.setUint32] and [getUint32], big endian; the value wraps at 2^32. *)
Definition setUint32 (n : Z) : bytes :=
  let m := n mod 2 ^ 32 in
  [m / 2 ^ 24; (m / 2 ^ 16) mod 256; (m / 2 ^ 8) mod 256; m mod 256].

Definition getUint32 (b0 b1 b2 b3 : Z) : Z := b0 * 2 ^ 24 + b1 * 2 ^ 16 + b2 * 2 ^ 8 + b3.

(** A property that is only written when present. *)
Definition opt_field (k : string) (o : option json) : list (jsstr * json) :=
  match o with Some v => [(js k, v)] | None => [] end.

Definition poster_json (p : PosterRef) : json :=
  JObj [(js "id", JStr (poster_id p)); (js "k", JStr (poster_k p)); (js "n", JStr (poster_n p))].

Definition attachment_json (a : EnvelopeAttachment) : json :=
  JObj ([(js "id", JStr (att_id a)); (js "k", JStr (att_k a)); (js "n", JStr (att_n a));
         (js "name", JStr (att_name a)); (js "mime", JStr (att_mime a)); (js "size", JNum (att_size a))]
        ++ opt_field "poster" (poster_json <$> att_poster a)
        ++ opt_field "dur" (JNum <$> att_dur a)
        ++ opt_field "w" (JNum <$> att_w a)
        ++ opt_field "h" (JNum <$> att_h a)).

Definition attachments_json (l : list EnvelopeAttachment) : json := JArr (attachment_json <$> l).

Definition event_json (e : MessageEvent) : json :=
  match e with
  | Reaction t emoji add =>
      JObj [(js "type", JStr (js "reaction")); (js "target", JStr t);
            (js "emoji", JStr emoji); (js "add", JBool add)]
  | Edit t txt att =>
      JObj ([(js "type", JStr (js "edit")); (js "target", JStr t); (js "text", JStr txt)]
            ++ opt_field "att" (attachments_json <$> att))
  | Delete t => JObj [(js "type", JStr (js "delete")); (js "target", JStr t)]
  | Pin t pinned =>
      JObj [(js "type", JStr (js "pin")); (js "target", JStr t); (js "pinned", JBool pinned)]
  | PollVote t options =>
      JObj [(js "type", JStr (js "poll_vote")); (js "target", JStr t);
            (js "options", JArr (JNum <$> options))]
  end.

Definition envelope_json (env : ContentEnvelope) : json :=
  match env with
  | Message t txt att =>
      JObj ([(js "t", JStr (message_type_name t)); (js "text", JStr txt)]
            ++ opt_field "att" (attachments_json <$> att))
  | Event e => JObj [(js "t", JStr (js "event")); (js "e", event_json e)]
  end.

Section codec.
Context `{JsonNumbers} `{JsText}.

Definition envelope_body (env : ContentEnvelope) : bytes :=
  utf8_encode (stringify (envelope_json env)).

Definition encodeContentEnvelope (env : ContentEnvelope) : bytes :=
  let json := envelope_body env in
  let n := Z.of_nat (length json) in
  CONTENT_ENVELOPE_VERSION :: setUint32 n ++ json
  ++ replicate (Z.to_nat (paddedEnvelopeLength n) - 5 - length json) 0.

(** * Validation *)

Definition get_string (v : json) (k : string) : option jsstr :=
  match obj_get v (js k) with Some (JStr s) => Some s | _ => None end.

Definition get_number (v : json) (k : string) : option number :=
  match obj_get v (js k) with Some (JNum n) => Some n | _ => None end.

(** [/^[0-9a-f]{n}$/i.test(s)] *)
Definition hex_of_length (n : nat) (s : jsstr) : bool :=
  (length s =? n)%nat && forallb is_hex s.

Definition validate_poster (p : option json) : option PosterRef :=
  match p with
  | Some p =>
      match get_string p "id", get_string p "k", get_string p "n" with
      | Some id, Some k, Some n =>
          if hex_of_length 64 k && hex_of_length 24 n
          then Some {| poster_id := id; poster_k := toLowerCase k; poster_n := toLowerCase n |}
          else None
      | _, _, _ => None
      end
  | None => None
  end.

(** One round of the loop of [validateAttachments]: [None] is [continue]. *)
Definition validate_attachment (r : json) : option EnvelopeAttachment :=
  match get_string r "id", get_string r "k", get_string r "n" with
  | Some id, Some k, Some n =>
      if negb (hex_of_length 64 k) || negb (hex_of_length 24 n) then None
      else Some {|
        att_id := id;
        att_k := toLowerCase k;
        att_n := toLowerCase n;
        att_name := default (js "file") (get_string r "name");
        att_mime := default (js "application/octet-stream") (get_string r "mime");
        att_size := default (Int 0) (get_number r "size");
        att_poster := validate_poster (obj_get r (js "poster"));
        att_dur := get_number r "dur";
        att_w := get_number r "w";
        att_h := get_number r "h";
      |}
  | _, _, _ => None
  end.

Definition validateAttachments (raw : option json) : option (list EnvelopeAttachment) :=
  match raw with
  | Some (JArr l) => Some (omap validate_attachment l)
  | _ => None
  end.

(** The poll options: an array of integers. *)
Definition validate_options (raw : option json) : option (list number) :=
  match raw with
  | Some (JArr l) =>
      mapM (λ v, match v with JNum n => if isInteger n then Some n else None | _ => None end) l
  | _ => None
  end.

Definition validateEvent (raw : option json) : option MessageEvent :=
  match raw with
  | Some e =>
      match get_string e "type", get_string e "target" with
      | Some ty, Some target =>
          if decide (ty = js "reaction") then
            match get_string e "emoji", obj_get e (js "add") with
            | Some emoji, Some (JBool add) => Some (Reaction target (normalizeNFC emoji) add)
            | _, _ => None
            end
          else if decide (ty = js "edit") then
            match get_string e "text" with
            | Some txt => Some (Edit target txt (validateAttachments (obj_get e (js "att"))))
            | None => None
            end
          else if decide (ty = js "delete") then Some (Delete target)
          else if decide (ty = js "pin") then
            match obj_get e (js "pinned") with
            | Some (JBool pinned) => Some (Pin target pinned)
            | _ => None
            end
          else if decide (ty = js "poll_vote") then
            PollVote target <$> validate_options (obj_get e (js "options"))
          else None
      | _, _ => None
      end
  | None => None
  end.

Definition validateEnvelope (raw : json) : option ContentEnvelope :=
  match raw with
  | JObj _ =>
      match get_string raw "t" with
      | Some t =>
          if decide (t = js "event") then Event <$> validateEvent (obj_get raw (js "e"))
          else match MESSAGE_TYPES t with
               | Some ty =>
                   let att := validateAttachments (obj_get raw (js "att")) in
                   Some (Message ty (default [] (get_string raw "text"))
                           (match att with Some (_ :: _) => att | _ => None end))
               | None => None
               end
      | None => None
      end
  | _ => None
  end.

(** * Decoding *)

Definition decodeContentEnvelope (plaintext : bytes) : option ContentEnvelope :=
  match plaintext with
  | v :: b0 :: b1 :: b2 :: b3 :: rest =>
      if negb (v =? CONTENT_ENVELOPE_VERSION) then None
      else
        let total := Z.of_nat (length plaintext) in
        let jsonLength := getUint32 b0 b1 b2 b3 in
        if total <? HEADER_LENGTH + jsonLength then None
        else if negb (total =? paddedEnvelopeLength jsonLength) then None
        else if negb (forallb (λ b, b =? 0) (drop (Z.to_nat jsonLength) rest)) then None
        else
          txt ← utf8_decode (take (Z.to_nat jsonLength) rest);
          parsed ← json_parse txt;
          validateEnvelope parsed
  | _ => None
  end.

(** The relayer's row kind for an envelope. *)
Definition relayerKindForEnvelope (env : ContentEnvelope) : jsstr :=
  match env with
  | Event _ => js "event"
  | Message post _ _ => js "post"
  | Message token_transfer _ _ => js "token_transfer"
  | Message request_payment _ _ => js "request_payment"
  | Message _ _ _ => js "message"
  end.
End codec.

(** * Padding lemmas *)

#[local] Ltac Zify.zify_post_hook ::= Z.div_mod_to_equations.

Lemma padme_block L :
  1 < L → let lb := Z.log2 L - (Z.log2 (Z.log2 L) + 1) in
  0 ≤ lb ∧ padme L = (L + (2 ^ lb - 1)) / 2 ^ lb * 2 ^ lb ∧ 2 ^ lb ≤ 2 ^ Z.log2 L.
Proof.
  intros HL lb. assert (1 ≤ Z.log2 L) as He by (apply Z.log2_le_pow2; simpl; lia).
  pose proof (Z.log2_lt_lin (Z.log2 L) ltac:(lia)) as Hlt.
  assert (0 ≤ lb) as Hlb by (unfold lb; lia).
  split; [done|]. split.
  - unfold padme. rewrite (proj2 (Z.leb_gt _ _)) by lia. fold lb.
    by replace (2 ^ lb - 1 + 1) with (2 ^ lb) by lia.
  - apply Z.pow_le_mono_r; [lia|]. pose proof (Z.log2_nonneg (Z.log2 L)). unfold lb. lia.
Qed.

Lemma round_up_bounds L m : 0 < m → L ≤ (L + (m - 1)) / m * m < L + m.
Proof. intros Hm. pose proof (Z.div_mod (L + (m - 1)) m ltac:(lia)). pose proof (Z.mod_pos_bound (L + (m - 1)) m Hm). nia. Qed.

Lemma padme_ge L : L ≤ padme L.
Proof.
  destruct (decide (L ≤ 1)) as [HL|HL].
  - unfold padme. rewrite (proj2 (Z.leb_le _ _)) by done. lia.
  - destruct (padme_block L) as (Hlb & -> & _); [lia|].
    apply round_up_bounds. by apply Z.pow_pos_nonneg.
Qed.

Lemma paddedEnvelopeLength_ge n : HEADER_LENGTH + n ≤ paddedEnvelopeLength n.
Proof. unfold paddedEnvelopeLength. pose proof (padme_ge (HEADER_LENGTH + n)). lia. Qed.

(** The overhead below 256 bytes, by enumeration. *)
Lemma padme_small_overhead L : 0 ≤ L < 256 → 100 * (padme L - L) ≤ 12 * L.
Proof.
  intros HL.
  assert (forallb (λ k, let l := Z.of_nat k in 100 * (padme l - l) <=? 12 * l) (seq 0 256) = true)
    as Hall by (vm_compute; reflexivity).
  rewrite forallb_forall in Hall. specialize (Hall (Z.to_nat L)).
  rewrite Z2Nat.id in Hall by lia. apply Z.leb_le, Hall, in_seq. lia.
Qed.

Lemma padme_overhead L : 0 ≤ L → 100 * (padme L - L) ≤ 12 * L.
Proof.
  intros HL. destruct (decide (L < 256)) as [?|Hbig]; [by apply padme_small_overhead|].
  destruct (padme_block L) as (Hlb & -> & _); [lia|].
  set (e := Z.log2 L) in *. set (lb := e - (Z.log2 e + 1)) in *.
  assert (8 ≤ e) as He by (apply Z.log2_le_pow2; simpl; lia).
  assert (3 ≤ Z.log2 e) as Hs by (apply Z.log2_le_pow2; simpl; lia).
  assert (2 ^ e ≤ L) as HeL by (apply Z.log2_spec; lia).
  assert (16 * 2 ^ lb ≤ 2 ^ e) as H16.
  { replace (16 * 2 ^ lb) with (2 ^ (4 + lb)) by (rewrite Z.pow_add_r by lia; reflexivity).
    apply Z.pow_le_mono_r; unfold lb; lia. }
  pose proof (round_up_bounds L (2 ^ lb) ltac:(apply Z.pow_pos_nonneg; lia)). lia.
Qed.

(** Rounding up never passes the next power of two. *)
Lemma padme_le_pow2 L : 1 < L → padme L ≤ 2 ^ (Z.log2 L + 1).
Proof.
  intros HL. destruct (padme_block L) as (Hlb & -> & Hle); [lia|].
  set (e := Z.log2 L) in *. set (lb := e - (Z.log2 e + 1)) in *.
  assert (L < 2 ^ (e + 1)) as HLe by (apply Z.log2_spec; lia).
  assert (2 ^ (e + 1) = 2 ^ (e + 1 - lb) * 2 ^ lb) as E.
  { pose proof (Z.log2_nonneg e). assert (0 ≤ e) by apply Z.log2_nonneg.
    rewrite <-Z.pow_add_r by (unfold lb; lia). f_equal. lia. }
  assert (0 < 2 ^ lb) by (by apply Z.pow_pos_nonneg).
  rewrite E in *. apply Z.mul_le_mono_nonneg_r; [lia|].
  apply Z.lt_succ_r, Z.div_lt_upper_bound; [lia|]. nia.
Qed.

Lemma padme_pow2 k : 0 ≤ k → padme (2 ^ k) = 2 ^ k.
Proof.
  intros Hk. destruct (decide (k = 0)) as [->|]; [done|].
  assert (1 < 2 ^ k) as H1 by (apply (Z.pow_lt_mono_r 2 0 k); lia).
  destruct (padme_block (2 ^ k)) as (Hlb & -> & Hle); [done|].
  rewrite Z.log2_pow2 in * by done. set (lb := k - (Z.log2 k + 1)) in *.
  assert (lb ≤ k) as Hlk by (pose proof (Z.log2_nonneg k); unfold lb; lia).
  assert (2 ^ k = 2 ^ (k - lb) * 2 ^ lb) as E by (rewrite <-Z.pow_add_r by lia; f_equal; lia).
  assert (0 < 2 ^ lb) by (by apply Z.pow_pos_nonneg).
  rewrite E at 1. rewrite Z.div_add_l, Z.div_small by lia. lia.
Qed.

Lemma padme_idemp L : padme (padme L) = padme L.
Proof.
  destruct (decide (L ≤ 1)) as [HL|HL].
  { unfold padme at 2. rewrite (proj2 (Z.leb_le _ _)) by done. done. }
  pose proof (padme_ge L) as Hge. pose proof (padme_le_pow2 L ltac:(lia)) as Hle.
  destruct (decide (padme L = 2 ^ (Z.log2 L + 1))) as [->|Hne].
  { apply padme_pow2. pose proof (Z.log2_nonneg L). lia. }
  assert (Z.log2 (padme L) = Z.log2 L) as Hlog.
  { apply Z.log2_unique; [apply Z.log2_nonneg|]. pose proof (Z.log2_spec L ltac:(lia)). unfold Z.succ in *. lia. }
  destruct (padme_block (padme L)) as (Hlb & -> & _); [lia|]. rewrite Hlog in *.
  destruct (padme_block L) as (_ & -> & _); [lia|].
  set (m := 2 ^ (Z.log2 L - (Z.log2 (Z.log2 L) + 1))) in *.
  assert (0 < m) by (by apply Z.pow_pos_nonneg).
  rewrite Z.div_add_l by lia. rewrite (Z.div_small (m - 1)) by lia. lia.
Qed.

Lemma padme_mono L M : L ≤ M → padme L ≤ padme M.
Proof.
  intros HLM. destruct (decide (M ≤ 1)) as [HM|HM].
  { unfold padme. rewrite !(proj2 (Z.leb_le _ _)) by lia. done. }
  destruct (decide (L ≤ 1)) as [HL|HL].
  { unfold padme at 1. rewrite (proj2 (Z.leb_le _ _)) by lia. pose proof (padme_ge M). lia. }
  pose proof (Z.log2_le_mono L M HLM) as Hlog.
  destruct (decide (Z.log2 L = Z.log2 M)) as [E|Hne].
  - destruct (padme_block L) as (Hlb & -> & _); [lia|].
    destruct (padme_block M) as (_ & -> & _); [lia|]. rewrite E in *.
    set (m := 2 ^ (Z.log2 M - (Z.log2 (Z.log2 M) + 1))) in *.
    assert (0 < m) by (by apply Z.pow_pos_nonneg).
    apply Z.mul_le_mono_nonneg_r; [lia|]. apply Z.div_le_mono; lia.
  - pose proof (padme_le_pow2 L ltac:(lia)). pose proof (padme_ge M).
    assert (2 ^ (Z.log2 L + 1) ≤ 2 ^ Z.log2 M) by (apply Z.pow_le_mono_r; lia).
    pose proof (Z.log2_spec M ltac:(lia)). lia.
Qed.

(** * Canonical envelopes

    The values the validation produces: hex fields of the right length in lower
    case, normalised emoji, integer poll options, no empty attachment list on a
    message. *)
Section canonical.
Context `{JsonNumbers} `{JsText}.

Definition canonical_hex (n : nat) (s : jsstr) : Prop :=
  wf_str s ∧ hex_of_length n s = true ∧ toLowerCase s = s.

Definition stable_opt (o : option number) : Prop := from_option (λ n, num_stable n = true) True o.

Definition canonical_poster (p : PosterRef) : Prop :=
  wf_str (poster_id p) ∧ canonical_hex 64 (poster_k p) ∧ canonical_hex 24 (poster_n p).

Definition canonical_attachment (a : EnvelopeAttachment) : Prop :=
  wf_str (att_id a) ∧ canonical_hex 64 (att_k a) ∧ canonical_hex 24 (att_n a)
  ∧ wf_str (att_name a) ∧ wf_str (att_mime a) ∧ num_stable (att_size a) = true
  ∧ from_option canonical_poster True (att_poster a)
  ∧ stable_opt (att_dur a) ∧ stable_opt (att_w a) ∧ stable_opt (att_h a).

Definition canonical_attachments (o : option (list EnvelopeAttachment)) : Prop :=
  from_option (Forall canonical_attachment) True o.

Definition canonical_event (e : MessageEvent) : Prop :=
  wf_str (event_target e) ∧
  match e with
  | Reaction _ emoji _ => wf_str emoji ∧ normalizeNFC emoji = emoji
  | Edit _ txt att => wf_str txt ∧ canonical_attachments att
  | PollVote _ options => Forall (λ n, isInteger n = true ∧ num_stable n = true) options
  | _ => True
  end.

Definition canonical_envelope (env : ContentEnvelope) : Prop :=
  match env with
  | Message _ txt att => wf_str txt ∧ canonical_attachments att ∧ att ≠ Some []
  | Event e => canonical_event e
  end.
End canonical.

(** Evaluates property lookups with literal keys. *)
Ltac js_lookup :=
  unfold get_string, get_number in *;
  repeat (cbn [obj_get assoc_last app opt_field fmap option_fmap option_map] in *;
    match goal with
    | |- context [decide (js ?a = js ?b)] =>
        first [ rewrite (decide_True (P := js a = js b)) by reflexivity
              | rewrite (decide_False (P := js a = js b)) by (vm_compute; discriminate) ]
    end); cbn [obj_get assoc_last app opt_field fmap option_fmap option_map].

#[local] Arguments json_ok : simpl never.

Section codec_lemmas.
Context `{JsonNumbersLaws} `{JsText}.

Lemma json_ok_fields l : Forall (λ kv : jsstr * json, json_ok kv.2) l →
  Forall (λ kv : jsstr * json, ∃ s, kv.1 = js s) l → json_ok (JObj l).
Proof.
  intros Hv Hk. apply json_ok_obj. rewrite Forall_forall in *. intros kv Hkv. split; [|by apply Hv].
  destruct (Hk kv Hkv) as [s ->]. apply wf_js.
Qed.

Lemma stable_opt_ok o : stable_opt o → from_option (λ n, json_ok (JNum n)) True o.
Proof. by destruct o. Qed.

Lemma Forall_opt_field {A} (P : jsstr * json → Prop) k (f : A → json) (o : option A) :
  from_option (λ x, P (js k, f x)) True o → Forall P (opt_field k (f <$> o)).
Proof. destruct o; simpl; intros; repeat constructor; done. Qed.

Ltac json_leaf := simpl; first [by eexists | assumption | apply wf_js | exact I | idtac].

Ltac json_fields :=
  lazymatch goal with
  | |- Forall _ (_ ++ _) => apply Forall_app; split; json_fields
  | |- Forall _ (opt_field _ (_ <$> ?o)) => apply Forall_opt_field; destruct o; [json_leaf|exact I]
  | |- Forall _ (_ :: _) => apply Forall_cons; split; [json_leaf|json_fields]
  | |- Forall _ [] => apply Forall_nil_2
  end.

Ltac json_ok_tac := apply json_ok_fields; json_fields.

Lemma poster_json_ok p : canonical_poster p → json_ok (poster_json p).
Proof. intros (? & (? & ? & ?) & (? & ? & ?)). unfold poster_json. json_ok_tac. Qed.

Lemma attachment_json_ok a : canonical_attachment a → json_ok (attachment_json a).
Proof.
  destruct a as [id k n name mime size p dur w h]; unfold canonical_attachment, canonical_hex; simpl.
  intros (? & (? & ? & ?) & (? & ? & ?) & ? & ? & ? & Hp & Hd & Hw & Hh).
  unfold attachment_json. simpl. json_ok_tac. by apply poster_json_ok.
Qed.

Lemma attachments_json_ok l : Forall canonical_attachment l → json_ok (attachments_json l).
Proof.
  intros Hl. apply json_ok_arr, Forall_fmap. eapply Forall_impl; [done|].
  intros a. apply attachment_json_ok.
Qed.

Lemma event_json_ok e : canonical_event e → json_ok (event_json e).
Proof.
  destruct e as [t emoji add|t txt att|t|t p|t opts]; intros [Ht He]; simpl in Ht, He; unfold event_json.
  - destruct He. json_ok_tac.
  - destruct He as [? Ha]. json_ok_tac. by apply attachments_json_ok.
  - json_ok_tac.
  - json_ok_tac.
  - json_ok_tac. apply json_ok_arr, Forall_fmap. eapply Forall_impl; [done|]. by intros n [? ?].
Qed.

Lemma envelope_json_ok env : canonical_envelope env → json_ok (envelope_json env).
Proof.
  destruct env as [t txt att|e]; simpl; unfold envelope_json.
  - intros (? & Ha & _). json_ok_tac; [destruct t; apply wf_js|by apply attachments_json_ok].
  - intros He%event_json_ok. json_ok_tac.
Qed.

(** The validation gives back what the encoder wrote. *)
Lemma validate_poster_json p :
  canonical_poster p → validate_poster (Some (poster_json p)) = Some p.
Proof.
  intros (_ & (_ & Hk & Lk) & (_ & Hn & Ln)). unfold poster_json, validate_poster. js_lookup.
  rewrite Hk, Hn, Lk, Ln. by destruct p.
Qed.

Lemma attachment_lookups a : let v := attachment_json a in
  get_string v "id" = Some (att_id a) ∧ get_string v "k" = Some (att_k a)
  ∧ get_string v "n" = Some (att_n a) ∧ get_string v "name" = Some (att_name a)
  ∧ get_string v "mime" = Some (att_mime a) ∧ get_number v "size" = Some (att_size a)
  ∧ obj_get v (js "poster") = poster_json <$> att_poster a
  ∧ get_number v "dur" = att_dur a ∧ get_number v "w" = att_w a ∧ get_number v "h" = att_h a.
Proof. destruct a as [id k n name mime size [p|] [d|] [w|] [h|]]; repeat split; reflexivity. Qed.

Lemma validate_attachment_json a :
  canonical_attachment a → validate_attachment (attachment_json a) = Some a.
Proof.
  intros (_ & (_ & Hk & Lk) & (_ & Hn & Ln) & _ & _ & _ & Hp & _).
  destruct (attachment_lookups a) as (E1 & E2 & E3 & E4 & E5 & E6 & E7 & E8 & E9 & E10).
  unfold validate_attachment. rewrite E1, E2, E3, E4, E5, E6, E7, E8, E9, E10, Hk, Hn, Lk, Ln.
  cbn [negb orb default from_option Datatypes.id].
  destruct a as [id k n name mime size [p|] dur w h]; cbn [att_poster fmap option_fmap option_map] in *;
    by rewrite ?validate_poster_json.
Qed.

Lemma validateAttachments_json l :
  Forall canonical_attachment l → validateAttachments (Some (attachments_json l)) = Some l.
Proof.
  intros Hl. simpl. f_equal. induction Hl as [|a l Ha _ IH]; [done|].
  cbn [fmap list_fmap omap list_omap]. rewrite validate_attachment_json by done. by f_equal.
Qed.

Lemma validate_options_json opts :
  Forall (λ n, isInteger n = true ∧ num_stable n = true) opts →
  validate_options (Some (JArr (JNum <$> opts))) = Some opts.
Proof.
  intros Ho. simpl. induction Ho as [|n l [Hn _] _ IH]; [done|].
  cbn [fmap list_fmap mapM]. rewrite Hn. simpl. by rewrite IH.
Qed.

Lemma validateEvent_json e : canonical_event e → validateEvent (Some (event_json e)) = Some e.
Proof.
  destruct e as [t emoji add|t txt att|t|t p|t opts]; intros [_ He]; unfold event_json, validateEvent.
  - destruct He as [_ He]. js_lookup. by rewrite He.
  - destruct He as [_ Ha]. destruct att as [l|]; js_lookup; [|done].
    by rewrite validateAttachments_json.
  - by js_lookup.
  - by js_lookup.
  - js_lookup. by rewrite validate_options_json.
Qed.

Lemma validateEnvelope_json env :
  canonical_envelope env → validateEnvelope (envelope_json env) = Some env.
Proof.
  destruct env as [t txt att|e]; unfold envelope_json, validateEnvelope; simpl canonical_envelope.
  - intros (_ & Ha & Hne). destruct t, att as [l|]; simpl message_type_name; js_lookup;
      unfold MESSAGE_TYPES; js_lookup; try done;
      rewrite validateAttachments_json by done; by destruct l.
  - intros He. js_lookup. by rewrite validateEvent_json.
Qed.
End codec_lemmas.

(** * Framing *)

Lemma length_setUint32 n : length (setUint32 n) = 4%nat.
Proof. done. Qed.

Lemma setUint32_wf n : wf_bytes (setUint32 n).
Proof. unfold setUint32. repeat (constructor; [unfold is_byte; lia|]). constructor. Qed.

Lemma getUint32_setUint32 n : 0 ≤ n < 2 ^ 32 →
  ∃ b0 b1 b2 b3, setUint32 n = [b0; b1; b2; b3] ∧ getUint32 b0 b1 b2 b3 = n.
Proof.
  intros Hn. unfold setUint32, getUint32. do 4 eexists. split; [reflexivity|].
  change (2 ^ 32) with 4294967296 in *. change (2 ^ 24) with 16777216.
  change (2 ^ 16) with 65536. change (2 ^ 8) with 256. lia.
Qed.

Lemma setUint32_getUint32 b0 b1 b2 b3 : is_byte b0 → is_byte b1 → is_byte b2 → is_byte b3 →
  setUint32 (getUint32 b0 b1 b2 b3) = [b0; b1; b2; b3] ∧ 0 ≤ getUint32 b0 b1 b2 b3 < 2 ^ 32.
Proof.
  unfold is_byte, setUint32, getUint32. intros.
  change (2 ^ 32) with 4294967296 in *. change (2 ^ 24) with 16777216.
  change (2 ^ 16) with 65536. change (2 ^ 8) with 256. split; [repeat f_equal|]; lia.
Qed.

(** The frame of a body: version, length, body, zero padding. *)
Definition envelope_frame (body : bytes) : bytes :=
  let n := Z.of_nat (length body) in
  CONTENT_ENVELOPE_VERSION :: setUint32 n ++ body
  ++ replicate (Z.to_nat (paddedEnvelopeLength n) - 5 - length body) 0.

Lemma length_envelope_frame body :
  Z.of_nat (length (envelope_frame body)) = paddedEnvelopeLength (Z.of_nat (length body)).
Proof.
  unfold envelope_frame. simpl length.
  pose proof (paddedEnvelopeLength_ge (Z.of_nat (length body))) as Hge. unfold HEADER_LENGTH in Hge.
  rewrite length_app, length_replicate. lia.
Qed.

Lemma forallb_zeros k : forallb (λ b, b =? 0) (replicate k 0) = true.
Proof. by induction k. Qed.

Lemma forallb_zeros_inv l : forallb (λ b, b =? 0) l = true → l = replicate (length l) 0.
Proof.
  induction l as [|b l IH]; [done|]. simpl. intros [Hb Hl]%andb_prop. apply Z.eqb_eq in Hb as ->.
  by rewrite <-IH.
Qed.

Section framing.
Context `{JsonNumbersLaws} `{JsText}.

(** What the decoder does with a well-framed body. *)
Lemma decode_frame body :
  Z.of_nat (length body) < 2 ^ 32 →
  decodeContentEnvelope (envelope_frame body) =
    (utf8_decode body ≫= λ txt, json_parse txt ≫= validateEnvelope).
Proof.
  intros Hlen. pose proof (length_envelope_frame body) as Htot.
  pose proof (paddedEnvelopeLength_ge (Z.of_nat (length body))) as Hge.
  destruct (getUint32_setUint32 (Z.of_nat (length body))) as (b0 & b1 & b2 & b3 & Hs & Hg); [lia|].
  unfold envelope_frame in *. rewrite Hs in *. cbn [app] in *.
  unfold decodeContentEnvelope. rewrite Z.eqb_refl, Hg, Htot. cbn [negb].
  rewrite (proj2 (Z.ltb_ge _ _)) by lia. rewrite Z.eqb_refl. cbn [negb].
  rewrite Nat2Z.id, drop_app_length, take_app_length, forallb_zeros. done.
Qed.

(** Only frames are accepted. *)
Lemma decode_frame_inv p env :
  wf_bytes p → decodeContentEnvelope p = Some env →
  ∃ body txt v, p = envelope_frame body ∧ Z.of_nat (length body) < 2 ^ 32
    ∧ utf8_decode body = Some txt ∧ json_parse txt = Some v ∧ validateEnvelope v = Some env.
Proof.
  intros Hwf. unfold decodeContentEnvelope.
  destruct p as [|v [|b0 [|b1 [|b2 [|b3 rest]]]]]; try done.
  destruct (negb (v =? _)) eqn:Hv; [done|]. bool_to_Z. subst v.
  destruct (_ <? HEADER_LENGTH + _) eqn:Hlt; [done|].
  destruct (negb (_ =? paddedEnvelopeLength _)) eqn:Hpad; [done|]. bool_to_Z.
  destruct (negb (forallb _ _)) eqn:Hz; [done|]. bool_to_Z.
  inversion Hwf as [|? ? _ Hwf0]; subst. inversion Hwf0 as [|? ? H0' Hwf1]; subst.
  inversion Hwf1 as [|? ? H1' Hwf2]; subst. inversion Hwf2 as [|? ? H2' Hwf3]; subst.
  inversion Hwf3 as [|? ? H3' _]; subst.
  destruct (setUint32_getUint32 b0 b1 b2 b3) as [Hset Hrange]; try done.
  set (n := getUint32 b0 b1 b2 b3) in *.
  intros Hdec. simplify_option_eq.
  assert (length (take (Z.to_nat n) rest) = Z.to_nat n) as Hlen.
  { rewrite length_take. cbn [length] in Hlt. unfold HEADER_LENGTH in Hlt. lia. }
  exists (take (Z.to_nat n) rest). do 2 eexists. split; [|split; [rewrite Hlen; lia|done]].
  unfold envelope_frame. rewrite Hlen, Z2Nat.id by lia. rewrite Hset. cbn [app]. do 5 f_equal.
  rewrite <-(take_drop (Z.to_nat n) rest) at 1. f_equal.
  rewrite (forallb_zeros_inv _ Hz) at 1. f_equal. rewrite length_drop.
  cbn [length] in Hpad. lia.
Qed.
End framing.

(** * Properties *)

Section properties.
Context `{JsonNumbersLaws} `{JsText}.

Lemma utf8_body env : canonical_envelope env →
  utf8_decode (envelope_body env) = Some (stringify (envelope_json env)).
Proof.
  intros Hok%envelope_json_ok. pose proof (stringify_text_ok _ Hok) as [Hw Hu].
  unfold envelope_body. apply utf8_decode_encode; [done..|].
  assert (∃ t, stringify (envelope_json env) = 123 :: t) as [t ->]
    by (destruct env; unfold envelope_json; eauto).
  rewrite utf8_encode_ascii_cons by lia. apply strip_bom_ascii. lia.
Qed.

Lemma decode_encoded env : canonical_envelope env → Z.of_nat (length (envelope_body env)) < 2 ^ 32 →
  decodeContentEnvelope (encodeContentEnvelope env) = Some env.
Proof.
  intros Hc Hlen. change (encodeContentEnvelope env) with (envelope_frame (envelope_body env)).
  rewrite decode_frame, utf8_body by done. simpl.
  rewrite json_parse_stringify by (by apply envelope_json_ok). by apply validateEnvelope_json.
Qed.

(** C9.  Round trip: every canonical envelope (the values the validator can
    produce) whose JSON body is below 2^32 bytes is decoded to itself from
    the padded plaintext the encoder writes. *)
Theorem decode_encode env :
  canonical_envelope env → Z.of_nat (length (envelope_body env)) < 2 ^ 32 →
  decodeContentEnvelope (encodeContentEnvelope env) = Some env.
Proof. intros Hc Hlen. by apply decode_encoded. Qed.
End properties.

(** The attachments an envelope carries. *)
Definition envelope_attachments (env : ContentEnvelope) : list EnvelopeAttachment :=
  match env with
  | Message _ _ att | Event (Edit _ _ att) => default [] att
  | _ => []
  end.

(** Key material of the right size in lower case. *)
Definition attachment_hex_ok (a : EnvelopeAttachment) : Prop :=
  let ok n s := length s = n ∧ Forall (λ c, is_lower_hex c = true) s in
  ok 64%nat (att_k a) ∧ ok 24%nat (att_n a)
  ∧ from_option (λ p, ok 64%nat (poster_k p) ∧ ok 24%nat (poster_n p)) True (att_poster a).

Section validated.
Context `{JsonNumbers} `{JsTextLaws}.

Lemma hex_lowered n s : hex_of_length n s = true →
  length (toLowerCase s) = n ∧ Forall (λ c, is_lower_hex c = true) (toLowerCase s).
Proof.
  unfold hex_of_length. intros [Hl Hh]%andb_prop. apply Nat.eqb_eq in Hl.
  rewrite forallb_forall in Hh.
  rewrite toLowerCase_ascii.
  - rewrite length_fmap. split; [done|]. apply Forall_fmap, Forall_forall. intros c Hc.
    apply list_elem_of_In, Hh in Hc. revert Hc.
    unfold compose, is_hex, is_upper_hex, is_lower_hex, is_digit, ascii_lower.
    destruct ((65 <=? c) && (c <=? 90)) eqn:E; bool_to_Z; rewrite !orb_true_iff, !andb_true_iff, !Z.leb_le; [lia|].
    apply andb_false_iff in E. rewrite !Z.leb_gt in E. lia.
  - apply Forall_forall. intros c Hc. apply list_elem_of_In, Hh in Hc. revert Hc.
    unfold is_hex, is_upper_hex, is_lower_hex, is_digit, is_ascii.
    rewrite !orb_true_iff, !andb_true_iff, !Z.leb_le. lia.
Qed.

Lemma validate_poster_hex raw p : validate_poster raw = Some p →
  (length (poster_k p) = 64%nat ∧ Forall (λ c, is_lower_hex c = true) (poster_k p))
  ∧ (length (poster_n p) = 24%nat ∧ Forall (λ c, is_lower_hex c = true) (poster_n p)).
Proof.
  unfold validate_poster. intros Hv. repeat (case_match; simplify_eq/=). bool_to_Z.
  split; by apply hex_lowered.
Qed.

Lemma validate_attachment_hex raw a : validate_attachment raw = Some a → attachment_hex_ok a.
Proof.
  unfold validate_attachment. destruct (get_string raw "id"), (get_string raw "k") as [k|],
    (get_string raw "n") as [n|]; try done.
  destruct (hex_of_length 64 k) eqn:Hk, (hex_of_length 24 n) eqn:Hn; try done.
  intros [= <-]. unfold attachment_hex_ok. simpl.
  split; [by apply hex_lowered|]. split; [by apply hex_lowered|].
  destruct (validate_poster _) as [p|] eqn:Hp; [|done]. simpl. by apply validate_poster_hex in Hp.
Qed.

Lemma validateAttachments_hex raw l :
  validateAttachments raw = Some l → Forall attachment_hex_ok l.
Proof.
  unfold validateAttachments. destruct raw as [[]|]; try done. intros [= <-].
  apply Forall_forall. intros a Ha. apply list_elem_of_omap in Ha as (r & _ & Hr).
  by apply validate_attachment_hex in Hr.
Qed.

Lemma validateEnvelope_hex v env :
  validateEnvelope v = Some env → Forall attachment_hex_ok (envelope_attachments env).
Proof.
  unfold validateEnvelope, validateEvent. intros Hv.
  repeat (case_match; simplify_option_eq; try done); simpl; try done;
    first [ by eapply validateAttachments_hex
          | by (destruct (validateAttachments _) eqn:E; simpl; [by eapply validateAttachments_hex|done]) ].
Qed.

(** What the decoder accepts: a plaintext that decodes is exactly the
    frame of one UTF-8 JSON body, i.e. version byte, big-endian body length, body,
    zeros up to the Padmé length, so its length depends on the body's length
    alone; and every attachment of the decoded envelope carries a 32-byte key and a
    12-byte nonce in lower-case hex. *)
Lemma decode_accepts_frames p env :
  wf_bytes p → decodeContentEnvelope p = Some env →
  (∃ body txt v, p = envelope_frame body
    ∧ Z.of_nat (length p) = paddedEnvelopeLength (Z.of_nat (length body))
    ∧ utf8_decode body = Some txt ∧ json_parse txt = Some v ∧ validateEnvelope v = Some env)
  ∧ Forall attachment_hex_ok (envelope_attachments env).
Proof.
  intros Hwf Hd. destruct (decode_frame_inv _ _ Hwf Hd) as (body & txt & v & -> & _ & Ht & Hj & Hv).
  split; [|by eapply validateEnvelope_hex].
  exists body, txt, v. by rewrite length_envelope_frame.
Qed.
End validated.

(** The padding hides lengths at bounded cost: the encoded plaintext is
    never shorter than the frame or than 256 bytes, grows monotonically with
    the body, above 256 bytes adds at most 12% to the frame, and padding an
    already padded length changes nothing. *)
Lemma padding_bounds n m :
  0 ≤ n ≤ m →
  HEADER_LENGTH + n ≤ paddedEnvelopeLength n
  ∧ CONTENT_ENVELOPE_MIN_LENGTH ≤ paddedEnvelopeLength n ≤ paddedEnvelopeLength m
  ∧ (100 * paddedEnvelopeLength n ≤ 112 * (HEADER_LENGTH + n)
     ∨ paddedEnvelopeLength n = CONTENT_ENVELOPE_MIN_LENGTH)
  ∧ paddedEnvelopeLength (paddedEnvelopeLength n - HEADER_LENGTH) = paddedEnvelopeLength n.
Proof.
  intros Hn. split; [apply paddedEnvelopeLength_ge|]. unfold paddedEnvelopeLength.
  pose proof (padme_mono (HEADER_LENGTH + n) (HEADER_LENGTH + m) ltac:(lia)).
  pose proof (padme_overhead (HEADER_LENGTH + n) ltac:(unfold HEADER_LENGTH; lia)).
  split; [lia|]. split; [lia|].
  set (x := padme (HEADER_LENGTH + n)) in *.
  replace (HEADER_LENGTH + (Z.max CONTENT_ENVELOPE_MIN_LENGTH x - HEADER_LENGTH))
    with (Z.max CONTENT_ENVELOPE_MIN_LENGTH x) by lia.
  destruct (Z.max_spec CONTENT_ENVELOPE_MIN_LENGTH x) as [[? ->]|[? ->]].
  - unfold x. by rewrite padme_idemp, Z.max_r by (unfold x in *; lia).
  - done.
Qed.

(** * Witnesses *)

Definition sample_attachment : EnvelopeAttachment := {|
  att_id := js "quilt-1"; att_k := replicate 64 97; att_n := replicate 24 48;
  att_name := js "cat.png"; att_mime := js "image/png"; att_size := Int 1024;
  att_poster := Some {| poster_id := js "p"; poster_k := replicate 64 102; poster_n := replicate 24 49 |};
  att_dur := None; att_w := Some (Int 640); att_h := None |}.

Definition sample_envelope : ContentEnvelope := Message text (js "hi") (Some [sample_attachment]).

Lemma sample_canonical : @canonical_envelope integer_numbers ascii_text sample_envelope.
Proof.
  repeat split; try apply wf_js; try done; try (by apply Forall_below; vm_compute).
  constructor; [|constructor].
  repeat split; try (by apply Forall_below; vm_compute); by vm_compute.
Qed.

Lemma decode_encode_witness :
  @decodeContentEnvelope integer_numbers ascii_text
    (@encodeContentEnvelope integer_numbers sample_envelope) = Some sample_envelope.
Proof.
  apply (@decode_encode integer_numbers integer_numbers_laws ascii_text).
  - exact sample_canonical.
  - vm_compute. reflexivity.
Defined.

Lemma decode_accepts_frames_witness :
  let p := @encodeContentEnvelope integer_numbers sample_envelope in
  ∃ env, @decodeContentEnvelope integer_numbers ascii_text p = Some env
    ∧ Forall attachment_hex_ok (envelope_attachments env).
Proof.
  intros p. exists sample_envelope.
  assert (@decodeContentEnvelope integer_numbers ascii_text p = Some sample_envelope) as Hd
    by (vm_compute; reflexivity).
  split; [exact Hd|].
  refine (proj2 (@decode_accepts_frames integer_numbers ascii_text ascii_text_laws p _ _ Hd)).
  apply (Forall_below 256). vm_compute. reflexivity.
Defined.

Lemma padding_bounds_witness :
  paddedEnvelopeLength 1000 ≤ paddedEnvelopeLength 1020 ∧ paddedEnvelopeLength 1000 = 1024.
Proof.
  split; [|reflexivity].
  exact (proj2 (proj1 (proj2 (padding_bounds 1000 1020 ltac:(lia))))).
Defined.
