(* ===== verification/TimelineFold.v ===== *)
(** Timeline fold ([content/timeline-fold.ts]): reaction, edit, delete, pin and
    poll-vote state folded from a room's rows, ingested in any order.

    [fold_rows] is the state after a list of [ingest] calls.  The specification
    is a set of last-writer-wins registers ([slot]), each holding the write with
    the greatest order among the writes ([written]) that the rows authorise. *)
From S2P Require Import Prelude JsString JsMap Envelope.

(** * Data *)

Record FoldInput := {
  messageId : jsstr;
  in_order : Z;
  senderAddress : jsstr;
  senderVerified : bool;
  in_event : option MessageEvent;
}.

Record ReactionTally := { tally_emoji : jsstr; tally_members : list jsstr }.

Record FoldedEdit := {
  edit_text : jsstr;
  edit_att : option (list EnvelopeAttachment);
  edit_order : Z;
}.

Record Target := { t_order : Z; t_sender : jsstr }.

Record PendingEvent := { p_order : Z; p_sender : jsstr; p_event : MessageEvent }.

Record FoldState := {
  targets : list (jsstr * Target);
  seenEvents : list jsstr;
  pending : list (jsstr * list PendingEvent);
  reactions : list (jsstr * list (jsstr * list (jsstr * (bool * Z))));
  edits : list (jsstr * FoldedEdit);
  deletes : list (jsstr * Z);
  pins : list (jsstr * (bool * Z));
  votes : list (jsstr * list (jsstr * (list number * Z)));
}.

#[global] Instance FoldInput_eq_dec : EqDecision FoldInput.
Proof. solve_decision. Defined.

Definition empty_fold : FoldState :=
  {| targets := []; seenEvents := []; pending := []; reactions := []; edits := [];
     deletes := []; pins := []; votes := [] |}.

Definition set_targets v s := {| targets := v; seenEvents := seenEvents s; pending := pending s;
  reactions := reactions s; edits := edits s; deletes := deletes s; pins := pins s; votes := votes s |}.
Definition set_seen v s := {| targets := targets s; seenEvents := v; pending := pending s;
  reactions := reactions s; edits := edits s; deletes := deletes s; pins := pins s; votes := votes s |}.
Definition set_pending v s := {| targets := targets s; seenEvents := seenEvents s; pending := v;
  reactions := reactions s; edits := edits s; deletes := deletes s; pins := pins s; votes := votes s |}.
Definition set_reactions v s := {| targets := targets s; seenEvents := seenEvents s; pending := pending s;
  reactions := v; edits := edits s; deletes := deletes s; pins := pins s; votes := votes s |}.
Definition set_edits v s := {| targets := targets s; seenEvents := seenEvents s; pending := pending s;
  reactions := reactions s; edits := v; deletes := deletes s; pins := pins s; votes := votes s |}.
Definition set_deletes v s := {| targets := targets s; seenEvents := seenEvents s; pending := pending s;
  reactions := reactions s; edits := edits s; deletes := v; pins := pins s; votes := votes s |}.
Definition set_pins v s := {| targets := targets s; seenEvents := seenEvents s; pending := pending s;
  reactions := reactions s; edits := edits s; deletes := deletes s; pins := v; votes := votes s |}.
Definition set_votes v s := {| targets := targets s; seenEvents := seenEvents s; pending := pending s;
  reactions := reactions s; edits := edits s; deletes := deletes s; pins := pins s; votes := v |}.

(** [Set.prototype.add] *)
Definition set_add (x : jsstr) (l : list jsstr) : list jsstr :=
  if bool_decide (x ∈ l) then l else l ++ [x].

(** [prev && prev.order >= order] *)
Definition stale {A} (prev : option (A * Z)) (order : Z) : bool :=
  match prev with Some (_, o) => order <=? o | None => false end.

(** * Applying one event to its target *)

(** Returns whether the folded state of the target changed. *)
Definition apply (targetId : jsstr) (p : PendingEvent) (s : FoldState) : bool * FoldState :=
  match map_get targetId (targets s) with
  | None => (false, s)
  | Some target =>
      if p_order p <=? t_order target then (false, s) else
      match p_event p with
      | Reaction _ emoji add =>
          let byEmoji := default [] (map_get targetId (reactions s)) in
          let bySender := default [] (map_get emoji byEmoji) in
          let prev := map_get (p_sender p) bySender in
          if stale prev (p_order p) then (false, s) else
          let bySender' := map_set (p_sender p) (add, p_order p) bySender in
          let byEmoji' := map_set emoji bySender' byEmoji in
          (match prev with Some (a, _) => negb (eqb a add) | None => true end,
           set_reactions (map_set targetId byEmoji' (reactions s)) s)
      | Edit _ txt att =>
          if negb (bool_decide (p_sender p = t_sender target)) then (false, s) else
          let prev := map_get targetId (edits s) in
          if match prev with Some e => p_order p <=? edit_order e | None => false end then (false, s) else
          (true, set_edits (map_set targetId
                   {| edit_text := txt; edit_att := att; edit_order := p_order p |} (edits s)) s)
      | Delete _ =>
          if negb (bool_decide (p_sender p = t_sender target)) || map_has targetId (deletes s)
          then (false, s)
          else (true, set_deletes (map_set targetId (p_order p) (deletes s)) s)
      | Pin _ pinned =>
          let prev := map_get targetId (pins s) in
          if stale prev (p_order p) then (false, s) else
          (match prev with Some (b, _) => negb (eqb b pinned) | None => true end,
           set_pins (map_set targetId (pinned, p_order p) (pins s)) s)
      | PollVote _ options =>
          let bySender := default [] (map_get targetId (votes s)) in
          let prev := map_get (p_sender p) bySender in
          if stale prev (p_order p) then (false, s) else
          (true, set_votes (map_set targetId
                   (map_set (p_sender p) (options, p_order p) bySender) (votes s)) s)
      end
  end.

(** One round of the loop over the events held for a target. *)
Definition apply_pending (id : jsstr) (acc : list jsstr * FoldState) (p : PendingEvent)
    : list jsstr * FoldState :=
  let '(b, s') := apply id p acc.2 in (if b then set_add id acc.1 else acc.1, s').

Section fold.
Context `{JsText}.

(** Returns the target ids whose folded state changed. *)
Definition ingest (input : FoldInput) (s : FoldState) : list jsstr * FoldState :=
  let sender := toLowerCase (senderAddress input) in
  let id := messageId input in
  match in_event input with
  | None =>
      if map_has id (targets s) then ([], s) else
      let s1 := set_targets (map_set id {| t_order := in_order input; t_sender := sender |} (targets s)) s in
      let '(changed, s2) := foldl (apply_pending id) ([], s1) (default [] (map_get id (pending s1))) in
      (changed, set_pending (map_delete id (pending s2)) s2)
  | Some e =>
      if negb (senderVerified input) || bool_decide (id ∈ seenEvents s) then ([], s) else
      let s1 := set_seen (set_add id (seenEvents s)) s in
      let p := {| p_order := in_order input; p_sender := sender; p_event := e |} in
      let target := event_target e in
      if negb (map_has target (targets s1)) then
        ([], set_pending (map_set target (default [] (map_get target (pending s1)) ++ [p]) (pending s1)) s1)
      else
        let '(b, s2) := apply target p s1 in (if b then [target] else [], s2)
  end.

Definition fold_rows (rows : list FoldInput) : FoldState :=
  foldl (λ s r, (ingest r s).2) empty_fold rows.

(** * Queries *)

(** One emoji group: its members by order of their latest add, with the first order. *)
Definition tally_group (emoji : jsstr) (bySender : list (jsstr * (bool * Z))) : option (ReactionTally * Z) :=
  match sort_by (λ kv : jsstr * (bool * Z), kv.2.2) (filter (λ kv, kv.2.1 = true) bySender) with
  | [] => None
  | m :: ms => Some ({| tally_emoji := emoji; tally_members := (m :: ms).*1 |}, m.2.2)
  end.

Definition reactionsFor (targetId : jsstr) (s : FoldState) : list ReactionTally :=
  match map_get targetId (reactions s) with
  | None => []
  | Some byEmoji =>
      (sort_by snd (omap (λ kv : jsstr * list (jsstr * (bool * Z)), tally_group kv.1 kv.2) byEmoji)).*1
  end.

Definition hasReacted (targetId emoji member : jsstr) (s : FoldState) : bool :=
  match (byEmoji ← map_get targetId (reactions s);
         bySender ← map_get (normalizeNFC emoji) byEmoji;
         map_get (toLowerCase member) bySender) with
  | Some (add, _) => add
  | None => false
  end.

Definition editFor (targetId : jsstr) (s : FoldState) : option FoldedEdit := map_get targetId (edits s).

Definition isDeleted (targetId : jsstr) (s : FoldState) : bool := map_has targetId (deletes s).

Definition pinnedTargets (s : FoldState) : list jsstr :=
  (sort_by (λ kv : jsstr * (bool * Z), kv.2.2) (filter (λ kv, kv.2.1 = true) (pins s))).*1.

(** The latest vote of each member, as a [Map]. *)
Definition votesFor (targetId : jsstr) (s : FoldState) : list (jsstr * list number) :=
  foldl (λ out '(m, v), map_set m v.1 out) [] (default [] (map_get targetId (votes s))).
End fold.

(** * Last-writer-wins registers *)

(** A write is a value with its order; the stored one wins ties. *)
Definition lww {V} (o : option (V * Z)) (w : V * Z) : option (V * Z) :=
  match o with
  | Some (_, k) => if w.2 <=? k then o else Some w
  | None => Some w
  end.

(** The register holds a write of [P] with the greatest order. *)
Definition lww_is {V} (o : option (V * Z)) (P : V * Z → Prop) : Prop :=
  match o with
  | Some w => P w ∧ ∀ w', P w' → w'.2 ≤ w.2
  | None => ∀ w, ¬ P w
  end.

Lemma lww_step {V} (o : option (V * Z)) P w :
  lww_is o P → lww_is (lww o w) (λ w', P w' ∨ w' = w).
Proof.
  destruct o as [[v k]|]; simpl.
  - intros [HP Hmax]. destruct (w.2 <=? k) eqn:E; simpl; bool_to_Z.
    + split; [by left|]. intros w' [H| ->]; [by apply Hmax|done].
    + split; [by right|]. intros w' [H| ->]; [apply Hmax in H; simpl in H; lia|done].
  - intros HP. split; [by right|]. intros w' [H| ->]; [by apply HP in H|done].
Qed.

Lemma lww_is_ext {V} (o : option (V * Z)) P Q : (∀ w, P w ↔ Q w) → lww_is o P → lww_is o Q.
Proof. intros HPQ. destruct o; simpl; setoid_rewrite HPQ; done. Qed.

(** Writes with distinct orders determine the register. *)
Lemma lww_is_unique {V} (o o' : option (V * Z)) P :
  (∀ w w', P w → P w' → w.2 = w'.2 → w = w') → lww_is o P → lww_is o' P → o = o'.
Proof.
  intros Hinj. destruct o as [w|], o' as [w'|]; simpl.
  - intros [Hw Hm] [Hw' Hm']. f_equal. apply Hinj; [done..|].
    specialize (Hm _ Hw'). specialize (Hm' _ Hw). lia.
  - intros [Hw _] Hn. by apply Hn in Hw.
  - intros Hn [Hw _]. by apply Hn in Hw.
  - done.
Qed.

(** * The registers of the fold *)

Inductive slot :=
  | SReact (t emoji sender : jsstr)
  | SEdit (t : jsstr)
  | SDelete (t : jsstr)
  | SPin (t : jsstr)
  | SVote (t sender : jsstr).

Inductive payload :=
  | VAdd (add : bool)
  | VEdit (txt : jsstr) (att : option (list EnvelopeAttachment))
  | VDelete
  | VPin (pinned : bool)
  | VVote (options : list number).

#[global] Instance slot_eq_dec : EqDecision slot.
Proof. solve_decision. Defined.

(** A delete is kept whatever its order: its register has order 0. *)
Definition read (s : FoldState) (sl : slot) : option (payload * Z) :=
  match sl with
  | SReact t e m =>
      (λ w : bool * Z, (VAdd w.1, w.2)) <$>
        map_get m (default [] (map_get e (default [] (map_get t (reactions s)))))
  | SEdit t => (λ w, (VEdit (edit_text w) (edit_att w), edit_order w)) <$> map_get t (edits s)
  | SDelete t => (λ _, (VDelete, 0)) <$> map_get t (deletes s)
  | SPin t => (λ w : bool * Z, (VPin w.1, w.2)) <$> map_get t (pins s)
  | SVote t m => (λ w : list number * Z, (VVote w.1, w.2)) <$>
        map_get m (default [] (map_get t (votes s)))
  end.

(** The write an event is authorised to make on a target. *)
Definition write_of (targetId : jsstr) (target : Target) (p : PendingEvent) : option (slot * (payload * Z)) :=
  if p_order p <=? t_order target then None else
  let own := bool_decide (p_sender p = t_sender target) in
  match p_event p with
  | Reaction _ emoji add => Some (SReact targetId emoji (p_sender p), (VAdd add, p_order p))
  | Edit _ txt att => if own then Some (SEdit targetId, (VEdit txt att, p_order p)) else None
  | Delete _ => if own then Some (SDelete targetId, (VDelete, 0)) else None
  | Pin _ pinned => Some (SPin targetId, (VPin pinned, p_order p))
  | PollVote _ options => Some (SVote targetId (p_sender p), (VVote options, p_order p))
  end.

Lemma apply_frame id p s :
  targets (apply id p s).2 = targets s ∧ seenEvents (apply id p s).2 = seenEvents s
  ∧ pending (apply id p s).2 = pending s.
Proof. unfold apply. split_matches. Qed.

Lemma stale_some {A} (o : option (A * Z)) k :
  stale o k = match o with Some w => k <=? w.2 | None => false end.
Proof. by destruct o as [[]|]. Qed.

Lemma lww_fmap {A B} (f : A → B) (o : option (A * Z)) (a : A) k :
  lww ((λ w : A * Z, (f w.1, w.2)) <$> o) (f a, k) =
  if stale o k then (λ w : A * Z, (f w.1, w.2)) <$> o else Some (f a, k).
Proof. destruct o as [[a' k']|]; simpl; done. Qed.

Ltac map_get_cases :=
  repeat first
    [ rewrite map_get_set
    | rewrite decide_True by done
    | rewrite decide_False by congruence
    | progress cbn [default from_option fmap option_fmap option_map Datatypes.id]
    | progress case_decide; simplify_eq ].

(** [apply] performs the authorised write on its register and no other. *)
Lemma apply_read id target p s sl :
  map_get id (targets s) = Some target →
  read (apply id p s).2 sl =
    match write_of id target p with
    | Some (sl', w) => if decide (sl = sl') then lww (read s sl) w else read s sl
    | None => read s sl
    end.
Proof.
  intros Ht. unfold apply, write_of. rewrite Ht. destruct (p_order p <=? t_order target); [done|].
  destruct (p_event p) as [t emoji add|t txt att|t|t pinned|t opts].
  - case_decide as Hsl; [subst sl; simpl; rewrite lww_fmap|].
    + destruct (stale _ _) eqn:E; [done|]. simpl. by map_get_cases.
    + destruct (stale _ _) eqn:E; [done|]. destruct sl; simpl; try done. by map_get_cases.
  - destruct (bool_decide _); [|done]. simpl.
    case_decide as Hsl; [subst sl; simpl|].
    + destruct (map_get id (edits s)) as [e|] eqn:Ee; simpl; [destruct (_ <=? edit_order e); simpl|];
        map_get_cases; by rewrite ?Ee.
    + destruct (match map_get id (edits s) with Some _ => _ | None => _ end); [done|].
      destruct sl; simpl; try done. by map_get_cases.
  - destruct (bool_decide _); [|done]. unfold map_has.
    case_decide as Hsl; [subst sl|].
    + destruct (map_get id (deletes s)) eqn:Ed; simpl; rewrite ?Ed; [done|]. by map_get_cases.
    + destruct (map_get id (deletes s)) eqn:Ed; simpl; [done|]. destruct sl; simpl; try done. by map_get_cases.
  - case_decide as Hsl; [subst sl; simpl; rewrite lww_fmap|].
    + destruct (stale _ _) eqn:E; [done|]. simpl. by map_get_cases.
    + destruct (stale _ _) eqn:E; [done|]. destruct sl; simpl; try done. by map_get_cases.
  - case_decide as Hsl; [subst sl; simpl; rewrite lww_fmap|].
    + destruct (stale _ _) eqn:E; [done|]. simpl. by map_get_cases.
    + destruct (stale _ _) eqn:E; [done|]. destruct sl; simpl; try done. by map_get_cases.
Qed.

(** The loop over held events adds all their writes. *)
Lemma apply_pending_read id target ps ch s sl P :
  map_get id (targets s) = Some target →
  lww_is (read s sl) P →
  lww_is (read (foldl (apply_pending id) (ch, s) ps).2 sl)
         (λ w, P w ∨ ∃ p, p ∈ ps ∧ write_of id target p = Some (sl, w)).
Proof.
  revert ch s P. induction ps as [|p ps IH]; intros ch s P Ht HP; simpl.
  { eapply lww_is_ext; [|done]. intros w. split; [by left|]. intros [?|(? & ?%elem_of_nil & _)]; done. }
  unfold apply_pending at 2. simpl. pose proof (apply_read id target p s sl Ht) as Hr.
  destruct (apply_frame id p s) as (Hft & _).
  destruct (apply id p s) as [b s'] eqn:Ea. simpl in *.
  destruct (write_of id target p) as [[sl' w0]|] eqn:Ew; [destruct (decide (sl = sl')) as [<-|Hne]|].
  - apply (lww_step _ _ w0) in HP. rewrite <-Hr in HP.
    eapply lww_is_ext; [|apply (IH _ _ _ ltac:(by rewrite Hft) HP)].
    intros w. simpl. setoid_rewrite elem_of_cons. split.
    + intros [[?| ->]|(q & ? & ?)]; [by left|right; exists p; eauto|right; exists q; eauto].
    + intros [?|(q & [->|?] & Hq)]; [by left; left|left; right; congruence|right; eauto].
  - rewrite <-Hr in HP. eapply lww_is_ext; [|apply (IH _ _ _ ltac:(by rewrite Hft) HP)].
    intros w. simpl. setoid_rewrite elem_of_cons. split.
    + intros [?|(q & ? & ?)]; [by left|right; exists q; eauto].
    + intros [?|(q & [->|?] & Hq)]; [by left|congruence|right; eauto].
  - rewrite <-Hr in HP. eapply lww_is_ext; [|apply (IH _ _ _ ltac:(by rewrite Hft) HP)].
    intros w. simpl. setoid_rewrite elem_of_cons. split.
    + intros [?|(q & ? & ?)]; [by left|right; exists q; eauto].
    + intros [?|(q & [->|?] & Hq)]; [by left|congruence|right; eauto].
Qed.

(** * The state of a list of rows *)

Section spec.
Context `{JsText}.

Definition msg_row (rows : list FoldInput) (r : FoldInput) : Prop := r ∈ rows ∧ in_event r = None.

(** An event row that may affect the state. *)
Definition event_row (rows : list FoldInput) (r : FoldInput) (e : MessageEvent) : Prop :=
  r ∈ rows ∧ senderVerified r = true ∧ in_event r = Some e.

Definition target_of (r : FoldInput) : Target :=
  {| t_order := in_order r; t_sender := toLowerCase (senderAddress r) |}.
Definition pending_of (r : FoldInput) (e : MessageEvent) : PendingEvent :=
  {| p_order := in_order r; p_sender := toLowerCase (senderAddress r); p_event := e |}.

(** The writes the rows authorise on a register. *)
Definition written (rows : list FoldInput) (sl : slot) (w : payload * Z) : Prop :=
  ∃ r e m, event_row rows r e ∧ msg_row rows m ∧ messageId m = event_target e
    ∧ write_of (event_target e) (target_of m) (pending_of r e) = Some (sl, w).

(** Rows come from one log: the rows with one id agree. *)
Definition consistent (rows : list FoldInput) : Prop :=
  (∀ m m', msg_row rows m → msg_row rows m' → messageId m = messageId m' → target_of m = target_of m')
  ∧ (∀ r e r' e', event_row rows r e → event_row rows r' e' → messageId r = messageId r' → r = r').

Record fold_inv (rows : list FoldInput) (s : FoldState) : Prop := {
  inv_target_some id t : map_get id (targets s) = Some t →
    ∃ m, msg_row rows m ∧ messageId m = id ∧ t = target_of m;
  inv_target_row m : msg_row rows m → is_Some (map_get (messageId m) (targets s));
  inv_seen id : id ∈ seenEvents s ↔ ∃ r e, event_row rows r e ∧ messageId r = id;
  inv_pending id p : p ∈ default [] (map_get id (pending s)) ↔
    map_get id (targets s) = None ∧ ∃ r e, event_row rows r e ∧ event_target e = id ∧ p = pending_of r e;
  inv_slots sl : lww_is (read s sl) (written rows sl);
}.

Lemma consistent_app rows r : consistent (rows ++ [r]) → consistent rows.
Proof.
  unfold consistent, msg_row, event_row. intros [Hm He]. split.
  - intros m m' [? ?] [? ?]. apply Hm; (split; [|done]); set_solver.
  - intros a e a' e' (? & ? & ?) (? & ? & ?). eapply (He a e a' e'); repeat split; try done; set_solver.
Qed.

Lemma msg_row_snoc rows r m :
  msg_row (rows ++ [r]) m ↔ msg_row rows m ∨ (m = r ∧ in_event r = None).
Proof. unfold msg_row. rewrite elem_of_app, list_elem_of_singleton. naive_solver. Qed.

Lemma event_row_snoc rows r x e :
  event_row (rows ++ [r]) x e ↔ event_row rows x e ∨ (x = r ∧ senderVerified r = true ∧ in_event r = Some e).
Proof. unfold event_row. rewrite elem_of_app, list_elem_of_singleton. naive_solver. Qed.

(** A row that adds no message and no event row keeps the invariant. *)
Lemma fold_inv_ext rows rows' s :
  (∀ m, msg_row rows' m → ∃ m', msg_row rows m' ∧ messageId m' = messageId m ∧ target_of m' = target_of m) →
  (∀ m, msg_row rows m → msg_row rows' m) →
  (∀ r e, event_row rows' r e ↔ event_row rows r e) →
  fold_inv rows s → fold_inv rows' s.
Proof.
  intros Hm Hm' He [I1 I2 I3 I4 I5]. split.
  - intros id t Ht. destruct (I1 _ _ Ht) as (m & ? & ? & ?). eauto.
  - intros m Hr. destruct (Hm _ Hr) as (m' & Hr' & <- & _). by apply I2.
  - intros id. rewrite I3. by setoid_rewrite He.
  - intros id p. rewrite I4. by setoid_rewrite He.
  - intros sl. eapply lww_is_ext; [|apply I5]. intros w. unfold written. setoid_rewrite He. split.
    + intros (r & e & m & ? & ? & ? & ?). exists r, e, m. eauto.
    + intros (r & e & m & ? & Hr & Hid & Hw). destruct (Hm _ Hr) as (m' & ? & E1 & E2).
      exists r, e, m'. rewrite E1, E2. done.
Qed.

Lemma fold_inv_empty : fold_inv [] empty_fold.
Proof.
  split; unfold msg_row, event_row; simpl.
  - done.
  - intros m [?%elem_of_nil _]. done.
  - intros id. split; [by intros ?%elem_of_nil|]. intros (r & e & (?%elem_of_nil & _) & _). done.
  - intros id p. split; [by intros ?%elem_of_nil|]. intros (_ & r & e & (Hr & _) & _). by apply elem_of_nil in Hr.
  - intros sl. destruct sl; simpl; intros w (r & e & m & (?%elem_of_nil & _) & _); done.
Qed.

Lemma apply_pending_frame id ps ch s :
  targets (foldl (apply_pending id) (ch, s) ps).2 = targets s
  ∧ seenEvents (foldl (apply_pending id) (ch, s) ps).2 = seenEvents s
  ∧ pending (foldl (apply_pending id) (ch, s) ps).2 = pending s.
Proof.
  revert ch s. induction ps as [|p ps IH]; intros ch s; [done|]. simpl.
  unfold apply_pending at 2 4 6. simpl. destruct (apply_frame id p s) as (E1 & E2 & E3).
  destruct (apply id p s) as [b s']. simpl in *.
  destruct (IH (if b then set_add id ch else ch) s') as (-> & -> & ->). done.
Qed.

(** A new message row takes the events held for it. *)
Lemma ingest_message rows r s :
  fold_inv rows s → in_event r = None → map_get (messageId r) (targets s) = None →
  fold_inv (rows ++ [r]) (ingest r s).2.
Proof.
  intros [I1 I2 I3 I4 I5] Hr Hn. unfold ingest. rewrite Hr. unfold map_has. rewrite Hn. simpl.
  fold (target_of r). set (s1 := set_targets _ s). set (ps := default [] (map_get _ (pending s))).
  destruct (apply_pending_frame (messageId r) ps [] s1) as (F1 & F2 & F3).
  destruct (foldl _ ([], s1) ps) as [ch s2] eqn:Ef. simpl in *.
  assert (∀ id, map_get id (targets s2) =
    if decide (id = messageId r) then Some (target_of r) else map_get id (targets s)) as Ht.
  { intros id. rewrite F1. simpl. by rewrite map_get_set. }
  assert (∀ x e, event_row (rows ++ [r]) x e ↔ event_row rows x e) as Hev.
  { intros x e. rewrite event_row_snoc, Hr. naive_solver. }
  split; simpl.
  - intros id t. rewrite Ht. case_decide as Hid.
    + intros [= <-]. exists r. rewrite msg_row_snoc. auto.
    + intros Hg. destruct (I1 _ _ Hg) as (m & ? & ? & ?). exists m. rewrite msg_row_snoc. auto.
  - intros m. rewrite msg_row_snoc, Ht. intros [Hm|[-> _]]; case_decide; first [congruence | by eexists | by apply I2].
  - intros id. rewrite F2. setoid_rewrite Hev. apply I3.
  - intros id p. rewrite map_get_delete, Ht, F3. simpl. setoid_rewrite Hev. case_decide as Hid.
    + simpl. split; [by intros ?%elem_of_nil|]. by intros [? _].
    + rewrite I4. done.
  - intros sl. change (lww_is (read s2 sl) (written (rows ++ [r]) sl)).
    pose proof (apply_pending_read (messageId r) (target_of r) ps [] s1 sl (written rows sl)) as Hlww.
    rewrite Ef in Hlww. simpl in Hlww. eapply lww_is_ext; [|apply Hlww].
    + intros w. unfold written. setoid_rewrite Hev. setoid_rewrite msg_row_snoc. split.
      * intros [(x & e & m & ? & ? & ? & ?)|(p & Hp & Hw)]; [exists x, e, m; auto|].
        unfold ps in Hp. apply I4 in Hp as (_ & x & e & ? & Hid & ->). exists x, e, r. rewrite Hid. auto.
      * intros (x & e & m & Hx & [Hm|[-> _]] & Hid & Hw); [left; exists x, e, m; auto|].
        right. exists (pending_of x e). rewrite Hid. split; [|done]. apply I4.
        split; [done|]. exists x, e. auto.
    + by rewrite map_get_set_eq.
    + apply I5.
Qed.

(** A new event row is applied, or held when its target is not known. *)
Lemma ingest_event rows r e s :
  fold_inv rows s → consistent (rows ++ [r]) → senderVerified r = true → in_event r = Some e →
  messageId r ∉ seenEvents s → fold_inv (rows ++ [r]) (ingest r s).2.
Proof.
  intros [I1 I2 I3 I4 I5] Hc Hv Hr Hn. unfold ingest. rewrite Hr, Hv, bool_decide_false by done. simpl.
  fold (pending_of r e). set (s1 := set_seen _ s).
  assert (∀ m, msg_row (rows ++ [r]) m ↔ msg_row rows m) as Hmr.
  { intros m. rewrite msg_row_snoc, Hr. naive_solver. }
  assert (∀ x e', event_row (rows ++ [r]) x e' ↔ event_row rows x e' ∨ (x = r ∧ e' = e)) as Hev.
  { intros x e'. rewrite event_row_snoc, Hr, Hv. naive_solver. }
  assert (∀ id, id ∈ set_add (messageId r) (seenEvents s) ↔
    ∃ x e', event_row (rows ++ [r]) x e' ∧ messageId x = id) as Hseen.
  { intros id. unfold set_add. rewrite bool_decide_false by done. rewrite elem_of_app, list_elem_of_singleton, I3.
    setoid_rewrite Hev. split.
    - intros [(x & e' & ? & ?)| ->]; [exists x, e'; auto|exists r, e; auto].
    - intros (x & e' & [?|[-> ->]] & ?); [left; eauto|auto]. }
  destruct (map_get (event_target e) (targets s)) as [t|] eqn:Et.
  - destruct (I1 _ _ Et) as (m & Hm & Hid & ->).
    pose proof (λ sl, apply_read (event_target e) (target_of m) (pending_of r e) s1 sl Et) as Hrd.
    destruct (apply_frame (event_target e) (pending_of r e) s1) as (F1 & F2 & F3).
    unfold map_has. rewrite Et. simpl.
    destruct (apply (event_target e) (pending_of r e) s1) as [b s2] eqn:Ea. simpl in *.
    split; simpl.
    + intros id t. rewrite F1. intros Hg. destruct (I1 _ _ Hg) as (m' & ? & ? & ?). exists m'. by rewrite Hmr.
    + intros m'. rewrite Hmr, F1. apply I2.
    + intros id. rewrite F2. simpl. apply Hseen.
    + intros id p. rewrite F1, F3. simpl. rewrite I4. setoid_rewrite Hev. split.
      * intros (? & x & e' & ? & ? & ?). split; [done|]. exists x, e'. auto.
      * intros (Hnone & x & e' & [?|[-> ->]] & <- & ->); [eauto 10|congruence].
    + intros sl. rewrite Hrd. change (read s1 sl) with (read s sl).
      assert (∀ w, written (rows ++ [r]) sl w ↔ written rows sl w ∨
        write_of (event_target e) (target_of m) (pending_of r e) = Some (sl, w)) as Hw.
      { intros w. unfold written. setoid_rewrite Hev. setoid_rewrite Hmr. split.
        - intros (x & e' & m' & [?|[-> ->]] & Hm' & Hid' & Hw); [left; exists x, e', m'; auto|right].
          rewrite <-Hw. f_equal. apply Hc; [by apply Hmr..|congruence].
        - intros [(x & e' & m' & ? & ? & ? & ?)|Hw]; [exists x, e', m'; auto|exists r, e, m; auto]. }
      destruct (write_of _ _ _) as [[sl' w0]|].
      * case_decide as Hsl; [subst sl'|].
        -- eapply lww_is_ext; [|apply (lww_step _ (written rows sl) w0), I5]. intros w. rewrite Hw. naive_solver.
        -- eapply lww_is_ext; [|apply I5]. intros w. rewrite Hw. naive_solver.
      * eapply lww_is_ext; [|apply I5]. intros w. rewrite Hw. naive_solver.
  - unfold map_has. rewrite Et. simpl. split; simpl.
    + intros id t Hg. destruct (I1 _ _ Hg) as (m' & ? & ? & ?). exists m'. by rewrite Hmr.
    + intros m'. rewrite Hmr. apply I2.
    + apply Hseen.
    + intros id p. rewrite map_get_set. case_decide as Hid; [subst id; simpl|].
      * rewrite elem_of_app, list_elem_of_singleton, I4, Et. setoid_rewrite Hev. split.
        -- intros [(_ & x & e' & ? & ? & ?)| ->]; (split; [done|]); [exists x, e'; auto|exists r, e; auto].
        -- intros (_ & x & e' & [?|[-> ->]] & ? & ->); [left; eauto 10|auto].
      * rewrite I4. setoid_rewrite Hev. split.
        -- intros (? & x & e' & ? & ? & ?). split; [done|]. exists x, e'. auto.
        -- intros (? & x & e' & [?|[-> ->]] & ? & ->); [eauto 10|congruence].
    + intros sl. change (lww_is (read s sl) (written (rows ++ [r]) sl)).
      eapply lww_is_ext; [|apply I5]. intros w. unfold written. setoid_rewrite Hev. setoid_rewrite Hmr. split.
      * intros (x & e' & m & ? & ? & ? & ?). exists x, e', m. auto.
      * intros (x & e' & m & [?|[-> ->]] & Hm & Hid & ?); [exists x, e', m; auto|].
        apply I2 in Hm. rewrite Hid, Et in Hm. by destruct Hm.
Qed.

Lemma ingest_inv rows r s :
  fold_inv rows s → consistent (rows ++ [r]) → fold_inv (rows ++ [r]) (ingest r s).2.
Proof.
  intros I Hc. destruct (in_event r) as [e|] eqn:Hr.
  - destruct (senderVerified r) eqn:Hv; [destruct (decide (messageId r ∈ seenEvents s)) as [Hin|Hn]|].
    + unfold ingest. rewrite Hr, Hv, bool_decide_true by done. simpl.
      apply (inv_seen _ _ I) in Hin as (r' & e' & Hr' & Hid).
      assert (r' = r) as ->.
      { apply (proj2 Hc r' e' r e); [by apply event_row_snoc; left|apply event_row_snoc; by right|done]. }
      apply (fold_inv_ext rows); [..|done].
      * intros m [?|[_ ?]]%msg_row_snoc; [eauto|congruence].
      * intros m ?. apply msg_row_snoc. auto.
      * intros x e0. rewrite event_row_snoc. split; [|by left]. intros [?|(-> & ? & ?)]; [done|].
        destruct Hr' as (? & ? & ?). by repeat split.
    + by eapply ingest_event.
    + unfold ingest. rewrite Hr, Hv. simpl. apply (fold_inv_ext rows); [..|done].
      * intros m [?|[_ ?]]%msg_row_snoc; [eauto|congruence].
      * intros m ?. apply msg_row_snoc. auto.
      * intros x e0. rewrite event_row_snoc, Hv. naive_solver.
  - destruct (map_get (messageId r) (targets s)) as [t|] eqn:Et.
    + unfold ingest. rewrite Hr. unfold map_has. rewrite Et. simpl.
      apply (fold_inv_ext rows); [..|done].
      * intros m [?|[-> _]]%msg_row_snoc; [eauto|].
        destruct (inv_target_some _ _ I _ _ Et) as (m' & ? & ? & ?). exists m'. split; [done|]. split; [done|].
        apply Hc; [by apply msg_row_snoc; left|by apply msg_row_snoc; right|done].
      * intros m ?. apply msg_row_snoc. auto.
      * intros x e0. rewrite event_row_snoc, Hr. naive_solver.
    + by apply ingest_message.
Qed.

Lemma fold_rows_snoc rows r : fold_rows (rows ++ [r]) = (ingest r (fold_rows rows)).2.
Proof. unfold fold_rows. by rewrite foldl_app. Qed.

Lemma fold_rows_inv rows : consistent rows → fold_inv rows (fold_rows rows).
Proof.
  induction rows as [|r rows IH] using rev_ind; intros Hc; [apply fold_inv_empty|].
  rewrite fold_rows_snoc. apply ingest_inv; [|done]. by eapply IH, consistent_app.
Qed.
End spec.

(** * Well-formed state *)

Record fold_wf (s : FoldState) : Prop := {
  wf_pins : map_ok (pins s);
  wf_reactions t m : map_get t (reactions s) = Some m →
    map_ok m ∧ ∀ e b, map_get e m = Some b → map_ok b ∧ b ≠ [];
  wf_votes t b : map_get t (votes s) = Some b → map_ok b;
}.

Lemma map_set_nonempty {K V} `{!EqDecision K} (k : K) (v : V) m : map_set k v m ≠ [].
Proof. destruct m as [|[]]; simpl; [done|]. by case_decide. Qed.

Lemma default_map_ok {K V K' V'} `{!EqDecision K, !EqDecision K'} (k : K') (m : list (K' * V')) (f : V' → list (K * V)) :
  (∀ b, map_get k m = Some b → map_ok (f b)) → map_ok (default [] (f <$> map_get k m)).
Proof. destruct (map_get k m) as [b|]; simpl; [auto|]. intros _. apply map_ok_nil. Qed.

Lemma apply_wf id p s : fold_wf s → fold_wf (apply id p s).2.
Proof.
  intros [W1 W2 W3]. unfold apply. destruct (map_get id (targets s)) as [t|]; [|done].
  destruct (p_order p <=? t_order t); [done|]. destruct (p_event p) as [? emoji add| | |? pn|? opts]; simpl.
  - destruct (stale _ _); [done|]. split; simpl; [done| |done].
    intros t' m. rewrite map_get_set. case_decide as Ht; [|apply W2]. intros [= <-]. subst t'.
    set (m0 := default [] (map_get id (reactions s))).
    assert (map_ok m0 ∧ ∀ e b, map_get e m0 = Some b → map_ok b ∧ b ≠ []) as [Hm0 Hb].
    { unfold m0. destruct (map_get id (reactions s)) eqn:E; simpl; [by apply (W2 id)|]. split; [apply map_ok_nil|done]. }
    split; [by apply map_set_ok|]. intros e b. rewrite map_get_set. case_decide; [|apply Hb].
    intros [= <-]. split; [|apply map_set_nonempty]. apply map_set_ok.
    destruct (map_get emoji m0) eqn:E; simpl; [by apply (Hb emoji)|apply map_ok_nil].
  - destruct (negb _); [done|]. case_match; [case_match|]; done.
  - destruct (_ || _); done.
  - destruct (stale _ _); [done|]. split; simpl; [by apply map_set_ok|done..].
  - destruct (stale _ _); [done|]. split; simpl; [done..|].
    intros t' b. rewrite map_get_set. case_decide; [|apply W3]. intros [= <-]. apply map_set_ok.
    destruct (map_get id (votes s)) eqn:E; simpl; [by apply (W3 id)|apply map_ok_nil].
Qed.

Lemma fold_rows_wf `{JsText} rows : fold_wf (fold_rows rows).
Proof.
  induction rows as [|r rows IH] using rev_ind; [by split; [apply map_ok_nil|..]|].
  rewrite fold_rows_snoc. unfold ingest. destruct IH as [W1 W2 W3].
  destruct (in_event r) as [e|].
  - destruct (_ || _); [done|]. destruct (negb _); [done|].
    pose proof (apply_wf (event_target e) (pending_of r e)
      (set_seen (set_add (messageId r) (seenEvents (fold_rows rows))) (fold_rows rows))) as Ha.
    unfold pending_of in Ha. destruct (apply _ _ _). by apply Ha.
  - destruct (map_has _ _); [done|].
    match goal with |- context [foldl _ ([], ?s1) ?ps] => generalize ps; intros l; set (s0 := s1) end.
    assert (∀ acc, fold_wf acc.2 → fold_wf (foldl (apply_pending (messageId r)) acc l).2) as Hl.
    { induction l as [|p l IHl]; intros acc Hacc; [done|]. simpl. apply IHl. unfold apply_pending.
      pose proof (apply_wf (messageId r) p acc.2 Hacc). by destruct (apply _ _ _). }
    specialize (Hl ([], s0) (Build_fold_wf s0 W1 W2 W3)). unfold s0 in *. destruct (foldl _ _ l) as [ch s2]. simpl in *. destruct Hl as [X1 X2 X3]. split; [exact X1|exact X2|exact X3].
Qed.

(** * Observations are determined by the registers *)

Lemma omap_key_NoDup {A B} (f : jsstr * A → option B) (g : B → jsstr) (m : list (jsstr * A)) :
  (∀ kv b, f kv = Some b → g b = kv.1) → NoDup m.*1 → NoDup (g <$> omap f m).
Proof.
  intros Hf. induction m as [|kv m IH]; simpl; intros Hnd; [constructor|].
  inversion Hnd as [|? ? Hni Hnd']; subst. destruct (f kv) as [b|] eqn:E; [|auto].
  simpl. constructor; [|auto]. rewrite (Hf _ _ E). intros Hin. apply Hni.
  apply list_elem_of_fmap in Hin as (b' & Hk & Hb'). apply list_elem_of_omap in Hb' as (kv' & Hin & E').
  apply list_elem_of_fmap. exists kv'. split; [|done]. rewrite Hk. by eapply Hf.
Qed.

Lemma foldl_map_set (b : list (jsstr * (list number * Z))) out :
  NoDup b.*1 → (∀ k, k ∈ b.*1 → map_get k out = None) →
  foldl (λ out '(m, v), map_set m v.1 out) out b = out ++ ((λ kv, (kv.1, kv.2.1)) <$> b).
Proof.
  revert out. induction b as [|[k v] b IH]; intros out Hnd Hd; simpl; [by rewrite app_nil_r|].
  inversion Hnd as [|? ? Hni Hnd']; subst.
  assert (map_set k v.1 out = out ++ [(k, v.1)]) as E.
  { specialize (Hd k ltac:(set_solver)). clear -Hd. induction out as [|[k' v'] out IH]; simpl in *; [done|].
    case_decide; [done|]. by rewrite IH. }
  rewrite IH; [by rewrite E, <-app_assoc|done|]. intros k' Hk'. rewrite map_get_set.
  case_decide; [set_solver|]. apply Hd. set_solver.
Qed.

Definition is_delete (sl : slot) : bool := match sl with SDelete _ => true | _ => false end.

(** Orders of the stored writes, deletes apart, are distinct. *)
Definition slots_distinct (s : FoldState) : Prop := ∀ sl sl' w w',
  is_delete sl = false → is_delete sl' = false →
  read s sl = Some w → read s sl' = Some w' → w.2 = w'.2 → sl = sl'.

Lemma default_votes_ok s t : fold_wf s → NoDup (default [] (map_get t (votes s))).*1.
Proof.
  intros W. destruct (map_get t (votes s)) eqn:E; simpl; [by eapply wf_votes|constructor].
Qed.

Section observe.
Context `{JsText} (s s' : FoldState) (Hwf : fold_wf s) (Hwf' : fold_wf s')
  (Hread : ∀ sl, read s sl = read s' sl) (Hd : slots_distinct s).

Lemma observe_pins : pinnedTargets s = pinnedTargets s'.
Proof.
  unfold pinnedTargets. f_equal.
  assert (pins s ≡ₚ pins s') as Hp.
  { apply map_entries_perm; [apply Hwf|apply Hwf'|]. intros k. pose proof (Hread (SPin k)) as E. simpl in E.
    destruct (map_get k (pins s)) as [[]|], (map_get k (pins s')) as [[]|]; simpl in E; by simplify_eq. }
  apply sort_by_unique; [by rewrite Hp|].
  apply NoDup_fmap_2_strong; [|apply NoDup_filter, (NoDup_fmap_1 fst), Hwf].
  intros [t [b k]] [t' [b' k']] Ht Ht' E. simpl in E. subst k'.
  apply list_elem_of_filter in Ht as [_ Ht], Ht' as [_ Ht'].
  apply elem_of_map_get in Ht, Ht'; [|apply Hwf..].
  assert (SPin t = SPin t') as [= ->] by (eapply (Hd _ _ (VPin b, k) (VPin b', k)); simpl; by rewrite ?Ht, ?Ht').
  congruence.
Qed.

Lemma observe_edit t : editFor t s = editFor t s'.
Proof.
  unfold editFor. pose proof (Hread (SEdit t)) as E. simpl in E.
  destruct (map_get t (edits s)) as [[]|], (map_get t (edits s')) as [[]|]; simpl in E; by simplify_eq.
Qed.

Lemma observe_deleted t : isDeleted t s = isDeleted t s'.
Proof.
  unfold isDeleted, map_has. pose proof (Hread (SDelete t)) as E. simpl in E. apply bool_decide_ext.
  destruct (map_get t (deletes s)), (map_get t (deletes s')); simpl in E; try done.
Qed.

Lemma observe_react t e m : hasReacted t e m s = hasReacted t e m s'.
Proof.
  pose proof (Hread (SReact t (normalizeNFC e) (toLowerCase m))) as E. simpl in E. unfold hasReacted.
  destruct (map_get t (reactions s)) as [a|], (map_get t (reactions s')) as [a'|]; simpl in *;
    try destruct (map_get _ a) as [b|]; try destruct (map_get _ a') as [b'|]; simpl in *;
    try destruct (map_get _ b) as [[]|]; try destruct (map_get _ b') as [[]|]; simpl in *; by simplify_eq.
Qed.

Lemma observe_votes t : votesFor t s ≡ₚ votesFor t s'.
Proof.
  unfold votesFor.
  rewrite !foldl_map_set; simpl; try done; try (by apply default_votes_ok).
  apply fmap_Permutation, map_entries_perm; [by apply default_votes_ok..|]. intros k.
  pose proof (Hread (SVote t k)) as E. simpl in E.
  destruct (map_get k (default [] (map_get t (votes s)))) as [[]|],
    (map_get k (default [] (map_get t (votes s')))) as [[]|]; simpl in E; by simplify_eq.
Qed.
End observe.

Section observe_tallies.
Context (s s' : FoldState) (Hwf : fold_wf s) (Hwf' : fold_wf s')
  (Hread : ∀ sl, read s sl = read s' sl) (Hd : slots_distinct s) (t : jsstr).

Let by_emoji (s : FoldState) := default [] (map_get t (reactions s)).
Let group (kv : jsstr * list (jsstr * (bool * Z))) := tally_group kv.1 kv.2.

Lemma by_emoji_ok s0 : fold_wf s0 → map_ok (by_emoji s0) ∧
  ∀ e b, map_get e (by_emoji s0) = Some b → map_ok b ∧ b ≠ [].
Proof.
  intros W. unfold by_emoji. destruct (map_get t (reactions s0)) eqn:E; simpl; [by eapply wf_reactions|].
  split; [apply map_ok_nil|done].
Qed.

Lemma bucket_ok s0 e b : fold_wf s0 → map_get e (by_emoji s0) = Some b → map_ok b.
Proof. intros W Hb. by apply (proj2 (by_emoji_ok s0 W) e b). Qed.

Lemma member_reads s0 e m :
  read s0 (SReact t e m) = (λ w, (VAdd w.1, w.2)) <$> map_get m (default [] (map_get e (by_emoji s0))).
Proof. done. Qed.

Lemma bucket_lookup e m :
  map_get m (default [] (map_get e (by_emoji s))) = map_get m (default [] (map_get e (by_emoji s'))).
Proof.
  pose proof (Hread (SReact t e m)) as E. rewrite !member_reads in E.
  destruct (map_get m (default [] (map_get e (by_emoji s)))) as [[]|],
    (map_get m (default [] (map_get e (by_emoji s')))) as [[]|]; simpl in E; by simplify_eq.
Qed.

Lemma nonempty_lookup (b : list (jsstr * (bool * Z))) : b ≠ [] → ∃ m w, map_get m b = Some w.
Proof. destruct b as [|[m w] b]; [done|]. intros _. exists m, w. simpl. by rewrite decide_True. Qed.

Lemma buckets_perm e :
  match map_get e (by_emoji s), map_get e (by_emoji s') with
  | Some b, Some b' => b ≡ₚ b'
  | None, None => True
  | _, _ => False
  end.
Proof.
  destruct (by_emoji_ok s Hwf) as [_ Hb], (by_emoji_ok s' Hwf') as [_ Hb'].
  pose proof (bucket_lookup e) as Hl. specialize (Hb e). specialize (Hb' e).
  destruct (map_get e (by_emoji s)) as [b|], (map_get e (by_emoji s')) as [b'|]; simpl in *; [| | |done].
  - apply map_entries_perm; [by apply (Hb b)|by apply (Hb' b')|done].
  - destruct (nonempty_lookup b) as (m & w & E); [by apply (Hb b)|]. by rewrite Hl in E.
  - destruct (nonempty_lookup b') as (m & w & E); [by apply (Hb' b')|]. by rewrite <-Hl in E.
Qed.

Lemma adds_NoDup e b : map_get e (by_emoji s) = Some b →
  NoDup ((λ kv : jsstr * (bool * Z), kv.2.2) <$> filter (λ kv, kv.2.1 = true) b).
Proof.
  intros Hb. destruct (proj2 (by_emoji_ok s Hwf) _ _ Hb) as [Hok _].
  apply NoDup_fmap_2_strong; [|by apply NoDup_filter, (NoDup_fmap_1 fst)].
  intros [m [x k]] [m' [x' k']] [_ Hm]%list_elem_of_filter [_ Hm']%list_elem_of_filter E.
  simpl in E. subst k'. apply elem_of_map_get in Hm, Hm'; try done.
  assert (SReact t e m = SReact t e m') as [= ->].
  { apply (Hd _ _ (VAdd x, k) (VAdd x', k)); try done; rewrite member_reads, Hb; simpl; by rewrite ?Hm, ?Hm'. }
  congruence.
Qed.

Lemma tally_group_perm e b b' : map_get e (by_emoji s) = Some b → b ≡ₚ b' →
  tally_group e b = tally_group e b'.
Proof.
  intros Hb Hp. unfold tally_group.
  rewrite (sort_by_unique _ _ (filter (λ kv, kv.2.1 = true) b')); [done| |by eapply adds_NoDup].
  by rewrite Hp.
Qed.

Lemma tally_group_inv e b x k : tally_group e b = Some (x, k) →
  tally_emoji x = e ∧ ∃ m, (m, (true, k)) ∈ b.
Proof.
  unfold tally_group. destruct (sort_by _ _) as [|[m [a k0]] l] eqn:E; [done|]. intros [= <- <-].
  split; [done|]. exists m.
  assert ((m, (a, k0)) ∈ sort_by (λ kv : jsstr * (bool * Z), kv.2.2) (filter (λ kv, kv.2.1 = true) b)) as Hin
    by (rewrite E; left).
  rewrite elem_of_sort_by, list_elem_of_filter in Hin. simpl in Hin. by destruct Hin as [-> ?].
Qed.

Lemma elem_of_groups s0 x : fold_wf s0 →
  x ∈ omap group (by_emoji s0) ↔ ∃ e b, map_get e (by_emoji s0) = Some b ∧ tally_group e b = Some x.
Proof.
  intros W. rewrite list_elem_of_omap. destruct (by_emoji_ok s0 W) as [Hok _]. split.
  - intros ([e b] & Hin & Hg). exists e, b. by rewrite <-elem_of_map_get.
  - intros (e & b & Hin & Hg). exists (e, b). by rewrite elem_of_map_get.
Qed.

Lemma groups_NoDup s0 : fold_wf s0 → NoDup (omap group (by_emoji s0)).
Proof.
  intros W. apply (NoDup_fmap_1 (λ x : ReactionTally * Z, tally_emoji x.1)).
  apply omap_key_NoDup; [|by apply by_emoji_ok].
  intros [e b] [x k] Hg. by apply tally_group_inv in Hg as [? _].
Qed.

Lemma observe_reactions : reactionsFor t s = reactionsFor t s'.
Proof.
  assert (∀ s0, reactionsFor t s0 = (sort_by snd (omap group (by_emoji s0))).*1) as E.
  { intros s0. unfold reactionsFor, by_emoji. by destruct (map_get t (reactions s0)). }
  rewrite !E. f_equal. apply sort_by_unique.
  - apply NoDup_Permutation; [by apply groups_NoDup..|]. intros x. rewrite !elem_of_groups by done.
    split; intros (e & b & Hb & Hg); pose proof (buckets_perm e) as Hp; rewrite Hb in Hp.
    + destruct (map_get e (by_emoji s')) as [b'|] eqn:Hb'; [|done].
      exists e, b'. by rewrite <-(tally_group_perm e b b').
    + destruct (map_get e (by_emoji s)) as [b'|] eqn:Hb'; [|done].
      exists e, b'. by rewrite (tally_group_perm e b' b).
  - apply NoDup_fmap_2_strong; [|by apply groups_NoDup].
    intros [x k] [x' k'] Hx Hx' Hk. simpl in Hk. subst k'.
    apply elem_of_groups in Hx as (e & b & Hb & Hg), Hx' as (e' & b' & Hb' & Hg'); try done.
    destruct (tally_group_inv _ _ _ _ Hg) as (_ & m & Hm), (tally_group_inv _ _ _ _ Hg') as (_ & m' & Hm').
    apply elem_of_map_get in Hm; [|by apply (bucket_ok s e)].
    apply elem_of_map_get in Hm'; [|by apply (bucket_ok s e')].
    assert (SReact t e m = SReact t e' m') as [= <- _].
    { apply (Hd _ _ (VAdd true, k) (VAdd true, k)); try done; rewrite member_reads, ?Hb, ?Hb'; simpl;
        by rewrite ?Hm, ?Hm'. }
    congruence.
Qed.
End observe_tallies.

(** * Properties *)

Lemma write_of_order id t p sl w : write_of id t p = Some (sl, w) →
  if is_delete sl then w = (VDelete, 0) else w.2 = p_order p.
Proof. unfold write_of. intros E. repeat (case_match; simplify_eq/=; try done). Qed.

Section properties.
Context `{JsText}.

(** The log gives every event its own order. *)
Definition distinct_orders (rows : list FoldInput) : Prop := ∀ r e r' e',
  event_row rows r e → event_row rows r' e' → in_order r = in_order r' → r = r'.

Lemma written_inj rows sl sl' w w' : consistent rows → distinct_orders rows →
  written rows sl w → written rows sl' w' → is_delete sl = false → is_delete sl' = false →
  w.2 = w'.2 → sl = sl' ∧ w = w'.
Proof.
  intros [Hc _] Hd (r & e & m & Hr & Hm & Hid & Hw) (r' & e' & m' & Hr' & Hm' & Hid' & Hw') D D' E.
  pose proof (write_of_order _ _ _ _ _ Hw) as O. pose proof (write_of_order _ _ _ _ _ Hw') as O'.
  rewrite D in O. rewrite D' in O'. simpl in O, O'.
  assert (r = r') as <- by (apply (Hd r e r' e'); [done..|congruence]).
  assert (e = e') as <- by (destruct Hr as (_ & _ & ?), Hr' as (_ & _ & ?); congruence).
  rewrite (Hc m' m) in Hw' by (done || congruence). rewrite Hw in Hw'. by simplify_eq.
Qed.

Lemma fold_slots_distinct rows : consistent rows → distinct_orders rows → slots_distinct (fold_rows rows).
Proof.
  intros Hc Hd sl sl' w w' D D' R R' E. pose proof (fold_rows_inv rows Hc) as I.
  pose proof (inv_slots _ _ I sl) as L. pose proof (inv_slots _ _ I sl') as L'.
  rewrite R in L. rewrite R' in L'. destruct L as [L _], L' as [L' _].
  by destruct (written_inj rows sl sl' w w').
Qed.

Lemma fold_reads_agree rows rows' : consistent rows → distinct_orders rows →
  (∀ r, r ∈ rows ↔ r ∈ rows') → ∀ sl, read (fold_rows rows) sl = read (fold_rows rows') sl.
Proof.
  intros Hc Hd Hrows sl.
  assert (∀ m, msg_row rows m ↔ msg_row rows' m) as Hm by (intros; unfold msg_row; by rewrite Hrows).
  assert (∀ r e, event_row rows r e ↔ event_row rows' r e) as He by (intros; unfold event_row; by rewrite Hrows).
  assert (consistent rows') as Hc'.
  { destruct Hc as [C1 C2]. split.
    - intros m m' ?%Hm ?%Hm. by apply C1.
    - intros r e r' e' ?%He ?%He. by eapply C2. }
  apply (lww_is_unique _ _ (written rows sl)).
  - intros w w' W W' E. destruct (is_delete sl) eqn:D; [|by destruct (written_inj rows sl sl w w')].
    destruct W as (? & ? & ? & _ & _ & _ & W), W' as (? & ? & ? & _ & _ & _ & W').
    apply write_of_order in W, W'. rewrite D in W, W'. congruence.
  - apply fold_rows_inv, Hc.
  - eapply lww_is_ext; [|apply fold_rows_inv, Hc']. intros w. unfold written. setoid_rewrite Hm.
    by setoid_rewrite He.
Qed.

(** C13.  The folded state depends only on the set of rows: when the rows come
    from one log (message rows with one id have the same order and author, two
    verified event rows with one id are the same row, and two different verified
    event rows have different orders), two ingest sequences with the same rows, in
    any order and with any repetitions, answer every query alike: the lists in the
    same order, the vote maps with the same entries.  Rows with clashing ids or
    orders are outside the claim: there the first one ingested wins. *)
Theorem fold_set_only rows rows' :
  consistent rows → distinct_orders rows → (∀ r, r ∈ rows ↔ r ∈ rows') →
  let s := fold_rows rows in let s' := fold_rows rows' in
  pinnedTargets s = pinnedTargets s' ∧
  ∀ t, reactionsFor t s = reactionsFor t s' ∧ (∀ e m, hasReacted t e m s = hasReacted t e m s')
    ∧ editFor t s = editFor t s' ∧ isDeleted t s = isDeleted t s' ∧ votesFor t s ≡ₚ votesFor t s'.
Proof.
  intros Hc Hd Hrows s s'. pose proof (fold_reads_agree _ _ Hc Hd Hrows) as Hr.
  pose proof (fold_slots_distinct _ Hc Hd) as Hs.
  pose proof (fold_rows_wf rows) as W. pose proof (fold_rows_wf rows') as W'.
  split; [by apply observe_pins|]. intros t.
  split; [by apply observe_reactions|]. split; [intros; by apply observe_react|].
  split; [by apply observe_edit|]. split; [by apply observe_deleted|by apply observe_votes].
Qed.

Lemma written_intro rows r e m sl w : event_row rows r e → msg_row rows m →
  messageId m = event_target e → write_of (event_target e) (target_of m) (pending_of r e) = Some (sl, w) →
  written rows sl w.
Proof. intros. exists r, e, m. done. Qed.

Definition author (r : FoldInput) : jsstr := toLowerCase (senderAddress r).

(** The registers' writes, read back as rows. *)
Lemma written_react rows t emoji member w : written rows (SReact t emoji member) w ↔
  ∃ r m add, event_row rows r (Reaction t emoji add) ∧ msg_row rows m ∧ messageId m = t
    ∧ author r = member ∧ in_order m < in_order r ∧ w = (VAdd add, in_order r).
Proof.
  split.
  - intros (r & e & m & Hr & Hm & Hid & Hw). unfold write_of in Hw. simpl in Hw.
    destruct (_ <=? _) eqn:Ho; [done|]. bool_to_Z. destruct e; simplify_eq/=; repeat (case_match; simplify_eq/=).
    by eexists r, m, _.
  - intros (r & m & add & Hr & Hm & Hid & Ha & Ho & ->). eapply (written_intro rows r _ m); [exact Hr|done|done|].
    unfold write_of. simpl. rewrite (proj2 (Z.leb_gt _ _)) by lia. by rewrite <-Ha.
Qed.

Lemma written_edit rows t w : written rows (SEdit t) w ↔
  ∃ r m txt att, event_row rows r (Edit t txt att) ∧ msg_row rows m ∧ messageId m = t
    ∧ author r = author m ∧ in_order m < in_order r ∧ w = (VEdit txt att, in_order r).
Proof.
  split.
  - intros (r & e & m & Hr & Hm & Hid & Hw). unfold write_of in Hw. simpl in Hw.
    destruct (_ <=? _) eqn:Ho; [done|]. bool_to_Z. destruct e; simplify_eq/=; repeat (case_match; simplify_eq/=).
    bool_to_Z. by eexists r, m, _, _.
  - intros (r & m & txt & att & Hr & Hm & Hid & Ha & Ho & ->). eapply (written_intro rows r _ m); [exact Hr|done|done|].
    unfold write_of. simpl. rewrite (proj2 (Z.leb_gt _ _)) by lia. by rewrite bool_decide_true.
Qed.

Lemma written_pin rows t w : written rows (SPin t) w ↔
  ∃ r m pinned, event_row rows r (Pin t pinned) ∧ msg_row rows m ∧ messageId m = t
    ∧ in_order m < in_order r ∧ w = (VPin pinned, in_order r).
Proof.
  split.
  - intros (r & e & m & Hr & Hm & Hid & Hw). unfold write_of in Hw. simpl in Hw.
    destruct (_ <=? _) eqn:Ho; [done|]. bool_to_Z. destruct e; simplify_eq/=; repeat (case_match; simplify_eq/=).
    by eexists r, m, _.
  - intros (r & m & pinned & Hr & Hm & Hid & Ho & ->). eapply (written_intro rows r _ m); [exact Hr|done|done|].
    unfold write_of. simpl. by rewrite (proj2 (Z.leb_gt _ _)) by lia.
Qed.

(** A register of rows with distinct orders holds exactly the latest write. *)
Lemma register_latest {V} (o : option (V * Z)) (P : V * Z → Prop) w :
  lww_is o P → (∀ w1 w2, P w1 → P w2 → w1.2 = w2.2 → w1 = w2) →
  o = Some w ↔ P w ∧ ∀ w', P w' → w'.2 ≤ w.2.
Proof.
  intros L Hinj. split; [intros ->; exact L|]. intros [Hw Hmax].
  destruct o as [v|]; [|by destruct (L w)]. destruct L as [Hv Hm]. f_equal. apply Hinj; [done..|].
  specialize (Hmax _ Hv). specialize (Hm _ Hw). lia.
Qed.

Lemma isDeleted_meaning rows t : consistent rows →
  isDeleted t (fold_rows rows) = true ↔ ∃ r m, event_row rows r (Delete t) ∧ msg_row rows m ∧ messageId m = t
    ∧ author r = author m ∧ in_order m < in_order r.
Proof.
  intros Hc. pose proof (inv_slots _ _ (fold_rows_inv rows Hc) (SDelete t)) as L.
  unfold isDeleted, map_has. rewrite bool_decide_eq_true. simpl in L.
  destruct (map_get t (deletes (fold_rows rows))) as [k|]; simpl in L.
  - split; [intros _|by eauto]. destruct L as [(r & e & m & Hr & Hm & Hid & Hw) _].
    exists r, m. unfold write_of in Hw. simpl in Hw.
    destruct (_ <=? _) eqn:Ho; [done|]. bool_to_Z.
    destruct e; simplify_eq/=; repeat (case_match; simplify_eq/=). bool_to_Z. done.
  - split; [by intros []|]. intros (r & m & Hr & Hm & Hid & Ha & Ho). exfalso.
    apply (L (VDelete, 0)). apply (written_intro rows r (Delete t) m); [done..|].
    unfold write_of. simpl. rewrite (proj2 (Z.leb_gt _ _)) by lia. by rewrite bool_decide_true.
Qed.

Lemma editFor_read s t f : editFor t s = Some f ↔
  read s (SEdit t) = Some (VEdit (edit_text f) (edit_att f), edit_order f).
Proof.
  unfold editFor. simpl. destruct (map_get t (edits s)) as [[]|]; simpl; [|done].
  destruct f; simpl. split; intros [=]; by subst.
Qed.

Lemma hasReacted_read s t emoji member : hasReacted t emoji member s = true ↔
  ∃ k, read s (SReact t (normalizeNFC emoji) (toLowerCase member)) = Some (VAdd true, k).
Proof.
  unfold hasReacted. simpl. destruct (map_get t (reactions s)) as [a|]; simpl; [|naive_solver].
  destruct (map_get _ a) as [b|]; simpl; [|naive_solver].
  destruct (map_get _ b) as [[[] ?]|]; simpl; naive_solver.
Qed.

Lemma pinned_read s t : fold_wf s → t ∈ pinnedTargets s ↔ ∃ k, read s (SPin t) = Some (VPin true, k).
Proof.
  intros W. unfold pinnedTargets. rewrite list_elem_of_fmap. simpl. split.
  - intros ([t' [pinned k]] & -> & Hin). rewrite (sort_by_perm _ _), list_elem_of_filter in Hin.
    destruct Hin as [Hp Hin]. simpl in Hp. subst pinned. exists k. simpl.
    by rewrite (proj1 (elem_of_map_get _ _ _ (wf_pins _ W)) Hin).
  - intros [k Hk]. destruct (map_get t (pins s)) as [[pinned k']|] eqn:E; [|done]. injection Hk as -> ->.
    exists (t, (true, k)). split; [done|]. rewrite (sort_by_perm _ _), list_elem_of_filter. split; [done|].
    by apply elem_of_map_get; [apply wf_pins|].
Qed.

Lemma latest_inj rows sl w1 w2 : consistent rows → distinct_orders rows → is_delete sl = false →
  written rows sl w1 → written rows sl w2 → w1.2 = w2.2 → w1 = w2.
Proof. intros Hc Hd D H1 H2 E. by destruct (written_inj rows sl sl w1 w2 Hc Hd H1 H2 D D E). Qed.

(** C16.  What the folded state means, for rows of one log (message rows with one
    id have the same order and author, verified event rows with one id are the
    same row, different verified event rows have different orders).  A message
    is deleted exactly when a verified delete event of its own author follows
    it.  The edit shown of a message is the latest verified edit by the message's
    author that follows it, and no edit is shown exactly when there is none.  A
    member has reacted with an emoji exactly when that member's latest verified
    reaction event with that emoji after the message is an add, and a message
    is pinned exactly when the latest verified pin event after it, whoever sent it,
    is a pin and not an unpin. *)
Theorem fold_meaning rows t :
  consistent rows → distinct_orders rows → let s := fold_rows rows in
  let after (P : FoldInput → FoldInput → Prop) r m :=
    msg_row rows m ∧ messageId m = t ∧ P r m ∧ in_order m < in_order r in
  (isDeleted t s = true ↔ ∃ r m, event_row rows r (Delete t) ∧ after (λ r m, author r = author m) r m)
  ∧ (∀ f, editFor t s = Some f ↔ ∃ r m, event_row rows r (Edit t (edit_text f) (edit_att f))
     ∧ in_order r = edit_order f ∧ after (λ r m, author r = author m) r m
     ∧ ∀ r' txt att, event_row rows r' (Edit t txt att) → author r' = author m → in_order r' ≤ in_order r)
  ∧ (editFor t s = None ↔ ∀ r m txt att, event_row rows r (Edit t txt att) → ¬ after (λ r m, author r = author m) r m)
  ∧ (∀ emoji member, hasReacted t emoji member s = true ↔ ∃ r m,
       event_row rows r (Reaction t (normalizeNFC emoji) true) ∧ after (λ r _, author r = toLowerCase member) r m
       ∧ ∀ r' add, event_row rows r' (Reaction t (normalizeNFC emoji) add) → author r' = toLowerCase member →
           in_order r' ≤ in_order r)
  ∧ (t ∈ pinnedTargets s ↔ ∃ r m, event_row rows r (Pin t true) ∧ after (λ _ _, True) r m
       ∧ ∀ r' pinned, event_row rows r' (Pin t pinned) → in_order r' ≤ in_order r).
Proof.
  intros Hc Hd s after. pose proof (inv_slots _ _ (fold_rows_inv rows Hc)) as L. fold s in L.
  assert (∀ sl w, is_delete sl = false →
    read s sl = Some w ↔ written rows sl w ∧ ∀ w', written rows sl w' → w'.2 ≤ w.2) as R.
  { intros sl w D. apply register_latest; [apply L|]. intros w1 w2. by apply latest_inj. }
  assert (∀ m m', msg_row rows m → msg_row rows m' → messageId m = t → messageId m' = t →
    in_order m = in_order m' ∧ author m = author m') as Hone.
  { intros m m' Hm Hm' Hi Hi'. pose proof (proj1 Hc m m' Hm Hm' ltac:(congruence)) as E. by injection E. }
  split; [|split; [|split; [|split]]].
  - unfold s, after. rewrite (isDeleted_meaning rows t Hc). naive_solver.
  - intros f. rewrite editFor_read, R by done. split.
    + intros [(r & m & txt & att & Hr & Hm & Hi & Ha & Ho & [= -> -> ?])%written_edit Hmax].
      exists r, m. repeat (split; [done|]). intros r' txt' att' Hr' Ha'.
      destruct (decide (in_order m < in_order r')); [|lia].
      cut (in_order r' ≤ edit_order f); [lia|]. apply (Hmax (VEdit txt' att', in_order r')), written_edit.
      by exists r', m, txt', att'.
    + intros (r & m & Hr & Ho & (Hm & Hi & Ha & Hlt) & Hmax). split.
      * apply written_edit. exists r, m, (edit_text f), (edit_att f). by rewrite <-Ho.
      * intros w' (r' & m' & txt & att & Hr' & Hm' & Hi' & Ha' & Ho' & ->)%written_edit. simpl.
        destruct (Hone m m') as [_ Em]; [done..|]. rewrite <-Ho. apply (Hmax r' txt att); congruence.
  - specialize (L (SEdit t)). destruct (editFor t s) as [f|] eqn:E.
    + split; [done|]. intros Hn. rewrite (proj1 (editFor_read s t f) E) in L. destruct L as [HW _].
      apply written_edit in HW as (r & m & txt & att & Hr & Hm & Hi & Ha & Ho & _). by destruct (Hn r m txt att Hr).
    + split; [|done]. intros _ r m txt att Hr (Hm & Hi & Ha & Ho).
      unfold editFor in E. simpl in L. rewrite E in L. by apply (L (VEdit txt att, in_order r)), written_edit; exists r, m, txt, att.
  - intros emoji member. rewrite hasReacted_read. setoid_rewrite R; [|done]. split.
    + intros [k [(r & m & add & Hr & Hm & Hi & Ha & Ho & [= <- ->])%written_react Hmax]].
      exists r, m. repeat (split; [done|]). intros r' add' Hr' Ha'.
      destruct (decide (in_order m < in_order r')); [|lia].
      by apply (Hmax (VAdd add', in_order r')), written_react; exists r', m, add'.
    + intros (r & m & Hr & (Hm & Hi & Ha & Ho) & Hmax). exists (in_order r). split; [by apply written_react; exists r, m, true|].
      intros w' (r' & m' & add' & Hr' & _ & _ & Ha' & _ & ->)%written_react. by apply (Hmax r' add').
  - rewrite pinned_read by apply fold_rows_wf. setoid_rewrite R; [|done]. split.
    + intros [k [(r & m & pinned & Hr & Hm & Hi & Ho & [= <- ->])%written_pin Hmax]].
      exists r, m. repeat (split; [done|]). intros r' pinned' Hr'.
      destruct (decide (in_order m < in_order r')); [|lia].
      by apply (Hmax (VPin pinned', in_order r')), written_pin; exists r', m, pinned'.
    + intros (r & m & Hr & (Hm & Hi & _ & Ho) & Hmax). exists (in_order r). split; [by apply written_pin; exists r, m, true|].
      intros w' (r' & m' & pinned' & Hr' & _ & _ & _ & ->)%written_pin. by apply (Hmax r' pinned').
Qed.

(** ** The reported set *)

Definition slot_target (sl : slot) : jsstr :=
  match sl with SReact t _ _ | SEdit t | SDelete t | SPin t | SVote t _ => t end.

(** The values of a target's registers, orders aside. *)
Definition same_values (t : jsstr) (s s' : FoldState) : Prop :=
  ∀ sl, slot_target sl = t → (fst <$> read s sl) = (fst <$> read s' sl).

Lemma lww_quiet {A} (f : A → payload) (o : option (A * Z)) a k :
  (stale o k = false → ∃ k', o = Some (a, k')) →
  (fst <$> lww ((λ w : A * Z, (f w.1, w.2)) <$> o) (f a, k)) = (fst <$> ((λ w : A * Z, (f w.1, w.2)) <$> o)).
Proof. rewrite lww_fmap. destruct (stale o k); [done|]. intros Hq. by destruct (Hq eq_refl) as [k' ->]. Qed.

Lemma apply_quiet_write id p s tg sl w :
  map_get id (targets s) = Some tg → write_of id tg p = Some (sl, w) → (apply id p s).1 = false →
  (fst <$> lww (read s sl) w) = (fst <$> read s sl).
Proof.
  intros Ht. unfold apply, write_of. rewrite Ht. destruct (_ <=? t_order tg); [done|].
  destruct (p_event p) as [? em add|? txt att| |? pn|? opts].
  - intros [= <- <-]. simpl. intros Hq. apply lww_quiet. intros E. rewrite E in Hq. simpl in Hq.
    destruct (map_get (p_sender p) _) as [[a k']|]; [|done]. apply negb_false_iff, eqb_prop in Hq as ->. eauto.
  - destruct (bool_decide _); [|done]. intros [= <- <-]. simpl.
    destruct (map_get id (edits s)) as [e|]; simpl; [|done]. by destruct (_ <=? edit_order e).
  - destruct (bool_decide _); [|done]. intros [= <- <-]. simpl. unfold map_has.
    by destruct (map_get id (deletes s)).
  - intros [= <- <-]. simpl. intros Hq. apply lww_quiet. intros E. rewrite E in Hq. simpl in Hq.
    destruct (map_get id (pins s)) as [[a k']|]; [|done]. apply negb_false_iff, eqb_prop in Hq as ->. eauto.
  - intros [= <- <-]. simpl. intros Hq. apply lww_quiet. intros E. by rewrite E in Hq.
Qed.

Lemma apply_quiet id p s t :
  (t = id → (apply id p s).1 = false) → same_values t s (apply id p s).2.
Proof.
  intros Hq sl Hsl. destruct (map_get id (targets s)) as [tg|] eqn:Ht; [|unfold apply; by rewrite Ht].
  rewrite (apply_read _ _ _ _ _ Ht). destruct (write_of id tg p) as [[sl' w]|] eqn:Hw; [|done].
  case_decide as E; [subst sl'|done]. symmetry. eapply apply_quiet_write; [done..|]. apply Hq.
  rewrite <-Hsl. unfold write_of in Hw. by repeat (case_match; simplify_eq/=).
Qed.

Lemma same_values_trans t s1 s2 s3 : same_values t s1 s2 → same_values t s2 s3 → same_values t s1 s3.
Proof. intros E1 E2 sl Hsl. by rewrite E1, E2. Qed.

Lemma elem_of_set_add x y l : x ∈ set_add y l ↔ x = y ∨ x ∈ l.
Proof. unfold set_add. case_bool_decide; [set_solver|]. rewrite elem_of_app, list_elem_of_singleton. tauto. Qed.

Lemma apply_pending_quiet id ps ch s t :
  t ∉ (foldl (apply_pending id) (ch, s) ps).1 →
  (t ∉ ch) ∧ same_values t s (foldl (apply_pending id) (ch, s) ps).2.
Proof.
  revert ch s. induction ps as [|p ps IH]; intros ch s; [done|]. simpl.
  unfold apply_pending at 2 4. simpl. pose proof (apply_quiet id p s t) as Hq.
  destruct (apply id p s) as [b s'] eqn:Ea. simpl in Hq. intros [Hch Hs']%IH.
  split; [destruct b; [rewrite elem_of_set_add in Hch; tauto|done]|].
  apply (same_values_trans _ _ s'); [|done]. apply Hq. intros ->.
  destruct b; [|done]. destruct Hch. apply elem_of_set_add. by left.
Qed.

Lemma ingest_quiet r s t : t ∉ (ingest r s).1 → same_values t s (ingest r s).2.
Proof.
  unfold ingest. destruct (in_event r) as [e|].
  - destruct (_ || _); [done|]. destruct (negb _); [done|].
    match goal with |- context [apply ?i ?p ?s1] => pose proof (apply_quiet i p s1 t) as Hq;
      destruct (apply i p s1) as [b s2] end.
    simpl in *. intros Ht. apply (same_values_trans _ _ (set_seen (set_add (messageId r) (seenEvents s)) s)); [done|].
    apply Hq. intros ->. destruct b; [set_solver|done].
  - destruct (map_has _ _); [done|].
    match goal with |- context [foldl _ ([], ?s1) ?ps] =>
      pose proof (apply_pending_quiet (messageId r) ps [] s1 t) as Hq;
      destruct (foldl (apply_pending (messageId r)) ([], s1) ps) as [ch s2] end.
    simpl in *. intros [_ Hs]%Hq. exact Hs.
Qed.

Lemma same_values_votes t s s' : fold_wf s → fold_wf s' → same_values t s s' →
  ∀ m, map_get m (votesFor t s) = map_get m (votesFor t s').
Proof.
  assert (∀ s0 m, fold_wf s0 → map_get m (votesFor t s0) =
    fst <$> map_get m (default [] (map_get t (votes s0)))) as E.
  { intros s0 m W. unfold votesFor. rewrite foldl_map_set; [|by apply default_votes_ok|done]. simpl.
    induction (default [] (map_get t (votes s0))) as [|[k v] b IH]; simpl; [done|]. by case_decide. }
  intros W W' Hs m. rewrite !E by done. specialize (Hs (SVote t m) eq_refl). simpl in Hs.
  by destruct (map_get m (default [] (map_get t (votes s)))) as [[]|],
    (map_get m (default [] (map_get t (votes s')))) as [[]|]; simplify_eq/=.
Qed.

(** [ingest] reports every change of value: a target it does not report
    keeps its deletion, its edit's text and attachments, its pin, every
    member's reactions and every member's vote. *)
Lemma ingest_reports_changes rows r t :
  let s := fold_rows rows in let s' := (ingest r s).2 in
  t ∉ (ingest r s).1 →
  isDeleted t s' = isDeleted t s
  ∧ ((λ f, (edit_text f, edit_att f)) <$> editFor t s') = ((λ f, (edit_text f, edit_att f)) <$> editFor t s)
  ∧ (fst <$> map_get t (pins s')) = (fst <$> map_get t (pins s))
  ∧ (∀ e m, hasReacted t e m s' = hasReacted t e m s)
  ∧ (∀ m, map_get m (votesFor t s') = map_get m (votesFor t s)).
Proof.
  intros s s' Hs%ingest_quiet. fold s' in Hs.
  assert (fold_wf s') as W' by (unfold s', s; rewrite <-fold_rows_snoc; apply fold_rows_wf).
  split; [|split; [|split; [|split]]].
  - specialize (Hs (SDelete t) eq_refl). unfold isDeleted, map_has. simpl in Hs.
    apply bool_decide_ext. by destruct (map_get t (deletes s)), (map_get t (deletes s')).
  - specialize (Hs (SEdit t) eq_refl). unfold editFor. simpl in Hs.
    destruct (map_get t (edits s)), (map_get t (edits s')); simpl in *; congruence.
  - specialize (Hs (SPin t) eq_refl). simpl in Hs.
    destruct (map_get t (pins s)), (map_get t (pins s')); simpl in *; congruence.
  - intros e m. specialize (Hs (SReact t (normalizeNFC e) (toLowerCase m)) eq_refl). simpl in Hs.
    unfold hasReacted.
    destruct (map_get t (reactions s)) as [a|], (map_get t (reactions s')) as [a'|]; simpl in *;
      try destruct (map_get _ a) as [b|]; try destruct (map_get _ a') as [b'|]; simpl in *;
      try destruct (map_get _ b) as [[]|]; try destruct (map_get _ b') as [[]|]; simpl in *; by simplify_eq.
  - intros m. symmetry. apply same_values_votes; [apply fold_rows_wf|done..].
Qed.
End properties.

(** * Witnesses *)

Definition sample_row (id : string) (k : Z) (who : string) (e : option MessageEvent) : FoldInput :=
  {| messageId := js id; in_order := k; senderAddress := js who; senderVerified := true; in_event := e |}.

(** Bob's reaction and Alice's edit arrive before and after her message. *)
Definition sample_rows : list FoldInput :=
  [sample_row "e1" 5 "0xB0B" (Some (Reaction (js "m1") (js "+1") true));
   sample_row "m1" 1 "0xA" None;
   sample_row "e2" 7 "0xa" (Some (Edit (js "m1") (js "hello") None));
   sample_row "e3" 8 "0xb0b" (Some (Delete (js "m1")))].

Lemma sample_consistent : @consistent ascii_text sample_rows.
Proof.
  unfold consistent, msg_row, event_row, sample_rows. split.
  - intros m m' [Hm Em] [Hm' Em'] _. rewrite !elem_of_cons, elem_of_nil in Hm, Hm'. naive_solver.
  - intros r e r' e' (Hr & _ & Er) (Hr' & _ & Er') Hid.
    rewrite !elem_of_cons, elem_of_nil in Hr, Hr'. naive_solver.
Qed.

Lemma sample_distinct : @distinct_orders sample_rows.
Proof.
  unfold distinct_orders, event_row, sample_rows. intros r e r' e' (Hr & _ & Er) (Hr' & _ & Er') Hid.
  rewrite !elem_of_cons, elem_of_nil in Hr, Hr'. naive_solver.
Qed.

Lemma fold_set_only_witness :
  pinnedTargets (@fold_rows ascii_text sample_rows) = []
  ∧ @reactionsFor (js "m1") (@fold_rows ascii_text sample_rows)
    = @reactionsFor (js "m1") (@fold_rows ascii_text (reverse sample_rows))
  ∧ @reactionsFor (js "m1") (@fold_rows ascii_text sample_rows)
    = [{| tally_emoji := js "+1"; tally_members := [js "0xb0b"] |}].
Proof.
  split; [vm_compute; reflexivity|]. split; [|vm_compute; reflexivity].
  refine (proj1 (proj2 (@fold_set_only ascii_text sample_rows (reverse sample_rows) sample_consistent sample_distinct _)
    (js "m1"))).
  intros r. rewrite elem_of_reverse. reflexivity.
Defined.

(** Bob may not delete Alice's message; her edit shows; his reaction counts. *)
Lemma fold_meaning_witness :
  let s := @fold_rows ascii_text sample_rows in
  isDeleted (js "m1") s = false
  ∧ (∃ f r, editFor (js "m1") s = Some f ∧ edit_text f = js "hello" ∧ r ∈ sample_rows ∧ in_order r = edit_order f)
  ∧ @hasReacted ascii_text (js "m1") (js "+1") (js "0xB0b") s = true.
Proof.
  intros s. pose proof (@fold_meaning ascii_text sample_rows (js "m1") sample_consistent sample_distinct)
    as (_ & Hedit & _ & Hreact & _).
  split; [vm_compute; reflexivity|]. split.
  - destruct (editFor (js "m1") s) as [f|] eqn:E; [|vm_compute in E; discriminate].
    destruct (proj1 (Hedit f) E) as (r & m & (Hr & _) & Ho & _).
    exists f, r. split; [reflexivity|]. split; [vm_compute in E; injection E as <-; vm_compute; reflexivity|].
    split; [exact Hr|exact Ho].
  - apply (Hreact (js "+1") (js "0xB0b")). exists (sample_row "e1" 5 "0xB0B" (Some (Reaction (js "m1") (js "+1") true))),
      (sample_row "m1" 1 "0xA" None).
    unfold event_row, msg_row, sample_rows. rewrite !elem_of_cons.
    split; [split; [by left|by vm_compute]|]. split; [split; [split; [by right; left|done]|by vm_compute]|].
    intros r' add (Hr' & _ & He) _. rewrite !elem_of_cons, elem_of_nil in Hr'.
    destruct Hr' as [->|[->|[->|[->|[]]]]]; simpl in *; (discriminate || lia).
Defined.

Lemma ingest_reports_changes_witness :
  let r := sample_row "e4" 9 "0xC" (Some (Pin (js "m1") true)) in
  isDeleted (js "m2") (@ingest ascii_text r (@fold_rows ascii_text sample_rows)).2
  = isDeleted (js "m2") (@fold_rows ascii_text sample_rows).
Proof.
  intros r. refine (proj1 (@ingest_reports_changes ascii_text sample_rows r (js "m2") _)).
  apply (bool_decide_unpack _). vm_compute. exact I.
Defined.

(** A second add of the same reaction moves the member behind the others, and
    the target is not reported. *)
Definition readd_rows : list FoldInput :=
  [sample_row "m1" 1 "0xa" None;
   sample_row "e1" 2 "0xb" (Some (Reaction (js "m1") (js "+1") true));
   sample_row "e2" 3 "0xc" (Some (Reaction (js "m1") (js "+1") true))].

Example readd_reorders :
  let s := @fold_rows ascii_text readd_rows in
  let '(changed, s') := @ingest ascii_text (sample_row "e3" 4 "0xb" (Some (Reaction (js "m1") (js "+1") true))) s in
  changed = []
  ∧ tally_members <$> reactionsFor (js "m1") s = [[js "0xb"; js "0xc"]]
  ∧ tally_members <$> reactionsFor (js "m1") s' = [[js "0xc"; js "0xb"]].
Proof. by vm_compute. Qed.
