(* ===== verification/Receipts.v ===== *)
(** Delivery and read ticks ([relayer/receipts.ts]). *)
From S2P Require Import Prelude JsString.

Record MemberReceipt := { member : jsstr; deliveredUpto : Z; readUpto : Z }.

Inductive MessageTickStatus := tick_none | delivered | read.

#[global] Instance MemberReceipt_eq_dec : EqDecision MemberReceipt.
Proof. solve_decision. Defined.

(** [Math.min(...l)] of a non-empty list. *)
Fixpoint list_min (x : Z) (l : list Z) : Z :=
  match l with [] => x | y :: l' => Z.min x (list_min y l') end.

Section receipts.
Context `{JsText}.

Definition same_member (a b : jsstr) : bool := bool_decide (toLowerCase a = toLowerCase b).

(** The members whose watermarks count; [peers] is [options?.peerAddresses]. *)
Definition tick_others (members : list MemberReceipt) (selfAddress : jsstr) (peers : option (list jsstr))
    : list MemberReceipt :=
  filter (λ m, negb (same_member (member m) selfAddress)
    && match peers with
       | Some (p :: ps) => existsb (same_member (member m)) (p :: ps)
       | _ => true
       end = true) members.

Definition tickStatus (order : number) (members : list MemberReceipt) (selfAddress : jsstr)
    (peers : option (list jsstr)) : MessageTickStatus :=
  if negb (isFinite order) || num_le order (Int 0) then tick_none else
  match tick_others members selfAddress peers with
  | [] => tick_none
  | m :: others =>
      let minDelivered := list_min (deliveredUpto m) (deliveredUpto <$> others) in
      let minRead := list_min (readUpto m) (readUpto <$> others) in
      if num_le order (Int minRead) then read
      else if num_le order (Int minDelivered) then delivered
      else tick_none
  end.

Definition merge_receipt (m next : MemberReceipt) : MemberReceipt :=
  {| member := member m;
     deliveredUpto := Z.max (deliveredUpto m) (deliveredUpto next);
     readUpto := Z.max (readUpto m) (readUpto next) |}.

Definition upsertMemberReceipt (members : list MemberReceipt) (next : MemberReceipt) : list MemberReceipt :=
  let out := (λ m, if same_member (member m) (member next) then merge_receipt m next else m) <$> members in
  if existsb (λ m, same_member (member m) (member next)) members then out else out ++ [next].

(** * Lemmas *)

Lemma num_le_list_min o x l :
  num_le o (Int (list_min x l)) = true ↔ Forall (λ y, num_le o (Int y) = true) (x :: l).
Proof.
  assert (∀ y z, y ≤ z → num_le o (Int y) = true → num_le o (Int z) = true) as Hmono.
  { intros y z Hyz. destruct o as [a|[p q]| | |]; simpl; rewrite ?Z.leb_le; try done; nia. }
  revert x. induction l as [|y l IH]; intros x; [by rewrite Forall_singleton|].
  rewrite Forall_cons, <-IH. simpl list_min. split.
  - intros Hm. split; eapply Hmono; [|exact Hm| |exact Hm]; lia.
  - intros [Hx Hy]. destruct (Z.min_spec x (list_min y l)) as [[_ ->]|[_ ->]]; done.
Qed.

Lemma same_member_spec a b : same_member a b = true ↔ toLowerCase a = toLowerCase b.
Proof. unfold same_member. by rewrite bool_decide_eq_true. Qed.

(** The tick of an own message.  It is [read] exactly when the order is
    finite and positive, some other counted member exists and every one of them
    has read up to the order; it is [delivered] when all have it delivered and not all have read it. *)
Lemma tickStatus_spec order members self peers :
  let others := tick_others members self peers in
  let sent := isFinite order = true ∧ num_le order (Int 0) = false ∧ others ≠ [] in
  let all_read := Forall (λ m, num_le order (Int (readUpto m)) = true) others in
  let all_delivered := Forall (λ m, num_le order (Int (deliveredUpto m)) = true) others in
  (tickStatus order members self peers = read ↔ sent ∧ all_read)
  ∧ (tickStatus order members self peers = delivered ↔ sent ∧ all_delivered ∧ ¬ all_read)
  ∧ Forall (λ m, m ∈ members ∧ toLowerCase (member m) ≠ toLowerCase self) others.
Proof.
  intros others sent all_read all_delivered.
  assert (Forall (λ m, m ∈ members ∧ toLowerCase (member m) ≠ toLowerCase self) others) as Ho.
  { apply Forall_forall. intros m [Hm ?]%list_elem_of_filter. split; [done|].
    apply andb_prop in Hm as [Hm _]. bool_to_Z. rewrite <-same_member_spec. by rewrite Hm. }
  unfold tickStatus. fold others.
  destruct (isFinite order) eqn:Hf, (num_le order (Int 0)) eqn:Hp;
    try (subst sent; simpl; split; [|split]; [split; [done|intros [(? & ? & _) _]; congruence]
      |split; [done|intros [(? & ? & _) _]; congruence]|done]).
  simpl. destruct others as [|m l] eqn:El.
  { split; [|split]; [split; [done|by intros [(_ & _ & ?) _]]|split; [done|by intros [(_ & _ & ?) _]]|done]. }
  assert (sent ↔ True) as -> by (subst sent; naive_solver).
  assert (all_read ↔ num_le order (Int (list_min (readUpto m) (readUpto <$> l))) = true) as ->.
  { rewrite num_le_list_min. change (readUpto m :: (readUpto <$> l)) with (readUpto <$> (m :: l)).
    by rewrite Forall_fmap. }
  assert (all_delivered ↔ num_le order (Int (list_min (deliveredUpto m) (deliveredUpto <$> l))) = true) as ->.
  { rewrite num_le_list_min. change (deliveredUpto m :: (deliveredUpto <$> l)) with (deliveredUpto <$> (m :: l)).
    by rewrite Forall_fmap. }
  destruct (num_le order (Int (list_min (readUpto m) _))), (num_le order (Int (list_min (deliveredUpto m) _)));
    naive_solver.
Qed.

(** The watermarks of a wallet, the greatest over its rows. *)
Definition watermark (f : MemberReceipt → Z) (k : jsstr) (l : list MemberReceipt) : Z :=
  foldr (λ m acc, if same_member (member m) k then Z.max (f m) acc else acc) 0 l.

Lemma watermark_cons f k m l :
  watermark f k (m :: l) = if same_member (member m) k then Z.max (f m) (watermark f k l) else watermark f k l.
Proof. done. Qed.

Lemma watermark_fmap f k l next :
  (∀ m, f (merge_receipt m next) = Z.max (f m) (f next)) → 0 ≤ f next →
  watermark f k ((λ m, if same_member (member m) (member next) then merge_receipt m next else m) <$> l)
  = if same_member (member next) k && existsb (λ m, same_member (member m) (member next)) l
    then Z.max (f next) (watermark f k l) else watermark f k l.
Proof.
  intros Hf Hn. induction l as [|m l IH]; [simpl; by destruct (same_member (member next) k)|].
  rewrite fmap_cons, !watermark_cons, IH. simpl existsb. unfold same_member in *.
  destruct (decide (toLowerCase (member m) = toLowerCase (member next))) as [E|E].
  - rewrite (bool_decide_true _ E). simpl. rewrite andb_true_r. rewrite E, Hf.
    case_bool_decide; simpl; [|done]. destruct (existsb _ l); simpl; lia.
  - rewrite (bool_decide_false _ E). simpl.
    destruct (decide (toLowerCase (member next) = toLowerCase k)) as [Ek|Ek].
    + rewrite (bool_decide_true _ Ek). rewrite bool_decide_false by congruence. done.
    + rewrite (bool_decide_false _ Ek). done.
Qed.

Lemma existsb_watermark f k l next : 0 ≤ f next → same_member (member next) k = true →
  existsb (λ m, same_member (member m) (member next)) l = false → watermark f k l = 0.
Proof.
  intros Hn Hk. induction l as [|m l IH]; simpl; [done|]. intros [Hm Hl]%orb_false_elim.
  rewrite IH by done. unfold same_member in *. bool_to_Z. rewrite bool_decide_false by congruence. done.
Qed.

Lemma upsert_watermark f k members next :
  (∀ m, f (merge_receipt m next) = Z.max (f m) (f next)) → 0 ≤ f next →
  watermark f k (upsertMemberReceipt members next)
  = if same_member (member next) k then Z.max (f next) (watermark f k members) else watermark f k members.
Proof.
  intros Hf Hn. unfold upsertMemberReceipt.
  destruct (existsb _ members) eqn:Ex.
  - rewrite watermark_fmap by done. rewrite Ex. by rewrite andb_true_r.
  - assert (watermark f k (members ++ [next]) =
      if same_member (member next) k then Z.max (f next) (watermark f k members) else watermark f k members) as Hs.
    { destruct (same_member (member next) k) eqn:Ek.
      - rewrite (existsb_watermark f k members next Hn Ek Ex).
        induction members as [|m l IH]; simpl; [by rewrite Ek|].
        simpl in Ex. apply orb_false_elim in Ex as [Em El]. rewrite IH by done.
        unfold same_member in Em, Ek |- *. bool_to_Z. by rewrite bool_decide_false by congruence.
      - clear Ex. induction members as [|m l IH]; simpl; [by rewrite Ek|]. by rewrite IH. }
    rewrite <-Hs. f_equal. f_equal. clear Hs. induction members as [|m l IH]; [done|]. simpl in *.
    apply orb_false_elim in Ex as [Em El]. rewrite Em. f_equal. by apply IH.
Qed.

(** Live receipts are merged max-wins: folding any sequence of receipt
    events into a list leaves each wallet with the greatest of its watermarks, so the
    result for a wallet does not depend on the order or repetition of the events and never goes down. *)
Lemma upserts_max_wins members nexts k :
  Forall (λ n, 0 ≤ deliveredUpto n ∧ 0 ≤ readUpto n) nexts →
  let out := foldl upsertMemberReceipt members nexts in
  watermark deliveredUpto k out = Z.max (watermark deliveredUpto k members) (watermark deliveredUpto k nexts)
  ∧ watermark readUpto k out = Z.max (watermark readUpto k members) (watermark readUpto k nexts).
Proof.
  assert (∀ f, (∀ m next, f (merge_receipt m next) = Z.max (f m) (f next)) →
    Forall (λ n, 0 ≤ f n) nexts →
    watermark f k (foldl upsertMemberReceipt members nexts)
    = Z.max (watermark f k members) (watermark f k nexts)) as Hgen.
  { intros f Hf Hn. revert members. induction Hn as [|n l Hn _ IH]; intros members; simpl.
    - clear. induction members as [|m l IH]; simpl; [done|]. destruct (same_member _ _); lia.
    - rewrite IH, upsert_watermark by done. destruct (same_member _ _); lia. }
  intros Hn out. split; apply Hgen; try done; eapply Forall_impl; try done; naive_solver.
Qed.
End receipts.

Lemma upserts_max_wins_witness :
  let r k d u := {| member := js k; deliveredUpto := d; readUpto := u |} in
  let out := foldl (@upsertMemberReceipt ascii_text) [r "0xAB" 1 1] [r "0xab" 9 3; r "0xcd" 4 4; r "0xAb" 7 5] in
  @watermark ascii_text readUpto (js "0xab") out = 5 ∧ length out = 2%nat.
Proof.
  intros r out. split; [|vm_compute; reflexivity].
  refine (eq_trans (proj2 (@upserts_max_wins ascii_text [r "0xAB" 1 1] [r "0xab" 9 3; r "0xcd" 4 4; r "0xAb" 7 5] (js "0xab") _)) _).
  - repeat (constructor; [simpl; lia|]). constructor.
  - vm_compute. reflexivity.
Defined.
