(* ===== verification/ReadState.v ===== *)
(** Read state ([sync/types.ts], [sync/read-state-crypto.ts] and the merge of
    [sync/messaging-sync-manager.ts]): its JSON and encrypted forms, and the
    max-wins merge of two states.  AES-GCM is the class [AesGcm]; the key
    derived from the wallet's signature is an argument. *)
From S2P Require Import Prelude JsString JsMap Utf8 Json TextDecoder.

(** * State *)

Record ReadEntry := { readUpto : Z; muted : option bool }.

Record UserReadState := { updatedAt : Z; groups : list (jsstr * ReadEntry) }.

#[global] Instance ReadEntry_eq_dec : EqDecision ReadEntry.
Proof. solve_decision. Defined.
#[global] Instance UserReadState_eq_dec : EqDecision UserReadState.
Proof. solve_decision. Defined.

Definition createEmptyReadState (now : Z) : UserReadState := {| updatedAt := now; groups := [] |}.

(** [a ?? b] on the optional [muted]. *)
Definition or_else {A} (a b : option A) : option A := match a with Some _ => a | None => b end.

(** One round of the loop of [mergeReadState]. *)
Definition merge_entry (gs : list (jsstr * ReadEntry)) (kv : jsstr * ReadEntry) : list (jsstr * ReadEntry) :=
  let '(groupId, localEntry) := kv in
  let remoteEntry := map_get groupId gs in
  if match remoteEntry with Some r => readUpto r <? readUpto localEntry | None => true end then
    map_set groupId
      {| readUpto := Z.max (readUpto localEntry) (default 0 (readUpto <$> remoteEntry));
         muted := or_else (muted localEntry) (remoteEntry ≫= muted) |} gs
  else gs.

Definition mergeReadState (local remote : UserReadState) : UserReadState :=
  {| updatedAt := Z.max (updatedAt local) (updatedAt remote);
     groups := foldl merge_entry (groups remote) (groups local) |}.

(** The watermark of a group, -1 when the state has none. *)
Definition upto (s : UserReadState) (g : jsstr) : Z := default (-1) (readUpto <$> map_get g (groups s)).

(** * Encryption *)

Definition entry_json (e : ReadEntry) : json :=
  JObj ((js "readUpto", JNum (Int (readUpto e)))
        :: match muted e with Some b => [(js "muted", JBool b)] | None => [] end).

Definition state_json (s : UserReadState) : json :=
  JObj [(js "version", JNum (Int 1)); (js "updatedAt", JNum (Int (updatedAt s)));
        (js "groups", JObj ((λ kv, (kv.1, entry_json kv.2)) <$> groups s))].

(** The fields of the parsed object the code reads; [None] where a field has
    another type (the source casts without a check). *)
Definition json_entry (v : json) : option ReadEntry :=
  match obj_get v (js "readUpto") with
  | Some (JNum (Int n)) =>
      Some {| readUpto := n;
              muted := match obj_get v (js "muted") with Some (JBool b) => Some b | _ => None end |}
  | _ => None
  end.

Definition json_state (v : json) : option UserReadState :=
  match obj_get v (js "updatedAt"), obj_get v (js "groups") with
  | Some (JNum (Int u)), Some (JObj l) =>
      gs ← mapM (λ kv : jsstr * json, e ← json_entry kv.2; Some (kv.1, e)) l;
      Some {| updatedAt := u; groups := gs |}
  | _, _ => None
  end.

(** Web Crypto: AES-GCM and the key of the signer. *)
Class AesGcm := {
  aesGcmEncrypt : bytes → bytes → bytes → bytes;         (* key, plaintext, nonce *)
  aesGcmDecrypt : bytes → bytes → bytes → option bytes;  (* key, ciphertext, nonce *)
}.
Class AesGcmLaws `{AesGcm} : Prop :=
  aes_decrypt_encrypt k p n : aesGcmDecrypt k (aesGcmEncrypt k p n) n = Some p.

Section crypto.
Context `{JsonNumbers} `{AesGcm} (key : bytes).

Definition encryptReadState (nonce : bytes) (s : UserReadState) : bytes :=
  nonce ++ aesGcmEncrypt key (utf8_encode (stringify (state_json s))) nonce.

(** The parsed value is typed by a cast; here what is no read state is a failure. *)
Definition decryptReadState (blob : bytes) : option UserReadState :=
  plaintext ← aesGcmDecrypt key (drop 12 blob) (take 12 blob);
  v ← json_parse (text_decode plaintext);
  json_state v.
End crypto.

(** A state that JSON can carry. *)
Definition entry_ok (e : ReadEntry) : Prop := Z.abs (readUpto e) ≤ 2 ^ 53 - 1.
Definition state_ok (s : UserReadState) : Prop :=
  Z.abs (updatedAt s) ≤ 2 ^ 53 - 1 ∧ Forall (λ kv : jsstr * ReadEntry, wf_str kv.1 ∧ entry_ok kv.2) (groups s).

Section crypto_lemmas.
Context `{JsonNumbersLaws} `{AesGcmLaws}.

Lemma json_ok_int z : Z.abs z ≤ 2 ^ 53 - 1 → json_ok (JNum (Int z)).
Proof. apply num_stable_int. Qed.

Lemma entry_json_ok e : entry_ok e → json_ok (entry_json e).
Proof.
  intros He. apply json_ok_obj. constructor; [split; [apply wf_js|by apply json_ok_int]|].
  destruct (muted e); [|constructor]. constructor; [|constructor]. split; [apply wf_js|exact I].
Qed.

Lemma state_json_ok s : state_ok s → json_ok (state_json s).
Proof.
  intros [Hu Hg]. apply json_ok_obj. repeat apply Forall_cons_2; [..|constructor]; split; try apply wf_js.
  - by apply json_ok_int.
  - by apply json_ok_int.
  - apply json_ok_obj, Forall_fmap. eapply Forall_impl; [exact Hg|].
    intros kv [? ?]. split; [done|by apply entry_json_ok].
Qed.

Lemma json_entry_json e : json_entry (entry_json e) = Some e.
Proof. destruct e as [n [b|]]; reflexivity. Qed.

Lemma json_state_json s : json_state (state_json s) = Some s.
Proof.
  unfold json_state, state_json.
  replace (obj_get _ (js "updatedAt")) with (Some (JNum (Int (updatedAt s)))) by reflexivity.
  replace (obj_get _ (js "groups"))
    with (Some (JObj ((λ kv, (kv.1, entry_json kv.2)) <$> groups s))) by reflexivity.
  destruct s as [u gs]. simpl.
  replace (mapM _ _) with (Some gs); [done|]. symmetry.
  induction gs as [|[k e] gs IH]; [done|]. rewrite fmap_cons. cbn [mapM fst snd].
  rewrite json_entry_json. simpl. by rewrite IH.
Qed.

(** Read-state encryption round trip: with the same key, decrypting what
    [encryptReadState] produced under any 12-byte nonce gives the state back, watermarks and mute flags
    included. *)
Lemma decrypt_encrypt_read_state key nonce s :
  state_ok s → length nonce = 12%nat →
  decryptReadState key (encryptReadState key nonce s) = Some s.
Proof.
  intros Hs Hn. unfold decryptReadState, encryptReadState.
  rewrite drop_app_length', take_app_length' by done. rewrite aes_decrypt_encrypt. cbn [mbind option_bind].
  pose proof (state_json_ok s Hs) as Hok. rewrite text_stringify, json_parse_stringify by done. apply json_state_json.
Qed.
End crypto_lemmas.

(** * Merging *)

Lemma merge_entry_get gs k e g :
  map_get g (merge_entry gs (k, e)) =
    if decide (g = k) then
      match map_get k gs with
      | Some r => if readUpto r <? readUpto e
                  then Some {| readUpto := readUpto e; muted := or_else (muted e) (muted r) |} else Some r
      | None => Some {| readUpto := Z.max (readUpto e) 0; muted := muted e |}
      end
    else map_get g gs.
Proof.
  unfold merge_entry. destruct (map_get k gs) as [r|] eqn:E; simpl.
  - destruct (readUpto r <? readUpto e) eqn:El; [|by case_decide; subst].
    rewrite map_get_set. case_decide; [|done]. bool_to_Z. do 2 f_equal. lia.
  - rewrite map_get_set. case_decide; [|done]. by destruct e as [? []].
Qed.

Lemma merge_upto l gs g : NoDup l.*1 →
  default (-1) (readUpto <$> map_get g (foldl merge_entry gs l)) =
    match map_get g gs, map_get g l with
    | Some r, Some e => Z.max (readUpto e) (readUpto r)
    | Some r, None => readUpto r
    | None, Some e => Z.max (readUpto e) 0
    | None, None => -1
    end.
Proof.
  revert gs. induction l as [|[k e] l IH]; intros gs Hnd.
  { simpl. by destruct (map_get g gs). }
  inversion Hnd as [|? ? Hni Hnd']; subst. cbn [foldl]. rewrite IH by done.
  rewrite merge_entry_get. cbn [map_get]. case_decide as E.
  - subst g. rewrite decide_True by done.
    assert (map_get k l = None) as ->.
    { destruct (map_get k l) eqn:El; [|done]. apply elem_of_map_get in El; [|done].
      by apply (list_elem_of_fmap_2 fst) in El. }
    destruct (map_get k gs) as [r|]; simpl; [|done].
    destruct (readUpto r <? readUpto e) eqn:El; bool_to_Z; simpl; lia.
  - by rewrite decide_False by done.
Qed.

Lemma merge_entry_ok gs kv : map_ok gs → map_ok (merge_entry gs kv).
Proof. destruct kv as [k e]. intros H. unfold merge_entry. case_match; [by apply map_set_ok|done]. Qed.

Lemma mergeReadState_ok a b : map_ok (groups b) → map_ok (groups (mergeReadState a b)).
Proof.
  intros Hb. simpl. revert Hb. generalize (groups b). induction (groups a) as [|kv l IH]; intros gs Hgs; [done|].
  simpl. by apply IH, merge_entry_ok.
Qed.


(** Watermarks are message orders. *)
Definition watermarks_ok (s : UserReadState) : Prop :=
  map_ok (groups s) ∧ ∀ g e, map_get g (groups s) = Some e → 0 ≤ readUpto e.

Lemma merge_upto_max a b g : watermarks_ok a → watermarks_ok b →
  upto (mergeReadState a b) g = Z.max (upto a g) (upto b g).
Proof.
  intros [Ha Na] [_ Nb]. unfold upto at 1, mergeReadState. cbn [groups]. rewrite merge_upto by done.
  specialize (Na g). specialize (Nb g). unfold upto.
  destruct (map_get g (groups b)) as [r|], (map_get g (groups a)) as [e|]; simpl; try lia.
  - specialize (Nb r eq_refl). lia.
  - specialize (Na e eq_refl). lia.
Qed.

Lemma merge_upto_remote a b g : map_ok (groups a) → upto b g ≤ upto (mergeReadState a b) g.
Proof.
  intros Ha. unfold upto at 2, mergeReadState. cbn [groups]. rewrite merge_upto by done. unfold upto.
  destruct (map_get g (groups b)) as [r|], (map_get g (groups a)) as [e|]; simpl; lia.
Qed.

(** Merging two devices' read states keeps the greater watermark of every
    group, whichever side is local, and the later timestamp; merging again changes no watermark. *)
Lemma merge_max_wins a b g :
  watermarks_ok a → watermarks_ok b →
  upto (mergeReadState a b) g = Z.max (upto a g) (upto b g)
  ∧ upto (mergeReadState a b) g = upto (mergeReadState b a) g
  ∧ updatedAt (mergeReadState a b) = Z.max (updatedAt a) (updatedAt b)
  ∧ upto (mergeReadState a (mergeReadState a b)) g = upto (mergeReadState a b) g.
Proof.
  intros Ha Hb. split; [by apply merge_upto_max|].
  split; [rewrite !merge_upto_max by done; lia|]. split; [done|].
  apply Z.le_antisymm; [|apply merge_upto_remote, Ha].
  unfold upto at 1, mergeReadState at 1. cbn [groups]. rewrite merge_upto by apply Ha.
  pose proof (merge_upto_max a b g Ha Hb) as E. unfold upto in E |- *.
  destruct Ha as [_ Na]. specialize (Na g).
  destruct (map_get g (groups (mergeReadState a b))) as [m|], (map_get g (groups a)) as [e|]; simpl in *; try lia.
  specialize (Na e eq_refl). lia.
Qed.
