(* ===== verification/SyncManager.v ===== *)
(** The synchronisation manager ([sync/messaging-sync-manager.ts]): cached
    reads, compare-and-set writes with merge and retry, unread counts.

    One wallet is fixed.  The relayer's row for it is the history of the blobs
    it accepted; between two requests of the manager the environment acts
    ([env_step]): other devices append blobs, time passes, the network fails. *)
From S2P Require Import Prelude JsString JsMap Utf8 Json ReadState.

(** * State *)

Record CachedReadState := {
  c_state : UserReadState;
  c_blobVersion : option Z;
  c_fetchedAt : Z;
}.

Inductive sync_error :=
  | TransportError (status : Z)
  | ReadStateConflictError (current : bytes) (version : Z)
  | DecryptError
  | RetriesExhausted.

Record env_step := { env_blobs : list bytes; env_now : Z; env_fault : option Z }.

Record world := {
  history : list bytes;
  clock : Z;
  nonces : list bytes;
  schedule : list env_step;
  cache : list (jsstr * CachedReadState);
}.

Definition set_history h w := {| history := h; clock := clock w; nonces := nonces w;
  schedule := schedule w; cache := cache w |}.
Definition set_nonces n w := {| history := history w; clock := clock w; nonces := n;
  schedule := schedule w; cache := cache w |}.
Definition set_cache c w := {| history := history w; clock := clock w; nonces := nonces w;
  schedule := schedule w; cache := c |}.

Definition CACHE_TTL_MS : Z := 30000.
Definition MAX_PUT_ATTEMPTS : nat := 3.

Record UnreadRow := { row_groupId : jsstr; row_unreadCount : Z; row_latestOrder : Z }.

(** A record with string keys, as the counts are returned. *)
Abbreviation counts := (list (jsstr * Z)).

Section manager.
Context `{JsonNumbers} `{AesGcm} (address : jsstr) (key : bytes).

Abbreviation sync := (eff world sync_error).

(** ** Environment *)

Definition env : sync unit := λ w,
  match schedule w with
  | [] => (Ok tt, w)
  | e :: es =>
      let w' := {| history := history w ++ env_blobs e; clock := env_now e; nonces := nonces w;
                   schedule := es; cache := cache w |} in
      match env_fault e with
      | Some status => (Throw (TransportError status), w')
      | None => (Ok tt, w')
      end
  end.

(** [generateRandomBytes(12)] *)
Definition random_nonce : sync bytes := λ w,
  match nonces w with
  | [] => (Ok (replicate 12 0), w)
  | n :: ns => (Ok n, set_nonces ns w)
  end.

Definition date_now : sync Z := λ w, (Ok (clock w), w).

(** ** The relayer's row *)

Definition version (h : list bytes) : Z := Z.of_nat (length h).

Definition transport_get : sync (bytes * Z) :=
  _ ← env;
  w ← get_state;
  match last (history w) with
  | Some b => mret (b, version (history w))
  | None => throw (TransportError 404)
  end.

(** The compare-and-set applies when the caller expects a version and a row exists. *)
Definition transport_put (blob : bytes) (expected : option Z) : sync Z :=
  _ ← env;
  w ← get_state;
  match expected, last (history w) with
  | Some e, Some b =>
      if e =? version (history w)
      then _ ← put_state (set_history (history w ++ [blob]) w); mret (version (history w) + 1)
      else throw (ReadStateConflictError b (version (history w)))
  | _, _ => _ ← put_state (set_history (history w ++ [blob]) w); mret (version (history w) + 1)
  end.

(** ** Operations *)

Definition cache_set (c : CachedReadState) : sync unit :=
  modify (λ w, set_cache (map_set address c (cache w)) w).

Definition decrypt (blob : bytes) : sync UserReadState :=
  match decryptReadState key blob with
  | Some s => mret s
  | None => throw DecryptError
  end.

Definition getReadState : sync UserReadState :=
  try_catch
    (wire ← transport_get;
     state ← decrypt wire.1;
     t ← date_now;
     _ ← cache_set {| c_state := state; c_blobVersion := Some wire.2; c_fetchedAt := t |};
     mret state)
    (λ e, match e with
          | TransportError status =>
              if status =? 404 then
                t ← date_now;
                _ ← cache_set {| c_state := createEmptyReadState t; c_blobVersion := None; c_fetchedAt := t |};
                mret (createEmptyReadState t)
              else throw e
          | _ => throw e
          end).

Definition invalidateReadState (blobVersion : option Z) : sync unit :=
  modify (λ w,
    let cached := map_get address (cache w) in
    match blobVersion, cached ≫= c_blobVersion with
    | Some v, Some c => if v <=? c then w else set_cache (map_delete address (cache w)) w
    | _, _ => set_cache (map_delete address (cache w)) w
    end).

(** The watermark to write over [base]. *)
Definition advance (base : UserReadState) (groupId : jsstr) (to now : Z) : UserReadState :=
  let entry := map_get groupId (groups base) in
  {| updatedAt := now;
     groups := map_set groupId
       {| ReadState.readUpto := Z.max (default 0 (readUpto <$> entry)) to; muted := entry ≫= muted |}
       (groups base) |}.

(** The attempts left of the loop of [updateReadState]. *)
Fixpoint put_loop (left : nat) (groupId : jsstr) (to : Z) (localState : option UserReadState)
    (serverState : UserReadState) (expectedVersion : option Z) : sync UserReadState :=
  match left with
  | O => throw RetriesExhausted
  | S left' =>
      if (to <=? upto serverState groupId) && bool_decide (is_Some expectedVersion)
           && bool_decide (localState = None)
      then mret serverState
      else
        let base := match localState with Some l => mergeReadState l serverState | None => serverState end in
        now ← date_now;
        let merged := advance base groupId to now in
        nonce ← random_nonce;
        let encryptedBlob := encryptReadState key nonce merged in
        try_catch
          (v ← transport_put encryptedBlob expectedVersion;
           t ← date_now;
           _ ← cache_set {| c_state := merged; c_blobVersion := Some v; c_fetchedAt := t |};
           mret merged)
          (λ e, match e, left' with
                | ReadStateConflictError current v, S _ =>
                    state ← decrypt current;
                    t ← date_now;
                    _ ← cache_set {| c_state := state; c_blobVersion := Some v; c_fetchedAt := t |};
                    put_loop left' groupId to localState state (Some v)
                | _, _ => throw e
                end)
  end.

Definition get_cached : sync (option CachedReadState) := λ w, (Ok (map_get address (cache w)), w).

Definition updateReadState (groupId : jsstr) (to : Z) (localState : option UserReadState) : sync UserReadState :=
  cached ← get_cached;
  cached ← match cached with
           | Some c => mret (Some c)
           | None => _ ← getReadState; get_cached
           end;
  match cached with
  | Some c => put_loop MAX_PUT_ATTEMPTS groupId to localState (c_state c) (c_blobVersion c)
  | None => throw RetriesExhausted (* [getReadState] has filled the cache *)
  end.

Definition getReadStateCached : sync UserReadState :=
  cached ← get_cached;
  t ← date_now;
  match cached with
  | Some c => if t - c_fetchedAt c <? CACHE_TTL_MS then mret (c_state c) else getReadState
  | None => getReadState
  end.

Context (fetchUnreadCounts : list (jsstr * Z) → sync (list UnreadRow)).

Definition unread_items (readState : UserReadState) (groupIds : list jsstr) : list (jsstr * Z) :=
  (λ g, (g, default 0 (readUpto <$> map_get g (groups readState)))) <$> groupIds.

Definition fill_counts (f : UnreadRow → Z) (groupIds : list jsstr) (rows : list UnreadRow) : counts :=
  foldl (λ m r, map_set (row_groupId r) (f r) m)
    (foldl (λ m g, map_set g 0 m) [] groupIds) rows.

Definition read_state_of (readState : option UserReadState) : sync UserReadState :=
  match readState with Some s => mret s | None => getReadStateCached end.

Definition getUnreadCounts (groupIds : list jsstr) (readState : option UserReadState) : sync counts :=
  match groupIds with
  | [] => mret []
  | _ =>
      s ← read_state_of readState;
      rows ← fetchUnreadCounts (unread_items s groupIds);
      mret (fill_counts row_unreadCount groupIds rows)
  end.

Definition getGroupActivitySummary (groupIds : list jsstr) (readState : option UserReadState)
    : sync (counts * counts) :=
  match groupIds with
  | [] => mret ([], [])
  | _ =>
      s ← read_state_of readState;
      rows ← fetchUnreadCounts (unread_items s groupIds);
      mret (fill_counts row_unreadCount groupIds rows, fill_counts row_latestOrder groupIds rows)
  end.
End manager.

(** * What the manager knows about the row *)

Section safety.
Context `{JsonNumbers} `{AesGcm} (address : jsstr) (key : bytes).

(** The blob holds the state: it decrypts to it, or is its encryption. *)
Definition sealed (b : bytes) (s : UserReadState) : Prop :=
  decryptReadState key b = Some s ∨ ∃ nonce, b = encryptReadState key nonce s.

(** The row held the state when its version was [v]. *)
Definition at_version (h : list bytes) (v : Z) (s : UserReadState) : Prop :=
  1 ≤ v ∧ ∃ b, h !! Z.to_nat (v - 1) = Some b ∧ sealed b s.

Definition cache_inv (w : world) : Prop := ∀ c v,
  map_get address (cache w) = Some c → c_blobVersion c = Some v → at_version (history w) v (c_state c).

Lemma at_version_prefix h h' v s : h `prefix_of` h' → at_version h v s → at_version h' v s.
Proof.
  intros [k ->] [Hv (b & Hb & Hs)]. split; [done|]. exists b. split; [|done]. by apply lookup_app_l_Some.
Qed.

Lemma at_version_last h b s : last h = Some b → sealed b s → at_version h (version h) s.
Proof.
  intros Hl Hs. apply last_Some in Hl as [l ->]. unfold version. rewrite length_app. simpl.
  split; [lia|]. exists b. split; [|done]. rewrite lookup_app_r by lia.
  by replace (Z.to_nat _ - length l)%nat with 0%nat by lia.
Qed.

Lemma env_spec r w w' : env w = (r, w') →
  history w `prefix_of` history w' ∧ cache w' = cache w ∧ nonces w' = nonces w
  ∧ (∀ e, r = Throw e → ∃ st, e = TransportError st).
Proof.
  unfold env. destruct (schedule w) as [|e es]; [by intros [= <- <-]|].
  destruct (env_fault e); intros [= <- <-]; simpl; (split; [by eexists|]); (split; [done|]); (split; [done|]);
    intros ? [= <-]; eauto.
Qed.

Lemma cache_inv_mono w w' : history w `prefix_of` history w' → cache w' = cache w → cache_inv w → cache_inv w'.
Proof. intros Hh Hc Hi c v. rewrite Hc. intros Hg Hv. eapply at_version_prefix; [done|]. by eapply Hi. Qed.

Lemma cache_set_inv w c :
  cache_inv w → (∀ v, c_blobVersion c = Some v → at_version (history w) v (c_state c)) →
  cache_inv (set_cache (map_set address c (cache w)) w).
Proof. intros Hi Hc c' v. simpl. rewrite map_get_set_eq. intros [= <-]. apply Hc. Qed.

Lemma upto_advance base g to now g' :
  upto (advance base g to now) g' = if decide (g' = g) then Z.max (default 0 (readUpto <$> map_get g (groups base))) to
                                    else upto base g'.
Proof. unfold upto, advance. simpl. rewrite map_get_set. by case_decide. Qed.

Lemma advance_ge base g to now g' : upto base g' ≤ upto (advance base g to now) g'.
Proof.
  rewrite upto_advance. case_decide as E; [|lia]. subst g'. unfold upto. destruct (map_get g (groups base)); simpl; lia.
Qed.

Lemma advance_to base g to now : to ≤ upto (advance base g to now) g.
Proof. rewrite upto_advance, decide_True by done. lia. Qed.

(** A successful put appends the blob to the row as it is at that moment; with
    an expected version the row was still at that version. *)
Lemma transport_put_ok blob expected w v w' :
  transport_put blob expected w = (Ok v, w') →
  ∃ h0, history w `prefix_of` h0 ∧ history w' = h0 ++ [blob] ∧ v = version (history w') ∧ cache w' = cache w
    ∧ ∀ e, expected = Some e → h0 ≠ [] → e = version h0.
Proof.
  unfold transport_put. intros Hp. apply bind_ok_inv in Hp as ([] & w1 & He & Hp).
  destruct (env_spec _ _ _ He) as (Hpre & Hc & _).
  apply bind_ok_inv in Hp as (w1' & w1'' & [= <- <-] & Hp).
  assert (version (history w1 ++ [blob]) = version (history w1) + 1) as Hv.
  { unfold version. rewrite length_app. simpl. lia. }
  exists (history w1). split; [done|].
  assert (∀ v' w2, (_ ← put_state (set_history (history w1 ++ [blob]) w1); mret (version (history w1) + 1)) w1
    = ((Ok v' : outcome sync_error Z), w2) → history w2 = history w1 ++ [blob] ∧ v' = version (history w2) ∧ cache w2 = cache w) as Hok.
  { intros v' w2. run_eff. intros [= <- <-]. simpl. by rewrite Hv. }
  destruct expected as [e|]; [destruct (last (history w1)) as [b|] eqn:El|].
  - destruct (e =? version (history w1)) eqn:E; [|done]. bool_to_Z.
    destruct (Hok _ _ Hp) as (? & ? & ?). split; [done|]. split; [done|]. split; [done|]. by intros ? [= <-].
  - destruct (Hok _ _ Hp) as (? & ? & ?). split; [done|]. split; [done|]. split; [done|].
    intros ? _ Hne. by apply last_None in El.
  - destruct (Hok _ _ Hp) as (? & ? & ?). split; [done|]. split; [done|]. split; [done|]. done.
Qed.

Lemma transport_put_conflict blob expected w b v w' :
  transport_put blob expected w = (Throw (ReadStateConflictError b v), w') →
  history w `prefix_of` history w' ∧ cache w' = cache w ∧ last (history w') = Some b ∧ v = version (history w')
  ∧ is_Some expected.
Proof.
  unfold transport_put. intros Hp. apply bind_throw_inv in Hp as [He|([] & w1 & He & Hp)].
  { destruct (env_spec _ _ _ He) as (_ & _ & _ & Hx). by destruct (Hx _ eq_refl). }
  destruct (env_spec _ _ _ He) as (Hpre & Hc & _).
  apply bind_throw_inv in Hp as [Hp|(w1' & w1'' & [= <- <-] & Hp)]; [done|].
  destruct expected as [e|]; [destruct (last (history w1)) as [b'|] eqn:El|]; [|run_eff; done..].
  destruct (e =? version (history w1)) eqn:E; [run_eff; done|]. unfold throw in Hp.
  injection Hp as <- <- <-. eauto.
Qed.

Definition local_ok (localState : option UserReadState) : Prop :=
  from_option (λ l, map_ok (groups l)) True localState.

(** The result of a successful run of the loop. *)
Definition loop_result (w w' : world) (g : jsstr) (to : Z) (cas : bool) (st : UserReadState) : Prop :=
  cache_inv w' ∧ history w `prefix_of` history w' ∧ to ≤ upto st g
  ∧ ((∃ v, at_version (history w') v st)
     ∨ ∃ h0 nonce, history w' = h0 ++ [encryptReadState key nonce st] ∧ history w `prefix_of` h0
         ∧ (cas = true → ∃ s0, at_version h0 (version h0) s0 ∧ ∀ g', upto s0 g' ≤ upto st g')).

Lemma put_loop_result left g to localState s ev w st w' :
  local_ok localState → cache_inv w → (∀ v, ev = Some v → at_version (history w) v s) →
  put_loop address key left g to localState s ev w = (Ok st, w') →
  loop_result w w' g to (bool_decide (is_Some ev)) st.
Proof.
  intros Hl. revert s ev w. induction left as [|left IH]; intros s ev w Hi Hev Hrun; [done|].
  cbn [put_loop] in Hrun. destruct (_ && _ && _) eqn:Hskip.
  { bool_to_Z. inv_eff. split; [done|]. split; [done|]. split; [lia|]. left.
    destruct ev as [v|]; [|by destruct (is_Some_None (A:=Z))]. exists v. by apply Hev. }
  clear Hskip. set (base := match localState with Some l => _ | None => s end) in *.
  assert (∀ g', upto s g' ≤ upto base g') as Hbase.
  { intros g'. unfold base. destruct localState; [by apply merge_upto_remote|lia]. }
  apply bind_ok_inv in Hrun as (now & w0 & [= <- <-] & Hrun).
  apply bind_ok_inv in Hrun as (nonce & w1 & Hn & Hrun).
  assert (history w1 = history w ∧ cache w1 = cache w) as [Eh Ec].
  { unfold random_nonce in Hn. destruct (nonces w); injection Hn as _ <-; done. }
  set (merged := advance base g to (clock w)) in *.
  apply try_catch_inv in Hrun as [(st' & Hrun & [= <-])|(e & w2 & Hput & Hrun)].
  - apply bind_ok_inv in Hrun as (v & w2 & Hput & Hrun).
    destruct (transport_put_ok _ _ _ _ _ Hput) as (h0 & Hpre & Hh & -> & Hc & Hexp).
    apply bind_ok_inv in Hrun as (t & w3 & [= <- <-] & Hrun).
    apply bind_ok_inv in Hrun as ([] & w4 & [= <-] & Hrun). injection Hrun as <- <-.
    rewrite Eh in Hpre.
    assert (history w `prefix_of` history w2) as Hp2 by (rewrite Hh; by apply prefix_app_r).
    split; [|split; [done|split; [apply advance_to|]]].
    + apply cache_set_inv; [eapply cache_inv_mono; [| |exact Hi]; [done|by rewrite Hc, Ec]|].
      intros v [= <-]. simpl. apply at_version_last with (encryptReadState key nonce merged).
      * by rewrite Hh, last_snoc.
      * right. by eexists.
    + right. exists h0, nonce. simpl. split; [done|]. split; [done|]. intros Hcas. bool_to_Z.
      destruct ev as [v|]; [|by destruct (is_Some_None (A:=Z))].
      specialize (Hev v eq_refl). pose proof (at_version_prefix _ _ _ _ Hpre Hev) as Hv0.
      exists s. assert (h0 ≠ []) as Hne.
      { intros ->. destruct Hv0 as [_ (b & Hb & _)]. by rewrite lookup_nil in Hb. }
      rewrite <-(Hexp v eq_refl Hne). split; [done|]. intros g'. etrans; [apply Hbase|apply advance_ge].
  - destruct e as [|b v| |]; try done.
    apply bind_throw_inv in Hput as [Hput|(v' & w3 & Hput & Hx)]; [|run_eff; done].
    destruct (transport_put_conflict _ _ _ _ _ _ Hput) as (Hpre & Hc & Hlast & -> & Hsome).
    rewrite Eh in Hpre. destruct left as [|left']; [done|]. cbv iota in Hrun.
    apply bind_ok_inv in Hrun as (state & w3 & Hd & Hrun). unfold decrypt in Hd.
    destruct (decryptReadState key b) as [sd|] eqn:Ed; [|done]. injection Hd as <- <-.
    apply bind_ok_inv in Hrun as (t & w4 & [= <- <-] & Hrun).
    apply bind_ok_inv in Hrun as ([] & w5 & [= <-] & Hrun).
    assert (at_version (history w2) (version (history w2)) sd) as Hat.
    { apply at_version_last with b; [done|]. by left. }
    apply IH in Hrun; [|apply cache_set_inv; [eapply cache_inv_mono; [exact Hpre|by rewrite Hc, Ec|done]|by intros v [= <-]]
      |by intros v [= <-]].
    destruct Hrun as (R1 & R2 & R3 & R4). simpl in R2.
    split; [done|]. split; [by etrans|]. split; [done|].
    destruct R4 as [?|(h0 & n0 & ? & Hp0 & Hs0)]; [by left|right].
    exists h0, n0. split; [done|]. split; [by etrans|]. intros _. apply Hs0. by apply bool_decide_true.
Qed.
End safety.

(** * Properties *)

Section properties.
Context `{JsonNumbers} `{AesGcm} (address : jsstr) (key : bytes).

Lemma getReadState_ok w st w' :
  cache_inv address key w → getReadState address key w = (Ok st, w') →
  cache_inv address key w' ∧ history w `prefix_of` history w'
  ∧ ∃ c, map_get address (cache w') = Some c ∧ c_state c = st
      ∧ (history w ≠ [] → Forall (λ e, env_fault e ≠ Some 404) (schedule w) → is_Some (c_blobVersion c)).
Proof.
  intros Hi Hrun. unfold getReadState in Hrun.
  apply try_catch_inv in Hrun as [(st' & Hrun & [= <-])|(e & w1 & Hget & Hrun)].
  - apply bind_ok_inv in Hrun as ([b v] & w1 & Hget & Hrun). unfold transport_get in Hget.
    apply bind_ok_inv in Hget as ([] & w2 & He & Hget). destruct (env_spec _ _ _ He) as (Hpre & Hc & _).
    apply bind_ok_inv in Hget as (w2' & w2'' & [= <- <-] & Hget).
    destruct (last (history w2)) as [b'|] eqn:El; [|done]. injection Hget as <- <- <-.
    apply bind_ok_inv in Hrun as (sd & w3 & Hd & Hrun). simpl in Hd. unfold decrypt in Hd.
    destruct (decryptReadState key b') as [s0|] eqn:Ed; [|done]. injection Hd as <- <-.
    apply bind_ok_inv in Hrun as (t & w4 & [= <- <-] & Hrun).
    apply bind_ok_inv in Hrun as ([] & w5 & [= <-] & Hrun). injection Hrun as <- <-. simpl.
    split; [|split; [done|]].
    + apply cache_set_inv; [by eapply cache_inv_mono|]. intros v [= <-]. simpl.
      eapply at_version_last; [done|by left].
    + rewrite map_get_set_eq. eexists. split; [done|]. simpl. split; [done|eauto].
  - destruct e as [status| | |]; try done. destruct (status =? 404) eqn:E4; [|done]. bool_to_Z. subst.
    apply bind_ok_inv in Hrun as (t & w3 & [= <- <-] & Hrun).
    apply bind_ok_inv in Hrun as ([] & w4 & [= <-] & Hrun). injection Hrun as <- <-. simpl.
    assert (history w `prefix_of` history w1 ∧ cache w1 = cache w
      ∧ (history w ≠ [] → Forall (λ e, env_fault e ≠ Some 404) (schedule w) → False)) as (Hpre & Hc & Hno).
    { apply bind_throw_inv in Hget as [Hget|([b v] & w3 & _ & Hx)].
      - unfold transport_get in Hget. apply bind_throw_inv in Hget as [He|([] & w3 & He & Hx)].
        + destruct (env_spec _ _ _ He) as (Hpre & Hc & _). split; [done|]. split; [done|]. intros _ Hs.
          unfold env in He. destruct Hs as [|e es Hs]; [done|]. destruct (env_fault e); congruence.
        + destruct (env_spec _ _ _ He) as (Hpre & Hc & _).
          apply bind_throw_inv in Hx as [|(w4 & w5 & [= <- <-] & Hx)]; [done|].
          destruct (last (history w3)) eqn:El; [done|]. injection Hx as <-. split; [done|]. split; [done|].
          intros Hne _. apply last_None in El. rewrite El in Hpre. by apply prefix_nil_inv in Hpre.
      - exfalso. unfold decrypt in Hx. simpl in Hx. destruct (decryptReadState key b); run_eff; done. }
    split; [|split; [done|]].
    + apply cache_set_inv; [by eapply cache_inv_mono|done].
    + rewrite map_get_set_eq. eexists. split; [done|]. split; [done|]. intros ? ?. by destruct Hno.
Qed.

(** The manager has seen the row: its cache has a version, or the row exists
    and only the relayer answers 404. *)
Definition row_known (w : world) : Prop :=
  match map_get address (cache w) with
  | Some c => is_Some (c_blobVersion c)
  | None => history w ≠ [] ∧ Forall (λ e, env_fault e ≠ Some 404) (schedule w)
  end.

(** C17.  Write safety of [updateReadState], whatever other devices and the
    network do between its requests: on success the returned state covers the requested
    watermark and either the row already held it, or the returned state was appended to the
    row; when the manager knew the row, the state it replaced is the one it
    merged from, and no group's watermark went down.  The cache stays truthful. *)
Theorem updateReadState_safe w g to localState st w' :
  local_ok localState → cache_inv address key w →
  updateReadState address key g to localState w = (Ok st, w') →
  cache_inv address key w' ∧ history w `prefix_of` history w' ∧ to ≤ upto st g
  ∧ ((∃ v, at_version key (history w') v st)
     ∨ ∃ h0 nonce, history w' = h0 ++ [encryptReadState key nonce st] ∧ history w `prefix_of` h0
         ∧ (row_known w → ∃ s0, at_version key h0 (version h0) s0 ∧ ∀ g', upto s0 g' ≤ upto st g')).
Proof.
  intros Hl Hi Hrun. unfold updateReadState in Hrun.
  apply bind_ok_inv in Hrun as (c0 & w0 & [= <- <-] & Hrun).
  apply bind_ok_inv in Hrun as (c1 & w1 & Hc1 & Hrun).
  assert (∃ c, c1 = Some c ∧ map_get address (cache w1) = Some c ∧ cache_inv address key w1
    ∧ history w `prefix_of` history w1 ∧ (row_known w → is_Some (c_blobVersion c)))
    as (c & -> & Hc & Hi1 & Hp1 & Hk).
  { unfold row_known. destruct (map_get address (cache w)) as [c|] eqn:Ec.
    - injection Hc1 as <- <-. eauto 10.
    - apply bind_ok_inv in Hc1 as (s & w2 & Hget & [= <- <-]).
      destruct (getReadState_ok _ _ _ Hi Hget) as (? & ? & c & Hg & _ & Hs).
      exists c. split; [done|]. split; [done|]. split; [done|]. split; [done|]. intros [? ?]. auto. }
  eapply put_loop_result in Hrun; [|done|done|intros v Hv; by eapply Hi1].
  destruct Hrun as (R1 & R2 & R3 & R4). split; [done|]. split; [by etrans|]. split; [done|].
  destruct R4 as [?|(h0 & n & ? & ? & Hs)]; [by left|right].
  exists h0, n. split; [done|]. split; [by etrans|]. intros Hr. apply Hs. by apply bool_decide_true, Hk.
Qed.

(** Nothing happens between the requests. *)
Definition quiet (w : world) : Prop := Forall (λ e, env_blobs e = [] ∧ env_fault e = None) (schedule w).

Lemma env_quiet w : quiet w → ∃ w', env w = (Ok tt, w') ∧ history w' = history w ∧ cache w' = cache w ∧ quiet w'.
Proof.
  unfold quiet, env. intros Hq. destruct (schedule w) as [|e es] eqn:Es; [exists w; by rewrite Es|].
  inversion Hq as [|? ? [Hb Hf] Hq']; subst. rewrite Hf, Hb, app_nil_r. by eexists.
Qed.

Lemma random_nonce_ok w :
  ∃ n w', random_nonce w = (Ok n, w') ∧ history w' = history w ∧ (quiet w → quiet w') ∧ cache w' = cache w.
Proof. unfold random_nonce. by destruct (nonces w); eexists _, _. Qed.

Lemma transport_put_quiet blob ev w : quiet w →
  (∃ v w', transport_put blob ev w = (Ok v, w') ∧ history w' = history w ++ [blob])
  ∨ ∃ w' b e, transport_put blob ev w = (Throw (ReadStateConflictError b (version (history w))), w')
      ∧ quiet w' ∧ history w' = history w ∧ last (history w) = Some b
      ∧ ev = Some e ∧ e ≠ version (history w).
Proof.
  intros Hq. destruct (env_quiet w Hq) as (w1 & He & Hh & _ & Hq1). unfold transport_put.
  rewrite (bind_ok _ _ _ _ _ He), (bind_ok _ _ w1 w1 w1) by done. rewrite <-!Hh.
  destruct ev as [e|]; [destruct (last (history w1)) as [b|] eqn:El; [destruct (e =? version (history w1)) eqn:E|]|].
  2: { right. bool_to_Z. exists w1, b, e. done. }
  all: left; eexists _, (set_history (history w1 ++ [blob]) w1); done.
Qed.

Definition last_readable (h : list bytes) : Prop := ∀ b, last h = Some b → is_Some (decryptReadState key b).

(** One attempt: it succeeds, or it conflicts and adopts the row. *)
Lemma put_attempt left g to localState s ev w :
  quiet w → last_readable (history w) →
  (∃ st w', put_loop address key (S left) g to localState s ev w = (Ok st, w'))
  ∨ ∃ s1 w1 left' e, left = S left' ∧ ev = Some e ∧ e ≠ version (history w) ∧ quiet w1 ∧ history w1 = history w
      ∧ put_loop address key (S left) g to localState s ev w
        = put_loop address key left g to localState s1 (Some (version (history w))) w1
  ∨ left = 0%nat ∧ ∃ e, ev = Some e ∧ e ≠ version (history w).
Proof.
  intros Hq Hd. cbn [put_loop]. destruct (_ && _ && _); [left; by eexists _, _|].
  rewrite (bind_ok _ _ w (clock w) w) by done.
  destruct (random_nonce_ok w) as (nn & w2 & Hn & Hh2 & Hq2 & _). rewrite (bind_ok _ _ _ _ _ Hn). unfold try_catch.
  match goal with |- context [transport_put ?b _] =>
    destruct (transport_put_quiet b ev w2 (Hq2 Hq)) as [(v & w3 & Hp & _)|(w3 & b' & e & Hp & Hq3 & Hh3 & Hl & -> & Hne)] end.
  - left. rewrite (bind_ok _ _ _ _ _ Hp). eexists _, _. reflexivity.
  - right. rewrite Hh2 in *. destruct left as [|left'].
    { exists s, w, 0%nat, e. right. eauto. }
    rewrite (bind_throw _ _ _ _ _ Hp). destruct (Hd _ Hl) as [sd Hsd].
    eexists sd, _, left', e. left. split; [done|]. split; [done|]. split; [done|]. split; [|split; [|]].
    3: { unfold decrypt. rewrite Hsd. rewrite (bind_ok _ _ w3 sd w3) by done.
         rewrite (bind_ok _ _ w3 (clock w3) w3) by done. unfold cache_set, modify.
         rewrite (bind_ok _ _ w3 tt (set_cache (map_set address
            {| c_state := sd; c_blobVersion := Some (version (history w)); c_fetchedAt := clock w3 |} (cache w3)) w3)) by done.
         reflexivity. }
    + exact Hq3.
    + exact Hh3.
Qed.

Lemma put_loop_quiet left g to localState s ev w :
  quiet w → last_readable (history w) → (2 ≤ left)%nat →
  ∃ st w', put_loop address key left g to localState s ev w = (Ok st, w').
Proof.
  intros Hq Hd Hleft. destruct left as [|[|n]]; [lia..|].
  destruct (put_attempt (S n) g to localState s ev w Hq Hd)
    as [?|(s1 & w1 & l' & e & [(_ & _ & _ & Hq1 & Hh1 & ->)|[? _]])]; [done| |done].
  destruct (put_attempt n g to localState s1 (Some (version (history w))) w1 Hq1 ltac:(by rewrite Hh1))
    as [?|(s2 & w2 & l2 & e2 & [(_ & [= <-] & Hne & _)|[_ (e3 & [= <-] & Hne)]])]; [done|..];
    by rewrite Hh1 in Hne.
Qed.

Lemma getReadState_quiet w : quiet w → last_readable (history w) →
  ∃ st w', getReadState address key w = (Ok st, w') ∧ quiet w' ∧ history w' = history w
    ∧ is_Some (map_get address (cache w')).
Proof.
  intros Hq Hd. destruct (env_quiet w Hq) as (w1 & He & Hh & Hc & Hq1).
  unfold getReadState, try_catch, transport_get.
  destruct (last (history w1)) as [b|] eqn:El.
  - destruct (Hd b ltac:(by rewrite <-Hh)) as [sd Hsd].
    exists sd. eexists. split; [unfold mbind, eff_bind; rewrite He; unfold get_state; rewrite El; simpl;
      unfold decrypt; rewrite Hsd; simpl; reflexivity|].
    split; [exact Hq1|]. split; [exact Hh|]. simpl. rewrite map_get_set_eq. by eexists.
  - eexists _, _. split; [unfold mbind, eff_bind; rewrite He; unfold get_state; rewrite El; simpl; reflexivity|].
    split; [exact Hq1|]. split; [exact Hh|]. simpl. rewrite map_get_set_eq. by eexists.
Qed.

Lemma put_loop_no_exhaust left g to localState s ev w e w' : (0 < left)%nat →
  put_loop address key left g to localState s ev w = (Throw e, w') → e ≠ RetriesExhausted.
Proof.
  revert s ev w. induction left as [|left IH]; intros s ev w Hl Hrun; [lia|].
  cbn [put_loop] in Hrun. destruct (_ && _ && _); [done|].
  apply bind_throw_inv in Hrun as [?|(? & w1 & _ & Hrun)]; [done|].
  apply bind_throw_inv in Hrun as [Hn|(? & w2 & _ & Hrun)].
  { unfold random_nonce in Hn. by destruct (nonces _). }
  apply try_catch_inv in Hrun as [(? & _ & ?)|(e1 & w3 & Hput & Hrun)]; [done|].
  assert (e1 ≠ RetriesExhausted) as Hne.
  { intros ->. apply bind_throw_inv in Hput as [Hput|(v & w4 & _ & Hx)]; [|run_eff; done].
    unfold transport_put in Hput. apply bind_throw_inv in Hput as [He|(? & w4 & _ & Hx)].
    - destruct (env_spec _ _ _ He) as (_ & _ & _ & Hx). by destruct (Hx _ eq_refl).
    - apply bind_throw_inv in Hx as [|(w5 & w6 & [= <- <-] & Hx)]; [done|].
      repeat case_match; run_eff; done. }
  destruct e1; try (by injection Hrun as <- _). destruct left as [|left]; [by injection Hrun as <- _|].
  apply bind_throw_inv in Hrun as [Hd|(? & w4 & _ & Hrun)].
  { unfold decrypt in Hd. destruct (decryptReadState key current); [done|]. by injection Hd as <- _. }
  apply bind_throw_inv in Hrun as [?|(? & w5 & _ & Hrun)]; [done|].
  apply bind_throw_inv in Hrun as [?|(? & w6 & _ & Hrun)]; [done|].
  apply IH in Hrun; [done|lia].
Qed.

(** [updateReadState] ends: the loop never falls through to its final
    throw, and when nobody interferes and the row is readable it returns (at most one
    conflict, from a stale cache, then the write is accepted). *)
Lemma updateReadState_ends w g to localState :
  (∀ e w', updateReadState address key g to localState w = (Throw e, w') → e ≠ RetriesExhausted)
  ∧ (quiet w → last_readable (history w) →
     ∃ st w', updateReadState address key g to localState w = (Ok st, w')).
Proof.
  unfold updateReadState. split.
  - intros e w' Hrun. apply bind_throw_inv in Hrun as [?|(c0 & w0 & [= <- <-] & Hrun)]; [done|].
    destruct (map_get address (cache w)) as [c|] eqn:Ec.
    { rewrite (bind_ok _ _ w (Some c) w) in Hrun by done. apply put_loop_no_exhaust in Hrun; [done|unfold MAX_PUT_ATTEMPTS; lia]. }
    apply bind_throw_inv in Hrun as [Hrun|(c1 & w1 & Hc1 & Hrun)].
    + apply bind_throw_inv in Hrun as [Hrun|(? & ? & _ & ?)]; [|done].
      unfold getReadState in Hrun. apply try_catch_inv in Hrun as [(? & _ & ?)|(e1 & w1 & Hget & Hrun)]; [done|].
      intros ->. destruct e1; try done; [by destruct (_ =? 404)|].
      apply bind_throw_inv in Hget as [Hget|([b v] & w2 & _ & Hx)].
      * unfold transport_get in Hget. apply bind_throw_inv in Hget as [He|(? & w3 & _ & Hx)].
        -- destruct (env_spec _ _ _ He) as (_ & _ & _ & Hx). by destruct (Hx _ eq_refl).
        -- apply bind_throw_inv in Hx as [|(w4 & w5 & [= <- <-] & Hx)]; [done|]. by destruct (last _).
      * unfold decrypt in Hx. simpl in Hx. destruct (decryptReadState key b); run_eff; done.
    + apply bind_ok_inv in Hc1 as (st & w2 & Hget & [= <- <-]).
      assert (is_Some (map_get address (cache w2))) as [c Hc].
      { unfold getReadState in Hget.
        assert (∀ (s0 st : UserReadState) c w3 w4, (_ ← cache_set address c; mret s0 : eff world sync_error UserReadState) w3
          = (Ok st, w4) → is_Some (map_get address (cache w4))) as Hset.
        { intros s0 st0 c w3 w4. run_eff. intros [= _ <-]. simpl. rewrite map_get_set_eq. by eexists. }
        apply try_catch_inv in Hget as [(? & Hrun' & _)|(e1 & w3 & _ & Hrun')].
        - apply bind_ok_inv in Hrun' as (? & ? & _ & Hrun'). apply bind_ok_inv in Hrun' as (? & ? & _ & Hrun').
          apply bind_ok_inv in Hrun' as (? & ? & _ & Hrun'). apply Hset with (1 := Hrun').
        - destruct e1; try done. destruct (_ =? 404); [|done]. apply bind_ok_inv in Hrun' as (? & ? & _ & Hrun').
          by apply Hset in Hrun'. }
      rewrite Hc in Hrun. apply put_loop_no_exhaust in Hrun; [done|unfold MAX_PUT_ATTEMPTS; lia].
  - intros Hq Hd. rewrite (bind_ok _ _ w (map_get address (cache w)) w) by done.
    destruct (map_get address (cache w)) as [c|] eqn:Ec.
    + rewrite (bind_ok _ _ w (Some c) w) by done. apply put_loop_quiet; [done..|unfold MAX_PUT_ATTEMPTS; lia].
    + destruct (getReadState_quiet w Hq Hd) as (st & w1 & Hget & Hq1 & Hh1 & [c Hc]).
      rewrite (bind_ok _ _ w (Some c) w1).
      * apply put_loop_quiet; [done|by rewrite Hh1|unfold MAX_PUT_ATTEMPTS; lia].
      * rewrite (bind_ok _ _ _ _ _ Hget). unfold get_cached. by rewrite Hc.
Qed.
End properties.

(** * Unread counts *)

Lemma fill_get f gs rows g :
  map_get g (fill_counts f gs rows) =
    match last (filter (λ r, row_groupId r = g) rows) with
    | Some r => Some (f r)
    | None => if decide (g ∈ gs) then Some 0 else None
    end.
Proof.
  unfold fill_counts. induction rows as [|r rows IH] using rev_ind.
  - simpl. assert (∀ m, map_get g (foldl (λ m g, map_set g 0 m) m gs) =
      if decide (g ∈ gs) then Some 0 else map_get g m) as ->; [|by case_decide].
    induction gs as [|g0 gs IH]; intros m; cbn [foldl].
    + by rewrite decide_False by apply not_elem_of_nil.
    + rewrite IH, map_get_set. repeat case_decide; set_solver.
  - rewrite foldl_app. simpl. rewrite map_get_set, filter_app, IH.
    destruct (decide (g = row_groupId r)) as [E|E].
    + subst. rewrite filter_cons_True by done. by rewrite filter_nil, last_snoc.
    + rewrite filter_cons_False by done. by rewrite filter_nil, app_nil_r.
Qed.

Section unread.
Context `{JsonNumbers} `{AesGcm} (address : jsstr) (key : bytes)
  (fetchUnreadCounts : list (jsstr * Z) → eff world sync_error (list UnreadRow)).

(** Unread counts: every requested group is answered, by the relayer's
    last row for it or by 0 when the relayer omits it, and the request asks for the orders after the
    watermark of the given read state (0 without one). *)
Lemma getUnreadCounts_complete gs s w rows w' :
  watermarks_ok s → fetchUnreadCounts ((λ g, (g, Z.max 0 (upto s g))) <$> gs) w = (Ok rows, w') →
  ∃ counts w2, getUnreadCounts address key fetchUnreadCounts gs (Some s) w = (Ok counts, w2)
    ∧ ∀ g, g ∈ gs → map_get g counts =
        Some (default 0 (row_unreadCount <$> last (filter (λ r, row_groupId r = g) rows))).
Proof.
  intros [_ Hs] Hf.
  replace ((λ g, (g, Z.max 0 (upto s g))) <$> gs) with (unread_items s gs) in Hf.
  2: { unfold unread_items, upto. apply list_fmap_ext. intros i g _. f_equal. specialize (Hs g).
       destruct (map_get g (groups s)) as [e|]; simpl; [specialize (Hs e eq_refl)|]; lia. }
  unfold getUnreadCounts. destruct gs as [|g0 gs].
  { eexists _, _. split; [done|]. by intros g ?%elem_of_nil. }
  eexists _, w'. split.
  - unfold read_state_of. rewrite (bind_ok _ _ w s w) by done. rewrite (bind_ok _ _ _ _ _ Hf). done.
  - intros g Hg. rewrite fill_get. destruct (last _); [done|]. simpl. by rewrite decide_True.
Qed.
End unread.

(** * Witnesses *)

(** A cipher for the examples: the plaintext with its key and nonce in front. *)
Definition tagged_gcm : AesGcm := {|
  aesGcmEncrypt k p n := (k ++ n) ++ p;
  aesGcmDecrypt k c n :=
    if bool_decide (take (length (k ++ n)) c = k ++ n) then Some (drop (length (k ++ n)) c) else None;
|}.

Lemma tagged_gcm_laws : @AesGcmLaws tagged_gcm.
Proof. intros k p n. simpl. by rewrite take_app_length, bool_decide_eq_true_2, drop_app_length. Qed.

Definition sample_key : bytes := replicate 32 7.
Definition seal (s : UserReadState) : bytes :=
  @encryptReadState integer_numbers tagged_gcm sample_key (replicate 12 0) s.
Definition group_at (n : Z) : UserReadState :=
  {| updatedAt := 10; groups := [(js "0xg", {| ReadState.readUpto := n; muted := Some true |})] |}.
Definition fresh_world (h : list bytes) (sched : list env_step) : world :=
  {| history := h; clock := 20; nonces := []; schedule := sched; cache := [] |}.
Definition step_with (blobs : list bytes) : env_step := {| env_blobs := blobs; env_now := 21; env_fault := None |}.

Abbreviation update_sample w := (@updateReadState integer_numbers tagged_gcm (js "0xa") sample_key (js "0xg") 5 None w).

Lemma cache_inv_nil address key h sched :
  @cache_inv integer_numbers tagged_gcm address key (fresh_world h sched).
Proof. intros c v. done. Qed.

Lemma decrypt_encrypt_read_state_witness :
  @decryptReadState integer_numbers tagged_gcm sample_key (seal (group_at 4)) = Some (group_at 4).
Proof.
  apply (@decrypt_encrypt_read_state integer_numbers integer_numbers_laws tagged_gcm tagged_gcm_laws).
  - split; [simpl; lia|]. constructor; [|constructor]. split; [apply wf_js|unfold entry_ok; simpl; lia].
  - reflexivity.
Defined.

Lemma group_at_ok n : 0 ≤ n → watermarks_ok (group_at n).
Proof. split; [apply NoDup_singleton|]. intros g e. simpl. case_decide; intros E; simplify_eq. done. Qed.

Lemma merge_max_wins_witness :
  upto (mergeReadState (group_at 4) (group_at 9)) (js "0xg") = 9.
Proof.
  refine (eq_trans (proj1 (merge_max_wins (group_at 4) (group_at 9) (js "0xg") _ _)) _); [| |reflexivity].
  all: split; [apply NoDup_singleton|]; intros g e; simpl; case_decide; intros E; simplify_eq; simpl; lia.
Defined.

(** Another device writes while this one reads: the write merges over it. *)
Lemma updateReadState_safe_witness :
  ∃ st w', update_sample (fresh_world [seal (group_at 1)] [step_with []; step_with [seal (group_at 3)]]) = (Ok st, w')
    ∧ 5 ≤ upto st (js "0xg") ∧ length (history w') = 3%nat.
Proof.
  destruct (update_sample (fresh_world [seal (group_at 1)] [step_with []; step_with [seal (group_at 3)]]))
    as [r w'] eqn:E.
  assert (match r with Ok _ => true | Throw _ => false end = true ∧ length (history w') = 3%nat) as [Hr Hlen]
    by (vm_compute in E; injection E as <- <-; split; reflexivity).
  destruct r as [st|]; [|discriminate Hr]. exists st, w'. split; [reflexivity|]. split; [|exact Hlen].
  exact (proj1 (proj2 (proj2 (@updateReadState_safe integer_numbers tagged_gcm (js "0xa") sample_key
    _ (js "0xg") 5 None st w' I (cache_inv_nil _ _ _ _) E)))).
Defined.

Lemma getUnreadCounts_complete_witness :
  let fetch := λ (items : list (jsstr * Z)) (w : world),
    (Ok [{| row_groupId := js "0xg"; row_unreadCount := 2; row_latestOrder := 6 |}] : outcome sync_error _, w) in
  ∃ counts w2, @getUnreadCounts integer_numbers tagged_gcm (js "0xa") sample_key fetch [js "0xg"; js "0xh"]
      (Some (group_at 4)) (fresh_world [] []) = (Ok counts, w2)
    ∧ map_get (js "0xh") counts = Some 0.
Proof.
  intros fetch.
  destruct (@getUnreadCounts_complete integer_numbers tagged_gcm (js "0xa") sample_key fetch [js "0xg"; js "0xh"]
    (group_at 4) (fresh_world [] []) _ _ (group_at_ok 4 ltac:(lia)) eq_refl) as (counts & w2 & E & Hg).
  exists counts, w2. split; [exact E|]. refine (eq_trans (Hg (js "0xh") _) _); [set_solver|vm_compute; reflexivity].
Defined.

Lemma updateReadState_ends_witness :
  ∃ st w', update_sample (fresh_world [seal (group_at 1)] [step_with []]) = (Ok st, w').
Proof.
  refine (proj2 (@updateReadState_ends integer_numbers tagged_gcm (js "0xa") sample_key
    (fresh_world [seal (group_at 1)] [step_with []]) (js "0xg") 5 None) _ _).
  - constructor; [split; reflexivity|constructor].
  - intros b Hb. vm_compute in Hb. injection Hb as <-. vm_compute. eexists. reflexivity.
Defined.

(** The first write is not guarded: after a 404 the manager sends no
    expected version, so a blob another device creates before the PUT is overwritten and its watermark
    goes down (here from 100 to 5). *)
Lemma first_write_overwrites :
  ∃ st w', update_sample (fresh_world [] [step_with []; step_with [seal (group_at 100)]]) = (Ok st, w')
    ∧ history w' = [seal (group_at 100); seal st] ∧ upto st (js "0xg") = 5.
Proof. eexists _, _. split; [vm_compute; reflexivity|]. split; vm_compute; reflexivity. Qed.
