(* ===== verification/Base64.v ===== *)
(** The platform's [btoa] and [atob] on byte strings. *)
From S2P Require Import Prelude JsString Utf8.

Definition b64_char (v : Z) : Z :=
  if v <? 26 then 65 + v else if v <? 52 then 71 + v else if v <? 62 then v - 4
  else if v =? 62 then 43 else 47.

Definition b64_value (c : Z) : option Z :=
  if (65 <=? c) && (c <=? 90) then Some (c - 65)
  else if (97 <=? c) && (c <=? 122) then Some (c - 71)
  else if (48 <=? c) && (c <=? 57) then Some (c + 4)
  else if c =? 43 then Some 62 else if c =? 47 then Some 63 else None.

Fixpoint btoa (b : bytes) : jsstr :=
  match b with
  | x :: y :: z :: r =>
      b64_char (x / 4) :: b64_char (x mod 4 * 16 + y / 16)
      :: b64_char (y mod 16 * 4 + z / 64) :: b64_char (z mod 64) :: btoa r
  | [x; y] => [b64_char (x / 4); b64_char (x mod 4 * 16 + y / 16); b64_char (y mod 16 * 4); 61]
  | [x] => [b64_char (x / 4); b64_char (x mod 4 * 16); 61; 61]
  | [] => []
  end.

(** ASCII white space is dropped before decoding. *)
Definition is_b64_space (c : Z) : bool := bool_decide (c ∈ [9; 10; 12; 13; 32]).

(** One or two [=] end a text whose length is a multiple of four. *)
Definition drop_padding (s : jsstr) : jsstr :=
  if (length s mod 4 =? 0)%nat then
    match reverse s with
    | 61 :: 61 :: r => reverse r
    | 61 :: r => reverse r
    | _ => s
    end
  else s.

(** The bytes of a list of six-bit values; the bits left over are discarded. *)
Fixpoint b64_bytes (v : list Z) : bytes :=
  match v with
  | a :: b :: c :: d :: r => a * 4 + b / 16 :: b mod 16 * 16 + c / 4 :: c mod 4 * 64 + d :: b64_bytes r
  | [a; b; c] => [a * 4 + b / 16; b mod 16 * 16 + c / 4]
  | [a; b] => [a * 4 + b / 16]
  | _ => []
  end.

(** [None] is the [InvalidCharacterError]. *)
Definition atob (s : jsstr) : option bytes :=
  let s := drop_padding (filter (λ c, is_b64_space c = false) s) in
  if (length s mod 4 =? 1)%nat then None
  else b64_bytes <$> mapM b64_value s.

(** * Round trip *)

#[local] Ltac Zify.zify_post_hook ::= Z.div_mod_to_equations.

Lemma list_three_step {A} (P : list A → Prop) :
  P [] → (∀ x, P [x]) → (∀ x y, P [x; y]) → (∀ x y z l, P l → P (x :: y :: z :: l)) → ∀ l, P l.
Proof.
  intros H0 H1 H2 H3. assert (∀ n l, (length l ≤ n)%nat → P l) as H; [|by intros l; apply (H (length l))].
  induction n as [|n IH]; intros l Hl.
  - destruct l; [done|simpl in Hl; lia].
  - destruct l as [|x [|y [|z l]]]; auto. apply H3, IH. simpl in Hl. lia.
Qed.

Definition is_sextet (v : Z) : Prop := 0 ≤ v < 64.

Lemma b64_char_spec v : is_sextet v →
  b64_value (b64_char v) = Some v ∧ is_b64_space (b64_char v) = false ∧ b64_char v ≠ 61
  ∧ is_ascii (b64_char v).
Proof.
  unfold is_sextet. intros Hv.
  assert (∀ k : nat, (k < 64)%nat → let c := b64_char (Z.of_nat k) in
    b64_value c = Some (Z.of_nat k) ∧ is_b64_space c = false ∧ c ≠ 61 ∧ is_ascii c) as H.
  { intros k Hk. do 64 (destruct k as [|k]; [split; [reflexivity|split; [reflexivity|
      split; [discriminate|split; [discriminate|reflexivity]]]]|]). lia. }
  specialize (H (Z.to_nat v) ltac:(lia)). by rewrite Z2Nat.id in H by lia.
Qed.

Lemma sextets_value l : Forall is_sextet l → mapM b64_value (b64_char <$> l) = Some l.
Proof.
  induction 1 as [|v l Hv _ IH]; [done|]. rewrite fmap_cons. cbn [mapM].
  destruct (b64_char_spec v Hv) as [-> _]. simpl. by rewrite IH.
Qed.

(** The six-bit values of a byte string, without padding. *)
Fixpoint sextets (b : bytes) : list Z :=
  match b with
  | x :: y :: z :: r => x / 4 :: x mod 4 * 16 + y / 16 :: y mod 16 * 4 + z / 64 :: z mod 64 :: sextets r
  | [x; y] => [x / 4; x mod 4 * 16 + y / 16; y mod 16 * 4]
  | [x] => [x / 4; x mod 4 * 16]
  | [] => []
  end.

Definition b64_pad (n : nat) : jsstr :=
  match (n mod 3)%nat with 1%nat => [61; 61] | 2%nat => [61] | _ => [] end.

Lemma btoa_sextets b : btoa b = (b64_char <$> sextets b) ++ b64_pad (length b).
Proof.
  induction b as [|x|x y|x y z b IH] using list_three_step; [done..|].
  cbn [btoa sextets fmap list_fmap app]. do 4 f_equal. rewrite IH. f_equal. unfold b64_pad.
  cbn [length]. replace (S (S (S (length b)))) with (length b + 1 * 3)%nat by lia.
  by rewrite Nat.Div0.mod_add.
Qed.

Lemma sextets_ok b : wf_bytes b → Forall is_sextet (sextets b).
Proof.
  unfold is_sextet.
  induction b as [|x|x y|x y z b IH] using list_three_step; intros Hb; cbn [sextets];
    repeat match goal with H : Forall _ (_ :: _) |- _ => inversion H; clear H; subst end;
    unfold is_byte in *; repeat (apply Forall_cons; split; [lia|]); try apply Forall_nil_2; auto.
Qed.

Lemma b64_bytes_sextets b : wf_bytes b → b64_bytes (sextets b) = b.
Proof.
  induction b as [|x|x y|x y z b IH] using list_three_step; intros Hb; cbn [sextets b64_bytes]; [done|..];
    repeat match goal with H : Forall _ (_ :: _) |- _ => inversion H; clear H; subst end;
    unfold is_byte in *; rewrite ?IH by done; repeat f_equal; lia.
Qed.

Lemma length_sextets b :
  (length (sextets b) = 4 * (length b / 3) + match length b mod 3 with 0 => 0 | n => S n end)%nat.
Proof.
  induction b as [|x|x y|x y z b IH] using list_three_step; [done..|].
  cbn [sextets length]. rewrite IH.
  replace (S (S (S (length b)))) with (length b + 1 * 3)%nat by lia.
  rewrite Nat.Div0.mod_add, Nat.div_add by lia. lia.
Qed.

Lemma length_btoa b : length (btoa b) = (4 * ((length b + 2) / 3))%nat.
Proof.
  induction b as [|x|x y|x y z b IH] using list_three_step; [done..|].
  cbn [btoa length]. rewrite IH.
  replace (S (S (S (length b))) + 2)%nat with (length b + 2 + 1 * 3)%nat by lia.
  rewrite Nat.div_add by lia. lia.
Qed.

Lemma btoa_ascii b : wf_bytes b → Forall is_ascii (btoa b).
Proof.
  intros Hb%sextets_ok. rewrite btoa_sextets. apply Forall_app. split.
  - apply Forall_fmap. eapply Forall_impl; [exact Hb|]. intros v Hv. by apply b64_char_spec.
  - unfold b64_pad, is_ascii. repeat case_match; repeat constructor; lia.
Qed.

Lemma drop_padding_btoa b : wf_bytes b → drop_padding (btoa b) = b64_char <$> sextets b.
Proof.
  intros Hb. unfold drop_padding. rewrite length_btoa. rewrite Nat.mul_comm, Nat.Div0.mod_mul. simpl.
  rewrite btoa_sextets. pose proof (sextets_ok b Hb) as Hs.
  assert (∀ c r, reverse (b64_char <$> sextets b) = c :: r → c ≠ 61) as Hne.
  { intros c r E.
    assert (c ∈ b64_char <$> sextets b) as Hin by (rewrite <-elem_of_reverse, E; left).
    apply list_elem_of_fmap in Hin as (v & -> & Hv). rewrite Forall_forall in Hs. by apply b64_char_spec, Hs. }
  unfold b64_pad. destruct (length b mod 3)%nat as [|[|[|n]]]; rewrite ?app_nil_r.
  1, 4: destruct (reverse (b64_char <$> sextets b)) as [|c r] eqn:E; [done|]; specialize (Hne _ _ eq_refl);
    repeat (case_match; try done).
  - rewrite reverse_app. simpl. by rewrite reverse_involutive.
  - rewrite reverse_snoc. destruct (reverse (b64_char <$> sextets b)) as [|c r] eqn:E.
    + rewrite <-(reverse_involutive (b64_char <$> sextets b)), E. done.
    + specialize (Hne _ _ eq_refl). rewrite <-(reverse_involutive (b64_char <$> sextets b)), E.
      repeat (case_match; simplify_eq; try done).
Qed.

Lemma atob_btoa b : wf_bytes b → atob (btoa b) = Some b.
Proof.
  intros Hb. unfold atob. rewrite filter_all.
  - rewrite drop_padding_btoa, length_fmap by done.
    assert (length (sextets b) mod 4 ≠ 1)%nat as Hm.
    { rewrite length_sextets. rewrite Nat.add_comm, Nat.mul_comm, Nat.Div0.mod_add.
      pose proof (Nat.mod_upper_bound (length b) 3 ltac:(lia)).
      destruct (length b mod 3)%nat as [|[|[|n]]]; simpl; lia. }
    apply Nat.eqb_neq in Hm. rewrite Hm. rewrite sextets_value by (by apply sextets_ok).
    simpl. by rewrite b64_bytes_sextets.
  - rewrite btoa_sextets. apply Forall_app. split.
    + apply Forall_fmap. eapply Forall_impl; [by apply sextets_ok|]. intros v Hv. by apply b64_char_spec.
    + unfold b64_pad. repeat case_match; repeat constructor.
Qed.
