(* ===== verification/GroupName.v ===== *)
(** Encrypted group names ([content/group-name.ts]): padding, and the text form
    [enc:v1:<keyVersion>:<base64>] stored on chain. *)
From S2P Require Import Prelude JsString Utf8 Base64.

Definition GROUP_NAME_PREFIX : jsstr := js "enc:v1:".
Definition GROUP_NAME_PADDED_BYTES : nat := 59.

Definition isEncryptedGroupName (name : jsstr) : bool := startsWith GROUP_NAME_PREFIX name.

(** Drops trailing zero bytes. *)
Fixpoint drop_zeros (l : bytes) : bytes :=
  match l with 0 :: l' => drop_zeros l' | _ => l end.
Definition strip_zeros (b : bytes) : bytes := reverse (drop_zeros (reverse b)).

Section names.
Context `{JsText}.

Definition groupNameAad (groupId : jsstr) : bytes :=
  utf8_encode (js "myso-group-name-v1:" ++ toLowerCase groupId).

(** [None] is the error for a name that does not fit. *)
Definition padGroupName (name : jsstr) : option bytes :=
  let b := utf8_encode (normalizeNFC name) in
  if (GROUP_NAME_PADDED_BYTES <? length b)%nat then None
  else Some (b ++ replicate (GROUP_NAME_PADDED_BYTES - length b) 0).
End names.

(** [None] is the decoder's [TypeError]. *)
Definition unpadGroupName (padded : bytes) : option jsstr := utf8_decode (strip_zeros padded).

Definition formatEncryptedGroupName (keyVersion : Z) (nonce ciphertext : bytes) : jsstr :=
  GROUP_NAME_PREFIX ++ dec_Z keyVersion ++ [58] ++ btoa (nonce ++ ciphertext).

Record ParsedGroupName := { gn_keyVersion : Z; gn_nonce : bytes; gn_ciphertext : bytes }.

Definition parseEncryptedGroupName (name : jsstr) : option ParsedGroupName :=
  if negb (isEncryptedGroupName name) then None else
  let rest := drop (length GROUP_NAME_PREFIX) name in
  match indexOf 58 rest with
  | None | Some O => None
  | Some sep =>
      let version := take sep rest in
      if negb (all_digits version) then None else
      match atob (drop (S sep) rest) with
      | None => None
      | Some sealed =>
          if negb (length sealed =? 12 + GROUP_NAME_PADDED_BYTES + 16)%nat then None
          else Some {| gn_keyVersion := digits_value version;
                       gn_nonce := take 12 sealed; gn_ciphertext := drop 12 sealed |}
      end
  end.

(** * Lemmas *)

Lemma drop_zeros_replicate k l : drop_zeros (replicate k 0 ++ l) = drop_zeros l.
Proof. by induction k. Qed.

Lemma strip_zeros_pad b k : strip_zeros (b ++ replicate k 0) = strip_zeros b.
Proof. unfold strip_zeros. by rewrite reverse_app, reverse_replicate, drop_zeros_replicate. Qed.

Lemma strip_zeros_id b : last b ≠ Some 0 → strip_zeros b = b.
Proof.
  intros Hl. unfold strip_zeros. destruct b as [|x b _] using rev_ind; [done|].
  rewrite last_snoc in Hl. rewrite reverse_snoc. destruct x; try done; simpl;
    by rewrite reverse_cons, reverse_involutive.
Qed.

Lemma dec_no_colon n : 0 ≤ n → 58 ∉ dec n.
Proof.
  intros Hn Hin. pose proof (dec_Forall_digit n Hn) as Hd. rewrite Forall_forall in Hd.
  specialize (Hd _ Hin). lia.
Qed.


Lemma encode_cp_last cp : 0 ≤ cp → last (encode_cp cp) = Some 0 → cp = 0.
Proof.
  intros Hcp. unfold encode_cp.
  destruct (cp <? 0x80); [by intros [= ->]|].
  destruct (cp <? 0x800); [|destruct (cp <? 0x10000)]; simpl; intros [= E];
    pose proof (Z.mod_pos_bound cp 64 ltac:(lia)); lia.
Qed.

#[local] Ltac Zify.zify_post_hook ::= Z.div_mod_to_equations.

(** A string ends with NUL when its encoding does. *)
Lemma utf8_last s : wf_str s → wf_utf16 s = true → last (utf8_encode s) = Some 0 → last s = Some 0.
Proof.
  intros Hw Hu. destruct (code_points_wf s Hw Hu) as [Hs Hb]. revert Hs Hb. unfold utf8_encode.
  destruct (code_points s) as [|cp cps _] using rev_ind; [done|].
  intros [_ [Hcp _]%Forall_cons]%Forall_app Hb.
  rewrite bind_app. cbn [mbind list_bind]. rewrite app_nil_r, last_app, scalar_not_surrogate by done.
  apply is_scalar_spec in Hcp.
  assert (encode_cp cp ≠ []) as Hne by (unfold encode_cp; by repeat case_match).
  destruct (last (encode_cp cp)) as [b|] eqn:E; [|by apply last_None in E].
  intros [= ->]. apply encode_cp_last in E as ->; [|lia].
  rewrite <-Hb, bind_app. cbn [mbind list_bind]. by rewrite app_nil_r, last_app.
Qed.

(** A string starts with U+FEFF when its encoding starts with the mark. *)
Lemma utf8_no_bom s : wf_str s → wf_utf16 s = true → head s ≠ Some 0xFEFF →
  strip_bom (utf8_encode s) = utf8_encode s.
Proof.
  intros Hw Hu Hne. destruct (code_points_wf s Hw Hu) as [Hs Hb]. revert Hs Hb. unfold utf8_encode.
  destruct (code_points s) as [|cp cps]; [done|].
  intros [Hcp _]%Forall_cons Hb. cbn [mbind list_bind]. rewrite scalar_not_surrogate by done.
  apply is_scalar_spec in Hcp. simpl in Hb.
  assert (cp ≠ 0xFEFF) as Hcp' by (intros ->; apply Hne; by rewrite <-Hb).
  set (rest := cps ≫= _). clearbody rest. unfold encode_cp, strip_bom.
  destruct (cp <? 0x80) eqn:E1; [|destruct (cp <? 0x800) eqn:E2; [|destruct (cp <? 0x10000) eqn:E3]];
    bool_to_Z; simpl; repeat (case_match; try done); subst; exfalso; lia.
Qed.

(** * Properties *)

(** A normalised name the padding keeps: well-formed UTF-16, not starting with
    the byte order mark and not ending with NUL. *)
Definition name_ok (n : jsstr) : Prop :=
  wf_str n ∧ wf_utf16 n = true ∧ head n ≠ Some 0xFEFF ∧ last n ≠ Some 0.

(** Group-name padding: every name that fits is padded to exactly 59
    bytes, so sealed names do not reveal a length, names that do not fit are refused, and a padded name
    unpads to its normalised form. *)
Lemma group_name_padding `{JsText} name :
  (∀ p, padGroupName name = Some p → length p = GROUP_NAME_PADDED_BYTES)
  ∧ (padGroupName name = None ↔ (GROUP_NAME_PADDED_BYTES < length (utf8_encode (normalizeNFC name)))%nat)
  ∧ (name_ok (normalizeNFC name) → ∀ p, padGroupName name = Some p → unpadGroupName p = Some (normalizeNFC name)).
Proof.
  unfold padGroupName. split; [|split].
  - intros p. destruct (_ <? _)%nat eqn:E; [done|]. apply Nat.ltb_ge in E. intros [= <-].
    rewrite length_app, length_replicate. lia.
  - destruct (_ <? _)%nat eqn:E; [apply Nat.ltb_lt in E|apply Nat.ltb_ge in E]; split; try done. lia.
  - intros (Hw & Hu & Hb & Hz) p. destruct (_ <? _)%nat; [done|]. intros [= <-].
    unfold unpadGroupName. rewrite strip_zeros_pad, strip_zeros_id.
    + apply utf8_decode_encode; [done..|by apply utf8_no_bom].
    + intros E. by apply Hz, utf8_last.
Qed.

(** The stored form of an encrypted name: formatting a sealed name and
    parsing it gives back the key version, nonce and ciphertext; its length is 124 characters plus the
    digits of the key version; and whatever parses carries a 12-byte nonce and a 75-byte ciphertext. *)
Lemma group_name_format keyVersion nonce ciphertext :
  0 ≤ keyVersion → wf_bytes (nonce ++ ciphertext) → length nonce = 12%nat → length ciphertext = 75%nat →
  let name := formatEncryptedGroupName keyVersion nonce ciphertext in
  parseEncryptedGroupName name
    = Some {| gn_keyVersion := keyVersion; gn_nonce := nonce; gn_ciphertext := ciphertext |}
  ∧ length name = (124 + length (dec keyVersion))%nat
  ∧ (∀ name' p, parseEncryptedGroupName name' = Some p →
       isEncryptedGroupName name' = true ∧ length (gn_nonce p) = 12%nat ∧ length (gn_ciphertext p) = 75%nat).
Proof.
  intros Hk Hwf Hn Hc. assert (dec_Z keyVersion = dec keyVersion) as Hd.
  { unfold dec_Z. by rewrite (proj2 (Z.ltb_ge _ _)) by lia. }
  split; [|split].
  - unfold formatEncryptedGroupName, parseEncryptedGroupName, isEncryptedGroupName.
    rewrite startsWith_app, Hd. cbn [negb]. rewrite drop_app_length. cbn [app].
    rewrite indexOf_app by (by apply dec_no_colon).
    pose proof (dec_nonempty keyVersion) as Hne.
    destruct (length (dec keyVersion)) as [|k] eqn:El; [by apply length_zero_iff_nil in El|].
    rewrite take_app_length' by done. rewrite dec_all_digits by done. cbn [negb].
    replace (drop (S (S k)) (dec keyVersion ++ 58 :: btoa (nonce ++ ciphertext))) with (btoa (nonce ++ ciphertext)).
    2: { change (58 :: btoa (nonce ++ ciphertext)) with ([58] ++ btoa (nonce ++ ciphertext)).
         rewrite app_assoc, drop_app_length'; [done|]. rewrite length_app. simpl. lia. }
    rewrite atob_btoa by done. rewrite length_app, Hn, Hc. cbn [Nat.add Nat.eqb negb GROUP_NAME_PADDED_BYTES].
    rewrite dec_value, take_app_length', drop_app_length' by done. done.
  - unfold formatEncryptedGroupName. rewrite Hd, !length_app, length_btoa, length_app, Hn, Hc. simpl. lia.
  - intros name' p. unfold parseEncryptedGroupName. destruct (isEncryptedGroupName name'); [|done].
    simpl. destruct (indexOf 58 _) as [[|sep]|]; try done. destruct (negb _); [done|].
    destruct (atob _) as [sealed|]; [|done]. destruct (negb _) eqn:E; [done|]. bool_to_Z.
    apply negb_false_iff, Nat.eqb_eq in E || apply Nat.eqb_eq in E.
    intros [= <-]. simpl. rewrite length_take, length_drop. simpl in E. lia.
Qed.

(** The header of the source promises at most 128 characters; a key version
    of five digits gives 129. *)
Example group_name_over_128 :
  length (formatEncryptedGroupName 10000 (replicate 12 1) (replicate 75 2)) = 129%nat.
Proof. by vm_compute. Qed.

(** A name that starts with U+FEFF loses it, a trailing NUL is dropped. *)
Example group_name_lossy :
  (@padGroupName ascii_text (0xFEFF :: js "x") ≫= unpadGroupName) = Some (js "x")
  ∧ (@padGroupName ascii_text (js "x" ++ [0]) ≫= unpadGroupName) = Some (js "x").
Proof. split; by vm_compute. Qed.

Lemma group_name_padding_witness : ∃ p, @padGroupName ascii_text (js "Team") = Some p ∧ unpadGroupName p = Some (js "Team").
Proof.
  eexists. split; [vm_compute; reflexivity|].
  refine (proj2 (proj2 (@group_name_padding ascii_text (js "Team"))) _ _ _); [|vm_compute; reflexivity].
  split; [apply wf_js|]. repeat split; vm_compute; discriminate.
Defined.

Lemma group_name_format_witness :
  length (formatEncryptedGroupName 7 (replicate 12 1) (replicate 75 2)) = 125%nat.
Proof.
  refine (proj1 (proj2 (group_name_format 7 (replicate 12 1) (replicate 75 2) _ _ _ _))).
  - lia.
  - apply (Forall_below 256). vm_compute. reflexivity.
  - reflexivity.
  - reflexivity.
Defined.
