(* ===== verification/Verification.v ===== *)
(** Sender verification ([verification.ts]): the canonical bytes a message
    signature covers, signing and verification.

    Keys and signature schemes are the SDK's ([@socialproof/myso]): the classes
    [HexCodec] and [MySoCrypto] name what the code calls. *)
From S2P Require Import Prelude JsString Utf8 Json.

(** * The cryptographic library *)

Class HexCodec := { toHex : bytes → jsstr; fromHex : jsstr → option bytes }.
Class HexCodecLaws `{HexCodec} : Prop := {
  fromHex_toHex b : wf_bytes b → fromHex (toHex b) = Some b;
  toHex_hex b : wf_bytes b → Forall (λ c, is_lower_hex c = true) (toHex b);
  toHex_nonempty b : b ≠ [] → toHex b ≠ [];
}.

Record ParsedSignature := { signatureScheme : jsstr; raw_signature : option bytes }.

Class MySoCrypto := {
  PublicKey : Type;
  SIGNATURE_FLAG_TO_SCHEME : Z → option jsstr;
  publicKeyFromMySoBytes : bytes → option PublicKey;
  toMySoBytes : PublicKey → bytes;
  toSerializedSignature : jsstr → bytes → PublicKey → option jsstr;
  parseSerializedSignature : jsstr → option ParsedSignature;
  verifyPersonalMessageSignature : bytes → jsstr → option PublicKey;  (* [None]: it throws *)
  key_address : PublicKey → jsstr;
}.

(** A signer: its key and its signature of a personal message. *)
Record Signer `{MySoCrypto} := { signer_key : PublicKey; signPersonalMessage : bytes → jsstr }.
Definition toMySoAddress `{MySoCrypto} (s : Signer) : jsstr := key_address (signer_key s).

(** * Canonical message *)

Record Attachment := {
  storageId : jsstr; att_nonce : jsstr; encryptedMetadata : jsstr; metadataNonce : jsstr;
}.

Record SignedMessageAttribution := {
  principalOwner : option jsstr; subAgentId : option jsstr; identityClass : option Z;
}.

Record CanonicalParams := {
  groupId : jsstr;
  kind : option jsstr;
  signatureVersion : option Z;
  encryptedText : bytes;
  nonce : bytes;
  keyVersion : Z;
  sharedPostAddress : option jsstr;
  transferDigest : option jsstr;
  idempotencyKey : option jsstr;
  attachments : option (list Attachment);
  attribution : option SignedMessageAttribution;
}.

Inductive sign_error := UnsupportedVersion | UnsupportedScheme | MalformedSignature.

Section verification.
Context `{JsonNumbers} `{JsText} `{HexCodec} `{MySoCrypto}.

Definition normalizeSharedPostAddress (raw : option jsstr) : option jsstr :=
  let trimmed := toLowerCase (trim (default [] raw)) in
  if negb (startsWith (js "0x") trimmed) then None else
  let hex := drop 2 trimmed in
  if (length hex =? 0)%nat || (64 <? length hex)%nat || negb (forallb is_lower_hex hex) then None
  else Some (js "0x" ++ padStart 64 48 hex).

Definition post_reference (raw : option jsstr) : jsstr :=
  default (toLowerCase (trim (default [] raw))) (normalizeSharedPostAddress raw).

Definition attachment_row (a : Attachment) : json :=
  JArr [JStr (storageId a); JStr (toLowerCase (att_nonce a));
        JStr (toLowerCase (encryptedMetadata a)); JStr (toLowerCase (metadataNonce a))].

Definition attribution_row (a : option SignedMessageAttribution) : json :=
  JArr [JStr (default [] (a ≫= principalOwner)); JStr (default [] (a ≫= subAgentId));
        JNum (Int (default (-1) (a ≫= identityClass)))].

(** What a version-2 signature binds besides the group and the kind. *)
Definition bound_reference (p : CanonicalParams) : jsstr :=
  let kind := default (js "text") (kind p) in
  if decide (kind = js "post") then post_reference (sharedPostAddress p)
  else if decide (kind = js "token_transfer") then trim (default [] (transferDigest p))
  else [].

Definition canonical_v2 (p : CanonicalParams) : json :=
  JArr [JStr (js "myso-message-v2"); JStr (toLowerCase (groupId p)); JStr (default (js "text") (kind p));
        JStr (bound_reference p); JStr (trim (default [] (idempotencyKey p)));
        JStr (toHex (encryptedText p)); JStr (toHex (nonce p)); JStr (dec_Z (keyVersion p));
        JArr (attachment_row <$> default [] (attachments p)); attribution_row (attribution p)].

(** Fields joined with colons. *)
Definition canonical_v1 (p : CanonicalParams) : jsstr :=
  let kind := default (js "text") (kind p) in
  let group := toLowerCase (groupId p) in
  let idem := trim (default [] (idempotencyKey p)) in
  let tail := [toHex (encryptedText p); toHex (nonce p); dec_Z (keyVersion p)] in
  join [58] (if decide (kind = js "post") then
               [group; kind; post_reference (sharedPostAddress p); idem] ++ tail
             else if decide (kind = js "token_transfer") then
               [group; kind; trim (default [] (transferDigest p)); idem] ++ tail
             else [group; kind] ++ tail).

Definition buildCanonicalMessage (p : CanonicalParams) : outcome sign_error bytes :=
  match signatureVersion p with
  | Some 2 => Ok (utf8_encode (stringify (canonical_v2 p)))
  | None | Some 1 => Ok (utf8_encode (canonical_v1 p))
  | Some _ => Throw UnsupportedVersion
  end.

(** * Signing and verification *)

Definition signMessageContent (signer : Signer) (p : CanonicalParams) : outcome sign_error jsstr :=
  match buildCanonicalMessage p with
  | Throw e => Throw e
  | Ok canonicalBytes =>
      match parseSerializedSignature (signPersonalMessage signer canonicalBytes) with
      | None => Throw MalformedSignature
      | Some parsed =>
          match raw_signature parsed with
          | None => Throw UnsupportedScheme
          | Some raw => Ok (toHex raw)
          end
      end
  end.

Definition transferIdempotencyKey (senderAddress digest : jsstr) : jsstr :=
  js "transfer:" ++ toLowerCase senderAddress ++ js ":" ++ digest.

(** The body of the [try]; [None] is a thrown error. *)
Definition verify_body (p : CanonicalParams) (senderAddress signature publicKey : jsstr) : option bool :=
  match signatureVersion p with
  | None | Some 1 | Some 2 =>
      canonicalBytes ← match buildCanonicalMessage p with Ok b => Some b | Throw _ => None end;
      rawSig ← fromHex signature;
      pubKeyBytes ← fromHex publicKey;
      match head pubKeyBytes ≫= SIGNATURE_FLAG_TO_SCHEME with
      | None => Some false
      | Some scheme =>
          key ← publicKeyFromMySoBytes pubKeyBytes;
          serialized ← toSerializedSignature scheme rawSig key;
          verifiedKey ← verifyPersonalMessageSignature canonicalBytes serialized;
          Some (bool_decide (key_address verifiedKey = senderAddress))
      end
  | Some _ => Some false
  end.

Definition verifyMessageSender (p : CanonicalParams) (senderAddress signature publicKey : jsstr) : bool :=
  default false (verify_body p senderAddress signature publicKey).
End verification.

(** * Lemmas *)

Lemma lower_hex_props c : is_lower_hex c = true →
  is_ascii c ∧ is_unit c ∧ is_space c = false ∧ ascii_lower c = c.
Proof.
  unfold is_lower_hex, is_digit. intros Hc.
  assert (48 ≤ c ≤ 57 ∨ 97 ≤ c ≤ 102) as Hr.
  { apply orb_prop in Hc as [Hc|Hc]; apply andb_prop in Hc as [Ha Hb]; apply Z.leb_le in Ha, Hb; lia. }
  unfold is_ascii, is_unit. split; [lia|]. split; [lia|]. split.
  - unfold is_space. apply orb_false_iff. split.
    + apply bool_decide_eq_false_2. rewrite !elem_of_cons, elem_of_nil. lia.
    + apply andb_false_iff. rewrite !Z.leb_gt. lia.
  - unfold ascii_lower. case_match; [|done]. bool_to_Z. lia.
Qed.

Lemma trim_wf s : wf_str s → wf_str (trim s).
Proof. apply trim_incl. Qed.

Section laws.
Context `{JsonNumbersLaws} `{JsTextLaws} `{HexCodecLaws} `{MySoCrypto}.

Lemma toLowerCase_hex s : Forall (λ c, is_lower_hex c = true) s → toLowerCase s = s.
Proof.
  intros Hs. rewrite toLowerCase_ascii.
  - induction Hs as [|c s Hc _ IH]; [done|]. rewrite fmap_cons, IH. f_equal. by apply lower_hex_props.
  - eapply Forall_impl; [exact Hs|]. intros c Hc. by apply lower_hex_props.
Qed.

Lemma toHex_wf b : wf_bytes b → wf_str (toHex b).
Proof. intros Hb. eapply Forall_impl; [by apply toHex_hex|]. intros c Hc. by apply lower_hex_props. Qed.

Lemma toHex_inj a b : wf_bytes a → wf_bytes b → toHex a = toHex b → a = b.
Proof. intros Ha Hb E. apply (inj Some). by rewrite <-!fromHex_toHex, E by done. Qed.

Lemma normalized_shape raw r : normalizeSharedPostAddress raw = Some r →
  ∃ hex, r = js "0x" ++ hex ∧ length hex = 64%nat ∧ Forall (λ c, is_lower_hex c = true) hex.
Proof.
  unfold normalizeSharedPostAddress. destruct (negb _); [done|]. destruct (_ || _) eqn:E; [done|].
  intros [= <-]. apply orb_false_elim in E as [[E1 E2]%orb_false_elim E3]. apply negb_false_iff in E3.
  apply Nat.ltb_ge in E2. eexists. split; [reflexivity|]. unfold padStart. split.
  - rewrite length_app, length_replicate. lia.
  - apply Forall_app. split; [apply Forall_replicate; reflexivity|].
    rewrite forallb_forall in E3. apply Forall_forall. intros c Hc. by apply E3, list_elem_of_In.
Qed.

Lemma normalize_fixed hex : length hex = 64%nat → Forall (λ c, is_lower_hex c = true) hex →
  normalizeSharedPostAddress (Some (js "0x" ++ hex)) = Some (js "0x" ++ hex).
Proof.
  intros Hl Hh. unfold normalizeSharedPostAddress. cbn [default from_option].
  unfold default, from_option, Datatypes.id.
  assert (Forall (λ c, is_ascii c ∧ is_space c = false ∧ ascii_lower c = c) (js "0x" ++ hex)) as Hf.
  { apply Forall_app. split; [repeat (constructor; [split; [unfold is_ascii; simpl; lia|split; reflexivity]|]); constructor|].
    eapply Forall_impl; [exact Hh|]. intros c Hc. destruct (lower_hex_props c Hc) as (? & _ & ? & ?). done. }
  rewrite trim_id by (eapply Forall_impl; [exact Hf|naive_solver]).
  rewrite toLowerCase_ascii by (eapply Forall_impl; [exact Hf|naive_solver]).
  replace (ascii_lower <$> js "0x" ++ hex) with (js "0x" ++ hex).
  2: { symmetry. rewrite <-(list_fmap_id (js "0x" ++ hex)) at 2. apply Forall_fmap_ext.
       eapply Forall_impl; [exact Hf|]. intros c (_ & _ & Hc). exact Hc. }
  change (startsWith (js "0x") (js "0x" ++ hex)) with true. change (drop 2 (js "0x" ++ hex)) with hex.
  cbn [negb]. rewrite Hl. cbn [Nat.eqb Nat.ltb Nat.leb orb].
  assert (forallb is_lower_hex hex = true) as ->.
  { apply forallb_forall. rewrite Forall_forall in Hh. intros c Hc. by apply Hh, list_elem_of_In. }
  cbn [negb]. unfold padStart. rewrite Hl, Nat.sub_diag. done.
Qed.

(** Object ids are normalised to one spelling: a normalised address is
    [0x] and exactly 64 lower-case hex digits, and normalising it again changes nothing. *)
Lemma normalize_canonical raw r :
  normalizeSharedPostAddress raw = Some r →
  (∃ hex, r = js "0x" ++ hex ∧ length hex = 64%nat ∧ Forall (λ c, is_lower_hex c = true) hex)
  ∧ normalizeSharedPostAddress (Some r) = Some r.
Proof.
  intros Hr. destruct (normalized_shape _ _ Hr) as (hex & -> & Hl & Hh).
  split; [by exists hex|by apply normalize_fixed].
Qed.

(** ** Version 2 binds every field *)

Definition attachment_ok (a : Attachment) : Prop :=
  wf_str (storageId a) ∧ wf_str (att_nonce a) ∧ wf_str (encryptedMetadata a) ∧ wf_str (metadataNonce a).
Definition attribution_ok (a : SignedMessageAttribution) : Prop :=
  from_option (λ s, wf_str s) True (principalOwner a) ∧ from_option (λ s, wf_str s) True (subAgentId a)
  ∧ from_option (λ z, Z.abs z ≤ 2 ^ 53 - 1) True (identityClass a).
Definition params_ok (p : CanonicalParams) : Prop :=
  wf_str (groupId p) ∧ from_option (λ s, wf_str s) True (kind p)
  ∧ wf_bytes (encryptedText p) ∧ wf_bytes (nonce p)
  ∧ from_option (λ s, wf_str s) True (sharedPostAddress p) ∧ from_option (λ s, wf_str s) True (transferDigest p)
  ∧ from_option (λ s, wf_str s) True (idempotencyKey p)
  ∧ from_option (Forall attachment_ok) True (attachments p) ∧ from_option attribution_ok True (attribution p).

Lemma default_wf (o : option jsstr) : from_option (λ s, wf_str s) True o → wf_str (default [] o).
Proof. destruct o; [done|constructor]. Qed.

Lemma dec_wf z : wf_str (dec_Z z).
Proof.
  assert (∀ n, 0 ≤ n → wf_str (dec n)) as Hdec.
  { intros n Hn. eapply Forall_impl; [by apply dec_Forall_digit|]. unfold is_unit. simpl. lia. }
  unfold dec_Z. destruct (z <? 0) eqn:E; bool_to_Z; [constructor; [unfold is_unit; lia|apply Hdec; lia]|by apply Hdec].
Qed.

Lemma post_reference_wf raw : from_option (λ s, wf_str s) True raw → wf_str (post_reference raw).
Proof.
  intros Hr. unfold post_reference. destruct (normalizeSharedPostAddress raw) as [r|] eqn:E.
  - destruct (normalized_shape _ _ E) as (hex & -> & _ & Hh). apply Forall_app. split; [apply wf_js|].
    eapply Forall_impl; [exact Hh|]. intros c Hc. by apply lower_hex_props.
  - by apply toLowerCase_wf, trim_wf, default_wf.
Qed.

Lemma bound_reference_wf p : params_ok p → wf_str (bound_reference p).
Proof.
  intros (_ & _ & _ & _ & Hp & Hd & _). unfold bound_reference.
  case_decide; [by apply post_reference_wf|]. case_decide; [by apply trim_wf, default_wf|constructor].
Qed.

Ltac json_elements := repeat match goal with |- Forall json_ok (_ :: _) => apply Forall_cons_2 end.

Lemma canonical_v2_ok p : params_ok p → json_ok (canonical_v2 p).
Proof.
  intros Hp. pose proof (bound_reference_wf p Hp) as Hb.
  destruct Hp as (Hg & Hk & He & Hn & _ & _ & Hi & Ha & Ht).
  unfold canonical_v2. apply json_ok_arr. json_elements; [..|constructor].
  - apply wf_js.
  - by apply toLowerCase_wf.
  - destruct (kind p); [done|apply wf_js].
  - exact Hb.
  - by apply trim_wf, default_wf.
  - by apply toHex_wf.
  - by apply toHex_wf.
  - apply dec_wf.
  - apply json_ok_arr, Forall_fmap. destruct (attachments p) as [l|]; [|constructor].
    eapply Forall_impl; [exact Ha|]. intros a (? & ? & ? & ?). apply json_ok_arr.
    json_elements; [..|constructor]; simpl; try done; by apply toLowerCase_wf.
  - apply json_ok_arr. destruct (attribution p) as [a|]; simpl in *.
    + destruct Ht as (? & ? & Hz). json_elements; [..|constructor]; [by apply default_wf..|].
      apply num_stable_int. destruct (identityClass a); simpl in *; lia.
    + json_elements; [constructor|constructor| |constructor]. apply num_stable_int. lia.
Qed.

Lemma utf8_stringify_inj v w : json_ok v → json_ok w →
  (∃ t, stringify v = 91 :: t) → (∃ t, stringify w = 91 :: t) →
  utf8_encode (stringify v) = utf8_encode (stringify w) → v = w.
Proof.
  intros Hv Hw [tv Ev] [tw Ew] E. apply stringify_inj; [done..|]. apply (inj Some).
  rewrite <-(utf8_decode_encode (stringify v)), <-(utf8_decode_encode (stringify w)), E; try done;
    try (by apply stringify_text_ok); rewrite ?Ev, ?Ew, utf8_encode_ascii_cons by lia; apply strip_bom_ascii; lia.
Qed.

(** C20.  A version-2 signature covers every field: if two messages have the
    same version-2 canonical bytes, they have the same group, kind, bound post or transfer, idempotency
    key, ciphertext, nonce, key version, attachment references and attribution. *)
Theorem canonical_v2_injective p q bytes :
  params_ok p → params_ok q → signatureVersion p = Some 2 → signatureVersion q = Some 2 →
  buildCanonicalMessage p = Ok bytes → buildCanonicalMessage q = Ok bytes →
  toLowerCase (groupId p) = toLowerCase (groupId q)
  ∧ default (js "text") (kind p) = default (js "text") (kind q)
  ∧ bound_reference p = bound_reference q
  ∧ trim (default [] (idempotencyKey p)) = trim (default [] (idempotencyKey q))
  ∧ encryptedText p = encryptedText q ∧ nonce p = nonce q ∧ keyVersion p = keyVersion q
  ∧ attachment_row <$> default [] (attachments p) = attachment_row <$> default [] (attachments q)
  ∧ attribution_row (attribution p) = attribution_row (attribution q).
Proof.
  intros Hp Hq Vp Vq Bp Bq. unfold buildCanonicalMessage in Bp, Bq. rewrite Vp in Bp. rewrite Vq in Bq.
  assert (utf8_encode (stringify (canonical_v2 p)) = utf8_encode (stringify (canonical_v2 q))) as Eb0 by congruence.
  clear Bp Bq.
  assert (canonical_v2 p = canonical_v2 q) as E.
  { apply utf8_stringify_inj; [by apply canonical_v2_ok..| | |exact Eb0]; unfold canonical_v2;
      rewrite stringify_arr; eexists; reflexivity. }
  unfold canonical_v2 in E. injection E as Eg Ek Eb Ei Ee En Ev Ea Et1 Et2 Et3.
  destruct Hp as (_ & _ & He & Hn & _), Hq as (_ & _ & He' & Hn' & _).
  repeat (split; [first [done | by apply toHex_inj | by apply dec_Z_inj]|]).
  unfold attribution_row. by rewrite Et1, Et2, Et3.
Qed.
End laws.

(** * Signing and verifying *)

(** What the SDK documents of a keypair signature: its public key serialises
    with a known scheme flag and parses back. *)
Class MySoCryptoLaws `{MySoCrypto} : Prop := {
  signer_flag key : ∃ flag scheme, head (toMySoBytes key) = Some flag ∧ SIGNATURE_FLAG_TO_SCHEME flag = Some scheme;
  key_from_bytes key : publicKeyFromMySoBytes (toMySoBytes key) = Some key;
  key_bytes_wf key : wf_bytes (toMySoBytes key);
}.

(** A keypair signer: the signature rebuilt from its raw bytes verifies to its key. *)
Definition keypair_signer `{MySoCrypto} (s : Signer) : Prop :=
  ∀ m parsed raw flag scheme,
    parseSerializedSignature (signPersonalMessage s m) = Some parsed → raw_signature parsed = Some raw →
    head (toMySoBytes (signer_key s)) = Some flag → SIGNATURE_FLAG_TO_SCHEME flag = Some scheme →
    wf_bytes raw ∧ ∃ ser, toSerializedSignature scheme raw (signer_key s) = Some ser
      ∧ verifyPersonalMessageSignature m ser = Some (signer_key s).

Section sign_verify.
Context `{JsonNumbers} `{JsText} `{HexCodecLaws} `{MySoCryptoLaws}.

Definition supported_version (v : option Z) : Prop := v = None ∨ v = Some 1 ∨ v = Some 2.

(** A signature depends on its parameters through their canonical bytes only. *)
Lemma signed_verifies (s : Signer) p q sig addr : keypair_signer s → signMessageContent s p = Ok sig →
  buildCanonicalMessage q = buildCanonicalMessage p → supported_version (signatureVersion q) →
  verifyMessageSender q addr sig (toHex (toMySoBytes (signer_key s))) = bool_decide (addr = toMySoAddress s).
Proof.
  intros Hkey Hsign Hq Hv. unfold signMessageContent in Hsign.
  destruct (buildCanonicalMessage p) as [m|e] eqn:Eb; [|done].
  destruct (parseSerializedSignature _) as [parsed|] eqn:Ep; [|done].
  destruct (raw_signature parsed) as [raw|] eqn:Er; [|done]. injection Hsign as <-.
  destruct (signer_flag (signer_key s)) as (flag & scheme & Hf & Hsc).
  destruct (Hkey m parsed raw flag scheme Ep Er Hf Hsc) as (Hraw & ser & Hser & Hver).
  unfold verifyMessageSender, verify_body.
  rewrite Hq, (fromHex_toHex raw Hraw), (fromHex_toHex _ (key_bytes_wf _)).
  cbn [mbind option_bind]. rewrite Hf. cbn [mbind option_bind]. rewrite Hsc, key_from_bytes.
  cbn [mbind option_bind]. rewrite Hser. cbn [mbind option_bind]. rewrite Hver. cbn [mbind option_bind].
  destruct Hv as [->|[->| ->]]; cbn [default from_option Datatypes.id]; unfold toMySoAddress;
    apply bool_decide_ext; split; congruence.
Qed.

Lemma canonical_version p m : buildCanonicalMessage p = Ok m → supported_version (signatureVersion p).
Proof.
  unfold buildCanonicalMessage, supported_version. destruct (signatureVersion p) as [v|]; [|by left]. right.
  destruct v as [|[[q|q|]|[q|q|]|]|]; try done; auto.
Qed.

(** Signing then verifying: what a signer signs verifies for the
    signer's address with its public key, and for no other address; the signer's only errors on a
    supported version come from the signature, and an unsupported version is refused by both sides. *)
Lemma sign_then_verify (s : Signer) p sig :
  let pk := toHex (toMySoBytes (signer_key s)) in
  (keypair_signer s → signMessageContent s p = Ok sig →
    supported_version (signatureVersion p)
    ∧ ∀ addr, verifyMessageSender p addr sig pk = bool_decide (addr = toMySoAddress s))
  ∧ (¬ supported_version (signatureVersion p) →
      signMessageContent s p = Throw UnsupportedVersion ∧ ∀ addr sig' pk', verifyMessageSender p addr sig' pk' = false).
Proof.
  intros pk. split.
  - intros Hkey Hsign.
    assert (supported_version (signatureVersion p)) as Hv.
    { pose proof Hsign as Hb. unfold signMessageContent in Hb. destruct (buildCanonicalMessage p) eqn:Eb; [|done].
      by eapply canonical_version. }
    split; [done|]. intros addr. by apply (signed_verifies s p).
  - intros Hv.
    assert (∃ v, signatureVersion p = Some v ∧ v ≠ 1 ∧ v ≠ 2) as (v & Ev & H1v & H2v).
    { unfold supported_version in Hv. destruct (signatureVersion p) as [v|]; [|by destruct Hv; left].
      exists v. split; [done|]. split; intros ->; apply Hv; auto. }
    unfold signMessageContent, buildCanonicalMessage, verifyMessageSender, verify_body. rewrite Ev.
    destruct v as [|[[q|q|]|[q|q|]|]|]; try done.
Qed.

(** A signature of one message is refused for another. *)
Definition binding_signer (s : Signer) : Prop :=
  ∀ m m' parsed raw flag scheme ser, wf_bytes m → wf_bytes m' → m ≠ m' →
    parseSerializedSignature (signPersonalMessage s m) = Some parsed → raw_signature parsed = Some raw →
    head (toMySoBytes (signer_key s)) = Some flag → SIGNATURE_FLAG_TO_SCHEME flag = Some scheme →
    toSerializedSignature scheme raw (signer_key s) = Some ser → verifyPersonalMessageSignature m' ser = None.

Lemma other_refused (s : Signer) p q m m' sig addr : keypair_signer s → binding_signer s → signMessageContent s p = Ok sig →
  buildCanonicalMessage p = Ok m → buildCanonicalMessage q = Ok m' → wf_bytes m → wf_bytes m' → m ≠ m' →
  verifyMessageSender q addr sig (toHex (toMySoBytes (signer_key s))) = false.
Proof.
  intros Hkey Hbind Hsign Hp Hq Hm Hm' Hne. unfold signMessageContent in Hsign. rewrite Hp in Hsign.
  destruct (parseSerializedSignature _) as [parsed|] eqn:Ep; [|done].
  destruct (raw_signature parsed) as [raw|] eqn:Er; [|done]. injection Hsign as <-.
  destruct (signer_flag (signer_key s)) as (flag & scheme & Hf & Hsc).
  destruct (Hkey m parsed raw flag scheme Ep Er Hf Hsc) as (Hraw & ser & Hser & _).
  pose proof (Hbind m m' parsed raw flag scheme ser Hm Hm' Hne Ep Er Hf Hsc Hser) as Hno.
  pose proof (canonical_version q m' Hq) as Hv. unfold verifyMessageSender, verify_body.
  rewrite Hq, (fromHex_toHex raw Hraw), (fromHex_toHex _ (key_bytes_wf _)).
  cbn [mbind option_bind]. rewrite Hf. cbn [mbind option_bind]. rewrite Hsc, key_from_bytes.
  cbn [mbind option_bind]. rewrite Hser. cbn [mbind option_bind]. rewrite Hno.
  by destruct Hv as [->|[->| ->]].
Qed.

(** The version-1 form does not delimit a post reference and an idempotency
    key that contain colons: two different messages have the same bytes. *)
Example canonical_v1_ambiguous :
  let p ref idem := {| groupId := js "0xg"; kind := Some (js "token_transfer"); signatureVersion := None;
    encryptedText := []; nonce := []; keyVersion := 0; sharedPostAddress := None; transferDigest := Some (js ref);
    idempotencyKey := Some (js idem); attachments := None; attribution := None |} in
  buildCanonicalMessage (p "a" "b:c") = buildCanonicalMessage (p "a:b" "c").
Proof. intros p. unfold buildCanonicalMessage, canonical_v1. simpl. done. Qed.
End sign_verify.

(** * Witnesses *)

Definition hex_pair (b : Z) : jsstr := [hex_digit (b / 16); hex_digit (b mod 16)].
Fixpoint hex_bytes (s : jsstr) : option bytes :=
  match s with
  | [] => Some []
  | a :: b :: r => if is_hex a && is_hex b then cons (hex_digit_value a * 16 + hex_digit_value b) <$> hex_bytes r else None
  | _ => None
  end.
(** Plain lower-case hex. *)
Definition plain_hex : HexCodec := {| toHex b := b ≫= hex_pair; fromHex := hex_bytes |}.

Lemma hex_pair_ok b : is_byte b → match hex_pair b with
  | [x; y] => is_lower_hex x = true ∧ is_lower_hex y = true ∧ is_hex x = true ∧ is_hex y = true
      ∧ hex_digit_value x * 16 + hex_digit_value y = b
  | _ => False end.
Proof.
  intros Hb. unfold is_byte in Hb.
  assert (forallb (λ k : nat, match hex_pair (Z.of_nat k) with
    | [x; y] => is_lower_hex x && is_lower_hex y && is_hex x && is_hex y
        && (hex_digit_value x * 16 + hex_digit_value y =? Z.of_nat k)
    | _ => false end) (seq 0 256) = true) as Hall by (vm_compute; reflexivity).
  rewrite forallb_forall in Hall. specialize (Hall (Z.to_nat b) ltac:(apply in_seq; lia)).
  rewrite Z2Nat.id in Hall by lia. cbn [hex_pair] in *. bool_to_Z. done.
Qed.

Lemma plain_hex_laws : @HexCodecLaws plain_hex.
Proof.
  split.
  - intros b Hb. simpl. induction Hb as [|x b Hx _ IH]; [done|].
    pose proof (hex_pair_ok x Hx) as Hp. unfold hex_pair in *. cbn [mbind list_bind app hex_bytes].
    destruct Hp as (_ & _ & -> & -> & Hv). cbn [andb]. cbn [mbind list_bind] in IH. rewrite IH. simpl. by rewrite Hv.
  - intros b Hb. simpl. induction Hb as [|x b Hx _ IH]; [constructor|].
    pose proof (hex_pair_ok x Hx) as Hp. unfold hex_pair in *. cbn [mbind list_bind app].
    destruct Hp as (? & ? & _). by repeat constructor.
  - by intros [|x b].
Qed.

(** A signature scheme for the examples: there are two keys, and the signature
    of a message is the key's byte followed by the message's. *)
Definition toy_crypto : MySoCrypto := {|
  PublicKey := bool;
  SIGNATURE_FLAG_TO_SCHEME f := if f =? 0 then Some (js "ED25519") else None;
  publicKeyFromMySoBytes b :=
    match b with
    | [f; k] => if (f =? 0) && ((k =? 0) || (k =? 1)) then Some (k =? 1) else None
    | _ => None
    end;
  toMySoBytes k := [0; if k then 1 else 0];
  toSerializedSignature scheme raw k := Some raw;
  parseSerializedSignature s :=
    Some {| signatureScheme := js "ED25519"; raw_signature := Some ((λ c, c mod 256) <$> s) |};
  verifyPersonalMessageSignature m s :=
    match s with
    | k :: r => if decide (r = (λ c, c mod 256) <$> m) then Some (k =? 1) else None
    | [] => None
    end;
  key_address k := if k : bool then js "0xb" else js "0xa";
|}.

Definition toy_signer : @Signer toy_crypto :=
  @Build_Signer toy_crypto true (λ m, 1 :: m).

Lemma toy_crypto_laws : @MySoCryptoLaws toy_crypto.
Proof.
  split.
  - intros key. by exists 0, (js "ED25519").
  - by intros [].
  - intros []; apply (Forall_below 256); reflexivity.
Qed.

Lemma toy_signer_ok : @keypair_signer toy_crypto toy_signer.
Proof.
  intros m parsed raw flag scheme [= <-] [= <-] _ _. split.
  - change (Forall is_byte ((λ c, c mod 256) <$> (1 :: m))). apply Forall_fmap, Forall_forall.
    intros c _. apply Z.mod_pos_bound. lia.
  - eexists. split; [reflexivity|]. simpl. by rewrite decide_True.
Qed.

Definition sample_params : CanonicalParams := {|
  groupId := js "0xAB"; kind := Some (js "post"); signatureVersion := Some 2;
  encryptedText := [1; 2]; nonce := [3]; keyVersion := 4; sharedPostAddress := Some (js " 0x12 ");
  transferDigest := None; idempotencyKey := Some (js "k"); attachments := None; attribution := None |}.

Lemma sample_params_ok : params_ok sample_params.
Proof.
  repeat split; try apply wf_js; try (apply (Forall_below 256); vm_compute; reflexivity).
Qed.

Lemma normalize_canonical_witness :
  @normalizeSharedPostAddress ascii_text (Some (js " 0X1f "))
    = Some (js "0x000000000000000000000000000000000000000000000000000000000000001f")
  ∧ @normalizeSharedPostAddress ascii_text
      (Some (js "0x000000000000000000000000000000000000000000000000000000000000001f"))
    = Some (js "0x000000000000000000000000000000000000000000000000000000000000001f").
Proof.
  assert (@normalizeSharedPostAddress ascii_text (Some (js " 0X1f "))
    = Some (js "0x000000000000000000000000000000000000000000000000000000000000001f")) as E
    by (vm_compute; reflexivity).
  split; [exact E|]. exact (proj2 (@normalize_canonical ascii_text ascii_text_laws _ _ E)).
Defined.

Definition sample_params_lower : CanonicalParams := {|
  groupId := js "0xab"; kind := Some (js "post"); signatureVersion := Some 2;
  encryptedText := [1; 2]; nonce := [3]; keyVersion := 4;
  sharedPostAddress := Some (js "0x0012"); transferDigest := None; idempotencyKey := Some (js " k ");
  attachments := Some []; attribution := None |}.

Lemma sample_params_lower_ok : params_ok sample_params_lower.
Proof.
  repeat split; try apply wf_js; try (apply (Forall_below 256); vm_compute; reflexivity); constructor.
Qed.

Lemma canonical_v2_injective_witness :
  @bound_reference ascii_text sample_params = @bound_reference ascii_text sample_params_lower.
Proof.
  destruct (@buildCanonicalMessage integer_numbers ascii_text plain_hex sample_params) as [b|e] eqn:E;
    [|vm_compute in E; discriminate].
  refine (proj1 (proj2 (proj2 (@canonical_v2_injective integer_numbers integer_numbers_laws
    ascii_text ascii_text_laws plain_hex plain_hex_laws sample_params sample_params_lower b
    sample_params_ok sample_params_lower_ok eq_refl eq_refl E _)))).
  rewrite <-E. vm_compute. reflexivity.
Defined.

Lemma sign_then_verify_witness :
  ∃ sig, @signMessageContent integer_numbers ascii_text plain_hex toy_crypto toy_signer sample_params = Ok sig
    ∧ @verifyMessageSender integer_numbers ascii_text plain_hex toy_crypto sample_params (js "0xb") sig
        (@toHex plain_hex [0; 1]) = true.
Proof.
  eexists. split; [reflexivity|].
  refine (eq_trans (proj2 (proj1 (@sign_then_verify integer_numbers ascii_text plain_hex plain_hex_laws toy_crypto
    toy_crypto_laws toy_signer sample_params _) toy_signer_ok eq_refl) (js "0xb")) _).
  reflexivity.
Defined.

Lemma toy_signer_binding : @binding_signer toy_crypto toy_signer.
Proof.
  intros m m' parsed raw flag scheme ser Hm Hm' Hne [= <-] [= <-] _ _ [= <-]. cbn.
  assert (∀ b : bytes, wf_bytes b → (λ c, c mod 256) <$> b = b) as Hid.
  { intros b Hb. rewrite <-(list_fmap_id b) at 2. apply Forall_fmap_ext. eapply Forall_impl; [exact Hb|].
    intros c Hc. unfold is_byte in Hc. by apply Z.mod_small. }
  rewrite decide_False; [done|]. fold ((λ c, c mod 256) <$> m). rewrite !Hid by done. congruence.
Qed.
