(* ===== verification/Anchors.v ===== *)
(** On-chain message anchors ([anchors.ts]): pointer URIs, content digests,
    nonces.  The hash is a parameter ([Sha256], from [@noble/hashes]). *)
From S2P Require Import Prelude JsString JsMap Utf8.

Class Sha256 := { sha256 : bytes → bytes }.

Definition MAX_ANCHOR_URI_BYTES : nat := 2048.
Definition V1_PREFIX : jsstr := js "myso-chat://".
Definition V2_PREFIX : jsstr := js "myso-chat+v2://".
Definition V2_DOMAIN : jsstr := js "myso-anchor-v2".

(** [b.toString(16).padStart(2, '0')] of every byte, joined. *)
Definition hex_nibble (d : Z) : Z := if d <? 10 then 48 + d else 87 + d.
Definition hexOf (b : bytes) : jsstr := b ≫= λ x, [hex_nibble (x / 16); hex_nibble (x mod 16)].

Inductive anchor_version := V1 | V2.
Record AnchorPointer := { ap_version : anchor_version; groupUuid : jsstr; messageId : jsstr }.

#[global] Instance anchor_version_eq_dec : EqDecision anchor_version.
Proof. solve_decision. Defined.
#[global] Instance AnchorPointer_eq_dec : EqDecision AnchorPointer.
Proof. solve_decision. Defined.

(** A unit no part of a pointer may contain: controls, space, [?], [#]. *)
Definition forbidden (c : Z) : bool := (c <=? 32) || (c =? 63) || (c =? 35).

(** One round of the loop of [parseAnchorUri]. *)
Definition parse_with (prefix : jsstr) (version : anchor_version) (uri : jsstr) : option AnchorPointer :=
  let rest := drop (length prefix) uri in
  match indexOf 47 rest with
  | None | Some O => None
  | Some slash =>
      if (slash =? length rest - 1)%nat || bool_decide (is_Some (indexOf 47 (drop (S slash) rest)))
         || existsb forbidden rest || (MAX_ANCHOR_URI_BYTES <? length (utf8_encode uri))%nat
      then None
      else Some {| ap_version := version; groupUuid := take slash rest; messageId := drop (S slash) rest |}
  end.

Definition parseAnchorUri (uri : jsstr) : option AnchorPointer :=
  if startsWith V2_PREFIX uri then parse_with V2_PREFIX V2 uri
  else if startsWith V1_PREFIX uri then parse_with V1_PREFIX V1 uri
  else None.

Inductive anchor_error := InvalidIdentifier | AnchorTooLong.

Definition anchor_part (part : jsstr) : bool :=
  (0 <? length part)%nat && negb (existsb (λ c, forbidden c || (c =? 47)) part).

Definition anchorUri (group message : jsstr) : outcome anchor_error jsstr :=
  if negb (anchor_part group && anchor_part message) then Throw InvalidIdentifier else
  let uri := V2_PREFIX ++ group ++ [47] ++ message in
  if (MAX_ANCHOR_URI_BYTES <? length (utf8_encode uri))%nat then Throw AnchorTooLong
  else Ok uri.

Definition digest_preimage_v2 (text group message : jsstr) : jsstr :=
  V2_DOMAIN ++ [0] ++ group ++ [0] ++ message ++ [0] ++ text.

Section digests.
Context `{Sha256}.

Definition contentDigestV2 (text group message : jsstr) : bytes :=
  sha256 (utf8_encode (digest_preimage_v2 text group message)).

Definition contentDigestV1 (text : jsstr) : bytes := sha256 (utf8_encode text).

Definition expectedDigestHex (text : jsstr) (pointer : AnchorPointer) : jsstr :=
  hexOf (match ap_version pointer with
         | V2 => contentDigestV2 text (groupUuid pointer) (messageId pointer)
         | V1 => contentDigestV1 text
         end).

Definition anchorDedupeKey (group message : jsstr) : bytes :=
  sha256 (utf8_encode (js "anchor:" ++ group ++ js ":" ++ message)).
End digests.

(** The nonce of sixteen random bytes, big endian. *)
Definition anchorNonce (random : nat → bytes) : Z :=
  foldl (λ value byte, Z.lor (Z.shiftl value 8) byte) 0 (random 16%nat).

Definition transactionDigestOf (indexerId : jsstr) : jsstr := default indexerId (head (split_on 58 indexerId)).

Record AnchoredInfo (Sequence : Type) := { ai_seq : Sequence; ai_transactionId : jsstr; ai_contentDigest : jsstr }.
Arguments Build_AnchoredInfo {Sequence}.

Record AnchorRow (Sequence : Type) := {
  ar_matchedMessageId : option jsstr; ar_seq : Sequence; ar_transactionId : jsstr; ar_contentDigest : jsstr;
}.
Arguments ar_matchedMessageId {Sequence}.
Arguments ar_seq {Sequence}.
Arguments ar_transactionId {Sequence}.
Arguments ar_contentDigest {Sequence}.

Definition anchoredMessageIds {Sequence} (rows : list (AnchorRow Sequence))
    : list (jsstr * AnchoredInfo Sequence) :=
  foldl (λ out row,
    match ar_matchedMessageId row with
    | Some (c :: id) => map_set (c :: id)
        {| ai_seq := ar_seq row; ai_transactionId := transactionDigestOf (ar_transactionId row);
           ai_contentDigest := ar_contentDigest row |} out
    | _ => out
    end) [] rows.

(** * Lemmas *)

Lemma anchor_part_spec s : anchor_part s = true ↔
  s ≠ [] ∧ (47 ∉ s) ∧ Forall (λ c, forbidden c = false) s.
Proof.
  unfold anchor_part. rewrite andb_true_iff, negb_true_iff, Nat.ltb_lt.
  assert (existsb (λ c, forbidden c || (c =? 47)) s = false ↔ (47 ∉ s) ∧ Forall (λ c, forbidden c = false) s) as ->.
  { induction s as [|c s IH]; simpl; [split; [intros _; split; [apply not_elem_of_nil|constructor]|done]|].
    rewrite !orb_false_iff, IH, not_elem_of_cons, Forall_cons, Z.eqb_neq. naive_solver. }
  destruct s; simpl; split; intros [? ?]; split; try done; lia.
Qed.

Lemma existsb_forbidden s : existsb forbidden s = false ↔ Forall (λ c, forbidden c = false) s.
Proof. induction s as [|c s IH]; simpl; [by split|]. by rewrite orb_false_iff, IH, Forall_cons. Qed.

(** The pointer a prefix and its parts make. *)
Lemma parse_with_print prefix v g m :
  anchor_part g = true → anchor_part m = true →
  (length (utf8_encode (prefix ++ g ++ (47 :: m)%Z)) ≤ MAX_ANCHOR_URI_BYTES)%nat →
  parse_with prefix v (prefix ++ g ++ 47 :: m) = Some {| ap_version := v; groupUuid := g; messageId := m |}.
Proof.
  intros (Hg & Hg47 & Hgf)%anchor_part_spec (Hm & Hm47 & Hmf)%anchor_part_spec Hlen.
  unfold parse_with. rewrite drop_app_length, indexOf_app by done.
  destruct (length g) as [|k] eqn:El; [by apply length_zero_iff_nil in El|].
  assert (drop (S (S k)) (g ++ 47 :: m) = m) as Hd.
  { change (47 :: m) with ([47] ++ m). rewrite app_assoc, drop_app_length'; [done|]. rewrite length_app. simpl. lia. }
  assert (take (S k) (g ++ 47 :: m) = g) as Ht by (by rewrite take_app_length').
  rewrite Hd, Ht. rewrite (proj2 (indexOf_none 47 m)) by done.
  rewrite bool_decide_false by (by intros []).
  assert (existsb forbidden (g ++ 47 :: m) = false) as ->.
  { apply existsb_forbidden, Forall_app. split; [done|]. by constructor. }
  rewrite (proj2 (Nat.ltb_ge _ _)) by done.
  assert ((S k =? length (g ++ 47%Z :: m) - 1)%nat = false) as ->; [|done].
  apply Nat.eqb_neq. rewrite length_app, El. destruct m; [done|simpl; lia].
Qed.

Lemma parse_with_inv prefix v rest p :
  parse_with prefix v (prefix ++ rest) = Some p →
  rest = groupUuid p ++ 47 :: messageId p ∧ anchor_part (groupUuid p) = true ∧ anchor_part (messageId p) = true
  ∧ ap_version p = v ∧ (length (utf8_encode (prefix ++ rest)) ≤ MAX_ANCHOR_URI_BYTES)%nat.
Proof.
  unfold parse_with. rewrite drop_app_length. destruct (indexOf 47 rest) as [[|k]|] eqn:Ei; try done.
  destruct (indexOf_split _ _ _ Ei) as (Es & Hn & Hl).
  destruct (_ || _ || _ || _) eqn:E; [done|].
  apply orb_false_elim in E as [[[E1 E2]%orb_false_elim E3]%orb_false_elim E4].
  apply Nat.ltb_ge in E4. apply Nat.eqb_neq in E1. apply existsb_forbidden in E3.
  apply bool_decide_eq_false_1 in E2. intros [= <-]. cbn [groupUuid messageId ap_version].
  assert (47 ∉ drop (S (S k)) rest) as Hm47.
  { apply indexOf_none. destruct (indexOf 47 (drop (S (S k)) rest)); [|done]. by destruct E2. }
  split; [done|]. split; [|split; [|done]]; apply anchor_part_spec.
  - split; [|split; [done|by apply Forall_take]].
    intros E0. apply (f_equal length) in E0. rewrite length_take in E0. cbn [length] in E0. lia.
  - split; [|split; [done|by apply Forall_drop]].
    intros E0. apply (f_equal length) in E0. rewrite length_drop in E0. cbn [length] in E0. lia.
Qed.

(** * Properties *)

(** Anchor pointers: a pointer [anchorUri] builds parses back to its room
    and message with version 2; whatever parses is a non-empty room and message
    without separators or controls, within 2048 bytes, and when it has version 2 [anchorUri]
    rebuilds exactly the parsed text. *)
Lemma anchor_uri_roundtrip :
  (∀ g m uri, anchorUri g m = Ok uri →
     parseAnchorUri uri = Some {| ap_version := V2; groupUuid := g; messageId := m |})
  ∧ (∀ uri p, parseAnchorUri uri = Some p →
       anchor_part (groupUuid p) = true ∧ anchor_part (messageId p) = true
       ∧ (length (utf8_encode uri) ≤ MAX_ANCHOR_URI_BYTES)%nat
       ∧ (ap_version p = V2 → anchorUri (groupUuid p) (messageId p) = Ok uri)).
Proof.
  split.
  - intros g m uri. unfold anchorUri. destruct (anchor_part g) eqn:Hg, (anchor_part m) eqn:Hm; try done.
    destruct (_ <? _)%nat eqn:El; [done|]. apply Nat.ltb_ge in El.
    cbn [andb negb]. intros Eu.
    assert (V2_PREFIX ++ g ++ [47] ++ m = uri) as <- by congruence.
    change ([47] ++ m) with (47 :: m) in *.
    unfold parseAnchorUri. rewrite startsWith_app. by apply parse_with_print.
  - intros uri p. unfold parseAnchorUri. destruct (startsWith V2_PREFIX uri) eqn:E2.
    + apply startsWith_inv in E2 as [rest ->]. intros (-> & Hg & Hm & Hv & Hl)%parse_with_inv.
      split; [done|]. split; [done|]. split; [done|]. intros _. unfold anchorUri. rewrite Hg, Hm. cbn [andb negb].
      change ([47] ++ messageId p) with (47 :: messageId p). by rewrite (proj2 (Nat.ltb_ge _ _)).
    + destruct (startsWith V1_PREFIX uri) eqn:E1; [|done].
      apply startsWith_inv in E1 as [rest ->]. intros (-> & Hg & Hm & Hv & Hl)%parse_with_inv. by rewrite Hv.
Qed.

Lemma nul_split g g' r r' : 0 ∉ g → 0 ∉ g' → g ++ 0 :: r = g' ++ 0 :: r' → g = g' ∧ r = r'.
Proof.
  revert g'. induction g as [|a g IH]; intros [|a' g'] Hg Hg' E; simpl in *.
  - by injection E as ->.
  - injection E as <- _. by rewrite not_elem_of_cons in Hg'; destruct Hg'.
  - injection E as -> _. by rewrite not_elem_of_cons in Hg; destruct Hg.
  - injection E as -> E. rewrite not_elem_of_cons in Hg, Hg'. destruct (IH g') as [-> ->]; naive_solver.
Qed.

(** A version-2 digest is bound to its room and message: the hashed bytes
    of two anchored messages are equal only for the same room, message id and text. *)
Lemma digest_v2_bound `{Sha256} t g m t' g' m' u u' :
  anchorUri g m = Ok u → anchorUri g' m' = Ok u' →
  Forall (λ s, wf_str s ∧ wf_utf16 s = true) [t; g; m; t'; g'; m'] →
  utf8_encode (digest_preimage_v2 t g m) = utf8_encode (digest_preimage_v2 t' g' m') →
  t = t' ∧ g = g' ∧ m = m'.
Proof.
  intros Hu Hu' Hwf E.
  assert (∀ g m u, anchorUri g m = Ok u → (0 ∉ g) ∧ (0 ∉ m)) as Hnul.
  { intros g0 m0 u0. unfold anchorUri. destruct (anchor_part g0) eqn:Hg, (anchor_part m0) eqn:Hm; try done.
    intros _. apply anchor_part_spec in Hg as (_ & _ & Hg), Hm as (_ & _ & Hm).
    rewrite Forall_forall in Hg, Hm. split; intros H0; [specialize (Hg _ H0)|specialize (Hm _ H0)]; done. }
  destruct (Hnul _ _ _ Hu) as [Hg Hm], (Hnul _ _ _ Hu') as [Hg' Hm'].
  repeat match goal with H : Forall _ (_ :: _) |- _ => apply Forall_cons in H as [[? ?] H] end.
  assert (∀ t g m, wf_str t → wf_utf16 t = true → wf_str g → wf_utf16 g = true → wf_str m → wf_utf16 m = true →
    utf8_decode (utf8_encode (digest_preimage_v2 t g m)) = Some (digest_preimage_v2 t g m)) as Hdec.
  { intros t0 g0 m0 ? ? ? ? ? ?. unfold digest_preimage_v2. apply utf8_decode_encode.
    - repeat (apply Forall_app; split); try done; try apply wf_js; by apply (Forall_below 65536).
    - repeat (apply wf_utf16_app; [done|]). done.
    - change (V2_DOMAIN ++ ?x) with (109 :: drop 1 V2_DOMAIN ++ x).
      rewrite utf8_encode_ascii_cons by lia. apply strip_bom_ascii. lia. }
  assert (digest_preimage_v2 t g m = digest_preimage_v2 t' g' m') as E'.
  { apply (inj Some). rewrite <-!Hdec by done. by rewrite E. }
  unfold digest_preimage_v2 in E'. apply (inj (app V2_DOMAIN)) in E'. injection E' as E'.
  apply nul_split in E' as [-> E']; [|done..]. apply nul_split in E' as [-> E']; [|done..]. done.
Qed.

Lemma anchor_parts_sample : anchorUri (js "room") (js "m1") = Ok (js "myso-chat+v2://room/m1").
Proof. reflexivity. Qed.

Lemma anchor_uri_roundtrip_witness :
  parseAnchorUri (js "myso-chat+v2://room/m1")
  = Some {| ap_version := V2; groupUuid := js "room"; messageId := js "m1" |}.
Proof. exact (proj1 anchor_uri_roundtrip (js "room") (js "m1") _ anchor_parts_sample). Defined.

Lemma digest_v2_bound_witness : js "hi" = js "hi" ∧ js "room" = js "room" ∧ js "m1" = js "m1".
Proof.
  refine (@digest_v2_bound {| sha256 b := b |} _ _ _ _ _ _ _ _ anchor_parts_sample anchor_parts_sample _ eq_refl).
  repeat (apply Forall_cons_2; [split; [apply wf_js|vm_compute; reflexivity]|]). apply Forall_nil_2.
Defined.
