(* ===== verification/RoomEvidence.v ===== *)
(** Room evidence ([room-evidence.ts]): pairing on-chain digests with decrypted
    messages and summarising the result. *)
From S2P Require Import Prelude JsString JsMap Utf8 Anchors.

(** A sequence number as the indexer gives it. *)
Inductive Sequence := SeqNumber (n : number) | SeqString (s : jsstr).

#[global] Instance Sequence_eq_dec : EqDecision Sequence.
Proof. solve_decision. Defined.

Record RoomMessageAnchor := {
  seq : Sequence; sender : jsstr; contentDigest : jsstr; contentUri : jsstr;
  createdAtMs : Z; transactionId : jsstr;
}.

Record VerifiableMessage := {
  vm_messageId : jsstr; vm_senderAddress : jsstr; vm_createdAt : Z;
  vm_senderVerified : bool; vm_text : option jsstr;
}.

Record DigestVerificationRow := {
  row_anchor : RoomMessageAnchor;   (* seq, sender, contentDigest, contentUri, createdAtMs, transactionId *)
  matchedMessageId : option jsstr;
  senderVerified : option bool;
  contentVerified : option bool;
}.

Inductive evidence_error :=
  | BadRoom (e : anchor_error) | UnsafeSequence | InvalidSequence | SequenceTooLarge | DuplicateSequence.

Definition DIGEST_MATCH_WINDOW_MS : Z := 30000.

(** [String(value)] of a sequence. *)
Definition sequence_text (s : Sequence) : jsstr :=
  match s with SeqNumber (Int z) => dec_Z z | SeqNumber _ => js "NaN" | SeqString t => t end.

(** Zero, or digits without a leading zero. *)
Definition canonical_numeral (t : jsstr) : bool :=
  match t with
  | [] => false
  | [c] => is_digit c
  | c :: _ => all_digits t && negb (c =? 48)
  end.

(** The parsed number of a sequence, checked against those [seen] so far. *)
Definition sequence (seen : list Z) (s : Sequence) : outcome evidence_error Z :=
  if match s with SeqNumber n => negb (isSafeInteger n) || num_lt n (Int 0) | _ => false end
  then Throw UnsafeSequence else
  let t := sequence_text s in
  if negb (canonical_numeral t) then Throw InvalidSequence else
  let parsed := digits_value t in
  if 18446744073709551615 <? parsed then Throw SequenceTooLarge
  else if bool_decide (parsed ∈ seen) then Throw DuplicateSequence
  else Ok parsed.

Fixpoint sequence_all (seen : list Z) (digests : list RoomMessageAnchor)
    : outcome evidence_error (list (Z * RoomMessageAnchor)) :=
  match digests with
  | [] => Ok []
  | d :: ds =>
      match sequence seen (seq d) with
      | Throw e => Throw e
      | Ok n =>
          match sequence_all (n :: seen) ds with
          | Throw e => Throw e
          | Ok r => Ok ((n, d) :: r)
          end
      end
  end.

Section evidence.
Context `{JsText} `{Sha256}.

Definition sameSender (m : VerifiableMessage) (d : RoomMessageAnchor) : bool :=
  bool_decide (toLowerCase (vm_senderAddress m) = toLowerCase (sender d)).

(** [new Map(messages.map((m) => [m.messageId, m]))]: the last row of an id wins. *)
Definition by_id (messages : list VerifiableMessage) : list (jsstr * VerifiableMessage) :=
  foldl (λ m x, map_set (vm_messageId x) x m) [] messages.

(** The first pass: digests whose pointer names a message of this room. *)
Definition match_pointer (room : jsstr) (byId : list (jsstr * VerifiableMessage))
    (acc : list (Sequence * VerifiableMessage) * list jsstr) (d : RoomMessageAnchor)
    : list (Sequence * VerifiableMessage) * list jsstr :=
  let '(matched, used) := acc in
  match parseAnchorUri (contentUri d) with
  | Some p =>
      if bool_decide (groupUuid p = room) then
        match map_get (messageId p) byId with
        | Some m =>
            if negb (bool_decide (vm_messageId m ∈ used)) && sameSender m d
            then (map_set (seq d) m matched, vm_messageId m :: used) else acc
        | None => acc
        end
      else acc
  | None => acc
  end.

(** The closest unused message of the same sender inside the window. *)
Definition closest (used : list jsstr) (d : RoomMessageAnchor) (messages : list VerifiableMessage)
    : option (VerifiableMessage * Z) :=
  foldl (λ best m,
    if bool_decide (vm_messageId m ∈ used) || negb (sameSender m d) then best else
    let delta := Z.abs (vm_createdAt m - createdAtMs d) in
    if (delta <=? DIGEST_MATCH_WINDOW_MS) && match best with Some (_, b) => delta <? b | None => true end
    then Some (m, delta) else best) None messages.

Definition verification_row (room : jsstr) (d : RoomMessageAnchor) (best : option VerifiableMessage)
    : DigestVerificationRow :=
  let pointer := parseAnchorUri (contentUri d) in
  {| row_anchor := d;
     matchedMessageId := vm_messageId <$> best;
     senderVerified := vm_senderVerified <$> best;
     contentVerified :=
       match best ≫= vm_text with
       | Some text =>
           if match pointer with Some p => bool_decide (groupUuid p = room) | None => true end then
             Some (bool_decide (expectedDigestHex text
                 (default {| ap_version := V1; groupUuid := []; messageId := [] |} pointer)
               = toLowerCase (contentDigest d)))
           else None
       | None => None
       end |}.

(** The second pass, over the digests in sequence order. *)
Fixpoint match_rows (room : jsstr) (matched : list (Sequence * VerifiableMessage)) (messages : list VerifiableMessage)
    (used : list jsstr) (ordered : list RoomMessageAnchor) : list DigestVerificationRow :=
  match ordered with
  | [] => []
  | d :: ds =>
      let exact := map_get (seq d) matched in
      let '(best, used') :=
        match exact with
        | Some m => (Some m, used)
        | None =>
            if negb (bool_decide (is_Some (parseAnchorUri (contentUri d))))
               && negb (startsWith (js "myso-chat") (contentUri d))
            then match closest used d messages with
                 | Some (m, _) => (Some m, vm_messageId m :: used)
                 | None => (None, used)
                 end
            else (None, used)
        end in
      verification_row room d best :: match_rows room matched messages used' ds
  end.

Definition matchDigestsToMessages (digests : list RoomMessageAnchor) (messages : list VerifiableMessage)
    (room : jsstr) : outcome evidence_error (list DigestVerificationRow) :=
  match anchorUri room (js "validation") with
  | Throw e => Throw (BadRoom e)
  | Ok _ =>
      match sequence_all [] digests with
      | Throw e => Throw e
      | Ok numbered =>
          let ordered := (sort_by fst numbered).*2 in
          let '(matched, used) := foldl (match_pointer room (by_id messages)) ([], []) ordered in
          Ok (match_rows room matched messages used ordered)
      end
  end.
End evidence.

Definition messageIdFromAnchorUri (uri : jsstr) : option jsstr := messageId <$> parseAnchorUri uri.

Record VerificationSummary := {
  total : nat; vs_matched : nat; verified : nat; unmatched : nat; failed : nat; unchecked : nat;
}.

Definition summarize_row (acc : nat * nat * nat * nat) (row : DigestVerificationRow) : nat * nat * nat * nat :=
  let '(m, v, f, u) := acc in
  match matchedMessageId row with
  | None => acc
  | Some _ =>
      if bool_decide (senderVerified row = Some false) || bool_decide (contentVerified row = Some false)
      then (S m, v, S f, u)
      else if bool_decide (senderVerified row = Some true) && bool_decide (contentVerified row = Some true)
      then (S m, S v, f, u)
      else (S m, v, f, S u)
  end.

Definition summarizeVerification (rows : list DigestVerificationRow) : VerificationSummary :=
  let '(m, v, f, u) := foldl summarize_row (0, 0, 0, 0)%nat rows in
  {| total := length rows; vs_matched := m; verified := v; unmatched := length rows - m; failed := f; unchecked := u |}.

(** * Lemmas *)

Lemma sequence_ok seen s n : sequence seen s = Ok n → (n ∉ seen) ∧ n = digits_value (sequence_text s).
Proof.
  unfold sequence. destruct s as [n0|t]; [destruct (_ || _); [done|]|];
    (destruct (negb _); [done|]; destruct (_ <? _); [done|]; case_bool_decide; [done|]; by intros [= <-]).
Qed.

Lemma sequence_all_ok seen ds r : sequence_all seen ds = Ok r →
  r.*2 = ds ∧ NoDup r.*1 ∧ (∀ n, n ∈ r.*1 → (n ∉ seen))
  ∧ Forall (λ nd, nd.1 = digits_value (sequence_text (seq nd.2))) r.
Proof.
  revert seen r. induction ds as [|d ds IH]; intros seen r; simpl.
  { intros [= <-]. repeat split; try constructor. intros n Hn. by apply elem_of_nil in Hn. }
  destruct (sequence seen (seq d)) as [n|] eqn:E; [|done]. apply sequence_ok in E as [Hn Ev].
  destruct (sequence_all (n :: seen) ds) as [r'|] eqn:E'; [|done]. intros [= <-].
  destruct (IH _ _ E') as (H1 & H2 & H3 & H4). rewrite !fmap_cons. cbn [fst snd]. split; [by rewrite H1|]. split; [|split].
  - constructor; [|done]. intros Hin. apply (H3 _ Hin). left.
  - intros k [->|Hk]%elem_of_cons; [done|]. intros Hs. apply (H3 _ Hk). by right.
  - by constructor.
Qed.

(** The digests in sequence order, with distinct sequences. *)
Lemma ordered_ok digests numbered : sequence_all [] digests = Ok numbered →
  let ordered := (sort_by fst numbered).*2 in
  ordered ≡ₚ digests ∧ NoDup (seq <$> ordered)
  ∧ StronglySorted (λ d d', digits_value (sequence_text (seq d)) ≤ digits_value (sequence_text (seq d'))) ordered.
Proof.
  intros Hs. destruct (sequence_all_ok _ _ _ Hs) as (H1 & H2 & _ & H4). cbn zeta.
  assert (Forall (λ nd, nd.1 = digits_value (sequence_text (seq nd.2))) (sort_by fst numbered)) as Hv.
  { apply Forall_forall. intros nd Hnd. rewrite elem_of_sort_by in Hnd. rewrite Forall_forall in H4. by apply H4. }
  split; [by rewrite sort_by_perm, H1|]. split.
  - apply (NoDup_fmap_1 (λ s, digits_value (sequence_text s))). rewrite <-!list_fmap_compose.
    replace (_ <$> sort_by fst numbered) with (sort_by fst numbered).*1; [by rewrite sort_by_perm|].
    clear -Hv. induction Hv as [|nd l Hnd _ IH]; [done|]. rewrite !fmap_cons, IH. f_equal. by rewrite Hnd.
  - pose proof (sort_by_sorted fst numbered) as Hss. unfold sorted_by in Hss.
    induction Hss as [|nd l Hl IH Hall]; [constructor|]. apply Forall_cons in Hv as [Hnd Hv].
    rewrite fmap_cons. constructor; [by apply IH|]. apply Forall_fmap, Forall_forall. intros nd' Hin.
    rewrite Forall_forall in Hall, Hv. specialize (Hall _ Hin). specialize (Hv _ Hin). simpl. congruence.
Qed.

Section proofs.
Context `{JsText} `{Sha256}.

Lemma by_id_get messages id m : map_get id (by_id messages) = Some m → m ∈ messages ∧ vm_messageId m = id.
Proof.
  unfold by_id.
  assert (∀ l acc, (∀ id m, map_get id acc = Some m → m ∈ messages ∧ vm_messageId m = id) →
    (∀ x, x ∈ l → x ∈ messages) →
    map_get id (foldl (λ m x, map_set (vm_messageId x) x m) acc l) = Some m → m ∈ messages ∧ vm_messageId m = id) as Hg.
  { induction l as [|x l IH]; intros acc Hacc Hl; simpl; [apply Hacc|]. apply IH.
    - intros id' m'. rewrite map_get_set. case_decide; [intros [= <-]|apply Hacc]. split; [apply Hl; left|done].
    - intros y Hy. apply Hl. by right. }
  by apply Hg.
Qed.

(** What the first pass establishes for a pair of its map. *)
Definition exact_pair (room : jsstr) (messages : list VerifiableMessage) (l : list RoomMessageAnchor)
    (km : Sequence * VerifiableMessage) : Prop :=
  ∃ d, d ∈ l ∧ seq d = km.1 ∧ km.2 ∈ messages ∧ sameSender km.2 d = true
    ∧ ∃ p, parseAnchorUri (contentUri d) = Some p ∧ groupUuid p = room ∧ messageId p = vm_messageId km.2.

Lemma first_pass room messages l :
  NoDup (seq <$> l) →
  let '(matched, used) := foldl (match_pointer room (by_id messages)) ([], []) l in
  map_ok matched ∧ NoDup (vm_messageId <$> matched.*2) ∧ (∀ id, id ∈ used ↔ id ∈ vm_messageId <$> matched.*2)
  ∧ Forall (exact_pair room messages l) matched.
Proof.
  induction l as [|d l IH] using rev_ind; intros Hnd.
  { simpl. split; [apply map_ok_nil|]. split; [constructor|]. split; [done|constructor]. }
  rewrite fmap_app in Hnd. apply NoDup_app in Hnd as (Hnd & Hd & _). specialize (IH Hnd).
  rewrite foldl_app. simpl. destruct (foldl _ _ l) as [matched used]. destruct IH as (I1 & I2 & I3 & I4).
  assert (Forall (exact_pair room messages (l ++ [d])) matched) as I4'.
  { eapply Forall_impl; [exact I4|]. intros km (d' & Hin & Hrest). exists d'. split; [|done].
    apply elem_of_app. by left. }
  unfold match_pointer. destruct (parseAnchorUri (contentUri d)) as [p|] eqn:Ep; [|done].
  case_bool_decide as Hroom; [|done]. destruct (map_get (messageId p) (by_id messages)) as [m|] eqn:Em; [|done].
  apply by_id_get in Em as [Hm Hid]. destruct (_ && _) eqn:Ec; [|done]. bool_to_Z.
  assert (seq d ∉ matched.*1) as Hfresh.
  { intros Hin. apply list_elem_of_fmap in Hin as (km & Hk & Hkm). rewrite Forall_forall in I4.
    destruct (I4 _ Hkm) as (d' & Hd' & Hs & _). apply (Hd (seq d)); [|by apply list_elem_of_singleton].
    rewrite Hk, <-Hs. by apply list_elem_of_fmap_2. }
  split; [by apply map_set_ok|]. rewrite map_set_fresh by done. rewrite !fmap_app. simpl. split; [|split].
  - apply NoDup_app. split; [done|]. split; [|apply NoDup_singleton].
    intros id Hin ->%list_elem_of_singleton. by apply I3 in Hin.
  - intros id. rewrite elem_of_cons, elem_of_app, list_elem_of_singleton, I3. tauto.
  - apply Forall_app. split; [done|]. apply Forall_singleton. exists d. simpl.
    split; [apply elem_of_app; right; by apply list_elem_of_singleton|]. eauto 10.
Qed.

Lemma closest_some used d messages m delta : closest used d messages = Some (m, delta) →
  m ∈ messages ∧ (vm_messageId m ∉ used) ∧ sameSender m d = true
  ∧ delta = Z.abs (vm_createdAt m - createdAtMs d) ∧ delta ≤ DIGEST_MATCH_WINDOW_MS
  ∧ ∀ x, x ∈ messages → (vm_messageId x ∉ used) → sameSender x d = true →
      delta ≤ Z.abs (vm_createdAt x - createdAtMs d) ∨ DIGEST_MATCH_WINDOW_MS < Z.abs (vm_createdAt x - createdAtMs d).
Proof.
  unfold closest. revert m delta. induction messages as [|x l IH] using rev_ind; intros m delta; [done|].
  rewrite foldl_app. cbn [foldl]. destruct (foldl _ None l) as [[m0 d0]|] eqn:E0.
  - specialize (IH m0 d0 eq_refl). destruct IH as (A1 & A2 & A3 & A4 & A5 & A6).
    destruct (bool_decide _ || _) eqn:Ex; [|destruct (_ && _) eqn:Ed]; intros [= <- <-]; bool_to_Z.
    + split; [set_solver|]. split; [done|]. split; [done|]. split; [done|]. split; [done|].
      intros y [Hy|Hy]%elem_of_app; [by apply A6|]. apply list_elem_of_singleton in Hy as ->. intros Hu Hs.
      apply orb_prop in Ex as [Ex|Ex]; [by apply bool_decide_eq_true in Ex|by rewrite Hs in Ex].
    + split; [set_solver|]. split; [done|]. split; [done|]. split; [done|]. split; [lia|].
      intros y [Hy|Hy]%elem_of_app Hu Hs.
      * destruct (A6 y Hy Hu Hs); [left; lia|by right].
      * apply list_elem_of_singleton in Hy as ->. left. lia.
    + split; [set_solver|]. split; [done|]. split; [done|]. split; [done|]. split; [done|].
      intros y [Hy|Hy]%elem_of_app Hu Hs; [by apply A6|]. apply list_elem_of_singleton in Hy as ->.
      apply andb_false_iff in Ed as [Ed|Ed]; bool_to_Z; [by right|left; lia].
  - destruct (bool_decide _ || _) eqn:Ex; [done|]. destruct (_ && _) eqn:Ed; intros [= <- <-]; bool_to_Z.
    split; [set_solver|]. split; [done|]. split; [done|]. split; [done|]. split; [done|].
    intros y [Hy|Hy]%elem_of_app Hu Hs; [|apply list_elem_of_singleton in Hy as ->; left; lia].
    right. revert E0 Hy Hu Hs. clear. intros E0 Hy Hu Hs.
    destruct (decide (DIGEST_MATCH_WINDOW_MS < Z.abs (vm_createdAt y - createdAtMs d))); [done|exfalso].
    induction l as [|z l IH] using rev_ind; [by apply elem_of_nil in Hy|].
    rewrite foldl_app in E0. cbn [foldl] in E0. apply elem_of_app in Hy as [Hy|Hy].
    + apply IH; [|done]. destruct (foldl _ None l) as [[]|]; [|done].
      by repeat (case_match; simplify_eq/=).
    + apply list_elem_of_singleton in Hy as ->. rewrite bool_decide_false, Hs in E0 by done. simpl in E0.
      rewrite (proj2 (Z.leb_le _ _)) in E0 by lia.
      destruct (foldl _ None l) as [[]|]; by repeat (case_match; simplify_eq/=).
Qed.

Definition row_id (r : DigestVerificationRow) : option jsstr := matchedMessageId r.

(** The second pass: an id comes from the exact map or was not used before. *)
Lemma match_rows_ids room matched messages used ds :
  NoDup (seq <$> ds) → map_ok matched → NoDup (vm_messageId <$> matched.*2) →
  (∀ id, id ∈ vm_messageId <$> matched.*2 → id ∈ used) →
  let rows := match_rows room matched messages used ds in
  NoDup (omap row_id rows)
  ∧ ∀ id, id ∈ omap row_id rows →
      (∃ d m, d ∈ ds ∧ map_get (seq d) matched = Some m ∧ vm_messageId m = id) ∨ id ∉ used.
Proof.
  intros Hnd Hok Hids. revert used Hnd. induction ds as [|d ds IH]; intros used Hnd Hused.
  { simpl. split; [constructor|]. intros id Hid. by apply elem_of_nil in Hid. }
  rewrite fmap_cons in Hnd. inversion Hnd as [|? ? Hni Hnd']; subst.
  assert (∀ k m, map_get k matched = Some m → vm_messageId m ∈ vm_messageId <$> matched.*2) as Hin.
  { intros k m Hk. apply elem_of_map_get in Hk; [|done]. apply list_elem_of_fmap_2.
    by apply (list_elem_of_fmap_2 snd) in Hk. }
  assert (∀ k k' m m', map_get k matched = Some m → map_get k' matched = Some m' →
    vm_messageId m = vm_messageId m' → k = k') as Hinj.
  { intros k k' m m' Hk Hk' E. apply elem_of_map_get in Hk, Hk'; [|done..]. clear -Hids Hk Hk' E.
    induction matched as [|[k0 m0] l IHl]; [by apply elem_of_nil in Hk|].
    rewrite !fmap_cons in Hids. inversion Hids as [|? ? Hn Hids']; subst.
    assert (∀ k m, (k, m) ∈ l → vm_messageId m ∈ vm_messageId <$> l.*2) as Hl.
    { intros k1 m1 H1. apply list_elem_of_fmap_2. by apply (list_elem_of_fmap_2 snd) in H1. }
    apply elem_of_cons in Hk as [Hk|Hk], Hk' as [Hk'|Hk']; simplify_eq/=; [done| | |by apply IHl].
    - destruct Hn. rewrite E. by eapply Hl.
    - destruct Hn. rewrite <-E. by eapply Hl. }
  cbn [match_rows]. destruct (map_get (seq d) matched) as [m|] eqn:Em; [|destruct (_ && _); [destruct (closest used d messages) as [[m delta]|] eqn:Ec|]].
  - destruct (IH used Hnd' Hused) as [IH1 IH2]. cbn [omap list_omap row_id matchedMessageId verification_row fmap option_fmap option_map].
    split.
    + constructor; [|done]. intros Hm. destruct (IH2 _ Hm) as [(d' & m' & Hd' & Em' & Eid)|Hn].
      * apply Hni. rewrite (Hinj _ _ _ _ Em Em') by done. by apply list_elem_of_fmap_2.
      * apply Hn, Hused. by eapply Hin.
    + intros id [->|Hid]%elem_of_cons; [left; exists d, m; split; [left|done]|].
      destruct (IH2 _ Hid) as [(d' & m' & Hd' & ?)|?]; [|by right]. left. exists d', m'. split; [by right|done].
  - apply closest_some in Ec as (_ & Hnu & _).
    destruct (IH (vm_messageId m :: used) Hnd') as [IH1 IH2]; [intros id ?; right; by apply Hused|].
    cbn [omap list_omap row_id matchedMessageId verification_row fmap option_fmap option_map]. split.
    + constructor; [|done]. intros Hm. destruct (IH2 _ Hm) as [(d' & m' & Hd' & Em' & Eid)|Hn].
      * apply Hnu. rewrite <-Eid. apply Hused. by eapply Hin.
      * apply Hn. left.
    + intros id [->|Hid]%elem_of_cons; [by right|].
      destruct (IH2 _ Hid) as [(d' & m' & Hd' & ?)|Hn]; [left; exists d', m'; split; [by right|done]|].
      right. intros ?. apply Hn. by right.
  - destruct (IH used Hnd' Hused) as [IH1 IH2]. cbn [omap list_omap row_id matchedMessageId verification_row fmap option_fmap option_map].
    split; [done|]. intros id Hid. destruct (IH2 _ Hid) as [(d' & m' & Hd' & ?)|?]; [|by right].
    left. exists d', m'. split; [by right|done].
  - destruct (IH used Hnd' Hused) as [IH1 IH2]. cbn [omap list_omap row_id matchedMessageId verification_row fmap option_fmap option_map].
    split; [done|]. intros id Hid. destruct (IH2 _ Hid) as [(d' & m' & Hd' & ?)|?]; [|by right].
    left. exists d', m'. split; [by right|done].
Qed.

(** How a row was matched. *)
Definition row_sound (room : jsstr) (messages : list VerifiableMessage) (r : DigestVerificationRow) : Prop :=
  let d := row_anchor r in
  (matchedMessageId r = None ∧ senderVerified r = None ∧ contentVerified r = None)
  ∨ ∃ m, m ∈ messages ∧ sameSender m d = true ∧ r = verification_row room d (Some m)
      ∧ match parseAnchorUri (contentUri d) with
        | Some p => groupUuid p = room ∧ messageId p = vm_messageId m
        | None => Z.abs (vm_createdAt m - createdAtMs d) ≤ DIGEST_MATCH_WINDOW_MS
        end.

Lemma match_rows_sound room matched messages used ds l :
  NoDup (seq <$> l) → (∀ d, d ∈ ds → d ∈ l) → map_ok matched → Forall (exact_pair room messages l) matched →
  let rows := match_rows room matched messages used ds in
  row_anchor <$> rows = ds ∧ Forall (row_sound room messages) rows.
Proof.
  intros Hnd Hsub Hok Hex. revert used Hsub. induction ds as [|d ds IH]; intros used Hsub; [by split; [|constructor]|].
  assert (∀ used, row_anchor <$> match_rows room matched messages used ds = ds
    ∧ Forall (row_sound room messages) (match_rows room matched messages used ds)) as IH'.
  { intros u. apply IH. intros d' ?. apply Hsub. by right. }
  assert (row_sound room messages (verification_row room d None)) as Hnone by (left; done).
  cbn [match_rows]. destruct (map_get (seq d) matched) as [m|] eqn:Em.
  - destruct (IH' used) as [E1 E2]. rewrite fmap_cons, E1. split; [done|]. constructor; [|done].
    apply elem_of_map_get in Em; [|done]. rewrite Forall_forall in Hex.
    destruct (Hex _ Em) as (d' & Hd' & Hs & Hm & Hsame & p & Hp & Hg & Hi). simpl in *.
    assert (d' = d) as ->.
    { assert (d ∈ l) as Hd by (apply Hsub; left). clear -Hnd Hd Hd' Hs.
      apply list_elem_of_lookup in Hd as [i Hi], Hd' as [j Hj].
      assert (i = j) as ->; [|congruence].
      apply (NoDup_lookup (seq <$> l) i j (seq d)); [done|by rewrite list_lookup_fmap, Hi|by rewrite list_lookup_fmap, Hj; simpl; rewrite Hs]. }
    right. exists m. split; [done|]. split; [done|]. split; [done|]. cbn [row_anchor verification_row]. by rewrite Hp.
  - destruct (negb (bool_decide _) && _) eqn:Eg; [destruct (closest used d messages) as [[m delta]|] eqn:Ec|].
    + destruct (IH' (vm_messageId m :: used)) as [E1 E2]. rewrite fmap_cons, E1. split; [done|]. constructor; [|done].
      apply closest_some in Ec as (Hm & _ & Hsame & Ed & Hw & _).
      right. exists m. split; [done|]. split; [done|]. split; [done|]. cbn [row_anchor verification_row].
      destruct (parseAnchorUri (contentUri d)); [done|]. by rewrite <-Ed.
    + destruct (IH' used) as [E1 E2]. rewrite fmap_cons, E1. split; [done|]. by constructor.
    + destruct (IH' used) as [E1 E2]. rewrite fmap_cons, E1. split; [done|]. by constructor.
Qed.

(** Evidence matching.  On success there is one row per digest, in
    sequence order; no message is used for two digests; a matched row names a loaded message of the
    digest's sender, the one its pointer names when it has a pointer (in this room), otherwise one sent
    within 30 seconds; and an unmatched digest is never reported as verified. *)
Lemma match_sound digests messages room rows :
  matchDigestsToMessages digests messages room = Ok rows →
  (row_anchor <$> rows) ≡ₚ digests
  ∧ StronglySorted (λ r r', digits_value (sequence_text (seq (row_anchor r)))
                            ≤ digits_value (sequence_text (seq (row_anchor r')))) rows
  ∧ NoDup (omap matchedMessageId rows)
  ∧ Forall (row_sound room messages) rows.
Proof.
  unfold matchDigestsToMessages. destruct (anchorUri _ _); [|done].
  destruct (sequence_all [] digests) as [numbered|] eqn:Es; [|done].
  destruct (ordered_ok _ _ Es) as (Hperm & Hnd & Hsort). cbn zeta in *.
  set (ordered := (sort_by fst numbered).*2) in *.
  pose proof (first_pass room messages ordered Hnd) as Hfp.
  destruct (foldl _ _ ordered) as [matched used]. destruct Hfp as (F1 & F2 & F3 & F4). intros [= <-].
  destruct (match_rows_sound room matched messages used ordered ordered Hnd (λ _ h, h) F1 F4) as [E1 E2].
  destruct (match_rows_ids room matched messages used ordered Hnd F1 F2) as [N1 _]; [intros id; apply F3|].
  rewrite E1. split; [done|]. split; [|by split].
  rewrite <-E1 in Hsort. clear -Hsort. set (rs := match_rows _ _ _ _ _) in *. clearbody rs.
  induction rs as [|r rs IH]; [constructor|]. rewrite fmap_cons in Hsort.
  inversion Hsort as [|? ? Hs Hf]; subst. constructor; [by apply IH|].
  apply Forall_forall. intros r' Hr'. rewrite Forall_forall in Hf. apply (Hf (row_anchor r')). by apply list_elem_of_fmap_2.
Qed.

(** What a verified row proves: when the content check is true, the
    on-chain digest is the digest of the matched message's text under the pointer's scheme, for a
    message of the digest's sender in this room; when the sender check is true that message's signature had verified. *)
Lemma verified_row_meaning digests messages room rows r :
  matchDigestsToMessages digests messages room = Ok rows → r ∈ rows →
  let d := row_anchor r in
  (contentVerified r = Some true → ∃ m text, m ∈ messages ∧ sameSender m d = true
     ∧ matchedMessageId r = Some (vm_messageId m) ∧ vm_text m = Some text
     ∧ toLowerCase (contentDigest d)
       = expectedDigestHex text (default {| ap_version := V1; groupUuid := []; messageId := [] |} (parseAnchorUri (contentUri d)))
     ∧ ∀ p, parseAnchorUri (contentUri d) = Some p → groupUuid p = room ∧ messageId p = vm_messageId m)
  ∧ (senderVerified r = Some true → ∃ m, m ∈ messages ∧ sameSender m d = true
       ∧ matchedMessageId r = Some (vm_messageId m) ∧ vm_senderVerified m = true).
Proof.
  intros Hm Hr d.
  assert (row_sound room messages r) as [(_ & E1 & E2)|(m & Hin & Hs & Er & Hp)].
  { unfold matchDigestsToMessages in Hm. destruct (anchorUri _ _); [|done].
    destruct (sequence_all [] digests) as [numbered|] eqn:Es; [|done].
    destruct (ordered_ok _ _ Es) as (_ & Hnd & _). cbn zeta in *.
    pose proof (first_pass room messages _ Hnd) as Hfp.
    destruct (foldl _ _ _) as [matched used]. destruct Hfp as (F1 & _ & _ & F4). injection Hm as <-.
    destruct (match_rows_sound room matched messages used _ _ Hnd (λ _ h, h) F1 F4) as [_ E2].
    rewrite Forall_forall in E2. by apply E2. }
  { split; congruence. }
  fold d in Hp, Er, Hs. split.
  - intros Hc. rewrite Er in Hc. cbn [contentVerified verification_row mbind option_bind] in Hc.
    destruct (vm_text m) as [text|] eqn:Et; [|done]. exists m, text. split; [done|]. split; [done|].
    split; [by rewrite Er|]. split; [done|].
    destruct (parseAnchorUri (contentUri d)) as [p|] eqn:Ep.
    + destruct Hp as [Hg Hi]. rewrite bool_decide_true in Hc by done. injection Hc as Hc. bool_to_Z.
      split; [done|]. by intros ? [= <-].
    + injection Hc as Hc. bool_to_Z. by split.
  - intros Hv. rewrite Er in Hv. cbn [senderVerified verification_row fmap option_fmap option_map] in Hv.
    exists m. split; [done|]. split; [done|]. split; [by rewrite Er|]. congruence.
Qed.
End proofs.

(** The summary partitions the rows: matched and unmatched add up to the
    total, verified, failed and unchecked to the matched ones, and the verified count is the number of
    matched rows whose two checks are both true. *)
Lemma summary_partition rows :
  let s := summarizeVerification rows in
  total s = length rows ∧ (vs_matched s + unmatched s = total s)%nat
  ∧ (verified s + failed s + unchecked s = vs_matched s)%nat
  ∧ verified s = length (filter (λ r, is_Some (matchedMessageId r)
      ∧ senderVerified r = Some true ∧ contentVerified r = Some true) rows).
Proof.
  unfold summarizeVerification. cbn zeta.
  assert (let '(m, v, f, u) := foldl summarize_row (0, 0, 0, 0)%nat rows in
    (m ≤ length rows ∧ v + f + u = m
    ∧ v = length (filter (λ r, is_Some (matchedMessageId r)
      ∧ senderVerified r = Some true ∧ contentVerified r = Some true) rows))%nat) as Hinv.
  { induction rows as [|r rows IH] using rev_ind; [done|]. rewrite foldl_app, filter_app, !length_app. cbn [foldl].
    destruct (foldl summarize_row _ rows) as [[[m v] f] u]. destruct IH as (I1 & I2 & I3).
    unfold summarize_row. destruct (matchedMessageId r) as [id|] eqn:Em.
    - destruct (senderVerified r) as [[]|] eqn:E1, (contentVerified r) as [[]|] eqn:E2; simpl;
        first [rewrite filter_cons_True by (rewrite Em, E1, E2; split; [eauto|done])
              | rewrite filter_cons_False by (rewrite E1, E2; naive_solver)]; simpl; lia.
    - rewrite filter_cons_False by (rewrite Em; intros [[] _]; done). simpl. lia. }
  destruct (foldl summarize_row _ rows) as [[[m v] f] u]. simpl. lia.
Qed.

(** * Witnesses *)

Definition sample_anchor : RoomMessageAnchor := {|
  seq := SeqNumber (Int 3); sender := js "0xA"; contentDigest := hexOf (utf8_encode (js "hi"));
  contentUri := js "https://elsewhere"; createdAtMs := 1000; transactionId := js "t" |}.
Definition sample_message : VerifiableMessage := {|
  vm_messageId := js "m1"; vm_senderAddress := js "0xa"; vm_createdAt := 1200;
  vm_senderVerified := true; vm_text := Some (js "hi") |}.
Definition identity_hash : Sha256 := {| sha256 b := b |}.

Lemma sample_match : ∃ r,
  @matchDigestsToMessages ascii_text identity_hash [sample_anchor] [sample_message] (js "room") = Ok [r]
  ∧ matchedMessageId r = Some (js "m1") ∧ contentVerified r = Some true.
Proof. eexists. split; [vm_compute; reflexivity|]. split; reflexivity. Qed.

Lemma match_sound_witness : ∃ r, NoDup (omap matchedMessageId [r]) ∧ matchedMessageId r = Some (js "m1").
Proof.
  destruct sample_match as (r & E & Hid & _). exists r. split; [|exact Hid].
  exact (proj1 (proj2 (proj2 (@match_sound ascii_text identity_hash _ _ _ _ E)))).
Defined.

Lemma verified_row_meaning_witness : ∃ r m, matchedMessageId r = Some (vm_messageId m) ∧ m ∈ [sample_message].
Proof.
  destruct sample_match as (r & E & _ & Hc). exists r.
  destruct (proj1 (@verified_row_meaning ascii_text identity_hash _ _ _ _ r E (list_elem_of_here r [])) Hc)
    as (m & text & Hin & _ & Hid & _).
  exists m. split; [exact Hid|exact Hin].
Defined.
