(* ===== verification/Payments.v ===== *)
(** Chat payments: the encrypted payment bodies ([payments.ts]), MYSO amounts
    ([coin.ts]) and emoji keys ([emoji.ts]). *)
From S2P Require Import Prelude JsString Utf8 Json.

(** * Payment bodies *)

Inductive PaymentAssetKind := native | spt.

Record PaymentAssetRef := {
  asset_kind : PaymentAssetKind; asset_id : jsstr; asset_symbol : jsstr;
  asset_name : option jsstr; asset_decimals : number; asset_iconUrl : option jsstr;
}.

(** A transfer carries [to]; a request does not. *)
Inductive PaymentPayload :=
  | TokenTransfer (amount : jsstr) (asset : PaymentAssetRef) (to : jsstr) (note : option jsstr)
  | PaymentRequest (amount : jsstr) (asset : PaymentAssetRef) (description : option jsstr).

#[global] Instance PaymentAssetKind_eq_dec : EqDecision PaymentAssetKind.
Proof. solve_decision. Defined.
#[global] Instance PaymentAssetRef_eq_dec : EqDecision PaymentAssetRef.
Proof. solve_decision. Defined.
#[global] Instance PaymentPayload_eq_dec : EqDecision PaymentPayload.
Proof. solve_decision. Defined.

Definition isTokenTransferPayload (p : PaymentPayload) : bool :=
  match p with TokenTransfer _ _ _ _ => true | _ => false end.

Definition isPaymentRequestPayload (p : PaymentPayload) : bool := negb (isTokenTransferPayload p).

Definition paymentPayloadNote (p : PaymentPayload) : option jsstr :=
  match p with TokenTransfer _ _ _ note => note | PaymentRequest _ _ description => description end.

Definition asset_kind_name (k : PaymentAssetKind) : jsstr :=
  match k with native => js "native" | spt => js "spt" end.

Definition parseAssetKind (raw : option json) : option PaymentAssetKind :=
  match raw with
  | Some (JStr s) => if decide (s = js "native") then Some native
                     else if decide (s = js "spt") then Some spt else None
  | _ => None
  end.

Definition json_string (raw : option json) : option jsstr :=
  match raw with Some (JStr s) => Some s | _ => None end.

(** [isAssetRef], with the reference it narrows to. *)
Definition isAssetRef (raw : option json) : option PaymentAssetRef :=
  match raw with
  | Some a =>
      match parseAssetKind (obj_get a (js "kind")), json_string (obj_get a (js "id")),
            json_string (obj_get a (js "symbol")), obj_get a (js "decimals") with
      | Some k, Some id, Some symbol, Some (JNum decimals) =>
          Some {| asset_kind := k; asset_id := id; asset_symbol := symbol;
                  asset_name := json_string (obj_get a (js "name")); asset_decimals := decimals;
                  asset_iconUrl := json_string (obj_get a (js "iconUrl")) |}
      | _, _, _, _ => None
      end
  | None => None
  end.

(** Digits only, and not the single zero. *)
Definition isBaseUnitAmount (s : jsstr) : bool :=
  (0 <? length s)%nat && all_digits s && negb (bool_decide (s = [48])).

Definition opt_str (k : string) (o : option jsstr) : list (jsstr * json) :=
  match o with Some s => [(js k, JStr s)] | None => [] end.

Definition asset_json (a : PaymentAssetRef) : json :=
  JObj ([(js "kind", JStr (asset_kind_name (asset_kind a))); (js "id", JStr (asset_id a));
         (js "symbol", JStr (asset_symbol a))]
        ++ opt_str "name" (asset_name a)
        ++ [(js "decimals", JNum (asset_decimals a))]
        ++ opt_str "iconUrl" (asset_iconUrl a)).

Definition payload_json (p : PaymentPayload) : json :=
  match p with
  | TokenTransfer amount asset to note =>
      JObj ([(js "v", JNum (Int 1)); (js "amount", JStr amount); (js "asset", asset_json asset);
             (js "to", JStr to)] ++ opt_str "note" note)
  | PaymentRequest amount asset description =>
      JObj ([(js "v", JNum (Int 1)); (js "amount", JStr amount); (js "asset", asset_json asset)]
            ++ opt_str "description" description)
  end.

Inductive payment_error := BadAmount | MissingRecipient.

Inductive payment_kind := token_transfer | request_payment | other_kind.

Section payloads.
Context `{JsonNumbers}.

(** The asset of a typed payload passes [isAssetRef] by its type. *)
Definition encodeTokenTransferPayload (amount : jsstr) (asset : PaymentAssetRef) (to : jsstr) (note : option jsstr)
    : outcome payment_error jsstr :=
  if negb (isBaseUnitAmount amount) then Throw BadAmount
  else match to with
       | [] => Throw MissingRecipient
       | _ => Ok (stringify (payload_json (TokenTransfer amount asset to note)))
       end.

Definition encodePaymentRequestPayload (amount : jsstr) (asset : PaymentAssetRef) (description : option jsstr)
    : outcome payment_error jsstr :=
  if negb (isBaseUnitAmount amount) then Throw BadAmount
  else Ok (stringify (payload_json (PaymentRequest amount asset description))).

(** The checks on a parsed body. *)
Definition payload_of_json (kind : payment_kind) (p : json) : option PaymentPayload :=
  if negb match obj_get p (js "v") with Some (JNum n) => bool_decide (n = Int 1) | _ => false end then None else
  match json_string (obj_get p (js "amount")), isAssetRef (obj_get p (js "asset")) with
  | Some amount, Some asset =>
      if negb (isBaseUnitAmount amount) then None else
      match kind with
      | token_transfer =>
          match json_string (obj_get p (js "to")) with
          | Some (c :: to) => Some (TokenTransfer amount asset (c :: to) (json_string (obj_get p (js "note"))))
          | _ => None
          end
      | _ => Some (PaymentRequest amount asset (json_string (obj_get p (js "description"))))
      end
  | _, _ => None
  end.

Definition parsePaymentPayload (kind : payment_kind) (text : jsstr) : option PaymentPayload :=
  match kind with
  | other_kind => None
  | _ => raw ← json_parse text;
         match raw with
         | JObj _ => payload_of_json kind raw
         | _ => None
         end
  end.
End payloads.

(** * Amounts *)

Definition MIST_PER_MYSO : Z := 10 ^ 9.

Inductive coin_error := NegativeAmount | InvalidAmount | TooManyDecimals.

Definition mistToMyso (mist : Z) : outcome coin_error jsstr :=
  if mist <? 0 then Throw NegativeAmount else
  let whole := mist / MIST_PER_MYSO in
  let frac := mist mod MIST_PER_MYSO in
  if frac =? 0 then Ok (dec whole)
  else Ok (dec whole ++ [46] ++ strip_trailing 48 (padStart 9 48 (dec frac))).

(** Digits, a point and optional digits, or a point and digits. *)
Definition valid_amount (s : jsstr) : bool :=
  match split_on 46 s with
  | [w] => (0 <? length w)%nat && all_digits w
  | [w; f] => all_digits w && all_digits f && ((0 <? length w)%nat || (0 <? length f)%nat)
  | _ => false
  end.

Definition mysoToMist (myso : jsstr) : outcome coin_error Z :=
  let trimmed := trim myso in
  if negb (valid_amount trimmed) then Throw InvalidAmount else
  let parts := split_on 46 trimmed in
  let wholeRaw := nth 0 parts [] in
  let fracRaw := nth 1 parts [] in
  if (9 <? length fracRaw)%nat then Throw TooManyDecimals
  else Ok (digits_value wholeRaw * MIST_PER_MYSO + digits_value (padEnd 9 48 fracRaw)).

(** * Emoji *)

Definition emojiToStorage `{JsText} (emoji : jsstr) : option jsstr :=
  match normalizeNFC emoji with [] => None | e => Some e end.

Definition storageToEmoji (emoji : jsstr) : jsstr := emoji.

(** * Lemmas on amounts *)

Lemma digits_no_dot s : all_digits s = true → 46 ∉ s.
Proof. intros Hs Hin. apply (Forall_forallb (λ c, 48 ≤ c ≤ 57)) in Hs; [|apply is_digit_spec].
  rewrite Forall_forall in Hs. specialize (Hs _ Hin). lia. Qed.

Lemma digits_value_app s t : digits_value (s ++ t) = digits_value s * 10 ^ Z.of_nat (length t) + digits_value t.
Proof.
  induction t as [|c t IH] using rev_ind; [rewrite app_nil_r; unfold digits_value at 3; simpl; lia|].
  rewrite app_assoc, !digits_value_snoc, IH, length_app. simpl length.
  rewrite Nat2Z.inj_add, Z.pow_add_r by lia. change (10 ^ Z.of_nat 1) with 10. ring.
Qed.

Lemma digits_value_zeros k : digits_value (replicate k 48) = 0.
Proof.
  induction k as [|k IH]; [done|]. change (replicate (S k) 48) with ([48] ++ replicate k 48).
  rewrite digits_value_app, IH. done.
Qed.

Lemma all_digits_app s t : all_digits (s ++ t) = all_digits s && all_digits t.
Proof. unfold all_digits. by rewrite forallb_app. Qed.

Lemma all_digits_zeros k : all_digits (replicate k 48) = true.
Proof. by induction k. Qed.

Lemma strip_trailing_split c s : ∃ k, s = strip_trailing c s ++ replicate k c.
Proof.
  unfold strip_trailing. set (go := fix go (l : jsstr) := match l with [] => [] | a :: l' => if a =? c then go l' else l end).
  assert (∀ l, ∃ k, l = replicate k c ++ go l) as Hgo.
  { induction l as [|a l [k Hk]]; [by exists 0%nat|]. simpl. destruct (a =? c) eqn:E.
    - apply Z.eqb_eq in E as ->. exists (S k). simpl. by rewrite Hk at 1.
    - by exists 0%nat. }
  destruct (Hgo (reverse s)) as [k Hk]. exists k. apply (inj reverse).
  rewrite reverse_app, reverse_involutive, reverse_replicate. done.
Qed.

Lemma strip_trailing_last c s : strip_trailing c s = [] ∨ last (strip_trailing c s) ≠ Some c.
Proof.
  unfold strip_trailing. set (go := fix go (l : jsstr) := match l with [] => [] | a :: l' => if a =? c then go l' else l end).
  assert (∀ l, go l = [] ∨ head (go l) ≠ Some c) as Hgo.
  { induction l as [|a l IH]; [by left|]. simpl. destruct (a =? c) eqn:E; [done|]. right. simpl.
    apply Z.eqb_neq in E. congruence. }
  destruct (Hgo (reverse s)) as [->|H]; [by left|]. right. by rewrite last_reverse.
Qed.

Lemma dec_length_bound n k : 0 ≤ n < 10 ^ Z.of_nat k → (0 < k)%nat → (length (dec n) ≤ k)%nat.
Proof.
  intros Hn Hk. unfold dec. generalize (S (Z.to_nat (Z.log2 n))). intros f. revert n k Hn Hk.
  induction f as [|f IH]; intros n k Hn Hk; simpl; [lia|]. rewrite length_app. simpl.
  destruct (n <? 10) eqn:E; [simpl; lia|]. bool_to_Z. destruct k as [|[|k]]; [lia|simpl in Hn; lia|].
  assert (length (dec_digits f (n / 10)) ≤ S k)%nat; [|lia]. apply IH; [|lia].
  rewrite Nat2Z.inj_succ, Z.pow_succ_r in Hn by lia.
  split; [apply Z.div_pos; lia|apply Z.div_lt_upper_bound; lia].
Qed.

(** The reading of a numeral with a fraction of at most nine digits. *)
Lemma mysoToMist_digits w f : all_digits w = true → all_digits f = true → (0 < length w)%nat → (length f ≤ 9)%nat →
  mysoToMist w = Ok (digits_value w * MIST_PER_MYSO)
  ∧ mysoToMist (w ++ 46 :: f) = Ok (digits_value w * MIST_PER_MYSO + digits_value f * 10 ^ (9 - Z.of_nat (length f))).
Proof.
  intros Hw Hf Hlw Hlf.
  assert (trim w = w) as Tw by (by apply trim_id, digits_not_space).
  assert (trim (w ++ 46 :: f) = w ++ 46 :: f) as Tf.
  { apply trim_id, Forall_app. split; [by apply digits_not_space|]. constructor; [done|by apply digits_not_space]. }
  unfold mysoToMist, valid_amount. rewrite Tw, Tf.
  rewrite (split_on_none 46 w), (split_on_one 46 w f) by (by apply digits_no_dot).
  rewrite Hw, Hf, (proj2 (Nat.ltb_lt _ _)) by done. cbn [andb negb orb nth].
  split.
  - cbn [length Nat.ltb Nat.leb]. f_equal. change (padEnd 9 48 []) with (replicate 9 48).
    rewrite digits_value_zeros. lia.
  - rewrite (proj2 (Nat.ltb_ge 9 (length f))) by lia.
    unfold padEnd. rewrite digits_value_app, digits_value_zeros, length_replicate, Nat2Z.inj_sub by done.
    f_equal. change (Z.of_nat 9) with 9. lia.
Qed.

(** Amounts: every non-negative MIST amount is printed as a MYSO decimal
    without trailing fractional zeros that parses back to the same amount, a negative amount is
    refused, and no accepted text yields a negative amount. *)
Lemma amount_roundtrip mist :
  (0 ≤ mist → ∃ s, mistToMyso mist = Ok s ∧ mysoToMist s = Ok mist)
  ∧ (mist < 0 → mistToMyso mist = Throw NegativeAmount)
  ∧ (∀ s n, mysoToMist s = Ok n → 0 ≤ n).
Proof.
  split; [|split].
  - intros Hm. unfold mistToMyso. rewrite (proj2 (Z.ltb_ge _ _)) by done.
    set (whole := mist / MIST_PER_MYSO). set (frac := mist mod MIST_PER_MYSO).
    assert (0 ≤ whole) as Hw by (apply Z.div_pos; done).
    assert (0 ≤ frac < 10 ^ 9) as Hf by (by apply Z.mod_pos_bound).
    assert (mist = whole * MIST_PER_MYSO + frac) as Em.
    { unfold whole, frac. rewrite Z.mul_comm. by apply Z.div_mod. }
    assert (0 < length (dec whole))%nat as Hl.
    { pose proof (dec_nonempty whole). destruct (dec whole); [done|simpl; lia]. }
    destruct (frac =? 0) eqn:E; bool_to_Z.
    + eexists. split; [done|]. destruct (mysoToMist_digits (dec whole) []) as [-> _]; try done.
      { by apply dec_all_digits. } { simpl. lia. }
      rewrite dec_value by done. f_equal. lia.
    + set (padded := padStart 9 48 (dec frac)). set (f := strip_trailing 48 padded).
      assert (length (dec frac) ≤ 9)%nat as Hd by (apply dec_length_bound; [done|lia]).
      assert (length padded = 9%nat) as Hp by (unfold padded, padStart; rewrite length_app, length_replicate; lia).
      assert (digits_value padded = frac) as Hv.
      { unfold padded, padStart. rewrite digits_value_app, digits_value_zeros, dec_value by lia. lia. }
      assert (all_digits padded = true) as Ha.
      { unfold padded, padStart. rewrite all_digits_app, all_digits_zeros, dec_all_digits by lia. done. }
      destruct (strip_trailing_split 48 padded) as [k Hk]. fold f in Hk.
      eexists. split; [done|]. change ([46] ++ f) with (46 :: f).
      rewrite Hk in Hp, Hv, Ha. rewrite all_digits_app in Ha. apply andb_prop in Ha as [Ha _].
      rewrite length_app, length_replicate in Hp.
      destruct (mysoToMist_digits (dec whole) f) as [_ ->]; [by apply dec_all_digits|done|done|lia|].
      rewrite dec_value by done. f_equal. rewrite Em. f_equal. rewrite <-Hv.
      rewrite digits_value_app, digits_value_zeros, length_replicate, Z.add_0_r. do 2 f_equal. lia.
  - intros Hm. unfold mistToMyso. by rewrite (proj2 (Z.ltb_lt _ _)).
  - intros s n. unfold mysoToMist. destruct (negb _) eqn:E; [done|]. destruct (_ <? _)%nat; [done|]. bool_to_Z.
    intros [= <-]. unfold valid_amount in E.
    assert (∀ t, all_digits t = true → 0 ≤ digits_value t) as Hnn by apply digits_value_nonneg.
    assert (∀ t, all_digits t = true → 0 ≤ digits_value (padEnd 9 48 t)) as Hpe.
    { intros t Ht. apply Hnn. unfold padEnd. by rewrite all_digits_app, Ht, all_digits_zeros. }
    destruct (split_on 46 (trim s)) as [|w [|f [|? ?]]]; try done; bool_to_Z; cbn [nth].
    + specialize (Hnn w ltac:(done)). specialize (Hpe [] eq_refl). unfold MIST_PER_MYSO. lia.
    + specialize (Hnn w ltac:(done)). specialize (Hpe f ltac:(done)). unfold MIST_PER_MYSO. lia.
Qed.

Lemma amount_roundtrip_witness : ∃ s, mistToMyso 10500000000 = Ok s ∧ mysoToMist s = Ok 10500000000.
Proof. exact (proj1 (amount_roundtrip 10500000000) ltac:(lia)). Defined.

Example amount_printed : mistToMyso 10500000000 = Ok (js "10.5") ∧ mysoToMist (js " .5 ") = Ok 500000000.
Proof. split; by vm_compute. Qed.

(** A white-space reaction is stored, although the documentation of
    [emojiToStorage] says it throws. *)
Example emoji_whitespace : @emojiToStorage ascii_text (js " ") = Some (js " ").
Proof. reflexivity. Qed.

(** * Payload round trip *)

Section payload_lemmas.
Context `{JsonNumbersLaws}.

Definition opt_wf (o : option jsstr) : Prop := from_option (λ s, wf_str s) True o.

Definition asset_ok (a : PaymentAssetRef) : Prop :=
  wf_str (asset_id a) ∧ wf_str (asset_symbol a) ∧ opt_wf (asset_name a)
  ∧ num_stable (asset_decimals a) = true ∧ opt_wf (asset_iconUrl a).

Definition payload_ok (p : PaymentPayload) : Prop :=
  match p with
  | TokenTransfer amount asset to note => wf_str amount ∧ asset_ok asset ∧ wf_str to ∧ opt_wf note
  | PaymentRequest amount asset description => wf_str amount ∧ asset_ok asset ∧ opt_wf description
  end.

Lemma field_ok k v : json_ok v → wf_str (js k, v).1 ∧ json_ok (js k, v).2.
Proof. intros. split; [apply wf_js|done]. Qed.

Lemma opt_str_ok k o : opt_wf o → Forall (λ kv : jsstr * json, wf_str kv.1 ∧ json_ok kv.2) (opt_str k o).
Proof. destruct o; intros Ho; [|constructor]. constructor; [by apply field_ok|constructor]. Qed.

Ltac fields_ok :=
  repeat lazymatch goal with |- Forall _ ((_, _) :: _) => apply Forall_cons_2; [apply field_ok|] end.

Lemma asset_json_ok a : asset_ok a → json_ok (asset_json a).
Proof.
  intros (Hi & Hs & Hn & Hd & Hu). apply json_ok_obj.
  repeat (apply Forall_app; split); try (by apply opt_str_ok).
  - fields_ok; [|done..|constructor]. destruct (asset_kind a); apply wf_js.
  - apply Forall_cons_2; [by apply field_ok|constructor].
Qed.

Lemma payload_json_ok p : payload_ok p → json_ok (payload_json p).
Proof.
  assert (json_ok (JNum (Int 1))) as H1 by (apply num_stable_int; lia).
  destruct p as [amount asset to note|amount asset description]; simpl payload_ok.
  - intros (Ha & Has & Ht & Hn). apply json_ok_obj, Forall_app. split; [|by apply opt_str_ok].
    fields_ok; try done. by apply asset_json_ok.
  - intros (Ha & Has & Hn). apply json_ok_obj, Forall_app. split; [|by apply opt_str_ok].
    fields_ok; try done. by apply asset_json_ok.
Qed.

Lemma isAssetRef_json a : isAssetRef (Some (asset_json a)) = Some a.
Proof. destruct a as [[] id sym [n|] d [u|]]; reflexivity. Qed.

Lemma payload_fields p :
  obj_get (payload_json p) (js "v") = Some (JNum (Int 1))
  ∧ json_string (obj_get (payload_json p) (js "amount"))
    = Some match p with TokenTransfer a _ _ _ | PaymentRequest a _ _ => a end
  ∧ obj_get (payload_json p) (js "asset")
    = Some (asset_json match p with TokenTransfer _ a _ _ | PaymentRequest _ a _ => a end)
  ∧ match p with
    | TokenTransfer _ _ to note => json_string (obj_get (payload_json p) (js "to")) = Some to
        ∧ json_string (obj_get (payload_json p) (js "note")) = note
    | PaymentRequest _ _ d => json_string (obj_get (payload_json p) (js "description")) = d
    end.
Proof. destruct p as [a asset to [n|]|a asset [d|]]; repeat split; reflexivity. Qed.

(** Payment bodies: what the encoders accept has a base-unit amount (and
    a recipient for a transfer) and parses back under its kind to the same payload; other message
    kinds never yield a payment. *)
Lemma payment_roundtrip amount asset to note s :
  wf_str amount → asset_ok asset → wf_str to → opt_wf note →
  (encodeTokenTransferPayload amount asset to note = Ok s →
     isBaseUnitAmount amount = true ∧ to ≠ []
     ∧ parsePaymentPayload token_transfer s = Some (TokenTransfer amount asset to note))
  ∧ (encodePaymentRequestPayload amount asset note = Ok s →
     isBaseUnitAmount amount = true
     ∧ parsePaymentPayload request_payment s = Some (PaymentRequest amount asset note))
  ∧ parsePaymentPayload other_kind s = None.
Proof.
  intros Ha Has Ht Hn. unfold encodeTokenTransferPayload, encodePaymentRequestPayload.
  split; [|split; [|done]]; (destruct (isBaseUnitAmount amount) eqn:Eb; [|done]); cbn [negb].
  - destruct to as [|c to]; [done|]. intros Es.
    assert (stringify (payload_json (TokenTransfer amount asset (c :: to) note)) = s) as <- by congruence.
    clear Es. split; [done|]. split; [done|]. unfold parsePaymentPayload.
    rewrite json_parse_stringify by (by apply payload_json_ok). cbn [mbind option_bind].
    destruct (payload_fields (TokenTransfer amount asset (c :: to) note)) as (E1 & E2 & E3 & E4 & E5).
    change (match payload_json (TokenTransfer amount asset (c :: to) note) with
            | JObj _ => payload_of_json token_transfer (payload_json (TokenTransfer amount asset (c :: to) note))
            | _ => None end)
      with (payload_of_json token_transfer (payload_json (TokenTransfer amount asset (c :: to) note))).
    unfold payload_of_json. rewrite E1, E2, E3, E4, E5, isAssetRef_json, Eb, bool_decide_true by done. done.
  - intros Es.
    assert (stringify (payload_json (PaymentRequest amount asset note)) = s) as <- by congruence.
    clear Es. split; [done|]. unfold parsePaymentPayload.
    rewrite json_parse_stringify by (by apply payload_json_ok). cbn [mbind option_bind].
    destruct (payload_fields (PaymentRequest amount asset note)) as (E1 & E2 & E3 & E4).
    change (match payload_json (PaymentRequest amount asset note) with
            | JObj _ => payload_of_json request_payment (payload_json (PaymentRequest amount asset note))
            | _ => None end)
      with (payload_of_json request_payment (payload_json (PaymentRequest amount asset note))).
    unfold payload_of_json. rewrite E1, E2, E3, E4, isAssetRef_json, Eb, bool_decide_true by done. done.
Qed.
End payload_lemmas.

Definition sample_asset : PaymentAssetRef := {|
  asset_kind := native; asset_id := js "0x2::myso::MYSO"; asset_symbol := js "MYSO"; asset_name := None;
  asset_decimals := Int 9; asset_iconUrl := None |}.

Lemma payment_roundtrip_witness : ∃ s,
  @encodeTokenTransferPayload integer_numbers (js "25") sample_asset (js "0xb") (Some (js "thanks")) = Ok s
  ∧ @parsePaymentPayload integer_numbers token_transfer s
    = Some (TokenTransfer (js "25") sample_asset (js "0xb") (Some (js "thanks"))).
Proof.
  destruct (@encodeTokenTransferPayload integer_numbers (js "25") sample_asset (js "0xb") (Some (js "thanks")))
    as [s|e] eqn:E; [|vm_compute in E; discriminate].
  exists s. split; [reflexivity|].
  refine (proj2 (proj2 (proj1 (@payment_roundtrip integer_numbers integer_numbers_laws (js "25") sample_asset (js "0xb")
    (Some (js "thanks")) s _ _ _ _) E))); try apply wf_js.
  repeat split; try apply wf_js.
Defined.

(** The check for a positive amount only rules out the text ["0"]: a zero
    written with two digits is encoded and parsed. *)
Example zero_amount_accepted :
  isBaseUnitAmount (js "00") = true ∧ digits_value (js "00") = 0.
Proof. split; reflexivity. Qed.
