(* ===== verification/Wire.v ===== *)
(** The relayer's wire format ([relayer/wire.ts], [relayer/types.ts]): domain
    records, wire records, and the conversions between them.

    A wire record has the fields of the source's interface; a field that may be
    absent or [null] is an [option].  [metadata] and [system] are read
    dynamically by the code and stay JSON. *)
From S2P Require Import Prelude JsString Utf8 Json Verification.

(** * Domain *)

Inductive SyncStatus := SYNC_PENDING | SYNCED | UPDATE_PENDING | UPDATED | DELETE_PENDING | DELETED.

Inductive MessageKind :=
  | k_text | k_system | k_post | k_request_payment | k_poll | k_token_transfer | k_message | k_event | k_commit.

Inductive PaymentAssetKind := native | spt.
Inductive TokenTransferStatus := t_pending | t_success | t_failed.
Inductive PaymentRequestStatus := r_open | r_rejected | r_cancelled | r_expired | r_paid.

#[global] Instance MessageKind_eq_dec : EqDecision MessageKind.
Proof. solve_decision. Defined.

Inductive PaymentMetadata :=
  | TransferMetadata (digest : jsstr) (assetKind : PaymentAssetKind) (status : TokenTransferStatus) (to : jsstr)
      (requestMessageId reason senderWallet : option jsstr)
  | RequestMetadata (assetKind : PaymentAssetKind) (payer : jsstr) (status : PaymentRequestStatus)
      (fulfillingMessageId fulfilledDigest : option jsstr).

(** [actor] is passed through unchecked. *)
Record SystemMessage := { sys_type : jsstr; sys_member : jsstr; sys_actor : option json }.

Record RelayerMessage := {
  messageId : jsstr;
  groupId : jsstr;
  order : number;
  encryptedText : bytes;
  nonce : bytes;
  keyVersion : Z;
  senderAddress : jsstr;
  createdAt : Z;
  updatedAt : Z;
  attachments : list Attachment;
  isEdited : bool;
  isDeleted : bool;
  syncStatus : jsstr;
  quiltPatchId : option jsstr;
  signature : jsstr;
  signatureVersion : option Z;
  publicKey : jsstr;
  principalOwner : option jsstr;
  subAgentId : option jsstr;
  identityClass : option Z;
  isAgentMessage : bool;
  kind : MessageKind;
  system : option SystemMessage;
  paymentMetadata : option PaymentMetadata;
}.

Record RelayerReactionEvent := {
  re_groupId : jsstr; re_chainSeq : Z; re_emoji : jsstr; re_count : Z; re_reactors : list jsstr;
}.
Record RelayerTypingEvent := { ty_groupId : jsstr; ty_member : jsstr; ty_expiresAt : option Z }.
Record RelayerPresenceEvent := { pr_groupId : jsstr; pr_member : jsstr; pr_online : bool }.
Record RelayerReceiptEvent := {
  rc_groupId : jsstr; rc_member : jsstr; rc_deliveredUpto : Z; rc_readUpto : Z;
}.

Inductive RelayerSubscriptionEvent :=
  | MessageCreated (message : RelayerMessage)
  | MessageDeleted (message : RelayerMessage)
  | MessageEdited (message : RelayerMessage)
  | ReactionUpdated (reaction : RelayerReactionEvent)
  | TypingStart (typing : RelayerTypingEvent)
  | TypingStop (typing : RelayerTypingEvent)
  | PresenceUpdated (presence : RelayerPresenceEvent)
  | ReceiptUpdated (receipt : RelayerReceiptEvent).

Inductive discovery_reason := created | invited | joined.

Inductive RelayerUserEvent :=
  | GroupActivity (groupId : jsstr) (latestOrder : Z)
  | ReadStateUpdated (blobVersion : Z)
  | GroupDiscovered (groupId : jsstr) (reason : discovery_reason)
  | GroupHidden (groupId : jsstr)
  | WorkflowItemCreated (itemId itemType status : jsstr)
  | WorkflowItemUpdated (itemId itemType status : jsstr)
  | UserReceiptUpdated (receipt : RelayerReceiptEvent).

Record WorkflowItem := {
  wi_id : jsstr; wi_idempotencyKey : jsstr; wi_itemType : jsstr; wi_status : jsstr; wi_title : jsstr;
  wi_body : option jsstr; wi_payload : json; wi_organizationId : option jsstr; wi_accountId : option jsstr;
  wi_sourceService : jsstr; wi_actionDeadlineMs : option Z; wi_conversationRef : option jsstr;
  wi_createdAt : jsstr; wi_updatedAt : jsstr;
}.

(** * Wire records *)

Record WireAttachment := {
  storage_id : jsstr; w_nonce : jsstr; encrypted_metadata : jsstr; metadata_nonce : jsstr;
}.

Record WireMessageResponse := {
  message_id : jsstr;
  group_id : jsstr;
  w_order : number;
  encrypted_text : option jsstr;
  wm_nonce : option jsstr;
  key_version : option number;
  sender_address : jsstr;
  created_at : Z;
  updated_at : Z;
  w_attachments : option (list WireAttachment);
  is_edited : bool;
  is_deleted : bool;
  sync_status : jsstr;
  quilt_patch_id : option jsstr;
  w_signature : option jsstr;
  signature_version : option Z;
  public_key : option jsstr;
  principal_owner : option jsstr;
  sub_agent_id : option jsstr;
  identity_class : option Z;
  w_kind : option jsstr;
  w_system : option json;
  w_metadata : option json;
}.

Record WireReactionUpdatedEvent := {
  wr_group_id : jsstr; wr_chain_seq : Z; wr_emoji : jsstr; wr_count : Z; wr_reactors : option (list jsstr);
}.
Record WireTypingEvent := { wt_group_id : jsstr; wt_member : jsstr; wt_expires_at : option Z }.
Record WirePresenceEvent := { wp_group_id : jsstr; wp_member : jsstr; wp_online : bool }.
Record WireReceiptUpdatedEvent := {
  wu_group_id : jsstr; wu_member : jsstr; wu_delivered_upto : Z; wu_read_upto : Z;
}.

Inductive WireUserFeedEvent :=
  | WGroupActivity (group_id : jsstr) (latest_order : Z)
  | WReadStateUpdated (wallet : jsstr) (blob_version : Z)
  | WReceiptUpdated (e : WireReceiptUpdatedEvent)
  | WGroupDiscovered (group_id reason : jsstr)
  | WGroupHidden (group_id : jsstr)
  | WWorkflowCreated (item_id item_type status : jsstr)
  | WWorkflowUpdated (item_id item_type status : jsstr)
  | WUnknown (type : jsstr).

Record WireWorkflowItem := {
  ww_id : jsstr; ww_idempotency_key : jsstr; ww_item_type : jsstr; ww_status : jsstr; ww_title : jsstr;
  ww_body : option jsstr; ww_payload : json; ww_organization_id : option jsstr; ww_account_id : option jsstr;
  ww_source_service : jsstr; ww_action_deadline_ms : option Z; ww_conversation_ref : option jsstr;
  ww_created_at : jsstr; ww_updated_at : jsstr;
}.

(** * Conversions *)

Definition fromWireAttachment (wire : WireAttachment) : Attachment :=
  {| storageId := storage_id wire; att_nonce := w_nonce wire;
     encryptedMetadata := encrypted_metadata wire; metadataNonce := metadata_nonce wire |}.

Definition toWireAttachment (a : Attachment) : WireAttachment :=
  {| storage_id := storageId a; w_nonce := att_nonce a;
     encrypted_metadata := encryptedMetadata a; metadata_nonce := metadataNonce a |}.

Definition fromWireReactionEvent (wire : WireReactionUpdatedEvent) : RelayerReactionEvent :=
  {| re_groupId := wr_group_id wire; re_chainSeq := wr_chain_seq wire; re_emoji := wr_emoji wire;
     re_count := wr_count wire; re_reactors := default [] (wr_reactors wire) |}.

Definition fromWireTypingEvent (wire : WireTypingEvent) : RelayerTypingEvent :=
  {| ty_groupId := wt_group_id wire; ty_member := wt_member wire; ty_expiresAt := wt_expires_at wire |}.

Definition fromWirePresenceEvent (wire : WirePresenceEvent) : RelayerPresenceEvent :=
  {| pr_groupId := wp_group_id wire; pr_member := wp_member wire; pr_online := wp_online wire |}.

Definition fromWireReceiptEvent (wire : WireReceiptUpdatedEvent) : RelayerReceiptEvent :=
  {| rc_groupId := wu_group_id wire; rc_member := wu_member wire;
     rc_deliveredUpto := wu_delivered_upto wire; rc_readUpto := wu_read_upto wire |}.

Definition fromWireUserFeedEvent (wire : WireUserFeedEvent) : option RelayerUserEvent :=
  match wire with
  | WGroupActivity g o => Some (GroupActivity g o)
  | WReadStateUpdated _ v => Some (ReadStateUpdated v)
  | WReceiptUpdated e => Some (UserReceiptUpdated (fromWireReceiptEvent e))
  | WGroupDiscovered g reason =>
      Some (GroupDiscovered g
        (if decide (reason = js "created") then created
         else if decide (reason = js "joined") then joined else invited))
  | WGroupHidden g => Some (GroupHidden g)
  | WWorkflowCreated i t s => Some (WorkflowItemCreated i t s)
  | WWorkflowUpdated i t s => Some (WorkflowItemUpdated i t s)
  | WUnknown _ => None
  end.

Definition fromWireWorkflowItem (wire : WireWorkflowItem) : WorkflowItem :=
  {| wi_id := ww_id wire; wi_idempotencyKey := ww_idempotency_key wire; wi_itemType := ww_item_type wire;
     wi_status := ww_status wire; wi_title := ww_title wire; wi_body := ww_body wire; wi_payload := ww_payload wire;
     wi_organizationId := ww_organization_id wire; wi_accountId := ww_account_id wire;
     wi_sourceService := ww_source_service wire; wi_actionDeadlineMs := ww_action_deadline_ms wire;
     wi_conversationRef := ww_conversation_ref wire; wi_createdAt := ww_created_at wire;
     wi_updatedAt := ww_updated_at wire |}.

(** [typeof raw === 'string']; [null] and absence are [None]. *)
Definition json_str (raw : option json) : option jsstr :=
  match raw with Some (JStr s) => Some s | _ => None end.

(** [raw ?? null]. *)
Definition json_opt (raw : option json) : option json :=
  match raw with Some JNull => None | _ => raw end.

Definition parseSystemMessage (wire : option json) : option SystemMessage :=
  match wire with
  | Some w =>
      match json_str (obj_get w (js "type")), json_str (obj_get w (js "member")) with
      | Some t, Some m => Some {| sys_type := t; sys_member := m; sys_actor := json_opt (obj_get w (js "actor")) |}
      | _, _ => None
      end
  | None => None
  end.

Definition kind_name (k : MessageKind) : jsstr :=
  match k with
  | k_text => js "text" | k_system => js "system" | k_post => js "post" | k_request_payment => js "request_payment"
  | k_poll => js "poll" | k_token_transfer => js "token_transfer" | k_message => js "message"
  | k_event => js "event" | k_commit => js "commit"
  end.

(** The named kinds of the [switch]; anything else is [text]. *)
Definition parseMessageKind (raw : option jsstr) : MessageKind :=
  match raw with
  | Some s =>
      default k_text (list_find (λ k, kind_name k = s)
        [k_system; k_post; k_request_payment; k_poll; k_token_transfer; k_message; k_event; k_commit] ≫= λ ik, Some ik.2)
  | None => k_text
  end.

Definition parseAssetKind (raw : option json) : option PaymentAssetKind :=
  match raw with
  | Some (JStr s) => if decide (s = js "native") then Some native else if decide (s = js "spt") then Some spt else None
  | _ => None
  end.

(** A non-empty string. *)
Definition str (raw : option json) : option jsstr :=
  match raw with Some (JStr (c :: s)) => Some (c :: s) | _ => None end.

Definition parseTransferStatus (raw : option json) : option TokenTransferStatus :=
  match raw with
  | Some (JStr s) => if decide (s = js "pending") then Some t_pending else if decide (s = js "success") then Some t_success
                     else if decide (s = js "failed") then Some t_failed else None
  | _ => None
  end.

Definition parseRequestStatus (raw : option json) : option PaymentRequestStatus :=
  match raw with
  | Some (JStr s) => if decide (s = js "open") then Some r_open else if decide (s = js "rejected") then Some r_rejected
                     else if decide (s = js "cancelled") then Some r_cancelled
                     else if decide (s = js "expired") then Some r_expired
                     else if decide (s = js "paid") then Some r_paid else None
  | _ => None
  end.

Definition parsePaymentMetadata (kind : MessageKind) (raw : option json) : option PaymentMetadata :=
  match raw with
  | None => None
  | Some raw =>
      let f k := obj_get raw (js k) in
      match parseAssetKind (f "asset_kind") with
      | None => None
      | Some assetKind =>
          match kind with
          | k_token_transfer =>
              match str (f "digest"), str (f "to"), parseTransferStatus (f "status") with
              | Some digest, Some to, Some status =>
                  Some (TransferMetadata digest assetKind status to (str (f "request_message_id"))
                          (str (f "reason")) (str (f "sender_wallet")))
              | _, _, _ => None
              end
          | k_request_payment =>
              match str (f "payer"), parseRequestStatus (f "status") with
              | Some payer, Some status =>
                  Some (RequestMetadata assetKind payer status (str (f "fulfilling_message_id"))
                          (str (f "fulfilled_digest")))
              | _, _ => None
              end
          | _ => None
          end
      end
  end.

(** [BigInt(n)]: a [RangeError] unless integral. *)
Definition BigInt_of_number (n : number) : option Z := match n with Int z => Some z | _ => None end.

(** A hex field that may be missing or empty. *)
Definition hex_field `{HexCodec} (o : option jsstr) : option bytes :=
  match o with Some (c :: s) => fromHex (c :: s) | _ => Some [] end.

(** [None] is an error thrown by [fromHex] or [BigInt]. *)
Definition fromWireMessage `{HexCodec} (wire : WireMessageResponse) : option RelayerMessage :=
  let kind := parseMessageKind (w_kind wire) in
  text ← hex_field (encrypted_text wire);
  n ← hex_field (wm_nonce wire);
  v ← BigInt_of_number (default (Int 0) (key_version wire));
  Some {|
    messageId := message_id wire;
    groupId := group_id wire;
    order := w_order wire;
    encryptedText := text;
    nonce := n;
    keyVersion := v;
    senderAddress := sender_address wire;
    createdAt := created_at wire;
    updatedAt := updated_at wire;
    attachments := match w_attachments wire with Some l => fromWireAttachment <$> l | None => [] end;
    isEdited := is_edited wire;
    isDeleted := is_deleted wire;
    syncStatus := sync_status wire;
    quiltPatchId := quilt_patch_id wire;
    signature := default [] (w_signature wire);
    signatureVersion := signature_version wire;
    publicKey := default [] (public_key wire);
    principalOwner := principal_owner wire;
    subAgentId := sub_agent_id wire;
    identityClass := identity_class wire;
    isAgentMessage := match principal_owner wire with Some (_ :: _) => true | _ => false end;
    kind := kind;
    system := match kind with k_system => parseSystemMessage (w_system wire) | _ => None end;
    paymentMetadata := parsePaymentMetadata kind (w_metadata wire);
  |}.

(** * Properties *)

Lemma parse_kind_name k : parseMessageKind (Some (kind_name k)) = k.
Proof. destruct k; vm_compute; reflexivity. Qed.

(** Reading a message row: the attachment conversion loses nothing in
    either direction; the row kind is the named kind, and an unknown or missing name reads as [text];
    a system part exists only on system rows and payment metadata only on the
    payment kind it belongs to, with its required fields non-empty. *)
Lemma fromWireMessage_sound `{HexCodec} wire m :
  fromWireMessage wire = Some m →
  default [] (w_attachments wire) = toWireAttachment <$> attachments m
  ∧ (∀ k, w_kind wire = Some (kind_name k) → kind m = k)
  ∧ ((∀ k, w_kind wire ≠ Some (kind_name k)) → kind m = k_text)
  ∧ (is_Some (system m) → kind m = k_system)
  ∧ match paymentMetadata m with
    | Some (TransferMetadata digest _ _ to _ _ _) => kind m = k_token_transfer ∧ digest ≠ [] ∧ to ≠ []
    | Some (RequestMetadata _ payer _ _ _) => kind m = k_request_payment ∧ payer ≠ []
    | None => True
    end
  ∧ (isAgentMessage m = true ↔ ∃ o, principalOwner m = Some o ∧ o ≠ []).
Proof.
  unfold fromWireMessage. intros Hm. simplify_option_eq.
  assert (∀ raw s, str raw = Some s → s ≠ []) as Hstr.
  { intros raw s E ->. unfold str in E. by repeat (case_match; simplify_eq/=). }
  split; [|split; [|split; [|split; [|split]]]].
  - destruct (w_attachments wire) as [l|]; [|done]. cbn [default from_option Datatypes.id].
    induction l as [|[] l IH]; [done|]. simpl. f_equal. exact IH.
  - intros k ->. apply parse_kind_name.
  - intros Hno. destruct (w_kind wire) as [s|]; [|done]. unfold parseMessageKind.
    destruct (list_find _ _) as [[i k]|] eqn:E; [|done]. apply list_find_Some in E as (_ & E & _).
    exfalso. apply (Hno k). congruence.
  - destruct (parseMessageKind (w_kind wire)); intros []; done.
  - unfold parsePaymentMetadata. destruct (w_metadata wire) as [raw|]; [|done].
    destruct (parseAssetKind _); [|done]. destruct (parseMessageKind (w_kind wire)); try done.
    + destruct (str _) eqn:E; [|done]. destruct (parseRequestStatus _); [|done]. split; [done|by eapply Hstr].
    + destruct (str (obj_get raw (js "digest"))) eqn:E1; [|done].
      destruct (str (obj_get raw (js "to"))) eqn:E2; [|done].
      destruct (parseTransferStatus _); [|done]. split; [done|]. split; by eapply Hstr.
  - destruct (principal_owner wire) as [[|c o]|]; split; try done; try (by intros (? & [= <-] & ?)). eauto.
Qed.

Definition sample_wire : WireMessageResponse := {|
  message_id := js "m1"; group_id := js "0xg"; w_order := Int 4; encrypted_text := Some (js "0aff");
  wm_nonce := Some (js "01"); key_version := Some (Int 2); sender_address := js "0xa"; created_at := 1; updated_at := 1;
  w_attachments := None; is_edited := false; is_deleted := false; sync_status := js "SYNCED"; quilt_patch_id := None;
  w_signature := None; signature_version := None; public_key := None; principal_owner := None; sub_agent_id := None;
  identity_class := None; w_kind := Some (js "poll"); w_system := None; w_metadata := None |}.

Lemma fromWireMessage_sound_witness : ∃ m, @fromWireMessage plain_hex sample_wire = Some m ∧ kind m = k_poll.
Proof.
  destruct (@fromWireMessage plain_hex sample_wire) as [m|] eqn:E; [|vm_compute in E; discriminate].
  exists m. split; [reflexivity|].
  exact (proj1 (proj2 (@fromWireMessage_sound plain_hex sample_wire m E)) k_poll eq_refl).
Defined.
