(* ===== verification/RoomHistory.v ===== *)
(** Strict room history ([room-history.ts]): validation of a request and of a
    whole raw page before anything is decrypted, the continuation cursor, and
    the entry released for a verified row.

    Rows are the typed [RelayerMessage]s of [Wire]; the source's run-time type
    tests on them hold by typing, its value tests are all here. *)
From S2P Require Import Prelude JsString Utf8 Json Verification Wire.

Definition ROOM_HISTORY_MAX_PAGE_SIZE : Z := 50.
Definition MAX_CIPHERTEXT_BYTES : Z := 1024 * 1024.
Definition MAX_PAGE_CIPHERTEXT_BYTES : Z := 4 * 1024 * 1024.

Inductive history_error :=
  | BadCursor | EmptyWindow | BadLimit | InvalidPage | WrongRow | CiphertextTooLarge | BadCrypto
  | TooManyAttachments | BadAttachment | PageTooLarge | EmptyPage | RowMismatch.

Record HistoryOptions := { afterOrder : option number; beforeOrder : option number; limit : option number }.

Inductive Cursor :=
  | AfterOrder (afterOrder : number) (beforeOrder : option number)
  | BeforeOrder (beforeOrder : number).

Record FetchMessagesResult := { messages : list RelayerMessage; hasNext : bool }.

(** * Request *)

Definition cursor_ok (v : option number) : bool :=
  match v with Some n => isSafeInteger n && negb (num_lt n (Int 0)) | None => true end.

Definition validateRoomHistoryRequest (o : HistoryOptions) : outcome history_error number :=
  if negb (cursor_ok (afterOrder o) && cursor_ok (beforeOrder o)) then Throw BadCursor else
  if match afterOrder o, beforeOrder o with Some a, Some b => num_le b a | _, _ => false end
  then Throw EmptyWindow else
  let limit := default (Int ROOM_HISTORY_MAX_PAGE_SIZE) (limit o) in
  if negb (isSafeInteger limit) || num_lt limit (Int 1) || num_lt (Int ROOM_HISTORY_MAX_PAGE_SIZE) limit
  then Throw BadLimit else Ok limit.

(** * Attachment references *)

(** The group and path parts of [r2room://<group>/<36 characters>], in any case. *)
Definition parse_r2room (s : jsstr) : option jsstr :=
  if negb (startsWith (js "r2room://") (ascii_lower <$> s)) then None else
  let rest := drop 9 s in
  let '(prefix, hexpart) :=
    if startsWith (js "0x") (ascii_lower <$> rest) then (take 2 rest, drop 2 rest) else ([], rest) in
  match indexOf 47 hexpart with
  | None => None
  | Some i =>
      let hex := take i hexpart in
      let uuid := drop (S i) hexpart in
      if (0 <? i)%nat && (i <=? 64)%nat && forallb is_hex hex && (length uuid =? 36)%nat
         && forallb (λ c, is_hex c || (c =? 45)) uuid
      then Some (prefix ++ hex) else None
  end.

(** [n] bytes in hex. *)
Definition hex_bytes_of (lo hi : Z) (s : jsstr) : bool :=
  let n := Z.of_nat (length s) in
  (n mod 2 =? 0) && (lo <=? n / 2) && (n / 2 <=? hi) && forallb is_hex s.

Section page.
Context `{JsText}.

Definition attachment_ok (expected : jsstr) (a : Attachment) : bool :=
  match parse_r2room (storageId a) with
  | None => false
  | Some group =>
      bool_decide (normalizeSharedPostAddress (Some group) = Some expected)
      && hex_bytes_of 12 12 (att_nonce a) && hex_bytes_of 12 12 (metadataNonce a)
      && hex_bytes_of 1 131072 (encryptedMetadata a)
  end.

Definition crypto_ok (raw : RelayerMessage) : bool :=
  bool_decide (kind raw = k_system) || isDeleted raw
  || ((length (nonce raw) =? 12)%nat && (0 <=? keyVersion raw) && (keyVersion raw <=? 2 ^ 64 - 1)
      && bool_decide (is_Some (normalizeSharedPostAddress (Some (senderAddress raw))))
      && (length (signature raw) <=? 1024)%nat && (length (publicKey raw) <=? 512)%nat).

Record page_state := { ids : list jsstr; lastOrder : Z; page_bytes : Z }.

Definition size (b : bytes) : Z := Z.of_nat (length b).

(** One round of the loop over the rows. *)
Definition check_row (expected : jsstr) (o : HistoryOptions) (st : page_state) (raw : RelayerMessage)
    : outcome history_error page_state :=
  match order raw with
  | Int n =>
      if negb (bool_decide (normalizeSharedPostAddress (Some (groupId raw)) = Some expected))
         || is_nil (messageId raw) || (128 <? length (messageId raw))%nat
         || bool_decide (messageId raw ∈ ids st) || negb (isSafeInteger (Int n)) || (n <=? lastOrder st) || (n <? 0)
         || match afterOrder o with Some a => num_le (Int n) a | None => false end
         || match beforeOrder o with Some b => num_le b (Int n) | None => false end
      then Throw WrongRow
      else if MAX_CIPHERTEXT_BYTES <? size (encryptedText raw) then Throw CiphertextTooLarge
      else if negb (crypto_ok raw) then Throw BadCrypto
      else if (10 <? length (attachments raw))%nat then Throw TooManyAttachments
      else if negb (forallb (attachment_ok expected) (attachments raw)) then Throw BadAttachment
      else
        let total := page_bytes st + size (encryptedText raw) in
        if MAX_PAGE_CIPHERTEXT_BYTES <? total then Throw PageTooLarge
        else Ok {| ids := messageId raw :: ids st; lastOrder := n; page_bytes := total |}
  | _ => Throw WrongRow
  end.

Fixpoint check_rows (expected : jsstr) (o : HistoryOptions) (st : page_state) (rows : list RelayerMessage)
    : outcome history_error page_state :=
  match rows with
  | [] => Ok st
  | r :: rs =>
      match check_row expected o st r with
      | Throw e => Throw e
      | Ok st' => check_rows expected o st' rs
      end
  end.

Definition validateRoomHistoryPage (result : FetchMessagesResult) (group : jsstr) (o : HistoryOptions)
    : outcome history_error (option Cursor) :=
  match validateRoomHistoryRequest o with
  | Throw e => Throw e
  | Ok limit =>
      match normalizeSharedPostAddress (Some group) with
      | None => Throw InvalidPage
      | Some expected =>
          if num_lt limit (Int (Z.of_nat (length (messages result)))) then Throw InvalidPage else
          match check_rows expected o {| ids := []; lastOrder := -1; page_bytes := 0 |} (messages result) with
          | Throw e => Throw e
          | Ok st =>
              if negb (hasNext result) then Ok None
              else match messages result with
                   | [] => Throw EmptyPage
                   | first :: _ =>
                       Ok (Some (match afterOrder o with
                                 | None => BeforeOrder (order first)
                                 | Some _ => AfterOrder (Int (lastOrder st)) (beforeOrder o)
                                 end))
                   end
          end
      end
  end.
End page.

(** * Verified entries *)

Inductive Integrity := i_none | i_verified | i_legacy_unverified | i_signature_unverified.

#[global] Instance Integrity_eq_dec : EqDecision Integrity.
Proof. solve_decision. Defined.

(** The fields are read from the decrypted metadata, whatever it holds. *)
Record AttachmentInfo := { fileName : option json; mimeType : option json; fileSize : option json; ai_storageId : jsstr }.

Record DecryptedMessage := {
  d_messageId : jsstr; d_groupId : jsstr; d_order : number; d_text : jsstr; d_senderAddress : jsstr;
  d_isDeleted : bool; d_kind : option MessageKind; d_attachments : list AttachmentInfo;
  d_attachmentIntegrity : Integrity; d_senderVerified : bool; d_attributionIntegrity : Integrity;
  d_isAgentMessage : bool; d_principalOwner : option jsstr; d_subAgentId : option jsstr; d_identityClass : option Z;
}.

Inductive MetadataStatus := m_none | m_verified | m_unavailable.

Record EntryAttribution := {
  e_principalOwner : option jsstr; e_subAgentId : option jsstr; e_identityClass : option Z;
}.

Record VerifiedContent := {
  v_messageId : jsstr; v_order : number; v_text : jsstr; v_kind : option MessageKind; v_senderAddress : jsstr;
  v_attachmentIntegrity : Integrity; v_attachmentCount : nat; v_attachmentMetadataStatus : MetadataStatus;
  v_attachments : list AttachmentInfo; v_attributionIntegrity : Integrity; v_isAgentMessage : bool;
  v_attribution : option EntryAttribution;
}.

(** A property kept only when it is a non-empty string. *)
Definition non_empty (o : option jsstr) : option jsstr := match o with Some (_ :: _) => o | _ => None end.

Definition verifiedRoomEntry (raw : RelayerMessage) (m : DecryptedMessage) : outcome history_error VerifiedContent :=
  if negb (d_senderVerified m) || negb (bool_decide (d_groupId m = groupId raw))
     || negb (bool_decide (d_messageId m = messageId raw)) || negb (bool_decide (d_order m = order raw))
     || d_isDeleted m || bool_decide (d_kind m = Some k_system)
  then Throw RowMismatch else
  let complete := bool_decide (d_attachmentIntegrity m = i_verified)
                  && (length (d_attachments m) =? length (attachments raw))%nat in
  Ok {| v_messageId := messageId raw; v_order := order raw; v_text := d_text m; v_kind := d_kind m;
        v_senderAddress := d_senderAddress m; v_attachmentIntegrity := d_attachmentIntegrity m;
        v_attachmentCount := length (attachments raw);
        v_attachmentMetadataStatus :=
          if (length (attachments raw) =? 0)%nat then m_none else if complete then m_verified else m_unavailable;
        v_attachments := if complete then d_attachments m else [];
        v_attributionIntegrity := d_attributionIntegrity m; v_isAgentMessage := d_isAgentMessage m;
        v_attribution :=
          if bool_decide (d_attributionIntegrity m = i_verified)
          then Some {| e_principalOwner := non_empty (d_principalOwner m); e_subAgentId := non_empty (d_subAgentId m);
                       e_identityClass := d_identityClass m |}
          else None |}.

(** * Properties *)

Lemma request_ok o limit : validateRoomHistoryRequest o = Ok limit →
  (∃ l, limit = Int l ∧ 1 ≤ l ≤ 50)
  ∧ (∀ a, afterOrder o = Some a → ∃ x, a = Int x ∧ 0 ≤ x ≤ 2 ^ 53 - 1)
  ∧ (∀ b, beforeOrder o = Some b → ∃ x, b = Int x ∧ 0 ≤ x ≤ 2 ^ 53 - 1)
  ∧ (∀ x y, afterOrder o = Some (Int x) → beforeOrder o = Some (Int y) → x < y).
Proof.
  unfold validateRoomHistoryRequest. destruct (negb (_ && _)) eqn:Ec; [done|]. bool_to_Z.
  destruct (match afterOrder o with Some _ => _ | None => _ end) eqn:Ew; [done|].
  destruct (_ || _) eqn:El; [done|]. intros [= <-].
  apply orb_false_elim in El as [[El1 El2]%orb_false_elim El3]. apply negb_false_iff in El1.
  assert (∀ n, isSafeInteger n && negb (num_lt n (Int 0)) = true → ∃ x, n = Int x ∧ 0 ≤ x ≤ 2 ^ 53 - 1) as Hsafe.
  { intros n Hn. apply andb_prop in Hn as [(x & -> & Hx)%isSafeInteger_inv Hn]. cbn [num_lt] in Hn. bool_to_Z. exists x. split; [done|lia]. }
  split; [|split; [|split]].
  - destruct (isSafeInteger_inv _ El1) as (l & E & _). exists l. split; [done|]. rewrite E in El2, El3.
    unfold ROOM_HISTORY_MAX_PAGE_SIZE in El3. cbn [num_lt] in El2, El3. bool_to_Z. lia.
  - intros a Ea. rewrite Ea in H. by apply Hsafe.
  - intros b Eb. rewrite Eb in H0. by apply Hsafe.
  - intros x y Ea Eb. rewrite Ea, Eb in Ew. cbn [num_le] in Ew. bool_to_Z. lia.
Qed.

Section properties.
Context `{JsText}.

(** A row inside the requested window with the expected room. *)
Definition row_ok (expected : jsstr) (o : HistoryOptions) (raw : RelayerMessage) : Prop :=
  normalizeSharedPostAddress (Some (groupId raw)) = Some expected
  ∧ (∃ n, order raw = Int n ∧ 0 ≤ n ≤ 2 ^ 53 - 1
      ∧ (∀ a, afterOrder o = Some (Int a) → a < n) ∧ (∀ b, beforeOrder o = Some (Int b) → n < b))
  ∧ messageId raw ≠ [] ∧ crypto_ok raw = true ∧ Forall (λ a, attachment_ok expected a = true) (attachments raw)
  ∧ size (encryptedText raw) ≤ MAX_CIPHERTEXT_BYTES.

Definition order_of (raw : RelayerMessage) : Z := match order raw with Int n => n | _ => 0 end.

Lemma check_row_ok expected o st raw st' : check_row expected o st raw = Ok st' →
  row_ok expected o raw ∧ (messageId raw ∉ ids st) ∧ lastOrder st < order_of raw
  ∧ ids st' = messageId raw :: ids st ∧ lastOrder st' = order_of raw
  ∧ page_bytes st' = page_bytes st + size (encryptedText raw) ∧ page_bytes st' ≤ MAX_PAGE_CIPHERTEXT_BYTES.
Proof.
  unfold check_row, order_of, row_ok. destruct (order raw) as [n| | | |]; try done.
  destruct (_ || match beforeOrder o with Some _ => _ | None => _ end) eqn:E; [done|].
  repeat match goal with H : _ || _ = false |- _ => apply orb_false_elim in H as [? ?] end.
  destruct (_ <? size _) eqn:Es; [done|]. destruct (negb (crypto_ok raw)) eqn:Ec; [done|].
  destruct (10 <? _)%nat; [done|]. destruct (negb (forallb _ _)) eqn:Ea; [done|].
  destruct (MAX_PAGE_CIPHERTEXT_BYTES <? _) eqn:Ep; [done|]. intros [= <-]. bool_to_Z.
  rewrite forallb_forall in Ea. simpl.
  assert (Z.abs n ≤ 2 ^ 53 - 1) as Hn.
  { match goal with H : isSafeInteger (Int n) = true |- _ => cbn [isSafeInteger] in H; apply Z.leb_le in H; exact H end. }
  split; [|done]. split; [done|]. split; [|split; [|split; [done|split; [|done]]]].
  - exists n. split; [done|]. split; [lia|]. split.
    + intros a Ea'. match goal with H : match afterOrder o with _ => _ end = _ |- _ => rewrite Ea' in H; cbn [num_le] in H end.
      bool_to_Z. lia.
    + intros b Eb'. match goal with H : match beforeOrder o with _ => _ end = _ |- _ => rewrite Eb' in H; cbn [num_le] in H end.
      bool_to_Z. lia.
  - by destruct (messageId raw).
  - apply Forall_forall. intros a Hin. by apply Ea, list_elem_of_In.
Qed.

Lemma check_rows_ok expected o rows : ∀ st st', check_rows expected o st rows = Ok st' →
  page_bytes st ≤ MAX_PAGE_CIPHERTEXT_BYTES →
  Forall (row_ok expected o) rows ∧ NoDup (messageId <$> rows)
  ∧ (∀ r, r ∈ rows → (messageId r ∉ ids st) ∧ lastOrder st < order_of r ≤ lastOrder st')
  ∧ StronglySorted Z.lt (order_of <$> rows)
  ∧ (rows = [] → lastOrder st' = lastOrder st) ∧ lastOrder st ≤ lastOrder st'
  ∧ (rows ≠ [] → ∃ r, r ∈ rows ∧ lastOrder st' = order_of r)
  ∧ page_bytes st' = page_bytes st + foldr (λ r n, size (encryptedText r) + n) 0 rows
  ∧ page_bytes st' ≤ MAX_PAGE_CIPHERTEXT_BYTES.
Proof.
  induction rows as [|r rows IH]; intros st st' Hc Hb; simpl in Hc.
  { injection Hc as <-. split; [constructor|]. split; [constructor|].
    split; [intros r Hr; by apply elem_of_nil in Hr|]. split; [constructor|]. split; [done|]. split; [lia|].
    split; [done|]. split; [simpl; lia|done]. }
  destruct (check_row expected o st r) as [st1|] eqn:E1; [|done].
  apply check_row_ok in E1 as (R1 & R2 & R3 & R4 & R5 & R6 & R7).
  destruct (IH st1 st' Hc R7) as (I1 & I2 & I3 & I4 & I5 & I6 & I7 & I8 & I9).
  assert (∀ x, x ∈ rows → messageId x ≠ messageId r ∧ (messageId x ∉ ids st) ∧ order_of r < order_of x ≤ lastOrder st') as Hx.
  { intros x Hin. destruct (I3 x Hin) as [Hni Hlt]. rewrite R4, not_elem_of_cons in Hni. rewrite R5 in Hlt. naive_solver. }
  split; [by constructor|]. split; [|split; [|split; [|split; [done|split; [lia|split; [|split; [simpl; lia|done]]]]]]].
  - rewrite fmap_cons. constructor; [|done]. intros (x & Ex & Hin)%list_elem_of_fmap. by destruct (Hx x Hin) as [? _].
  - intros x [->|Hin]%elem_of_cons; [split; [done|lia]|]. destruct (Hx x Hin) as (_ & ? & ?). split; [done|lia].
  - rewrite fmap_cons. constructor; [done|]. apply Forall_fmap, Forall_forall. intros x Hin. by destruct (Hx x Hin) as (_ & _ & ? & _).
  - intros _. destruct (decide (rows = [])) as [->|Hne].
    + exists r. split; [left|]. rewrite I5 by done. done.
    + destruct (I7 Hne) as (x & Hin & ?). exists x. split; [by right|done].
Qed.

(** C22.  A page that passes validation is safe to decrypt and to continue
    from: at most 50 rows, all of the requested room and inside the requested window, with distinct
    ids, strictly ascending non-negative safe orders, well-formed
    cryptographic fields and attachment references, and at most 4 MiB of
    ciphertext; the cursor is returned exactly when the relayer says there is more, and the window it opens is valid
    and excludes every row of the page. *)
Theorem validated_page result group o cursor :
  validateRoomHistoryPage result group o = Ok cursor →
  let rows := messages result in
  (length rows ≤ 50)%nat
  ∧ (∃ expected, normalizeSharedPostAddress (Some group) = Some expected ∧ Forall (row_ok expected o) rows)
  ∧ NoDup (messageId <$> rows) ∧ StronglySorted Z.lt (order_of <$> rows)
  ∧ foldr (λ r n, size (encryptedText r) + n) 0 rows ≤ MAX_PAGE_CIPHERTEXT_BYTES
  ∧ (is_Some cursor ↔ hasNext result = true)
  ∧ match cursor with
    | None => True
    | Some c =>
        let o' := match c with
                  | AfterOrder a b => {| afterOrder := Some a; beforeOrder := b; limit := limit o |}
                  | BeforeOrder b => {| afterOrder := None; beforeOrder := Some b; limit := limit o |}
                  end in
        rows ≠ [] ∧ (∃ l, validateRoomHistoryRequest o' = Ok l)
        ∧ ∀ r expected, r ∈ rows → ¬ row_ok expected o' r
    end.
Proof.
  unfold validateRoomHistoryPage. destruct (validateRoomHistoryRequest o) as [l|] eqn:El; [|done].
  destruct (request_ok o l El) as ((lim & -> & Hlim) & Ha & Hb & Hab).
  destruct (normalizeSharedPostAddress (Some group)) as [expected|] eqn:Ee; [|done].
  destruct (num_lt _ _) eqn:Elen; [done|]. cbn [num_lt] in Elen. bool_to_Z.
  destruct (check_rows expected o _ (messages result)) as [st|] eqn:Ec; [|done].
  apply check_rows_ok in Ec as (R1 & R2 & R3 & R4 & _ & _ & R7 & R8 & R9); [|done]. cbn [page_bytes lastOrder ids] in *.
  intros Hres. cbn zeta. split; [lia|]. split; [by exists expected|]. split; [done|]. split; [done|]. split; [lia|].
  destruct (hasNext result); cbn [negb] in Hres; [|injection Hres as <-; split; [split; [by intros []|done]|done]].
  destruct (messages result) as [|first rest] eqn:Em; [done|]. injection Hres as <-.
  split; [by split|]. split; [done|].
  assert (∀ r, r ∈ first :: rest → ∃ n, order r = Int n ∧ order_of r = n ∧ 0 ≤ n ≤ 2 ^ 53 - 1
     ∧ (∀ a, afterOrder o = Some (Int a) → a < n) ∧ (∀ b, beforeOrder o = Some (Int b) → n < b)) as Hord.
  { intros r Hin. rewrite Forall_forall in R1. destruct (R1 r Hin) as (_ & (n & En & Hn & Hn') & _).
    exists n. split; [done|]. split; [unfold order_of; by rewrite En|done]. }
  destruct (afterOrder o) as [a|] eqn:Eao.
  - destruct (R7 ltac:(done)) as (rl & Hrl & Elast). destruct (Hord rl Hrl) as (n & _ & En & Hn & Hna & Hnb).
    rewrite Elast, En. split.
    + exists (Int lim). revert El. unfold validateRoomHistoryRequest. cbn [afterOrder beforeOrder limit].
      rewrite Eao. destruct (negb (cursor_ok (Some a) && _)) eqn:Ecur; [done|].
      apply negb_false_iff, andb_prop in Ecur as [_ Ecur]. rewrite Ecur. cbn [cursor_ok isSafeInteger num_lt].
      rewrite (proj2 (Z.leb_le (Z.abs n) _)), (proj2 (Z.ltb_ge n 0)) by lia. cbn [negb andb].
      destruct (match beforeOrder o with Some b => num_le b a | None => false end); [done|].
      destruct (beforeOrder o) as [b|] eqn:Ebo; [|done].
      destruct (Hb b eq_refl) as (x & -> & _). specialize (Hnb x eq_refl). cbn [num_le].
      by rewrite (proj2 (Z.leb_gt x n)) by lia.
    + intros r ex Hin (_ & (k & Ek & _ & Hk & _) & _). specialize (Hk n eq_refl).
      destruct (R3 r Hin) as [_ Hle]. unfold order_of in Hle at 2. rewrite Ek in Hle. lia.
  - destruct (Hord first ltac:(left)) as (n & Eo & En & Hn & _ & Hnb). rewrite Eo. split.
    + exists (Int lim). revert El. unfold validateRoomHistoryRequest. cbn [afterOrder beforeOrder limit].
      rewrite Eao. cbn [cursor_ok isSafeInteger num_lt].
      rewrite (proj2 (Z.leb_le (Z.abs n) _)), (proj2 (Z.ltb_ge n 0)) by lia. cbn [negb andb].
      destruct (negb _); [done|]. done.
    + intros r ex Hin (_ & (k & Ek & _ & _ & Hk) & _). specialize (Hk n eq_refl).
      apply elem_of_cons in Hin as [->|Hin]; [rewrite Eo in Ek; injection Ek as ->; lia|].
      rewrite fmap_cons in R4. inversion R4 as [|? ? _ Hall]; subst. rewrite Forall_forall in Hall.
      specialize (Hall (order_of r) ltac:(by apply list_elem_of_fmap_2)). unfold order_of in Hall at 2. rewrite Ek in Hall. lia.
Qed.
End properties.

(** What a verified entry releases: an entry is produced only for a
    message whose sender signature verified and that is the raw row (same group, id and order, not deleted,
    not a system row); attachment metadata only when its integrity is verified
    and complete, and attribution only when its integrity is verified. *)
Lemma verified_entry_sound raw m e :
  verifiedRoomEntry raw m = Ok e →
  d_senderVerified m = true ∧ d_groupId m = groupId raw ∧ v_messageId e = d_messageId m ∧ v_order e = d_order m
  ∧ d_isDeleted m = false ∧ v_kind e ≠ Some k_system ∧ v_text e = d_text m
  ∧ (v_attachments e ≠ [] → d_attachmentIntegrity m = i_verified ∧ v_attachments e = d_attachments m
       ∧ length (v_attachments e) = v_attachmentCount e)
  ∧ (v_attachmentMetadataStatus e = m_verified → d_attachmentIntegrity m = i_verified
       ∧ length (v_attachments e) = v_attachmentCount e)
  ∧ (is_Some (v_attribution e) ↔ d_attributionIntegrity m = i_verified).
Proof.
  unfold verifiedRoomEntry. destruct (_ || _) eqn:E; [done|].
  repeat match goal with H : _ || _ = false |- _ => apply orb_false_elim in H as [? ?] end.
  bool_to_Z. intros [= <-]. simpl.
  do 7 (split; [done|]).
  destruct (bool_decide (d_attachmentIntegrity m = i_verified)) eqn:Ei, (length (d_attachments m) =? length (attachments raw))%nat eqn:El;
    bool_to_Z; try apply Nat.eqb_eq in El; cbn [andb]; (split; [done|]);
    (split; [destruct (length (attachments raw) =? 0)%nat; done|]);
    case_bool_decide; split; try done; by intros [].
Qed.

(** * Witnesses *)

Definition sample_row (n : Z) (id : jsstr) : RelayerMessage := {|
  messageId := id; groupId := js "0xA1"; order := Int n; encryptedText := [1; 2; 3];
  nonce := [1; 2; 3; 4; 5; 6; 7; 8; 9; 10; 11; 12]; keyVersion := 0; senderAddress := js "0xb2"; createdAt := 1;
  updatedAt := 1;
  attachments := [{| storageId := js "r2room://0xa1/0123abcd-0123-abcd-0123-abcd0123abcd";
                     att_nonce := js "000102030405060708090a0b"; encryptedMetadata := js "ff";
                     metadataNonce := js "000102030405060708090a0b" |}];
  isEdited := false; isDeleted := false; syncStatus := js "SYNCED"; quiltPatchId := None; signature := js "aa";
  signatureVersion := Some 2; publicKey := js "bb"; principalOwner := None; subAgentId := None; identityClass := None;
  isAgentMessage := false; kind := k_text; system := None; paymentMetadata := None |}.

Definition sample_page : FetchMessagesResult :=
  {| messages := [sample_row 4 (js "m4"); sample_row 7 (js "m7")]; hasNext := true |}.

Definition after_three : HistoryOptions := {| afterOrder := Some (Int 3); beforeOrder := Some (Int 9); limit := None |}.

Lemma validated_page_witness :
  @validateRoomHistoryPage ascii_text sample_page (js "0xa1") after_three = Ok (Some (AfterOrder (Int 7) (Some (Int 9))))
  ∧ NoDup (messageId <$> messages sample_page).
Proof.
  assert (@validateRoomHistoryPage ascii_text sample_page (js "0xa1") after_three
          = Ok (Some (AfterOrder (Int 7) (Some (Int 9))))) as Hv by (vm_compute; reflexivity).
  split; [exact Hv|]. exact (proj1 (proj2 (proj2 (@validated_page ascii_text _ _ _ _ Hv)))).
Defined.

Definition sample_decrypted : DecryptedMessage := {|
  d_messageId := js "m4"; d_groupId := js "0xA1"; d_order := Int 4; d_text := js "hello"; d_senderAddress := js "0xb2";
  d_isDeleted := false; d_kind := Some k_text;
  d_attachments := [{| fileName := Some (JStr (js "a.png")); mimeType := Some (JStr (js "image/png")); fileSize := Some (JNum (Int 3));
                       ai_storageId := js "r2room://0xa1/0123abcd-0123-abcd-0123-abcd0123abcd" |}];
  d_attachmentIntegrity := i_verified; d_senderVerified := true; d_attributionIntegrity := i_legacy_unverified;
  d_isAgentMessage := false; d_principalOwner := Some (js "0xc3"); d_subAgentId := None; d_identityClass := None |}.

Lemma verified_entry_sound_witness :
  ∃ e, verifiedRoomEntry (sample_row 4 (js "m4")) sample_decrypted = Ok e
    ∧ v_attachments e = d_attachments sample_decrypted ∧ ¬ is_Some (v_attribution e).
Proof.
  destruct (verifiedRoomEntry (sample_row 4 (js "m4")) sample_decrypted) as [e|] eqn:E; [|vm_compute in E; discriminate].
  exists e. split; [reflexivity|].
  pose proof (verified_entry_sound _ _ _ E) as (_ & _ & _ & _ & _ & _ & _ & Ha & _ & Hattr).
  split; [|intros Hs; apply Hattr in Hs; discriminate].
  vm_compute in E. injection E as <-. apply Ha. discriminate.
Defined.
