(* ===== verification/AuthHeaders.v ===== *)
(** Relayer request authentication ([relayer/auth-headers.ts]): what is signed
    for a body, a group-scoped header, a wallet-scoped header and a WebSocket
    query, and the headers that carry it.

    The clock is read once, when a function starts; [now] is that reading in
    milliseconds.  Percent-encoding is the platform's, written out. *)
From S2P Require Import Prelude JsString JsMap Utf8 Json Verification.

(** * Object spread *)

Definition headers : Type := list (jsstr * jsstr).

(** [{...m, ...n}] *)
Definition spread {V} (m n : list (jsstr * V)) : list (jsstr * V) :=
  foldl (λ m kv, map_set kv.1 kv.2 m) m n.

(** * Percent-encoding *)

Definition upper_hex_digit (d : Z) : Z := if d <? 10 then 48 + d else 55 + d.
Definition percent (b : Z) : jsstr := [37; upper_hex_digit (b / 16); upper_hex_digit (b mod 16)].

Definition is_alnum (c : Z) : bool :=
  is_digit c || ((65 <=? c) && (c <=? 90)) || ((97 <=? c) && (c <=? 122)).

(** [encodeURIComponent]: a [URIError] on a lone surrogate. *)
Definition encodeURIComponent (s : jsstr) : option jsstr :=
  if wf_utf16 s
  then Some (utf8_encode s ≫= λ b, if is_alnum b || bool_decide (b ∈ [45; 95; 46; 33; 126; 42; 39; 40; 41])
                                   then [b] else percent b)
  else None.

(** The [application/x-www-form-urlencoded] serialiser of [URLSearchParams]. *)
Definition form_encode (s : jsstr) : jsstr :=
  utf8_encode s ≫= λ b, if is_alnum b || bool_decide (b ∈ [42; 45; 46; 95]) then [b]
                        else if b =? 32 then [43] else percent b.

Definition search_params (l : list (jsstr * jsstr)) : jsstr :=
  join (js "&") ((λ kv, form_encode kv.1 ++ js "=" ++ form_encode kv.2) <$> l).

(** * Signing *)

(** [fromBase64] of [@socialproof/myso/utils]; [None] is a thrown error. *)
Class Base64Codec := { fromBase64 : jsstr → option bytes }.

Definition ZKLOGIN_PUBLIC_KEY_HEX : jsstr := js "05".

Section auth.
Context `{JsonNumbers} `{JsText} `{HexCodec} `{MySoCrypto} `{Base64Codec}.

Definition extractRawSignature (serializedSignature : jsstr) : outcome sign_error bytes :=
  match parseSerializedSignature serializedSignature with
  | None => Throw MalformedSignature
  | Some parsed =>
      match raw_signature parsed with
      | None => Throw UnsupportedScheme
      | Some raw => Ok raw
      end
  end.

Definition getPublicKeyHex (signer : Signer) : jsstr := toHex (toMySoBytes (signer_key signer)).

Definition auth_pair (signature publicKey : jsstr) : headers :=
  [(js "x-signature", signature); (js "x-public-key", publicKey)].

Definition signAndCreateAuthHeaders (signer : Signer) (messageBytes : bytes) : outcome sign_error headers :=
  let signature := signPersonalMessage signer messageBytes in
  match parseSerializedSignature signature with
  | None => Throw MalformedSignature
  | Some parsed =>
      if decide (signatureScheme parsed = js "ZkLogin") then
        match fromBase64 signature with
        | None => Throw MalformedSignature
        | Some whole => Ok (auth_pair (toHex whole) ZKLOGIN_PUBLIC_KEY_HEX)
        end
      else
        match extractRawSignature signature with
        | Throw e => Throw e
        | Ok rawSig => Ok (auth_pair (toHex rawSig) (getPublicKeyHex signer))
        end
  end.

(** [signer.toMySoAddress().toLowerCase()] *)
Definition sender_of (signer : Signer) : jsstr := toLowerCase (toMySoAddress signer).

(** [Math.floor(Date.now() / 1000)] *)
Definition seconds (now : Z) : Z := now / 1000.

(** The object that is signed and sent. *)
Definition auth_body (now : Z) (signer : Signer) (payload : list (jsstr * json)) : list (jsstr * json) :=
  let body := spread payload [(js "sender_address", JStr (sender_of signer)); (js "timestamp", JNum (Int (seconds now)))] in
  match map_get (js "group_id") body with
  | Some (JStr g) => map_set (js "group_id") (JStr (toLowerCase g)) body
  | _ => body
  end.

Definition createBodyAuth (now : Z) (signer : Signer) (payload : list (jsstr * json))
    : outcome sign_error (list (jsstr * json) * headers) :=
  let body := auth_body now signer payload in
  match signAndCreateAuthHeaders signer (utf8_encode (stringify (JObj body))) with
  | Throw e => Throw e
  | Ok h => Ok (body, h)
  end.

(** [`${timestamp}:${senderAddress}`] *)
Definition wallet_canonical (now : Z) (signer : Signer) : jsstr :=
  dec_Z (seconds now) ++ js ":" ++ sender_of signer.

Definition createHeaderAuth (now : Z) (signer : Signer) (groupId : jsstr) : outcome sign_error headers :=
  let group := toLowerCase groupId in
  match signAndCreateAuthHeaders signer (utf8_encode (wallet_canonical now signer ++ js ":" ++ group)) with
  | Throw e => Throw e
  | Ok h => Ok (spread h [(js "x-sender-address", sender_of signer); (js "x-timestamp", dec_Z (seconds now));
                          (js "x-group-id", group)])
  end.

Definition createWalletHeaderAuth (now : Z) (signer : Signer) : outcome sign_error headers :=
  match signAndCreateAuthHeaders signer (utf8_encode (wallet_canonical now signer)) with
  | Throw e => Throw e
  | Ok h => Ok (spread h [(js "x-sender-address", sender_of signer); (js "x-timestamp", dec_Z (seconds now))])
  end.

(** [String(n)]. *)
Definition String_of_number (n : number) : jsstr :=
  match n with
  | NaN => js "NaN" | PosInf => js "Infinity" | NegInf => js "-Infinity"
  | _ => num_print n
  end.

(** A header as a query parameter; [URLSearchParams] prints a missing one as [undefined]. *)
Definition header_param (h : headers) (name key : string) : jsstr * jsstr :=
  (js name, default (js "undefined") (map_get (js key) h)).

Definition createWsAuthQuery (now : Z) (signer : Signer) (groupId : jsstr) (afterOrder : option number)
    : outcome sign_error jsstr :=
  match createHeaderAuth now signer groupId with
  | Throw e => Throw e
  | Ok h =>
      Ok (search_params ([header_param h "group_id" "x-group-id"; header_param h "sender_address" "x-sender-address";
                          header_param h "timestamp" "x-timestamp"; header_param h "signature" "x-signature";
                          header_param h "public_key" "x-public-key"]
                         ++ match afterOrder with Some o => [(js "after_order", String_of_number o)] | None => [] end))
  end.

Definition createUserWsAuthQuery (now : Z) (signer : Signer) : outcome sign_error jsstr :=
  match createWalletHeaderAuth now signer with
  | Throw e => Throw e
  | Ok h => Ok (search_params [header_param h "sender_address" "x-sender-address"; header_param h "timestamp" "x-timestamp";
                               header_param h "signature" "x-signature"; header_param h "public_key" "x-public-key"])
  end.

(** Of [relayer/http-transport.ts]: the address is not lowercased here. *)
Definition createWalletDeleteAuth (now : Z) (signer : Signer) (token : jsstr) : outcome sign_error headers :=
  let senderAddress := toMySoAddress signer in
  match signAndCreateAuthHeaders signer
          (utf8_encode (dec_Z (seconds now) ++ js ":" ++ senderAddress ++ js ":" ++ token)) with
  | Throw e => Throw e
  | Ok h => Ok (spread h [(js "x-sender-address", senderAddress); (js "x-timestamp", dec_Z (seconds now))])
  end.
End auth.
