(* ===== verification/HttpTransport.v ===== *)
(** The HTTP relayer transport ([relayer/http-transport.ts], [http/errors.ts]):
    requests, the signed-header cache, the retry after 401, the mapping of
    error responses, and every REST call.

    The transport's awaits are where the world moves.  [env n] is what happens
    during the [n]-th await: the clock reading after it, whether [disconnect()]
    was called or the caller's signal aborted meanwhile, and, when the await is
    a [fetch], the network's answer.  [fetch] rejects when the transport's
    abort controller fires.  A JSON answer is read at the type the code
    declares for it; [IllTyped] is a JSON value of another type, which the code
    would pass on unchecked and the model stops at. *)
From S2P Require Import Prelude JsString JsMap Utf8 Json Verification Receipts AuthHeaders Wire.

(** * Errors *)

Record UserReadStateWire := { rs_encryptedBlob : bytes; rs_blobVersion : number; rs_updatedAt : option jsstr }.

(** [message] and [code] of a [RelayerTransportError] are whatever the error
    body holds. *)
Inductive transport_error :=
  | Platform (name : jsstr)             (* what [fetch] or the body reader throws *)
  | HttpTimeoutError (url : jsstr)
  | RelayerTransportError (message : option json) (status : Z) (code body : option json)
  | PaymentRequiredError (message : option json) (minCost : option Z) (recipient : option json)
  | ReadStateConflictError (message : option json) (current : UserReadStateWire)
  | SignError (e : sign_error)
  | Malformed                            (* [fromHex] or [BigInt] throws *)
  | BadURI                               (* [encodeURIComponent] throws *)
  | IllTyped.

(** [error.status] of an instance of [RelayerTransportError]. *)
Definition relayer_status (e : transport_error) : option Z :=
  match e with
  | RelayerTransportError _ s _ _ => Some s
  | PaymentRequiredError _ _ _ => Some 402
  | ReadStateConflictError _ _ => Some 409
  | _ => None
  end.

(** Arrays, which the declared type [string | null] excludes, count as unreadable. *)
Definition parseMinCost (minCost : option json) : option Z :=
  match minCost with
  | Some (JStr []) => None
  | Some (JStr s) => StringToBigInt s
  | Some (JNum (Int z)) => Some z
  | Some (JBool b) => Some (if b then 1 else 0)
  | _ => None
  end.

(** [raw ?? null] *)
Definition nullish (raw : option json) : option json := json_opt raw.

(** [raw === 's'] *)
Definition is_string (raw : option json) (s : jsstr) : bool :=
  match raw with Some (JStr x) => bool_decide (x = s) | _ => false end.

Definition is_null (v : json) : bool := match v with JNull => true | _ => false end.

(** JavaScript truth of a JSON value. *)
Definition truthy (v : json) : bool :=
  match v with
  | JNull | JBool false | JNum (Int 0) | JNum NaN | JStr [] => false
  | _ => true
  end.

(** * The world of a transport *)

Record Request := { method : jsstr; url : jsstr; rq_headers : headers; rq_body : option jsstr }.

(** [body] of a response: the JSON read from it, or the name of the error that reading throws. *)
Inductive reply := Failed (name : jsstr) | Response (status : Z) (statusText : jsstr) (body : outcome jsstr json).

Record await_step := { st_clock : Z; st_disconnect : bool; st_abort : bool; st_reply : reply }.

Record http := {
  turn : nat;                                         (* awaits so far *)
  clock : Z;                                          (* Date.now() *)
  disconnected : bool;
  aborted : bool;                                     (* the subscription's signal *)
  headerAuthCache : list (jsstr * (headers * Z));
  sent : list Request;                                (* arguments of fetch, oldest first *)
  reported : list transport_error;                    (* arguments of onError, oldest first *)
}.

Definition set_cache c w := {| turn := turn w; clock := clock w; disconnected := disconnected w; aborted := aborted w;
  headerAuthCache := c; sent := sent w; reported := reported w |}.
Definition add_sent r w := {| turn := turn w; clock := clock w; disconnected := disconnected w; aborted := aborted w;
  headerAuthCache := headerAuthCache w; sent := sent w ++ [r]; reported := reported w |}.
Definition add_reported e w := {| turn := turn w; clock := clock w; disconnected := disconnected w; aborted := aborted w;
  headerAuthCache := headerAuthCache w; sent := sent w; reported := reported w ++ [e] |}.

(** [disconnect()] *)
Definition disconnect (w : http) : http := {| turn := turn w; clock := clock w; disconnected := true; aborted := aborted w;
  headerAuthCache := []; sent := sent w; reported := reported w |}.

(** The end of one await. *)
Definition after_await (e : await_step) (w : http) : http :=
  let w' := {| turn := S (turn w); clock := st_clock e; disconnected := disconnected w;
               aborted := aborted w || st_abort e; headerAuthCache := headerAuthCache w;
               sent := sent w; reported := reported w |} in
  if st_disconnect e then disconnect w' else w'.

(** * Configuration *)

(** [headerAuthTtlMs] in milliseconds; [pollingIntervalMs] and [timeout] only
    change when awaits end, which [env] decides. *)
Record HTTPRelayerTransportConfig := {
  cf_relayerUrl : jsstr; cf_apiPrefix : option jsstr; cf_headerAuthTtlMs : option Z;
}.

Record transport := { relayerUrl : jsstr; apiPrefix : jsstr; serverTtl : Z }.

Definition HTTPRelayerTransport (c : HTTPRelayerTransportConfig) : transport :=
  let rawPrefix := trim (default [] (cf_apiPrefix c)) in
  {| relayerUrl := strip_trailing 47 (cf_relayerUrl c);
     apiPrefix := if is_nil rawPrefix then []
                  else strip_trailing 47 (if startsWith (js "/") rawPrefix then rawPrefix else 47 :: rawPrefix);
     serverTtl := default 900000 (cf_headerAuthTtlMs c) |}.

(** [serverTtl - min(60_000, 0.1 * serverTtl)], never negative, in tenths of a millisecond. *)
Definition headerAuthCacheTtl10 (t : transport) : Z :=
  Z.max 0 (10 * serverTtl t - Z.min 600000 (serverTtl t)).

Definition rel (path : jsstr) : jsstr := if startsWith (js "/") path then path else 47 :: path.

Definition relayerPath (t : transport) (path : jsstr) : jsstr :=
  if is_nil (apiPrefix t) then rel path else apiPrefix t ++ rel path.

Definition v1Path (path : jsstr) : jsstr := js "/v1" ++ rel path.

Section transport.
Context `{JsonNumbers} `{JsText} `{HexCodec} `{MySoCrypto} `{Base64Codec}.
Context (env : nat → await_step) (t : transport).

Definition call (A : Type) : Type := eff http transport_error A.

(** * Requests *)

Definition await : call reply := λ w, (Ok (st_reply (env (turn w))), after_await (env (turn w)) w).

Definition fetch (rq : Request) : call reply :=
  _ ← modify (add_sent rq);
  r ← await;
  w ← get_state;
  match r with
  | Failed name => throw (Platform name)
  | Response _ _ _ => if disconnected w then throw (Platform (js "AbortError")) else mret r
  end.

(** [response.json()] *)
Definition read_json (body : outcome jsstr json) : call json :=
  _ ← await;
  w ← get_state;
  match body with
  | Throw name => throw (Platform name)
  | Ok v => if disconnected w then throw (Platform (js "AbortError")) else mret v
  end.

Definition error_of_body (status : Z) (statusText : jsstr) (body : json) : transport_error :=
  let f k := obj_get body (js k) in
  if is_null body then RelayerTransportError (Some (JStr statusText)) status None None   (* a TypeError, caught *)
  else if (status =? 402) || is_string (f "code") (js "PAYMENT_REQUIRED")
  then PaymentRequiredError (f "error") (parseMinCost (f "min_cost")) (nullish (f "recipient"))
  else RelayerTransportError (f "error") status (f "code") (Some body).

Definition handleErrorResponse (status : Z) (statusText : jsstr) (body : outcome jsstr json) : call reply :=
  e ← try_catch (v ← read_json body; mret (error_of_body status statusText v))
                (λ _, mret (RelayerTransportError (Some (JStr statusText)) status None None));
  throw e.

Definition response_ok (status : Z) : bool := (200 <=? status) && (status <=? 299).

(** The [catch] of [#request]. *)
Definition report (u : jsstr) (e : transport_error) : call reply :=
  let e' := match e with
            | Platform name => if decide (name = js "TimeoutError") then HttpTimeoutError u else e
            | _ => e
            end in
  _ ← modify (add_reported e');
  throw e'.

(** [view] reads the body at the type of the call.  The body is read after the
    [try] block is left: [return response.json()] does not await it. *)
Definition request {T} (view : json → option T) (path m : jsstr) (h : headers) (body : option jsstr) : call T :=
  w ← get_state;
  if disconnected w then throw (RelayerTransportError (Some (JStr (js "Transport is disconnected"))) 0 None None) else
  let u := relayerUrl t ++ path in
  r ← try_catch (r ← fetch {| method := m; url := u; rq_headers := h; rq_body := body |};
                 match r with
                 | Response status text b => if response_ok status then mret r else handleErrorResponse status text b
                 | Failed name => throw (Platform name)
                 end)
                (report u);
  match r with
  | Response _ _ b =>
      v ← read_json b;
      match view v with Some x => mret x | None => throw IllTyped end
  | Failed name => throw (Platform name)
  end.

(** * Authenticated requests *)

(** [Date.now()] is read, then the signature is awaited. *)
Definition sign_with {A} (auth : Z → outcome sign_error A) : call A :=
  w ← get_state;
  _ ← await;
  match auth (clock w) with Ok a => mret a | Throw e => throw (SignError e) end.

Definition headerAuthCacheKey (signer : Signer) (groupId : jsstr) : jsstr :=
  sender_of signer ++ js ":" ++ toLowerCase groupId.

Definition cachedHeaderAuth (signer : Signer) (groupId : jsstr) (forceFresh : bool) : call headers :=
  let cacheKey := headerAuthCacheKey signer groupId in
  _ ← (if forceFresh then modify (λ w, set_cache (map_delete cacheKey (headerAuthCache w)) w) else mret tt);
  w ← get_state;
  let fresh :=
    h ← sign_with (λ now, createHeaderAuth now signer groupId);
    _ ← modify (λ w, set_cache (map_set cacheKey (h, clock w) (headerAuthCache w)) w);
    mret h in
  match map_get cacheKey (headerAuthCache w) with
  | Some (h, createdAt) => if 10 * (clock w - createdAt) <? headerAuthCacheTtl10 t then mret h else fresh
  | None => fresh
  end.

Definition requestWithGroupHeaderAuth {T} (view : json → option T) (signer : Signer) (groupId path m : jsstr) : call T :=
  let attempt forceFresh :=
    h ← cachedHeaderAuth signer groupId forceFresh;
    request view path m h None in
  try_catch (attempt false)
    (λ e, if bool_decide (relayer_status e = Some 401) then attempt true else throw e).

Definition json_headers (h : headers) : headers := spread h [(js "Content-Type", js "application/json")].

(** [createBodyAuth], then a request with the signed object as its JSON body. *)
Definition body_request {T} (view : json → option T) (signer : Signer) (m path : jsstr) (payload : list (jsstr * json))
    : call T :=
  bh ← sign_with (λ now, createBodyAuth now signer payload);
  request view path m (json_headers bh.2) (Some (stringify (JObj bh.1))).

Definition wallet_get {T} (view : json → option T) (signer : Signer) (path : jsstr) : call T :=
  h ← sign_with (λ now, createWalletHeaderAuth now signer);
  request view path (js "GET") h None.
End transport.
