(* ===== verification/HttpCalls.v ===== *)
(** The REST calls of the HTTP relayer transport ([relayer/http-transport.ts]):
    the types the code gives to the relayer's JSON, the payload each call signs
    and sends, and the value it returns.  [call_kind] lists the calls. *)
From S2P Require Import Prelude JsString JsMap Utf8 Json Verification Receipts SyncManager AuthHeaders Wire HttpTransport.

(** * Reading JSON at a declared type *)

Definition as_str (o : option json) : option jsstr := json_str o.
Definition as_num (o : option json) : option number := match o with Some (JNum n) => Some n | _ => None end.
Definition as_int (o : option json) : option Z := match o with Some (JNum (Int z)) => Some z | _ => None end.
Definition as_bool (o : option json) : option bool := match o with Some (JBool b) => Some b | _ => None end.
Definition as_any (o : option json) : option (option json) := Some (nullish o).

Definition optional {A} (f : option json → option A) (o : option json) : option (option A) :=
  match o with None | Some JNull => Some None | _ => Some <$> f o end.

Definition as_list {A} (f : option json → option A) (o : option json) : option (list A) :=
  match o with Some (JArr l) => mapM (λ v, f (Some v)) l | _ => None end.

Definition field {A} (f : option json → option A) (v : json) (k : string) : option A := f (obj_get v (js k)).

Definition WireAttachment_of (o : option json) : option WireAttachment :=
  v ← o;
  s ← field as_str v "storage_id"; n ← field as_str v "nonce";
  e ← field as_str v "encrypted_metadata"; m ← field as_str v "metadata_nonce";
  Some {| storage_id := s; w_nonce := n; encrypted_metadata := e; metadata_nonce := m |}.

Definition WireMessageResponse_of (o : option json) : option WireMessageResponse :=
  v ← o;
  a1 ← field as_str v "message_id"; a2 ← field as_str v "group_id"; a3 ← field as_num v "order";
  a4 ← field (optional as_str) v "encrypted_text"; a5 ← field (optional as_str) v "nonce";
  a6 ← field (optional as_num) v "key_version"; a7 ← field as_str v "sender_address";
  a8 ← field as_int v "created_at"; a9 ← field as_int v "updated_at";
  b1 ← field (optional (as_list WireAttachment_of)) v "attachments";
  b2 ← field as_bool v "is_edited"; b3 ← field as_bool v "is_deleted"; b4 ← field as_str v "sync_status";
  b5 ← field (optional as_str) v "quilt_patch_id"; b6 ← field (optional as_str) v "signature";
  b7 ← field (optional as_int) v "signature_version"; b8 ← field (optional as_str) v "public_key";
  b9 ← field (optional as_str) v "principal_owner"; c1 ← field (optional as_str) v "sub_agent_id";
  c2 ← field (optional as_int) v "identity_class"; c3 ← field (optional as_str) v "kind";
  c4 ← field as_any v "system"; c5 ← field as_any v "metadata";
  Some {| message_id := a1; group_id := a2; w_order := a3; encrypted_text := a4; wm_nonce := a5; key_version := a6;
          sender_address := a7; created_at := a8; updated_at := a9; w_attachments := b1; is_edited := b2;
          is_deleted := b3; sync_status := b4; quilt_patch_id := b5; w_signature := b6; signature_version := b7;
          public_key := b8; principal_owner := b9; sub_agent_id := c1; identity_class := c2; w_kind := c3;
          w_system := c4; w_metadata := c5 |}.

(** * Parameters and results *)

Record PaymentSendMetadata := {
  pm_digest : option jsstr; pm_assetKind : PaymentAssetKind; pm_requestMessageId : option jsstr;
  pm_senderWallet : option jsstr;
}.

Record SendAttribution := { sa_principalOwner : jsstr; sa_subAgentId : jsstr; sa_identityClass : Z }.

Record SendMessageParams := {
  sp_groupId : jsstr; sp_encryptedText : bytes; sp_nonce : bytes; sp_keyVersion : Z;
  sp_kind : option MessageKind; sp_signatureVersion : option Z; sp_idempotencyKey : option jsstr;
  sp_sharedPostAddress : option jsstr; sp_paymentMetadata : option PaymentSendMetadata;
  sp_attachments : option (list Attachment); sp_messageSignature : option jsstr;
  sp_notifyWallets : option (list jsstr); sp_attribution : option SendAttribution;
}.

Record UpdateMessageParams := {
  up_messageId : jsstr; up_groupId : jsstr; up_encryptedText : bytes; up_nonce : bytes; up_keyVersion : Z;
  up_signatureVersion : option Z; up_attachments : option (list Attachment); up_messageSignature : option jsstr;
}.

Record RelayerReactionEntry := { chainSeq : Z; emoji : jsstr; count : Z; reactors : list jsstr }.

Record ConversationPrefs := {
  notificationMode : jsstr; receiptMode : jsstr; hideOnlinePresence : bool; version : Z;
}.

Record GroupPresenceEntry := { gp_member : jsstr; gp_lastSeen : option jsstr; gp_online : bool }.

Record RelayerAgentConversation := {
  ac_groupId : jsstr; ac_creatorActor : jsstr; ac_creatorPrincipal : jsstr; ac_creatorSubAgentId : option jsstr;
  ac_creatorIdentityClass : option Z; ac_organizationId : option jsstr; ac_groupName : option jsstr;
  ac_groupUuid : option jsstr; ac_createdAt : Z;
}.

Record DmGateResult := {
  allowed : bool; dg_reason : option jsstr; blocked : bool; following : bool; paid : bool; firstOutbound : bool;
  peerPaid : bool; peerEscrowAmount : option Z; minCost : option Z; dg_recipient : jsstr;
}.

Record FetchedPage := { pg_messages : list RelayerMessage; pg_hasNext : bool }.

(** * Payloads *)

(** [Number(b)]: the nearest double, ties to even.  A [u64] never overflows a double. *)
Definition Number_of_bigint (b : Z) : number :=
  let e := Z.max 0 (Z.log2 (Z.abs b) - 52) in
  let q := Z.abs b / 2 ^ e in
  let r := Z.abs b mod 2 ^ e in
  let up := (2 ^ e <? 2 * r) || ((2 ^ e =? 2 * r) && negb (q mod 2 =? 0)) in
  Int (Z.sgn b * (if up then q + 1 else q) * 2 ^ e).

(** [if (o) payload.k = o] for a string. *)
Definition text_field (k : string) (o : option jsstr) : list (jsstr * json) :=
  match o with Some (c :: s) => [(js k, JStr (c :: s))] | _ => [] end.

(** [if (o !== undefined) payload.k = o] *)
Definition given {A} (k : string) (f : A → json) (o : option A) : list (jsstr * json) :=
  match o with Some a => [(js k, f a)] | None => [] end.

Definition wire_attachment_json (w : WireAttachment) : json :=
  JObj [(js "storage_id", JStr (storage_id w)); (js "nonce", JStr (w_nonce w));
        (js "encrypted_metadata", JStr (encrypted_metadata w)); (js "metadata_nonce", JStr (metadata_nonce w))].

Definition attachments_payload (o : option (list Attachment)) : json :=
  JArr ((λ a, wire_attachment_json (toWireAttachment a)) <$> default [] o).

Definition asset_kind_name (k : PaymentAssetKind) : jsstr := match k with native => js "native" | spt => js "spt" end.

Definition num_json (z : Z) : json := JNum (Int z).

Section calls.
Context `{JsonNumbers} `{JsText} `{HexCodec} `{MySoCrypto} `{Base64Codec}.
Context (env : nat → await_step) (t : transport).

Definition send_payload (p : SendMessageParams) : list (jsstr * json) :=
  [(js "group_id", JStr (sp_groupId p)); (js "encrypted_text", JStr (toHex (sp_encryptedText p)));
   (js "nonce", JStr (toHex (sp_nonce p))); (js "key_version", JNum (Number_of_bigint (sp_keyVersion p)));
   (js "kind", JStr (kind_name (default k_text (sp_kind p))));
   (js "signature_version", num_json (default 1 (sp_signatureVersion p)));
   (js "attachments", attachments_payload (sp_attachments p))]
  ++ text_field "idempotency_key" (sp_idempotencyKey p)
  ++ match sp_notifyWallets p with
     | Some (w :: ws) => [(js "notify_wallets", JArr ((λ x, JStr (toLowerCase x)) <$> (w :: ws)))]
     | _ => []
     end
  ++ match sp_sharedPostAddress p with
     | Some (c :: s) => [(js "shared_post_address", JStr (post_reference (Some (c :: s))))]
     | _ => []
     end
  ++ given "metadata" (λ m, JObj ((js "asset_kind", JStr (asset_kind_name (pm_assetKind m)))
                                  :: text_field "digest" (pm_digest m)
                                  ++ text_field "request_message_id" (pm_requestMessageId m)
                                  ++ text_field "sender_wallet" (pm_senderWallet m))) (sp_paymentMetadata p)
  ++ text_field "message_signature" (sp_messageSignature p)
  ++ match sp_attribution p with
     | Some a => [(js "principal_owner", JStr (sa_principalOwner a)); (js "sub_agent_id", JStr (sa_subAgentId a));
                  (js "identity_class", num_json (sa_identityClass a))]
     | None => []
     end.

Definition update_payload (p : UpdateMessageParams) : list (jsstr * json) :=
  [(js "message_id", JStr (up_messageId p)); (js "group_id", JStr (up_groupId p));
   (js "encrypted_text", JStr (toHex (up_encryptedText p))); (js "nonce", JStr (toHex (up_nonce p)));
   (js "key_version", JNum (Number_of_bigint (up_keyVersion p)));
   (js "signature_version", num_json (default 1 (up_signatureVersion p)));
   (js "attachments", attachments_payload (up_attachments p))]
  ++ text_field "message_signature" (up_messageSignature p).

(** * Calls *)

Notation call := (HttpTransport.call).

Definition of_option {A} (e : transport_error) (o : option A) : call A :=
  match o with Some a => mret a | None => throw e end.

(** A call whose answer is not used; it is still read as JSON. *)
Definition ignore (v : json) : option unit := Some tt.

Definition group_path (groupId : jsstr) (tail : string) : jsstr :=
  relayerPath t (js "/groups/" ++ groupId ++ js "/" ++ js tail).

Definition messages_path (l : list (jsstr * jsstr)) : jsstr := relayerPath t (js "/messages") ++ js "?" ++ search_params l.

Definition sendMessage (signer : Signer) (p : SendMessageParams) : call jsstr :=
  body_request env t (λ v, field as_str v "message_id") signer (js "POST") (relayerPath t (js "/messages")) (send_payload p).

Definition number_param (k : string) (o : option number) : list (jsstr * jsstr) :=
  match o with Some n => [(js k, String_of_number n)] | None => [] end.

Definition page_of (v : json) : option (list WireMessageResponse * bool) :=
  ms ← field (as_list WireMessageResponse_of) v "messages"; n ← field as_bool v "hasNext"; Some (ms, n).

Definition fetchMessages (signer : Signer) (groupId : jsstr) (afterOrder beforeOrder limit : option number)
    : call FetchedPage :=
  page ← requestWithGroupHeaderAuth env t page_of signer groupId
           (messages_path ((js "group_id", groupId) :: number_param "after_order" afterOrder
                           ++ number_param "before_order" beforeOrder ++ number_param "limit" limit)) (js "GET");
  ms ← of_option Malformed (mapM fromWireMessage page.1);
  mret {| pg_messages := ms; pg_hasNext := page.2 |}.

Definition fetchMessage (signer : Signer) (messageId groupId : jsstr) : call RelayerMessage :=
  wire ← requestWithGroupHeaderAuth env t (λ v, WireMessageResponse_of (Some v)) signer groupId
           (messages_path [(js "message_id", messageId); (js "group_id", groupId)]) (js "GET");
  of_option Malformed (fromWireMessage wire).

Definition updateMessage (signer : Signer) (p : UpdateMessageParams) : call unit :=
  body_request env t ignore signer (js "PUT") (relayerPath t (js "/messages")) (update_payload p).

Definition respondToPaymentRequest (signer : Signer) (groupId messageId action : jsstr) : call RelayerMessage :=
  wire ← body_request env t (λ v, WireMessageResponse_of (Some v)) signer (js "POST") (relayerPath t (js "/messages/respond"))
           [(js "group_id", JStr groupId); (js "message_id", JStr messageId); (js "action", JStr action)];
  of_option Malformed (fromWireMessage wire).

Definition deleteMessage (signer : Signer) (messageId groupId : jsstr) : call unit :=
  requestWithGroupHeaderAuth env t ignore signer groupId (relayerPath t (js "/messages") ++ js "/" ++ messageId) (js "DELETE").

Definition reaction_entry_of (o : option json) : option RelayerReactionEntry :=
  v ← o;
  c ← field as_int v "chain_seq"; e ← field as_str v "emoji"; n ← field as_int v "count";
  r ← field (optional (as_list as_str)) v "reactors";
  Some {| chainSeq := c; emoji := e; count := n; reactors := default [] r |}.

Definition listGroupReactions (signer : Signer) (groupId : jsstr) (seq : option number) : call (list RelayerReactionEntry) :=
  q ← of_option BadURI match seq with
                       | Some n => s ← encodeURIComponent (String_of_number n); Some (js "?chain_seq=" ++ s)
                       | None => Some []
                       end;
  requestWithGroupHeaderAuth env t (λ v, as_list reaction_entry_of (Some v)) signer groupId
    (group_path groupId "reactions" ++ q) (js "GET").

Definition postGroupReaction (signer : Signer) (groupId : jsstr) (seq : number) (e : jsstr) (add : option bool) : call unit :=
  body_request env t ignore signer (js "POST") (group_path groupId "reactions")
    [(js "group_id", JStr groupId); (js "chain_seq", JNum seq); (js "emoji", JStr e); (js "add", JBool (default true add))].

Definition listGroupPins (signer : Signer) (groupId : jsstr) : call (list number) :=
  requestWithGroupHeaderAuth env t (λ v, as_list as_num (Some v)) signer groupId (group_path groupId "pins") (js "GET").

Definition setGroupPin (signer : Signer) (groupId : jsstr) (seq : number) (pin : option bool) : call unit :=
  body_request env t ignore signer (js "POST") (group_path groupId "pins")
    [(js "group_id", JStr groupId); (js "chain_seq", JNum seq); (js "pin", JBool (default true pin))].

Definition receipt_of (o : option json) : option MemberReceipt :=
  v ← o;
  m ← field as_str v "member"; d ← field as_int v "delivered_upto"; r ← field as_int v "read_upto";
  Some {| member := m; deliveredUpto := d; readUpto := r |}.

Definition getGroupReceipts (signer : Signer) (groupId : jsstr) : call (list MemberReceipt) :=
  ms ← requestWithGroupHeaderAuth env t (λ v, if is_null v then None else field (optional (as_list receipt_of)) v "members")
         signer groupId (group_path groupId "receipts") (js "GET");
  mret (default [] ms).

Definition postGroupReceipts (signer : Signer) (groupId : jsstr) (delivered read : option number) : call unit :=
  body_request env t ignore signer (js "POST") (group_path groupId "receipts")
    ((js "group_id", JStr groupId) :: given "delivered_upto" JNum delivered ++ given "read_upto" JNum read).

Definition prefs_of (v : json) : option ConversationPrefs :=
  n ← field as_str v "notification_mode"; r ← field as_str v "receipt_mode";
  h ← field (optional as_bool) v "hide_online_presence"; k ← field as_int v "version";
  Some {| notificationMode := n; receiptMode := r; hideOnlinePresence := default false h; version := k |}.

Definition getConversationPrefs (signer : Signer) (groupId : jsstr) : call ConversationPrefs :=
  requestWithGroupHeaderAuth env t prefs_of signer groupId (group_path groupId "prefs") (js "GET").

Definition putConversationPrefs (signer : Signer) (groupId : jsstr) (notification receipt : option jsstr) (hide : option bool)
    : call ConversationPrefs :=
  body_request env t prefs_of signer (js "PUT") (group_path groupId "prefs")
    ((js "group_id", JStr groupId) :: given "notification_mode" JStr notification
     ++ given "receipt_mode" JStr receipt ++ given "hide_online_presence" JBool hide).

(** [{ encrypted_blob, blob_version, updated_at }] before [fromHex]. *)
Definition read_state_of (v : json) : option (jsstr * number * option jsstr) :=
  b ← field as_str v "encrypted_blob"; n ← field as_num v "blob_version"; u ← field (optional as_str) v "updated_at";
  Some (b, n, u).

Definition wire_read_state (x : jsstr * number * option jsstr) : option UserReadStateWire :=
  b ← fromHex x.1.1;
  Some {| rs_encryptedBlob := b; rs_blobVersion := x.1.2; rs_updatedAt := x.2 |}.

Definition getUserReadState (signer : Signer) : call UserReadStateWire :=
  wire ← wallet_get env t read_state_of signer (v1Path (js "/users/read-state"));
  of_option Malformed (wire_read_state wire).

(** [None] is the function's [null]; an error of [fromHex] replaces the error. *)
Definition toReadStateConflict (e : transport_error) : option transport_error :=
  match e with
  | RelayerTransportError message 409 (Some (JStr code)) (Some body) =>
      if decide (code = js "READ_STATE_CONFLICT") then
        match obj_get body (js "current") with
        | Some current =>
            if truthy current then
              Some match read_state_of current with
                   | None => IllTyped
                   | Some wire => match wire_read_state wire with
                                  | Some w => ReadStateConflictError message w
                                  | None => Malformed
                                  end
                   end
            else None
        | None => None
        end
      else None
  | _ => None
  end.

Definition putUserReadState (signer : Signer) (blob : bytes) (blobVersion : number) (expectedVersion : option number)
    : call number :=
  bh ← sign_with env (λ now, createBodyAuth now signer
          ([(js "encrypted_blob", JStr (toHex blob)); (js "blob_version", JNum blobVersion)]
           ++ given "expected_version" JNum expectedVersion));
  try_catch
    (v ← request env t (λ v, if is_null v then None else field (optional as_num) v "blob_version")
           (v1Path (js "/users/read-state")) (js "PUT") (json_headers bh.2) (Some (stringify (JObj bh.1)));
     mret (default blobVersion v))
    (λ e, throw (default e (toReadStateConflict e))).

Definition unread_of (o : option json) : option UnreadRow :=
  v ← o;
  g ← field as_str v "group_id"; l ← field as_int v "latest_order"; u ← field as_int v "unread_count";
  Some {| row_groupId := g; row_unreadCount := u; row_latestOrder := l |}.

Definition fetchUnreadCounts (signer : Signer) (items : list (jsstr * Z)) : call (list UnreadRow) :=
  body_request env t (λ v, field (as_list unread_of) v "items") signer (js "POST") (v1Path (js "/users/unread-counts"))
    [(js "items", JArr ((λ i, JObj [(js "group_id", JStr i.1); (js "after_order", num_json i.2)]) <$> items))].

Definition sendTyping (signer : Signer) (groupId : jsstr) (typing : bool) : call unit :=
  body_request env t ignore signer (js "POST") (group_path groupId "typing")
    [(js "group_id", JStr groupId); (js "typing", JBool typing)].

Definition presence_of (o : option json) : option GroupPresenceEntry :=
  v ← o;
  m ← field as_str v "member"; l ← field (optional as_str) v "last_seen"; n ← field as_bool v "online";
  Some {| gp_member := m; gp_lastSeen := l; gp_online := n |}.

Definition getGroupPresence (signer : Signer) (groupId : jsstr) : call (list GroupPresenceEntry) :=
  requestWithGroupHeaderAuth env t (λ v, as_list presence_of (Some v)) signer groupId (group_path groupId "presence") (js "GET").

Definition postPushToken (signer : Signer) (platform token environment : jsstr) : call unit :=
  body_request env t ignore signer (js "POST") (v1Path (js "/devices/push-tokens"))
    [(js "platform", JStr platform); (js "token", JStr token); (js "environment", JStr environment)].

Definition deletePushToken (signer : Signer) (token : jsstr) : call unit :=
  h ← sign_with env (λ now, createWalletDeleteAuth now signer token);
  request env t ignore (v1Path (js "/devices/push-tokens/" ++ token)) (js "DELETE") h None.

Definition postPresence (signer : Signer) (active : option bool) : call unit :=
  body_request env t ignore signer (js "POST") (v1Path (js "/devices/presence")) [(js "active", JBool (default true active))].

(** The wire row and the row built from it have the same fields. *)
Definition fromWireAgentConversation (o : option json) : option RelayerAgentConversation :=
  v ← o;
  g ← field as_str v "group_id"; a ← field as_str v "creator_actor"; p ← field as_str v "creator_principal";
  s ← field (optional as_str) v "creator_sub_agent_id"; i ← field (optional as_int) v "creator_identity_class";
  o ← field (optional as_str) v "organization_id"; n ← field (optional as_str) v "group_name";
  u ← field (optional as_str) v "group_uuid"; c ← field as_int v "created_at";
  Some {| ac_groupId := g; ac_creatorActor := a; ac_creatorPrincipal := p; ac_creatorSubAgentId := s;
          ac_creatorIdentityClass := i; ac_organizationId := o; ac_groupName := n; ac_groupUuid := u; ac_createdAt := c |}.

Definition conversations_of (v : json) : option (list RelayerAgentConversation) :=
  field (as_list fromWireAgentConversation) v "conversations".

Definition limit_text (limit : option number) : jsstr := String_of_number (default (Int 100) limit).

Definition listAgentConversations (signer : Signer) (limit : option number) : call (list RelayerAgentConversation) :=
  wallet_get env t conversations_of signer (v1Path (js "/agent-conversations?limit=" ++ limit_text limit)).

Definition listGroupsForAgent (signer : Signer) (derivedAddress : jsstr) (limit : option number)
    : call (list RelayerAgentConversation) :=
  h ← sign_with env (λ now, createWalletHeaderAuth now signer);
  encoded ← of_option BadURI (encodeURIComponent derivedAddress);
  request env t conversations_of (v1Path (js "/agent-conversations/by-agent/" ++ encoded ++ js "?limit=" ++ limit_text limit))
    (js "GET") h None.

Definition listMemberConversations (signer : Signer) (limit offset : option number) (afterGroupId : option jsstr)
    : call (list jsstr) :=
  wire ← wallet_get env t Some signer
           (v1Path (js "/member-conversations?" ++ search_params
              [(js "limit", limit_text limit);
               match afterGroupId with
               | Some g => (js "after_group_id", g)
               | None => (js "offset", String_of_number (default (Int 0) offset))
               end]));
  if is_null wire then throw (Platform (js "TypeError")) else
  match field (as_list as_str) wire "group_ids" with
  | Some ids => mret ids
  | None => throw (RelayerTransportError (Some (JStr (js "Invalid member conversation response"))) 502
                     (Some (JStr (js "INVALID_RESPONSE"))) None)
  end.

Definition dm_gate_of (v : json) : option DmGateResult :=
  a ← field as_bool v "allowed"; r ← field (optional as_str) v "reason"; b ← field as_bool v "blocked";
  f ← field as_bool v "following"; p ← field as_bool v "paid"; o ← field (optional as_bool) v "first_outbound";
  pp ← field (optional as_bool) v "peer_paid"; w ← field as_str v "recipient";
  Some {| allowed := a; dg_reason := r; blocked := b; following := f; paid := p; firstOutbound := default true o;
          peerPaid := default false pp; peerEscrowAmount := parseMinCost (obj_get v (js "peer_escrow_amount"));
          minCost := parseMinCost (obj_get v (js "min_cost")); dg_recipient := w |}.

Definition checkDmGate (signer : Signer) (recipient : jsstr) (groupId : option jsstr) : call DmGateResult :=
  wallet_get env t dm_gate_of signer
    (v1Path (js "/messaging/dm-gate?" ++ search_params
       ((js "recipient", recipient) :: match groupId with Some (c :: s) => [(js "group_id", c :: s)] | _ => [] end))).
End calls.
