(* ===== verification/HttpAuth.v ===== *)
(** What the HTTP transport guarantees about every REST call: nothing is sent
    once it is disconnected, every request carries a signature of what it asks
    for, a 401 is retried at most once and with a fresh signature, and each
    answer of the relayer becomes the documented error. *)
From S2P Require Import Prelude JsString JsMap Utf8 Json Base64 Verification Receipts SyncManager AuthHeaders Wire HttpTransport HttpCalls.

(** * The calls *)

Inductive rest_call :=
  | SendMessage (p : SendMessageParams)
  | FetchMessages (groupId : jsstr) (afterOrder beforeOrder limit : option number)
  | FetchMessage (messageId groupId : jsstr)
  | UpdateMessage (p : UpdateMessageParams)
  | RespondToPaymentRequest (groupId messageId action : jsstr)
  | DeleteMessage (messageId groupId : jsstr)
  | ListGroupReactions (groupId : jsstr) (chainSeq : option number)
  | PostGroupReaction (groupId : jsstr) (chainSeq : number) (emoji : jsstr) (add : option bool)
  | ListGroupPins (groupId : jsstr)
  | SetGroupPin (groupId : jsstr) (chainSeq : number) (pin : option bool)
  | GetGroupReceipts (groupId : jsstr)
  | PostGroupReceipts (groupId : jsstr) (deliveredUpto readUpto : option number)
  | GetConversationPrefs (groupId : jsstr)
  | PutConversationPrefs (groupId : jsstr) (notificationMode receiptMode : option jsstr) (hide : option bool)
  | GetUserReadState
  | PutUserReadState (blob : bytes) (blobVersion : number) (expectedVersion : option number)
  | FetchUnreadCounts (items : list (jsstr * Z))
  | SendTyping (groupId : jsstr) (typing : bool)
  | GetGroupPresence (groupId : jsstr)
  | PostPushToken (platform token environment : jsstr)
  | DeletePushToken (token : jsstr)
  | PostPresence (active : option bool)
  | ListAgentConversations (limit : option number)
  | ListGroupsForAgent (derivedAddress : jsstr) (limit : option number)
  | ListMemberConversations (limit offset : option number) (afterGroupId : option jsstr)
  | CheckDmGate (recipient : jsstr) (groupId : option jsstr).

Section auth.
Context `{JsonNumbers} `{JsText} `{HexCodec} `{MySoCrypto} `{Base64Codec}.
Context (env : nat → await_step) (t : transport).

Notation call := (HttpTransport.call).

Definition discard {A} (m : call A) : call unit := _ ← m; mret tt.

(** The call, without its value. *)
Definition run (s : Signer) (c : rest_call) : call unit :=
  match c with
  | SendMessage p => discard (sendMessage env t s p)
  | FetchMessages g a b l => discard (fetchMessages env t s g a b l)
  | FetchMessage m g => discard (fetchMessage env t s m g)
  | UpdateMessage p => updateMessage env t s p
  | RespondToPaymentRequest g m a => discard (respondToPaymentRequest env t s g m a)
  | DeleteMessage m g => deleteMessage env t s m g
  | ListGroupReactions g q => discard (listGroupReactions env t s g q)
  | PostGroupReaction g q e a => postGroupReaction env t s g q e a
  | ListGroupPins g => discard (listGroupPins env t s g)
  | SetGroupPin g q p => setGroupPin env t s g q p
  | GetGroupReceipts g => discard (getGroupReceipts env t s g)
  | PostGroupReceipts g d r => postGroupReceipts env t s g d r
  | GetConversationPrefs g => discard (getConversationPrefs env t s g)
  | PutConversationPrefs g n r h => discard (putConversationPrefs env t s g n r h)
  | GetUserReadState => discard (getUserReadState env t s)
  | PutUserReadState b v e => discard (putUserReadState env t s b v e)
  | FetchUnreadCounts l => discard (fetchUnreadCounts env t s l)
  | SendTyping g b => sendTyping env t s g b
  | GetGroupPresence g => discard (getGroupPresence env t s g)
  | PostPushToken p k e => postPushToken env t s p k e
  | DeletePushToken k => deletePushToken env t s k
  | PostPresence a => postPresence env t s a
  | ListAgentConversations l => discard (listAgentConversations env t s l)
  | ListGroupsForAgent d l => discard (listGroupsForAgent env t s d l)
  | ListMemberConversations l o a => discard (listMemberConversations env t s l o a)
  | CheckDmGate r g => discard (checkDmGate env t s r g)
  end.

(** The group a call is scoped to by its headers. *)
Definition header_group (c : rest_call) : option jsstr :=
  match c with
  | FetchMessages g _ _ _ | FetchMessage _ g | DeleteMessage _ g | ListGroupReactions g _ | ListGroupPins g
  | GetGroupReceipts g | GetConversationPrefs g | GetGroupPresence g => Some g
  | _ => None
  end.

(** * Frames: every call is built from requests

    [grows P w w'] relates the worlds before and after: the requests sent in
    between all satisfy [P], and a disconnected transport stays disconnected
    and sends nothing. *)
Definition grows (P : Request → Prop) (w w' : http) : Prop :=
  (∃ l, sent w' = sent w ++ l ∧ Forall P l ∧ (disconnected w = true → l = []))
  ∧ (disconnected w = true → disconnected w' = true).

(** From [w], the call keeps an invariant of the world and only sends requests of [P]. *)
Definition sends_at {A} (I : http → Prop) (P : Request → Prop) (w : http) (m : call A) : Prop :=
  ∀ r w', m w = (r, w') → I w' ∧ grows P w w'.

Definition sends {A} (I : http → Prop) (P : Request → Prop) (m : call A) : Prop := ∀ w, I w → sends_at I P w m.

Lemma grows_refl P w : grows P w w.
Proof. split; [|done]. exists []. rewrite app_nil_r. naive_solver. Qed.

Lemma grows_trans P w1 w2 w3 : grows P w1 w2 → grows P w2 w3 → grows P w1 w3.
Proof.
  intros [(l1 & E1 & F1 & D1) K1] [(l2 & E2 & F2 & D2) K2]. split; [|naive_solver].
  exists (l1 ++ l2). rewrite E2, E1, app_assoc. split; [done|]. split; [by apply Forall_app|].
  intros Hd. by rewrite D1, D2 by auto.
Qed.

Lemma grows_same P w w' : sent w' = sent w → (disconnected w = true → disconnected w' = true) → grows P w w'.
Proof. intros E D. split; [|done]. exists []. rewrite app_nil_r. naive_solver. Qed.

Section sends.
Context (I : http → Prop) (P : Request → Prop).

Lemma sends_ret {A} (a : A) : sends I P (mret a).
Proof. intros w HI r w' [= <- <-]. split; [done|apply grows_refl]. Qed.

Lemma sends_throw {A} e : sends I P (throw e : call A).
Proof. intros w HI r w' [= <- <-]. split; [done|apply grows_refl]. Qed.

Lemma sends_at_bind {A B} w (m : call A) (k : A → call B) :
  sends_at I P w m → (∀ a, sends I P (k a)) → sends_at I P w (m ≫= k).
Proof.
  intros Hm Hk r w' Hr. unfold mbind, eff_bind in Hr. destruct (m w) as [[a|e] w1] eqn:E.
  - destruct (Hm _ _ E) as [HI1 G1]. destruct (Hk a _ HI1 _ _ Hr) as [HI2 G2].
    split; [done|by eapply grows_trans].
  - injection Hr as <- <-. by apply (Hm _ _ E).
Qed.

(** The values a call can return. *)
Definition returns_at {A} (w : http) (Q : A → Prop) (m : call A) : Prop := ∀ a w', m w = (Ok a, w') → Q a.

Lemma sends_at_bind_post {A B} w (Q : A → Prop) (m : call A) (k : A → call B) :
  sends_at I P w m → returns_at w Q m → (∀ a, Q a → sends I P (k a)) → sends_at I P w (m ≫= k).
Proof.
  intros Hm HQ Hk r w' Hr. unfold mbind, eff_bind in Hr. destruct (m w) as [[a|e] w1] eqn:E.
  - destruct (Hm _ _ E) as [HI1 G1]. destruct (Hk a (HQ _ _ E) _ HI1 _ _ Hr) as [HI2 G2].
    split; [done|by eapply grows_trans].
  - injection Hr as <- <-. by apply (Hm _ _ E).
Qed.

Lemma sends_bind {A B} (m : call A) (k : A → call B) :
  sends I P m → (∀ a, sends I P (k a)) → sends I P (m ≫= k).
Proof. intros Hm Hk w HI. apply sends_at_bind; [by apply Hm|done]. Qed.

Lemma sends_at_try {A} w (m : call A) (h : transport_error → call A) :
  sends_at I P w m → (∀ e, sends I P (h e)) → sends_at I P w (try_catch m h).
Proof.
  intros Hm Hh r w' Hr. unfold try_catch in Hr. destruct (m w) as [[a|e] w1] eqn:E.
  - injection Hr as <- <-. by apply (Hm _ _ E).
  - destruct (Hm _ _ E) as [HI1 G1]. destruct (Hh e _ HI1 _ _ Hr) as [HI2 G2].
    split; [done|by eapply grows_trans].
Qed.

Lemma sends_try {A} (m : call A) (h : transport_error → call A) :
  sends I P m → (∀ e, sends I P (h e)) → sends I P (try_catch m h).
Proof. intros Hm Hh w HI. apply sends_at_try; [by apply Hm|done]. Qed.

Lemma sends_of_option {A} e (o : option A) : sends I P (of_option e o).
Proof. destruct o; [apply sends_ret|apply sends_throw]. Qed.

(** A read of the state fixes what the rest of the call knows about it. *)
Lemma sends_get {A} (k : http → call A) :
  (∀ w, I w → sends_at I P w (k w)) → sends I P (w ← get_state; k w).
Proof. intros Hk w HI r w' Hr. exact (Hk w HI r w' Hr). Qed.
End sends.

(** * The cache *)

(** Every cached header was signed for the key it is under. *)
Definition cache_ok (w : http) : Prop := ∀ k h at_,
  map_get k (headerAuthCache w) = Some (h, at_) →
  ∃ now s g, k = headerAuthCacheKey s g ∧ createHeaderAuth now s g = Ok h.

Lemma cache_ok_nil w : headerAuthCache w = [] → cache_ok w.
Proof. intros E k h at_. by rewrite E. Qed.

Lemma cache_ok_same w w' : headerAuthCache w' = headerAuthCache w → cache_ok w → cache_ok w'.
Proof. intros E Hok k h at_. rewrite E. apply Hok. Qed.

Lemma after_await_spec e w :
  sent (after_await e w) = sent w ∧ reported (after_await e w) = reported w
  ∧ disconnected (after_await e w) = disconnected w || st_disconnect e
  ∧ turn (after_await e w) = S (turn w) ∧ clock (after_await e w) = st_clock e
  ∧ headerAuthCache (after_await e w) = if st_disconnect e then [] else headerAuthCache w.
Proof. unfold after_await. destruct (st_disconnect e); simpl; [by rewrite orb_true_r|by rewrite orb_false_r]. Qed.

Section requests.
Context (P : Request → Prop).

Lemma sends_await : sends cache_ok P (await env).
Proof.
  intros w HI r w' [= <- <-]. destruct (after_await_spec (env (turn w)) w) as (E1 & _ & E2 & _ & _ & E3).
  split; [|by apply grows_same; [|rewrite E2; intros ->]].
  destruct (st_disconnect _); [by apply cache_ok_nil|by eapply cache_ok_same].
Qed.

Lemma sends_read_json b : sends cache_ok P (read_json env b).
Proof.
  apply sends_bind; [apply sends_await|]. intros _. apply sends_get. intros w HI.
  destruct b; [|by apply sends_throw]. case_match; [by apply sends_throw|by apply sends_ret].
Qed.

Lemma sends_handleErrorResponse st tx b : sends cache_ok P (handleErrorResponse env st tx b).
Proof.
  apply sends_bind; [|intros e; apply sends_throw].
  apply sends_try; [|intros e; apply sends_ret].
  apply sends_bind; [apply sends_read_json|]. intros v. apply sends_ret.
Qed.

Lemma sends_report u e : sends cache_ok P (report u e).
Proof.
  apply sends_bind; [|intros _; apply sends_throw].
  intros w HI r w' [= <- <-]. split; [by eapply cache_ok_same|by apply grows_same].
Qed.

Lemma fetch_at rq w : P rq → cache_ok w → disconnected w = false → sends_at cache_ok P w (fetch env rq).
Proof.
  intros HP HI Hd r w' Hr.
  assert (cache_ok (add_sent rq w)) as HI1 by (by eapply cache_ok_same).
  assert (sends cache_ok P (r ← await env; w ← get_state;
     match r with Failed name => throw (Platform name)
     | Response _ _ _ => if disconnected w then throw (Platform (js "AbortError")) else mret r end)) as Hrest.
  { apply sends_bind; [apply sends_await|]. intros [name|st tx b]; apply sends_get; intros w0 HI0; [by apply sends_throw|].
    destruct (disconnected w0); [by apply sends_throw|by apply sends_ret]. }
  destruct (Hrest _ HI1 _ _ Hr) as [HI2 G]. split; [done|]. eapply grows_trans; [|exact G].
  split; [|by rewrite Hd]. exists [rq]. split; [done|]. split; [by constructor|by rewrite Hd].
Qed.

Lemma sends_request {T} (view : json → option T) path m h body :
  P {| method := m; url := relayerUrl t ++ path; rq_headers := h; rq_body := body |} →
  sends cache_ok P (request env t view path m h body).
Proof.
  intros HP. apply sends_get. intros w HI. destruct (disconnected w) eqn:Hd; [by apply sends_throw|].
  apply sends_at_bind.
  - apply sends_at_try; [|intros e; apply sends_report]. apply sends_at_bind; [by apply fetch_at|].
    intros [name|st tx b]; [apply sends_throw|]. destruct (response_ok st); [apply sends_ret|apply sends_handleErrorResponse].
  - intros [name|st tx b]; [apply sends_throw|]. apply sends_bind; [apply sends_read_json|].
    intros v. destruct (view v); [apply sends_ret|apply sends_throw].
Qed.

Lemma sends_sign {A} (auth : Z → outcome sign_error A) : sends cache_ok P (sign_with env auth).
Proof.
  apply sends_get. intros w HI. apply sends_at_bind; [by apply sends_await|]. intros _.
  destruct (auth (clock w)); [apply sends_ret|apply sends_throw].
Qed.

(** What a signature covers: the clock reading at the start. *)
Lemma sign_returns {A} (auth : Z → outcome sign_error A) w :
  returns_at w (λ a, auth (clock w) = Ok a) (sign_with env auth).
Proof.
  intros a w' Hr. unfold sign_with, mbind, eff_bind, get_state, await in Hr. simpl in Hr.
  destruct (auth (clock w)); [by injection Hr as <- <-|done].
Qed.

(** A cached or new header for the key of the call. *)
Definition group_header (s : Signer) (g : jsstr) (h : headers) : Prop :=
  ∃ now s' g', headerAuthCacheKey s' g' = headerAuthCacheKey s g ∧ createHeaderAuth now s' g' = Ok h.

(** The new header of a miss: signed, and put in the cache. *)
Definition fresh_header (s : Signer) (g : jsstr) : call headers :=
  h ← sign_with env (λ now, createHeaderAuth now s g);
  _ ← modify (λ w, set_cache (map_set (headerAuthCacheKey s g) (h, clock w) (headerAuthCache w)) w);
  mret h.

Definition forget (s : Signer) (g : jsstr) : http → http := λ w,
  set_cache (map_delete (headerAuthCacheKey s g) (headerAuthCache w)) w.

(** [cachedHeaderAuth], by its three outcomes. *)
Lemma cached_cases s g force w :
  let w0 := if force : bool then forget s g w else w in
  (∃ h at_, map_get (headerAuthCacheKey s g) (headerAuthCache w0) = Some (h, at_)
     ∧ 10 * (clock w0 - at_) < headerAuthCacheTtl10 t ∧ cachedHeaderAuth env t s g force w = (Ok h, w0))
  ∨ cachedHeaderAuth env t s g force w = fresh_header s g w0.
Proof.
  unfold cachedHeaderAuth, fresh_header, forget. destruct force; unfold mbind, eff_bind, modify, mret, eff_ret, get_state; cbv beta iota zeta;
    (destruct (map_get _ _) as [[h at_]|] eqn:Ec; [|by right]);
    (destruct (_ <? _) eqn:El; [left|by right]); apply Z.ltb_lt in El; exists h, at_; done.
Qed.

Lemma forget_ok s g w : cache_ok w → cache_ok (forget s g w).
Proof. intros HI k h at_ Hget. apply (HI k h at_). simpl in Hget. rewrite map_get_delete in Hget. by case_decide. Qed.

Lemma sends_fresh s g : sends cache_ok P (fresh_header s g).
Proof.
  intros w HI. eapply sends_at_bind_post; [by apply sends_sign|apply sign_returns|].
  intros h Hh. apply sends_bind; [|intros _; apply sends_ret].
  intros w0 H0' r0 w0' [= <- <-]. split; [|by apply grows_same].
  intros k' h' at_ Hget. simpl in Hget. rewrite map_get_set in Hget. case_decide as Hkey; [|by eapply H0'].
  injection Hget as <- _. subst k'. by exists (clock w), s, g.
Qed.

Lemma sends_cached s g force : sends cache_ok P (cachedHeaderAuth env t s g force).
Proof.
  intros w HI r w' Hr.
  assert (cache_ok (if force then forget s g w else w) ∧ grows P w (if force then forget s g w else w)) as [HI0 G0].
  { destruct force; [split; [by apply forget_ok|by apply grows_same]|split; [done|apply grows_refl]]. }
  destruct (cached_cases s g force w) as [(h & at_ & _ & _ & E)|E]; rewrite E in Hr.
  - by injection Hr as <- <-.
  - destruct (sends_fresh s g _ HI0 _ _ Hr) as [HI1 G1]. split; [done|by eapply grows_trans].
Qed.

Lemma fresh_returns s g w : returns_at w (λ h, createHeaderAuth (clock w) s g = Ok h) (fresh_header s g).
Proof.
  intros h w' Hr. unfold fresh_header in Hr. apply bind_ok_inv in Hr as (h' & w1 & Hs & Hr).
  apply sign_returns in Hs. injection Hr as <- _. exact Hs.
Qed.

Lemma cached_returns s g force w : cache_ok w → returns_at w (group_header s g) (cachedHeaderAuth env t s g force).
Proof.
  intros HI h w' Hr. destruct (cached_cases s g force w) as [(h' & at_ & Ec & _ & E)|E]; rewrite E in Hr.
  - injection Hr as <- <-. assert (cache_ok (if force then forget s g w else w)) as HI0 by (destruct force; [by apply forget_ok|done]).
    destruct (HI0 _ _ _ Ec) as (now & s' & g' & Ek & Eh). by exists now, s', g'.
  - apply fresh_returns in Hr. eexists _, s, g. done.
Qed.

Lemma sends_group {T} (view : json → option T) s g path m :
  (∀ h, group_header s g h → P {| method := m; url := relayerUrl t ++ path; rq_headers := h; rq_body := None |}) →
  sends cache_ok P (requestWithGroupHeaderAuth env t view s g path m).
Proof.
  intros HP.
  assert (∀ force, sends cache_ok P (h ← cachedHeaderAuth env t s g force; request env t view path m h None)) as Ha.
  { intros force w HI. eapply sends_at_bind_post; [by apply sends_cached|by apply cached_returns|].
    intros h Hh. by apply sends_request, HP. }
  apply sends_try; [apply Ha|]. intros e. case_bool_decide; [apply Ha|apply sends_throw].
Qed.

Lemma sends_body_at {T} (view : json → option T) s m path payload w : cache_ok w →
  (∀ b h, createBodyAuth (clock w) s payload = Ok (b, h) →
     P {| method := m; url := relayerUrl t ++ path; rq_headers := json_headers h; rq_body := Some (stringify (JObj b)) |}) →
  sends_at cache_ok P w (body_request env t view s m path payload).
Proof.
  intros HI HP. eapply sends_at_bind_post; [by apply sends_sign|apply sign_returns|].
  intros [b h] Hh. by apply sends_request, HP.
Qed.

Lemma sends_wallet_at {T} (view : json → option T) s path w : cache_ok w →
  (∀ h, createWalletHeaderAuth (clock w) s = Ok h →
     P {| method := js "GET"; url := relayerUrl t ++ path; rq_headers := h; rq_body := None |}) →
  sends_at cache_ok P w (wallet_get env t view s path).
Proof.
  intros HI HP. eapply sends_at_bind_post; [by apply sends_sign|apply sign_returns|].
  intros h Hh. by apply sends_request, HP.
Qed.
End requests.

(** * Authenticity *)

Inductive auth_kind := ABody | AGroup (groupId : jsstr) | AWallet | ADelete (token : jsstr).

Definition call_auth (c : rest_call) : auth_kind :=
  match header_group c, c with
  | Some g, _ => AGroup g
  | None, GetUserReadState | None, ListAgentConversations _ | None, ListGroupsForAgent _ _
  | None, ListMemberConversations _ _ _ | None, CheckDmGate _ _ => AWallet
  | None, DeletePushToken token => ADelete token
  | None, _ => ABody
  end.

(** The headers [h] carry the signature of [b] by [s]. *)
Definition signed (s : Signer) (b : bytes) (h : headers) : Prop :=
  ∃ sig key, signAndCreateAuthHeaders s b = Ok (auth_pair sig key)
    ∧ map_get (js "x-signature") h = Some sig ∧ map_get (js "x-public-key") h = Some key.

Definition says (h : headers) (k : string) (v : jsstr) : Prop := map_get (js k) h = Some v.

(** What a request of each kind carries, for a call started at [now]. *)
Definition authentic (s : Signer) (now : Z) (k : auth_kind) (rq : Request) : Prop :=
  let h := rq_headers rq in
  match k with
  | ABody => ∃ body, rq_body rq = Some (stringify (JObj body)) ∧ signed s (utf8_encode (stringify (JObj body))) h
      ∧ map_get (js "sender_address") body = Some (JStr (sender_of s))
      ∧ map_get (js "timestamp") body = Some (JNum (Int (seconds now)))
      ∧ ∀ g, map_get (js "group_id") body = Some (JStr g) → ∃ g0, g = toLowerCase g0
  | AGroup g => rq_body rq = None ∧ ∃ s' at_ sender group,
      sender ++ js ":" ++ group = headerAuthCacheKey s g
      ∧ signed s' (utf8_encode (dec_Z (seconds at_) ++ js ":" ++ headerAuthCacheKey s g)) h
      ∧ says h "x-timestamp" (dec_Z (seconds at_)) ∧ says h "x-sender-address" sender ∧ says h "x-group-id" group
  | AWallet => rq_body rq = None ∧ signed s (utf8_encode (wallet_canonical now s)) h
      ∧ says h "x-timestamp" (dec_Z (seconds now)) ∧ says h "x-sender-address" (sender_of s)
  | ADelete token => rq_body rq = None
      ∧ signed s (utf8_encode (dec_Z (seconds now) ++ js ":" ++ toMySoAddress s ++ js ":" ++ token)) h
      ∧ says h "x-timestamp" (dec_Z (seconds now)) ∧ says h "x-sender-address" (toMySoAddress s)
  end.

Lemma sign_shape s b h : signAndCreateAuthHeaders s b = Ok h → ∃ sig key, h = auth_pair sig key.
Proof.
  unfold signAndCreateAuthHeaders. destruct (parseSerializedSignature _); [|done]. case_decide.
  - destruct (fromBase64 _); [|done]. intros [= <-]. eauto.
  - destruct (extractRawSignature _); [|done]. intros [= <-]. eauto.
Qed.

(** Adding other headers leaves the signature where it was. *)
Lemma signed_spread s b h l : signAndCreateAuthHeaders s b = Ok h →
  Forall (λ kv, kv.1 ≠ js "x-signature" ∧ kv.1 ≠ js "x-public-key") l → signed s b (spread h l).
Proof.
  intros Hs Hl. destruct (sign_shape _ _ _ Hs) as (sig & key & ->). exists sig, key. split; [done|].
  assert (∀ k v m, (∀ kv, kv ∈ l → kv.1 ≠ k) → map_get k m = Some v → map_get k (spread m l) = Some v) as Hget.
  { unfold spread. clear. induction l as [|[k' v'] l IH]; intros k v m Hne Hm; [done|]. simpl. apply IH.
    - intros kv Hin. apply Hne. by right.
    - rewrite map_get_set_ne; [done|]. intros ->. by apply (Hne (k', v') ltac:(left)). }
  rewrite Forall_forall in Hl. split; apply Hget; try done; intros kv Hin; by apply Hl.
Qed.

Ltac header_keys := repeat constructor; discriminate.

Lemma header_authentic s g h now m u :
  group_header s g h → authentic s now (AGroup g) {| method := m; url := u; rq_headers := h; rq_body := None |}.
Proof.
  intros (at_ & s' & g' & Ek & Eh). split; [done|]. unfold createHeaderAuth in Eh.
  destruct (signAndCreateAuthHeaders _ _) as [a|] eqn:Es; [|done]. apply ok_inj in Eh as ->.
  exists s', at_, (sender_of s'), (toLowerCase g'). split; [done|]. rewrite <-Ek. split.
  - unfold headerAuthCacheKey. unfold wallet_canonical in Es. rewrite <-!app_assoc in Es.
    apply signed_spread; [exact Es|header_keys].
  - destruct (sign_shape _ _ _ Es) as (sig & key & ->). by repeat split.
Qed.

Lemma wallet_authentic s h now m u : createWalletHeaderAuth now s = Ok h →
  authentic s now AWallet {| method := m; url := u; rq_headers := h; rq_body := None |}.
Proof.
  unfold createWalletHeaderAuth. destruct (signAndCreateAuthHeaders _ _) as [a|] eqn:Es; [|done]. intros ->%ok_inj.
  split; [done|]. split; [apply signed_spread; [done|header_keys]|].
  destruct (sign_shape _ _ _ Es) as (sig & key & ->). by split.
Qed.

Lemma delete_authentic s h now token m u : createWalletDeleteAuth now s token = Ok h →
  authentic s now (ADelete token) {| method := m; url := u; rq_headers := h; rq_body := None |}.
Proof.
  unfold createWalletDeleteAuth. destruct (signAndCreateAuthHeaders _ _) as [a|] eqn:Es; [|done]. intros ->%ok_inj.
  split; [done|]. split; [apply signed_spread; [done|header_keys]|].
  destruct (sign_shape _ _ _ Es) as (sig & key & ->). by split.
Qed.

Lemma body_authentic s payload b h now m u : createBodyAuth now s payload = Ok (b, h) →
  authentic s now ABody {| method := m; url := u; rq_headers := json_headers h; rq_body := Some (stringify (JObj b)) |}.
Proof.
  unfold createBodyAuth. destruct (signAndCreateAuthHeaders _ _) as [a|] eqn:Es; [|done]. intros [= <- <-].
  eexists. split; [reflexivity|]. split; [apply signed_spread; [done|header_keys]|].
  unfold auth_body, spread. simpl. set (b0 := map_set (js "timestamp") _ _).
  assert (map_get (js "sender_address") b0 = Some (JStr (sender_of s))) as Hs.
  { subst b0. rewrite map_get_set_ne by discriminate. apply map_get_set_eq. }
  assert (map_get (js "timestamp") b0 = Some (JNum (Int (seconds now)))) as Ht by apply map_get_set_eq.
  destruct (map_get (js "group_id") b0) as [v|] eqn:Eg; [|split; [done|split; [done|intros g; by rewrite Eg]]].
  destruct v; try (split; [done|split; [done|intros g; by rewrite Eg]]).
  rewrite !map_get_set_ne by discriminate. split; [done|]. split; [done|]. intros g. rewrite map_get_set_eq.
  intros [= <-]. eauto.
Qed.

(** Each call, from where it starts. *)
Lemma run_sends_at s c w : cache_ok w → sends_at cache_ok (authentic s (clock w) (call_auth c)) w (run s c).
Proof.
  intros HI.
  assert (∀ T (view : json → option T) m path payload, call_auth c = ABody →
    sends_at cache_ok (authentic s (clock w) (call_auth c)) w (body_request env t view s m path payload)) as Hbody.
  { intros T view m path payload ->. apply sends_body_at; [done|]. intros b h Hb. by eapply body_authentic. }
  assert (∀ T (view : json → option T) path, call_auth c = AWallet →
    sends_at cache_ok (authentic s (clock w) (call_auth c)) w (wallet_get env t view s path)) as Hwallet.
  { intros T view path ->. apply sends_wallet_at; [done|]. intros h Hh. by apply wallet_authentic. }
  assert (∀ T (view : json → option T) g m path, call_auth c = AGroup g →
    sends_at cache_ok (authentic s (clock w) (call_auth c)) w (requestWithGroupHeaderAuth env t view s g path m)) as Hgroup.
  { intros T view g m path ->. apply sends_group; [|done]. intros h Hh. by apply header_authentic. }
  assert (∀ A B (m : call A) (k : A → call B),
    sends_at cache_ok (authentic s (clock w) (call_auth c)) w m →
    (∀ a, sends cache_ok (authentic s (clock w) (call_auth c)) (k a)) →
    sends_at cache_ok (authentic s (clock w) (call_auth c)) w (m ≫= k)) as Hbind by (intros; by apply sends_at_bind).
  destruct c; cbn [run]; unfold discard;
    try (first [apply Hbody|apply Hgroup|apply Hwallet]; reflexivity);
    try (apply Hbind; [first [apply Hbody|apply Hgroup|apply Hwallet]; reflexivity|intros; apply sends_ret]);
    try (apply Hbind; [apply Hbind; [first [apply Hbody|apply Hgroup|apply Hwallet]; reflexivity|intros]|intros; apply sends_ret];
         try (apply sends_bind; [apply sends_of_option|intros; apply sends_ret]);
         first [apply sends_of_option|apply sends_ret|idtac]).
  - apply Hbind; [|intros; apply sends_ret]. apply Hbind; [apply sends_of_option; done|]. intros q.
    apply sends_group. intros h Hh. by apply header_authentic.
  - apply Hbind; [|intros; apply sends_ret]. eapply sends_at_bind_post; [by apply sends_sign|apply sign_returns|].
    intros [b h] Hb. apply sends_try; [|intros; apply sends_throw].
    apply sends_bind; [apply sends_request; by eapply body_authentic|intros; apply sends_ret].
  - eapply sends_at_bind_post; [by apply sends_sign|apply sign_returns|].
    intros h Hh. apply sends_request. by apply delete_authentic.
  - apply Hbind; [|intros; apply sends_ret]. eapply sends_at_bind_post; [by apply sends_sign|apply sign_returns|].
    intros h Hh. apply sends_bind; [apply sends_of_option|]. intros q. apply sends_request. by apply wallet_authentic.
  - destruct (is_null a); [apply sends_throw|]. destruct (field _ _ _); [apply sends_ret|apply sends_throw].
Qed.

(** C23.  Every request is signed for what it asks: whatever the REST call and
    whatever happens during its awaits, each request it sends carries the
    caller's signature over exactly the body sent (with the caller's own
    lower-case address, the current second and a lower-case group id), or over
    the timestamp, address and group its headers state; a cached header is
    only ever used for the address and group it was signed for. *)
Theorem calls_authenticated s c w r w' :
  cache_ok w → run s c w = (r, w') →
  cache_ok w' ∧ ∃ l, sent w' = sent w ++ l ∧ Forall (authentic s (clock w) (call_auth c)) l.
Proof.
  intros HI Hr. destruct (run_sends_at s c w HI _ _ Hr) as [HI' [(l & E & F & _) _]]. split; [done|]. by exists l.
Qed.

(** * After [disconnect()] *)

(** How a call fails on a disconnected transport. *)
Definition refused (e : transport_error) : Prop :=
  match e with
  | RelayerTransportError _ s _ _ => s = 0
  | SignError _ | BadURI => True
  | _ => False
  end.

(** On a disconnected transport the call sends nothing and throws, if at all, a refusal. *)
Definition idle {A} (m : call A) : Prop := ∀ w r w', disconnected w = true → m w = (r, w') →
  disconnected w' = true ∧ sent w' = sent w ∧ ∀ e, r = Throw e → refused e.

Definition refuses {A} (m : call A) : Prop := idle m ∧ ∀ w a w', disconnected w = true → m w ≠ (Ok a, w').

Lemma idle_ret {A} (a : A) : idle (mret a).
Proof. intros w r w' Hd [= <- <-]. by split. Qed.

Lemma idle_bind {A B} (m : call A) (k : A → call B) : idle m → (∀ a, idle (k a)) → idle (m ≫= k).
Proof.
  intros Hm Hk w r w' Hd Hr. unfold mbind, eff_bind in Hr. destruct (m w) as [[a|e] w1] eqn:E.
  - destruct (Hm _ _ _ Hd E) as (Hd1 & E1 & _). destruct (Hk a _ _ _ Hd1 Hr) as (Hd2 & E2 & He).
    split; [done|]. split; [by rewrite E2|done].
  - injection Hr as <- <-. destruct (Hm _ _ _ Hd E) as (Hd1 & E1 & He). split; [done|]. split; [done|].
    intros e' [= <-]. by apply He.
Qed.

Lemma refuses_bind {A B} (m : call A) (k : A → call B) : idle m → (∀ a, refuses (k a)) → refuses (m ≫= k).
Proof.
  intros Hm Hk. split; [apply idle_bind; [done|apply Hk]|]. intros w b w' Hd Hr.
  apply bind_ok_inv in Hr as (a & w1 & E & Hr). destruct (Hm _ _ _ Hd E) as (Hd1 & _).
  by apply (proj2 (Hk a) w1 b w' Hd1).
Qed.

Lemma refuses_then {A B} (m : call A) (k : A → call B) : refuses m → refuses (m ≫= k).
Proof.
  intros [Hi Hm]. split.
  - intros w r w' Hd Hr. unfold mbind, eff_bind in Hr. destruct (m w) as [[a|e] w1] eqn:E; [by apply Hm in E|].
    injection Hr as <- <-. destruct (Hi _ _ _ Hd E) as (Hd1 & E1 & He). split; [done|]. split; [done|].
    intros e' [= <-]. by apply He.
  - intros w b w' Hd Hr. apply bind_ok_inv in Hr as (a & w1 & E & _). by apply Hm in E.
Qed.

Lemma refuses_try {A} (m : call A) (h : transport_error → call A) :
  refuses m → (∀ e, refused e → h e = throw e) → refuses (try_catch m h).
Proof.
  intros [Hi Hm] Hh. split.
  - intros w r w' Hd Hr. unfold try_catch in Hr. destruct (m w) as [[a|e] w1] eqn:E; [by apply Hm in E|].
    destruct (Hi _ _ _ Hd E) as (Hd1 & E1 & He). specialize (He e eq_refl). rewrite (Hh e He) in Hr.
    injection Hr as <- <-. split; [done|]. split; [done|]. by intros e' [= <-].
  - intros w b w' Hd Hr. unfold try_catch in Hr. destruct (m w) as [[a|e] w1] eqn:E; [by apply Hm in E|].
    destruct (Hi _ _ _ Hd E) as (_ & _ & He). rewrite (Hh e (He e eq_refl)) in Hr. done.
Qed.

Lemma refuses_request {T} (view : json → option T) path m h body : refuses (request env t view path m h body).
Proof.
  split; intros w r w' Hd Hr; unfold request, mbind, eff_bind, get_state in Hr; simpl in Hr; rewrite Hd in Hr; [|done].
  injection Hr as <- <-. split; [done|]. split; [done|]. by intros e [= <-].
Qed.

Lemma idle_sign {A} (auth : Z → outcome sign_error A) : idle (sign_with env auth).
Proof.
  intros w r w' Hd Hr. unfold sign_with, mbind, eff_bind, get_state, await in Hr. simpl in Hr.
  destruct (after_await_spec (env (turn w)) w) as (E1 & _ & E2 & _). rewrite Hd in E2.
  destruct (auth (clock w)); injection Hr as <- <-; (split; [done|split; [done|]]); by intros err [= <-].
Qed.

Lemma idle_of_option {A} (o : option A) : idle (of_option BadURI o).
Proof. destruct o; [apply idle_ret|]. intros w r w' Hd [= <- <-]. split; [done|]. split; [done|]. by intros e [= <-]. Qed.

Lemma idle_cached s g force : idle (cachedHeaderAuth env t s g force).
Proof.
  intros w r w' Hd Hr.
  assert (disconnected (if force then forget s g w else w) = true ∧ sent (if force then forget s g w else w) = sent w)
    as [Hd0 E0] by (by destruct force).
  destruct (cached_cases s g force w) as [(h & at_ & _ & _ & E)|E]; rewrite E in Hr.
  - by injection Hr as <- <-.
  - rewrite <-E0. revert Hd0 Hr. apply idle_bind; [apply idle_sign|]. intros h. apply idle_bind; [|intros; apply idle_ret].
    intros w1 r1 w1' Hd1 [= <- <-]. by split.
Qed.

Lemma refuses_group {T} (view : json → option T) s g path m : refuses (requestWithGroupHeaderAuth env t view s g path m).
Proof.
  apply refuses_try; [apply refuses_bind; [apply idle_cached|intros; apply refuses_request]|].
  intros e He. rewrite bool_decide_false; [done|]. destruct e; simpl in *; try done; by subst.
Qed.

Lemma refuses_body {T} (view : json → option T) s m path payload : refuses (body_request env t view s m path payload).
Proof. apply refuses_bind; [apply idle_sign|intros; apply refuses_request]. Qed.

Lemma refuses_wallet {T} (view : json → option T) s path : refuses (wallet_get env t view s path).
Proof. apply refuses_bind; [apply idle_sign|intros; apply refuses_request]. Qed.

Hint Resolve refuses_body refuses_wallet refuses_group refuses_request idle_sign idle_of_option : msg.
Hint Resolve refuses_then refuses_bind : msg.

Ltac direct_call := first [apply refuses_body|apply refuses_wallet|apply refuses_group].

(** [disconnect()] is final: on a disconnected transport no REST call
    sends a request or succeeds; it throws the transport's own error of status
    0, or an error of preparing the request (an unsupported signer, an argument
    that cannot be percent-encoded), and the transport stays disconnected. *)
Lemma disconnected_refuses s c w r w' :
  disconnected w = true → run s c w = (r, w') →
  disconnected w' = true ∧ sent w' = sent w ∧ ∃ e, r = Throw e ∧ refused e.
Proof.
  intros Hd Hr.
  assert (refuses (run s c)) as [Hi Hm].
  { destruct c; cbn [run]; unfold discard; try (direct_call); try (apply refuses_then; direct_call); try (apply refuses_then, refuses_then; direct_call).
    - apply refuses_then, refuses_bind; auto with msg.
    - apply refuses_then, refuses_bind; [auto with msg|]. intros a. apply refuses_try; [apply refuses_then; auto with msg|].
      intros err Herr. unfold toReadStateConflict. destruct err; try done. simpl in Herr. by subst.
    - apply refuses_bind; auto with msg.
    - apply refuses_then, refuses_bind; [auto with msg|]. intros h. apply refuses_bind; auto with msg. }
  destruct (Hi _ _ _ Hd Hr) as (Hd' & E & He). split; [done|]. split; [done|].
  destruct r as [a|e]; [by apply Hm in Hr|]. exists e. auto.
Qed.

(** * The outcome of a request *)

Definition plain_error (st : Z) (tx : jsstr) : transport_error := RelayerTransportError (Some (JStr tx)) st None None.

Definition fetch_error (u name : jsstr) : transport_error :=
  if decide (name = js "TimeoutError") then HttpTimeoutError u else Platform name.

(** A request of a connected transport, with its two awaits laid out. *)
Lemma request_run {T} (view : json → option T) path m h body w : disconnected w = false →
  let u := relayerUrl t ++ path in
  let w1 := after_await (env (turn w)) (add_sent {| method := m; url := u; rq_headers := h; rq_body := body |} w) in
  let w2 := after_await (env (S (turn w))) w1 in
  let gone1 := st_disconnect (env (turn w)) in
  let gone2 := st_disconnect (env (S (turn w))) in
  request env t view path m h body w =
    match st_reply (env (turn w)) with
    | Failed name => (Throw (fetch_error u name), add_reported (fetch_error u name) w1)
    | Response st tx b =>
        if gone1 then (Throw (Platform (js "AbortError")), add_reported (Platform (js "AbortError")) w1)
        else if response_ok st then
          (match b with
           | Throw name => Throw (Platform name)
           | Ok v => if gone2 then Throw (Platform (js "AbortError"))
                     else match view v with Some x => Ok x | None => Throw IllTyped end
           end, w2)
        else
          let e := match b with
                   | Ok v => if gone2 then plain_error st tx else error_of_body st tx v
                   | Throw _ => plain_error st tx
                   end in
          (Throw e, add_reported e w2)
    end.
Proof.
  intros Hd. cbv zeta.
  set (rq := {| method := m; url := _; rq_headers := h; rq_body := body |}).
  destruct (after_await_spec (env (turn w)) (add_sent rq w)) as (_ & _ & D1 & T1 & _).
  set (w1 := after_await (env (turn w)) (add_sent rq w)) in *. simpl in T1, D1. rewrite Hd in D1. simpl in D1.
  destruct (after_await_spec (env (turn w1)) w1) as (_ & _ & D2 & _). rewrite T1 in D2.
  set (w2 := after_await (env (S (turn w))) w1) in *.
  assert (∀ b, read_json env b w1 =
    (match b with Throw name => Throw (Platform name)
     | Ok v => if disconnected w2 then Throw (Platform (js "AbortError")) else Ok v end, w2)) as Hread.
  { intros b. unfold read_json, await, get_state, mbind, eff_bind, throw, mret, eff_ret. rewrite T1. fold w2.
    destruct b; [|done]. by destruct (disconnected w2). }
  unfold request, fetch, try_catch, mbind, eff_bind, get_state, modify, await, throw, mret, eff_ret, report, fetch_error.
  rewrite Hd. cbv beta iota. cbn [turn add_sent]. fold rq. fold w1.
  destruct (st_reply (env (turn w))) as [name|st tx b]; [done|]. rewrite D1 in D2 |- *.
  destruct (st_disconnect (env (turn w))); [done|]. destruct (response_ok st).
  - rewrite Hread, D2. cbn [orb]. destruct b as [v|]; [|done].
    destruct (st_disconnect _); [done|]. by destruct (view v).
  - unfold handleErrorResponse, try_catch, mbind, eff_bind, throw, mret, eff_ret.
    rewrite Hread, D2. cbn [orb]. destruct b as [v|]; [|done].
    destruct (st_disconnect _); [done|]. unfold error_of_body. destruct (is_null v); [done|]. destruct ((st =? 402) || _); reflexivity.
Qed.

(** C24.  What a request's answer becomes, on a transport that stays connected:
    it succeeds exactly on a 2xx answer with a JSON body of the expected type.
    A non-2xx answer with a readable, non-null body is thrown as a payment error
    carrying the body's [error], its minimum and its recipient when the status is
    402 or the body's code is [PAYMENT_REQUIRED], and otherwise, whatever the
    body, as a relayer error carrying exactly the answer's status, the body's
    [error] and [code] and the body itself; an unreadable or null body leaves a
    relayer error with the status and the status text.  A fetch that times out is
    an [HttpTimeoutError] naming the URL, and one that fails otherwise is rethrown
    under its own name.
    Every such error has been given to [onError] once, and nothing else has;
    an unreadable 2xx body is thrown raw and is not reported. *)
Theorem request_outcomes {T} (view : json → option T) path m h body w r w' :
  disconnected w = false → st_disconnect (env (turn w)) = false → st_disconnect (env (S (turn w))) = false →
  request env t view path m h body w = (r, w') →
  match st_reply (env (turn w)) with
  | Failed name =>
      (name = js "TimeoutError" → r = Throw (HttpTimeoutError (relayerUrl t ++ path))
        ∧ reported w' = reported w ++ [HttpTimeoutError (relayerUrl t ++ path)])
      ∧ (name ≠ js "TimeoutError" → r = Throw (Platform name) ∧ reported w' = reported w ++ [Platform name])
  | Response st tx b =>
      if response_ok st then
        reported w' = reported w
        ∧ (∀ x, r = Ok x ↔ ∃ v, b = Ok v ∧ view v = Some x)
        ∧ (∀ name, b = Throw name → r = Throw (Platform name))
      else ∃ e, r = Throw e ∧ reported w' = reported w ++ [e]
        ∧ (∀ v, b = Ok v → v ≠ JNull →
            let paid := st = 402 ∨ obj_get v (js "code") = Some (JStr (js "PAYMENT_REQUIRED")) in
            (paid → e = PaymentRequiredError (obj_get v (js "error")) (parseMinCost (obj_get v (js "min_cost")))
                          (nullish (obj_get v (js "recipient"))))
            ∧ (¬ paid → e = RelayerTransportError (obj_get v (js "error")) st (obj_get v (js "code")) (Some v)))
        ∧ (b = Ok JNull ∨ (∃ name, b = Throw name) → e = RelayerTransportError (Some (JStr tx)) st None None)
  end.
Proof.
  intros Hd G1 G2 Hr. pose proof (request_run view path m h body w Hd) as E. cbv zeta in E. rewrite Hr, G1, G2 in E.
  set (rq := {| method := m; url := _; rq_headers := h; rq_body := body |}) in E.
  destruct (after_await_spec (env (turn w)) (add_sent rq w)) as (_ & R1 & _).
  destruct (after_await_spec (env (S (turn w))) (after_await (env (turn w)) (add_sent rq w))) as (_ & R2 & _).
  rewrite R1 in R2. simpl in R1, R2.
  destruct (st_reply (env (turn w))) as [name|st tx b].
  - injection E as -> ->. unfold fetch_error. simpl. rewrite R1. split; intros Hn; by case_decide.
  - destruct (response_ok st).
    + injection E as -> ->. split; [done|]. destruct b as [v|name]; (split; [intros x|]); try done.
      * destruct (view v) as [y|] eqn:Ev; split; try done.
        -- intros [= <-]. eauto.
        -- intros (v' & [= <-] & ?). congruence.
        -- intros (v' & [= <-] & ?). congruence.
      * split; [done|]. by intros (v & ? & _).
      * by intros name' [= ->].
    + injection E as -> ->. eexists. split; [done|]. simpl. rewrite R2. split; [done|].
      destruct b as [v|name]; [|by split]. unfold error_of_body, plain_error. split.
      * intros v' [= <-] Hne. assert (is_null v = false) as -> by (by destruct v).
        destruct (_ || _) eqn:Ep; (split; intros Hp; [|]); try done; exfalso.
        -- apply Hp. apply orb_prop in Ep as [Ep|Ep]; bool_to_Z; [by left|right].
           unfold is_string in Ep. destruct (obj_get v (js "code")) as [[]|]; try done.
           apply bool_decide_eq_true in Ep. by subst.
        -- apply orb_false_elim in Ep as [Ep1 Ep2]. bool_to_Z. destruct Hp as [?|Hc]; [done|].
           rewrite Hc in Ep2. by vm_compute in Ep2.
      * by intros [[= ->]|[? [=]]].
Qed.

Lemma request_sent {T} (view : json → option T) path m h body w r w' :
  request env t view path m h body w = (r, w') →
  sent w' = (if disconnected w then sent w
             else sent w ++ [{| method := m; url := relayerUrl t ++ path; rq_headers := h; rq_body := body |}])
  ∧ ∀ e, r = Throw e → relayer_status e = Some 401 →
      disconnected w = false ∧ ∃ text b, st_reply (env (turn w)) = Response 401 text b.
Proof.
  destruct (disconnected w) eqn:Hd.
  { unfold request, mbind, eff_bind, get_state. simpl. rewrite Hd. intros [= <- <-]. split; [done|]. by intros e [= <-]. }
  rewrite request_run by done. cbv zeta.
  set (rq := {| method := m; url := _; rq_headers := h; rq_body := body |}).
  destruct (after_await_spec (env (turn w)) (add_sent rq w)) as (S1 & _).
  destruct (after_await_spec (env (S (turn w))) (after_await (env (turn w)) (add_sent rq w))) as (S2 & _).
  rewrite S1 in S2. simpl in S1, S2. unfold fetch_error.
  destruct (st_reply (env (turn w))) as [name|st tx b].
  { intros [= <- <-]. simpl. split; [done|]. intros e [= <-]. by case_decide. }
  destruct (st_disconnect (env (turn w))).
  { intros [= <- <-]. split; [done|]. by intros e [= <-]. }
  destruct (response_ok st).
  { intros [= <- <-]. split; [done|]. destruct b as [v|name]; [|by intros err [= <-]].
    destruct (st_disconnect _); [by intros err [= <-]|]. destruct (view v); [done|]. by intros err [= <-]. }
  intros [= <- <-]. split; [done|]. intros e [= <-] Hs. split; [done|]. exists tx, b. f_equal.
  unfold plain_error, error_of_body in Hs. destruct b as [v|]; [|by injection Hs].
  destruct (st_disconnect _); [by injection Hs|]. destruct (is_null v); [by injection Hs|].
  destruct (_ || _); by injection Hs.
Qed.

(** Where a header of the first attempt comes from. *)
Definition header_source (s : Signer) (g : jsstr) (w : http) (h : headers) : Prop :=
  (∃ at_, map_get (headerAuthCacheKey s g) (headerAuthCache w) = Some (h, at_)
     ∧ 10 * (clock w - at_) < headerAuthCacheTtl10 t)
  ∨ createHeaderAuth (clock w) s g = Ok h.

Lemma cached_sent s g force w r w' : cachedHeaderAuth env t s g force w = (r, w') →
  sent w' = sent w ∧ (∀ h, r = Ok h → header_source s g (if force : bool then forget s g w else w) h)
  ∧ ∀ e, r = Throw e → ∃ x, e = SignError x.
Proof.
  intros Hr. assert (sent (if force then forget s g w else w) = sent w) as E0 by (by destruct force).
  rewrite <-E0. destruct (cached_cases s g force w) as [(h & at_ & Hg & Hlt & E)|E]; rewrite E in Hr; clear E.
  - injection Hr as <- <-. split; [done|]. split; [|done]. intros h' [= <-]. left. eauto.
  - set (w0 := if force then _ else _) in *. clearbody w0.
    destruct (after_await_spec (env (turn w0)) w0) as (S1 & _).
    unfold fresh_header, sign_with, mbind, eff_bind, get_state, await, modify, throw, mret, eff_ret in Hr.
    destruct (createHeaderAuth (clock w0) s g) as [h|x] eqn:Eh; injection Hr as <- <-; (split; [done|]).
    + split; [|done]. intros h' [= <-]. by right.
    + split; [done|]. intros e [= <-]. by exists x.
Qed.

(** One attempt of a group-scoped request. *)
Definition attempt {T} (view : json → option T) (s : Signer) (g path m : jsstr) (forceFresh : bool) : call T :=
  h ← cachedHeaderAuth env t s g forceFresh;
  request env t view path m h None.

Definition group_request (path m : jsstr) (h : headers) : Request :=
  {| method := m; url := relayerUrl t ++ path; rq_headers := h; rq_body := None |}.

Lemma attempt_sent {T} (view : json → option T) s g path m force w r w' :
  attempt view s g path m force w = (r, w') →
  (sent w' = sent w ∧ ∀ e, r = Throw e → relayer_status e ≠ Some 401)
  ∨ ∃ h, header_source s g (if force : bool then forget s g w else w) h
      ∧ sent w' = sent w ++ [group_request path m h]
      ∧ ∀ e, r = Throw e → relayer_status e = Some 401 → ∃ n text b, st_reply (env n) = Response 401 text b.
Proof.
  intros Hr. unfold attempt in Hr. destruct (cachedHeaderAuth env t s g force w) as [[h|e] w1] eqn:Ec.
  - rewrite (bind_ok _ _ _ _ _ Ec) in Hr. apply cached_sent in Ec as (S1 & Hh & _).
    apply request_sent in Hr as [S2 H401]. rewrite S1 in S2. destruct (disconnected w1).
    + left. split; [done|]. intros e He Hs. by destruct (H401 e He Hs).
    + right. exists h. split; [auto|]. split; [done|]. intros e He Hs. destruct (H401 e He Hs) as [_ (text & b & ?)]. eauto.
  - rewrite (bind_throw _ _ _ _ _ Ec) in Hr. injection Hr as <- <-. apply cached_sent in Ec as (S1 & _ & He). left.
    split; [done|]. intros e' [= <-]. destruct (He e eq_refl) as [x ->]. done.
Qed.

(** The retry after 401 happens at most once and with a fresh signature:
    a group-scoped call sends at most two requests, identical but for their
    headers; the first uses a header cached for this address and group less than the time to live ago, or
    one signed at the current time; a second is sent only when the relayer answered 401,
    and its header is signed after that answer. *)
Lemma retry_once {T} (view : json → option T) s g path m w r w' :
  requestWithGroupHeaderAuth env t view s g path m w = (r, w') →
  sent w' = sent w
  ∨ (∃ h, header_source s g w h ∧ sent w' = sent w ++ [group_request path m h])
  ∨ ∃ h h' w1 e, header_source s g w h ∧ attempt view s g path m false w = (Throw e, w1)
      ∧ (∃ n text b, st_reply (env n) = Response 401 text b)
      ∧ createHeaderAuth (clock w1) s g = Ok h'
      ∧ sent w' = sent w ++ [group_request path m h; group_request path m h'].
Proof.
  intros Hr. change (try_catch (attempt view s g path m false)
    (λ e, if bool_decide (relayer_status e = Some 401) then attempt view s g path m true else throw e) w = (r, w')) in Hr.
  apply try_catch_inv in Hr as [(a & E & ->)|(e & w1 & E & Hr)].
  - destruct (attempt_sent _ _ _ _ _ _ _ _ _ E) as [[S1 _]|(h & Hh & S1 & _)]; [by left|right; left; eauto].
  - destruct (attempt_sent _ _ _ _ _ _ _ _ _ E) as [[S1 Hno]|(h & Hh & S1 & H401)].
    + case_bool_decide as Hs; [by specialize (Hno e eq_refl)|]. injection Hr as _ <-. by left.
    + case_bool_decide as Hs; [|injection Hr as _ <-; right; left; eauto].
      destruct (attempt_sent _ _ _ _ _ _ _ _ _ Hr) as [[S2 _]|(h' & Hh' & S2 & _)].
      * right; left. exists h. split; [done|]. by rewrite S2.
      * right; right. exists h, h', w1, e. split; [done|]. split; [done|]. split; [by eapply H401|].
        destruct Hh' as [(at_ & Hget & _)|Hh']; [simpl in Hget; by rewrite map_get_delete_eq in Hget|].
        split; [done|]. by rewrite S2, S1, <-app_assoc.
Qed.

(** The answer that says the stored read state moved on. *)
Definition conflict_answer (a : reply) (msg : option json) (cur : UserReadStateWire) : Prop :=
  ∃ tx body current hex,
    a = Response 409 tx (Ok body) ∧ obj_get body (js "code") = Some (JStr (js "READ_STATE_CONFLICT"))
    ∧ msg = obj_get body (js "error") ∧ obj_get body (js "current") = Some current ∧ truthy current = true
    ∧ read_state_of current = Some (hex, rs_blobVersion cur, rs_updatedAt cur)
    ∧ fromHex hex = Some (rs_encryptedBlob cur).

Lemma conflict_of_error e msg cur : toReadStateConflict e = Some (ReadStateConflictError msg cur) ↔
  ∃ body current hex, e = RelayerTransportError msg 409 (Some (JStr (js "READ_STATE_CONFLICT"))) (Some body)
    ∧ obj_get body (js "current") = Some current ∧ truthy current = true
    ∧ read_state_of current = Some (hex, rs_blobVersion cur, rs_updatedAt cur)
    ∧ fromHex hex = Some (rs_encryptedBlob cur).
Proof.
  split.
  - unfold toReadStateConflict. intros E. repeat (case_match; try done). subst. injection E as <- <-.
    match goal with H : wire_read_state ?x = Some ?u |- _ => rename H into Hw; destruct x as [[hex n] upd] end.
    unfold wire_read_state in Hw. simpl in Hw. destruct (fromHex hex) as [b|] eqn:Eh; [|done]. injection Hw as <-.
    eexists _, _, hex. by repeat split.
  - intros (body & current & hex & -> & Ec & Ht & Er & Eh). unfold toReadStateConflict.
    rewrite decide_True, Ec, Ht, Er by done. unfold wire_read_state. simpl. rewrite Eh. by destruct cur.
Qed.

(** The compare-and-set contract of the read state as the client sees
    it: on a transport that stays connected, a write throws a conflict exactly when the
    relayer answers 409 [READ_STATE_CONFLICT] with a current record, and the conflict carries that
    record, decoded; on any other error answer the error itself is thrown. *)
Lemma read_state_conflict s blob v exp w r w' msg cur :
  disconnected w = false →
  (∀ k, (k < 3)%nat → st_disconnect (env (turn w + k)) = false) →
  is_Some (match createBodyAuth (clock w) s
             ([(js "encrypted_blob", JStr (toHex blob)); (js "blob_version", JNum v)]
              ++ given "expected_version" JNum exp) with Ok x => Some x | Throw _ => None end) →
  putUserReadState env t s blob v exp w = (r, w') →
  r = Throw (ReadStateConflictError msg cur) ↔ conflict_answer (st_reply (env (S (turn w)))) msg cur.
Proof.
  intros Hd Hstay [bh Hauth] Hr.
  destruct (createBodyAuth (clock w) s _) as [bh'|] eqn:Ea; [|done]. injection Hauth as ->.
  pose proof (Hstay 0%nat ltac:(lia)) as G0. pose proof (Hstay 1%nat ltac:(lia)) as G1.
  pose proof (Hstay 2%nat ltac:(lia)) as G2. rewrite Nat.add_0_r in G0. rewrite Nat.add_1_r in G1.
  replace (turn w + 2)%nat with (S (S (turn w))) in G2 by lia.
  destruct (after_await_spec (env (turn w)) w) as (_ & _ & D1 & T1 & _). rewrite Hd, G0 in D1. simpl in D1.
  set (w1 := after_await (env (turn w)) w) in *.
  assert (sign_with env (λ now, createBodyAuth now s
    ([(js "encrypted_blob", JStr (toHex blob)); (js "blob_version", JNum v)] ++ given "expected_version" JNum exp)) w
    = (Ok bh, w1)) as Hsign.
  { unfold sign_with, mbind, eff_bind, get_state, await, mret, eff_ret. simpl. simpl in Ea. by rewrite Ea. }
  unfold putUserReadState in Hr. rewrite (bind_ok _ _ _ _ _ Hsign) in Hr. cbv beta in Hr.
  unfold try_catch, mbind, eff_bind, throw, mret, eff_ret in Hr. rewrite request_run in Hr by done. cbv zeta in Hr.
  rewrite T1, G1, G2 in Hr. unfold conflict_answer.
  destruct (st_reply (env (S (turn w)))) as [name|st tx b].
  { injection Hr as <- _. unfold fetch_error. split; [by case_decide|]. by intros (? & ? & ? & ? & ? & _). }
  destruct (response_ok st) eqn:Eok.
  { assert (∀ x : outcome transport_error number, r = x → x = Throw (ReadStateConflictError msg cur) → False) as Hno.
    { intros x <- ->. destruct b as [j|]; [|by injection Hr]. by destruct (if is_null j then _ else _). }
    split; [intros E; by destruct (Hno r eq_refl)|]. intros (? & ? & ? & ? & [= -> _ _] & _). done. }
  assert (r = Throw (default (match b with Ok j => error_of_body st tx j | Throw _ => plain_error st tx end)
    (toReadStateConflict (match b with Ok j => error_of_body st tx j | Throw _ => plain_error st tx end)))) as ->
    by (by injection Hr). clear Hr.
  set (e := match b with Ok _ => _ | Throw _ => _ end).
  assert (∀ m c, e ≠ ReadStateConflictError m c) as Hne.
  { subst e. intros m c. destruct b as [j|]; [|done]. unfold error_of_body. destruct (is_null j); [done|]. by destruct (_ || _). }
  transitivity (toReadStateConflict e = Some (ReadStateConflictError msg cur)).
  { destruct (toReadStateConflict e) as [x|]; simpl; split; try done; try (by intros [= ->]). intros [= Ex]. by apply Hne in Ex. }
  rewrite conflict_of_error. subst e. split.
  - intros (body & current & hex & Ee & Ec & Ht & Er & Eh). destruct b as [j|]; [|by injection Ee].
    unfold error_of_body in Ee. destruct (is_null j); [done|]. destruct (_ || _) in Ee; [done|].
    injection Ee as <- -> Ecode <-. eexists tx, j, current, hex. by repeat split.
  - intros (tx' & body & current & hex & [= -> -> ->] & Ecode & -> & Ec & Ht & Er & Eh).
    exists body, current, hex. unfold error_of_body. destruct (is_null body) eqn:En; [by destruct body|].
    rewrite Ecode. change ((409 =? 402) || is_string (Some (JStr (js "READ_STATE_CONFLICT"))) (js "PAYMENT_REQUIRED")) with false.
    by repeat split.
Qed.
End auth.

(** * Witnesses *)

Definition plain_base64 : Base64Codec := {| fromBase64 := atob |}.

(** A world where every await takes a second and nothing else happens. *)
Definition scripted (replies : list reply) (n : nat) : await_step :=
  {| st_clock := 1000 * (Z.of_nat n + 1); st_disconnect := false; st_abort := false;
     st_reply := default (Failed (js "TypeError")) (replies !! n) |}.

Definition fresh_http : http :=
  {| turn := 0; clock := 500; disconnected := false; aborted := false; headerAuthCache := []; sent := []; reported := [] |}.

Definition sample_transport : transport :=
  HTTPRelayerTransport {| cf_relayerUrl := js "https://relay/"; cf_apiPrefix := Some (js "v1"); cf_headerAuthTtlMs := None |}.

Definition toy_run (replies : list reply) : rest_call → HttpTransport.call unit :=
  @run integer_numbers ascii_text plain_hex toy_crypto plain_base64 (scripted replies) sample_transport toy_signer.

Definition no_reply : reply := Failed (js "TypeError").
Definition ok_json (v : json) : reply := Response 200 (js "OK") (Ok v).

Lemma calls_authenticated_witness : ∃ w' rq,
  toy_run [no_reply; ok_json JNull] (SendTyping (js "0xG") true) fresh_http = (Ok tt, w') ∧ sent w' = [rq]
  ∧ @authentic integer_numbers ascii_text plain_hex toy_crypto plain_base64 toy_signer 500 ABody rq.
Proof.
  destruct (toy_run [no_reply; ok_json JNull] (SendTyping (js "0xG") true) fresh_http) as [r w'] eqn:E.
  pose proof (@calls_authenticated integer_numbers ascii_text plain_hex toy_crypto plain_base64
    (scripted [no_reply; ok_json JNull]) sample_transport toy_signer (SendTyping (js "0xG") true) fresh_http r w'
    ltac:(by intros k h at_) E) as (_ & l & El & Hl).
  vm_compute in E. injection E as <- <-. cbn [sent fresh_http app] in El. subst l.
  eexists _, _. split; [reflexivity|]. split; [reflexivity|]. exact (Forall_inv Hl).
Defined.

Definition answer_401 : reply := Response 401 (js "Unauthorized") (Ok (JObj [(js "error", JStr (js "stale"))])).

Definition toy_header (now : Z) (g : jsstr) : outcome sign_error headers :=
  @createHeaderAuth ascii_text plain_hex toy_crypto plain_base64 now toy_signer g.

(** The first signature is the one of 0 seconds, the second of 3 seconds. *)
Lemma retry_once_witness : ∃ r w' h h',
  @requestWithGroupHeaderAuth ascii_text plain_hex toy_crypto plain_base64
    (scripted [no_reply; answer_401; no_reply; no_reply; ok_json JNull]) sample_transport
    unit ignore toy_signer (js "0xG") (js "/x") (js "GET") fresh_http = (r, w')
  ∧ toy_header 500 (js "0xG") = Ok h ∧ toy_header 3000 (js "0xG") = Ok h'
  ∧ rq_headers <$> sent w' = [h; h'].
Proof.
  destruct (@requestWithGroupHeaderAuth ascii_text plain_hex toy_crypto plain_base64
    (scripted [no_reply; answer_401; no_reply; no_reply; ok_json JNull]) sample_transport
    unit ignore toy_signer (js "0xG") (js "/x") (js "GET") fresh_http) as [r w'] eqn:E.
  pose proof (@retry_once ascii_text plain_hex toy_crypto plain_base64 _ _ _ _ _ _ _ _ _ _ _ E) as Hr.
  assert (length (sent w') = 2%nat) as Hlen by (vm_compute in E; injection E as <- <-; reflexivity).
  exists r, w'. destruct Hr as [Hs|[(h & _ & Hs)|(h & h' & w1 & e & Hh & Ha & _ & Hf & Hs)]];
    [rewrite Hs in Hlen; discriminate|rewrite Hs in Hlen; discriminate|].
  exists h, h'. split; [reflexivity|]. vm_compute in Ha. injection Ha as _ <-.
  split; [destruct Hh as [(at_ & Hg & _)|Hh]; [discriminate|exact Hh]|]. split; [exact Hf|]. by rewrite Hs.
Defined.

Lemma disconnected_refuses_witness : ∃ r w' e,
  toy_run [] (ListGroupPins (js "0xG")) (disconnect fresh_http) = (r, w') ∧ sent w' = [] ∧ r = Throw e ∧ refused e.
Proof.
  destruct (toy_run [] (ListGroupPins (js "0xG")) (disconnect fresh_http)) as [r w'] eqn:E.
  pose proof (@disconnected_refuses integer_numbers ascii_text plain_hex toy_crypto plain_base64 (scripted []) sample_transport
    toy_signer (ListGroupPins (js "0xG")) (disconnect fresh_http) r w' eq_refl E) as (_ & Hs & e & He & Hr).
  exists r, w', e. split; [reflexivity|]. split; [rewrite Hs; reflexivity|]. by split.
Defined.

Definition toy_request (replies : list reply) : HttpTransport.call unit :=
  @request (scripted replies) sample_transport unit ignore (js "/x") (js "GET") [] None.

Definition answer_402 : reply :=
  Response 402 (js "Payment Required") (Ok (JObj [(js "error", JStr (js "pay")); (js "min_cost", JStr (js "25"))])).

Definition answer_500 : reply :=
  Response 500 (js "Oops") (Ok (JObj [(js "error", JStr (js "boom")); (js "code", JStr (js "INTERNAL"))])).

(** A 402 answer, a 500 answer, a fetch that times out, and a 200 answer whose body cannot be read. *)
Lemma request_outcomes_witness :
  (∃ w', toy_request [answer_402] fresh_http = (Throw (PaymentRequiredError (Some (JStr (js "pay"))) (Some 25) None), w'))
  ∧ (∃ w' v, toy_request [answer_500] fresh_http
           = (Throw (RelayerTransportError (Some (JStr (js "boom"))) 500 (Some (JStr (js "INTERNAL"))) (Some v)), w'))
  ∧ (∃ w', toy_request [Failed (js "TimeoutError")] fresh_http = (Throw (HttpTimeoutError (js "https://relay/x")), w'))
  ∧ (∃ w', toy_request [Response 200 (js "OK") (Throw (js "TimeoutError"))] fresh_http
           = (Throw (Platform (js "TimeoutError")), w') ∧ reported w' = []).
Proof.
  pose proof (λ replies, request_outcomes (scripted replies) sample_transport ignore (js "/x") (js "GET") []
    None fresh_http) as P. split; [|split; [|split]].
  - destruct (toy_request [answer_402] fresh_http) as [r w'] eqn:E. exists w'.
    pose proof (P [answer_402] r w' eq_refl eq_refl eq_refl E) as (e & -> & _ & Hp & _).
    f_equal. f_equal. apply (Hp _ eq_refl); [discriminate|by left].
  - destruct (toy_request [answer_500] fresh_http) as [r w'] eqn:E. exists w'. eexists.
    pose proof (P [answer_500] r w' eq_refl eq_refl eq_refl E) as (e & -> & _ & Hp & _).
    f_equal. f_equal. apply (Hp _ eq_refl); [discriminate|]. by intros [H|H]; vm_compute in H.
  - destruct (toy_request [Failed (js "TimeoutError")] fresh_http) as [r w'] eqn:E. exists w'.
    pose proof (P [Failed (js "TimeoutError")] r w' eq_refl eq_refl eq_refl E) as [Hp _].
    f_equal. by apply Hp.
  - destruct (toy_request [Response 200 (js "OK") (Throw (js "TimeoutError"))] fresh_http) as [r w'] eqn:E. exists w'.
    pose proof (P [Response 200 (js "OK") (Throw (js "TimeoutError"))] r w' eq_refl eq_refl eq_refl E) as (Hrep & _ & Hp).
    rewrite (Hp _ eq_refl). by split.
Defined.

Definition answer_conflict : reply := Response 409 (js "Conflict") (Ok (JObj [
  (js "error", JStr (js "stale")); (js "code", JStr (js "READ_STATE_CONFLICT"));
  (js "current", JObj [(js "encrypted_blob", JStr (js "0a0b")); (js "blob_version", JNum (Int 7))])])).

Lemma read_state_conflict_witness : ∃ w',
  @putUserReadState integer_numbers ascii_text plain_hex toy_crypto plain_base64
    (scripted [no_reply; answer_conflict]) sample_transport toy_signer [1] (Int 3) (Some (Int 6)) fresh_http
  = (Throw (ReadStateConflictError (Some (JStr (js "stale")))
       {| rs_encryptedBlob := [10; 11]; rs_blobVersion := Int 7; rs_updatedAt := None |}), w').
Proof.
  destruct (@putUserReadState integer_numbers ascii_text plain_hex toy_crypto plain_base64
    (scripted [no_reply; answer_conflict]) sample_transport toy_signer [1] (Int 3) (Some (Int 6)) fresh_http) as [r w'] eqn:E.
  exists w'. f_equal.
  apply (@read_state_conflict integer_numbers ascii_text plain_hex toy_crypto plain_base64 (scripted [no_reply; answer_conflict])
    sample_transport toy_signer [1] (Int 3) (Some (Int 6)) fresh_http r w' _ _ eq_refl
    ltac:(intros k _; reflexivity) ltac:(eexists; vm_compute; reflexivity) E).
  eexists _, _, _, _. repeat split; reflexivity.
Defined.
