(* ===== verification/HttpPolling.v ===== *)
(** Realtime by polling ([subscribe] and [subscribeUserEvents] of
    [relayer/http-transport.ts]): each round fetches messages, reactions and receipts and
    turns the differences from the previous round into events.

    A generator is run for a number of rounds and keeps the events it yielded.
    Between a [yield] and its resumption the consumer runs: one await of
    [env], in which it may disconnect the transport or abort the signal.  A
    consumer that stops consuming sees a prefix of the events. *)
From S2P Require Import Prelude JsString JsMap Utf8 Json Base64 Verification Receipts SyncManager AuthHeaders Wire HttpTransport.
From S2P Require Import HttpCalls HttpAuth.

(** * Diffs *)

Definition reaction_key (seq : Z) (emoji : jsstr) : jsstr := dec_Z seq ++ js ":" ++ emoji.

Definition snapshot : Type := list (jsstr * RelayerReactionEntry).

(** [new Map(rows.map(r => [key, r]))] *)
Definition map_of {A V} (key : A → jsstr) (val : A → V) (rows : list A) : list (jsstr * V) :=
  foldl (λ m r, map_set (key r) (val r) m) [] rows.

Definition reaction_map (rows : list RelayerReactionEntry) : snapshot :=
  map_of (λ r, reaction_key (chainSeq r) (emoji r)) id rows.

Definition reaction_event (groupId : jsstr) (e : RelayerReactionEntry) (n : Z) (who : list jsstr) : RelayerReactionEvent :=
  {| re_groupId := groupId; re_chainSeq := chainSeq e; re_emoji := emoji e; re_count := n; re_reactors := who |}.

Definition reaction_changed (prev : option RelayerReactionEntry) (e : RelayerReactionEntry) : bool :=
  match prev with
  | None => true
  | Some p => negb (count p =? count e)
              || negb (bool_decide (join (js ",") (reactors p) = join (js ",") (reactors e)))
  end.

Definition reaction_diff (groupId : jsstr) (prev next : snapshot) : list RelayerReactionEvent :=
  omap (λ kv, if reaction_changed (map_get kv.1 prev) kv.2
              then Some (reaction_event groupId kv.2 (count kv.2) (reactors kv.2)) else None) next
  ++ omap (λ kv, if map_has kv.1 next then None else Some (reaction_event groupId kv.2 0 [])) prev.

Definition receipt_snapshot : Type := list (jsstr * (Z * Z)).

Section polling.
Context `{JsonNumbers} `{JsText} `{HexCodec} `{MySoCrypto} `{Base64Codec}.
Context (env : nat → await_step) (t : transport).

Definition receipt_map (members : list MemberReceipt) : receipt_snapshot :=
  map_of (λ m, toLowerCase (member m)) (λ m, (deliveredUpto m, readUpto m)) members.

Definition receipt_diff (groupId : jsstr) (members : list MemberReceipt) (prev next : receipt_snapshot)
    : list RelayerReceiptEvent :=
  omap (λ kv : jsstr * (Z * Z),
    if match map_get kv.1 prev with
       | None => true
       | Some p => negb (p.1 =? kv.2.1) || negb (p.2 =? kv.2.2)
       end
    then Some {| rc_groupId := groupId;
                 rc_member := match list_find (λ m, toLowerCase (member m) = kv.1) members with
                              | Some (_, m) => member m
                              | None => kv.1
                              end;
                 rc_deliveredUpto := kv.2.1; rc_readUpto := kv.2.2 |}
    else None) next.

Definition activity_diff (prev next : list (jsstr * Z)) : list RelayerUserEvent :=
  omap (λ kv : jsstr * Z, if default 0 (map_get kv.1 prev) <? kv.2 then Some (GroupActivity kv.1 kv.2) else None) next.

(** * Generators *)

(** [E] is the type of the yielded events. *)
Record gen (E : Type) := {
  g_http : http;
  lastOrder : option number;
  reactionSnapshot : option snapshot;
  receiptSnapshot : option receipt_snapshot;
  activitySnapshot : option (list (jsstr * Z));
  yielded : list E;
}.
Global Arguments g_http {E}. Global Arguments lastOrder {E}. Global Arguments reactionSnapshot {E}.
Global Arguments receiptSnapshot {E}. Global Arguments activitySnapshot {E}. Global Arguments yielded {E}.
Global Arguments Build_gen {E}.

Definition with_http {E} (w : http) (g : gen E) : gen E :=
  Build_gen w (lastOrder g) (reactionSnapshot g) (receiptSnapshot g) (activitySnapshot g) (yielded g).
Definition with_order {E} (o : option number) (g : gen E) : gen E :=
  Build_gen (g_http g) o (reactionSnapshot g) (receiptSnapshot g) (activitySnapshot g) (yielded g).
Definition with_reactions {E} (s : snapshot) (g : gen E) : gen E :=
  Build_gen (g_http g) (lastOrder g) (Some s) (receiptSnapshot g) (activitySnapshot g) (yielded g).
Definition with_receipts {E} (s : receipt_snapshot) (g : gen E) : gen E :=
  Build_gen (g_http g) (lastOrder g) (reactionSnapshot g) (Some s) (activitySnapshot g) (yielded g).
Definition with_activity {E} (s : list (jsstr * Z)) (g : gen E) : gen E :=
  Build_gen (g_http g) (lastOrder g) (reactionSnapshot g) (receiptSnapshot g) (Some s) (yielded g).
Definition with_event {E} (e : E) (g : gen E) : gen E :=
  Build_gen (g_http g) (lastOrder g) (reactionSnapshot g) (receiptSnapshot g) (activitySnapshot g) (yielded g ++ [e]).

Definition generator (E A : Type) : Type := eff (gen E) transport_error A.

Definition lift {E A} (m : HttpTransport.call A) : generator E A := λ g,
  let '(r, w) := m (g_http g) in (r, with_http w g).

(** [this.#disconnected || params.signal?.aborted] *)
Definition stopped {E} (g : gen E) : bool := disconnected (g_http g) || aborted (g_http g).

Definition yield {E} (e : E) : generator E unit := _ ← modify (with_event e); _ ← lift (await env); mret tt.

Definition delay {E} : generator E unit := _ ← lift (await env); mret tt.

(** A [for] loop that yields; [true] says it left the generator. *)
Fixpoint yield_each {E} (after : E → gen E → gen E) (l : list E) : generator E bool :=
  match l with
  | [] => mret false
  | e :: l' =>
      g ← get_state;
      if stopped g then mret true else
      _ ← yield e;
      _ ← modify (after e);
      yield_each after l'
  end.

(** [if (stopped) return; k] *)
Definition unless_stopped {E} (k : generator E bool) : generator E bool :=
  g ← get_state; if stopped g then mret true else k.

(** [m] may return from the generator; otherwise [k] goes on. *)
Definition and_then {E} (m k : generator E bool) : generator E bool := b ← m; if b : bool then mret true else k.

(** The [catch] of both loops: a stopped generator returns, a client error is
    thrown, anything else is retried after a delay. *)
Definition on_error {E} (e : transport_error) : generator E bool :=
  g ← get_state;
  if stopped g then mret true else
  match relayer_status e with
  | Some s => if (400 <=? s) && (s <? 500) then throw e else (_ ← delay; mret false)
  | None => _ ← delay; mret false
  end.

(** [n] rounds of the [while] loop. *)
Fixpoint rounds {E} (body : generator E bool) (n : nat) : generator E bool :=
  match n with
  | O => mret false
  | S n' =>
      g ← get_state;
      if stopped g then mret true else
      and_then (try_catch body on_error) (rounds body n')
  end.

(** * [subscribe] *)

Definition keep_order (e : RelayerSubscriptionEvent) (g : gen RelayerSubscriptionEvent) : gen RelayerSubscriptionEvent :=
  match e with MessageCreated m => with_order (Some (order m)) g | _ => g end.

Definition subscribe_body (signer : Signer) (groupId : jsstr) (limit : option number) : generator RelayerSubscriptionEvent bool :=
  g ← get_state;
  result ← lift (fetchMessages env t signer groupId (lastOrder g) None limit);
  and_then (yield_each keep_order (MessageCreated <$> pg_messages result)) (
  unless_stopped (
  rows ← lift (listGroupReactions env t signer groupId None);
  let next := reaction_map rows in
  g ← get_state;
  and_then (match reactionSnapshot g with
            | Some prev => yield_each (λ _, id) (ReactionUpdated <$> reaction_diff groupId prev next)
            | None => mret false
            end) (
  _ ← modify (with_reactions next);
  unless_stopped (
  members ← lift (getGroupReceipts env t signer groupId);
  let nextReceipts := receipt_map members in
  g ← get_state;
  and_then (match receiptSnapshot g with
            | Some prev => yield_each (λ _, id) (ReceiptUpdated <$> receipt_diff groupId members prev nextReceipts)
            | None => mret false
            end) (
  _ ← modify (with_receipts nextReceipts);
  _ ← delay;
  mret false))))).

(** A new subscription on the transport [w]. *)
Definition new_gen {E} (afterOrder : option number) (w : http) : gen E := Build_gen w afterOrder None None None [].

Definition subscribe (signer : Signer) (groupId : jsstr) (limit : option number) (n : nat)
    : generator RelayerSubscriptionEvent bool :=
  rounds (subscribe_body signer groupId limit) n.

(** * [subscribeUserEvents] *)

Definition user_body (signer : Signer) (groupIds : list jsstr) : generator RelayerUserEvent bool :=
  and_then (
    if is_nil groupIds then mret false else
    counts ← lift (fetchUnreadCounts env t signer ((λ g, (g, 0)) <$> groupIds));
    let next := map_of row_groupId row_latestOrder counts in
    g ← get_state;
    and_then (match activitySnapshot g with
              | Some prev => yield_each (λ _, id) (activity_diff prev next)
              | None => mret false
              end)
      (_ ← modify (with_activity next); mret false))
  (_ ← delay; mret false).

Definition subscribeUserEvents (signer : Signer) (groupIds : list jsstr) (n : nat) : generator RelayerUserEvent bool :=
  rounds (user_body signer groupIds) n.
End polling.

(** * Properties of the diffs *)

(** What a consumer keeps of the reaction events: the state last announced for each key. *)
Definition reaction_view : Type := list (jsstr * (Z * list jsstr)).

Definition event_key (e : RelayerReactionEvent) : jsstr := reaction_key (re_chainSeq e) (re_emoji e).

Definition apply_reaction (m : reaction_view) (e : RelayerReactionEvent) : reaction_view :=
  map_set (event_key e) (re_count e, re_reactors e) m.

(** A key that is not listed has no reaction. *)
Definition seen (m : reaction_view) (k : jsstr) : Z * list jsstr := default (0, []) (map_get k m).
Definition listed (s : snapshot) (k : jsstr) : Z * list jsstr :=
  from_option (λ e, (count e, reactors e)) (0, []) (map_get k s).

Lemma apply_out l : ∀ m k, k ∉ event_key <$> l → map_get k (foldl apply_reaction m l) = map_get k m.
Proof.
  induction l as [|e l IH]; intros m k Hk; [done|]. rewrite fmap_cons, not_elem_of_cons in Hk. simpl.
  rewrite IH by tauto. unfold apply_reaction. apply map_get_set_ne. tauto.
Qed.

Lemma apply_in l : ∀ m e, NoDup (event_key <$> l) → e ∈ l →
  map_get (event_key e) (foldl apply_reaction m l) = Some (re_count e, re_reactors e).
Proof.
  induction l as [|x l IH]; intros m e Hnd Hin; [by apply elem_of_nil in Hin|].
  rewrite fmap_cons in Hnd. apply NoDup_cons in Hnd as [Hx Hnd].
  apply elem_of_cons in Hin as [->|Hin]; simpl; [|by apply IH]. rewrite apply_out by done. apply map_get_set_eq.
Qed.

(** Rows are filed under their own key, once. *)
Definition keyed (s : snapshot) : Prop :=
  map_ok s ∧ ∀ k e, (k, e) ∈ s → k = reaction_key (chainSeq e) (emoji e).

Lemma reaction_map_keyed rows : keyed (reaction_map rows).
Proof.
  unfold reaction_map, map_of. apply (foldl_ind (λ _ s, keyed s)).
  - split; [apply map_ok_nil|]. intros k e Hin. by apply elem_of_nil in Hin.
  - intros l' r s [Hok Hk]. split; [by apply map_set_ok|]. intros k e Hin.
    apply elem_of_map_get in Hin; [|by apply map_set_ok]. unfold id in Hin. rewrite map_get_set in Hin. case_decide as E.
    + injection Hin as <-. done.
    + apply Hk, elem_of_map_get; done.
Qed.

Section diff.
Context (groupId : jsstr) (prev next : snapshot).
Context (Hprev : keyed prev) (Hnext : keyed next).

Lemma diff_cases e : e ∈ reaction_diff groupId prev next ↔
  (∃ x, map_get (event_key e) next = Some x ∧ reaction_changed (map_get (event_key e) prev) x = true
        ∧ e = reaction_event groupId x (count x) (reactors x))
  ∨ ∃ x, map_get (event_key e) prev = Some x ∧ map_get (event_key e) next = None ∧ e = reaction_event groupId x 0 [].
Proof.
  destruct Hprev as [Op Kp], Hnext as [On Kn]. unfold reaction_diff. rewrite elem_of_app, !list_elem_of_omap. split.
  - intros [([k x] & Hin & E)|([k x] & Hin & E)]; simpl in E.
    + destruct (reaction_changed _ x) eqn:Ec; [|done]. injection E as <-. left. exists x.
      pose proof (Kn _ _ Hin) as ->. split; [by apply (elem_of_map_get _ _ _ On)|done].
    + unfold map_has in E. case_bool_decide as Hh; [done|]. injection E as <-. right. exists x.
      pose proof (Kp _ _ Hin) as ->. split; [by apply (elem_of_map_get _ _ _ Op)|]. split; [|done].
      unfold event_key. simpl. by destruct (map_get _ next); [destruct Hh; eauto|].
  - intros [(x & Hg & Hc & E)|(x & Hg & Hn & E)]; [left|right]; exists (event_key e, x); simpl.
    + split; [by apply elem_of_map_get|]. by rewrite Hc, <-E.
    + split; [by apply elem_of_map_get|]. unfold map_has. rewrite Hn. rewrite bool_decide_false by (by intros []). by rewrite <-E.
Qed.
End diff.

(** Reactors are addresses: never empty, and without commas. *)
Definition reactors_ok (s : snapshot) : Prop := ∀ k e, (k, e) ∈ s → Forall (λ r, r ≠ [] ∧ (44 ∉ r)) (reactors e).

Lemma unchanged_same p e : reaction_changed (Some p) e = false →
  Forall (λ r, r ≠ [] ∧ (44 ∉ r)) (reactors p) → Forall (λ r, r ≠ [] ∧ (44 ∉ r)) (reactors e) →
  (count p, reactors p) = (count e, reactors e).
Proof.
  intros Hc Hp He. simpl in Hc. apply orb_false_elim in Hc as [H1 H2]. bool_to_Z. f_equal; [done|].
  by apply (join_inj 44).
Qed.

Lemma diff_keys_distinct groupId prev next : keyed prev → keyed next →
  NoDup (event_key <$> reaction_diff groupId prev next).
Proof.
  intros Hp Hn. apply NoDup_fmap_2_strong.
  - intros e e' He He' Ek. rewrite diff_cases in He, He' by done. rewrite <-Ek in He'.
    destruct He as [(x & E & _ & ->)|(x & E & N & ->)], He' as [(x' & E' & _ & ->)|(x' & E' & N' & ->)]; congruence.
  - destruct Hp as [Op Kp], Hn as [On Kn]. unfold reaction_diff. apply NoDup_app. split; [|split].
    + apply NoDup_omap; [|by apply (NoDup_fmap_1 fst)]. intros [k x] [k' x'] b Hx Hx' E E'. simpl in *.
      destruct (reaction_changed _ x); [|done]. destruct (reaction_changed _ x'); [|done].
      injection E as <-. injection E' as E1 E2 _ _. pose proof (Kn _ _ Hx). pose proof (Kn _ _ Hx').
      apply (elem_of_map_get _ _ _ On) in Hx, Hx'. congruence.
    + intros e (kx & Hin & E)%list_elem_of_omap (ky & Hin' & E')%list_elem_of_omap.
      destruct kx as [k x], ky as [k' y]. simpl in *. destruct (reaction_changed _ x); [|done].
      destruct (map_has k' next) eqn:Eh; [done|]. injection E as <-. injection E' as E1 E2 _ _.
      pose proof (Kn _ _ Hin) as Ek. pose proof (Kp _ _ Hin') as Ek'. rewrite E1, E2, <-Ek in Ek'. subst k'.
      unfold map_has in Eh. apply bool_decide_eq_false_1 in Eh. apply Eh. apply (elem_of_map_get _ _ _ On) in Hin. eauto.
    + apply NoDup_omap; [|by apply (NoDup_fmap_1 fst)]. intros [k x] [k' x'] b Hx Hx' E E'. simpl in *.
      destruct (map_has k _); [done|]. destruct (map_has k' _); [done|].
      injection E as <-. injection E' as E1 E2. pose proof (Kp _ _ Hx). pose proof (Kp _ _ Hx').
      apply (elem_of_map_get _ _ _ Op) in Hx, Hx'. congruence.
Qed.

(** C25.  Polling reconstructs reaction state: a consumer that is in step with
    the previous listing and applies the events of one round, in order, is in
    step with the new listing, removed reactions included; and an event is only
    sent for a key whose row is different. *)
Theorem polling_tracks_reactions groupId rows rows' view :
  reactors_ok (reaction_map rows) → reactors_ok (reaction_map rows') →
  (∀ k, seen view k = listed (reaction_map rows) k) →
  let events := reaction_diff groupId (reaction_map rows) (reaction_map rows') in
  (∀ k, seen (foldl apply_reaction view events) k = listed (reaction_map rows') k)
  ∧ ∀ e, e ∈ events → map_get (event_key e) (reaction_map rows) ≠ map_get (event_key e) (reaction_map rows').
Proof.
  pose proof (reaction_map_keyed rows) as Hp. pose proof (reaction_map_keyed rows') as Hn.
  set (prev := reaction_map rows) in *. set (next := reaction_map rows') in *. clearbody prev next.
  intros Rp Rn Hview. cbv zeta. split.
  - intros k. destruct (decide (k ∈ event_key <$> reaction_diff groupId prev next)) as [Hin|Hout].
    + apply list_elem_of_fmap in Hin as (e & -> & He). unfold seen.
      rewrite apply_in by (done || by apply diff_keys_distinct). simpl. unfold listed.
      apply diff_cases in He as [(x & -> & _ & ->)|(x & _ & -> & ->)]; done.
    + unfold seen. rewrite apply_out by done. change (seen view k = listed next k). rewrite Hview. unfold listed.
      assert (∀ e, event_key e = k → e ∉ reaction_diff groupId prev next) as Hno.
      { intros e <- He. by apply Hout, list_elem_of_fmap_2. }
      destruct (map_get k next) as [e|] eqn:En.
      * pose proof (proj2 (elem_of_map_get _ _ _ (proj1 Hn)) En) as Hin. pose proof (proj2 Hn _ _ Hin) as Ek.
        destruct (reaction_changed (map_get k prev) e) eqn:Ec.
        { exfalso. apply (Hno (reaction_event groupId e (count e) (reactors e))); [done|].
          apply diff_cases; [done..|]. left. exists e. unfold event_key. simpl. by rewrite <-Ek. }
        destruct (map_get k prev) as [p|] eqn:Epv; [|done]. simpl.
        pose proof (proj2 (elem_of_map_get _ _ _ (proj1 Hp)) Epv) as Hin'.
        apply unchanged_same; [done|by apply (Rp k)|by apply (Rn k)].
      * destruct (map_get k prev) as [p|] eqn:Epv; [|done]. exfalso.
        pose proof (proj2 (elem_of_map_get _ _ _ (proj1 Hp)) Epv) as Hin'. pose proof (proj2 Hp _ _ Hin') as Ek.
        apply (Hno (reaction_event groupId p 0 [])); [done|]. apply diff_cases; [done..|]. right. exists p.
        unfold event_key. simpl. by rewrite <-Ek.
  - intros e He E. rewrite diff_cases in He by done. destruct He as [(x & Ex & Hc & _)|(x & Ex & Hnone & _)]; [|congruence].
    rewrite E, Ex in Hc. simpl in Hc. by rewrite Z.eqb_refl, bool_decide_true in Hc.
Qed.

(** * Properties of the loops *)

Section loops.
Context `{JsonNumbers} `{JsText} `{HexCodec} `{MySoCrypto} `{Base64Codec}.
Context (env : nat → await_step) (t : transport).

Section keeps.
Context {E : Type} (I : gen E → Prop).
Context (I_http : ∀ w g, I g → I (with_http w g)).

Lemma keeps_lift {A} (m : HttpTransport.call A) : keeps I (lift m).
Proof. intros g Hg. unfold lift. destruct (m (g_http g)) as [a w]. by apply I_http. Qed.

Lemma keeps_delay : keeps I (delay env).
Proof. apply keeps_bind; [apply keeps_lift|intros; apply keeps_ret]. Qed.

Lemma keeps_and_then m k : keeps I m → keeps I k → keeps I (and_then m k).
Proof. intros Hm Hk. apply keeps_bind; [done|]. intros []; [apply keeps_ret|done]. Qed.

Lemma keeps_unless k : keeps I k → keeps I (unless_stopped k).
Proof. intros Hk. apply keeps_bind_get. intros g _. destruct (stopped g); [apply keeps_ret|done]. Qed.

Lemma keeps_yield_each after l :
  (∀ e w g, e ∈ l → I g → I (after e (with_http w (with_event e g)))) → keeps I (yield_each env after l).
Proof.
  induction l as [|e l IH]; intros Hl; [apply keeps_ret|]. simpl. apply keeps_bind_get. intros g0 _.
  destruct (stopped g0); [apply keeps_ret|]. intros g Hg.
  unfold yield, modify, lift, await, mbind, eff_bind, mret, eff_ret. simpl.
  apply IH; [intros e' w' g1 He'; apply Hl; by right|]. apply Hl; [left|done].
Qed.

Lemma keeps_rounds body n : keeps I body → keeps I (rounds env body n).
Proof.
  intros Hb. induction n as [|n IH]; [apply keeps_ret|]. simpl. apply keeps_bind_get. intros g _.
  destruct (stopped g); [apply keeps_ret|]. apply keeps_and_then; [|done]. apply keeps_catch; [done|].
  intros e. unfold on_error. apply keeps_bind_get. intros g1 _. destruct (stopped g1); [apply keeps_ret|].
  assert (keeps I (_ ← delay env; mret false)) as Hd by (apply keeps_bind; [apply keeps_delay|intros; apply keeps_ret]).
  destruct (relayer_status e); [|done]. destruct (_ && _); [apply keeps_throw|done].
Qed.
End keeps.

(** The order a subscription resumes from: that of the last message yielded. *)
Definition last_order (start : option number) (l : list RelayerSubscriptionEvent) : option number :=
  foldl (λ o e, match e with MessageCreated m => Some (order m) | _ => o end) start l.

Definition resumes (start : option number) (g : gen RelayerSubscriptionEvent) : Prop :=
  lastOrder g = last_order start (yielded g).

Lemma last_order_snoc start l e : last_order start (l ++ [e])
  = match e with MessageCreated m => Some (order m) | _ => last_order start l end.
Proof. unfold last_order. by rewrite foldl_app. Qed.

Lemma rounds_error {E} (body : generator E bool) n : ∀ g e g',
  rounds env body n g = (Throw e, g') → ∃ s, relayer_status e = Some s ∧ 400 ≤ s < 500.
Proof.
  induction n as [|n IH]; intros g e g' Hr; [done|]. simpl in Hr. unfold mbind at 1, eff_bind at 1, get_state at 1 in Hr.
  destruct (stopped g); [done|]. unfold and_then in Hr. apply bind_throw_inv in Hr as [Hr|(b & g1 & _ & Hr)].
  - apply try_catch_inv in Hr as [(a & _ & ?)|(e' & g1 & _ & Hr)]; [done|]. unfold on_error in Hr.
    unfold mbind at 1, eff_bind at 1, get_state at 1 in Hr. destruct (stopped g1); [done|].
    destruct (relayer_status e') as [s|] eqn:Es; [|done]. destruct (_ && _) eqn:E400; [|done].
    injection Hr as -> _. exists s. bool_to_Z. split; [done|lia].
  - destruct b; [done|]. by apply IH in Hr.
Qed.

(** A polling subscription loses and repeats nothing of its own making:
    after any number of rounds, failed ones included, it will resume exactly
    after the last message it yielded; a
    subscription on a stopped transport yields and sends nothing; and the only
    errors it throws are the relayer's 4xx answers, everything else is retried. *)
Lemma subscribe_resumes s groupId limit n start w r g' :
  subscribe env t s groupId limit n (new_gen start w) = (r, g') →
  lastOrder g' = last_order start (yielded g')
  ∧ (disconnected w || aborted w = true → yielded g' = [] ∧ sent (g_http g') = sent w)
  ∧ ∀ e, r = Throw e → ∃ st, relayer_status e = Some st ∧ 400 ≤ st < 500.
Proof.
  intros Hr. split; [|split].
  - assert (∀ w g, resumes start g → resumes start (with_http w g)) as Hh by done.
    assert (keeps (resumes start) (subscribe_body env t s groupId limit)) as Hbody; [clear Hr|].
    2: { pose proof (keeps_rounds _ Hh _ n Hbody (new_gen start w) eq_refl) as Hg. unfold subscribe in Hr. by rewrite Hr in Hg. }
     unfold subscribe_body.
    apply keeps_bind_get. intros g _. apply keeps_bind; [by apply keeps_lift|]. intros page.
    apply keeps_and_then.
    { apply keeps_yield_each. intros e w' g1 He _. apply list_elem_of_fmap in He as (m & -> & _).
      unfold resumes. simpl. by rewrite last_order_snoc. }
    apply keeps_unless, keeps_bind; [by apply keeps_lift|]. intros rows. apply keeps_bind_get. intros g1 _.
    apply keeps_and_then.
    { destruct (reactionSnapshot g1); [|apply keeps_ret]. apply keeps_yield_each. intros e w' g2 He Hg.
      apply list_elem_of_fmap in He as (x & -> & _). unfold resumes in *. simpl. by rewrite last_order_snoc. }
    apply keeps_bind; [by apply keeps_modify|]. intros _. apply keeps_unless, keeps_bind; [by apply keeps_lift|].
    intros members. apply keeps_bind_get. intros g2 _. apply keeps_and_then.
    { destruct (receiptSnapshot g2); [|apply keeps_ret]. apply keeps_yield_each. intros e w' g3 He Hg.
      apply list_elem_of_fmap in He as (x & -> & _). unfold resumes in *. simpl. by rewrite last_order_snoc. }
    apply keeps_bind; [by apply keeps_modify|]. intros _. apply keeps_bind; [by apply keeps_delay|]. intros _. apply keeps_ret.
  - intros Hs. destruct n as [|n]; [by injection Hr as _ <-|]. unfold subscribe in Hr. simpl in Hr.
    unfold mbind at 1, eff_bind at 1, get_state at 1 in Hr. unfold stopped in Hr. simpl in Hr. rewrite Hs in Hr.
    by injection Hr as _ <-.
  - intros e ->. by apply rounds_error in Hr.
Qed.
End loops.

(** * Witnesses *)

(** The view of a consumer that has just read a listing. *)
Definition view_of (s : snapshot) : reaction_view := (λ kv, (kv.1, (count kv.2, reactors kv.2))) <$> s.

Lemma seen_view_of s k : seen (view_of s) k = listed s k.
Proof.
  unfold seen, listed, view_of. induction s as [|[k' e] s IH]; [done|]. simpl. by case_decide.
Qed.

Definition thumb (seq n : Z) (who : list jsstr) : RelayerReactionEntry :=
  {| chainSeq := seq; emoji := js "+1"; count := n; reactors := who |}.

Lemma polling_tracks_reactions_witness :
  let rows := [thumb 1 1 [js "0xa"]; thumb 2 1 [js "0xa"]] in
  let rows' := [thumb 1 2 [js "0xa"; js "0xb"]] in
  let events := reaction_diff (js "0xg") (reaction_map rows) (reaction_map rows') in
  re_count <$> events = [2; 0]
  ∧ seen (foldl apply_reaction (view_of (reaction_map rows)) events) (js "1:+1")
    = (2, [js "0xa"; js "0xb"]).
Proof.
  cbv zeta. split; [vm_compute; reflexivity|].
  assert (∀ rows, Forall (λ e, Forall (λ r : jsstr, bool_decide (r ≠ [] ∧ (44 ∉ r)) = true) (reactors e)) (reaction_map rows).*2 →
    reactors_ok (reaction_map rows)) as Hok.
  { intros rows Hf k e Hin. rewrite Forall_forall in Hf.
    eapply Forall_impl; [apply (Hf e); by apply (list_elem_of_fmap_2 snd _ (k, e))|]. intros r. apply bool_decide_eq_true_1. }
  rewrite (proj1 (polling_tracks_reactions (js "0xg") [thumb 1 1 [js "0xa"]; thumb 2 1 [js "0xa"]]
    [thumb 1 2 [js "0xa"; js "0xb"]] (view_of (reaction_map [thumb 1 1 [js "0xa"]; thumb 2 1 [js "0xa"]]))
    ltac:(apply Hok; repeat constructor) ltac:(apply Hok; repeat constructor)
    (seen_view_of _))).
  vm_compute. reflexivity.
Defined.

Definition wire_row (id : string) (k : Z) : json := JObj [
  (js "message_id", JStr (js id)); (js "group_id", JStr (js "0xg")); (js "order", JNum (Int k));
  (js "sender_address", JStr (js "0xa")); (js "created_at", JNum (Int 1)); (js "updated_at", JNum (Int 1));
  (js "is_edited", JBool false); (js "is_deleted", JBool false); (js "sync_status", JStr (js "SYNCED"))].

Definition page_reply : reply :=
  ok_json (JObj [(js "messages", JArr [wire_row "m4" 4; wire_row "m7" 7]); (js "hasNext", JBool false)]).

(** One round that yields two messages and then fails to list reactions. *)
Lemma subscribe_resumes_witness : ∃ r g',
  @subscribe integer_numbers ascii_text plain_hex toy_crypto plain_base64 (scripted [no_reply; page_reply]) sample_transport
    toy_signer (js "0xg") None 1 (new_gen (Some (Int 2)) fresh_http) = (r, g')
  ∧ length (yielded g') = 2%nat ∧ lastOrder g' = Some (Int 7).
Proof.
  destruct (@subscribe integer_numbers ascii_text plain_hex toy_crypto plain_base64 (scripted [no_reply; page_reply]) sample_transport
    toy_signer (js "0xg") None 1 (new_gen (Some (Int 2)) fresh_http)) as [r g'] eqn:E.
  exists r, g'. split; [reflexivity|].
  rewrite (proj1 (@subscribe_resumes integer_numbers ascii_text plain_hex toy_crypto plain_base64 _ _ _ _ _ _ _ _ _ _ E)).
  vm_compute in E. injection E as <- <-. split; reflexivity.
Defined.
