(* ===== verification/Aad.v ===== *)
(** What a ciphertext is bound to: message and attachment AADs
    ([encryption/envelope-encryption.ts]), MyData identities and the reader
    policies ([encryption/mydata-policy.ts]).

    BCS is the SDK's ([@socialproof/myso/bcs]): the class [MySoBcs] names the
    serialisers the code calls. *)
From S2P Require Import Prelude JsString Utf8 Anchors.

(** [serialize] of a struct is the concatenation of its fields; [None] is a thrown error. *)
Class MySoBcs := {
  isValidMySoAddress : jsstr → bool;
  bcs_address : jsstr → bytes;
  bcs_u64 : Z → option bytes;
  parse_address : bytes → jsstr;
  parse_u64 : bytes → Z;
}.

Class MySoBcsLaws `{MySoBcs} : Prop := {
  bcs_address_length a : isValidMySoAddress a = true → length (bcs_address a) = 32%nat;
  bcs_u64_length v b : bcs_u64 v = Some b → length b = 8%nat;
  parse_bcs_u64 v b : bcs_u64 v = Some b → parse_u64 b = v;
}.

(** Two spellings of one address. *)
Definition same_address `{MySoBcs} (a b : jsstr) : Prop := parse_address (bcs_address a) = parse_address (bcs_address b).

(** * AADs *)

Record AadParams := { aad_groupId : jsstr; aad_keyVersion : Z; aad_senderAddress : jsstr }.

Inductive AttachmentAadRole := role_data | role_meta | role_poster.

Definition role_name (r : AttachmentAadRole) : jsstr :=
  match r with role_data => js "data" | role_meta => js "meta" | role_poster => js "poster" end.

Definition ATTACHMENT_AAD_LABEL_V1 : jsstr := js "myso-attachment-v1:".

Section aad.
Context `{MySoBcs}.

Definition buildMessageAad (p : AadParams) : option bytes :=
  if negb (isValidMySoAddress (aad_groupId p)) then None
  else if negb (isValidMySoAddress (aad_senderAddress p)) then None
  else v ← bcs_u64 (aad_keyVersion p); Some (bcs_address (aad_groupId p) ++ v ++ bcs_address (aad_senderAddress p)).

Definition buildAttachmentAad (p : AadParams) (role : AttachmentAadRole) : option bytes :=
  base ← buildMessageAad p; Some (base ++ utf8_encode (ATTACHMENT_AAD_LABEL_V1 ++ role_name role)).

(** * MyData identities *)

Definition DEFAULT_IDENTITY_BYTES_LENGTH : nat := 40.

Definition encodeIdentity (groupId : jsstr) (keyVersion : Z) : option bytes :=
  if negb (isValidMySoAddress groupId) then None
  else v ← bcs_u64 keyVersion; Some (bcs_address groupId ++ v).

Definition decodeIdentity (b : bytes) : option (jsstr * Z) :=
  if (length b =? DEFAULT_IDENTITY_BYTES_LENGTH)%nat then Some (parse_address (take 32 b), parse_u64 (drop 32 b)) else None.

(** * Reader policies *)

(** [/^0x[0-9a-fA-F]{1,64}$/], then lower case and 64 digits. *)
Definition policyAddress (value : jsstr) : option jsstr :=
  let hex := drop 2 value in
  if startsWith (js "0x") value && negb (is_nil hex) && (length hex <=? 64)%nat && forallb is_hex hex
  then Some (js "0x" ++ padStart 64 48 (ascii_lower <$> hex)) else None.

(** A Move call: package, module, function, and its arguments. *)
Inductive MoveArg := PureVector (b : bytes) | PureAddress (a : jsstr) | ObjectArg (id : jsstr).
Record MoveCall := { mc_package : jsstr; mc_module : jsstr; mc_function : jsstr; mc_arguments : list MoveArg }.

Record AgentReaderPolicyOptions := {
  originalPackageId : jsstr; latestPackageId : jsstr; versionId : jsstr; platformId : jsstr;
  memoryConfigId : jsstr; memoryAccountId : jsstr; agentDerivedAddress : jsstr;
}.

(** The constructor; [None] is a thrown error. *)
Definition AgentMyDataReaderPolicy (o : AgentReaderPolicyOptions) : option AgentReaderPolicyOptions :=
  a ← policyAddress (originalPackageId o); b ← policyAddress (latestPackageId o); c ← policyAddress (versionId o);
  d ← policyAddress (platformId o); e ← policyAddress (memoryConfigId o); f ← policyAddress (memoryAccountId o);
  g ← policyAddress (agentDerivedAddress o);
  Some {| originalPackageId := a; latestPackageId := b; versionId := c; platformId := d; memoryConfigId := e;
          memoryAccountId := f; agentDerivedAddress := g |}.

(** [true] when it returns, [false] when it throws. *)
Definition agent_assertSessionIdentity (o : AgentReaderPolicyOptions) (address packageId : jsstr) : bool :=
  match policyAddress address, policyAddress packageId with
  | Some a, Some p => bool_decide (a = agentDerivedAddress o) && bool_decide (p = originalPackageId o)
  | _, _ => false
  end.

Definition agent_mydataApproveThunk (o : AgentReaderPolicyOptions) (identityBytes : bytes) (groupId historyId : jsstr)
    : option MoveCall :=
  decoded ← decodeIdentity identityBytes;
  group ← policyAddress groupId;
  if negb (bool_decide (decoded.1 = group)) then None else
  history ← policyAddress historyId;
  Some {| mc_package := latestPackageId o; mc_module := js "mydata_policies"; mc_function := js "mydata_approve_agent_reader";
          mc_arguments := [PureVector identityBytes; ObjectArg (versionId o); ObjectArg group; ObjectArg history;
                           ObjectArg (platformId o); ObjectArg (memoryConfigId o); ObjectArg (memoryAccountId o);
                           ObjectArg (js "0x6")] |}.

Record PrincipalOversightPolicyOptions := {
  po_originalPackageId : jsstr; po_latestPackageId : jsstr; po_versionId : jsstr; po_memoryAccountId : jsstr;
  po_agentDerivedAddress : jsstr;
}.

Definition oversight_mydataApproveThunk (o : PrincipalOversightPolicyOptions) (identityBytes : bytes)
    (groupId historyId : jsstr) : MoveCall :=
  {| mc_package := po_latestPackageId o; mc_module := js "mydata_policies"; mc_function := js "mydata_approve_reader_with_oversight";
     mc_arguments := [PureVector identityBytes; ObjectArg (po_versionId o); ObjectArg groupId; ObjectArg historyId;
                      ObjectArg (po_memoryAccountId o); PureAddress (po_agentDerivedAddress o)] |}.
End aad.

(** * Properties *)

Section properties.
Context `{MySoBcsLaws}.

Lemma message_aad_parts p b : buildMessageAad p = Some b →
  isValidMySoAddress (aad_groupId p) = true ∧ isValidMySoAddress (aad_senderAddress p) = true
  ∧ ∃ v, bcs_u64 (aad_keyVersion p) = Some v ∧ b = bcs_address (aad_groupId p) ++ v ++ bcs_address (aad_senderAddress p).
Proof.
  unfold buildMessageAad. destruct (isValidMySoAddress _); [|done]. destruct (isValidMySoAddress _); [|done]. simpl.
  destruct (bcs_u64 _) as [v|]; [|done]. intros [= <-]. eauto.
Qed.

Lemma message_aad_length p b : buildMessageAad p = Some b → length b = 72%nat.
Proof.
  intros (Hg & Hs & v & Hv & ->)%message_aad_parts.
  by rewrite !length_app, !bcs_address_length, (bcs_u64_length _ _ Hv) by done.
Qed.

Definition same_binding (p q : AadParams) : Prop :=
  same_address (aad_groupId p) (aad_groupId q) ∧ aad_keyVersion p = aad_keyVersion q
  ∧ same_address (aad_senderAddress p) (aad_senderAddress q).

Lemma message_aad_inj p q b : buildMessageAad p = Some b → buildMessageAad q = Some b → same_binding p q.
Proof.
  intros (Hg & Hs & v & Hv & ->)%message_aad_parts (Hg' & Hs' & v' & Hv' & E)%message_aad_parts.
  apply app_inj_1 in E as [Eg E]; [|by rewrite !bcs_address_length].
  apply app_inj_1 in E as [Ev Es]; [|by rewrite (bcs_u64_length _ _ Hv), (bcs_u64_length _ _ Hv')].
  unfold same_binding, same_address. rewrite Eg, Es. subst v'. split; [done|]. split; [|done].
  by rewrite <-(parse_bcs_u64 _ _ Hv), <-(parse_bcs_u64 _ _ Hv').
Qed.

(** What a ciphertext is bound to: message AADs are 72 bytes and equal
    only for the same group, key version and sender; attachment AADs are equal
    only for the same binding and the same role, and no attachment AAD is a
    message AAD, so neither kind of ciphertext, nor the metadata and the bytes
    of a file, can stand for the other. *)
Lemma aad_binding p q r s b : buildAttachmentAad p r = Some b →
  (buildAttachmentAad q s = Some b → same_binding p q ∧ r = s)
  ∧ buildMessageAad q ≠ Some b
  ∧ ∀ m m', buildMessageAad p = Some m → buildMessageAad q = Some m' →
      length m = 72%nat ∧ (m = m' → same_binding p q).
Proof.
  intros Hb. unfold buildAttachmentAad in Hb. destruct (buildMessageAad p) as [base|] eqn:Ep; [|done].
  injection Hb as <-. pose proof (message_aad_length p base Ep) as Hl. split; [|split].
  - unfold buildAttachmentAad. destruct (buildMessageAad q) as [base'|] eqn:Eq; [|done]. intros [= E].
    pose proof (message_aad_length q base' Eq) as Hl'. apply app_inj_1 in E as [-> E]; [|congruence].
    split; [by eapply message_aad_inj|]. destruct r, s; try done; by vm_compute in E.
  - intros Eq. apply message_aad_length in Eq. rewrite length_app, Hl in Eq. destruct r; vm_compute in Eq; done.
  - intros m m' [= <-] Em'. split; [done|]. intros ->. by eapply message_aad_inj.
Qed.

Lemma decode_encode_identity g v b : encodeIdentity g v = Some b →
  decodeIdentity b = Some (parse_address (bcs_address g), v).
Proof.
  unfold encodeIdentity, decodeIdentity. destruct (isValidMySoAddress g) eqn:Eg; [|done]. simpl.
  destruct (bcs_u64 v) as [x|] eqn:Ev; [|done]. intros [= <-].
  rewrite length_app, bcs_address_length, (bcs_u64_length _ _ Ev) by done. simpl.
  rewrite take_app_length', drop_app_length' by (by rewrite bcs_address_length). by rewrite (parse_bcs_u64 _ _ Ev).
Qed.
End properties.

(** * Witness *)

(** 32 bytes as 64 digits, and little-endian u64s. *)
Fixpoint hex_bytes (h : jsstr) : bytes :=
  match h with a :: b :: h => (hex_digit_value a * 16 + hex_digit_value b) :: hex_bytes h | _ => [] end.
Fixpoint le_bytes (n : nat) (v : Z) : bytes :=
  match n with O => [] | S n => v mod 256 :: le_bytes n (v / 256) end.
Fixpoint le_value (b : bytes) : Z := match b with [] => 0 | x :: b => x + 256 * le_value b end.

Lemma le_bytes_length (n : nat) v : length (le_bytes n v) = n.
Proof. revert v. induction n as [|n IH]; intros v; simpl; [done|]. by rewrite IH. Qed.

Lemma le_value_bytes (n : nat) v : 0 ≤ v < 256 ^ Z.of_nat n → le_value (le_bytes n v) = v.
Proof.
  revert v. induction n as [|n IH]; intros v Hv; simpl; [lia|].
  rewrite IH; [pose proof (Z.div_mod v 256); lia|].
  rewrite Nat2Z.inj_succ, Z.pow_succ_r in Hv by lia. split; [apply Z.div_pos; lia|]. apply Z.div_lt_upper_bound; lia.
Qed.

Lemma hex_bytes_length (n : nat) h : length h = (2 * n)%nat → length (hex_bytes h) = n.
Proof.
  revert h. induction n as [|n IH]; intros [|a [|b h]] Hl; simpl in *; try lia. rewrite IH; lia.
Qed.

#[local] Instance plain_bcs : MySoBcs := {|
  isValidMySoAddress a := startsWith (js "0x") a && (length a =? 66)%nat && forallb is_hex (drop 2 a);
  bcs_address a := hex_bytes (drop 2 a);
  bcs_u64 v := if (0 <=? v) && (v <? 256 ^ 8) then Some (le_bytes 8 v) else None;
  parse_address b := js "0x" ++ hexOf b;
  parse_u64 := le_value |}.

Lemma plain_bcs_laws : @MySoBcsLaws plain_bcs.
Proof.
  split; simpl.
  - intros a Ha. apply andb_prop in Ha as [[_ Hl]%andb_prop _]. apply Nat.eqb_eq in Hl.
    apply hex_bytes_length. rewrite length_drop, Hl. reflexivity.
  - intros v b. destruct (_ && _); [|done]. intros [= <-]. done.
  - intros v b. destruct ((0 <=? v) && (v <? 256 ^ 8)) eqn:Ev; [|done]. intros [= <-].
    apply andb_prop in Ev as [H0 H1]. apply Z.leb_le in H0. apply Z.ltb_lt in H1. by apply (le_value_bytes 8).
Qed.

Definition toy_aad : AadParams := {|
  aad_groupId := js "0x" ++ padStart 64 48 (js "a"); aad_keyVersion := 3; aad_senderAddress := js "0x" ++ padStart 64 48 (js "b") |}.

Lemma aad_binding_witness : ∃ b, buildAttachmentAad toy_aad role_meta = Some b ∧ buildMessageAad toy_aad ≠ Some b.
Proof.
  destruct (buildAttachmentAad toy_aad role_meta) as [b|] eqn:Hb; [|exfalso; revert Hb; vm_compute; discriminate].
  exists b. split; [reflexivity|].
  exact (proj1 (proj2 (@aad_binding plain_bcs plain_bcs_laws toy_aad toy_aad role_meta role_meta b Hb))).
Defined.
