(* ===== verification/SessionKeys.v ===== *)
(** Expiring maps ([encryption/ttl-map.ts]) and the session key manager
    ([encryption/session-key-manager.ts]): caching, expiry, and the coalescing
    of concurrent callers into one creation. *)
From S2P Require Import Prelude JsString JsMap Utf8.
From Stdlib Require Import Sorted.
#[local] Open Scope Z_scope.

(** * TtlMap *)

Section ttl.
Context {V : Type} (ttlMs : Z).

(** Value and [expiresAt]; a stored value is never [undefined]. *)
Definition TtlMap : Type := list (jsstr * (V * Z)).

Definition ttl_set (now : Z) (key : jsstr) (value : V) (m : TtlMap) : TtlMap := map_set key (value, now + ttlMs) m.

Definition ttl_get (now : Z) (key : jsstr) (m : TtlMap) : option V * TtlMap :=
  match map_get key m with
  | None => (None, m)
  | Some (value, expiresAt) => if expiresAt <=? now then (None, map_delete key m) else (Some value, m)
  end.

Definition ttl_has (now : Z) (key : jsstr) (m : TtlMap) : bool * TtlMap :=
  let '(v, m') := ttl_get now key m in (match v with Some _ => true | None => false end, m').

(** [delete] and [clear] are [Map]'s own. *)
Inductive ttl_op := TSet (key : jsstr) (value : V) | TGet (key : jsstr) | THas (key : jsstr) | TDelete (key : jsstr) | TClear.

Definition ttl_step (m : TtlMap) (e : Z * ttl_op) : TtlMap :=
  match e.2 with
  | TSet k v => ttl_set e.1 k v m
  | TGet k => (ttl_get e.1 k m).2
  | THas k => (ttl_has e.1 k m).2
  | TDelete k => map_delete k m
  | TClear => []
  end.

(** What the operations so far say is live under [key] at [now]: the last value
    set, unless it was deleted since or is [ttlMs] old. *)
Definition live_step (now : Z) (key : jsstr) (o : option V) (e : Z * ttl_op) : option V :=
  match e.2 with
  | TSet k v => if decide (k = key) then (if now <? e.1 + ttlMs then Some v else None) else o
  | TDelete k => if decide (k = key) then None else o
  | TClear => None
  | _ => o
  end.

Definition live (now : Z) (key : jsstr) (h : list (Z * ttl_op)) : option V := foldl (live_step now key) None h.

(** The value the map would give at [now]. *)
Definition peek (now : Z) (key : jsstr) (m : TtlMap) : option V := (ttl_get now key m).1.

Lemma peek_spec now key m : peek now key m =
  match map_get key m with Some (v, e) => if e <=? now then None else Some v | None => None end.
Proof. unfold peek, ttl_get. destruct (map_get key m) as [[v e]|]; [|done]. by destruct (e <=? now). Qed.

(** Looking at one key never changes what any key gives from then on. *)
Lemma peek_after_get t k now key m : t ≤ now → peek now key (ttl_get t k m).2 = peek now key m.
Proof.
  intros Ht. unfold ttl_get. destruct (map_get k m) as [[v e]|] eqn:E; [|done]. destruct (e <=? t) eqn:El; [|done].
  rewrite !peek_spec. simpl. rewrite map_get_delete. case_decide as Ek; [|done]. subst key. rewrite E.
  bool_to_Z. by rewrite (proj2 (Z.leb_le e now)) by lia.
Qed.

Lemma ttl_run h : ∀ m start now key,
  Sorted Z.le (start :: h.*1) → (∀ e, e ∈ h → e.1 ≤ now) →
  peek now key (foldl ttl_step m h) = foldl (live_step now key) (peek now key m) h.
Proof.
  induction h as [|[t op] h IH]; intros m start now key Hs Hle; [done|].
  rewrite fmap_cons in Hs. inversion Hs as [|? ? Hs' Hd]; subst.
  assert (t ≤ now) as Ht by apply (Hle (t, op) ltac:(left)). simpl.
  rewrite (IH _ t) by (done || intros; apply Hle; by right). f_equal. unfold ttl_step, live_step. simpl. destruct op as [k v|k|k|k|].
  - rewrite peek_spec. unfold ttl_set. rewrite map_get_set. case_decide as Ek.
    + subst. rewrite decide_True by done. destruct (Z.leb_spec (t + ttlMs) now), (Z.ltb_spec now (t + ttlMs)); (lia || done).
    + rewrite decide_False by done. by rewrite peek_spec.
  - by apply peek_after_get.
  - unfold ttl_has. pose proof (peek_after_get t k now key m Ht) as E. by destruct (ttl_get t k m).
  - rewrite !peek_spec, map_get_delete. case_decide as Ek; [subst; by rewrite decide_True|].
    by rewrite decide_False.
  - done.
Qed.

(** The expiring map is the plain map of what is still alive: after any
    operations at non-decreasing times, reading a key at a later time gives the last value set under
    it, unless the key was deleted or the map cleared since, or the value is
    [ttlMs] old; lookups that evict on the way make no difference. *)
Lemma ttl_map_spec h now key : Sorted Z.le h.*1 → (∀ e, e ∈ h → e.1 ≤ now) →
  peek now key (foldl ttl_step [] h) = live now key h.
Proof.
  intros Hs Hle. destruct h as [|[t op] h]; [done|].
  refine (ttl_run ((t, op) :: h) [] t now key _ Hle). rewrite fmap_cons in *. simpl in *.
  constructor; [done|]. constructor. lia.
Qed.
End ttl.
Arguments ttl_op V : clear implicits.

(** * Session keys *)

(** [SessionKey] of [@socialproof/mydata]; a [None] or [Throw] is a rejected promise. *)
Class SessionKeyLib := {
  SessionKey : Type;
  isExpired : SessionKey → Z → bool;
  creationTimeMs : SessionKey → Z;
  key_ttlMin : SessionKey → Z;
  error : Type;
  (* address, package, mvr name, ttl, whether a signer is given *)
  SessionKey_create : jsstr → jsstr → option jsstr → Z → bool → outcome error SessionKey;
  getCertificate : SessionKey → outcome error SessionKey;
  getPersonalMessage : SessionKey → bytes;
  setPersonalMessageSignature : SessionKey → jsstr → outcome error SessionKey;
}.

Definition DEFAULT_SESSION_KEY_TTL_MIN : Z := 10.

Section manager.
Context `{SessionKeyLib}.

Record SharedOptions := { ttlMin : option Z; refreshBufferMs : option Z; mvrName : option jsstr }.

Inductive SessionKeyConfig :=
  | SignerConfig (address : jsstr) (o : SharedOptions)
  | CallbackConfig (address : jsstr) (onSign : bytes → outcome error jsstr) (o : SharedOptions)
  | ExternalConfig (getSessionKey : outcome error SessionKey).

Definition ttlMs (c : SessionKeyConfig) : Z :=
  match c with
  | SignerConfig _ o | CallbackConfig _ _ o => default DEFAULT_SESSION_KEY_TTL_MIN (ttlMin o)
  | ExternalConfig _ => DEFAULT_SESSION_KEY_TTL_MIN
  end * 60000.

Definition resolveRefreshBuffer (c : SessionKeyConfig) : Z :=
  match c with
  | SignerConfig _ o | CallbackConfig _ _ o => default 60000 (refreshBufferMs o)
  | ExternalConfig _ => 60000
  end.

Definition needsRefresh (buffer now : Z) (k : option SessionKey) : bool :=
  match k with
  | None => true
  | Some k => isExpired k now || (creationTimeMs k + key_ttlMin k * 60000 <=? now + buffer)
  end.

Definition create (packageId : jsstr) (c : SessionKeyConfig) : outcome error SessionKey :=
  match c with
  | ExternalConfig result => result
  | SignerConfig address o =>
      match SessionKey_create address packageId (mvrName o) (default DEFAULT_SESSION_KEY_TTL_MIN (ttlMin o)) true with
      | Throw e => Throw e
      | Ok k => getCertificate k
      end
  | CallbackConfig address onSign o =>
      match SessionKey_create address packageId (mvrName o) (default DEFAULT_SESSION_KEY_TTL_MIN (ttlMin o)) false with
      | Throw e => Throw e
      | Ok k =>
          match onSign (getPersonalMessage k) with
          | Throw e => Throw e
          | Ok signature => setPersonalMessageSignature k signature
          end
      end
  end.

(** The manager between callbacks.  [refreshPromise] lists the callers awaiting
    the creation in flight, the one that started it first. *)
Record manager := {
  sessionKey : option SessionKey;
  refreshPromise : option (list nat);
  answered : list (nat * outcome error SessionKey);
  creations : nat;
}.

Definition new_manager : manager := {| sessionKey := None; refreshPromise := None; answered := []; creations := 0 |}.

(** [getSessionKey] by a caller at a time, or the end of the creation in flight.
    The starter's [await] was registered first, so its continuation, which
    stores the key and clears the promise, runs before any other caller's. *)
Inductive event := Call (now : Z) (caller : nat) | Settle (result : outcome error SessionKey).

Definition getSessionKey (buffer now : Z) (caller : nat) (m : manager) : manager :=
  match sessionKey m with
  | Some k =>
      if needsRefresh buffer now (sessionKey m) then
        match refreshPromise m with
        | Some ws => {| sessionKey := sessionKey m; refreshPromise := Some (ws ++ [caller]); answered := answered m;
                        creations := creations m |}
        | None => {| sessionKey := sessionKey m; refreshPromise := Some [caller]; answered := answered m;
                     creations := S (creations m) |}
        end
      else {| sessionKey := sessionKey m; refreshPromise := refreshPromise m; answered := answered m ++ [(caller, Ok k)];
              creations := creations m |}
  | None =>
      match refreshPromise m with
      | Some ws => {| sessionKey := None; refreshPromise := Some (ws ++ [caller]); answered := answered m;
                      creations := creations m |}
      | None => {| sessionKey := None; refreshPromise := Some [caller]; answered := answered m; creations := S (creations m) |}
      end
  end.

Definition settle (result : outcome error SessionKey) (m : manager) : option manager :=
  match refreshPromise m with
  | None => None
  | Some ws =>
      Some {| sessionKey := match result with Ok k => Some k | Throw _ => sessionKey m end; refreshPromise := None;
              answered := answered m ++ ((λ c, (c, result)) <$> ws); creations := creations m |}
  end.

(** A step, as a relation. *)
Inductive sk_step (buffer : Z) : manager → event → manager → Prop :=
  | step_call now caller m : sk_step buffer m (Call now caller) (getSessionKey buffer now caller m)
  | step_settle result m m' : settle result m = Some m' → sk_step buffer m (Settle result) m'.

Inductive sk_run (buffer : Z) : list event → manager → Prop :=
  | run_nil : sk_run buffer [] new_manager
  | run_snoc tr m e m' : sk_run buffer tr m → sk_step buffer m e m' → sk_run buffer (tr ++ [e]) m'.

Definition callers (tr : list event) : list nat := omap (λ e, match e with Call _ c => Some c | _ => None end) tr.
Definition settled (tr : list event) : nat := length (omap (λ e, match e with Settle r => Some r | _ => None end) tr).
Definition no_settle (tr : list event) : Prop := settled tr = 0%nat.
Definition in_flight (m : manager) : nat := match refreshPromise m with Some _ => 1 | None => 0 end.
Definition waiting (m : manager) : list nat := default [] (refreshPromise m).

(** What a caller is told: the current key, which needs no refresh at the time
    of the call, or the result of the first creation to end after the call. *)
Definition justified (buffer : Z) (tr : list event) (a : nat * outcome error SessionKey) : Prop :=
  (∃ now k, Call now a.1 ∈ tr ∧ a.2 = Ok k ∧ needsRefresh buffer now (Some k) = false)
  ∨ ∃ now pre mid post, tr = pre ++ Call now a.1 :: mid ++ Settle a.2 :: post ∧ no_settle mid.

Definition pending_since (tr : list event) (c : nat) : Prop :=
  ∃ now pre mid, tr = pre ++ Call now c :: mid ∧ no_settle mid.

Record manager_inv (buffer : Z) (tr : list event) (m : manager) : Prop := {
  inv_creations : creations m = (settled tr + in_flight m)%nat;
  inv_callers : callers tr ≡ₚ (answered m).*1 ++ waiting m;
  inv_answers : Forall (justified buffer tr) (answered m);
  inv_waiting : Forall (pending_since tr) (waiting m);
}.

Lemma settled_snoc tr e : settled (tr ++ [e]) = (settled tr + match e with Settle _ => 1 | _ => 0 end)%nat.
Proof. unfold settled. rewrite omap_app, length_app. by destruct e. Qed.

Lemma callers_snoc tr e : callers (tr ++ [e]) = callers tr ++ match e with Call _ c => [c] | _ => [] end.
Proof. unfold callers. rewrite omap_app. by destruct e. Qed.

Lemma justified_snoc buffer tr e a : justified buffer tr a → justified buffer (tr ++ [e]) a.
Proof.
  intros [(now & k & Hin & E)|(now & pre & mid & post & -> & Hm)].
  - left. exists now, k. split; [apply elem_of_app; by left|done].
  - right. exists now, pre, mid, (post ++ [e]). split; [|done]. by rewrite <-!app_assoc, !app_comm_cons, <-!app_assoc.
Qed.

Lemma pending_snoc tr now c c' : pending_since tr c → pending_since (tr ++ [Call now c']) c.
Proof.
  intros (n & pre & mid & -> & Hm). exists n, pre, (mid ++ [Call now c']).
  split; [by rewrite <-app_assoc|]. unfold no_settle in *. rewrite settled_snoc. lia.
Qed.

Lemma pending_now tr now c : pending_since (tr ++ [Call now c]) c.
Proof. by exists now, tr, []. Qed.

Lemma call_inv buffer tr m now c : manager_inv buffer tr m →
  manager_inv buffer (tr ++ [Call now c]) (getSessionKey buffer now c m).
Proof.
  intros [I1 I2 I3 I4].
  assert (Forall (justified buffer (tr ++ [Call now c])) (answered m)) as J
    by (eapply Forall_impl; [exact I3|]; intros; by apply justified_snoc).
  assert (Forall (pending_since (tr ++ [Call now c])) (waiting m)) as W
    by (eapply Forall_impl; [exact I4|]; intros; by apply pending_snoc).
  assert (∀ sk, manager_inv buffer (tr ++ [Call now c])
    match refreshPromise m with
    | Some ws => {| sessionKey := sk; refreshPromise := Some (ws ++ [c]); answered := answered m; creations := creations m |}
    | None => {| sessionKey := sk; refreshPromise := Some [c]; answered := answered m; creations := S (creations m) |}
    end) as Hwait.
  { intros sk. unfold waiting, in_flight in *. destruct (refreshPromise m) as [ws|]; simpl in *; (split; simpl;
      [rewrite settled_snoc; unfold in_flight; simpl; lia|rewrite callers_snoc, I2; unfold waiting; simpl; by rewrite ?app_nil_r, ?app_assoc|done|]).
    - apply Forall_app. split; [done|]. constructor; [apply pending_now|constructor].
    - constructor; [apply pending_now|constructor]. }
  unfold getSessionKey. destruct (sessionKey m) as [k|] eqn:Ek; [|apply Hwait].
  destruct (needsRefresh buffer now (Some k)) eqn:En; [apply Hwait|].
  split; simpl.
  - rewrite settled_snoc, I1. unfold in_flight. simpl. lia.
  - rewrite callers_snoc, I2, fmap_app. simpl. unfold waiting. simpl. rewrite <-!app_assoc. f_equiv. apply Permutation_app_comm.
  - apply Forall_app. split; [done|]. constructor; [|constructor]. left. exists now, k.
    split; [apply elem_of_app; right; left|done].
  - done.
Qed.

Lemma settle_inv buffer tr m r m' : manager_inv buffer tr m → settle r m = Some m' →
  manager_inv buffer (tr ++ [Settle r]) m'.
Proof.
  intros [I1 I2 I3 I4]. unfold settle, waiting, in_flight in *. destruct (refreshPromise m) as [ws|]; [|done]. intros [= <-].
  simpl in *. split; simpl.
  - rewrite settled_snoc, I1. unfold in_flight. simpl. lia.
  - rewrite callers_snoc, I2, !app_nil_r, fmap_app, <-list_fmap_compose. f_equiv. by rewrite list_fmap_id.
  - apply Forall_app. split; [eapply Forall_impl; [exact I3|]; intros; by apply justified_snoc|].
    apply Forall_fmap. eapply Forall_impl; [exact I4|]. intros c (now & pre & mid & -> & Hm). right.
    exists now, pre, mid, []. split; [by rewrite <-app_assoc|done].
  - constructor.
Qed.

Lemma run_inv buffer tr m : sk_run buffer tr m → manager_inv buffer tr m.
Proof.
  induction 1 as [|tr m e m' _ IH Hstep]; [by split; try constructor|].
  destruct Hstep as [now c m|r m m' Hs]; [by apply call_inv|by eapply settle_inv].
Qed.

(** C19.  Concurrent callers share one creation.  In every interleaving of
    calls and creation ends: at most one creation is in flight, and one was
    started for each that ended plus the one in flight; every caller is waiting or was answered, exactly once;
    an answered caller got the current key, not due for refresh when it called, or the result of the
    first creation to end after its call, failures included; and a waiting
    caller waits for a creation that has not ended. *)
Theorem session_key_single_flight buffer tr m : sk_run buffer tr m →
  creations m = (settled tr + in_flight m)%nat
  ∧ callers tr ≡ₚ (answered m).*1 ++ waiting m
  ∧ Forall (justified buffer tr) (answered m)
  ∧ Forall (pending_since tr) (waiting m).
Proof. intros Hr. by destruct (run_inv _ _ _ Hr). Qed.
End manager.

(** * Witnesses *)

Lemma ttl_map_spec_witness :
  peek 14 (js "a") (foldl (ttl_step 10) [] [(0, TSet (js "a") 1); (5, TSet (js "a") 2); (12, TGet (js "a"))]) = Some 2
  ∧ live 10 15 (js "a") [(0, TSet (js "a") 1); (5, TSet (js "a") 2); (12, TGet (js "a"))] = None.
Proof.
  split; [|vm_compute; reflexivity]. rewrite ttl_map_spec.
  - vm_compute. reflexivity.
  - repeat constructor; discriminate.
  - intros e He. rewrite !elem_of_cons in He. destruct He as [->|[->|[->|He]]]; [discriminate..|]. by apply elem_of_nil in He.
Defined.

#[local] Instance toy_keys : SessionKeyLib := {|
  SessionKey := Z; isExpired k now := false; creationTimeMs k := k; key_ttlMin k := 10; error := unit;
  SessionKey_create _ _ _ _ _ := Throw tt; getCertificate k := Ok k; getPersonalMessage k := [];
  setPersonalMessageSignature k _ := Ok k |}.

Definition toy_key : @SessionKey toy_keys := 7.

(** Two callers, one creation. *)
Lemma session_key_single_flight_witness : ∃ m : manager,
  sk_run 60000 [Call 0 1%nat; Call 5 2%nat; Settle (Ok toy_key)] m
  ∧ answered m = [(1%nat, Ok toy_key); (2%nat, Ok toy_key)] ∧ creations m = 1%nat.
Proof.
  set (m := Build_manager (Some toy_key) None [(1%nat, Ok toy_key); (2%nat, Ok toy_key)] 1%nat).
  assert (sk_run 60000 [Call 0 1%nat; Call 5 2%nat; Settle (Ok toy_key)] m) as Hr.
  { apply (run_snoc _ [Call 0 1%nat; Call 5 2%nat] (Build_manager None (Some [1%nat; 2%nat]) [] 1%nat)).
    - apply (run_snoc _ [Call 0 1%nat] (Build_manager None (Some [1%nat]) [] 1%nat)).
      + apply (run_snoc _ [] new_manager); [constructor|]. apply (step_call 60000 0 1%nat new_manager).
      + apply (step_call 60000 5 2%nat (Build_manager None (Some [1%nat]) [] 1%nat)).
    - by apply step_settle. }
  exists m. split; [exact Hr|]. split; [reflexivity|].
  exact (proj1 (session_key_single_flight _ _ _ Hr)).
Defined.
