(* ===== verification/Encryption.v ===== *)
(** Envelope encryption ([encryption/dek-manager.ts],
    [encryption/envelope-encryption.ts]) and the group references of
    [derive.ts]: data keys generated, cached, fetched and unwrapped, and the
    encryption of a group's data under them.

    Parameters: the MyData client, the transaction builder, AES-GCM and the
    object-id derivation ([EncryptionLib]), the SDK's [ClientCache]
    ([DekCache]), and what [view.ts] reads from the chain ([view]).  A session
    key manager's answer ([SessionKeys.v]) is an argument of each call, as are
    the random keys and nonces. *)
From S2P Require Import Prelude JsString Utf8 Anchors Aad.

Class EncryptionLib := {
  error : Type;
  NoAccessError : error → bool;
  Session : Type;
  getAddress : Session → jsstr;
  getPackageId : Session → jsstr;
  (* [EncryptedObject.parse(b).id] *)
  object_id : bytes → outcome error jsstr;
  fromHex : jsstr → bytes;
  toHex : bytes → jsstr;
  (* threshold, package, id, data *)
  mydata_encrypt : Z → jsstr → jsstr → bytes → outcome error bytes;
  (* ciphertext, session, approve transaction *)
  mydata_decrypt : bytes → Session → bytes → outcome error bytes;
  Thunk : Type;
  moveCall : MoveCall → Thunk;
  mydataApproveReader : jsstr → bytes → jsstr → jsstr → jsstr → Thunk;
  (* [tx.setSender; tx.add; tx.build] *)
  build_tx : jsstr → Thunk → outcome error bytes;
  (* key, data, nonce, AAD *)
  aesGcmEncrypt : bytes → bytes → bytes → option bytes → outcome error bytes;
  aesGcmDecrypt : bytes → bytes → bytes → option bytes → outcome error bytes;
  deriveObjectID : jsstr → jsstr → bytes → jsstr;
  bcs_string : jsstr → bytes;
}.

Inductive enc_error `{EncryptionLib} :=
  | LibError (e : error)
  | EncryptionAccessDeniedError (cause : error)
  | InvalidIdentity
  | UndefinedIds
  | PolicyError
  | SessionIdentityError.

(** What the view reads from the chain: the latest key version of a history,
    and the wrapped key of a version. *)
Record view `{EncryptionLib} := {
  getCurrentKeyVersion : jsstr → outcome error Z;
  encryptedKey : jsstr → Z → outcome error bytes;
}.

(** [ClientCache]: [read] and [readSync] give the entry of a path, or else the
    loader's value, which they store; [clear] drops a prefix. *)
Class DekCache `{EncryptionLib} := {
  cache : Type;
  holds : list jsstr → cache → option bytes;
  cache_read : list jsstr → outcome enc_error bytes → cache → outcome enc_error bytes * cache;
  cache_clear : option (list jsstr) → cache → cache;
}.

(** What is relied on.  Entries may expire at any time, so no law says that one
    outlives a later operation. *)
Class DekCacheLaws `{DekCache} : Prop := {
  read_hit k l c v : holds k c = Some v → (cache_read k l c).1 = Ok v;
  read_hit_keeps k l c v : holds k c = Some v → holds k (cache_read k l c).2 = Some v;
  read_miss k l c : holds k c = None → (cache_read k l c).1 = l;
  read_stores k c v : holds k c = None → holds k (cache_read k (Ok v) c).2 = Some v;
  read_entries k k' l c v : holds k' (cache_read k l c).2 = Some v → holds k' c = Some v ∨ (k' = k ∧ l = Ok v);
  clear_entries p k c v : holds k (cache_clear p c) = Some v → holds k c = Some v;
}.

(** * Group references *)

Inductive GroupRef := UuidRef (uuid : jsstr) | IdsRef (groupId encryptionHistoryId : jsstr).
Record PackageConfig := { cfg_originalPackageId : jsstr; cfg_namespaceId : jsstr }.

Section derive.
Context `{EncryptionLib} (packageConfig : PackageConfig).

Definition derived_id (tag uuid : jsstr) : jsstr :=
  deriveObjectID (cfg_namespaceId packageConfig) (cfg_originalPackageId packageConfig ++ tag) (bcs_string uuid).

Definition groupId (uuid : jsstr) : jsstr := derived_id (js "::encryption_history::PermissionedGroupTag") uuid.
Definition encryptionHistoryId (uuid : jsstr) : jsstr := derived_id (js "::encryption_history::EncryptionHistoryTag") uuid.
Definition messageLogId (uuid : jsstr) : jsstr := derived_id (js "::message_log::MessageLogTag") uuid.

(** Group, history and message log; with an empty uuid both ids are
    [undefined], here [None]. *)
Definition resolveGroupRef (ref : GroupRef) : option (jsstr * jsstr * option jsstr) :=
  match ref with
  | UuidRef uuid => if is_nil uuid then None else Some (groupId uuid, encryptionHistoryId uuid, Some (messageLogId uuid))
  | IdsRef g h => Some (g, h, None)
  end.
End derive.

(** * Policies *)

Record MyDataPolicy `{EncryptionLib} (Ctx : Type) := {
  packageId : jsstr;
  (* [false] throws *)
  assertSessionIdentity : option (jsstr → jsstr → bool);
  mydataApproveThunk : bytes → jsstr → jsstr → option Ctx → outcome enc_error Thunk;
}.
Arguments packageId {_ _} _.
Arguments assertSessionIdentity {_ _} _.
Arguments mydataApproveThunk {_ _} _.

Section policies.
Context `{EncryptionLib} `{MySoBcs}.

Definition DefaultMyDataPolicy (originalPackageId latestPackageId versionId : jsstr) : MyDataPolicy unit := {|
  packageId := originalPackageId;
  assertSessionIdentity := None;
  mydataApproveThunk identityBytes g h _ := Ok (mydataApproveReader latestPackageId identityBytes versionId g h) |}.

(** The policy of a constructed [AgentMyDataReaderPolicy]. *)
Definition agent_policy (o : AgentReaderPolicyOptions) : MyDataPolicy unit := {|
  packageId := originalPackageId o;
  assertSessionIdentity := Some (agent_assertSessionIdentity o);
  mydataApproveThunk identityBytes g h _ :=
    match agent_mydataApproveThunk o identityBytes g h with Some c => Ok (moveCall c) | None => Throw PolicyError end |}.

Definition oversight_policy (o : PrincipalOversightPolicyOptions) : MyDataPolicy unit := {|
  packageId := po_originalPackageId o;
  assertSessionIdentity := None;
  mydataApproveThunk identityBytes g h _ := Ok (moveCall (oversight_mydataApproveThunk o identityBytes g h)) |}.
End policies.

(** * Data keys *)


Record GeneratedDEK := { dek : bytes; encryptedDek : bytes; identityBytes : bytes }.
Record EncryptedEnvelope := { ciphertext : bytes; nonce : bytes; keyVersion : Z; aad : option bytes }.

Section encryption.
Context `{EncryptionLib} `{MySoBcs} `{!DekCache} {Ctx : Type}.
Context (packageConfig : PackageConfig) (defaultThreshold : Z) (policy : MyDataPolicy Ctx).

Definition lib {S A} (o : outcome error A) : eff S enc_error A :=
  λ s, (match o with Ok a => Ok a | Throw e => Throw (LibError e) end, s).

Definition lift {S A} (o : outcome enc_error A) : eff S enc_error A := λ s, (o, s).

(** [DEKManager.generateDEK]; [key] is the generated AES key. *)
Definition dekManager_generateDEK {S} (g : jsstr) (v : option Z) (threshold : option Z) (key : bytes) : eff S enc_error GeneratedDEK :=
  ident ← lift (match encodeIdentity g (default 0 v) with Some b => Ok b | None => Throw InvalidIdentity end);
  encryptedObject ← lib (mydata_encrypt (default defaultThreshold threshold) (packageId policy) (toHex ident) key);
  mret {| dek := key; encryptedDek := encryptedObject; identityBytes := ident |}.

Definition buildMyDataApproveBytes {S} (wrapped : bytes) (g h : jsstr) (ctx : option Ctx) (sender : jsstr) : eff S enc_error bytes :=
  id ← lib (object_id wrapped);
  thunk ← lift (mydataApproveThunk policy (fromHex id) g h ctx);
  lib (build_tx sender thunk).

(** The loader of a key not cached. *)
Definition load_dek (w : view) (g h : jsstr) (v : Z) (s : Session) (ctx : option Ctx) : outcome enc_error bytes :=
  fst ((wrapped ← lib (encryptedKey w h v);
        txBytes ← buildMyDataApproveBytes wrapped g h ctx (getAddress s);
        lib (mydata_decrypt wrapped s txBytes)) tt).

Definition dek_path (g : jsstr) (v : Z) : list jsstr := [g; dec_Z v].

Definition resolveDEK (w : view) (g h : jsstr) (v : Z) (s : Session) (ctx : option Ctx) : eff cache enc_error bytes :=
  try_catch
    (_ ← match assertSessionIdentity policy with
         | Some check => if check (getAddress s) (getPackageId s) then mret tt else throw SessionIdentityError
         | None => mret tt
         end;
     cache_read (dek_path g v) (load_dek w g h v s ctx))
    (λ e, match e with
          | LibError x => if NoAccessError x then throw (EncryptionAccessDeniedError x) else throw e
          | _ => throw e
          end).

Definition putDEK (g : jsstr) (v : Z) (d : bytes) : eff cache enc_error unit :=
  _ ← cache_read (dek_path g v) (Ok d); mret tt.

Definition generateDEK (g : jsstr) (v : option Z) (threshold : option Z) (key : bytes) : eff cache enc_error GeneratedDEK :=
  result ← dekManager_generateDEK g v threshold key;
  _ ← putDEK g (default 0 v) (dek result);
  mret result.

Definition generateGroupDEK (providedUuid : option jsstr) (generatedUuid : jsstr) (key : bytes) : eff cache enc_error (jsstr * bytes) :=
  let uuid := default generatedUuid providedUuid in
  result ← generateDEK (groupId packageConfig uuid) None None key;
  mret (uuid, encryptedDek result).

Definition resolve (ref : GroupRef) : eff cache enc_error (jsstr * jsstr) :=
  lift (match resolveGroupRef packageConfig ref with Some (g, h, _) => Ok (g, h) | None => Throw UndefinedIds end).

Definition generateRotationDEK (w : view) (ref : GroupRef) (key : bytes) : eff cache enc_error (GeneratedDEK * jsstr * jsstr) :=
  ids ← resolve ref;
  currentVersion ← lib (getCurrentKeyVersion w ids.2);
  result ← generateDEK ids.1 (Some (currentVersion + 1)) None key;
  mret (result, ids.1, ids.2).

Definition encrypt (w : view) (session : outcome error Session) (ref : GroupRef) (data : bytes) (version : option Z)
    (ctx : option Ctx) (a : option bytes) (n : bytes) : eff cache enc_error EncryptedEnvelope :=
  ids ← resolve ref;
  sessionKey ← lib session;
  v ← match version with Some v => mret v | None => lib (getCurrentKeyVersion w ids.2) end;
  d ← resolveDEK w ids.1 ids.2 v sessionKey ctx;
  ct ← lib (aesGcmEncrypt d data n a);
  mret {| ciphertext := ct; nonce := n; keyVersion := v; aad := a |}.

Definition decrypt (w : view) (session : outcome error Session) (ref : GroupRef) (envelope : EncryptedEnvelope)
    (ctx : option Ctx) : eff cache enc_error bytes :=
  ids ← resolve ref;
  sessionKey ← lib session;
  d ← resolveDEK w ids.1 ids.2 (keyVersion envelope) sessionKey ctx;
  lib (aesGcmDecrypt d (ciphertext envelope) (nonce envelope) (aad envelope)).

Definition clearCache (g : option jsstr) (c : cache) : cache :=
  cache_clear (match g with Some x => if is_nil x then None else Some [x] | None => None end) c.
End encryption.

(** * Properties *)

(** What MyData promises: a wrapped key holds one key, and unwrapping gives it;
    AES-GCM decryption inverts encryption under the same key, nonce and AAD. *)
Class EncryptionLaws `{EncryptionLib} := {
  mydata_plain : bytes → option bytes;
  mydata_decrypt_plain e s tx d : mydata_decrypt e s tx = Ok d → mydata_plain e = Some d;
  aes_inverse k m n a c : aesGcmEncrypt k m n a = Ok c → aesGcmDecrypt k c n a = Ok m;
}.

Section properties.
Context `{EncryptionLaws} `{MySoBcs} `{!DekCache} `{!DekCacheLaws} {Ctx : Type}.
Context (packageConfig : PackageConfig) (defaultThreshold : Z) (w : view) (history : jsstr → jsstr).

(** The key on chain for a version of a group. *)
Definition published (g : jsstr) (v : Z) (d : bytes) : Prop :=
  ∃ e, encryptedKey w (history g) v = Ok e ∧ mydata_plain e = Some d.

(** Every cached key is the published one. *)
Definition coherent (c : cache) : Prop := ∀ g v d, holds (dek_path g v) c = Some d → published g v d.

Lemma published_unique g v d d' : published g v d → published g v d' → d = d'.
Proof. intros (e & E & P) (e' & E' & P'). congruence. Qed.

Lemma dek_path_inj g v g' v' : dek_path g v = dek_path g' v' → g = g' ∧ v = v'.
Proof. unfold dek_path. intros [= -> Hv]. split; [done|]. by apply dec_Z_inj. Qed.

(** A view of the chain: whatever it reads of the groups' keys is what [w] holds. *)
Definition sees (w' : view) : Prop := ∀ g v e, encryptedKey w' (history g) v = Ok e → encryptedKey w (history g) v = Ok e.

Lemma sees_self : sees w.
Proof. by intros g v e. Qed.

Lemma load_published w' (p : MyDataPolicy Ctx) g v s ctx d : sees w' → load_dek p w' g (history g) v s ctx = Ok d → published g v d.
Proof.
  intros Hw. unfold load_dek, lib, mbind, eff_bind. destruct (encryptedKey w' (history g) v) as [e|] eqn:Ee; [|done]. simpl.
  destruct (buildMyDataApproveBytes _ _ _ _ _ _ _) as [[tx|] []]; [|done]. simpl.
  destruct (mydata_decrypt e s tx) eqn:Ed; [|done]. intros ->%ok_inj. exists e. split; [by apply Hw|]. by eapply mydata_decrypt_plain.
Qed.

Lemma read_sound g v l c : coherent c → (∀ d, l = Ok d → published g v d) →
  coherent (cache_read (dek_path g v) l c).2 ∧ ∀ d, (cache_read (dek_path g v) l c).1 = Ok d → published g v d.
Proof.
  intros Hc Hl. split.
  - intros g' v' d [Hh|[[-> ->]%dek_path_inj E]]%read_entries; [by apply Hc|by apply Hl].
  - intros d Hd. destruct (holds (dek_path g v) c) as [d'|] eqn:Eh.
    + rewrite (read_hit _ _ _ _ Eh) in Hd. injection Hd as ->. by apply Hc.
    + rewrite read_miss in Hd by done. by apply Hl.
Qed.

(** Resolving: the session's identity, then the cache. *)
Lemma resolveDEK_cases w' (p : MyDataPolicy Ctx) g h v s ctx c r c' : resolveDEK p w' g h v s ctx c = (r, c') →
  (∃ check, assertSessionIdentity p = Some check ∧ check (getAddress s) (getPackageId s) = false
            ∧ r = Throw SessionIdentityError ∧ c' = c)
  ∨ c' = (cache_read (dek_path g v) (load_dek p w' g h v s ctx) c).2
    ∧ ∀ d, r = Ok d → (cache_read (dek_path g v) (load_dek p w' g h v s ctx) c).1 = Ok d.
Proof.
  unfold resolveDEK, try_catch, mbind, eff_bind. destruct (assertSessionIdentity p) as [check|] eqn:Ep.
  - destruct (check _ _) eqn:Ec; simpl.
    + destruct (cache_read _ _ c) as [[d|e] c2] eqn:Er; [intros [= <- <-]; by right|].
      destruct e as [x| | | | |]; [destruct (NoAccessError x)|..]; intros [= <- <-]; by right.
    + intros [= <- <-]. left. eauto.
  - simpl. destruct (cache_read _ _ c) as [[d|e] c2] eqn:Er; [intros [= <- <-]; by right|].
    destruct e as [x| | | | |]; [destruct (NoAccessError x)|..]; intros [= <- <-]; by right.
Qed.

Lemma resolveDEK_sound w' (p : MyDataPolicy Ctx) g v s ctx c r c' : sees w' → coherent c →
  resolveDEK p w' g (history g) v s ctx c = (r, c') → coherent c' ∧ ∀ d, r = Ok d → published g v d.
Proof.
  intros Hw Hc [(check & _ & _ & -> & ->)|[-> Hr]]%resolveDEK_cases; [done|].
  destruct (read_sound g v (load_dek p w' g (history g) v s ctx) c Hc) as [Hc' Hd]; [intros d; by apply load_published|].
  split; [done|]. intros d Hd'. by apply Hd, Hr.
Qed.

Lemma lib_ok {S A} (o : outcome error A) (s s' : S) a : lib o s = (Ok a, s') → o = Ok a ∧ s' = s.
Proof. unfold lib. destruct o; [intros [= <- <-]|]; done. Qed.

Lemma resolve_ok ref c ids c' : resolve packageConfig ref c = (Ok ids, c') →
  (∃ g h m, resolveGroupRef packageConfig ref = Some (g, h, m) ∧ ids = (g, h)) ∧ c' = c.
Proof.
  unfold resolve, lift. destruct (resolveGroupRef packageConfig ref) as [[[g h] m]|]; [|done].
  intros [= <- <-]. eauto 10.
Qed.

Lemma encrypt_parts w' (p : MyDataPolicy Ctx) session ref data ver ctx a n c env c' :
  encrypt packageConfig p w' session ref data ver ctx a n c = (Ok env, c') → ∃ g h m s d,
    resolveGroupRef packageConfig ref = Some (g, h, m) ∧ session = Ok s
    ∧ resolveDEK p w' g h (keyVersion env) s ctx c = (Ok d, c')
    ∧ aesGcmEncrypt d data n a = Ok (ciphertext env) ∧ nonce env = n ∧ aad env = a
    ∧ (∀ v, ver = Some v → keyVersion env = v) ∧ (ver = None → getCurrentKeyVersion w' h = Ok (keyVersion env)).
Proof.
  unfold encrypt. intros (ids & c1 & Hids & Hs)%bind_ok_inv. apply resolve_ok in Hids as [(g & h & m & Hg & ->) ->].
  apply bind_ok_inv in Hs as (s & c1 & [Hses ->]%lib_ok & Hv).
  apply bind_ok_inv in Hv as (v & c1 & Hv & Hd). assert (c1 = c) as ->.
  { destruct ver; [by injection Hv|]. by apply lib_ok in Hv as [_ ->]. }
  apply bind_ok_inv in Hd as (d & c1 & Hd & He). apply bind_ok_inv in He as (ct & c2 & [He ->]%lib_ok & Hr).
  injection Hr as <- <-. exists g, h, m, s, d. simpl. split_and!; try done.
  - intros v' ->. by injection Hv.
  - intros ->. by apply lib_ok in Hv as [? _].
Qed.

Lemma decrypt_run w' (p : MyDataPolicy Ctx) s ref env ctx c g h m : resolveGroupRef packageConfig ref = Some (g, h, m) →
  decrypt packageConfig p w' (Ok s) ref env ctx c =
  (d ← resolveDEK p w' g h (keyVersion env) s ctx; lib (aesGcmDecrypt d (ciphertext env) (nonce env) (aad env))) c.
Proof. intros Hr. unfold decrypt, resolve. by rewrite Hr. Qed.

Lemma decrypt_coherent w' (p : MyDataPolicy Ctx) session ref env ctx c g m : sees w' → coherent c →
  resolveGroupRef packageConfig ref = Some (g, history g, m) → coherent (decrypt packageConfig p w' session ref env ctx c).2.
Proof.
  intros Hw Hc Hr. destruct session as [s|e]; [|unfold decrypt, resolve; by rewrite Hr].
  rewrite (decrypt_run _ _ _ _ _ _ _ _ _ _ Hr). unfold mbind, eff_bind.
  destruct (resolveDEK _ _ _ _ _ _ _ c) as [[d|e] c1] eqn:Ed; simpl; by apply (resolveDEK_sound _ _ _ _ _ _ _ _ _ Hw Hc Ed).
Qed.

Lemma encrypt_coherent w' (p : MyDataPolicy Ctx) session ref data ver ctx a n c g m : sees w' → coherent c →
  resolveGroupRef packageConfig ref = Some (g, history g, m) → coherent (encrypt packageConfig p w' session ref data ver ctx a n c).2.
Proof.
  intros Hw Hc Hr. unfold encrypt, resolve. rewrite Hr. destruct session as [s|e]; [|done].
  unfold mbind at 1, eff_bind at 1, lift. unfold mbind at 1, eff_bind at 1, lib at 1. cbn [fst snd].
  assert (∀ v, coherent ((d ← resolveDEK p w' g (history g) v s ctx; ct ← lib (aesGcmEncrypt d data n a);
    mret {| ciphertext := ct; nonce := n; keyVersion := v; aad := a |}) c).2) as Hv.
  { intros v. unfold mbind, eff_bind. destruct (resolveDEK p w' g (history g) v s ctx c) as [[d|e] c1] eqn:Ed;
      apply resolveDEK_sound in Ed as [Hc1 _]; try done. unfold lib. by destruct (aesGcmEncrypt d data n a). }
  destruct ver as [v|]; [apply Hv|]. unfold mbind at 1, eff_bind at 1, lib at 1. destruct (getCurrentKeyVersion w' (history g)) as [v|e]; [apply Hv|done].
Qed.

(** What was encrypted: the data under the published key of the envelope's version. *)
Definition sealed_for (g : jsstr) (data : bytes) (env : EncryptedEnvelope) : Prop :=
  ∃ d, published g (keyVersion env) d ∧ aesGcmEncrypt d data (nonce env) (aad env) = Ok (ciphertext env).

Lemma encrypt_sealed w' (p : MyDataPolicy Ctx) session ref data ver ctx a n c env c' g m : sees w' → coherent c →
  resolveGroupRef packageConfig ref = Some (g, history g, m) →
  encrypt packageConfig p w' session ref data ver ctx a n c = (Ok env, c') →
  coherent c' ∧ sealed_for g data env ∧ nonce env = n ∧ aad env = a ∧ ∀ v, ver = Some v → keyVersion env = v.
Proof.
  intros Hw Hc Hr (g0 & h & m0 & s & d & Hr0 & -> & Hd & He & Hn & Ha & Hv & _)%encrypt_parts.
  rewrite Hr in Hr0. injection Hr0 as <- <- <-. apply resolveDEK_sound in Hd as [Hc' Hp]; [|done..].
  split_and!; try done. exists d. rewrite Hn, Ha. split; [by apply Hp|done].
Qed.

Lemma decrypt_sealed w' (p : MyDataPolicy Ctx) s ref data ctx k env g m : sees w' → coherent k →
  resolveGroupRef packageConfig ref = Some (g, history g, m) → sealed_for g data env →
  (∃ d, (resolveDEK p w' g (history g) (keyVersion env) s ctx k).1 = Ok d) →
  (decrypt packageConfig p w' (Ok s) ref env ctx k).1 = Ok data.
Proof.
  intros Hw Hk Hr (d & Hp & He) [d' Hd']. rewrite (decrypt_run _ _ _ _ _ _ _ _ _ _ Hr). unfold mbind, eff_bind.
  destruct (resolveDEK p w' g (history g) _ s ctx k) as [r k'] eqn:Ek. simpl in Hd'. subst r. simpl.
  apply resolveDEK_sound in Ek as [_ Hp']; [|done..]. rewrite <-(published_unique _ _ _ _ Hp (Hp' d' eq_refl)). by rewrite (aes_inverse _ _ _ _ _ He).
Qed.

(** C18.  Envelope encryption round trips between members.  From caches
    whose keys are the published ones, whatever one member encrypts for a
    group, another decrypts to the same bytes, with whatever policy, session,
    approve context and form of group reference, provided only that the reader
    can resolve the key of the envelope's version; and both caches still hold
    published keys only. *)
Theorem envelope_roundtrip (p p' : MyDataPolicy Ctx) session ref data ver ctx a n c env c' s' ref' ctx' k g m m' :
  coherent c → coherent k →
  resolveGroupRef packageConfig ref = Some (g, history g, m) → resolveGroupRef packageConfig ref' = Some (g, history g, m') →
  encrypt packageConfig p w session ref data ver ctx a n c = (Ok env, c') →
  (∃ d, (resolveDEK p' w g (history g) (keyVersion env) s' ctx' k).1 = Ok d) →
  (decrypt packageConfig p' w (Ok s') ref' env ctx' k).1 = Ok data
  ∧ coherent c' ∧ coherent (decrypt packageConfig p' w (Ok s') ref' env ctx' k).2.
Proof.
  intros Hc Hk Hr Hr' He Hd. destruct (encrypt_sealed _ _ _ _ _ _ _ _ _ _ _ _ _ _ sees_self Hc Hr He) as (Hc' & Hs & _).
  split; [|split; [done|by eapply decrypt_coherent; [apply sees_self|..]]]. by eapply decrypt_sealed; [apply sees_self|..].
Qed.

(** A cached key never bypasses the agent binding: with the agent
    policy, a session of another address or another package is refused by
    every decryption, and by every encryption with a given key version, whatever the cache holds, and the cache is left alone. *)
Lemma agent_session_bound o s ref g h m data v ctx a n env c :
  policyAddress (getAddress s) ≠ Some (agentDerivedAddress o) ∨ policyAddress (getPackageId s) ≠ Some (originalPackageId o) →
  resolveGroupRef packageConfig ref = Some (g, h, m) →
  decrypt packageConfig (agent_policy o) w (Ok s) ref env ctx c = (Throw SessionIdentityError, c)
  ∧ encrypt packageConfig (agent_policy o) w (Ok s) ref data (Some v) ctx a n c = (Throw SessionIdentityError, c).
Proof.
  intros Hs Hr.
  assert (∀ v', resolveDEK (agent_policy o) w g h v' s ctx c = (Throw SessionIdentityError, c)) as Hd.
  { intros v'. unfold resolveDEK. simpl. assert (agent_assertSessionIdentity o (getAddress s) (getPackageId s) = false) as ->; [|done].
    unfold agent_assertSessionIdentity. destruct (policyAddress (getAddress s)) as [x|], (policyAddress (getPackageId s)) as [y|]; try done.
    destruct Hs as [Hs|Hs]; [rewrite (bool_decide_eq_false_2 (x = _)) by congruence; done|].
    rewrite (bool_decide_eq_false_2 (y = _)) by congruence. apply andb_false_r. }
  split; unfold decrypt, encrypt, resolve; rewrite Hr; unfold mbind, eff_bind; simpl;
    by rewrite Hd.
Qed.

(** A rotation is believed before it lands: once the key of a
    rotation is generated, this client resolves the group's next version to
    that key (or to one it had already cached for that version) without asking
    the chain, whichever key, if any, is published for that version. *)
Lemma rotation_key_local (p : MyDataPolicy Ctx) ref key c r g h c' :
  generateRotationDEK packageConfig defaultThreshold p w ref key c = (Ok (r, g, h), c') →
  ∃ current, getCurrentKeyVersion w h = Ok current ∧ dek r = key
  ∧ ∀ w' s ctx, (∀ check, assertSessionIdentity p = Some check → check (getAddress s) (getPackageId s) = true) →
      (resolveDEK p w' g h (current + 1) s ctx c').1 = Ok (default key (holds (dek_path g (current + 1)) c)).
Proof.
  intros (ids & c1 & Hids & Hv)%bind_ok_inv. apply resolve_ok in Hids as [(g0 & h0 & m & Hg & ->) ->].
  apply bind_ok_inv in Hv as (current & c1 & [Hv ->]%lib_ok & Hgen). apply bind_ok_inv in Hgen as (r0 & c2 & Hgen & Hr).
  injection Hr as <- <- <- <-. simpl in *. exists current. split; [done|].
  unfold generateDEK in Hgen. apply bind_ok_inv in Hgen as (r1 & c1 & Hm & Hput).
  assert (dek r1 = key ∧ c1 = c) as [Hk ->].
  { unfold dekManager_generateDEK in Hm. apply bind_ok_inv in Hm as (ident & c3 & Hi & He).
    apply bind_ok_inv in He as (eo & c4 & [_ ->]%lib_ok & He). injection He as <- <-. split; [done|]. by injection Hi. }
  apply bind_ok_inv in Hput as (u & c3 & Hput & Hret). injection Hret as <- <-. split; [done|].
  simpl in Hput. rewrite Hk in Hput.
  assert (holds (dek_path g0 (current + 1)) c3 = Some (default key (holds (dek_path g0 (current + 1)) c))) as Hh.
  { unfold putDEK in Hput. apply bind_ok_inv in Hput as (d & c4 & Hput & Hret). injection Hret as _ <-.
    replace c4 with (cache_read (dek_path g0 (current + 1)) (Ok key) c).2 by (by rewrite Hput).
    destruct (holds _ c) as [d0|] eqn:E; simpl; [by apply read_hit_keeps|by apply read_stores]. }
  intros w' s ctx Hcheck. unfold resolveDEK, try_catch, mbind, eff_bind.
  assert (∀ l, (cache_read (dek_path g0 (current + 1)) l c3).1 = Ok (default key (holds (dek_path g0 (current + 1)) c))) as Hread
    by (intros l; by apply read_hit).
  specialize (Hread (load_dek p w' g0 h0 (current + 1) s ctx)). destruct (assertSessionIdentity p) as [check|].
  - rewrite Hcheck by done. simpl. by destruct (cache_read _ _ c3) as [[d|e] ?]; simpl in *; [|discriminate].
  - simpl. by destruct (cache_read _ _ c3) as [[d|e] ?]; simpl in *; [|discriminate].
Qed.
End properties.

(** * Witnesses *)

#[local] Existing Instance plain_bcs.

(** A cipher with a tag, keys wrapped as they are, and ids that are the
    namespace, the tag and the key. *)
#[local] Instance plain_lib : EncryptionLib := {|
  error := unit; NoAccessError _ := true; Session := jsstr * jsstr; getAddress := fst; getPackageId := snd;
  object_id b := Ok (hexOf b); fromHex := hex_bytes; toHex := hexOf;
  mydata_encrypt _ _ _ d := Ok d; mydata_decrypt e _ _ := Ok e;
  Thunk := unit; moveCall _ := tt; mydataApproveReader _ _ _ _ _ := tt; build_tx _ _ := Ok [];
  aesGcmEncrypt k m n a := Ok ((k ++ n ++ default [] a) ++ m);
  aesGcmDecrypt k c n a :=
    let tag := k ++ n ++ default [] a in
    if bool_decide (take (length tag) c = tag) then Ok (drop (length tag) c) else Throw tt;
  deriveObjectID ns tag key := ns ++ tag ++ key; bcs_string u := u |}.

#[local] Instance plain_laws : EncryptionLaws.
Proof.
  refine {| mydata_plain := Some |}.
  - intros e s tx d. simpl. by intros [= ->].
  - intros k m n a c. simpl. intros [= <-]. rewrite take_app_length, bool_decide_eq_true_2, drop_app_length; done.
Defined.

(** A cache that never evicts. *)
Fixpoint assoc (k : list jsstr) (c : list (list jsstr * bytes)) : option bytes :=
  match c with [] => None | (k', v) :: c => if bool_decide (k' = k) then Some v else assoc k c end.

#[local] Instance plain_cache : DekCache := {|
  cache := list (list jsstr * bytes); holds := assoc;
  cache_read k l c :=
    match assoc k c, l with Some v, _ => (Ok v, c) | None, Ok v => (Ok v, (k, v) :: c) | None, Throw e => (Throw e, c) end;
  cache_clear p c := match p with None => [] | Some p => filter (λ e, take (length p) e.1 ≠ p) c end |}.

Lemma assoc_filter (P : list jsstr * bytes → Prop) `{∀ e, Decision (P e)} k c v :
  (∀ x y, P (k, x) → P (k, y)) → assoc k (filter P c) = Some v → assoc k c = Some v.
Proof.
  intros HP. induction c as [|[k' x] c IH]; [done|]. rewrite filter_cons. destruct (decide (P (k', x))) as [Hx|Hx]; simpl.
  - destruct (bool_decide (k' = k)); [done|apply IH].
  - destruct (bool_decide (k' = k)) eqn:E; [|apply IH]. apply bool_decide_eq_true in E as ->. intros Hc. exfalso.
    clear IH. induction c as [|[k' y] c IH]; [done|]. rewrite filter_cons in Hc.
    destruct (decide (P (k', y))) as [Hy|Hy]; [|by apply IH]. simpl in Hc.
    destruct (bool_decide (k' = k)) eqn:E; [|by apply IH]. apply bool_decide_eq_true in E as ->. eauto.
Qed.

Lemma plain_cache_laws : DekCacheLaws.
Proof.
  split; simpl.
  - intros k l c v ->. done.
  - intros k l c v E. by rewrite E.
  - intros k l c E. rewrite E. by destruct l.
  - intros k c v E. rewrite E. simpl. by rewrite bool_decide_eq_true_2.
  - intros k k' l c v. destruct (assoc k c), l as [x|]; simpl; auto.
    destruct (bool_decide (k = k')) eqn:E; [|by left]. apply bool_decide_eq_true in E as ->. intros [= ->]. by right.
  - intros [p|] k c v; [|done]. apply assoc_filter. naive_solver.
Qed.

Definition toy_group : jsstr := aad_groupId toy_aad.
Definition toy_config : PackageConfig := {| cfg_originalPackageId := js "0x1"; cfg_namespaceId := js "0x2" |}.
Definition toy_view : view := {| getCurrentKeyVersion _ := Ok 3; encryptedKey _ v := Ok [v; 7; 7] |}.
Definition toy_policy : MyDataPolicy unit := DefaultMyDataPolicy (js "0x1") (js "0x1") (js "0x5").
Definition toy_ref : GroupRef := IdsRef toy_group (js "0xc").
Definition alice : Session := (js "0xa", js "0x1").
Definition toy_env : EncryptedEnvelope :=
  {| ciphertext := [3; 7; 7; 1; 2; 104; 105]; nonce := [1; 2]; keyVersion := 3; aad := None |}.

Lemma coherent_empty : coherent toy_view (λ _, js "0xc") ([] : cache).
Proof. intros g v d. done. Qed.

Lemma envelope_roundtrip_witness :
  (decrypt toy_config toy_policy toy_view (Ok alice) toy_ref toy_env None []).1 = Ok [104; 105].
Proof.
  apply (@envelope_roundtrip plain_lib plain_laws plain_cache plain_cache_laws unit toy_config toy_view (λ _, js "0xc")
    toy_policy toy_policy (Ok alice) toy_ref [104; 105] None None None [1; 2] [] toy_env
    [(dek_path toy_group 3, [3; 7; 7])] alice toy_ref None [] toy_group None None).
  - exact coherent_empty.
  - exact coherent_empty.
  - reflexivity.
  - reflexivity.
  - vm_compute. reflexivity.
  - exists [3; 7; 7]. vm_compute. reflexivity.
Defined.

Definition toy_agent : AgentReaderPolicyOptions := {|
  originalPackageId := js "0x1"; latestPackageId := js "0x1"; versionId := js "0x1"; platformId := js "0x1";
  memoryConfigId := js "0x1"; memoryAccountId := js "0x1"; agentDerivedAddress := js "0xb" |}.

(** The key is cached, and still refused. *)
Lemma agent_session_bound_witness :
  decrypt toy_config (agent_policy toy_agent) toy_view (Ok alice) toy_ref toy_env None
    [(dek_path toy_group 3, [3; 7; 7])] = (Throw SessionIdentityError, [(dek_path toy_group 3, [3; 7; 7])]).
Proof.
  refine (proj1 (@agent_session_bound plain_lib plain_bcs plain_cache toy_config toy_view toy_agent alice toy_ref toy_group (js "0xc") None
    [] 0 None None [] toy_env [(dek_path toy_group 3, [3; 7; 7])] _ _)); [left|reflexivity].
  vm_compute. discriminate.
Defined.

(** The chain's version 4 is [4; 7; 7]; the client that rotated uses [9]. *)
Lemma rotation_key_local_witness :
  (resolveDEK toy_policy toy_view toy_group (js "0xc") 4 alice None [(dek_path toy_group 4, [9])]).1 = Ok [9].
Proof.
  destruct (@rotation_key_local plain_lib plain_bcs plain_cache plain_cache_laws unit toy_config 2 toy_view toy_policy toy_ref [9] []
    {| dek := [9]; encryptedDek := [9]; identityBytes := default [] (encodeIdentity toy_group 4) |} toy_group (js "0xc")
    [(dek_path toy_group 4, [9])]) as (current & Hv & _ & Hr); [vm_compute; reflexivity|].
  injection Hv as <-. apply Hr. discriminate.
Defined.
