(* ===== verification/WsFrames.v ===== *)
(** Frames and addresses of the WebSocket transport ([relayer/ws-transport.ts]):
    the socket's URL, and the domain event a frame stands for.

    A frame is read at the type its [type] field declares, as the REST bodies
    are ([HttpCalls]); a frame with a field of another type, which the code
    would hand on unchecked, is outside the model and reads as no event. *)
From S2P Require Import Prelude JsString JsMap Utf8 Json Verification Receipts AuthHeaders Wire HttpTransport HttpCalls.

(** * Addresses *)

(** [URL] of the platform: parse, [protocol], its setter, [origin]. *)
Class Urls := {
  Url : Type;
  new_URL : jsstr → option Url;
  protocol : Url → jsstr;
  set_protocol : jsstr → Url → Url;
  origin : Url → jsstr;
}.

Definition relayerUrlToWsBase `{Urls} (relayerUrl : jsstr) : option jsstr :=
  url ← new_URL relayerUrl;
  Some (origin (set_protocol (if decide (protocol url = js "https:") then js "wss:" else js "ws:") url)).

Definition resolveWsPath (apiPrefix : jsstr) : jsstr :=
  if is_nil apiPrefix then js "/v1/ws" else apiPrefix ++ js "/ws".

Definition resolveUserWsPath (apiPrefix : jsstr) : jsstr :=
  if is_nil apiPrefix then js "/v1/users/ws" else apiPrefix ++ js "/users/ws".

Record WSRelayerTransportConfig := {
  ws_relayerUrl : jsstr; ws_apiPrefix : option jsstr; ws_reconnectInitialMs : option Z; ws_reconnectMaxMs : option Z;
  ws_maxReconnectAttempts : option Z;
}.

Record ws_transport := {
  wst_relayerUrl : jsstr; wsPath : jsstr; userWsPath : jsstr; reconnectInitialMs : Z; reconnectMaxMs : Z;
  maxReconnectAttempts : Z;
}.

Definition WSRelayerTransport (c : WSRelayerTransportConfig) : ws_transport :=
  let rawPrefix := trim (default [] (ws_apiPrefix c)) in
  let apiPrefix := if is_nil rawPrefix then []
                   else strip_trailing 47 (if startsWith (js "/") rawPrefix then rawPrefix else 47 :: rawPrefix) in
  {| wst_relayerUrl := strip_trailing 47 (ws_relayerUrl c); wsPath := resolveWsPath apiPrefix;
     userWsPath := resolveUserWsPath apiPrefix; reconnectInitialMs := default 500 (ws_reconnectInitialMs c);
     reconnectMaxMs := default 30000 (ws_reconnectMaxMs c);
     maxReconnectAttempts := default 5 (ws_maxReconnectAttempts c) |}.

(** * Frames *)

Definition WireReaction_of (v : json) : option WireReactionUpdatedEvent :=
  g ← field as_str v "group_id"; s ← field as_int v "chain_seq"; e ← field as_str v "emoji"; c ← field as_int v "count";
  r ← field (optional (as_list as_str)) v "reactors";
  Some {| wr_group_id := g; wr_chain_seq := s; wr_emoji := e; wr_count := c; wr_reactors := r |}.

Definition WireTyping_of (v : json) : option WireTypingEvent :=
  g ← field as_str v "group_id"; m ← field as_str v "member"; x ← field (optional as_int) v "expires_at";
  Some {| wt_group_id := g; wt_member := m; wt_expires_at := x |}.

Definition WirePresence_of (v : json) : option WirePresenceEvent :=
  g ← field as_str v "group_id"; m ← field as_str v "member"; o ← field as_bool v "online";
  Some {| wp_group_id := g; wp_member := m; wp_online := o |}.

Definition WireReceipt_of (v : json) : option WireReceiptUpdatedEvent :=
  g ← field as_str v "group_id"; m ← field as_str v "member"; d ← field as_int v "delivered_upto";
  r ← field as_int v "read_upto";
  Some {| wu_group_id := g; wu_member := m; wu_delivered_upto := d; wu_read_upto := r |}.

Definition WireUserFeed_of (type : jsstr) (v : json) : option WireUserFeedEvent :=
  if decide (type = js "group.activity") then
    g ← field as_str v "group_id"; o ← field as_int v "latest_order"; Some (WGroupActivity g o)
  else if decide (type = js "read_state.updated") then
    b ← field as_int v "blob_version"; Some (WReadStateUpdated (default [] (field as_str v "wallet")) b)
  else if decide (type = js "receipt.updated") then WReceiptUpdated <$> WireReceipt_of v
  else if decide (type = js "group.discovered") then
    g ← field as_str v "group_id"; Some (WGroupDiscovered g (default [] (field as_str v "reason")))
  else if decide (type = js "group.hidden") then g ← field as_str v "group_id"; Some (WGroupHidden g)
  else if decide (type = js "workflow.item.created") then
    i ← field as_str v "item_id"; t ← field as_str v "item_type"; s ← field as_str v "status"; Some (WWorkflowCreated i t s)
  else if decide (type = js "workflow.item.updated") then
    i ← field as_str v "item_id"; t ← field as_str v "item_type"; s ← field as_str v "status"; Some (WWorkflowUpdated i t s)
  else Some (WUnknown type).

(** ['k' in frame] *)
Definition has_field (v : json) (k : string) : bool := bool_decide (is_Some (obj_get v (js k))).

Section frames.
Context `{JsonNumbers} `{HexCodec}.

Definition frame_message (frame : json) : option RelayerMessage :=
  WireMessageResponse_of (obj_get frame (js "message")) ≫= fromWireMessage.

(** [None] is [null] or an error: the handler ignores both. *)
Definition parseGroupFrame (data : jsstr) (afterOrder : option number) : option RelayerSubscriptionEvent :=
  frame ← json_parse data;
  let typed t := is_string (obj_get frame (js "type")) (js t) in
  if typed "message.created" && has_field frame "message" then
    message ← frame_message frame;
    if match afterOrder with Some o => num_le (order message) o | None => false end then None
    else Some (MessageCreated message)
  else if typed "message.deleted" && has_field frame "message" then MessageDeleted <$> frame_message frame
  else if typed "message.edited" && has_field frame "message" then MessageEdited <$> frame_message frame
  else if typed "reaction.updated" && has_field frame "chain_seq" then
    (λ w, ReactionUpdated (fromWireReactionEvent w)) <$> WireReaction_of frame
  else if typed "typing.start" && has_field frame "member" then
    (λ w, TypingStart (fromWireTypingEvent w)) <$> WireTyping_of frame
  else if typed "typing.stop" && has_field frame "member" then
    (λ w, TypingStop (fromWireTypingEvent w)) <$> WireTyping_of frame
  else if typed "presence.updated" && has_field frame "member" then
    (λ w, PresenceUpdated (fromWirePresenceEvent w)) <$> WirePresence_of frame
  else if typed "receipt.updated" && has_field frame "delivered_upto" then
    (λ w, ReceiptUpdated (fromWireReceiptEvent w)) <$> WireReceipt_of frame
  else None.

Definition parseUserFrame (data : jsstr) : option RelayerUserEvent :=
  frame ← json_parse data;
  match obj_get frame (js "type") with
  | Some (JStr (c :: t)) => WireUserFeed_of (c :: t) frame ≫= fromWireUserFeedEvent
  | _ => None
  end.
End frames.

(** A created message that passes is after the resume point; the other events
    do not depend on it. *)
Lemma parse_created_after `{JsonNumbers} `{HexCodec} data o m :
  parseGroupFrame data (Some o) = Some (MessageCreated m) → num_le (order m) o = false.
Proof.
  unfold parseGroupFrame. destruct (json_parse data) as [frame|]; [|done]. cbn [mbind option_bind].
  destruct (_ && _).
  { destruct (frame_message frame) as [x|]; [|done]. cbn [mbind option_bind].
    destruct (num_le (order x) o) eqn:E; [done|]. by intros [= <-]. }
  repeat (destruct (_ && _); [match goal with |- (_ <$> ?x) = _ → _ => by destruct x end|]). done.
Qed.
