(* ===== verification/WsTransport.v ===== *)
(** The WebSocket transport ([relayer/ws-transport.ts]): [subscribe] and
    [subscribeUserEvents] with [#connectAndStream] and [#handleStreamError], as
    a state machine driven by the events of the platform and of the consumer.

    Everything between two awaits is one step.  A step is taken when the
    consumer calls [next()], the signature of a query is ready, a socket's
    callback or a timer fires, the signal aborts, or [disconnect()] is called.
    An event that finds nothing waiting for it changes nothing.  A promise that
    is resolved continues before the next event (microtasks), so a frame that
    finds the consumer waiting is yielded in its own step.

    Both subscriptions run the same loop; [source] holds what they differ in. *)
From S2P Require Import Prelude JsString JsMap Utf8 Json Verification AuthHeaders Wire HttpTransport WsFrames.

Inductive ws_error :=
  | WsConnectionError (message : string) (retryable : bool)
  | AbortError                            (* DOMException *)
  | StreamError (e : transport_error).    (* from the signer or the platform *)

(** The events [E] of a subscription: the path, the query signed at a time, how
    a frame is read given the order resumed from, and the order an event moves
    the subscription to. *)
Record source (E : Type) := {
  src_path : jsstr;
  src_query : Z → option number → outcome sign_error jsstr;
  src_parse : jsstr → option number → option E;
  src_order : E → option number;
}.
Arguments src_path {E}. Arguments src_query {E}. Arguments src_parse {E}. Arguments src_order {E}.

(** What the generator waits for. *)
Inductive phase (E : Type) :=
  | Idle                          (* the first [next()] *)
  | Signing                       (* the query *)
  | Connecting                    (* [waitForOpen] *)
  | Waiting                       (* [resolveNext]: the consumer waits *)
  | Yielded (e : E)               (* [next()]: the consumer has [e] *)
  | Backoff (attempt : Z)         (* [delay] *)
  | Done (error : option ws_error).
Arguments Idle {E}. Arguments Signing {E}. Arguments Connecting {E}. Arguments Waiting {E}. Arguments Yielded {E}.
Arguments Backoff {E}. Arguments Done {E}.

(** [opened] lists the sockets created, oldest first: a socket is its place in
    it.  [shut] are those that closed or on which [close()] was called; the last
    of [opened] is the one [messageQueue] and [streamEnded] belong to. *)
Record ws (E : Type) := {
  stage : phase E;
  ws_disconnected : bool;
  ws_aborted : bool;
  ws_lastOrder : option number;
  reconnectAttempt : Z;
  connOrder : option number;              (* [afterOrder] of the current round *)
  messageQueue : list E;
  streamEnded : bool;
  opened : list jsstr;                    (* their URLs *)
  shut : list nat;
  ws_yielded : list E;
  backoffs : list Z;
}.
Arguments stage {E}. Arguments ws_disconnected {E}. Arguments ws_aborted {E}. Arguments ws_lastOrder {E}.
Arguments reconnectAttempt {E}. Arguments connOrder {E}. Arguments messageQueue {E}. Arguments streamEnded {E}.
Arguments opened {E}. Arguments shut {E}. Arguments ws_yielded {E}. Arguments backoffs {E}.

Inductive ws_event :=
  | Next
  | Stop                                     (* the consumer leaves its loop *)
  | Signed (now : Z) (refused : option jsstr) (* the error [new WebSocket] throws *)
  | SockOpen (s : nat)
  | SockError (s : nat)
  | SockTimeout (s : nat)
  | SockMessage (s : nat) (data : jsstr)
  | SockClose (s : nat)
  | Timer
  | Abort
  | Disconnect.

Section machine.
Context {E : Type} `{Urls} (t : ws_transport) (src : source E).

Definition new_ws (start : option number) (gone : bool) (aborted : bool) : ws E := {|
  stage := Idle; ws_disconnected := gone; ws_aborted := aborted; ws_lastOrder := start; reconnectAttempt := 0;
  connOrder := None; messageQueue := []; streamEnded := false; opened := []; shut := []; ws_yielded := []; backoffs := [] |}.

Definition at_stage (p : phase E) (w : ws E) : ws E := {|
  stage := p; ws_disconnected := ws_disconnected w; ws_aborted := ws_aborted w; ws_lastOrder := ws_lastOrder w;
  reconnectAttempt := reconnectAttempt w; connOrder := connOrder w; messageQueue := messageQueue w;
  streamEnded := streamEnded w; opened := opened w; shut := shut w; ws_yielded := ws_yielded w; backoffs := backoffs w |}.

Definition set_queue (q : list E) (w : ws E) : ws E := {|
  stage := stage w; ws_disconnected := ws_disconnected w; ws_aborted := ws_aborted w; ws_lastOrder := ws_lastOrder w;
  reconnectAttempt := reconnectAttempt w; connOrder := connOrder w; messageQueue := q;
  streamEnded := streamEnded w; opened := opened w; shut := shut w; ws_yielded := ws_yielded w; backoffs := backoffs w |}.

Definition set_ended (b : bool) (w : ws E) : ws E := {|
  stage := stage w; ws_disconnected := ws_disconnected w; ws_aborted := ws_aborted w; ws_lastOrder := ws_lastOrder w;
  reconnectAttempt := reconnectAttempt w; connOrder := connOrder w; messageQueue := messageQueue w;
  streamEnded := b; opened := opened w; shut := shut w; ws_yielded := ws_yielded w; backoffs := backoffs w |}.

Definition set_flags (gone aborted : bool) (w : ws E) : ws E := {|
  stage := stage w; ws_disconnected := gone; ws_aborted := aborted; ws_lastOrder := ws_lastOrder w;
  reconnectAttempt := reconnectAttempt w; connOrder := connOrder w; messageQueue := messageQueue w;
  streamEnded := streamEnded w; opened := opened w; shut := shut w; ws_yielded := ws_yielded w; backoffs := backoffs w |}.

Definition set_progress (o : option number) (attempt : Z) (w : ws E) : ws E := {|
  stage := stage w; ws_disconnected := ws_disconnected w; ws_aborted := ws_aborted w; ws_lastOrder := o;
  reconnectAttempt := attempt; connOrder := connOrder w; messageQueue := messageQueue w;
  streamEnded := streamEnded w; opened := opened w; shut := shut w; ws_yielded := ws_yielded w; backoffs := backoffs w |}.

(** [socket.close()] where the state allows it, or the socket has closed. *)
Definition shut_sockets (l : list nat) (w : ws E) : ws E := {|
  stage := stage w; ws_disconnected := ws_disconnected w; ws_aborted := ws_aborted w; ws_lastOrder := ws_lastOrder w;
  reconnectAttempt := reconnectAttempt w; connOrder := connOrder w; messageQueue := messageQueue w;
  streamEnded := streamEnded w; opened := opened w; shut := l ++ shut w; ws_yielded := ws_yielded w; backoffs := backoffs w |}.

Definition start_round (w : ws E) : ws E := {|
  stage := Signing; ws_disconnected := ws_disconnected w; ws_aborted := ws_aborted w; ws_lastOrder := ws_lastOrder w;
  reconnectAttempt := reconnectAttempt w; connOrder := ws_lastOrder w; messageQueue := messageQueue w;
  streamEnded := streamEnded w; opened := opened w; shut := shut w; ws_yielded := ws_yielded w; backoffs := backoffs w |}.

Definition open_socket (url : jsstr) (w : ws E) : ws E := {|
  stage := Connecting; ws_disconnected := ws_disconnected w; ws_aborted := ws_aborted w; ws_lastOrder := ws_lastOrder w;
  reconnectAttempt := reconnectAttempt w; connOrder := connOrder w; messageQueue := [];
  streamEnded := false; opened := opened w ++ [url]; shut := shut w; ws_yielded := ws_yielded w; backoffs := backoffs w |}.

Definition do_yield (e : E) (w : ws E) : ws E := {|
  stage := Yielded e; ws_disconnected := ws_disconnected w; ws_aborted := ws_aborted w; ws_lastOrder := ws_lastOrder w;
  reconnectAttempt := reconnectAttempt w; connOrder := connOrder w; messageQueue := messageQueue w;
  streamEnded := streamEnded w; opened := opened w; shut := shut w; ws_yielded := ws_yielded w ++ [e]; backoffs := backoffs w |}.

Definition wait_backoff (attempt ms : Z) (w : ws E) : ws E := {|
  stage := Backoff attempt; ws_disconnected := ws_disconnected w; ws_aborted := ws_aborted w; ws_lastOrder := ws_lastOrder w;
  reconnectAttempt := reconnectAttempt w; connOrder := connOrder w; messageQueue := messageQueue w;
  streamEnded := streamEnded w; opened := opened w; shut := shut w; ws_yielded := ws_yielded w; backoffs := backoffs w ++ [ms] |}.

Definition stopping (w : ws E) : bool := ws_disconnected w || ws_aborted w.

(** The socket in use. *)
Definition current (w : ws E) : nat := pred (length (opened w)).

(** The [finally] of [#connectAndStream]. *)
Definition finally (w : ws E) : ws E := shut_sockets [current w] w.

Definition backoff_ms (attempt : Z) : Z := Z.min (reconnectInitialMs t * 2 ^ (attempt - 1)) (reconnectMaxMs t).

(** The [catch] of the loop: [#handleStreamError], and the [return] on -1. *)
Definition handleStreamError (error : ws_error) (w : ws E) : ws E :=
  if stopping w then at_stage (Done None) w else
  match error with
  | AbortError => at_stage (Done None) w
  | WsConnectionError _ false => at_stage (Done (Some error)) w
  | _ =>
      if match error with
         | StreamError e => match relayer_status e with Some s => (400 <=? s) && (s <? 500) | None => false end
         | _ => false
         end
      then at_stage (Done (Some error)) w
      else
        let attempt := reconnectAttempt w + 1 in
        if maxReconnectAttempts t <? attempt then at_stage (Done (Some error)) w
        else wait_backoff attempt (backoff_ms attempt) w
  end.

(** The [while] of the subscription. *)
Definition outer_loop (w : ws E) : ws E := if stopping w then at_stage (Done None) w else start_round w.

(** An event of the stream reaches the [for await]. *)
Definition offer (e : E) (w : ws E) : ws E :=
  if stopping w then at_stage (Done None) (finally w) else do_yield e w.

(** The [while] of [#connectAndStream]; leaving it ends the [for await], and the subscription returns. *)
Definition inner_loop (w : ws E) : ws E :=
  if stopping w || streamEnded w then at_stage (Done None) (finally w)
  else match messageQueue w with
       | e :: q => offer e (set_queue q w)
       | [] => at_stage Waiting w
       end.

(** An error inside [#connectAndStream], after the socket was created. *)
Definition inner_throw (error : ws_error) (w : ws E) : ws E := handleStreamError error (finally w).

(** [yield] returned: the rest of the [for await] body, then the next event is asked for. *)
Definition resume (e : E) (w : ws E) : ws E :=
  inner_loop (set_progress (match src_order src e with Some o => Some o | None => ws_lastOrder w end) 0 w).

Definition connect (now : Z) (refused : option jsstr) (w : ws E) : ws E :=
  match src_query src now (connOrder w) with
  | Throw e => handleStreamError (StreamError (SignError e)) w
  | Ok query =>
      match relayerUrlToWsBase (wst_relayerUrl t) with
      | None => handleStreamError (StreamError (Platform (js "TypeError"))) w
      | Some base =>
          if ws_disconnected w then at_stage (Done None) w
          else match refused with
               | Some name => handleStreamError (StreamError (Platform name)) w
               | None => open_socket (base ++ src_path src ++ js "?" ++ query) w
               end
      end
  end.

(** Whether a callback of socket [s] finds its stream alive. *)
Definition on_stream (s : nat) (w : ws E) : bool :=
  bool_decide (s = current w) && match stage w with Connecting | Waiting | Yielded _ => true | _ => false end.

Definition closed (w : ws E) : ws E :=
  match stage w with
  | Waiting => inner_throw (WsConnectionError "WebSocket closed" true) (set_ended true w)
  | _ => set_ended true w
  end.

Definition step (w : ws E) (ev : ws_event) : ws E :=
  match ev with
  | Next => match stage w with Idle => outer_loop w | Yielded e => resume e w | _ => w end
  | Stop => match stage w with Yielded _ => at_stage (Done None) (finally w) | Idle => at_stage (Done None) w | _ => w end
  | Signed now refused => match stage w with Signing => connect now refused w | _ => w end
  | SockOpen s => if on_stream s w then match stage w with Connecting => inner_loop w | _ => w end else w
  | SockError s =>
      if on_stream s w then
        match stage w with
        | Connecting => inner_throw (WsConnectionError "WebSocket connection failed" true) w
        | _ => w
        end
      else w
  | SockTimeout s =>
      if on_stream s w then
        match stage w with
        | Connecting => inner_throw (WsConnectionError "WebSocket connect timed out" true) w
        | _ => w
        end
      else w
  | SockMessage s data =>
      if on_stream s w then
        match src_parse src data (connOrder w) with
        | None => w
        | Some e => match stage w with Waiting => offer e w | _ => set_queue (messageQueue w ++ [e]) w end
        end
      else w
  | SockClose s =>
      let w' := shut_sockets [s] w in
      if on_stream s w && negb (streamEnded w) then closed w' else w'
  | Timer =>
      match stage w with
      | Backoff attempt => outer_loop (set_progress (ws_lastOrder w) attempt w)
      | _ => w
      end
  | Abort =>
      if ws_aborted w then w else
      let w' := set_flags (ws_disconnected w) true w in
      match stage w with
      | Connecting => inner_throw AbortError (set_ended true (shut_sockets [current w] w'))
      | Waiting => inner_throw (WsConnectionError "WebSocket closed" true) (set_ended true (shut_sockets [current w] w'))
      | Yielded _ => set_ended true (shut_sockets [current w] w')
      | Backoff _ => at_stage (Done None) w'
      | _ => w'
      end
  | Disconnect => shut_sockets (seq 0 (length (opened w))) (set_flags true (ws_aborted w) w)
  end.

Definition run (w : ws E) (evs : list ws_event) : ws E := foldl step w evs.
End machine.

(** * The two subscriptions *)

Section subscriptions.
Context `{JsonNumbers} `{JsText} `{HexCodec} `{MySoCrypto} `{Base64Codec} `{Urls} (t : ws_transport).

Definition group_source (signer : Signer) (groupId : jsstr) : source RelayerSubscriptionEvent := {|
  src_path := wsPath t;
  src_query now afterOrder := createWsAuthQuery now signer groupId afterOrder;
  src_parse := parseGroupFrame;
  src_order e := match e with MessageCreated m => Some (order m) | _ => None end |}.

Definition user_source (signer : Signer) : source RelayerUserEvent := {|
  src_path := userWsPath t;
  src_query now _ := createUserWsAuthQuery now signer;
  src_parse data _ := parseUserFrame data;
  src_order _ := None |}.

Definition subscribe (signer : Signer) (groupId : jsstr) (afterOrder : option number) (gone aborted : bool)
    (evs : list ws_event) : ws RelayerSubscriptionEvent :=
  run t (group_source signer groupId) (new_ws afterOrder gone aborted) evs.

Definition subscribeUserEvents (signer : Signer) (gone aborted : bool) (evs : list ws_event) : ws RelayerUserEvent :=
  run t (user_source signer) (new_ws None gone aborted) evs.
End subscriptions.
