(* ===== verification/WsProps.v ===== *)
(** What the WebSocket subscriptions of [WsTransport.v] guarantee: delivery,
    resumption, bounded reconnection, and the end of the stream. *)
From S2P Require Import Prelude JsString JsMap Utf8 Json Verification AuthHeaders Wire HttpTransport HttpAuth HttpPolling WsFrames WsTransport.

Create HintDb ws.

(** Every function the step is made of, then every case. *)
Ltac ws_unfold :=
  unfold step, closed, connect, resume, inner_throw, inner_loop, outer_loop, offer, handleStreamError, on_stream, finally, stopping in *.
Ltac ws_split := repeat match goal with
  | H : _ || _ = false |- _ => apply orb_false_elim in H as [? ?]
  | H : _ && _ = true |- _ => apply andb_prop in H as [? ?]
  end.
Ltac ws_cases := ws_unfold; repeat (first [progress simpl in * | case_match]; simplify_eq); ws_split.
Ltac ws_done := solve [done | congruence | intros; simplify_eq; first [done | congruence | tauto | split; congruence]].

Section machine.
Context {E : Type} `{Urls} (t : ws_transport) (src : source E).

Lemma run_ind (P : ws E → Prop) w evs : P w → (∀ w ev, P w → P (step t src w ev)) → P (run t src w evs).
Proof. intros Hw Hs. revert w Hw. induction evs as [|ev evs IH]; intros w Hw; [done|]. apply IH, Hs, Hw. Qed.

Lemma run_app w evs evs' : run t src w (evs ++ evs') = run t src (run t src w evs) evs'.
Proof. unfold run. apply foldl_app. Qed.

(** States a subscription can be in. *)
Definition reachable (start : option number) (w : ws E) : Prop :=
  ∃ gone aborted evs, w = run t src (new_ws start gone aborted) evs.

Lemma reachable_ind (P : ws E → Prop) start : (∀ gone ab, P (new_ws start gone ab)) →
  (∀ w ev, P w → P (step t src w ev)) → ∀ w, reachable start w → P w.
Proof. intros H0 Hs w (gone & ab & evs & ->). by apply run_ind. Qed.

Definition live (w : ws E) : bool := match stage w with Connecting | Waiting | Yielded _ => true | _ => false end.

(** * Delivery *)

(** The event a step takes in from the current socket. *)
Definition accepted1 (w : ws E) (ev : ws_event) : list E :=
  match ev with
  | SockMessage s data => if on_stream s w then option_list (src_parse src data (connOrder w)) else []
  | _ => []
  end.

Fixpoint accepted (w : ws E) (evs : list ws_event) : list E :=
  match evs with [] => [] | ev :: evs => accepted1 w ev ++ accepted (step t src w ev) evs end.

(** A consumer never waits while a frame is queued. *)
Definition no_lost_wakeup (w : ws E) : Prop :=
  (stage w = Waiting → messageQueue w = [] ∧ streamEnded w = false).

Lemma wakeup_step w ev : no_lost_wakeup w → no_lost_wakeup (step t src w ev).
Proof. unfold no_lost_wakeup. intros Hw. destruct ev; ws_cases; ws_done. Qed.

(** What a step yields or drops is a prefix of what was there. *)
Lemma delivery_step w ev : no_lost_wakeup w →
  ws_yielded (step t src w ev) ++ messageQueue (step t src w ev)
    `sublist_of` (ws_yielded w ++ messageQueue w) ++ accepted1 w ev.
Proof.
  unfold no_lost_wakeup, accepted1. intros Hw.
  assert (∀ l k : list E, l `sublist_of` l ++ k) as Hl by (intros; by apply sublist_inserts_r).
  destruct ev; ws_cases; rewrite ?app_nil_r, <-?app_assoc; simpl; try done.
  all: try match goal with H : messageQueue _ = [] |- _ => rewrite H, ?app_nil_r; done end.
  all: try (destruct Hw as [-> _]; [congruence|done]).
  all: apply sublist_app; done.
Qed.

(** C26.  Frames are delivered faithfully, however sockets open, fail, close
    and reconnect.  What a subscription has yielded is, in order and each at
    most once, among the frames its sockets received while they were in use and that
    parsed; what is still queued comes after it; and a consumer that is
    waiting has nothing queued, so no frame is held back from it. *)
Theorem ws_delivery start gone aborted evs :
  let w := run t src (new_ws start gone aborted) evs in
  ws_yielded w ++ messageQueue w `sublist_of` accepted (new_ws start gone aborted) evs
  ∧ (stage w = Waiting → messageQueue w = []).
Proof.
  cbv zeta. enough (∀ evs w, no_lost_wakeup w →
    ws_yielded (run t src w evs) ++ messageQueue (run t src w evs) `sublist_of` (ws_yielded w ++ messageQueue w) ++ accepted w evs
    ∧ no_lost_wakeup (run t src w evs)) as Hall.
  { destruct (Hall evs (new_ws start gone aborted)) as [Hs Hw]; [by intros [=]|]. split; [done|]. intros Hst. by apply Hw. }
  clear evs. induction evs as [|ev evs IH]; intros w Hw; [by rewrite app_nil_r|]. simpl.
  destruct (IH (step t src w ev)) as [Hs Hw']; [by apply wakeup_step|]. split; [|done].
  etrans; [exact Hs|]. rewrite app_assoc. apply sublist_app; [by apply delivery_step|done].
Qed.

(** * Liveness on an open connection *)

Definition quiet (ev : ws_event) : bool := match ev with Next | SockMessage _ _ => true | _ => false end.

(** The stream is open and the consumer has been given something or waits. *)
Definition streaming (w : ws E) : Prop :=
  stopping w = false ∧ streamEnded w = false ∧ no_lost_wakeup w ∧ match stage w with Waiting | Yielded _ => True | _ => False end.

Lemma quiet_step w ev : streaming w → quiet ev = true →
  streaming (step t src w ev) ∧ opened (step t src w ev) = opened w
  ∧ ws_yielded (step t src w ev) ++ messageQueue (step t src w ev) = (ws_yielded w ++ messageQueue w) ++ accepted1 w ev.
Proof.
  unfold streaming, no_lost_wakeup, accepted1. intros (Hs & He & Hw & Hst) Hq. apply orb_false_elim in Hs as [Hd Ha].
  destruct ev; try done; clear Hq; ws_unfold; rewrite ?Hd, ?Ha, ?He; destruct (stage w) eqn:Est; try done; simpl.
  all: try (destruct (Hw eq_refl) as [Eq _]; rewrite ?Eq).
  all: repeat (first [progress simpl in * | case_match]; simplify_eq).
  all: try match goal with H : messageQueue _ = [] |- _ => rewrite ?H end.
  all: rewrite ?app_nil_r, <-?app_assoc, ?Hd, ?Ha; split_and!; try ws_done; by rewrite ?Hd, ?Ha, ?He in *.
Qed.

Lemma quiet_run evs : ∀ w, streaming w → Forall (λ ev, quiet ev = true) evs →
  streaming (run t src w evs) ∧ opened (run t src w evs) = opened w
  ∧ ws_yielded (run t src w evs) ++ messageQueue (run t src w evs) = (ws_yielded w ++ messageQueue w) ++ accepted w evs.
Proof.
  induction evs as [|ev evs IH]; intros w Hw Hq; [by rewrite app_nil_r|]. inversion Hq; subst. simpl.
  destruct (quiet_step w ev) as (S1 & O1 & E1); [done..|]. destruct (IH (step t src w ev)) as (S2 & O2 & E2); [done..|].
  split; [done|]. split; [congruence|]. rewrite E2, E1. by rewrite app_assoc.
Qed.

Lemma drain w : ∀ n, streaming w → length (messageQueue w) = n →
  messageQueue (run t src w (replicate n Next)) = [].
Proof.
  intros n. revert w. induction n as [|n IH]; intros w Hw Hn; [by apply nil_length_inv|].
  change (run t src w (replicate (S n) Next)) with (run t src (step t src w Next) (replicate n Next)).
  apply IH; [by apply quiet_step|].
  { destruct Hw as (Hs & He & Hw & Hst). unfold no_lost_wakeup in Hw. simpl. destruct (stage w) eqn:Est; try done.
    { destruct (Hw eq_refl) as [Eq _]. by rewrite Eq in Hn. }
    unfold resume, inner_loop, stopping in *. simpl. rewrite Hs, He. simpl. destruct (messageQueue w) eqn:Eq; [done|].
    unfold offer, stopping. simpl. rewrite Hs. simpl in *. lia. }
Qed.

(** C27.  On a connection that stays open every frame gets through: from any
    state of an open stream, after any frames and requests of the consumer,
    the consumer has, once it has asked as often more as frames are queued,
    every frame that arrived, in order, without a reconnection. *)
Theorem ws_frames_delivered w evs : streaming w → Forall (λ ev, quiet ev = true) evs →
  let w' := run t src w evs in
  let w'' := run t src w' (replicate (length (messageQueue w')) Next) in
  ws_yielded w'' = ws_yielded w ++ messageQueue w ++ accepted w evs ∧ opened w'' = opened w ∧ streaming w''.
Proof.
  intros Hw Hq. cbv zeta. destruct (quiet_run evs w Hw Hq) as (S1 & O1 & E1).
  set (w' := run t src w evs) in *. assert (Forall (λ ev, quiet ev = true) (replicate (length (messageQueue w')) Next)) as Hr
    by (by apply Forall_replicate).
  destruct (quiet_run _ w' S1 Hr) as (S2 & O2 & E2). rewrite drain, app_nil_r in E2 by done.
  assert (∀ n w0, accepted w0 (replicate n Next) = []) as Hn by (induction n; intros w0; [done|]; simpl; done).
  rewrite Hn, app_nil_r, E1, <-app_assoc in E2. split; [done|]. split; [congruence|done].
Qed.

(** * Resumption *)

(** The order a subscription has reached after yielding [l] and being resumed. *)
Definition order_after (start : option number) (l : list E) : option number :=
  foldl (λ o e, match src_order src e with Some x => Some x | None => o end) start l.

Lemma order_after_snoc start l e : order_after start (l ++ [e])
  = match src_order src e with Some x => Some x | None => order_after start l end.
Proof. unfold order_after. by rewrite foldl_app. Qed.

(** [e] is not at or before the order [o]. *)
Definition beyond (o : option number) (e : E) : Prop :=
  ∀ x y, o = Some x → src_order src e = Some y → num_le y x = false.

(** The current round resumed from some prefix of the yielded events, and what
    it brought, [q] included, is beyond that prefix. *)
Definition round (start : option number) (q : list E) (w : ws E) : Prop :=
  ∃ k, connOrder w = order_after start (take k (ws_yielded w))
       ∧ Forall (beyond (connOrder w)) (drop k (ws_yielded w) ++ q) ∧ (k ≤ length (ws_yielded w))%nat.

(** The order kept is that of what the consumer has taken, all but the event it
    still holds. *)
Definition progress (start : option number) (w : ws E) : Prop :=
  let caught_up := ws_lastOrder w = order_after start (ws_yielded w) in
  match stage w with
  | Idle => caught_up ∧ ws_yielded w = []
  | Signing => caught_up ∧ connOrder w = order_after start (ws_yielded w)
  | Connecting | Waiting => caught_up ∧ round start (messageQueue w) w
  | Yielded e => (∃ l, ws_yielded w = l ++ [e] ∧ ws_lastOrder w = order_after start l) ∧ round start (messageQueue w) w
  | Backoff _ => caught_up ∧ round start [] w
  | Done _ => ws_yielded w = [] ∨ round start [] w
  end.

Lemma round_less start q w w' : round start q w → connOrder w' = connOrder w → ws_yielded w' = ws_yielded w → round start [] w'.
Proof.
  intros (k & Ek & Hk & Hl) E1 E2. exists k. rewrite E1, E2. apply Forall_app in Hk as [H1 _]. by rewrite app_nil_r.
Qed.

Lemma round_now start w : connOrder w = order_after start (ws_yielded w) → round start [] w.
Proof.
  intros E1. exists (length (ws_yielded w)). rewrite take_ge, drop_ge by lia. split; [done|]. split; [constructor|lia].
Qed.

Section resumption.
Context (parse_after : ∀ data x e y, src_parse src data (Some x) = Some e → src_order src e = Some y → num_le y x = false).

Lemma parse_beyond data o e : src_parse src data o = Some e → beyond o e.
Proof. intros Hp x y -> Hy. by eapply parse_after. Qed.

Lemma progress_handle start err w : ws_lastOrder w = order_after start (ws_yielded w) → round start [] w →
  progress start (handleStreamError t err w).
Proof. intros Ho Hr. unfold progress. ws_cases; auto. Qed.

Lemma progress_throw start err w : ws_lastOrder w = order_after start (ws_yielded w) → round start (messageQueue w) w →
  progress start (inner_throw t err w).
Proof. intros Ho Hr. apply progress_handle; [done|]. by eapply round_less. Qed.

Lemma progress_outer start w : ws_lastOrder w = order_after start (ws_yielded w) →
  (ws_yielded w = [] ∨ round start [] w) → progress start (outer_loop w).
Proof. intros Ho Hr. unfold progress, outer_loop. by destruct (stopping w). Qed.

Lemma progress_offer start e w : ws_lastOrder w = order_after start (ws_yielded w) →
  round start (e :: messageQueue w) w → progress start (offer e w).
Proof.
  intros Ho (k & Ek & Hk & Hl). unfold progress, offer. destruct (stopping w); simpl.
  - right. exists k. simpl. rewrite app_nil_r. split; [done|]. split; [|done]. by apply Forall_app in Hk as [? _].
  - split; [by exists (ws_yielded w)|]. exists k. simpl. rewrite take_app_le, drop_app_le by done.
    rewrite <-app_assoc, length_app. split_and!; [done|done|lia].
Qed.

Lemma progress_inner start w : ws_lastOrder w = order_after start (ws_yielded w) →
  round start (messageQueue w) w → progress start (inner_loop w).
Proof.
  intros Ho Hr. unfold inner_loop. destruct (_ || _).
  - unfold progress. simpl. right. by eapply round_less.
  - destruct (messageQueue w) as [|e q] eqn:Eq; [unfold progress; simpl; by rewrite Eq|]. by apply progress_offer.
Qed.

Lemma progress_connect start now refused w : progress start w → stage w = Signing → progress start (connect t src now refused w).
Proof.
  unfold progress at 1. intros Hp Est. rewrite Est in Hp. destruct Hp as [Ho Ec].
  assert (round start [] w) as Hr by by apply round_now.
  unfold connect. destruct (src_query src now (connOrder w)); [|by apply progress_handle].
  destruct (relayerUrlToWsBase _); [|by apply progress_handle]. destruct (ws_disconnected w); [by right|].
  destruct refused; [by apply progress_handle|]. unfold progress. simpl. split; [done|]. by apply round_now.
Qed.

Lemma progress_step start w ev : progress start w → no_lost_wakeup w → progress start (step t src w ev).
Proof.
  intros Hp Hw. pose proof Hp as Hp0. unfold progress at 1 in Hp0. unfold no_lost_wakeup in Hw.
  destruct ev; simpl; unfold on_stream.
  - destruct (stage w) eqn:Est; try done.
    + apply progress_outer; naive_solver.
    + destruct Hp0 as [(l & El & Eo) Hr]. apply progress_inner; [|done]. simpl. by rewrite El, order_after_snoc, Eo.
  - destruct (stage w) eqn:Est; try done; unfold progress; simpl; [left; naive_solver|right]. eapply round_less; naive_solver.
  - destruct (stage w) eqn:Est; try done. by apply progress_connect.
  - destruct (stage w) eqn:Est; try (by rewrite andb_false_r); case_match; try done. destruct Hp0. by apply progress_inner.
  - destruct (stage w) eqn:Est; try (by rewrite andb_false_r); case_match; try done. destruct Hp0. by apply progress_throw.
  - destruct (stage w) eqn:Est; try (by rewrite andb_false_r); case_match; try done. destruct Hp0. by apply progress_throw.
  - destruct (_ && _); [|done]. destruct (src_parse src data (connOrder w)) as [e|] eqn:Ep; [|done]. apply parse_beyond in Ep.
    assert (∀ q, round start q w → round start (q ++ [e]) w) as Hq.
    { intros q (k & Ek & Hk & Hl). exists k. rewrite app_assoc. split; [done|]. split; [|done]. apply Forall_app. by repeat constructor. }
    destruct (stage w) eqn:Est; try (unfold progress; simpl; rewrite Est; naive_solver).
    apply progress_offer; [by apply Hp0|]. destruct Hp0 as [_ Hr]. apply Hq in Hr. destruct (Hw eq_refl) as [Eq _]. rewrite Eq in *. exact Hr.
  - destruct (stage w) eqn:Est; rewrite ?andb_false_r; simpl; try (unfold progress; simpl; by rewrite Est).
    all: destruct (_ && _); [|unfold progress; simpl; by rewrite Est]. all: unfold closed; simpl; rewrite Est.
    all: try (unfold progress; simpl; by rewrite Est). destruct Hp0. by apply progress_throw.
  - destruct (stage w) eqn:Est; try done. apply progress_outer; simpl; naive_solver.
  - destruct (ws_aborted w); [done|]. destruct (stage w) eqn:Est; try (unfold progress; simpl; rewrite ?Est; naive_solver).
    all: destruct Hp0; by apply progress_throw.
  - unfold progress. simpl. done.
Qed.
End resumption.

(** * Reconnection is bounded *)

(** The sockets allowed once [n0] of them and [y0] events are counted. *)
Section counting.
Context (n0 y0 : nat).

Definition budget (w : ws E) : Z :=
  Z.of_nat n0 + (maxReconnectAttempts t + 1) * (Z.of_nat (length (ws_yielded w)) - Z.of_nat y0).

Definition bounded (w : ws E) : Prop :=
  0 ≤ reconnectAttempt w ≤ maxReconnectAttempts t
  ∧ Forall (λ ms, ∃ n, 1 ≤ n ≤ maxReconnectAttempts t ∧ ms = backoff_ms t n) (backoffs w)
  ∧ let n := Z.of_nat (length (opened w)) in
    match stage w with
    | Idle => n ≤ budget w
    | Signing => n ≤ budget w + reconnectAttempt w
    | Connecting | Waiting => n ≤ budget w + reconnectAttempt w + 1
    | Yielded _ => n ≤ budget w
    | Backoff a => 1 ≤ a ≤ maxReconnectAttempts t ∧ n ≤ budget w + a
    | Done e => n ≤ budget w + maxReconnectAttempts t + 1
                ∧ ∀ m, e = Some (WsConnectionError m true) → reconnectAttempt w = maxReconnectAttempts t
    end.

Lemma bounded_handle err w : 0 ≤ reconnectAttempt w ≤ maxReconnectAttempts t →
  Forall (λ ms, ∃ n, 1 ≤ n ≤ maxReconnectAttempts t ∧ ms = backoff_ms t n) (backoffs w) →
  Z.of_nat (length (opened w)) ≤ budget w + reconnectAttempt w + 1 → bounded (handleStreamError t err w).
Proof.
  intros Ha Hb Hn. unfold bounded, handleStreamError, budget in *. destruct (stopping w); simpl; [split_and!; (done || lia)|].
  assert (bounded (if maxReconnectAttempts t <? reconnectAttempt w + 1 then at_stage (Done (Some err)) w
                   else wait_backoff (reconnectAttempt w + 1) (backoff_ms t (reconnectAttempt w + 1)) w)) as Hretry.
  { unfold bounded, budget. destruct (Z.ltb_spec (maxReconnectAttempts t) (reconnectAttempt w + 1)); simpl;
      split_and!; try (done || lia).
    apply Forall_app. split; [done|]. repeat constructor. eexists. split; [|done]. lia. }
  assert ((∀ m, err ≠ WsConnectionError m true) → bounded (at_stage (Done (Some err)) w)) as Hstop.
  { intros Hm. unfold bounded, budget. simpl. split_and!; try (done || lia). intros m' [= ->]. by destruct (Hm m'). }
  destruct err as [m [|]| |e]; [exact Hretry|by apply Hstop|..].
  - unfold bounded, budget. simpl. split_and!; (done || lia).
  - destruct (match relayer_status e with Some s => _ | None => _ end); [by apply Hstop|exact Hretry].
Qed.

Lemma bounded_throw err w : 0 ≤ reconnectAttempt w ≤ maxReconnectAttempts t →
  Forall (λ ms, ∃ n, 1 ≤ n ≤ maxReconnectAttempts t ∧ ms = backoff_ms t n) (backoffs w) →
  Z.of_nat (length (opened w)) ≤ budget w + reconnectAttempt w + 1 → bounded (inner_throw t err w).
Proof. intros Ha Hb Hn. by apply bounded_handle. Qed.

Lemma bounded_inner w : 0 ≤ reconnectAttempt w ≤ maxReconnectAttempts t →
  Forall (λ ms, ∃ n, 1 ≤ n ≤ maxReconnectAttempts t ∧ ms = backoff_ms t n) (backoffs w) →
  Z.of_nat (length (opened w)) ≤ budget w + reconnectAttempt w + 1 → bounded (inner_loop w).
Proof.
  intros Ha Hb Hn. unfold inner_loop, offer, bounded, budget in *. destruct (_ || _); simpl; [by split_and!; (done || lia)|].
  destruct (messageQueue w); simpl; [split_and!; (done || lia)|].
  destruct (stopping _); simpl; rewrite ?length_app; split_and!; simpl; (done || lia).
Qed.

Lemma bounded_step w ev : bounded w → bounded (step t src w ev).
Proof.
  intros Hb. pose proof Hb as (Ha & Hms & Hn). cbv zeta in Hn.
  destruct ev; simpl; unfold on_stream; destruct (stage w) eqn:Est; rewrite ?andb_false_r; try done.
  all: try (destruct (_ && _); [|done]).
  all: try (by apply bounded_inner || by apply bounded_throw).
  all: try exact Hb.
  all: try (destruct (ws_aborted w); [exact Hb|]).
  all: try (destruct (src_parse src data (connOrder w)) as [e'|]; [|exact Hb]).
  all: try (by apply bounded_inner || by apply bounded_throw).
  all: try (unfold bounded, budget in *; simpl; rewrite ?Est; split_and!; (done || lia)).
  - unfold outer_loop. destruct (stopping w); unfold bounded, budget in *; simpl; split_and!; (done || lia).
  - apply bounded_inner; simpl; [lia|done|]. unfold budget in *. simpl. lia.
  - unfold connect. destruct (src_query _ _ _); [|by apply bounded_handle; [..|lia]].
    destruct (relayerUrlToWsBase _); [|by apply bounded_handle; [..|lia]].
    destruct (ws_disconnected w); [unfold bounded, budget in *; simpl; split_and!; (done || lia)|].
    destruct refused; [by apply bounded_handle; [..|lia]|].
    unfold bounded, budget in *. simpl. rewrite length_app. simpl. split_and!; (done || lia).
  - unfold offer. destruct (stopping w); unfold bounded, budget in *; simpl; rewrite ?length_app; simpl; split_and!; (done || lia).
  - unfold closed. simpl. rewrite Est. unfold bounded, budget in *. simpl. rewrite Est. split_and!; (done || lia).
  - unfold closed. simpl. rewrite Est. by apply bounded_throw.
  - unfold closed. simpl. rewrite Est. unfold bounded, budget in *. simpl. rewrite Est. split_and!; (done || lia).
  - unfold outer_loop. destruct (stopping _); unfold bounded, budget in *; simpl; split_and!; (done || lia).
  - unfold bounded, budget in *. simpl. rewrite Est. tauto.
Qed.

End counting.

(** Counted from any state the bound holds at, it holds there. *)
Lemma bounded_recount n y w : bounded n y w → bounded (length (opened w)) (length (ws_yielded w)) w.
Proof.
  intros (Ha & Hb & Hn). split; [done|]. split; [done|]. cbv zeta in *. unfold budget in *. rewrite Z.sub_diag.
  destruct (stage w); try lia. destruct Hn as [_ Hn]. split; [lia|exact Hn].
Qed.

Lemma bounded_opened n y w : bounded n y w →
  Z.of_nat (length (opened w)) ≤ budget n y w + maxReconnectAttempts t + 1.
Proof. intros (Ha & _ & Hn). cbv zeta in Hn. destruct (stage w); lia. Qed.

Lemma bounded_run n y w evs : bounded n y w → bounded n y (run t src w evs).
Proof. intros Hw. apply run_ind; [done|]. intros w' ev. apply bounded_step. Qed.

(** C28.  Reconnection is bounded.  Between two events that a subscription yields, and
    before the first and after the last, it opens at most [maxReconnectAttempts + 1]
    sockets (in any stretch of the run in which nothing is yielded), so at most
    [(max + 1) * (yields + 1)] in all; every delay is the capped exponential of an attempt
    between 1 and the maximum; and a retryable connection error is thrown to
    the consumer only once the attempts are used up.  The maximum configured is not negative. *)
Theorem ws_reconnects_bounded start gone aborted evs evs' : 0 ≤ maxReconnectAttempts t →
  let w := run t src (new_ws start gone aborted) evs in
  let w' := run t src w evs' in
  (ws_yielded w' = ws_yielded w →
     Z.of_nat (length (opened w')) ≤ Z.of_nat (length (opened w)) + maxReconnectAttempts t + 1)
  ∧ Z.of_nat (length (opened w)) ≤ (maxReconnectAttempts t + 1) * (Z.of_nat (length (ws_yielded w)) + 1)
  ∧ Forall (λ ms, ms ≤ reconnectMaxMs t ∧ ∃ n, 1 ≤ n ≤ maxReconnectAttempts t
      ∧ ms = Z.min (reconnectInitialMs t * 2 ^ (n - 1)) (reconnectMaxMs t)) (backoffs w)
  ∧ ∀ m, stage w = Done (Some (WsConnectionError m true)) → reconnectAttempt w = maxReconnectAttempts t.
Proof.
  intros Hm w w'. assert (bounded 0 0 w) as Hw.
  { apply bounded_run. unfold bounded, budget. simpl. split_and!; (done || lia). }
  pose proof (bounded_opened _ _ _ Hw) as Ho. pose proof Hw as (Ha & Hb & Hn). split; [|split; [|split]].
  - intros Hy. pose proof (bounded_opened _ _ _ (bounded_run _ _ _ evs' (bounded_recount _ _ _ Hw))) as Hg.
    fold w' in Hg. unfold budget in Hg. rewrite Hy in Hg. lia.
  - unfold budget in Ho. lia.
  - eapply Forall_impl; [exact Hb|]. intros ms (n & Hr & ->). split; [unfold backoff_ms; lia|eauto].
  - intros m Est. cbv zeta in Hn. rewrite Est in Hn. by eapply Hn.
Qed.

(** * The end of the stream *)

(** Every socket but the one in use is closed, and all are on a disconnected transport. *)
Definition no_leak (w : ws E) : Prop :=
  ∀ s, (s < length (opened w))%nat → s ∈ shut w ∨ live w = true ∧ s = current w ∧ ws_disconnected w = false.

Lemma no_leak_step w ev : no_leak w → no_leak (step t src w ev).
Proof.
  unfold no_leak, live. intros Hw. destruct ev.
  all: ws_cases; intros s' Hs; simpl in *; unfold current in *; simpl in *; rewrite ?elem_of_app, ?elem_of_cons.
  all: try (destruct (Hw s' Hs) as [?|(? & ? & ?)]; [by auto|first [done | congruence | tauto | left; tauto]]).
  - rewrite length_app in *. simpl in *. destruct (decide (s' < length (opened w))%nat) as [Hlt|Hge].
    + destruct (Hw s' Hlt) as [?|(? & _)]; [by left|done].
    + right. split_and!; (done || lia).
  - left. left. by apply elem_of_seq; lia.
  - left. left. by apply elem_of_seq; lia.
  - left. left. by apply elem_of_seq; lia.
Qed.

Lemma stopped_step w ev : stopping w = true →
  stopping (step t src w ev) = true ∧ ws_yielded (step t src w ev) = ws_yielded w
  ∧ (ws_disconnected w = true → ws_disconnected (step t src w ev) = true ∧ opened (step t src w ev) = opened w).
Proof.
  unfold stopping at 1. intros Hs. destruct ev; ws_cases; rewrite ?orb_true_r; split_and!; try done; try congruence.
  all: by destruct (ws_disconnected w), (ws_aborted w).
Qed.

(** Stopping is final and leaks nothing.  Once the signal is aborted or
    the transport disconnected nothing is yielded any more, whatever the
    sockets still receive, and after a disconnect no socket is created; a disconnected
    transport and a finished subscription have closed every socket they
    opened, and at any other time only the socket in use is open. *)
Lemma ws_stop start gone aborted evs evs' :
  let w := run t src (new_ws start gone aborted) evs in
  (stopping w = true → ws_yielded (run t src w evs') = ws_yielded w)
  ∧ (ws_disconnected w = true → opened (run t src w evs') = opened w)
  ∧ ∀ s, (s < length (opened w))%nat →
      s ∈ shut w ∨ live w = true ∧ s = current w ∧ ws_disconnected w = false.
Proof.
  cbv zeta. set (w := run t src (new_ws start gone aborted) evs). split; [|split].
  - intros Hs. eapply (run_ind (λ w', stopping w' = true ∧ ws_yielded w' = ws_yielded w)); [done|].
    intros w' ev [Hs' <-]. by destruct (stopped_step w' ev Hs') as (? & ? & _).
  - intros Hd. eapply (run_ind (λ w', ws_disconnected w' = true ∧ opened w' = opened w)); [done|].
    intros w' ev [Hd' <-]. destruct (stopped_step w' ev) as (_ & _ & Ho); [unfold stopping; by rewrite Hd'|]. by apply Ho.
  - apply (run_ind no_leak); [intros s Hs; simpl in Hs; lia|apply no_leak_step].
Qed.

(** A close is only noticed by a waiting consumer.  If the socket closes
    while the consumer is busy with an event, the subscription returns normally
    at its next request: no error, no reconnection, and the frames still queued
    are lost.  Had the consumer asked first, the same close would have been an error, retried after a delay. *)
Lemma ws_close_while_busy w e : stage w = Yielded e → stopping w = false → streamEnded w = false →
  (let w' := run t src w [SockClose (current w); Next] in
   stage w' = Done None ∧ ws_yielded w' = ws_yielded w ∧ opened w' = opened w)
  ∧ (messageQueue w = [] → 0 < maxReconnectAttempts t →
     stage (run t src w [Next; SockClose (current w)]) = Backoff 1).
Proof.
  intros Est Hs He. apply orb_false_elim in Hs as [Hd Ha]. split.
  - change (run t src w [SockClose (current w); Next]) with (step t src (step t src w (SockClose (current w))) Next).
    assert (step t src w (SockClose (current w)) = set_ended true (shut_sockets [current w] w)) as ->.
    { unfold step, on_stream. rewrite Est, bool_decide_eq_true_2, He by done. simpl. unfold closed. simpl. by rewrite Est. }
    simpl. rewrite Est. unfold resume, inner_loop, stopping. simpl. rewrite Hd, Ha. done.
  - intros Hq Hm. simpl. rewrite Est. unfold resume, inner_loop, stopping. simpl. rewrite Hd, Ha, He. simpl. rewrite Hq.
    unfold on_stream. simpl. rewrite bool_decide_eq_true_2 by done. simpl. rewrite He. simpl.
    unfold closed, inner_throw, handleStreamError, stopping. simpl. rewrite Hd, Ha. simpl.
    destruct (Z.ltb_spec (maxReconnectAttempts t) (0 + 1)); [lia|done].
Qed.
End machine.

(** * The group subscription *)

Section group.
Context `{JsonNumbers} `{JsText} `{HexCodec} `{MySoCrypto} `{Base64Codec} `{Urls} (t : ws_transport).

Lemma opened_step {E} (src : source E) w ev url : opened (step t src w ev) = opened w ++ [url] →
  ∃ now query base, ev = Signed now None ∧ stage w = Signing ∧ src_query src now (connOrder w) = Ok query
    ∧ relayerUrlToWsBase (wst_relayerUrl t) = Some base ∧ url = base ++ src_path src ++ js "?" ++ query.
Proof.
  assert (opened w ≠ opened w ++ [url]) as Hne.
  { intros E1. apply (f_equal length) in E1. rewrite length_app in E1. simpl in E1. lia. }
  destruct ev; ws_cases; try done. intros E1. apply app_inj_tail in E1 as [_ <-]. eauto 10.
Qed.

(** A group subscription resumes where its consumer is.  A socket is only
    opened with a query signed for the order of the last message the consumer has
    taken (the caller's order at first); and while a connection lasts, every
    created message it has brought comes after the order it was opened with:
    what was taken before is never delivered again. *)
Lemma ws_resume signer g start gone aborted evs :
  let w := subscribe t signer g start gone aborted evs in
  let after := order_after (group_source t signer g) start in
  (∀ ev url, opened (step t (group_source t signer g) w ev) = opened w ++ [url] →
     ∃ now query base, createWsAuthQuery now signer g (after (ws_yielded w)) = Ok query
       ∧ relayerUrlToWsBase (wst_relayerUrl t) = Some base ∧ url = base ++ wsPath t ++ js "?" ++ query)
  ∧ (live w = true → ∃ k, (k ≤ length (ws_yielded w))%nat ∧ connOrder w = after (take k (ws_yielded w))
       ∧ ∀ m o, MessageCreated m ∈ drop k (ws_yielded w) ++ messageQueue w → connOrder w = Some o → num_le (order m) o = false).
Proof.
  cbv zeta. set (src := group_source t signer g).
  assert (∀ data x e y, src_parse src data (Some x) = Some e → src_order src e = Some y → num_le y x = false) as Hp.
  { intros data x [m| | | | | | |] y Hd; try done. intros [= <-]. by apply parse_created_after in Hd. }
  assert (progress src start (subscribe t signer g start gone aborted evs) ∧ no_lost_wakeup (subscribe t signer g start gone aborted evs))
    as [Hg _].
  { refine (run_ind t src (λ w, progress src start w ∧ no_lost_wakeup w) _ evs _ _); [by split; [split|intros [=]]|].
    intros w ev [Hg Hw]. split; [by apply progress_step|by apply wakeup_step]. }
  set (w := subscribe t signer g start gone aborted evs) in *. unfold progress in Hg. split.
  - intros ev url (now & query & base & _ & Est & Hq & Hb & ->)%opened_step. rewrite Est in Hg. destruct Hg as [_ Ec].
    exists now, query, base. by rewrite Ec in Hq.
  - intros Hl. assert (round src start (messageQueue w) w) as (k & Ek & Hk & Hle).
    { unfold live in Hl. destruct (stage w); try done; apply Hg. }
    exists k. split; [done|]. split; [done|]. intros m o Hin Ho. eapply Forall_forall in Hk; [|exact Hin].
    by apply (Hk o (order m)).
Qed.
End group.

(** * Witnesses *)

#[local] Existing Instances integer_numbers ascii_text plain_hex toy_crypto plain_base64.

(** The scheme and the rest of an http(s) address. *)
#[local] Instance plain_urls : Urls := {|
  Url := jsstr * jsstr;
  new_URL s := if startsWith (js "https:") s then Some (js "https:", drop 6 s)
               else if startsWith (js "http:") s then Some (js "http:", drop 5 s) else None;
  protocol := fst; set_protocol p u := (p, u.2); origin u := u.1 ++ u.2 |}.

Definition toy_ws : ws_transport := WSRelayerTransport {|
  ws_relayerUrl := js "https://relay/"; ws_apiPrefix := None; ws_reconnectInitialMs := None; ws_reconnectMaxMs := None;
  ws_maxReconnectAttempts := Some 2 |}.

Definition toy_group : source RelayerSubscriptionEvent := group_source toy_ws toy_signer (js "0xg").

Definition frame (id : string) (k : Z) : jsstr :=
  stringify (JObj [(js "type", JStr (js "message.created")); (js "message", wire_row id k)]).

Definition opening : list ws_event := [Next; Signed 0 None; SockOpen 0].
Definition toy_run : list ws_event → ws RelayerSubscriptionEvent :=
  subscribe toy_ws toy_signer (js "0xg") (Some (Int 3)) false false.

(** Three frames, one of them before the resume point. *)
Definition traffic : list ws_event := [SockMessage 0 (frame "m4" 4); SockMessage 0 (frame "m2" 2); SockMessage 0 (frame "m7" 7)].

Definition orders (l : list RelayerSubscriptionEvent) : list number :=
  omap (λ e, match e with MessageCreated m => Some (order m) | _ => None end) l.

Lemma ws_delivery_witness :
  orders (ws_yielded (toy_run (opening ++ traffic))) = [Int 4]
  ∧ ws_yielded (toy_run (opening ++ traffic)) ++ messageQueue (toy_run (opening ++ traffic))
      `sublist_of` accepted toy_ws toy_group (new_ws (Some (Int 3)) false false) (opening ++ traffic).
Proof.
  split; [vm_compute; reflexivity|]. exact (proj1 (ws_delivery toy_ws toy_group (Some (Int 3)) false false (opening ++ traffic))).
Defined.

Lemma toy_streaming : streaming (toy_run opening).
Proof. repeat split; vm_compute; reflexivity. Qed.

Lemma ws_frames_delivered_witness :
  orders (ws_yielded (run toy_ws toy_group (toy_run (opening ++ traffic)) [Next])) = [Int 4; Int 7].
Proof.
  assert (Forall (λ ev, quiet ev = true) traffic) as Hq by (repeat constructor).
  pose proof (proj1 (ws_frames_delivered toy_ws toy_group (toy_run opening) traffic toy_streaming Hq)) as Hd.
  cbv zeta in Hd. assert (toy_run (opening ++ traffic) = run toy_ws toy_group (toy_run opening) traffic) as -> by apply run_app.
  assert (length (messageQueue (run toy_ws toy_group (toy_run opening) traffic)) = 1%nat) as Hl by (vm_compute; reflexivity).
  rewrite Hl in Hd. change (replicate 1 Next) with [Next] in Hd. rewrite Hd. vm_compute. reflexivity.
Defined.

(** The first socket fails twice before it opens: three sockets, nothing yielded, two attempts allowed. *)
Definition failing : list ws_event := [Next; Signed 0 None; SockError 0; Timer; Signed 1 None; SockError 1; Timer; Signed 2 None].

Lemma ws_reconnects_bounded_witness :
  length (opened (toy_run failing)) = 3%nat ∧ Z.of_nat (length (opened (toy_run failing))) ≤ 0 + 2 + 1.
Proof.
  split; [vm_compute; reflexivity|].
  refine (proj1 (ws_reconnects_bounded toy_ws toy_group (Some (Int 3)) false false [] failing _) _);
    [vm_compute; discriminate|vm_compute; reflexivity].
Defined.

Lemma ws_stop_witness :
  ws_yielded (run toy_ws toy_group (toy_run (opening ++ [Abort])) traffic) = [].
Proof.
  etrans; [|assert (ws_yielded (toy_run (opening ++ [Abort])) = []) as Hn by (vm_compute; reflexivity); exact Hn].
  apply (proj1 (ws_stop toy_ws toy_group (Some (Int 3)) false false (opening ++ [Abort]) traffic)). vm_compute. reflexivity.
Defined.

(** Two frames, the second still queued when the socket closes. *)
Lemma ws_close_while_busy_witness :
  let w := toy_run (opening ++ traffic) in
  length (messageQueue w) = 1%nat
  ∧ stage (run toy_ws toy_group w [SockClose (current w); Next]) = Done None.
Proof.
  cbv zeta. split; [vm_compute; reflexivity|].
  destruct (stage (toy_run (opening ++ traffic))) as [| | | |e| |] eqn:Est; try (exfalso; revert Est; vm_compute; discriminate).
  refine (proj1 (proj1 (ws_close_while_busy toy_ws toy_group (toy_run (opening ++ traffic)) e Est _ _))); vm_compute; reflexivity.
Defined.

(** After a reconnection the query asks for what follows message 4. *)
Definition reconnecting : list ws_event := opening ++ [SockMessage 0 (frame "m4" 4); Next; SockClose 0; Timer].

Lemma ws_resume_witness : ∃ now query,
  createWsAuthQuery now toy_signer (js "0xg") (Some (Int 4)) = Ok query
  ∧ last (opened (step toy_ws toy_group (toy_run reconnecting) (Signed 0 None))) = Some (js "wss://relay/v1/ws?" ++ query).
Proof.
  pose proof (proj1 (ws_resume toy_ws toy_signer (js "0xg") (Some (Int 3)) false false reconnecting) (Signed 0 None)) as Hr.
  unfold toy_run, toy_group. set (w := subscribe _ _ _ _ _ _ reconnecting) in *. set (src := group_source _ _ _) in *.
  assert (Some (Int 4) = order_after src (Some (Int 3)) (ws_yielded w)) as -> by (vm_compute; reflexivity).
  destruct (last (opened (step toy_ws src w (Signed 0 None)))) as [url|] eqn:El; [|exfalso; revert El; vm_compute; discriminate].
  assert (opened (step toy_ws src w (Signed 0 None)) = opened w ++ [url]) as Ho.
  { revert El. vm_compute. intros [= <-]. reflexivity. }
  destruct (Hr url Ho) as (now & query & base & Hq & Hb & ->).
  assert (relayerUrlToWsBase (wst_relayerUrl toy_ws) = Some (js "wss://relay")) as Hb' by (vm_compute; reflexivity).
  rewrite Hb' in Hb. injection Hb as <-. exists now, query. by split.
Defined.
