(* ===== verification/HybridTransport.v ===== *)
(** The hybrid transport ([relayer/hybrid-transport.ts]): WebSocket streams
    with HTTP polling behind them, and HTTP for every call.

    A stream is the WebSocket machine of [WsTransport.v] until that finishes,
    then, if the error allows it, the polling generator of [HttpPolling.v].  The
    HTTP world is the transport's own; [disconnect()] acts on both. *)
From S2P Require Import Prelude JsString JsMap Utf8 Json Verification AuthHeaders Wire HttpTransport HttpAuth HttpPolling.
From S2P Require Import WsFrames WsTransport WsProps.

Record HybridRelayerTransport := {
  hy_http : transport; hy_ws : ws_transport; preferWebSocket : bool; fallbackToHttp : bool;
}.

Record HybridRelayerTransportConfig := {
  hc_http : HTTPRelayerTransportConfig; hc_preferWebSocket : option bool; hc_fallbackToHttp : option bool;
  hc_wsReconnectInitialMs : option Z; hc_wsReconnectMaxMs : option Z; hc_wsMaxReconnectAttempts : option Z;
}.

Definition new_hybrid (c : HybridRelayerTransportConfig) : HybridRelayerTransport := {|
  hy_http := HTTPRelayerTransport (hc_http c);
  hy_ws := WSRelayerTransport {|
    ws_relayerUrl := cf_relayerUrl (hc_http c); ws_apiPrefix := cf_apiPrefix (hc_http c);
    ws_reconnectInitialMs := hc_wsReconnectInitialMs c; ws_reconnectMaxMs := hc_wsReconnectMaxMs c;
    ws_maxReconnectAttempts := hc_wsMaxReconnectAttempts c |};
  preferWebSocket := default true (hc_preferWebSocket c);
  fallbackToHttp := default true (hc_fallbackToHttp c) |}.

(** [400 <= status < 500] of a relayer error. *)
Definition client_error (e : ws_error) : bool :=
  match e with
  | StreamError x => match relayer_status x with Some s => (400 <=? s) && (s <? 500) | None => false end
  | _ => false
  end.

Definition shouldEndStream (fallback : bool) (error : ws_error) : outcome ws_error bool :=
  if client_error error then Throw error else
  match error with
  | WsConnectionError _ false => Throw error
  | AbortError => Ok true
  | _ => if fallback then Ok false else Throw error
  end.

(** A stream: on its socket, over, or polling after what the socket yielded. *)
Inductive hybrid (E : Type) :=
  | OnSocket (w : ws E)
  | Over (events : list E) (error : option ws_error)
  | Polling (before : list E) (result : outcome transport_error bool) (g : gen E).
Arguments OnSocket {E}. Arguments Over {E}. Arguments Polling {E}.

(** What the consumer has received. *)
Definition received {E} (h : hybrid E) : list E :=
  match h with OnSocket w => ws_yielded w | Over l _ => l | Polling l _ g => l ++ yielded g end.

Section hybrid.
Context `{JsonNumbers} `{JsText} `{HexCodec} `{MySoCrypto} `{Base64Codec} `{Urls}.
Context (env : nat → await_step) (t : HybridRelayerTransport).

(** [yield* ws; catch; yield* http]: [poll] is the HTTP stream, started anew. *)
Definition either_stream {E} (socket : ws E) (poll : outcome transport_error bool * gen E) : hybrid E :=
  if negb (preferWebSocket t) then Polling [] poll.1 poll.2 else
  match stage socket with
  | Done None => Over (ws_yielded socket) None
  | Done (Some error) =>
      match shouldEndStream (fallbackToHttp t) error with
      | Throw e => Over (ws_yielded socket) (Some e)
      | Ok true => Over (ws_yielded socket) None
      | Ok false => Polling (ws_yielded socket) poll.1 poll.2
      end
  | _ => OnSocket socket
  end.

(** [w] is the HTTP world when polling starts, [n] its rounds so far. *)
Definition hybrid_subscribe (signer : Signer) (groupId : jsstr) (afterOrder limit : option number) (gone aborted : bool)
    (evs : list ws_event) (w : http) (n : nat) : hybrid RelayerSubscriptionEvent :=
  either_stream (WsTransport.subscribe (hy_ws t) signer groupId afterOrder gone aborted evs)
    (HttpPolling.subscribe env (hy_http t) signer groupId limit n (new_gen afterOrder w)).

Definition hybrid_subscribeUserEvents (signer : Signer) (groupIds : list jsstr) (gone aborted : bool)
    (evs : list ws_event) (w : http) (n : nat) : hybrid RelayerUserEvent :=
  either_stream (WsTransport.subscribeUserEvents (hy_ws t) signer gone aborted evs)
    (HttpPolling.subscribeUserEvents env (hy_http t) signer groupIds n (new_gen None w)).

(** Every other method is the HTTP transport's. *)
Definition hybrid_call (s : Signer) (c : rest_call) : HttpTransport.call unit := HttpAuth.run env (hy_http t) s c.

Definition hybrid_disconnect {E} (w : http) (socket : ws E) (src : source E) : http * ws E :=
  (disconnect w, step (hy_ws t) src socket Disconnect).

Lemma stream_errors {E} tw (src : source E) start gone ab evs e :
  stage (run tw src (new_ws start gone ab) evs) = Done (Some e) → e ≠ AbortError.
Proof.
  apply (run_ind tw src (λ w, stage w = Done (Some e) → e ≠ AbortError)); [done|].
  intros w ev Hw. destruct ev; ws_cases; intros Ed; simplify_eq; try done; try congruence; by apply Hw; congruence.
Qed.

(** The fallback.  A socket stream that ends, aborts or is disconnected
    ends the stream; a client error and, with the fallback off, any error is
    thrown as it is; with the fallback on, every other failure turns into polling and no
    connection error reaches the consumer.  Polling starts from the order the
    {e caller} gave: nothing the caller has not seen is skipped, and what the socket
    had already delivered is fetched, and delivered, again. *)
Lemma hybrid_fallback signer g start limit gone ab evs w n :
  preferWebSocket t = true →
  let socket := WsTransport.subscribe (hy_ws t) signer g start gone ab evs in
  let poll := HttpPolling.subscribe env (hy_http t) signer g limit n (new_gen start w) in
  match hybrid_subscribe signer g start limit gone ab evs w n with
  | OnSocket socket' => socket' = socket ∧ ∀ e, stage socket ≠ Done e
  | Over l error => l = ws_yielded socket ∧ stage socket = Done error
                    ∧ ∀ e, error = Some e → client_error e = true ∨ (∃ m, e = WsConnectionError m false) ∨ fallbackToHttp t = false
  | Polling l r gen => l = ws_yielded socket ∧ (r, gen) = poll ∧ fallbackToHttp t = true
                       ∧ lastOrder gen = last_order start (yielded gen)
                       ∧ ∃ e, stage socket = Done (Some e) ∧ client_error e = false ∧ e ≠ AbortError
                              ∧ ∀ m, e ≠ WsConnectionError m false
  end.
Proof.
  intros Hp. cbv zeta. unfold hybrid_subscribe, either_stream. rewrite Hp. cbn [negb].
  destruct (HttpPolling.subscribe _ _ _ _ _ _ _) as [r gn] eqn:Epoll. cbn [fst snd].
  pose proof (λ e, stream_errors (hy_ws t) (group_source (hy_ws t) signer g) start gone ab evs e) as Hna.
  fold (WsTransport.subscribe (hy_ws t) signer g start gone ab evs) in Hna.
  destruct (WsTransport.stage (WsTransport.subscribe _ _ _ _ _ _ _)) as [| | | | | |[e|]] eqn:Est; try (by split).
  unfold shouldEndStream. destruct (client_error e) eqn:Ec.
  { split_and!; [done..|]. intros e' [= <-]. by left. }
  assert (fallbackToHttp t = true → (∀ m, e ≠ WsConnectionError m false) →
    ws_yielded (WsTransport.subscribe (hy_ws t) signer g start gone ab evs) = ws_yielded (WsTransport.subscribe (hy_ws t) signer g start gone ab evs)
    ∧ (r, gn) = (r, gn) ∧ fallbackToHttp t = true ∧ lastOrder gn = last_order start (yielded gn)
    ∧ ∃ e0, @Done RelayerSubscriptionEvent (Some e) = Done (Some e0) ∧ client_error e0 = false ∧ e0 ≠ AbortError ∧ ∀ m, e0 ≠ WsConnectionError m false) as Hpoll.
  { intros Hf Hm. split_and!; try done; [by apply subscribe_resumes in Epoll as (? & _)|]. exists e. split_and!; try done. by apply Hna. }
  destruct e as [m [|]| |x]; [|split_and!; [done..|]; intros e' [= <-]; eauto| by destruct (Hna AbortError)|].
  all: destruct (fallbackToHttp t) eqn:Ef; [by apply Hpoll|]; split_and!; [done..|]; intros e' [= <-]; auto.
Qed.
End hybrid.

(** * Witness *)

#[local] Existing Instances integer_numbers ascii_text plain_hex toy_crypto plain_base64 plain_urls.

(** No reconnection before the fallback. *)
Definition toy_hybrid : HybridRelayerTransport := {|
  hy_http := sample_transport;
  hy_ws := WSRelayerTransport {| ws_relayerUrl := js "https://relay/"; ws_apiPrefix := None; ws_reconnectInitialMs := None;
                                 ws_reconnectMaxMs := None; ws_maxReconnectAttempts := Some 0 |};
  preferWebSocket := true; fallbackToHttp := true |}.

(** The socket brings message 4 and closes; the consumer is waiting. *)
Definition one_message : list ws_event := opening ++ [SockMessage 0 (frame "m4" 4); Next; SockClose 0].

(** Polling then lists messages 4 and 7: message 4 is received twice. *)
Lemma hybrid_fallback_witness :
  let h := hybrid_subscribe (scripted [no_reply; page_reply]) toy_hybrid toy_signer (js "0xg") (Some (Int 3)) None false false
             one_message fresh_http 1 in
  orders (received h) = [Int 4; Int 4; Int 7]
  ∧ match h with Polling _ _ g => lastOrder g = last_order (Some (Int 3)) (yielded g) | _ => False end.
Proof.
  cbv zeta. split; [vm_compute; reflexivity|].
  pose proof (hybrid_fallback (scripted [no_reply; page_reply]) toy_hybrid toy_signer (js "0xg") (Some (Int 3)) None false false
    one_message fresh_http 1 eq_refl) as Hf. cbv zeta in Hf.
  destruct (hybrid_subscribe _ _ _ _ _ _ _ _ one_message _ _) as [s|l err|l r g] eqn:Eh;
    [exfalso; revert Eh; vm_compute; discriminate..|]. by destruct Hf as (_ & _ & _ & Hl & _).
Defined.
