(* ===== verification/MlsRows.v ===== *)
(** The row codec of the MLS stores ([mls/types.ts]): [encodeRowsJson] and
    [decodeRowsJson], a JSON that also carries byte arrays and bigints, and the
    round trip between them; and the objects it carries, message rows.

    A row is kept as the JavaScript object it is: rows that arrive in a history
    bundle are stored as received, whatever fields they have. *)
From S2P Require Import Prelude JsString JsMap Utf8 TextDecoder Json Anchors Verification Wire.

#[local] Set Warnings "-register-all".

(** * Values *)

Inductive rv : Type :=
  | RNull
  | RBool (b : bool)
  | RNum (n : number)
  | RStr (s : jsstr)
  | RBytes (b : bytes)         (* Uint8Array *)
  | RBig (n : Z)               (* bigint *)
  | RArr (l : list rv)
  | RObj (l : list (jsstr * rv)).

Section rv_induction.
Context (P : rv → Prop).
Context (Hnull : P RNull) (Hbool : ∀ b, P (RBool b)) (Hnum : ∀ n, P (RNum n)) (Hstr : ∀ s, P (RStr s))
  (Hbytes : ∀ b, P (RBytes b)) (Hbig : ∀ n, P (RBig n)) (Harr : ∀ l, Forall P l → P (RArr l))
  (Hobj : ∀ l, Forall (λ kv, P kv.2) l → P (RObj l)).

Fixpoint rv_nested_ind (v : rv) : P v :=
  match v with
  | RNull => Hnull
  | RBool b => Hbool b
  | RNum n => Hnum n
  | RStr s => Hstr s
  | RBytes b => Hbytes b
  | RBig n => Hbig n
  | RArr l => Harr l ((fix go l : Forall P l :=
      match l with
      | [] => Forall_nil_2 P
      | x :: l' => Forall_cons_2 P x l' (rv_nested_ind x) (go l')
      end) l)
  | RObj l => Hobj l ((fix go l : Forall (λ kv, P kv.2) l :=
      match l with
      | [] => Forall_nil_2 _
      | x :: l' => Forall_cons_2 _ x l' (rv_nested_ind x.2) (go l')
      end) l)
  end.
End rv_induction.

(** [o.k]; [None] is [undefined]. *)
Definition rv_get (v : rv) (k : string) : option rv := match v with RObj l => map_get (js k) l | _ => None end.

(** [{ ...o, k: x }] *)
Definition rv_set (v : rv) (k : string) (x : rv) : rv := match v with RObj l => RObj (map_set (js k) x l) | _ => v end.

(** * Hexadecimal *)

(** [/../g]: a dot matches anything but a line terminator. *)
Definition is_line_end (c : Z) : bool := (c =? 10) || (c =? 13) || (c =? 0x2028) || (c =? 0x2029).

Fixpoint char_pairs (s : jsstr) : list (Z * Z) :=
  match s with
  | c :: ((d :: s') as t) => if is_line_end c || is_line_end d then char_pairs t else (c, d) :: char_pairs s'
  | _ => []
  end.

(** [parseInt(cd, 16)], [NaN] as 0, as [Uint8Array.from] stores it. *)
Definition parse_hex_pair (p : Z * Z) : Z :=
  let '(c, d) := p in
  let digit x := if is_hex x then hex_digit_value x else 0 in
  if is_hex c then (if is_hex d then hex_digit_value c * 16 + hex_digit_value d else hex_digit_value c)
  else if is_space c || (c =? 43) then digit d
  else if c =? 45 then (- digit d) mod 256
  else 0.

Definition unhex (s : jsstr) : bytes := parse_hex_pair <$> char_pairs s.

(** * The codec *)

(** The replacer of [encodeRowsJson]. *)
Fixpoint replace (v : rv) : json :=
  match v with
  | RNull => JNull
  | RBool b => JBool b
  | RNum n => JNum n
  | RStr s => JStr s
  | RBytes b => JObj [(js "$b", JStr (hexOf b))]
  | RBig n => JObj [(js "$n", JStr (dec_Z n))]
  | RArr l => JArr (replace <$> l)
  | RObj l => JObj ((λ kv, (kv.1, replace kv.2)) <$> l)
  end.

(** [BigInt] of what an array holding [v] is printed as. *)
Fixpoint element_BigInt (v : rv) : option Z :=
  match v with
  | RNull | RArr [] | RBytes [] => Some 0
  | RStr s => StringToBigInt s
  | RNum (Int z) => if Z.abs z <? 10 ^ 21 then Some z else None
  | RBig n => Some n
  | RBytes [b] => Some b
  | RArr [x] => element_BigInt x
  | _ => None
  end.

(** [BigInt(v)]; [None] throws. *)
Definition rv_BigInt (v : rv) : option Z :=
  match v with
  | RStr s => StringToBigInt s
  | RNum (Int z) => Some z
  | RBool b => Some (if b then 1 else 0)
  | RBig n => Some n
  | RArr _ | RBytes _ => element_BigInt v
  | _ => None
  end.

(** The reviver on an object; [None] throws. *)
Definition revive_obj (l : list (jsstr * rv)) : option rv :=
  match map_get (js "$b") l with
  | Some (RStr s) => Some (RBytes (unhex s))
  | Some _ => None
  | None =>
      match map_get (js "$n") l with
      | Some v => RBig <$> rv_BigInt v
      | None => Some (RObj l)
      end
  end.

(** The properties of a parsed object: a repeated key keeps its first place and its last value. *)
Definition own_properties (l : list (jsstr * rv)) : list (jsstr * rv) := foldl (λ m kv, map_set kv.1 kv.2 m) [] l.

Fixpoint revive (v : json) : option rv :=
  match v with
  | JNull => Some RNull
  | JBool b => Some (RBool b)
  | JNum n => Some (RNum n)
  | JStr s => Some (RStr s)
  | JArr l => RArr <$> (fix go (l : list json) : option (list rv) :=
      match l with
      | [] => Some []
      | x :: l' => y ← revive x; ys ← go l'; Some (y :: ys)
      end) l
  | JObj l => (fix go (l : list (jsstr * json)) : option (list (jsstr * rv)) :=
      match l with
      | [] => Some []
      | kv :: l' => y ← revive kv.2; ys ← go l'; Some ((kv.1, y) :: ys)
      end) l ≫= λ m, revive_obj (own_properties m)
  end.

Definition encodeRowsJson `{JsonNumbers} (v : rv) : bytes := utf8_encode (stringify (replace v)).
Definition decodeRowsJson `{JsonNumbers} (b : bytes) : option rv := json_parse (text_decode b) ≫= revive.

(** * Round trip *)

(** What the codec carries unchanged: no object has the marker keys. *)
Fixpoint rv_ok `{JsonNumbers} (v : rv) : Prop :=
  match v with
  | RNull | RBool _ | RBig _ => True
  | RNum n => num_stable n = true
  | RStr s => wf_str s
  | RBytes b => wf_bytes b
  | RArr l => (fix go (l : list rv) : Prop := match l with [] => True | x :: l' => rv_ok x ∧ go l' end) l
  | RObj l => map_ok l ∧ (js "$b" ∉ l.*1) ∧ (js "$n" ∉ l.*1)
      ∧ (fix go (l : list (jsstr * rv)) : Prop :=
           match l with [] => True | kv :: l' => wf_str kv.1 ∧ rv_ok kv.2 ∧ go l' end) l
  end.

Lemma rv_ok_arr `{JsonNumbers} l : rv_ok (RArr l) ↔ Forall rv_ok l.
Proof. induction l as [|v l IH]; [by split; [constructor|]|]. rewrite Forall_cons, <-IH. done. Qed.

Lemma rv_ok_obj `{JsonNumbers} l :
  rv_ok (RObj l) ↔ map_ok l ∧ (js "$b" ∉ l.*1) ∧ (js "$n" ∉ l.*1) ∧ Forall (λ kv, wf_str kv.1 ∧ rv_ok kv.2) l.
Proof.
  cbn [rv_ok]. do 3 f_equiv. induction l as [|v l IH]; [by split; [constructor|]|]. rewrite Forall_cons, <-IH. tauto.
Qed.

Lemma hex_nibble_value d : 0 ≤ d < 16 → is_hex (hex_nibble d) = true ∧ hex_digit_value (hex_nibble d) = d
  ∧ is_line_end (hex_nibble d) = false.
Proof. intros Hd. assert (d ∈ seqZ 0 16) as Hin by (apply elem_of_seqZ; lia). clear Hd. revert d Hin. apply Forall_forall. by repeat constructor. Qed.

#[local] Ltac Zify.zify_post_hook ::= Z.div_mod_to_equations.

Lemma unhex_hexOf b : wf_bytes b → unhex (hexOf b) = b.
Proof.
  unfold unhex, hexOf. induction 1 as [|x b Hx _ IH]; [done|]. unfold is_byte in Hx. rewrite bind_cons. cbn [app char_pairs].
  destruct (hex_nibble_value (x / 16)) as (Ha & Hva & Hla); [lia|]. destruct (hex_nibble_value (x mod 16)) as (Hb & Hvb & Hlb); [lia|].
  rewrite Hla, Hlb. cbn [orb fmap list_fmap]. f_equal; [|exact IH]. unfold parse_hex_pair. rewrite Ha, Hb, Hva, Hvb. lia.
Qed.

Lemma go_mapM (l : list json) (r : list rv) :
  Forall2 (λ x y, revive x = Some y) l r →
  (fix go (l : list json) : option (list rv) :=
      match l with [] => Some [] | x :: l' => y ← revive x; ys ← go l'; Some (y :: ys) end) l = Some r.
Proof. induction 1 as [|x y l r Hx _ IH]; [done|]. by rewrite Hx, IH. Qed.

Lemma go_members (l : list (jsstr * json)) (r : list (jsstr * rv)) :
  Forall2 (λ x y, x.1 = y.1 ∧ revive x.2 = Some y.2) l r →
  (fix go (l : list (jsstr * json)) : option (list (jsstr * rv)) :=
      match l with [] => Some [] | kv :: l' => y ← revive kv.2; ys ← go l'; Some ((kv.1, y) :: ys) end) l = Some r.
Proof. induction 1 as [|[k x] [k' y] l r [Hk Hx] _ IH]; [done|]. simpl in *. rewrite Hx, IH. simpl. by subst. Qed.

Lemma own_properties_id l : map_ok l → own_properties l = l.
Proof.
  unfold own_properties. enough (∀ m, map_ok (m ++ l) → foldl (λ m kv, map_set kv.1 kv.2 m) m l = m ++ l) as Hg by apply (Hg []).
  induction l as [|[k v] l IH]; intros m Hm; [by rewrite app_nil_r|]. simpl.
  assert (k ∉ (m.*1)) as Hk. { unfold map_ok in Hm. rewrite fmap_app, fmap_cons in Hm. apply NoDup_app in Hm as (_ & Hd & _).
    intros Hin. apply (Hd k Hin). by left. }
  rewrite map_set_fresh, IH by (done || by rewrite <-(assoc_L (++))). by rewrite <-(assoc_L (++)).
Qed.

Lemma digits_space_free s : all_digits s = true → trim s = s ∧ ∀ c, c ∈ s → 48 ≤ c ≤ 57.
Proof.
  intros Hd. split; [by apply trim_id, digits_not_space|]. intros c Hc. apply is_digit_spec.
  unfold all_digits in Hd. rewrite forallb_forall in Hd. by apply Hd, list_elem_of_In.
Qed.

Lemma radix_digits s : s ≠ [] → all_digits s = true → radix_value 10 is_digit s = Some (digits_value s).
Proof.
  intros Hn Hd. assert (∀ l a, all_digits l = true →
    foldl (λ a c, a * 10 + hex_digit_value c) a l = foldl (λ a c, a * 10 + (c - 48)) a l) as Hl.
  { intros l. induction l as [|d l IH]; intros a Ha; [done|]. simpl in *. apply andb_prop in Ha as [Hx Ha].
    rewrite IH by done. unfold hex_digit_value. by rewrite Hx. }
  unfold radix_value, digits_value. destruct s as [|c s]; [done|]. rewrite <-Hl by done. unfold all_digits in Hd. by rewrite Hd.
Qed.

Lemma BigInt_digits s : s ≠ [] → all_digits s = true → StringToBigInt s = Some (digits_value s).
Proof.
  intros Hn Hd. destruct (digits_space_free s Hd) as [Ht Hr]. unfold StringToBigInt. rewrite Ht.
  pose proof (radix_digits s Hn Hd) as Hv. destruct s as [|c [|d s]]; [done|..].
  - assert (48 ≤ c ≤ 57) by (apply Hr; left). repeat (case_match; try done; try lia).
  - assert (48 ≤ c ≤ 57) by (apply Hr; left). assert (48 ≤ d ≤ 57) by (apply Hr; right; left). repeat (case_match; try done; try lia).
Qed.

Lemma BigInt_dec_Z n : StringToBigInt (dec_Z n) = Some n.
Proof.
  unfold dec_Z. destruct (Z.ltb_spec n 0) as [Hn|Hn].
  - assert (all_digits (dec (- n)) = true) as Hd by (apply dec_all_digits; lia).
    pose proof (digits_not_space _ Hd) as Hsp. unfold StringToBigInt.
    rewrite trim_id by (constructor; done). rewrite radix_digits, dec_value by (done || apply dec_nonempty || lia).
    simpl. f_equal. lia.
  - rewrite BigInt_digits, dec_value by (done || apply dec_nonempty || by apply dec_all_digits). done.
Qed.

Section roundtrip.
Context `{JsonNumbersLaws}.

Lemma revive_replace v : rv_ok v → revive (replace v) = Some v.
Proof.
  induction v as [| | | |b|n|l IH|l IH] using rv_nested_ind; intros Hv; try done.
  - simpl. unfold revive_obj, own_properties. simpl. by rewrite unhex_hexOf.
  - simpl. unfold revive_obj, own_properties. simpl. by rewrite BigInt_dec_Z.
  - apply rv_ok_arr in Hv. cbn [replace revive]. rewrite (go_mapM _ l); [done|].
    induction IH as [|x l Hx _ IHl]; inversion Hv; subst; constructor; auto.
  - apply rv_ok_obj in Hv as (Hok & Hb & Hn & Hv). cbn [replace revive]. rewrite (go_members _ l).
    + simpl. unfold revive_obj. rewrite own_properties_id, !map_get_absent by done. done.
    + clear Hok Hb Hn. induction IH as [|x l Hx _ IHl]; inversion Hv as [|? ? [] ?]; subst; constructor; auto.
Qed.

Lemma hexOf_wf b : wf_bytes b → wf_str (hexOf b).
Proof.
  unfold hexOf. induction 1 as [|x b Hx _ IH]; [constructor|]. unfold is_byte in Hx. rewrite bind_cons. apply Forall_app.
  split; [|exact IH]. unfold hex_nibble, is_unit. repeat constructor; case_match; bool_to_Z; lia.
Qed.

Lemma replace_ok v : rv_ok v → json_ok (replace v).
Proof.
  induction v as [| | | |b|n|l IH|l IH] using rv_nested_ind; intros Hv; try done.
  - apply json_ok_obj. apply Forall_singleton. split; [apply wf_js|by apply hexOf_wf].
  - apply json_ok_obj. apply Forall_singleton. split; [apply wf_js|].
    apply (Forall_impl is_ascii); [|unfold is_ascii, is_unit; intros; lia].
    unfold dec_Z. case_match; [constructor; [done|]|]; eapply Forall_impl; try (apply dec_Forall_digit; bool_to_Z; lia); intros c Hc; cbv beta in Hc; unfold is_ascii; lia.
  - apply rv_ok_arr in Hv. apply json_ok_arr. induction IH as [|x l Hx _ IHl]; inversion Hv; subst; constructor; auto.
  - apply rv_ok_obj in Hv as (_ & _ & _ & Hv). apply json_ok_obj.
    induction IH as [|x l Hx _ IHl]; inversion Hv as [|? ? [] ?]; subst; constructor; simpl; auto.
Qed.

(** What [encodeRowsJson] writes, [decodeRowsJson] reads back unchanged. *)
Lemma rows_roundtrip v : rv_ok v → decodeRowsJson (encodeRowsJson v) = Some v.
Proof.
  intros Hv. unfold decodeRowsJson, encodeRowsJson. pose proof (replace_ok v Hv) as Hj.
  rewrite text_stringify, json_parse_stringify by done. simpl. by apply revive_replace.
Qed.
End roundtrip.
