(* ===== verification/MlsTypes.v ===== *)
(** Data of the MLS sessions ([mls/types.ts]): certificates and members, the
    inner plaintext codec, rows as stored, and the state store. *)
From S2P Require Import Prelude JsString JsMap Utf8 Json Verification Wire HttpTransport HttpCalls MlsRows.

(** * Certificates and members *)

Inductive MlsCertificateStatus := c_valid | c_invalid | c_unknown.

#[global] Instance MlsCertificateStatus_eq_dec : EqDecision MlsCertificateStatus.
Proof. solve_decision. Defined.

(** [sig] and [signer_key] are [None] when they are not strings. *)
Record MlsDeviceCertificate := {
  ct_v : Z; ct_wallet : jsstr; ct_device_id : jsstr; ct_mls_key : jsstr; ct_issued_at_ms : Z;
  ct_sig : option jsstr; ct_signer_key : option jsstr; ct_authority_key : option jsstr;
}.

#[global] Instance MlsDeviceCertificate_eq_dec : EqDecision MlsDeviceCertificate.
Proof. solve_decision. Defined.

Record MlsMember := {
  leafIndex : Z; identityHex : jsstr; signatureKeyHex : jsstr; mb_certificate : option MlsDeviceCertificate;
}.

#[global] Instance MlsMember_eq_dec : EqDecision MlsMember.
Proof. solve_decision. Defined.

(** [JSON.stringify(cert)]. *)
Definition certificate_json (c : MlsDeviceCertificate) : json :=
  JObj ([(js "v", num_json (ct_v c)); (js "wallet", JStr (ct_wallet c)); (js "device_id", JStr (ct_device_id c));
         (js "mls_key", JStr (ct_mls_key c)); (js "issued_at_ms", num_json (ct_issued_at_ms c))]
        ++ given "sig" JStr (ct_sig c) ++ given "signer_key" JStr (ct_signer_key c)
        ++ given "authority_key" JStr (ct_authority_key c)).

(** [JSON.parse(raw) as MlsDeviceCertificate]. *)
Definition certificate_of (v : json) : option MlsDeviceCertificate :=
  n ← field as_int v "v"; w ← field as_str v "wallet"; d ← field as_str v "device_id"; k ← field as_str v "mls_key";
  i ← field as_int v "issued_at_ms";
  Some {| ct_v := n; ct_wallet := w; ct_device_id := d; ct_mls_key := k; ct_issued_at_ms := i;
          ct_sig := field as_str v "sig"; ct_signer_key := field as_str v "signer_key";
          ct_authority_key := field as_str v "authority_key" |}.

(** * Inner plaintext *)

Record MlsInner := { in_nonce : bytes; in_keyVersion : Z; in_ciphertext : bytes }.

(** [dst.set(src, off)]; [None] is the [RangeError]. *)
Definition typed_set (dst src : bytes) (off : nat) : option bytes :=
  if (off + length src <=? length dst)%nat then Some (take off dst ++ src ++ drop (off + length src) dst) else None.

(** Big-endian bytes of a number, wrapping past the last. *)
Fixpoint be_bytes (k : nat) (n : Z) : bytes := match k with O => [] | S k => be_bytes k (n / 256) ++ [n mod 256] end.
Definition be_value (b : bytes) : Z := foldl (λ a x, a * 256 + x) 0 b.

Definition encodeInner (inner : MlsInner) : option bytes :=
  let out := 0x4d :: 0x01 :: replicate (12 + 8 + length (in_ciphertext inner)) 0 in
  out ← typed_set out (in_nonce inner) 2;
  out ← typed_set out (be_bytes 8 (in_keyVersion inner)) 14;
  typed_set out (in_ciphertext inner) 22.

Definition decodeInner (b : bytes) : option MlsInner :=
  if (length b <? 22 + 16)%nat || negb (bool_decide (b !! 0%nat = Some 0x4d)) || negb (bool_decide (b !! 1%nat = Some 0x01)) then None
  else Some {| in_nonce := take 12 (drop 2 b); in_keyVersion := be_value (take 8 (drop 14 b)); in_ciphertext := drop 22 b |}.

Lemma be_bytes_length k : ∀ n, length (be_bytes k n) = k.
Proof. induction k as [|k IH]; intros n; [done|]. simpl. rewrite length_app, IH. simpl. lia. Qed.

#[local] Ltac Zify.zify_post_hook ::= Z.div_mod_to_equations.

Lemma be_value_bytes k : ∀ n, 0 ≤ n < 256 ^ Z.of_nat k → be_value (be_bytes k n) = n.
Proof.
  induction k as [|k IH]; intros n Hn; [simpl in *; unfold be_value; simpl; lia|].
  rewrite Nat2Z.inj_succ, Z.pow_succ_r in Hn by lia. cbn [be_bytes]. unfold be_value in *. rewrite foldl_app, IH; simpl; lia.
Qed.

Lemma typed_set_at (a b c src : bytes) : length b = length src → typed_set (a ++ b ++ c) src (length a) = Some (a ++ src ++ c).
Proof.
  intros Hl. unfold typed_set. rewrite !length_app, (proj2 (Nat.leb_le _ _)) by lia. f_equal.
  rewrite take_app_length. do 2 f_equal. rewrite (assoc_L (++)), drop_app_length' by (rewrite length_app; lia). done.
Qed.

(** What an inner plaintext carries is read back: the nonce, the key version
    and the ciphertext, from a frame 22 bytes longer than the ciphertext. *)
Lemma inner_roundtrip inner :
  length (in_nonce inner) = 12%nat → 0 ≤ in_keyVersion inner < 2 ^ 64 → (16 ≤ length (in_ciphertext inner))%nat →
  ∃ b, encodeInner inner = Some b ∧ length b = (22 + length (in_ciphertext inner))%nat ∧ decodeInner b = Some inner.
Proof.
  destruct inner as [n v c]. simpl. intros Hn Hv Hc. unfold encodeInner. cbn [in_nonce in_keyVersion in_ciphertext].
  set (h := [0x4d; 0x01]).
  assert (0x4d :: 0x01 :: replicate (12 + 8 + length c) 0 = h ++ replicate 12 0 ++ (replicate 8 0 ++ replicate (length c) 0)) as ->.
  { by rewrite !replicate_add, <-(assoc_L (++)). }
  pose proof (be_bytes_length 8 v) as Hb.
  assert (∀ r, typed_set (h ++ replicate 12 0 ++ r) n 2 = Some (h ++ n ++ r)) as -> by (intros r; apply (typed_set_at h); by rewrite length_replicate).
  cbv beta iota delta [mbind option_bind].
  rewrite (assoc_L (++) h).
  assert (∀ r, typed_set ((h ++ n) ++ replicate 8 0 ++ r) (be_bytes 8 v) 14 = Some ((h ++ n) ++ be_bytes 8 v ++ r)) as ->.
  { intros r. rewrite <-(typed_set_at (h ++ n) (replicate 8 0) r (be_bytes 8 v)) by done. f_equal. by rewrite length_app, Hn. }
  cbv beta iota. rewrite (assoc_L (++) (h ++ n)).
  assert (typed_set (((h ++ n) ++ be_bytes 8 v) ++ replicate (length c) 0) c 22 = Some (((h ++ n) ++ be_bytes 8 v) ++ c)) as ->.
  { pose proof (typed_set_at ((h ++ n) ++ be_bytes 8 v) (replicate (length c) 0) [] c) as E3. rewrite !app_nil_r in E3.
    rewrite <-E3 by (by rewrite length_replicate). f_equal. by rewrite !length_app, Hn, Hb. }
  assert (be_value (be_bytes 8 v) = v) as Hw by (apply be_value_bytes; lia). revert Hb Hw. generalize (be_bytes 8 v) as w. intros w Hb Hw.
  eexists. split; [done|]. rewrite !length_app, Hn, Hb. split; [simpl; lia|].
  unfold decodeInner. rewrite !length_app, Hn, Hb, (proj2 (Nat.ltb_ge _ _)) by (simpl; lia). simpl. rewrite drop_0.
  rewrite <-(assoc_L (++)). do 2 f_equal.
  - by rewrite take_app_length'.
  - by rewrite drop_app_length', take_app_length'.
  - rewrite (assoc_L (++)), drop_app_length' by (rewrite length_app; lia). done.
Qed.

(** * Rows as stored *)

Definition rv_opt {A} (k : string) (f : A → rv) (o : option A) : list (jsstr * rv) :=
  match o with Some a => [(js k, f a)] | None => [] end.

Definition transfer_status_name (s : TokenTransferStatus) : jsstr :=
  match s with t_pending => js "pending" | t_success => js "success" | t_failed => js "failed" end.

Definition request_status_name (s : PaymentRequestStatus) : jsstr :=
  match s with
  | r_open => js "open" | r_rejected => js "rejected" | r_cancelled => js "cancelled" | r_expired => js "expired"
  | r_paid => js "paid"
  end.

Fixpoint rv_of_json (v : json) : rv :=
  match v with
  | JNull => RNull | JBool b => RBool b | JNum n => RNum n | JStr s => RStr s
  | JArr l => RArr (rv_of_json <$> l)
  | JObj l => RObj ((λ kv, (kv.1, rv_of_json kv.2)) <$> l)
  end.

Definition payment_rv (p : PaymentMetadata) : rv :=
  match p with
  | TransferMetadata d a s t r why w =>
      RObj ([(js "type", RStr (js "token_transfer")); (js "digest", RStr d); (js "assetKind", RStr (asset_kind_name a));
             (js "status", RStr (transfer_status_name s)); (js "to", RStr t)]
            ++ rv_opt "requestMessageId" RStr r ++ rv_opt "reason" RStr why ++ rv_opt "senderWallet" RStr w)
  | RequestMetadata a p s f d =>
      RObj ([(js "type", RStr (js "request_payment")); (js "assetKind", RStr (asset_kind_name a)); (js "payer", RStr p);
             (js "status", RStr (request_status_name s))]
            ++ rv_opt "fulfillingMessageId" RStr f ++ rv_opt "fulfilledDigest" RStr d)
  end.

Definition attachment_rv (a : Attachment) : rv :=
  RObj [(js "storageId", RStr (storageId a)); (js "nonce", RStr (att_nonce a));
        (js "encryptedMetadata", RStr (encryptedMetadata a)); (js "metadataNonce", RStr (metadataNonce a))].

Definition system_rv (s : SystemMessage) : rv :=
  RObj ([(js "type", RStr (sys_type s)); (js "member", RStr (sys_member s))] ++ rv_opt "actor" rv_of_json (sys_actor s)).

(** [{ ...row, encryptedText, nonce, keyVersion, senderVerified }] of [#processRow];
    a property that is [undefined] is left out. *)
Definition unwrapped_row (row : RelayerMessage) (inner : MlsInner) (senderVerified : bool) : rv :=
  RObj ([(js "messageId", RStr (messageId row)); (js "groupId", RStr (groupId row)); (js "order", RNum (order row));
         (js "encryptedText", RBytes (in_ciphertext inner)); (js "nonce", RBytes (in_nonce inner));
         (js "keyVersion", RBig (in_keyVersion inner)); (js "senderAddress", RStr (senderAddress row));
         (js "createdAt", RNum (Int (createdAt row))); (js "updatedAt", RNum (Int (updatedAt row)));
         (js "attachments", RArr (attachment_rv <$> attachments row)); (js "isEdited", RBool (isEdited row));
         (js "isDeleted", RBool (isDeleted row)); (js "syncStatus", RStr (syncStatus row))]
        ++ rv_opt "quiltPatchId" RStr (quiltPatchId row) ++ [(js "signature", RStr (signature row))]
        ++ rv_opt "signatureVersion" (λ z, RNum (Int z)) (signatureVersion row) ++ [(js "publicKey", RStr (publicKey row))]
        ++ rv_opt "principalOwner" RStr (principalOwner row) ++ rv_opt "subAgentId" RStr (subAgentId row)
        ++ rv_opt "identityClass" (λ z, RNum (Int z)) (identityClass row)
        ++ [(js "isAgentMessage", RBool (isAgentMessage row)); (js "kind", RStr (kind_name (kind row)))]
        ++ rv_opt "system" system_rv (system row) ++ rv_opt "paymentMetadata" payment_rv (paymentMetadata row)
        ++ [(js "senderVerified", RBool senderVerified)]).

(** * The store *)

(** Rows are maps from [`${order}:${messageId}`] to the row. *)
Record MlsStateStore := {
  st_device : option (bytes * jsstr);          (* snapshot, deviceId *)
  st_cursors : list (jsstr * number);
  st_rows : list (jsstr * list (jsstr * rv));
  st_meta : list (jsstr * jsstr);
}.

Definition new_store : MlsStateStore := {| st_device := None; st_cursors := []; st_rows := []; st_meta := [] |}.

Definition row_order (r : rv) : number := match rv_get r "order" with Some (RNum n) => n | _ => NaN end.

(** Stable order of [sort((a, b) => a.order - b.order)]. *)
Fixpoint row_insert (x : rv) (l : list rv) : list rv :=
  match l with
  | [] => [x]
  | y :: l' => if num_le (row_order x) (row_order y) then x :: l else y :: row_insert x l'
  end.
Definition sort_rows (l : list rv) : list rv := foldr row_insert [] l.

Section store.
Context `{JsonNumbers}.

(** [`${n}`] *)
Definition num_text (n : number) : jsstr :=
  match n with NaN => js "NaN" | PosInf => js "Infinity" | NegInf => js "-Infinity" | _ => num_print n end.

(** Stored rows have a number and a string there. *)
Definition row_key (r : rv) : jsstr :=
  num_text (row_order r) ++ js ":" ++ match rv_get r "messageId" with Some (RStr m) => m | _ => js "undefined" end.

Definition loadDevice (st : MlsStateStore) : option (bytes * jsstr) := st_device st.

Definition saveDevice (d : bytes * jsstr) (st : MlsStateStore) : MlsStateStore :=
  {| st_device := Some d; st_cursors := st_cursors st; st_rows := st_rows st; st_meta := st_meta st |}.

Definition getCursor (g : jsstr) (st : MlsStateStore) : number := default (Int 0) (map_get g (st_cursors st)).

Definition setCursor (g : jsstr) (o : number) (st : MlsStateStore) : MlsStateStore :=
  {| st_device := st_device st; st_cursors := map_set g o (st_cursors st); st_rows := st_rows st; st_meta := st_meta st |}.

Definition group_rows (g : jsstr) (st : MlsStateStore) : list (jsstr * rv) := default [] (map_get g (st_rows st)).

Definition put_rows (rows : list rv) (m : list (jsstr * rv)) : list (jsstr * rv) := foldl (λ m r, map_set (row_key r) r m) m rows.

Definition putRows (g : jsstr) (rows : list rv) (st : MlsStateStore) : MlsStateStore :=
  {| st_device := st_device st; st_cursors := st_cursors st;
     st_rows := map_set g (put_rows rows (group_rows g st)) (st_rows st); st_meta := st_meta st |}.

Definition listRows (g : jsstr) (before : option number) (limit : nat) (st : MlsStateStore) : list rv :=
  let all := sort_rows (filter (λ r, match before with None => true | Some b => num_lt (row_order r) b end = true) (group_rows g st).*2) in
  drop (length all - limit) all.

Definition hasRows (g : jsstr) (rows : list rv) (st : MlsStateStore) : list jsstr :=
  filter (λ k, is_Some (map_get k (group_rows g st))) (row_key <$> rows).

Definition groupIds (st : MlsStateStore) : list jsstr := (st_rows st).*1.

Definition getMeta (k : jsstr) (st : MlsStateStore) : option jsstr := map_get k (st_meta st).

Definition setMeta (k : jsstr) (v : option jsstr) (st : MlsStateStore) : MlsStateStore :=
  {| st_device := st_device st; st_cursors := st_cursors st; st_rows := st_rows st;
     st_meta := match v with Some x => map_set k x (st_meta st) | None => map_delete k (st_meta st) end |}.

Definition clear (_ : MlsStateStore) : MlsStateStore := new_store.

(** * Lemmas on the store *)

Lemma getMeta_set k k' v st : getMeta k' (setMeta k v st) = if decide (k' = k) then v else getMeta k' st.
Proof. unfold getMeta, setMeta. simpl. destruct v; [apply map_get_set|apply map_get_delete]. Qed.

Lemma getCursor_set g g' o st : getCursor g' (setCursor g o st) = if decide (g' = g) then o else getCursor g' st.
Proof. unfold getCursor, setCursor. simpl. rewrite map_get_set. by case_decide. Qed.

Lemma group_rows_put g g' rows st :
  group_rows g' (putRows g rows st) = if decide (g' = g) then put_rows rows (group_rows g st) else group_rows g' st.
Proof. unfold group_rows, putRows. simpl. rewrite map_get_set. by case_decide. Qed.

(** Putting rows replaces what was under their keys, the last row of a key winning. *)
Lemma put_rows_get rows : ∀ m k, map_get k (put_rows rows m) =
  match list_find (λ r, row_key r = k) (reverse rows) with Some (_, r) => Some r | None => map_get k m end.
Proof.
  unfold put_rows. induction rows as [|r rows IH] using rev_ind; intros m k; [done|].
  rewrite foldl_app, reverse_snoc. simpl. rewrite map_get_set. destruct (decide (row_key r = k)) as [<-|Hk].
  - by rewrite decide_True.
  - rewrite decide_False by done. rewrite IH. by destruct (list_find _ (reverse rows)) as [[]|].
Qed.

Lemma put_rows_fresh rows m k : k ∉ (row_key <$> rows) → map_get k (put_rows rows m) = map_get k m.
Proof.
  intros Hk. rewrite put_rows_get. destruct (list_find _ _) as [[i r]|] eqn:E; [|done].
  apply list_find_Some in E as (Hi & Hr & _). exfalso. apply Hk, list_elem_of_fmap. exists r. split; [done|].
  apply elem_of_reverse. by eapply list_elem_of_lookup_2.
Qed.
End store.
