(* ===== verification/MlsCertificates.v ===== *)
(** MLS device certificates ([mls/certificates.ts], [mls/registry.ts]):
    verification of wallet signatures, and the cache that bounds how long a
    revoked device is still believed.

    The calls of the cache run one after the other, as the session's queue makes
    them.  Every await is a tick: [ce_now] is the device's clock during it, and
    the fullnode's answers are indexed by it. *)
From S2P Require Import Prelude JsString JsMap Utf8 TextDecoder Json Base64 Anchors Verification Wire HttpTransport HttpCalls.
From S2P Require Import MlsRows MlsTypes.

(** * The registry *)

Definition MLS_ROTATION_GRACE_MS : Z := 604800000.

Record MlsDeviceRecord := {
  authorityKey : jsstr; previousKey : jsstr; previousValidUntilMs : Z; generation : Z; registeredAtMs : Z;
  revokedAtMs : Z;
}.

(** [s.replace(/^0x/, '')] *)
Definition strip_0x (s : jsstr) : jsstr := if startsWith (js "0x") s then drop 2 s else s.

Section registry.
Context `{JsText}.

Definition registryKeyIsValid (r : MlsDeviceRecord) (keyHex : jsstr) (nowMs : Z) : bool :=
  if negb (revokedAtMs r =? 0) then false else
  let key := strip_0x (toLowerCase keyHex) in
  bool_decide (key = authorityKey r)
  || (negb (is_nil (previousKey r)) && bool_decide (key = previousKey r) && (nowMs <? previousValidUntilMs r)).

(** The bytes an authority key signs. *)
Definition certificateCanonicalV2 (wallet device_id mls_key : jsstr) (issued_at_ms : Z) (authority_key : jsstr) : jsstr :=
  let hex h := toLowerCase (strip_0x (trim h)) in
  js "myso-mls-device-v2:" ++ toLowerCase (trim wallet) ++ js ":" ++ trim device_id ++ js ":" ++ hex mls_key ++ js ":"
  ++ dec_Z issued_at_ms ++ js ":" ++ hex authority_key.

Context `{HexCodec}.

(** An [Ed25519Keypair]: its public key and [sign]. *)
Record Authority := { au_public : bytes; au_sign : bytes → bytes }.

Definition issueCertificateV2 (authority : Authority) (wallet device_id mls_key : jsstr) (issued_at_ms : Z) : MlsDeviceCertificate :=
  let authority_key := toHex (au_public authority) in
  let w := toLowerCase (trim wallet) in
  let d := trim device_id in
  let k := toLowerCase (strip_0x (trim mls_key)) in
  let sig := au_sign authority (utf8_encode (certificateCanonicalV2 w d k issued_at_ms authority_key)) in
  {| ct_v := 2; ct_wallet := w; ct_device_id := d; ct_mls_key := k; ct_issued_at_ms := issued_at_ms;
     ct_sig := Some (toHex sig); ct_signer_key := Some (js "authority"); ct_authority_key := Some authority_key |}.
End registry.

(** * Wallet signatures *)

(** A parsed zkLogin signature. *)
Record ZkSignature := { iss_value : jsstr; iss_indexMod4 : Z; addressSeed : jsstr; maxEpoch : jsstr }.

(** Of the MySo SDK; [None] is a throw or a rejection. *)
Class CertificateLib := {
  Ed25519PublicKey : Type;
  new_Ed25519PublicKey : bytes → option Ed25519PublicKey;
  verifyPersonalMessage : Ed25519PublicKey → bytes → jsstr → option bool;
  ed_address : Ed25519PublicKey → jsstr;
  parseZkLoginSignature : bytes → option ZkSignature;
  computeZkLoginAddressFromSeed : Z → jsstr → bool → option jsstr;
}.

Definition ZKLOGIN_FLAG : Z := 0x05.
Definition B64URL : jsstr := js "ABCDEFGHIJKLMNOPQRSTUVWXYZabcdefghijklmnopqrstuvwxyz0123456789-_".

(** The bits of the characters, high bit first; [None] is the throw. *)
Fixpoint claim_bits (value : jsstr) : option (list Z) :=
  match value with
  | [] => Some []
  | ch :: value' =>
      idx ← indexOf ch B64URL; rest ← claim_bits value';
      Some (((λ b, (Z.of_nat idx / 2 ^ b) mod 2) <$> [5; 4; 3; 2; 1; 0]) ++ rest)
  end.

(** Groups of eight bits as bytes, for a multiple of eight. *)
Fixpoint bits_bytes (fuel : nat) (bits : list Z) : bytes :=
  match fuel with
  | O => []
  | S f => foldl (λ acc bit, Z.lor (Z.shiftl acc 1) bit) 0 (take 8 bits) :: bits_bytes f (drop 8 bits)
  end.

(** [s.slice(0, -n)] *)
Definition drop_last {A} (n : nat) (l : list A) : list A := take (length l - n) l.

Definition endsWith (c : Z) (s : jsstr) : bool := bool_decide (last s = Some c).

Section verifier.
Context `{JsonNumbers} `{JsText} `{HexCodec} `{CertificateLib}.

(** [None] is any throw. *)
Definition decodeIssClaim (value : jsstr) (indexMod4 : Z) : option jsstr :=
  if (length value <? 2)%nat then None else
  bits ← claim_bits value;
  bits ← match Z.rem indexMod4 4 with 1 => Some (drop 2 bits) | 2 => Some (drop 4 bits) | 3 => None | _ => Some bits end;
  bits ← match Z.rem (indexMod4 + Z.of_nat (length value) - 1) 4 with
         | 2 => Some (drop_last 2 bits) | 1 => Some (drop_last 4 bits) | 0 => None | _ => Some bits end;
  if negb (Z.of_nat (length bits) mod 8 =? 0) then None else
  let claim := text_decode (bits_bytes (length bits / 8) bits) in
  if negb (endsWith 44 claim || endsWith 125 claim) then None else
  v ← json_parse (js "{" ++ drop_last 1 claim ++ js "}");
  match obj_get v (js "iss"), v with
  | Some (JStr iss), JObj l => if (length (remove_dups l.*1) =? 1)%nat then Some iss else None
  | _, _ => None
  end.

(** [None]: [BigInt(inputs.addressSeed)] throws. *)
Definition zkLoginAddressMatches (z : ZkSignature) (wallet : jsstr) : option bool :=
  match decodeIssClaim (iss_value z) (iss_indexMod4 z) with
  | None => Some false
  | Some iss =>
      seed ← StringToBigInt (addressSeed z);
      let target := toLowerCase wallet in
      Some (existsb (λ legacy, match computeZkLoginAddressFromSeed seed iss legacy with
                               | Some a => bool_decide (toLowerCase a = target)
                               | None => false
                               end) [false; true])
  end.

Definition verifyEd25519 (c : MlsDeviceCertificate) (sig signer : jsstr) (message : bytes) : MlsCertificateStatus :=
  match fromHex signer with
  | Some (0 :: key) =>
      if negb (length key =? 32)%nat then c_invalid else
      match new_Ed25519PublicKey key, fromHex sig with
      | Some pk, Some s =>
          match verifyPersonalMessage pk message (btoa (0 :: s ++ key)) with
          | Some true => if bool_decide (toLowerCase (ed_address pk) = toLowerCase (ct_wallet c)) then c_valid else c_invalid
          | _ => c_invalid
          end
      | _, _ => c_invalid
      end
  | _ => c_invalid
  end.

(** The hooks, at a tick; [None] inside is a rejection. *)
Record CertificateVerifierOptions := {
  verifyZkLogin_hook : option (nat → bytes → jsstr → jsstr → option bool);
  currentEpoch_hook : option (nat → option Z);
}.

(** The two awaits take place at [tick] and after it. *)
Definition verifyZkLogin (o : CertificateVerifierOptions) (tick : nat) (c : MlsDeviceCertificate) (sig : jsstr) (message : bytes) :
    option MlsCertificateStatus :=
  match fromHex sig with
  | Some (f :: rest) =>
      if negb (f =? ZKLOGIN_FLAG) then Some c_invalid else
      match parseZkLoginSignature rest with
      | None => Some c_invalid
      | Some parsed =>
          matches ← zkLoginAddressMatches parsed (ct_wallet c);
          if negb matches then Some c_invalid else
          match verifyZkLogin_hook o with
          | None => Some c_unknown
          | Some verify =>
              match verify tick message sig (ct_wallet c) with
              | None => Some c_unknown
              | Some true => Some c_valid
              | Some false =>
                  match currentEpoch_hook o with
                  | None => Some c_unknown
                  | Some epoch =>
                      match epoch (S tick), StringToBigInt (maxEpoch parsed) with
                      | Some e, Some m => Some (if m <? e then c_unknown else c_invalid)
                      | _, _ => Some c_unknown
                      end
                  end
              end
          end
      end
  | _ => Some c_invalid
  end.

(** [canonical] is the WASM module's; [None] when the returned promise rejects. *)
Definition createCertificateVerifier (canonical : MlsDeviceCertificate → option jsstr) (o : CertificateVerifierOptions)
    (tick : nat) (c : MlsDeviceCertificate) : option MlsCertificateStatus :=
  match ct_sig c, ct_signer_key c with
  | Some sig, Some signer =>
      if negb (ct_v c =? 1) then Some c_invalid else
      match canonical c with
      | None => Some c_invalid
      | Some text =>
          let message := utf8_encode text in
          if decide (signer = js "05") then verifyZkLogin o tick c sig message
          else Some (verifyEd25519 c sig signer message)
      end
  | _, _ => Some c_invalid
  end.
End verifier.

(** * The cache *)

Definition REGISTRY_TTL_MS : Z := 60 * 60 * 1000.
Definition REGISTRY_MAX_STALE_MS : Z := 24 * 60 * 60 * 1000.
Definition REGISTRY_PROPAGATION_MS : Z := 10 * 60 * 1000.

Record RegistryCacheEntry := { re_record : option MlsDeviceRecord; checkedAt : Z }.

Definition record_json (r : MlsDeviceRecord) : json :=
  JObj [(js "authorityKey", JStr (authorityKey r)); (js "previousKey", JStr (previousKey r));
        (js "previousValidUntilMs", num_json (previousValidUntilMs r)); (js "generation", num_json (generation r));
        (js "registeredAtMs", num_json (registeredAtMs r)); (js "revokedAtMs", num_json (revokedAtMs r))].

Definition record_of (o : option json) : option MlsDeviceRecord :=
  v ← o;
  a ← field as_str v "authorityKey"; p ← field as_str v "previousKey"; u ← field as_int v "previousValidUntilMs";
  g ← field as_int v "generation"; n ← field as_int v "registeredAtMs"; x ← field as_int v "revokedAtMs";
  Some {| authorityKey := a; previousKey := p; previousValidUntilMs := u; generation := g; registeredAtMs := n; revokedAtMs := x |}.

Definition entry_json (e : RegistryCacheEntry) : json :=
  JObj [(js "record", match re_record e with Some r => record_json r | None => JNull end);
        (js "checkedAt", num_json (checkedAt e))].

Definition entry_of (v : json) : option RegistryCacheEntry :=
  r ← field (optional record_of) v "record"; t ← field as_int v "checkedAt"; Some {| re_record := r; checkedAt := t |}.

(** [verifySignature], and the registry read at a tick: [None] is a network error. *)
Record CertificateV2Options := {
  verifySignature : jsstr → bool;
  lookup : nat → jsstr → jsstr → option (option MlsDeviceRecord);
}.

Record cert_config := {
  cf_verify : nat → MlsDeviceCertificate → option MlsCertificateStatus;
  cf_v2 : option CertificateV2Options;
  cf_now : nat → Z;
}.

Record certs := {
  cc_memory : list (jsstr * MlsCertificateStatus);
  cc_registry : list (jsstr * RegistryCacheEntry);
  cc_sigOk : list (jsstr * bool);
  cc_store : MlsStateStore;
  cc_ticks : nat;
}.

Definition reg_key (owner deviceId : jsstr) : jsstr := js "reg:" ++ owner ++ js ":" ++ deviceId.
Definition ok_key (digest : jsstr) : jsstr := js "cert-ok:" ++ digest.

(** The error is the verifier's rejection. *)
#[local] Notation cert_eff := (eff certs unit).

Section cache.
Context `{JsonNumbers} `{JsText} `{HexCodec} `{Sha256} (o : cert_config).

Definition set_memory (d : jsstr) (st : MlsCertificateStatus) (s : certs) : certs :=
  {| cc_memory := map_set d st (cc_memory s); cc_registry := cc_registry s; cc_sigOk := cc_sigOk s; cc_store := cc_store s; cc_ticks := cc_ticks s |}.
Definition set_registry (m : list (jsstr * RegistryCacheEntry)) (s : certs) : certs :=
  {| cc_memory := cc_memory s; cc_registry := m; cc_sigOk := cc_sigOk s; cc_store := cc_store s; cc_ticks := cc_ticks s |}.
Definition set_sigOk (d : jsstr) (b : bool) (s : certs) : certs :=
  {| cc_memory := cc_memory s; cc_registry := cc_registry s; cc_sigOk := map_set d b (cc_sigOk s); cc_store := cc_store s; cc_ticks := cc_ticks s |}.
Definition set_store (st : MlsStateStore) (s : certs) : certs :=
  {| cc_memory := cc_memory s; cc_registry := cc_registry s; cc_sigOk := cc_sigOk s; cc_store := st; cc_ticks := cc_ticks s |}.

(** The end of an await. *)
Definition tick (s : certs) : certs :=
  {| cc_memory := cc_memory s; cc_registry := cc_registry s; cc_sigOk := cc_sigOk s; cc_store := cc_store s; cc_ticks := S (cc_ticks s) |}.

Definition read_meta (k : jsstr) : cert_eff (option jsstr) := λ s, (Ok (getMeta k (cc_store s)), tick s).
Definition write_meta (k : jsstr) (v : option jsstr) : cert_eff unit := modify (λ s, tick (set_store (setMeta k v (cc_store s)) s)).
Definition cert_now : cert_eff Z := λ s, (Ok (cf_now o (cc_ticks s)), s).

Definition digest_of (c : MlsDeviceCertificate) : jsstr :=
  toHex (sha256 (utf8_encode (stringify (JArr (
    [num_json (ct_v c); JStr (ct_wallet c); JStr (ct_device_id c); JStr (ct_mls_key c); num_json (ct_issued_at_ms c);
     match ct_sig c with Some x => JStr x | None => JNull end; match ct_signer_key c with Some x => JStr x | None => JNull end]
    ++ match ct_authority_key c with Some (a :: k) => [JStr (a :: k)] | _ => [] end))))).

Definition certificateDigest (c : MlsDeviceCertificate) : cert_eff jsstr := λ s, (Ok (digest_of c), tick s).

(** The entry in memory, else the one in the store. *)
Definition cached_entry (key : jsstr) : cert_eff (option RegistryCacheEntry) :=
  s ← get_state;
  match map_get key (cc_registry s) with
  | Some e => mret (Some e)
  | None =>
      saved ← read_meta key;
      mret (match saved with Some (x :: t) => json_parse (x :: t) ≫= entry_of | _ => None end)
  end.

(** [chain.lookup] during the current await. *)
Definition read_registry (v2 : CertificateV2Options) (owner deviceId : jsstr) : cert_eff (option (option MlsDeviceRecord)) :=
  λ s, (Ok (lookup v2 (cc_ticks s) owner deviceId), tick s).

Definition younger_than (limit now : Z) (entry : option RegistryCacheEntry) : bool :=
  match entry with Some e => now - checkedAt e <? limit | None => false end.

(** Registry answer within the TTL, else re-read; stale answers up to the hard limit. *)
Definition registryEntry (v2 : CertificateV2Options) (owner deviceId : jsstr) : cert_eff (option RegistryCacheEntry) :=
  let key := reg_key owner deviceId in
  now ← cert_now;
  entry ← cached_entry key;
  if younger_than REGISTRY_TTL_MS now entry then mret entry else
  answer ← read_registry v2 owner deviceId;
  match answer with
  | Some record =>
      let fresh := {| re_record := record; checkedAt := now |} in
      modify (λ s, set_registry (map_set key fresh (cc_registry s)) s);;
      write_meta key (Some (stringify (entry_json fresh)));;
      mret (Some fresh)
  | None => mret (if younger_than REGISTRY_MAX_STALE_MS now entry then entry else None)
  end.

Definition signature_ok (v2 : CertificateV2Options) (c : MlsDeviceCertificate) (digest : jsstr) : cert_eff bool :=
  s ← get_state;
  match map_get digest (cc_sigOk s) with
  | Some b => mret b
  | None =>
      let b := verifySignature v2 (stringify (certificate_json c)) in
      modify (set_sigOk digest b);; mret b
  end.

Definition statusV2 (c : MlsDeviceCertificate) : cert_eff MlsCertificateStatus :=
  match cf_v2 o, ct_authority_key c with
  | None, _ => mret c_unknown
  | Some _, (None | Some []) => mret c_invalid
  | Some v2, Some authority =>
      digest ← certificateDigest c;
      sigOk ← signature_ok v2 c digest;
      if negb sigOk then mret c_invalid else
      entry ← registryEntry v2 (toLowerCase (ct_wallet c)) (ct_device_id c);
      now ← cert_now;
      mret (match entry with
            | None => c_unknown
            | Some {| re_record := None |} => if now - ct_issued_at_ms c <? REGISTRY_PROPAGATION_MS then c_unknown else c_invalid
            | Some {| re_record := Some r |} => if registryKeyIsValid r authority now then c_valid else c_invalid
            end)
  end.

Definition verify (c : MlsDeviceCertificate) : cert_eff MlsCertificateStatus := λ s,
  (match cf_verify o (cc_ticks s) c with Some st => Ok st | None => Throw tt end, tick s).

Definition status (c : MlsDeviceCertificate) : cert_eff MlsCertificateStatus :=
  if ct_v c =? 2 then statusV2 c else
  digest ← certificateDigest c;
  s ← get_state;
  match map_get digest (cc_memory s) with
  | Some hit => mret hit
  | None =>
      saved ← read_meta (ok_key digest);
      if decide (saved = Some (js "1")) then modify (set_memory digest c_valid);; mret c_valid else
      st ← verify c;
      (if decide (st = c_valid) then write_meta (ok_key digest) (Some (js "1")) else mret tt);;
      (if decide (st = c_unknown) then mret tt else modify (set_memory digest st));;
      mret st
  end.

Definition forgetRegistry (owner deviceId : jsstr) : cert_eff unit :=
  let key := reg_key (toLowerCase owner) deviceId in
  modify (λ s, set_registry (map_delete key (cc_registry s)) s);;
  write_meta key None.

Definition trust (c : MlsDeviceCertificate) : cert_eff unit :=
  if ct_v c =? 2 then mret tt else
  digest ← certificateDigest c;
  modify (set_memory digest c_valid);;
  write_meta (ok_key digest) (Some (js "1")).

(** A new session over the same store. *)
Definition restart (s : certs) : certs :=
  {| cc_memory := []; cc_registry := []; cc_sigOk := []; cc_store := cc_store s; cc_ticks := cc_ticks s |}.

(** The uses of a cache over its life; other code writes meta under other keys. *)
Inductive cert_op := CStatus (c : MlsDeviceCertificate) | CForget (owner deviceId : jsstr) | CTrust (c : MlsDeviceCertificate)
  | CRestart | CMeta (k : jsstr) (v : option jsstr).

Definition cert_step (s : certs) (op : cert_op) : certs :=
  match op with
  | CStatus c => (status c s).2
  | CForget w d => (forgetRegistry w d s).2
  | CTrust c => (trust c s).2
  | CRestart => restart s
  | CMeta k v => if startsWith (js "reg:") k || startsWith (js "cert-ok:") k then s else (write_meta k v s).2
  end.

Definition run_ops (s : certs) (ops : list cert_op) : certs := foldl cert_step s ops.

Definition new_certs (tick0 : nat) : certs :=
  {| cc_memory := []; cc_registry := []; cc_sigOk := []; cc_store := new_store; cc_ticks := tick0 |}.
End cache.

(** * Entries survive the store *)

Definition safe (z : Z) : Prop := Z.abs z ≤ 2 ^ 53 - 1.

Definition record_ok (r : MlsDeviceRecord) : Prop :=
  wf_str (authorityKey r) ∧ wf_str (previousKey r) ∧ safe (previousValidUntilMs r) ∧ safe (generation r) ∧ safe (registeredAtMs r)
  ∧ safe (revokedAtMs r).

Definition entry_ok (e : RegistryCacheEntry) : Prop := safe (checkedAt e) ∧ ∀ r, re_record e = Some r → record_ok r.

Lemma entry_of_json `{JsonNumbersLaws} e : entry_ok e → json_parse (stringify (entry_json e)) ≫= entry_of = Some e.
Proof.
  destruct e as [[[a p u g n x]|] t]; intros [Ht Hr]; simpl in Ht.
  - destruct (Hr _ eq_refl) as (Ha & Hp & Hu & Hg & Hn & Hx). simpl in Ha, Hp, Hu, Hg, Hn, Hx.
    rewrite json_parse_stringify; [done|]. unfold entry_json, record_json. cbn [re_record checkedAt].
    apply json_ok_obj. repeat (apply Forall_cons_2 || apply Forall_nil_2); (split; [apply wf_js|]); simpl; [|by apply num_stable_int].
    split_and!; try apply wf_js; try done; by apply num_stable_int.
  - rewrite json_parse_stringify; [done|]. apply json_ok_obj.
    repeat (apply Forall_cons_2 || apply Forall_nil_2); (split; [apply wf_js|]); simpl; [done|by apply num_stable_int].
Qed.

(** * Revocation *)

Section revocation.
Context `{JsonNumbersLaws} `{JsText} `{HexCodec} `{Sha256} (o : cert_config) (v2 : CertificateV2Options).
Context (chain : Z → jsstr → jsstr → option MlsDeviceRecord).

(** The clock does not go back, and an answer is the chain's state at some time
    since it was asked for.  An owner is an address: the fullnode refuses one with a colon. *)
Record honest_registry : Prop := {
  v2_on : cf_v2 o = Some v2;
  clock_mono i j : (i ≤ j)%nat → cf_now o i ≤ cf_now o j;
  clock_safe i : safe (cf_now o i);
  lookup_honest i w d r : lookup v2 i w d = Some r →
    (58 ∉ w) ∧ (∀ x, r = Some x → record_ok x) ∧ ∃ τ, cf_now o i ≤ τ ∧ r = chain τ w d;
}.

(** An entry the chain gave, no earlier than its [checkedAt]. *)
Definition good_entry (k : jsstr) (e : RegistryCacheEntry) : Prop :=
  entry_ok e ∧ ∃ w d τ, k = reg_key w d ∧ (58 ∉ w) ∧ checkedAt e ≤ τ ∧ re_record e = chain τ w d.

Definition registry_inv (s : certs) : Prop :=
  (∀ k e, map_get k (cc_registry s) = Some e → good_entry k e)
  ∧ ∀ k v, getMeta k (cc_store s) = Some v → startsWith (js "reg:") k = true → ∃ e, v = stringify (entry_json e) ∧ good_entry k e.

Lemma reg_key_prefix w d : startsWith (js "reg:") (reg_key w d) = true.
Proof. apply startsWith_app. Qed.

Lemma ok_key_prefix d : startsWith (js "reg:") (ok_key d) = false.
Proof. done. Qed.

Lemma reg_key_inj w d w' d' : (58 ∉ w) → (58 ∉ w') → reg_key w d = reg_key w' d' → w = w' ∧ d = d'.
Proof.
  intros Hw Hw' E%app_inv_head. change (js ":" ++ d) with (58 :: d) in E. change (js ":" ++ d') with (58 :: d') in E.
  pose proof (indexOf_app 58 w d Hw) as Hl. rewrite E, (indexOf_app 58 w' d' Hw') in Hl. injection Hl as Hl.
  apply app_inj_1 in E as [-> E]; [|done]. by injection E as ->.
Qed.

Lemma inv_write_other k v : startsWith (js "reg:") k = false → keeps registry_inv (write_meta k v).
Proof.
  intros Hk. apply keeps_modify. intros s [Hr Hm]. split; [done|]. intros k' v' Hg Hp. simpl in Hg.
  rewrite getMeta_set in Hg. case_decide; [congruence|]. by apply Hm.
Qed.

Lemma inv_forget w d : keeps registry_inv (forgetRegistry w d).
Proof.
  unfold forgetRegistry. apply keeps_bind.
  - apply keeps_modify. intros s [Hr Hm]. split; [|done]. intros k e Hg. simpl in Hg. rewrite map_get_delete in Hg.
    case_decide; [done|]. by apply Hr.
  - intros []. apply keeps_modify. intros s [Hr Hm]. split; [done|]. intros k v Hg Hp. simpl in Hg. rewrite getMeta_set in Hg.
    case_decide; [done|]. by apply Hm.
Qed.

Context (Hreg : honest_registry).

(** What a registry answer guarantees, and when it is recent. *)
Definition entry_answer (w d : jsstr) (i : nat) (r : option RegistryCacheEntry) : Prop :=
  (∀ e, r = Some e → good_entry (reg_key w d) e ∧ cf_now o i - checkedAt e < REGISTRY_MAX_STALE_MS)
  ∧ ((∀ j, (i ≤ j)%nat → lookup v2 j w d ≠ None) → ∃ e, r = Some e ∧ cf_now o i - checkedAt e < REGISTRY_TTL_MS).

Lemma cached_entry_spec key s : startsWith (js "reg:") key = true → registry_inv s →
  ∃ r s', cached_entry key s = (Ok r, s') ∧ registry_inv s' ∧ (cc_ticks s ≤ cc_ticks s')%nat ∧ ∀ e, r = Some e → good_entry key e.
Proof.
  intros Hp [Hr Hm]. unfold cached_entry. rewrite (bind_ok _ _ s s s) by done.
  destruct (map_get key (cc_registry s)) as [e|] eqn:Ek.
  - exists (Some e), s. split_and!; [done|done|done|]. intros ? [= <-]. by apply Hr.
  - rewrite (bind_ok _ _ _ (getMeta key (cc_store s)) (tick s)) by done. eexists _, (tick s). split_and!; [done|done|simpl; lia|].
    intros e. destruct (getMeta key (cc_store s)) as [v|] eqn:Ev; [|done].
    destruct (Hm _ _ Ev Hp) as (e' & -> & Hg). pose proof (entry_of_json e' (proj1 Hg)) as Hj.
    destruct (stringify (entry_json e')) as [|x t]; [done|]. intros Heq. unfold mbind in Hj, Heq. rewrite Hj in Heq. by injection Heq as <-.
Qed.

Lemma registryEntry_spec w d s : registry_inv s →
  ∃ r s', registryEntry o v2 w d s = (Ok r, s') ∧ registry_inv s' ∧ (cc_ticks s ≤ cc_ticks s')%nat ∧ entry_answer w d (cc_ticks s) r.
Proof.
  intros Hs. destruct (cached_entry_spec (reg_key w d) s (reg_key_prefix w d) Hs) as (entry & s1 & E1 & Hs1 & Ht1 & He).
  unfold registryEntry. rewrite (bind_ok _ _ _ (cf_now o (cc_ticks s)) s), (bind_ok _ _ _ _ _ E1) by done.
  destruct (younger_than REGISTRY_TTL_MS _ entry) eqn:Ey.
  { destruct entry as [e|]; [|done]. simpl in Ey. bool_to_Z. eexists _, s1. split_and!; [done..|]. split.
    - intros ? [= <-]. split; [by apply He|]. unfold REGISTRY_TTL_MS, REGISTRY_MAX_STALE_MS in *. lia.
    - eauto. }
  rewrite (bind_ok _ _ _ (lookup v2 (cc_ticks s1) w d) (tick s1)) by done.
  destruct (lookup v2 (cc_ticks s1) w d) as [r|] eqn:El.
  - destruct (lookup_honest Hreg _ _ _ _ El) as (Hw & Hok & τ & Hτ & Hc).
    set (fresh := {| re_record := r; checkedAt := cf_now o (cc_ticks s) |}).
    pose proof (clock_mono Hreg _ _ Ht1) as Hmono.
    assert (good_entry (reg_key w d) fresh) as Hg.
    { split; [split; [apply (clock_safe Hreg)|done]|]. exists w, d, τ. split_and!; [done|done|simpl; lia|done]. }
    eexists _, _. split; [reflexivity|]. split; [|split].
    + destruct Hs1 as [Hr Hm]. split.
      * intros k e. simpl. rewrite map_get_set. case_decide as Ek; [intros [= <-]; by subst|apply Hr].
      * intros k v. simpl. rewrite getMeta_set. case_decide as Ek; [intros [= <-] _; subst; by exists fresh|apply Hm].
    + simpl. lia.
    + split; [intros e [= <-]; split; [done|]|intros _; exists fresh; split; [done|]]; simpl;
        unfold REGISTRY_MAX_STALE_MS, REGISTRY_TTL_MS; lia.
  - eexists _, (tick s1). split; [reflexivity|]. split_and!; [done|simpl; lia|]. split.
    + intros e. destruct (younger_than REGISTRY_MAX_STALE_MS _ entry) eqn:Em; [|done]. intros ->. simpl in Em. bool_to_Z.
      split; [by apply He|done].
    + intros Hall. by destruct (Hall _ Ht1).
Qed.
Lemma inv_signature_ok c d : keeps registry_inv (signature_ok v2 c d).
Proof. apply keeps_bind; [apply keeps_get|]. intros s. destruct (map_get _ _); [apply keeps_ret|]. apply keeps_bind; [by apply keeps_modify|intros; apply keeps_ret]. Qed.

(** A [statusV2] call that gets past the signature asks the registry once. *)
Lemma statusV2_spec c s : registry_inv s →
  let w := toLowerCase (ct_wallet c) in
  ∃ st s', statusV2 o c s = (Ok st, s') ∧ registry_inv s'
    ∧ (st = c_invalid ∨ ∃ r i now authority, entry_answer w (ct_device_id c) i r ∧ (cc_ticks s ≤ i)%nat
        ∧ st = match r with
               | None => c_unknown
               | Some {| re_record := None |} => if now - ct_issued_at_ms c <? REGISTRY_PROPAGATION_MS then c_unknown else c_invalid
               | Some {| re_record := Some x |} => if registryKeyIsValid x authority now then c_valid else c_invalid
               end).
Proof.
  intros Hs. cbv zeta. unfold statusV2. rewrite (v2_on Hreg). destruct (ct_authority_key c) as [[|a k]|]; [eexists _, s; eauto..| |eexists _, s; eauto].
  rewrite (bind_ok _ _ _ (digest_of c) (tick s)) by done.
  assert (∃ b s1, signature_ok v2 c (digest_of c) (tick s) = (Ok b, s1) ∧ registry_inv s1 ∧ cc_ticks s1 = S (cc_ticks s)) as (b & s1 & E1 & Hs1 & Ht).
  { pose proof (inv_signature_ok c (digest_of c) (tick s) Hs) as Hi. unfold signature_ok in *. rewrite (bind_ok _ _ (tick s) (tick s) (tick s)) in * by done.
    destruct (map_get _ _); [eexists _, _; by split_and!|]. eexists _, _. split; [reflexivity|]. by split. }
  rewrite (bind_ok _ _ _ _ _ E1). destruct b; [|eexists _, s1; eauto].
  destruct (registryEntry_spec (toLowerCase (ct_wallet c)) (ct_device_id c) s1 Hs1) as (r & s2 & E2 & Hs2 & Ht2 & Hr).
  cbn [negb]. rewrite (bind_ok _ _ _ _ _ E2), (bind_ok _ _ _ (cf_now o (cc_ticks s2)) s2) by done.
  eexists _, s2. split; [reflexivity|]. split; [done|]. right. exists r, (cc_ticks s1), (cf_now o (cc_ticks s2)), (a :: k).
  split_and!; [done|lia|done].
Qed.

Lemma inv_status c : keeps registry_inv (status o c).
Proof.
  unfold status. destruct (ct_v c =? 2).
  { intros s Hs. destruct (statusV2_spec c s Hs) as (st & s' & -> & Hs' & _). done. }
  apply keeps_bind; [by intros ? Hs|]. intros d. apply keeps_bind; [apply keeps_get|]. intros s.
  destruct (map_get d _); [apply keeps_ret|]. apply keeps_bind; [by intros ? Hs|]. intros saved.
  assert (∀ st, keeps registry_inv (modify (set_memory d st) : cert_eff unit)) as Hmem by (intros; by apply keeps_modify).
  case_decide; [apply keeps_bind; [done|intros; apply keeps_ret]|]. apply keeps_bind; [by intros ? Hs|]. intros st.
  apply keeps_bind; [case_decide; [by apply inv_write_other|apply keeps_ret]|]. intros [].
  apply keeps_bind; [case_decide; [apply keeps_ret|done]|]. intros []. apply keeps_ret.
Qed.

Lemma inv_step s op : registry_inv s → registry_inv (cert_step o s op).
Proof.
  intros Hs. destruct op as [c|w d|c| |k v]; unfold cert_step; [by apply inv_status|by apply inv_forget| |destruct Hs as [_ Hm]; by split|].
  - unfold trust. destruct (ct_v c =? 2); [done|]. apply (keeps_bind registry_inv); [by intros ? Hi| |done]. intros d.
    apply keeps_bind; [by intros ? Hi|]. intros []. by apply inv_write_other.
  - destruct (startsWith (js "reg:") k) eqn:E; [by cbn [orb]|]. cbn [orb]. destruct (startsWith (js "cert-ok:") k); [done|]. by apply inv_write_other.
Qed.

Lemma inv_run ops s : registry_inv s → registry_inv (run_ops o s ops).
Proof. revert s. induction ops as [|op ops IH]; intros s Hs; [done|]. by apply IH, inv_step. Qed.

Lemma inv_new tick0 : registry_inv (new_certs tick0).
Proof. split; done. Qed.

(** A revoked key is not valid whatever the time. *)
Lemma revoked_not_valid r k now : revokedAtMs r ≠ 0 → registryKeyIsValid r k now = false.
Proof. intros Hr. unfold registryKeyIsValid. by rewrite (proj2 (Z.eqb_neq _ _) Hr). Qed.

(** C33.  Revocation takes effect.  Take any life of the certificate cache
    (checks, forgotten and trusted entries, restarts, other writes to the store),
    with answers that are the chain's at the time.  From 24 hours after a device
    was revoked its v2 certificate is not valid, reachable fullnode or not; from
    one hour after, while the fullnode answers, it is invalid. *)
Theorem revocation_takes_effect ops tick0 c t0 :
  let w := toLowerCase (ct_wallet c) in
  let s := run_ops o (new_certs tick0) ops in
  let now := cf_now o (cc_ticks s) in
  ct_v c = 2 → (58 ∉ w) →
  (∀ τ, t0 ≤ τ → ∃ r, chain τ w (ct_device_id c) = Some r ∧ revokedAtMs r ≠ 0) →
  (t0 + REGISTRY_MAX_STALE_MS ≤ now → (status o c s).1 = Ok c_invalid ∨ (status o c s).1 = Ok c_unknown)
  ∧ (t0 + REGISTRY_TTL_MS ≤ now → (∀ j, (cc_ticks s ≤ j)%nat → lookup v2 j w (ct_device_id c) ≠ None) →
     (status o c s).1 = Ok c_invalid).
Proof.
  cbv zeta. intros Hv Hw Hrev. set (s := run_ops o (new_certs tick0) ops).
  assert (registry_inv s) as Hs by apply inv_run, inv_new.
  unfold status. rewrite Hv. cbn [Z.eqb Pos.eqb]. destruct (statusV2_spec c s Hs) as (st & s' & -> & _ & Hst). cbn [fst].
  assert (∀ e, good_entry (reg_key (toLowerCase (ct_wallet c)) (ct_device_id c)) e → t0 ≤ checkedAt e →
    ∃ x, re_record e = Some x ∧ revokedAtMs x ≠ 0) as Hgood.
  { intros e (_ & w' & d' & τ & Hk & Hw' & Hτ & Hc) He. apply reg_key_inj in Hk as [<- <-]; [|done..].
    destruct (Hrev τ) as (r & Hr & Hx); [lia|]. exists r. by rewrite Hc, Hr. }
  destruct Hst as [->|(r & i & now & authority & [Hold Hfresh] & Hi & ->)]; [by split; [left|]|].
  pose proof (clock_mono Hreg _ _ Hi) as Hmono. split.
  - intros Hnow. destruct r as [[[x|] t]|]; [| |by right].
    + destruct (Hold _ eq_refl) as [Hg Ht]. destruct (Hgood _ Hg) as (y & [= <-] & Hy); [simpl in *; lia|].
      left. by rewrite revoked_not_valid.
    + destruct (_ <? _); auto.
  - intros Hnow Hall. destruct Hfresh as (e & -> & Ht); [intros j Hj; apply Hall; lia|]. destruct (Hold _ eq_refl) as [Hg _].
    destruct (Hgood e Hg) as (y & Hy & Hz); [lia|]. destruct e as [[x|] t]; [|done]. injection Hy as ->. by rewrite revoked_not_valid.
Qed.
End revocation.

(** * Wallet-signed certificates *)

Section permanence.
Context `{JsonNumbers} `{JsText} `{HexCodec} `{Sha256} (o : cert_config).

(** Remembered as valid means written as valid. *)
Definition memory_inv (s : certs) : Prop :=
  ∀ d, map_get d (cc_memory s) = Some c_valid → getMeta (ok_key d) (cc_store s) = Some (js "1").

(** The digest is known valid, in this session or the next. *)
Definition known_valid (d : jsstr) (s : certs) : Prop :=
  getMeta (ok_key d) (cc_store s) = Some (js "1") ∧ (map_get d (cc_memory s) = None ∨ map_get d (cc_memory s) = Some c_valid).

Lemma ok_key_inj d d' : ok_key d = ok_key d' → d = d'.
Proof. apply app_inv_head. Qed.

Lemma reg_ok_key w d d' : reg_key w d ≠ ok_key d'.
Proof. done. Qed.

Lemma registryEntry_memory v2 w d s : let s' := (registryEntry o v2 w d s).2 in
  cc_memory s' = cc_memory s ∧ ∀ x, getMeta (ok_key x) (cc_store s') = getMeta (ok_key x) (cc_store s).
Proof.
  cbv zeta. unfold registryEntry, cached_entry, read_registry, write_meta, read_meta, cert_now. run_eff.
  repeat (case_match; simplify_eq/=); (split; [done|]); intros x; rewrite ?getMeta_set, ?decide_False by done; done.
Qed.

Lemma statusV2_memory c s : let s' := (statusV2 o c s).2 in
  cc_memory s' = cc_memory s ∧ ∀ x, getMeta (ok_key x) (cc_store s') = getMeta (ok_key x) (cc_store s).
Proof.
  cbv zeta. unfold statusV2, signature_ok, certificateDigest, cert_now. destruct (cf_v2 o) as [v2|]; [|by destruct (ct_authority_key c) as [[]|]].
  destruct (ct_authority_key c) as [[|a k]|]; [by split| |by split]. run_eff.
  destruct (map_get _ (cc_sigOk s)) as [[]|]; simpl; try (by split).
  2: destruct (verifySignature _ _); simpl; [|by split].
  all: match goal with |- context [registryEntry _ ?v ?w ?d ?s1] => pose proof (registryEntry_memory v w d s1) as Hm;
         destruct (registryEntry _ v w d s1) as [[]] end; done.
Qed.

(** What a call does to what is remembered of wallet-signed certificates. *)
Lemma status_memory c s : let s' := (status o c s).2 in
  (cc_memory s' = cc_memory s ∧ (∀ x, getMeta (ok_key x) (cc_store s') = getMeta (ok_key x) (cc_store s))
   ∧ ((status o c s).1 = Ok c_valid → ct_v c ≠ 2 → map_get (digest_of c) (cc_memory s) = Some c_valid))
  ∨ ∃ st, (status o c s).1 = Ok st ∧ st ≠ c_unknown ∧ map_get (digest_of c) (cc_memory s) = None
      ∧ cc_memory s' = map_set (digest_of c) st (cc_memory s)
      ∧ (getMeta (ok_key (digest_of c)) (cc_store s) = Some (js "1") → st = c_valid)
      ∧ (st = c_valid → getMeta (ok_key (digest_of c)) (cc_store s') = Some (js "1"))
      ∧ ∀ x, getMeta (ok_key x) (cc_store s') = getMeta (ok_key x) (cc_store s) ∨ x = digest_of c ∧ st = c_valid.
Proof.
  cbv zeta. unfold status. destruct (Z.eqb_spec (ct_v c) 2) as [Hv|Hv].
  { left. destruct (statusV2_memory c s) as [? ?]. by split_and!. }
  rewrite (bind_ok _ _ _ (digest_of c) (tick s)), (bind_ok _ _ (tick s) (tick s) (tick s)) by done. cbn [cc_memory tick].
  destruct (map_get (digest_of c) (cc_memory s)) as [hit|] eqn:Eh; [left; split_and!; [done..|]; by intros [= ->]|].
  rewrite (bind_ok _ _ _ (getMeta (ok_key (digest_of c)) (cc_store s)) (tick (tick s))) by done.
  case_decide as Es.
  { right. exists c_valid. split_and!; try done. intros x. by left. }
  destruct (cf_verify o (cc_ticks (tick (tick s))) c) as [[| |]|] eqn:Ev; unfold verify.
  - right. exists c_valid. run_eff. rewrite Ev. simpl. split_and!; try done; [by rewrite getMeta_set, decide_True|].
    intros x. rewrite getMeta_set. case_decide as Ex; [right; by apply ok_key_inj in Ex|by left].
  - right. exists c_invalid. run_eff. rewrite Ev. simpl. split_and!; try done. intros x. by left.
  - left. run_eff. rewrite Ev. simpl. by split_and!.
  - left. run_eff. rewrite Ev. simpl. by split_and!.
Qed.

Lemma other_step s op : match op with CStatus _ => False | CTrust c => ct_v c = 2 | _ => True end →
  let s' := cert_step o s op in
  (cc_memory s' = cc_memory s ∨ cc_memory s' = []) ∧ ∀ x, getMeta (ok_key x) (cc_store s') = getMeta (ok_key x) (cc_store s).
Proof.
  destruct op as [c|w d|c| |k v]; intros Hop; cbv zeta; [done| | |by split; [right|]|].
  - split; [by left|]. intros x. simpl. by rewrite getMeta_set, decide_False.
  - unfold cert_step, trust. rewrite Hop. by split; [left|].
  - unfold cert_step. destruct (startsWith (js "reg:") k || startsWith (js "cert-ok:") k) eqn:E; [by split; [left|]|].
    split; [by left|]. intros x. simpl. rewrite getMeta_set, decide_False; [done|]. intros <-.
    apply orb_false_elim in E as [_ E]. by rewrite startsWith_app in E.
Qed.

Lemma trust_step s c : ct_v c ≠ 2 → let s' := cert_step o s (CTrust c) in
  cc_memory s' = map_set (digest_of c) c_valid (cc_memory s)
  ∧ ∀ x, getMeta (ok_key x) (cc_store s') = if decide (x = digest_of c) then Some (js "1") else getMeta (ok_key x) (cc_store s).
Proof.
  intros Hv. cbv zeta. unfold cert_step, trust. rewrite (proj2 (Z.eqb_neq _ _) Hv). split; [done|].
  intros x. simpl. rewrite getMeta_set. destruct (decide (x = digest_of c)) as [->|Hx]; [by rewrite decide_True|].
  by rewrite decide_False by (intros E; by apply ok_key_inj in E).
Qed.

Lemma memory_inv_step s op : memory_inv s → memory_inv (cert_step o s op).
Proof.
  intros Hs d. destruct op as [c|w d'|c| |k v].
  - unfold cert_step. destruct (status_memory c s) as [(Hm & Hg & _)|(st & _ & _ & _ & Hm & _ & Hnew & Hg)]; rewrite Hm; [rewrite Hg; apply Hs|].
    rewrite map_get_set. case_decide as Ed; [intros [= ->]; subst; by apply Hnew|]. intros Hd. destruct (Hg d) as [->|[? _]]; [by apply Hs|done].
  - destruct (other_step s (CForget w d')) as [[-> | ->] Hg]; [done|rewrite Hg; apply Hs|done].
  - destruct (decide (ct_v c = 2)) as [Hv|Hv].
    + destruct (other_step s (CTrust c)) as [[-> | ->] Hg]; [done|rewrite Hg; apply Hs|done].
    + destruct (trust_step s c Hv) as [-> ->]. rewrite map_get_set. case_decide; [done|apply Hs].
  - done.
  - destruct (other_step s (CMeta k v)) as [[-> | ->] Hg]; [done|rewrite Hg; apply Hs|done].
Qed.

Lemma known_step d s op : known_valid d s → known_valid d (cert_step o s op).
Proof.
  intros [Hk Hm]. destruct op as [c|w d'|c| |k v].
  - unfold cert_step. destruct (status_memory c s) as [(E & Hg & _)|(st & _ & _ & _ & E & Hold & Hnew & Hg)]; unfold known_valid; rewrite E.
    + by rewrite Hg.
    + rewrite map_get_set. destruct (decide (d = digest_of c)) as [->|Hd].
      * rewrite (Hold Hk). split; [by apply Hnew, Hold|by right].
      * split; [|done]. by destruct (Hg d) as [->|[? _]].
  - destruct (other_step s (CForget w d')) as [[E | E] Hg]; [done|..]; unfold known_valid; rewrite E, Hg; auto.
  - destruct (decide (ct_v c = 2)) as [Hv|Hv].
    + destruct (other_step s (CTrust c)) as [[E | E] Hg]; [done|..]; unfold known_valid; rewrite E, Hg; auto.
    + destruct (trust_step s c Hv) as [E Hg]. unfold known_valid. rewrite E, Hg, map_get_set. by repeat case_decide; auto.
  - split; [done|by left].
  - destruct (other_step s (CMeta k v)) as [[E | E] Hg]; [done|..]; unfold known_valid; rewrite E, Hg; auto.
Qed.

Lemma known_status c s : ct_v c ≠ 2 → known_valid (digest_of c) s → (status o c s).1 = Ok c_valid.
Proof.
  intros Hv [Hk Hm]. unfold status. rewrite (proj2 (Z.eqb_neq _ _) Hv).
  rewrite (bind_ok _ _ _ (digest_of c) (tick s)), (bind_ok _ _ (tick s) (tick s) (tick s)) by done. cbn [cc_memory tick].
  destruct Hm as [-> | ->]; [|done]. rewrite (bind_ok _ _ _ (Some (js "1")) (tick (tick s))); [done|]. unfold read_meta. do 2 f_equal. exact Hk.
Qed.

(** Verified once, verified for good; undecided, asked again.  A
    wallet-signed certificate found valid stays valid through any later use of
    the cache, restarts included, without asking the verifier again: an expired proof
    or a fullnode outage cannot take it back.  An [unknown] leaves no trace. *)
Lemma verified_stays_valid ops tick0 c ops' : ct_v c ≠ 2 →
  let s := run_ops o (new_certs tick0) ops in
  let s' := run_ops o (status o c s).2 ops' in
  ((status o c s).1 = Ok c_valid → (status o c s').1 = Ok c_valid)
  ∧ ((status o c s).1 = Ok c_unknown → cc_memory (status o c s).2 = cc_memory s
     ∧ ∀ x, getMeta (ok_key x) (cc_store (status o c s).2) = getMeta (ok_key x) (cc_store s)).
Proof.
  intros Hv. cbv zeta. set (s := run_ops o (new_certs tick0) ops). split.
  - intros Hok. apply known_status; [done|]. assert (memory_inv s) as Hs.
    { unfold s, run_ops. apply (foldl_ind (λ _, memory_inv)); [done|intros; by apply memory_inv_step]. }
    assert (known_valid (digest_of c) (status o c s).2) as Hk.
    { destruct (status_memory c s) as [(E & Hg & Hh)|(st & Est & _ & _ & E & _ & Hn & _)]; unfold known_valid; rewrite E.
      - rewrite Hg. split; [by apply Hs, Hh|right; by apply Hh].
      - assert (st = c_valid) as -> by congruence. rewrite map_get_set_eq. split; [by apply Hn|by right]. }
    unfold run_ops. apply (foldl_ind (λ _, known_valid (digest_of c))); [done|intros; by apply known_step].
  - intros Hu. destruct (status_memory c s) as [(E & Hg & _)|(st & Est & Hst & _)]; [done|congruence].
Qed.
End permanence.

(** * Outages *)

Section outages.
Context `{JsonNumbers} `{JsText} `{HexCodec} `{CertificateLib} (canonical : MlsDeviceCertificate → option jsstr).

(** Hooks that are missing or always reject. *)
Definition unreachable (o : CertificateVerifierOptions) : Prop :=
  ∀ verify, verifyZkLogin_hook o = Some verify → ∀ t m s w, verify t m s w = None.

(** The certificate's zkLogin proof has an address seed that is not a number. *)
Definition bad_seed (c : MlsDeviceCertificate) : Prop :=
  ct_v c = 1 ∧ ct_signer_key c = Some (js "05") ∧ is_Some (canonical c) ∧ ∃ sig rest parsed iss,
    ct_sig c = Some sig ∧ fromHex sig = Some (ZKLOGIN_FLAG :: rest) ∧ parseZkLoginSignature rest = Some parsed
    ∧ decodeIssClaim (iss_value parsed) (iss_indexMod4 parsed) = Some iss ∧ StringToBigInt (addressSeed parsed) = None.

Lemma zkLogin_unreachable down up t t' c sig m st : unreachable down → st ≠ Some c_unknown →
  verifyZkLogin down t c sig m = st → verifyZkLogin up t' c sig m = st.
Proof.
  intros Hd Hst. unfold verifyZkLogin. destruct (fromHex sig) as [[|f rest]|]; [done| |done]. destruct (negb _); [done|].
  destruct (parseZkLoginSignature rest) as [p|]; [|done]. destruct (zkLoginAddressMatches p _) as [b|]; [|done].
  cbn [mbind option_bind]. destruct (negb b); [done|]. destruct (verifyZkLogin_hook down) as [v|] eqn:Ev; [|by intros <-].
  rewrite (Hd v) by done. by intros <-.
Qed.

(** An outage condemns nobody.  What the verifier decides while the
    fullnode cannot be reached, valid or invalid, it decides whatever the fullnode
    would say; only an undecided certificate depends on it.  The one way it
    decides nothing at all, and throws, is a zkLogin proof whose address seed is not a
    number. *)
Lemma outage_condemns_nobody down up t t' c : unreachable down →
  (∀ st, createCertificateVerifier canonical down t c = Some st → st ≠ c_unknown →
     createCertificateVerifier canonical up t' c = Some st)
  ∧ (createCertificateVerifier canonical up t' c = None ↔ bad_seed c).
Proof.
  intros Hd. unfold createCertificateVerifier. split.
  - intros st. destruct (ct_sig c) as [sig|]; [|done]. destruct (ct_signer_key c) as [k|]; [|done]. destruct (negb _); [done|].
    destruct (canonical c) as [x|]; [|done]. case_decide; [|done]. intros Hz Hst. by eapply zkLogin_unreachable; [| |exact Hz]; [|congruence].
  - unfold bad_seed. destruct (ct_sig c) as [sig|]; [|split; [done|intros (_ & _ & _ & ? & ? & ? & ? & ? & _); done]].
    destruct (ct_signer_key c) as [k|]; [|split; [done|intros (_ & ? & _); done]].
    destruct (Z.eqb_spec (ct_v c) 1) as [Hv|Hv]; [|split; [done|intros (? & _); done]]. cbn [negb].
    destruct (canonical c) as [x|]; [|split; [done|intros (_ & _ & [? ?] & _); done]].
    case_decide as Hk; [|split; [done|intros (_ & [= ?] & _); done]]. unfold verifyZkLogin. subst k.
    destruct (fromHex sig) as [[|f rest]|] eqn:Ef.
    1,3: split; [done|intros (_ & _ & _ & ? & ? & ? & ? & [= <-] & ? & _); congruence].
    destruct (Z.eqb_spec f ZKLOGIN_FLAG) as [->|Hf]; cbn [negb]; [|split; [done|intros (_ & _ & _ & ? & ? & ? & ? & [= <-] & ? & _); congruence]].
    destruct (parseZkLoginSignature rest) as [p|] eqn:Ep; [|split; [done|intros (_ & _ & _ & ? & ? & ? & ? & [= <-] & ? & ? & _); congruence]].
    unfold zkLoginAddressMatches. destruct (decodeIssClaim (iss_value p) _) as [iss|] eqn:Ei;
      [|split; [done|intros (_ & _ & _ & ? & ? & ? & ? & [= <-] & ? & ? & ? & _); congruence]].
    destruct (StringToBigInt (addressSeed p)) as [seed|] eqn:Es; cbn [mbind option_bind].
    + split; [|intros (_ & _ & _ & ? & ? & ? & ? & [= <-] & ? & ? & ? & ?); congruence].
      intros Hn. exfalso. revert Hn. repeat (case_match; try done).
    + split; [intros _|done]. split_and!; [done|done|by eexists|]. by eexists sig, rest, p, iss.
Qed.
End outages.

(** * Witnesses *)

#[local] Existing Instances integer_numbers integer_numbers_laws ascii_text plain_hex.
#[local] Instance plain_sha : Sha256 := {| sha256 b := b |}.

(** An hour per await, for a thousand hours. *)
Definition toy_now (i : nat) : Z := Z.min (Z.of_nat i * 3600000) 3600000000.

(** A device revoked at five o'clock. *)
Definition toy_chain (t : Z) (_ _ : jsstr) : option MlsDeviceRecord := Some {|
  authorityKey := js "aa"; previousKey := []; previousValidUntilMs := 0; generation := 0; registeredAtMs := 0;
  revokedAtMs := if t <? 18000000 then 0 else 18000000 |}.

Definition toy_v2 : CertificateV2Options := {|
  verifySignature _ := true; lookup i w d := if decide (58 ∈ w) then None else Some (toy_chain (toy_now i) w d) |}.

Definition toy_certs_config : cert_config := {| cf_verify _ _ := Some c_valid; cf_v2 := Some toy_v2; cf_now := toy_now |}.

Definition toy_cert (v : Z) : MlsDeviceCertificate := {|
  ct_v := v; ct_wallet := js "0xA"; ct_device_id := js "phone"; ct_mls_key := js "k"; ct_issued_at_ms := 0; ct_sig := Some (js "00");
  ct_signer_key := Some (js "authority"); ct_authority_key := Some (js "0xAA") |}.

Lemma toy_honest : honest_registry toy_certs_config toy_v2 toy_chain.
Proof.
  split; [done|intros i j Hij; simpl; unfold toy_now; lia|intros i; simpl; unfold toy_now, safe; lia|].
  intros i w d r. simpl. case_decide as Hw; [done|]. intros [= <-]. split_and!; [done| |exists (toy_now i); split; [lia|done]].
  intros x [= <-]. unfold record_ok, safe. simpl. split_and!; try (apply wf_js || constructor || lia). destruct (_ <? _); lia.
Qed.

(** Valid when first seen, invalid once the day is over. *)
Definition a_day : list cert_op := CStatus (toy_cert 2) :: replicate 30 (CMeta (js "groups") None).

Lemma revocation_takes_effect_witness :
  (status toy_certs_config (toy_cert 2) (new_certs 0)).1 = Ok c_valid
  ∧ (status toy_certs_config (toy_cert 2) (run_ops toy_certs_config (new_certs 0) a_day)).1 = Ok c_invalid.
Proof.
  split; [vm_compute; reflexivity|].
  refine (proj2 (revocation_takes_effect toy_certs_config toy_v2 toy_chain toy_honest a_day 0 (toy_cert 2) 18000000 eq_refl _ _) _ _).
  - apply (bool_decide_unpack _). vm_compute. exact I.
  - intros τ Hτ. eexists. split; [reflexivity|]. simpl. rewrite (proj2 (Z.ltb_ge _ _) Hτ). lia.
  - vm_compute. discriminate.
  - intros j _. unfold toy_v2, lookup. rewrite decide_False; [discriminate|]. apply (bool_decide_unpack _). vm_compute. exact I.
Defined.

(** A verifier that only answers during the first call. *)
Definition early_verifier : cert_config := {|
  cf_verify t _ := Some (if (t <? 3)%nat then c_valid else c_unknown); cf_v2 := None; cf_now := toy_now |}.

Lemma verified_stays_valid_witness :
  let s := (status early_verifier (toy_cert 1) (new_certs 0)).2 in
  (status early_verifier (toy_cert 1) (run_ops early_verifier s [CRestart; CMeta (js "groups") None])).1 = Ok c_valid.
Proof.
  cbv zeta. refine (proj1 (verified_stays_valid early_verifier [] 0 (toy_cert 1) [CRestart; CMeta (js "groups") None] _) _); [discriminate|].
  vm_compute. reflexivity.
Defined.

(** Keys are their own bytes; one zkLogin proof parses, for an address that hashes anything. *)
#[local] Instance toy_cert_lib : CertificateLib := {|
  Ed25519PublicKey := bytes; new_Ed25519PublicKey b := Some b; verifyPersonalMessage _ _ _ := Some true; ed_address _ := js "0xa";
  parseZkLoginSignature b := Some {| iss_value := js "ImlzcyI6ImEiLA"; iss_indexMod4 := 0; addressSeed := b; maxEpoch := js "7" |};
  computeZkLoginAddressFromSeed _ _ _ := Some (js "0xa") |}.

Definition zk_cert (sig : string) : MlsDeviceCertificate := {|
  ct_v := 1; ct_wallet := js "0xA"; ct_device_id := js "phone"; ct_mls_key := js "k"; ct_issued_at_ms := 0; ct_sig := Some (js sig);
  ct_signer_key := Some (js "05"); ct_authority_key := None |}.

Definition offline : CertificateVerifierOptions := {| verifyZkLogin_hook := Some (λ _ _ _ _, None); currentEpoch_hook := None |}.
Definition rejecting : CertificateVerifierOptions :=
  {| verifyZkLogin_hook := Some (λ _ _ _ _, Some false); currentEpoch_hook := Some (λ _, Some 9) |}.

(** The seed 1 is undecided offline and past its epoch; the seed x makes the verifier throw. *)
Lemma outage_condemns_nobody_witness :
  let verify o c := createCertificateVerifier (λ _, Some (js "text")) o 0 c in
  verify offline (zk_cert "0531") = Some c_unknown ∧ verify rejecting (zk_cert "0531") = Some c_unknown
  ∧ (verify rejecting (zk_cert "0578") = None ↔ bad_seed (λ _, Some (js "text")) (zk_cert "0578"))
  ∧ verify rejecting (zk_cert "0578") = None.
Proof.
  cbv zeta. split; [vm_compute; reflexivity|]. split; [vm_compute; reflexivity|]. split; [|vm_compute; reflexivity].
  apply (outage_condemns_nobody (λ _, Some (js "text")) offline rejecting 0 0 (zk_cert "0578")).
  intros v. simpl. by intros [= <-].
Defined.
