(* ===== verification/MlsTrust.v ===== *)
(** What stands behind a certificate that the cache calls valid
    ([MlsCertificates.status]): over the life of a cache, restarts and the other
    uses of its store included, an answer [c_valid] goes back to a verification, to
    an explicit [trust], or to a signature and a registry answer that is still recent. *)
From S2P Require Import Prelude JsString JsMap Utf8 TextDecoder Json Base64 Anchors Verification Wire HttpTransport HttpCalls.
From S2P Require Import MlsRows MlsTypes MlsCertificates.

(** The names under which the cache stores its own values. *)
Definition cache_slot (k : jsstr) : bool := startsWith (js "reg:") k || startsWith (js "cert-ok:") k.

Section trust.
Context `{JsonNumbersLaws} `{JsText} `{HexCodec} `{Sha256} (o : cert_config) (trusted : MlsDeviceCertificate → Prop).

(** The life of a cache: it starts empty over a store without values of its own, is
    called, waits, and other code writes other values to the store.  [trusted] are
    the certificates the device itself vouches for, by [trust]. *)
Inductive cache_life : certs → Prop :=
  | life_begin st t : (∀ k, cache_slot k = true → getMeta k st = None) → cache_life (set_store st (new_certs t))
  | life_op s op : cache_life s → (∀ c, op = CTrust c → trusted c) → cache_life (cert_step o s op)
  | life_await s : cache_life s → cache_life (tick s)
  | life_store s st : cache_life s → (∀ k, cache_slot k = true → getMeta k st = getMeta k (cc_store s)) → cache_life (set_store st s).

(** A wallet-signed certificate with this digest was trusted, or accepted by the verifier before [j]. *)
Definition vouched (j : nat) (d : jsstr) : Prop :=
  ∃ c, digest_of c = d ∧ ct_v c ≠ 2 ∧ (trusted c ∨ ∃ t, (t < j)%nat ∧ cf_verify o t c = Some c_valid).

(** A certificate with this digest is signed by its authority key. *)
Definition signed_v2 (d : jsstr) : Prop :=
  ∃ v2 c, cf_v2 o = Some v2 ∧ digest_of c = d ∧ verifySignature v2 (stringify (certificate_json c)) = true.

(** The registry answered this of a device, no earlier than [checkedAt]. *)
Definition answered (j : nat) (w d : jsstr) (e : RegistryCacheEntry) : Prop :=
  ∃ v2 t0 t1, cf_v2 o = Some v2 ∧ (t0 ≤ t1 < j)%nat ∧ checkedAt e = cf_now o t0 ∧ lookup v2 t1 w d = Some (re_record e).

(** A certificate found valid between two points of the clock. *)
Definition checked_valid (c : MlsDeviceCertificate) (i j : nat) : Prop :=
  if decide (ct_v c = 2) then
    ∃ a authority e r t t', ct_authority_key c = Some (a :: authority) ∧ signed_v2 (digest_of c)
      ∧ answered j (toLowerCase (ct_wallet c)) (ct_device_id c) e ∧ re_record e = Some r
      ∧ (i ≤ t ≤ t')%nat ∧ (t' ≤ j)%nat
      ∧ cf_now o t - checkedAt e < REGISTRY_MAX_STALE_MS ∧ registryKeyIsValid r (a :: authority) (cf_now o t') = true
  else vouched j (digest_of c).

(** What the clock and the fullnode's registry answers look like: an owner is an
    address, so the fullnode refuses one with a colon. *)
Definition registry_answers : Prop := ∀ v2, cf_v2 o = Some v2 →
  (∀ i, safe (cf_now o i)) ∧ ∀ i w d r, lookup v2 i w d = Some r → (58 ∉ w) ∧ ∀ x, r = Some x → record_ok x.

(** * The invariant *)

Definition backed (j : nat) (k : jsstr) (e : RegistryCacheEntry) : Prop :=
  entry_ok e ∧ ∃ w d, k = reg_key w d ∧ (58 ∉ w) ∧ answered j w d e.

(** A stored value of the cache. *)
Definition backed_value (j : nat) (k v : jsstr) : Prop :=
  (∀ d, k = ok_key d → v = js "1" → vouched j d)
  ∧ (startsWith (js "reg:") k = true → ∃ e, v = stringify (entry_json e) ∧ backed j k e).

Record sound (s : certs) : Prop := {
  sd_memory d : map_get d (cc_memory s) = Some c_valid → vouched (cc_ticks s) d;
  sd_sig d : map_get d (cc_sigOk s) = Some true → signed_v2 d;
  sd_registry k e : map_get k (cc_registry s) = Some e → backed (cc_ticks s) k e;
  sd_store k v : getMeta k (cc_store s) = Some v → backed_value (cc_ticks s) k v;
}.

Lemma vouched_mono i j d : (i ≤ j)%nat → vouched i d → vouched j d.
Proof. intros Hij (c & Hd & Hv & [Hc|(t & Ht & Hc)]); exists c; split_and!; eauto. right. exists t. split; [lia|done]. Qed.

Lemma answered_mono i j w d e : (i ≤ j)%nat → answered i w d e → answered j w d e.
Proof. intros Hij (v2 & t0 & t1 & ? & ? & ? & ?). exists v2, t0, t1. split_and!; try done; lia. Qed.

Lemma backed_mono i j k e : (i ≤ j)%nat → backed i k e → backed j k e.
Proof. intros Hij (He & w & d & ? & ? & Ha). split; [done|]. exists w, d. split_and!; try done. by eapply answered_mono. Qed.

Lemma backed_value_mono i j k v : (i ≤ j)%nat → backed_value i k v → backed_value j k v.
Proof.
  intros Hij [Hok Hreg]. split; [intros d Hk Hv; eapply vouched_mono; eauto|].
  intros Hk. destruct (Hreg Hk) as (e & -> & He). exists e. split; [done|]. by eapply backed_mono.
Qed.

Lemma checked_mono c i j i' j' : checked_valid c i j → (i' ≤ i)%nat → (j ≤ j')%nat → checked_valid c i' j'.
Proof.
  unfold checked_valid. intros Hc Hi Hj. case_decide; [|by eapply vouched_mono].
  destruct Hc as (a & k & e & r & t & t' & ? & ? & Ha & ? & ? & ? & ? & ?). exists a, k, e, r, t, t'.
  split_and!; try done; [by eapply answered_mono|lia..].
Qed.

Lemma sound_tick s : sound s → sound (tick s).
Proof.
  intros [Hm Hs Hr Hst]. split; simpl; intros.
  - eapply vouched_mono; [|eauto]. lia.
  - eauto.
  - eapply backed_mono; [|eauto]. lia.
  - eapply backed_value_mono; [|eauto]. lia.
Qed.

Lemma sound_memory d st s : sound s → (st = c_valid → vouched (cc_ticks s) d) → sound (set_memory d st s).
Proof.
  intros [Hm Hs Hr Hst] Hd. split; [|done..]. intros d' Hg. simpl in *. rewrite map_get_set in Hg.
  case_decide; [|by apply Hm]. subst d'. injection Hg as ->. by apply Hd.
Qed.

Lemma sound_sigOk d b s : sound s → (b = true → signed_v2 d) → sound (set_sigOk d b s).
Proof.
  intros [Hm Hs Hr Hst] Hd. split; [done| |done..]. intros d' Hg. simpl in *. rewrite map_get_set in Hg.
  case_decide; [|by apply Hs]. subst d'. injection Hg as ->. by apply Hd.
Qed.

Lemma sound_registry m s : sound s → (∀ k e, map_get k m = Some e → backed (cc_ticks s) k e) → sound (set_registry m s).
Proof. intros [Hm Hs Hr Hst] Hd. by split. Qed.

Lemma sound_store st s : sound s → (∀ k v, getMeta k st = Some v → backed_value (cc_ticks s) k v) → sound (set_store st s).
Proof. intros [Hm Hs Hr Hst] Hd. by split. Qed.

Lemma sound_meta k v s : sound s → match v with Some x => backed_value (cc_ticks s) k x | None => True end →
  sound (set_store (setMeta k v (cc_store s)) s).
Proof.
  intros Hs Hv. apply sound_store; [done|]. intros k' x. rewrite getMeta_set. case_decide; [intros ->; by subst|]. by apply (sd_store s Hs).
Qed.

Lemma slot_free k x j : cache_slot k = false → backed_value j k x.
Proof.
  unfold cache_slot. intros [Hr Hok]%orb_false_elim. split; [|congruence]. intros d ->. by rewrite startsWith_app in Hok.
Qed.

Lemma ok_value j d x : (x = js "1" → vouched j d) → backed_value j (ok_key d) x.
Proof. intros Hd. split; [|done]. intros d' E Hx. apply app_inv_head in E as <-. by apply Hd. Qed.

Lemma reg_value j w d e : backed j (reg_key w d) e → backed_value j (reg_key w d) (stringify (entry_json e)).
Proof. intros He. split; [done|]. intros _. by exists e. Qed.

(** * The calls keep it *)

Context (Hreg : registry_answers).

Lemma cached_entry_sound key s : startsWith (js "reg:") key = true → sound s →
  ∃ r s', cached_entry key s = (Ok r, s') ∧ sound s' ∧ (cc_ticks s ≤ cc_ticks s')%nat ∧ ∀ e, r = Some e → backed (cc_ticks s') key e.
Proof.
  intros Hp Hs. unfold cached_entry. rewrite (bind_ok _ _ s s s) by done.
  destruct (map_get key (cc_registry s)) as [e|] eqn:Ek.
  - exists (Some e), s. split_and!; [done|done|done|]. intros ? [= <-]. by apply (sd_registry s Hs).
  - rewrite (bind_ok _ _ _ (getMeta key (cc_store s)) (tick s)) by done. eexists _, (tick s).
    split_and!; [done|by apply sound_tick|simpl; lia|]. intros e. destruct (getMeta key (cc_store s)) as [v|] eqn:Ev; [|done].
    destruct (proj2 (sd_store s Hs _ _ Ev) Hp) as (e' & -> & Hg). pose proof (entry_of_json e' (proj1 Hg)) as Hj.
    destruct (stringify (entry_json e')) as [|x t]; [done|]. intros Heq. unfold mbind in Hj, Heq. rewrite Hj in Heq. injection Heq as <-.
    eapply backed_mono; [|exact Hg]. simpl. lia.
Qed.

Lemma registryEntry_sound v2 w d s : cf_v2 o = Some v2 → sound s →
  ∃ r s', registryEntry o v2 w d s = (Ok r, s') ∧ sound s' ∧ (cc_ticks s ≤ cc_ticks s')%nat
    ∧ ∀ e, r = Some e → backed (cc_ticks s') (reg_key w d) e ∧ cf_now o (cc_ticks s) - checkedAt e < REGISTRY_MAX_STALE_MS.
Proof.
  intros Ev2 Hs. destruct (cached_entry_sound (reg_key w d) s (reg_key_prefix w d) Hs) as (entry & s1 & E1 & Hs1 & Ht1 & He).
  destruct (Hreg v2 Ev2) as [Hsafe Hlook].
  unfold registryEntry. rewrite (bind_ok _ _ _ (cf_now o (cc_ticks s)) s), (bind_ok _ _ _ _ _ E1) by done.
  destruct (younger_than REGISTRY_TTL_MS _ entry) eqn:Ey.
  { destruct entry as [e|]; [|done]. simpl in Ey. bool_to_Z. eexists _, s1. split_and!; [done..|].
    intros ? [= <-]. split; [by apply He|]. unfold REGISTRY_TTL_MS, REGISTRY_MAX_STALE_MS in *. lia. }
  rewrite (bind_ok _ _ _ (lookup v2 (cc_ticks s1) w d) (tick s1)) by done.
  destruct (lookup v2 (cc_ticks s1) w d) as [r|] eqn:El.
  - destruct (Hlook _ _ _ _ El) as [Hw Hok].
    set (fresh := {| re_record := r; checkedAt := cf_now o (cc_ticks s) |}).
    assert (backed (S (cc_ticks s1)) (reg_key w d) fresh) as Hg.
    { split; [split; [apply Hsafe|done]|]. exists w, d. split_and!; [done|done|]. exists v2, (cc_ticks s), (cc_ticks s1). split_and!; try done; lia. }
    eexists _, _. split; [reflexivity|]. split; [|split].
    + apply sound_tick, sound_meta; [|by apply reg_value]. apply sound_registry; [by apply sound_tick|].
      intros k e. rewrite map_get_set. case_decide as Ek; [intros [= <-]; by subst|]. intros Hk.
      eapply backed_mono; [|by apply (sd_registry s1 Hs1)]. simpl. lia.
    + simpl. lia.
    + intros e [= <-]. split; [eapply backed_mono; [|exact Hg]; simpl; lia|]. simpl. unfold REGISTRY_MAX_STALE_MS. lia.
  - eexists _, (tick s1). split; [reflexivity|]. split_and!; [by apply sound_tick|simpl; lia|].
    intros e. destruct (younger_than REGISTRY_MAX_STALE_MS _ entry) eqn:Em; [|done]. intros ->. simpl in Em. bool_to_Z.
    split; [|done]. eapply backed_mono; [|by apply He]. simpl. lia.
Qed.

(** Sound afterwards, the clock not set back, and a valid answer is backed. *)
Definition status_post (c : MlsDeviceCertificate) (s : certs) (out : outcome unit MlsCertificateStatus * certs) : Prop :=
  sound out.2 ∧ (cc_ticks s ≤ cc_ticks out.2)%nat
  ∧ (out.1 = Ok c_valid → (58 ∉ toLowerCase (ct_wallet c)) → checked_valid c (cc_ticks s) (cc_ticks out.2)).

Lemma signature_ok_sound v2 c s : cf_v2 o = Some v2 → sound s →
  ∃ b s', signature_ok v2 c (digest_of c) s = (Ok b, s') ∧ sound s' ∧ cc_ticks s' = cc_ticks s ∧ (b = true → signed_v2 (digest_of c)).
Proof.
  intros Ev2 Hs. unfold signature_ok. rewrite (bind_ok _ _ s s s) by done.
  destruct (map_get _ (cc_sigOk s)) as [b|] eqn:Eb; [exists b, s; split_and!; try done; intros ->; by apply (sd_sig s Hs)|].
  assert (verifySignature v2 (stringify (certificate_json c)) = true → signed_v2 (digest_of c)) as Hsig by (intros; by exists v2, c).
  eexists _, _. split; [reflexivity|]. split_and!; [by apply sound_sigOk|done|done].
Qed.

Lemma statusV2_sound c s : ct_v c = 2 → sound s → status_post c s (statusV2 o c s).
Proof.
  intros Hv Hs. unfold status_post, statusV2. destruct (cf_v2 o) as [v2|] eqn:Ev2; [|by destruct (ct_authority_key c) as [[]|]].
  destruct (ct_authority_key c) as [[|a k]|] eqn:Ea; [done| |done].
  rewrite (bind_ok _ _ _ (digest_of c) (tick s)) by done.
  destruct (signature_ok_sound v2 c (tick s) Ev2 (sound_tick s Hs)) as (b & s1 & E1 & Hs1 & Ht1 & Hb). simpl in Ht1.
  rewrite (bind_ok _ _ _ _ _ E1). destruct b; [|simpl; split_and!; [done|lia|done]]. cbn [negb].
  destruct (registryEntry_sound v2 (toLowerCase (ct_wallet c)) (ct_device_id c) s1 Ev2 Hs1) as (r & s2 & E2 & Hs2 & Ht2 & Hr).
  rewrite (bind_ok _ _ _ _ _ E2), (bind_ok _ _ _ (cf_now o (cc_ticks s2)) s2) by done. simpl. split_and!; [done|lia|].
  intros Hok Hw. destruct r as [[[r|] at_]|]; [|by case_match|done].
  destruct (registryKeyIsValid r (a :: k) (cf_now o (cc_ticks s2))) eqn:Ek; [|done].
  destruct (Hr _ eq_refl) as [(_ & w & d & Ekey & Hw' & Hans) Hage]. apply reg_key_inj in Ekey as [<- <-]; [|done..].
  unfold checked_valid. rewrite decide_True by done. exists a, k, {| re_record := Some r; checkedAt := at_ |}, r, (cc_ticks s1), (cc_ticks s2).
  split_and!; try done; [by apply Hb|lia].
Qed.

Lemma status_sound c s : sound s → status_post c s (status o c s).
Proof.
  intros Hs. unfold status. destruct (Z.eqb_spec (ct_v c) 2) as [Hv|Hv]; [by apply statusV2_sound|].
  unfold status_post, checked_valid. rewrite (decide_False (P := ct_v c = 2)) by done.
  rewrite (bind_ok _ _ _ (digest_of c) (tick s)), (bind_ok _ _ (tick s) (tick s) (tick s)) by done. cbn [cc_memory tick].
  set (s1 := tick s). assert (sound s1) as Hs1 by by apply sound_tick.
  destruct (map_get (digest_of c) (cc_memory s)) as [hit|] eqn:Eh.
  { cbn [fst snd mret eff_ret]. split_and!; [done|simpl; lia|]. intros [= ->] _. by apply (sd_memory s1 Hs1). }
  rewrite (bind_ok _ _ s1 (getMeta (ok_key (digest_of c)) (cc_store s)) (tick s1)) by done.
  set (s2 := tick s1). assert (sound s2) as Hs2 by by apply sound_tick.
  case_decide as Es.
  { assert (vouched (cc_ticks s2) (digest_of c)) as Hd by (by apply (proj1 (sd_store s2 Hs2 _ _ Es))).
    run_eff. split_and!; [by apply sound_memory|simpl; lia|done]. }
  set (s3 := tick s2). assert (sound s3) as Hs3 by by apply sound_tick. unfold verify.
  destruct (cf_verify o (cc_ticks s2) c) as [st|] eqn:Ev.
  2: { rewrite (bind_throw _ _ s2 tt s3) by (by rewrite Ev). cbn [fst snd]. split_and!; [done|simpl; lia|done]. }
  rewrite (bind_ok _ _ s2 st s3) by (by rewrite Ev).
  assert (st = c_valid → vouched (cc_ticks s3) (digest_of c)) as Hd.
  { intros ->. exists c. split_and!; [done|done|]. right. exists (cc_ticks s2). split; [simpl; lia|done]. }
  destruct st.
  - run_eff. simpl. split_and!; [|lia|].
    + apply (sound_memory (digest_of c) c_valid (tick (set_store (setMeta (ok_key (digest_of c)) (Some (js "1")) (cc_store s3)) s3)));
        [|intros _; eapply vouched_mono; [|by apply Hd]; simpl; lia].
      apply sound_tick, (sound_meta (ok_key (digest_of c)) (Some (js "1")) s3 Hs3). apply ok_value. intros _. by apply Hd.
    + intros _ _. eapply vouched_mono; [|by apply Hd]. simpl. lia.
  - run_eff. simpl. split_and!; [by apply (sound_memory _ _ s3)|lia|done].
  - run_eff. simpl. split_and!; [done|lia|done].
Qed.

Lemma step_sound s op : sound s → (∀ c, op = CTrust c → trusted c) → sound (cert_step o s op).
Proof.
  intros Hs Ht. destruct op as [c|w d|c| |k v]; unfold cert_step.
  - by apply status_sound.
  - apply sound_tick, (sound_meta _ None (set_registry (map_delete (reg_key (toLowerCase w) d) (cc_registry s)) s)); [|done]. apply sound_registry; [done|].
    intros k e. rewrite map_get_delete. case_decide; [done|]. by apply (sd_registry s Hs).
  - unfold trust. destruct (Z.eqb_spec (ct_v c) 2) as [|Hv]; [done|].
    assert (∀ j, vouched j (digest_of c)) as Hd by (intros j; exists c; auto).
    apply sound_tick, (sound_meta _ (Some (js "1")) (set_memory (digest_of c) c_valid (tick s))); [|by apply ok_value].
    apply sound_memory; [|done]. by apply sound_tick.
  - destruct Hs. by split.
  - fold (cache_slot k). destruct (cache_slot k) eqn:Ek; [done|]. apply sound_tick, sound_meta; [done|]. destruct v; [by apply slot_free|done].
Qed.

Lemma life_sound s : cache_life s → sound s.
Proof.
  induction 1 as [st t Hst|s op _ IH Ht|s _ IH|s st _ IH Hst].
  - split; [done..|]. intros k v Hk. simpl in Hk. destruct (cache_slot k) eqn:Ek; [by rewrite Hst in Hk|by apply slot_free].
  - by apply step_sound.
  - by apply sound_tick.
  - apply sound_store; [done|]. intros k v Hk. destruct (cache_slot k) eqn:Ek; [|by apply slot_free]. rewrite Hst in Hk by done. by apply (sd_store s IH).
Qed.

(** A certificate the cache calls valid, at any point of its life, is checked. *)
Lemma status_checked c s : cache_life s → cache_life (status o c s).2 ∧ (cc_ticks s ≤ cc_ticks (status o c s).2)%nat
  ∧ ((status o c s).1 = Ok c_valid → (58 ∉ toLowerCase (ct_wallet c)) → checked_valid c (cc_ticks s) (cc_ticks (status o c s).2)).
Proof.
  intros Hs. destruct (status_sound c s (life_sound s Hs)) as (_ & Ht & Hc). split; [|done]. by apply (life_op s (CStatus c)).
Qed.
End trust.
