(* ===== verification/MlsSession.v ===== *)
(** An MLS session ([mls/session.ts]): one device's state across its groups, the
    commits it posts, and the reading of a group's log.

    The MLS engine (a WebAssembly module) is the class [MlsEngine]: a device and
    its group handles are values, and a call returns their new states.  The
    relayer, the chain and the clock are the environment [mls_env], indexed by the
    number of awaits so far ([cc_ticks]); they may answer anything.  What the
    session sends to the relayer is kept in [ms_sent].

    Public methods run one at a time ([#exclusive]).  The write of the list of
    known groups, which the code starts without waiting, is done at once: nothing
    but the certificate renewal, which waits for it, reads that list. *)
From S2P Require Import Prelude JsString JsMap Utf8 TextDecoder Json Verification Anchors Wire HttpTransport HttpCalls.
From S2P Require Import MlsRows MlsTypes MlsCertificates.

Definition MAX_COMMIT_ATTEMPTS : nat := 4.
Definition SYNC_PAGE : Z := 100.
Definition WELCOME_POLL_MS : Z := 5000.
Definition JOIN_BACKOFF_MS : Z := 30000.
Definition MAX_RESYNCS_PER_HOUR : nat := 3.

(** * The engine *)

Record Processed := { p_kind : jsstr; p_plaintext : option bytes; p_senderIdentity : option bytes }.

(** [None] is a throw; the states are those after the call in either case. *)
Class MlsEngine := {
  Device : Type;
  Group : Type;
  Reassembler : Type;
  snapshot : Device → bytes;
  restore : bytes → Device;
  identity : Device → bytes;
  keyPackage : Device → bytes * Device;
  createGroup : Device → bytes → Group * Device;
  join : Device → bytes → option Group * Device;
  rejoinExternal : Device → bytes → option (bytes * Group) * Device;
  deleteGroup : Device → bytes → Device;
  loadGroup : Device → bytes → option Group;
  epoch : Group → Z;
  isActive : Group → bool;
  membersJson : Group → list MlsMember;            (* parsed *)
  addMembers : Device → Group → list bytes → option (bytes * bytes) * Group * Device;
  removeLeaves : Device → Group → list Z → option bytes * Group * Device;
  selfUpdate : Device → Group → option bytes * Group * Device;
  commitPending : Device → Group → option (option bytes) * Group * Device;
  groupInfo : Device → Group → option bytes;
  encrypt : Device → Group → bytes → option bytes * Group * Device;
  process : Device → Group → bytes → option Processed * Group * Device;
  withIdentity : Device → bytes → Device;
  updateCredential : Device → Group → option bytes * Group * Device;
  leave : Device → Group → option bytes * Group * Device;
  DeviceKeys : Type;
  keys_publicKey : DeviceKeys → bytes;
  fromKeys : DeviceKeys → bytes → Device;
  new_reassembler : Reassembler;
  push : Reassembler → bytes → option bytes * Reassembler;
  mlsInspect : bytes → option jsstr;
  mlsKeyPackageCertificate : bytes → option jsstr;
  mlsCertificateCanonical : jsstr → jsstr → jsstr → Z → jsstr;
  mlsHistorySplit : jsstr → bytes → list bytes;
}.

(** * The world *)

Record ClaimedKeyPackage := { cl_wallet : jsstr; cl_deviceId : jsstr; cl_keyPackage : bytes }.

(** Answers at a tick; [None] outside is a rejected promise. *)
Record mls_env := {
  en_certs : cert_config;
  en_wallet : jsstr;                                             (* [#id]'s address, in lower case *)
  en_deviceId : jsstr;
  en_keyPackageTarget : option nat;
  en_onChainReaders : option (nat → jsstr → option (list jsstr));
  en_verifyRow : nat → RelayerMessage → option bool;
  en_historyShareDays : option (nat → jsstr → option Z);
  en_randomUUID : nat → jsstr;
  en_postControlRow : nat → jsstr → bytes → option bool;
  en_fetchRows : nat → jsstr → number → option (list RelayerMessage * bool);
  en_postGroupInfo : nat → jsstr → bytes → bool;                 (* [false]: rejected *)
  en_getGroupInfo : nat → jsstr → option (option bytes);
  en_claimKeyPackages : nat → list jsstr → option (list ClaimedKeyPackage);
  en_postWelcome : nat → jsstr → list (jsstr * jsstr) → bytes → bool;
  en_takeWelcomes : nat → option (list (jsstr * bytes));
  en_putKeyPackages : nat → list bytes → bool;
  en_postAppRow : nat → jsstr → bytes → bool;
  en_deleteDevice : nat → bool;
  en_getSelfGroupInfo : nat → option (option bytes);
  en_putSelfGroupInfo : nat → bytes → bool;
  en_postSelfMessage : nat → bytes → option bool;
  en_fetchSelf : nat → number → option (list (number * bytes));
  en_historyRowsPerGroup : option nat;
}.

(** Requests that change the relayer's state, with the answer to a commit. *)
Inductive mls_request :=
  | PostControlRow (groupId : jsstr) (mls : bytes) (answer : option bool)
  | PostGroupInfo (groupId : jsstr) (info : bytes)
  | PostWelcome (groupId : jsstr) (recipients : list (jsstr * jsstr)) (welcome : bytes)
  | PutKeyPackages (kps : list bytes)
  | PostAppRow (groupId : jsstr) (mls : bytes)
  | DeleteDevice
  | PutSelfGroupInfo (info : bytes)
  | PostSelfMessage (body : bytes) (answer : option bool)
  | PutBackupSegment (keyId : jsstr) (body : bytes)
  | DeleteBackup (keyId : jsstr).

Inductive MlsUnavailableReason := no_device | not_joined | removed.

Inductive mls_error :=
  | NotAMember (groupId : jsstr)
  | KeptLosing (groupId : jsstr)
  | MlsMembersUnverifiedError (groupId : jsstr) (wallets : list jsstr)
  | MlsGroupUnavailableError (groupId : jsstr) (reason : MlsUnavailableReason)
  | EngineError
  | RelayerError
  | CertificateError              (* the certificate verifier rejects *)
  | BadData                       (* [JSON.parse] or a typed array throws *)
  | OutOfFuel.

Section session.
Context `{JsonNumbers} `{JsText} `{HexCodec} `{Sha256} `{MlsEngine}.

Record session := Session {
  ms_device : Device;
  ms_groups : list (jsstr * Group);
  ms_reassemblers : list (jsstr * Reassembler);
  ms_lastWelcomePoll : Z;
  ms_joinBackoff : list (jsstr * Z);
  ms_resyncs : list (jsstr * list Z);
  ms_desynced : list jsstr;
  ms_certs : certs;                       (* with the store and the clock's ticks *)
  ms_sent : list mls_request;             (* oldest first *)
}.

Definition set_device (d : Device) (s : session) : session :=
  Session d (ms_groups s) (ms_reassemblers s) (ms_lastWelcomePoll s) (ms_joinBackoff s) (ms_resyncs s) (ms_desynced s) (ms_certs s) (ms_sent s).
Definition set_groups (g : list (jsstr * Group)) (s : session) : session :=
  Session (ms_device s) g (ms_reassemblers s) (ms_lastWelcomePoll s) (ms_joinBackoff s) (ms_resyncs s) (ms_desynced s) (ms_certs s) (ms_sent s).
Definition set_reassemblers (r : list (jsstr * Reassembler)) (s : session) : session :=
  Session (ms_device s) (ms_groups s) r (ms_lastWelcomePoll s) (ms_joinBackoff s) (ms_resyncs s) (ms_desynced s) (ms_certs s) (ms_sent s).
Definition set_welcomePoll (t : Z) (s : session) : session :=
  Session (ms_device s) (ms_groups s) (ms_reassemblers s) t (ms_joinBackoff s) (ms_resyncs s) (ms_desynced s) (ms_certs s) (ms_sent s).
Definition set_joinBackoff (b : list (jsstr * Z)) (s : session) : session :=
  Session (ms_device s) (ms_groups s) (ms_reassemblers s) (ms_lastWelcomePoll s) b (ms_resyncs s) (ms_desynced s) (ms_certs s) (ms_sent s).
Definition set_resyncs (r : list (jsstr * list Z)) (s : session) : session :=
  Session (ms_device s) (ms_groups s) (ms_reassemblers s) (ms_lastWelcomePoll s) (ms_joinBackoff s) r (ms_desynced s) (ms_certs s) (ms_sent s).
Definition set_desynced (d : list jsstr) (s : session) : session :=
  Session (ms_device s) (ms_groups s) (ms_reassemblers s) (ms_lastWelcomePoll s) (ms_joinBackoff s) (ms_resyncs s) d (ms_certs s) (ms_sent s).
Definition set_certs (c : certs) (s : session) : session :=
  Session (ms_device s) (ms_groups s) (ms_reassemblers s) (ms_lastWelcomePoll s) (ms_joinBackoff s) (ms_resyncs s) (ms_desynced s) c (ms_sent s).
Definition add_sent (r : mls_request) (s : session) : session :=
  Session (ms_device s) (ms_groups s) (ms_reassemblers s) (ms_lastWelcomePoll s) (ms_joinBackoff s) (ms_resyncs s) (ms_desynced s) (ms_certs s) (ms_sent s ++ [r]).

Definition ms_store (s : session) : MlsStateStore := cc_store (ms_certs s).
Definition ms_ticks (s : session) : nat := cc_ticks (ms_certs s).
End session.

#[local] Notation mls := (eff session mls_error).

(** A [Set] of strings, as a list without repetition. *)
Definition set_add (x : jsstr) (l : list jsstr) : list jsstr := if decide (x ∈ l) then l else l ++ [x].
Definition set_remove (x : jsstr) (l : list jsstr) : list jsstr := filter (λ y, y ≠ x) l.

(** [Math.max(a, b)] *)
Definition num_max (a b : number) : number :=
  match a, b with NaN, _ | _, NaN => NaN | _, _ => if num_lt a b then b else a end.

Section operations.
Context `{JsonNumbers} `{JsText} `{HexCodec} `{Sha256} `{MlsEngine} (env : mls_env).

(** ** Awaits *)

Definition await : mls unit := modify (λ s, set_certs (tick (ms_certs s)) s).

Definition ask {A} (f : nat → A) : mls A := s ← get_state; await;; mret (f (ms_ticks s)).

Definition or_throw {A} (e : mls_error) (o : option A) : mls A := match o with Some a => mret a | None => throw e end.

Definition now : mls Z := s ← get_state; mret (cf_now (en_certs env) (ms_ticks s)).

Definition with_store {A} (f : MlsStateStore → A) : mls A := s ← get_state; await;; mret (f (ms_store s)).
Definition update_store (f : MlsStateStore → MlsStateStore) : mls unit :=
  modify (λ s, set_certs (set_store (f (ms_store s)) (ms_certs s)) s);; await.

(** A call of the certificate cache. *)
Definition certificate_status (c : MlsDeviceCertificate) : mls MlsCertificateStatus := λ s,
  match status (en_certs env) c (ms_certs s) with
  | (Ok st, c') => (Ok st, set_certs c' s)
  | (Throw _, c') => (Throw CertificateError, set_certs c' s)
  end.

(** [m.catch(() => a)] *)
Definition catch {A} (m : mls A) (a : A) : mls A := try_catch m (λ _, mret a).

(** ** Groups *)

Definition certificate : mls MlsDeviceCertificate :=
  s ← get_state; or_throw BadData (json_parse (text_decode (identity (ms_device s))) ≫= certificate_of).

Definition persist : mls unit := s ← get_state; update_store (saveDevice (snapshot (ms_device s), en_deviceId env)).

Definition rollback (snap : bytes) : mls unit := modify (λ s, set_device (restore snap) (set_groups [] s)).

Definition known_groups (st : MlsStateStore) : list jsstr :=
  match json_parse (match getMeta (js "groups") st with Some x => x | None => js "[]" end) with
  | Some v => default [] (as_list as_str (Some v))
  | None => []
  end.

Definition rememberGroup (key : jsstr) : mls unit :=
  modify (λ s,
    let known := known_groups (ms_store s) in
    if decide (key ∈ known) then s else
    set_certs (set_store (setMeta (js "groups") (Some (stringify (JArr (JStr <$> known ++ [key])))) (ms_store s)) (ms_certs s)) s).

Definition get_group (groupId : jsstr) : mls (option Group) :=
  let key := toLowerCase groupId in
  s ← get_state;
  match map_get key (ms_groups s) with
  | Some g => mret (Some g)
  | None =>
      match loadGroup (ms_device s) (utf8_encode key) with
      | Some g => modify (set_groups (map_set key g (ms_groups s)));; rememberGroup key;; mret (Some g)
      | None => mret None
      end
  end.

Definition setGroup (groupId : jsstr) (g : Group) : mls unit :=
  let key := toLowerCase groupId in
  modify (λ s, set_groups (map_set key g (ms_groups s)) s);; rememberGroup key.

(** An engine call on the cached handle of [key] and the device. *)
Definition on_group {A} (key : jsstr) (g : Group) (f : Device → Group → option A * Group * Device) : mls A :=
  s ← get_state;
  let '(r, g', d') := f (ms_device s) g in
  modify (λ s, set_device d' (set_groups (map_set key g' (ms_groups s)) s));;
  or_throw EngineError r.

Definition active_group (groupId : jsstr) : mls (option Group) :=
  g ← get_group groupId; mret (match g with Some g => if isActive g then Some g else None | None => None end).

Definition hasGroup (groupId : jsstr) : mls bool := g ← active_group groupId; mret (match g with Some _ => true | None => false end).

Definition is_desynced (key : jsstr) : mls bool := s ← get_state; mret (bool_decide (key ∈ ms_desynced s)).

Definition members (groupId : jsstr) : mls (list MlsMember) :=
  g ← get_group groupId; mret (match g with Some g => membersJson g | None => [] end).

(** A member's [certificate?.mls_key]. *)
Definition member_key (m : MlsMember) : option jsstr := ct_mls_key <$> mb_certificate m.

Definition leaf_of (key : jsstr) (l : list MlsMember) : option Z :=
  leafIndex <$> (snd <$> list_find (λ m, member_key m = Some key) l).

Definition myLeaf (g : Group) : mls (option Z) := c ← certificate; mret (leaf_of (ct_mls_key c) (membersJson g)).

Definition min_leaf (l : list MlsMember) : option Z :=
  match l with [] => None | m :: l' => Some (foldl (λ a x, Z.min a (leafIndex x)) (leafIndex m) l') end.

Definition isResponder (before : list MlsMember) (g : Group) : mls bool :=
  mine ← myLeaf g;
  mret (match mine, min_leaf before with Some x, Some y => x =? y | _, _ => false end).

Definition publishGroupInfo (groupId : jsstr) : mls unit :=
  g ← get_group groupId;
  match g with
  | None => mret tt
  | Some g =>
      s ← get_state;
      info ← or_throw EngineError (groupInfo (ms_device s) g);
      modify (add_sent (PostGroupInfo groupId info));;
      ask (λ t, en_postGroupInfo env t groupId info);;
      mret tt
  end.

Fixpoint keyPackages (n : nat) (d : Device) : list bytes * Device :=
  match n with
  | O => ([], d)
  | S n' => let '(k, d1) := keyPackage d in let '(l, d2) := keyPackages n' d1 in (k :: l, d2)
  end.

Definition publishKeyPackages (count : nat) : mls unit :=
  s ← get_state;
  let '(kps, d) := keyPackages count (ms_device s) in
  modify (set_device d);;
  persist;;
  certificate;;
  modify (add_sent (PutKeyPackages kps));;
  ok ← ask (λ t, en_putKeyPackages env t kps);
  if (ok : bool) then mret tt else throw RelayerError.

(** ** Commits *)

Context (fuel : nat).

Definition fetchRows (groupId : jsstr) (after : number) : mls (list RelayerMessage * bool) :=
  r ← ask (λ t, en_fetchRows env t groupId after); or_throw RelayerError r.

(** One page of [#findInLog]: found, or the cursor after it. *)
Fixpoint scan_page (b : bytes) (cursor : number) (rows : list RelayerMessage) : bool * number :=
  match rows with
  | [] => (false, cursor)
  | row :: rows' =>
      let cursor' := num_max cursor (order row) in
      if bool_decide (kind row = k_commit) && bool_decide (encryptedText row = b) then (true, cursor')
      else scan_page b cursor' rows'
  end.

Fixpoint find_loop (n : nat) (groupId : jsstr) (b : bytes) (cursor : number) : mls bool :=
  match n with
  | O => throw OutOfFuel
  | S n' =>
      page ← fetchRows groupId cursor;
      let '(found, cursor') := scan_page b cursor page.1 in
      if (found : bool) then mret true
      else if negb page.2 || is_nil page.1 then mret false
      else find_loop n' groupId b cursor'
  end.

Definition findInLog (groupId : jsstr) (b : bytes) : mls bool :=
  cursor ← with_store (getCursor groupId); find_loop fuel groupId b cursor.

Definition postCommit (groupId : jsstr) (commit : bytes) : mls bool :=
  r ← ask (λ t, en_postControlRow env t groupId commit);
  modify (add_sent (PostControlRow groupId commit r));;
  match r with
  | Some accepted => mret accepted
  | None =>
      found ← catch (b ← findInLog groupId commit; mret (Some b)) None;
      or_throw RelayerError found
  end.

(** ** Joining *)

Definition un_desync (key : jsstr) : mls unit := modify (λ s, set_desynced (set_remove key (ms_desynced s)) s).
Definition drop_group (key : jsstr) : mls unit := modify (λ s, set_groups (map_delete key (ms_groups s)) s).

(** [joinExternal], at most so many attempts. *)
Fixpoint join_loop (attempts : nat) (key : jsstr) : mls bool :=
  match attempts with
  | O => mret false
  | S attempts' =>
      info ← (r ← ask (λ t, en_getGroupInfo env t key); or_throw RelayerError r);
      match info with
      | None => mret false
      | Some info =>
          s ← get_state;
          let before := snapshot (ms_device s) in
          let '(j, d) := rejoinExternal (ms_device s) info in
          modify (set_device d);;
          j ← or_throw EngineError j;
          drop_group key;;
          accepted ← try_catch (postCommit key j.1) (λ e, rollback before;; throw e);
          if (accepted : bool) then
            setGroup key j.2;;
            un_desync key;;
            persist;;
            publishGroupInfo key;;
            mret true
          else rollback before;; join_loop attempts' key
      end
  end.

Definition joinExternal (key : jsstr) : mls bool := join_loop MAX_COMMIT_ATTEMPTS key.

Definition recent_resyncs (t : Z) (key : jsstr) (s : session) : list Z :=
  filter (λ x, t - 3600000 < x) (default [] (map_get key (ms_resyncs s))).

Definition mayResync (key : jsstr) : mls bool :=
  t ← now;
  s ← get_state;
  let recent := recent_resyncs t key s in
  modify (λ s, set_resyncs (map_set key recent (ms_resyncs s)) s);;
  if (MAX_RESYNCS_PER_HOUR <=? length recent)%nat then mret false
  else if t <? default 0 (map_get key (ms_joinBackoff s)) then mret false
  else modify (λ s, set_resyncs (map_set key (recent ++ [t]) (ms_resyncs s)) s);; mret true.

Definition back_off (key : jsstr) : mls unit :=
  t ← now; modify (λ s, set_joinBackoff (map_set key (t + JOIN_BACKOFF_MS) (ms_joinBackoff s)) s).

(** [onChainReaders(key).catch(() => null)]; [None] also when it is not configured. *)
Definition chain_readers (key : jsstr) : mls (option (list jsstr)) :=
  match en_onChainReaders env with Some f => ask (λ t, f t key) | None => mret None end.

Definition resync (key : jsstr) : mls bool :=
  modify (λ s, set_desynced (set_add key (ms_desynced s)) s);;
  may ← mayResync key;
  if negb may then mret false else
  readers ← chain_readers key;
  if match readers with Some l => negb (bool_decide (en_wallet env ∈ l)) | None => false end then
    modify (λ s, set_device (deleteGroup (ms_device s) (utf8_encode key)) s);;
    drop_group key;;
    un_desync key;;
    persist;;
    mret false
  else
    ok ← catch (joinExternal key) false;
    (if (ok : bool) then mret tt else back_off key);;
    mret ok.

(** ** History bundles *)

Definition is_candidate (key : jsstr) (r : rv) : bool :=
  match rv_get r "messageId", rv_get r "order", rv_get r "groupId", rv_get r "encryptedText" with
  | Some (RStr _), Some (RNum _), Some (RStr g), Some (RBytes _) => bool_decide (toLowerCase g = key)
  | _, _, _, _ => false
  end.

(** [Object.entries] of what can hold rows. *)
Definition entries (v : rv) : list (jsstr * rv) :=
  match v with RObj l => l | RArr l => imap (λ i x, (dec (Z.of_nat i), x)) l | _ => [] end.

Definition mark_row (trusted : bool) (r : rv) : rv :=
  rv_set r "senderVerified" (RBool (trusted && match rv_get r "senderVerified" with Some (RBool true) => true | _ => false end)).

Definition import_group (trusted : bool) (onlyGroup : option jsstr) (entry : jsstr * rv) : mls nat :=
  let key := toLowerCase entry.1 in
  if startsWith (js "self:") key then mret 0%nat
  else if match onlyGroup with Some (c :: g) => negb (bool_decide (key = c :: g)) | _ => false end then mret 0%nat
  else match entry.2 with
  | RArr rows =>
      let candidates := filter (λ r, is_candidate key r = true) rows in
      if is_nil candidates then mret 0%nat else
      have ← with_store (hasRows key candidates);
      let fresh := mark_row trusted <$> filter (λ r, row_key r ∉ have) candidates in
      (if is_nil fresh then mret tt else update_store (putRows key fresh));;
      mret (length fresh)
  | _ => mret 0%nat
  end.

Fixpoint import_groups (trusted : bool) (onlyGroup : option jsstr) (l : list (jsstr * rv)) : mls nat :=
  match l with
  | [] => mret 0%nat
  | e :: l' => n ← import_group trusted onlyGroup e; m ← import_groups trusted onlyGroup l'; mret (n + m)%nat
  end.

Definition importBundle (payload : bytes) (trusted : bool) (onlyGroup : option jsstr) : mls nat :=
  match decodeRowsJson payload with
  | None => mret 0%nat
  | Some bundle =>
      match rv_get bundle "v", rv_get bundle "groups" with
      | Some (RNum (Int 1)), Some groups => import_groups trusted onlyGroup (entries groups)
      | _, _ => mret 0%nat
      end
  end.

(** Share the last [days] of a group with newly joined members. *)
Fixpoint post_chunks (groupId : jsstr) (chunks : list bytes) : mls unit :=
  match chunks with
  | [] => mret tt
  | chunk :: chunks' =>
      g ← get_group groupId;
      match g with
      | None => mret tt
      | Some g =>
          body ← on_group (toLowerCase groupId) g (λ d g, encrypt d g chunk);
          modify (add_sent (PostAppRow groupId body));;
          ok ← ask (λ t, en_postAppRow env t groupId body);
          if (ok : bool) then persist;; post_chunks groupId chunks' else throw RelayerError
      end
  end.

Definition bundle_of (groups : list (jsstr * list rv)) : rv :=
  RObj [(js "v", RNum (Int 1)); (js "groups", RObj ((λ e, (e.1, RArr e.2)) <$> groups))].

Definition row_created (r : rv) : number := match rv_get r "createdAt" with Some (RNum n) => n | _ => NaN end.

Definition shareRecent (groupId : jsstr) (days : Z) : mls unit :=
  g ← active_group groupId;
  match g with
  | None => mret tt
  | Some _ =>
      t ← now;
      all ← with_store (listRows groupId None 2000);
      let rows := filter (λ r, num_le (Frac (t - days * 86400000, 1000%positive)) (row_created r) = true) all in
      if is_nil rows then mret tt else
      s ← get_state;
      post_chunks groupId (mlsHistorySplit (en_randomUUID env (ms_ticks s)) (encodeRowsJson (bundle_of [(groupId, rows)])))
  end.

(** ** Reading the log *)

Record Inspected := { i_kind : jsstr; i_groupId : option jsstr; i_epoch : option number }.

Definition inspect (b : bytes) : option Inspected :=
  raw ← mlsInspect b;
  v ← json_parse raw;
  if is_null v then None else
  Some {| i_kind := default [] (field as_str v "kind");
          i_groupId := match field as_str v "group_id" with Some g => Some g | None => field as_str v "groupId" end;
          i_epoch := field as_num v "epoch" |}.

Definition reassemble (key : jsstr) (plaintext : bytes) : mls (option bytes) :=
  s ← get_state;
  let r := default new_reassembler (map_get key (ms_reassemblers s)) in
  let '(bundle, r') := push r plaintext in
  modify (λ s, set_reassemblers (map_set key r' (ms_reassemblers s)) s);;
  mret bundle.

(** The wallet a sender's identity names; [[]] when it is not a certificate. *)
Definition sender_wallet (identity : bytes) : jsstr :=
  default [] (json_parse (text_decode identity) ≫= λ v, field as_str v "wallet").

(** [None]: MLS refused the message. *)
Definition processRow (key : jsstr) (g : Group) (row : RelayerMessage) : mls (option (option rv)) :=
  processed ← catch (p ← on_group key g (λ d g, process d g (encryptedText row)); mret (Some p)) None;
  match processed with
  | None => mret None
  | Some p =>
      if decide (p_kind p = js "own") then mret (if decide (kind row = k_commit) then None else Some None) else
      match p_plaintext p, p_senderIdentity p with
      | Some plaintext, Some sender =>
          if negb (bool_decide (p_kind p = js "application")) then mret (Some None) else
          match decodeInner plaintext with
          | None =>
              bundle ← reassemble key plaintext;
              (match bundle with Some b => n ← importBundle b false (Some key); mret tt | None => mret tt end);;
              mret (Some None)
          | Some inner =>
              verified ← (if decide (toLowerCase (sender_wallet sender) = toLowerCase (senderAddress row))
                          then v ← ask (λ t, en_verifyRow env t row); or_throw RelayerError v
                          else mret false);
              mret (Some (Some (unwrapped_row row inner verified)))
          end
      | _, _ => mret (Some None)
      end
  end.

(** A page being read: rows to store, the cursor, the days to share. *)
Record page_state := { pg_fresh : list rv; pg_last : number; pg_days : Z }.

Inductive page_end :=
  | PageRead (p : page_state)
  | Refetch (out : list rv)       (* resynced: read again from the cursor *)
  | Leave (out : list rv).

Definition skip_row (row : RelayerMessage) (p : page_state) : page_state :=
  {| pg_fresh := pg_fresh p; pg_last := num_max (pg_last p) (order row); pg_days := pg_days p |}.

(** The row cannot be applied: keep what was read, then resync once. *)
Definition out_of_step (key : jsstr) (p : page_state) (out : list rv) (resynced : bool) : mls page_end :=
  (if is_nil (pg_fresh p) then mret tt else update_store (putRows key (pg_fresh p)));;
  persist;;
  update_store (setCursor key (pg_last p));;
  if resynced then mret (Leave (out ++ pg_fresh p)) else
  ok ← resync key;
  mret (if (ok : bool) then Refetch (out ++ pg_fresh p) else Leave (out ++ pg_fresh p)).

(** Somebody new joined, and this device answers for the group. *)
Definition days_to_share (key : jsstr) (before : list MlsMember) (g : Group) (days : Z) : mls Z :=
  let had := (λ m, ct_wallet <$> mb_certificate m) <$> before in
  if existsb (λ m, negb (bool_decide ((ct_wallet <$> mb_certificate m) ∈ had))) (membersJson g) then
    responder ← isResponder before g;
    if (responder : bool) then
      match en_historyShareDays env with
      | Some f => d ← ask (λ t, f t key); or_throw RelayerError d
      | None => mret 0
      end
    else mret days
  else mret days.

Fixpoint rows_loop (key : jsstr) (rows : list RelayerMessage) (p : page_state) (out : list rv) (resynced : bool) : mls page_end :=
  match rows with
  | [] => mret (PageRead p)
  | row :: rows' =>
      if bool_decide (kind row = k_system) || isDeleted row then rows_loop key rows' (skip_row row p) out resynced else
      match inspect (encryptedText row) with
      | None => rows_loop key rows' (skip_row row p) out resynced
      | Some info =>
          if match i_groupId info with Some g => negb (bool_decide (toLowerCase g = key)) | None => false end
          then rows_loop key rows' (skip_row row p) out resynced else
          g ← (g ← get_group key; or_throw EngineError g);
          let at_epoch := Number_of_bigint (epoch g) in
          let commit := bool_decide (i_kind info = js "commit") in
          let ahead := match i_epoch info with Some e => num_lt at_epoch e | None => false end in
          let before := membersJson g in
          result ← (if ahead then mret None else processRow key g row);
          g ← (g ← get_group key; or_throw EngineError g);
          let ok := match result with Some _ => true | None => false end in
          let failedCommit := negb ok && commit && bool_decide (i_epoch info = Some at_epoch) in
          let was_removed := ok && commit && negb (isActive g) in
          if ahead || failedCommit || was_removed then out_of_step key p out resynced else
          days ← (if commit && ok then days_to_share key before g (pg_days p) else mret (pg_days p));
          rows_loop key rows' {| pg_fresh := pg_fresh p ++ match result with Some (Some r) => [r] | _ => [] end;
                                 pg_last := num_max (pg_last p) (order row); pg_days := days |} out resynced
      end
  end.

Fixpoint sync_loop (n : nat) (key : jsstr) (out : list rv) (resynced : bool) : mls (list rv) :=
  match n with
  | O => throw OutOfFuel
  | S n' =>
      g ← active_group key;
      match g with
      | None => mret out
      | Some _ =>
          cursor ← with_store (getCursor key);
          page ← fetchRows key cursor;
          r ← rows_loop key page.1 {| pg_fresh := []; pg_last := cursor; pg_days := 0 |} out resynced;
          match r with
          | Leave out => mret out
          | Refetch out => sync_loop n' key out true
          | PageRead p =>
              (if is_nil (pg_fresh p) then mret tt else update_store (putRows key (pg_fresh p)));;
              persist;;
              update_store (setCursor key (pg_last p));;
              let out := out ++ pg_fresh p in
              (if 0 <? pg_days p then catch (shareRecent key (pg_days p)) tt else mret tt);;
              if negb page.2 || is_nil page.1 then mret out else sync_loop n' key out resynced
          end
      end
  end.

(** [try m finally f]: what [f] throws replaces the outcome. *)
Definition finally {A} (m : mls A) (f : mls unit) : mls A := λ s,
  let '(r, s1) := m s in
  match f s1 with
  | (Ok _, s2) => (r, s2)
  | (Throw e, s2) => (Throw e, s2)
  end.

Definition sync (key : jsstr) : mls (list rv) :=
  g ← get_group key;
  let startEpoch := epoch <$> g in
  finally (sync_loop fuel key [] false)
    (g ← active_group key;
     match g, startEpoch with
     | Some g, Some e =>
         if decide (epoch g = e) then mret tt else
         mine ← myLeaf g;
         let leaves := sort_by id (leafIndex <$> membersJson g) in
         match mine with
         | Some x => if decide (x ∈ take 2 leaves) then publishGroupInfo key else mret tt
         | None => mret tt
         end
     | _, _ => mret tt
     end).

(** ** Commits built on the group *)

(** What a builder makes: the commit, the devices it adds, and what follows its acceptance. *)
Record built := { bt_commit : bytes; bt_added : nat; bt_afterAccept : mls unit }.

(** [true] is the commit that was accepted, [false] that nothing was to be done. *)
Fixpoint commit_loop (attempts : nat) (groupId : jsstr) (build : Group → mls (option built)) : mls (option built) :=
  match attempts with
  | O => throw (KeptLosing groupId)
  | S attempts' =>
      s ← get_state;
      let before := snapshot (ms_device s) in
      g ← active_group groupId;
      match g with
      | None => throw (NotAMember groupId)
      | Some g =>
          b ← build g;
          match b with
          | None => mret None
          | Some b =>
              accepted ← try_catch (postCommit groupId (bt_commit b)) (λ e, rollback before;; throw e);
              if (accepted : bool) then
                un_desync (toLowerCase groupId);;
                persist;;
                bt_afterAccept b;;
                publishGroupInfo groupId;;
                mret (Some b)
              else
                rollback before;;
                sync groupId;;
                commit_loop attempts' groupId build
          end
      end
  end.

Definition commit (groupId : jsstr) (build : Group → mls (option built)) : mls (option built) :=
  commit_loop MAX_COMMIT_ATTEMPTS groupId build.

(** A claimed KeyPackage this device checked, with the key of its certificate. *)
Record UsableKeyPackage := { us_claim : ClaimedKeyPackage; us_mlsKey : jsstr }.

Definition check_claim (wanted : list jsstr) (present : list (option jsstr)) (c : ClaimedKeyPackage) : mls (option UsableKeyPackage) :=
  if bool_decide (cl_wallet c = en_wallet env) && bool_decide (cl_deviceId c = en_deviceId env) then mret None else
  match mlsKeyPackageCertificate (cl_keyPackage c) with
  | None | Some [] => mret None
  | Some raw =>
      match json_parse raw ≫= certificate_of with
      | None => mret None
      | Some cert =>
          if negb (bool_decide (toLowerCase (ct_wallet cert) = toLowerCase (cl_wallet c))) || negb (bool_decide (ct_device_id cert = cl_deviceId c))
          then mret None
          else if negb (bool_decide (toLowerCase (ct_wallet cert) ∈ wanted)) || bool_decide (Some (ct_mls_key cert) ∈ present) then mret None
          else
            st ← certificate_status cert;
            mret (if decide (st = c_valid) then Some {| us_claim := c; us_mlsKey := ct_mls_key cert |} else None)
      end
  end.

Fixpoint usable_claims (wanted : list jsstr) (present : list (option jsstr)) (l : list ClaimedKeyPackage) : mls (list UsableKeyPackage) :=
  match l with
  | [] => mret []
  | c :: l' => u ← check_claim wanted present c; r ← usable_claims wanted present l';
               mret (match u with Some u => u :: r | None => r end)
  end.

(** Builds the commit that adds the usable devices not in the group yet. *)
Definition add_devices (groupId : jsstr) (usable : list UsableKeyPackage) (g : Group) : mls (option built) :=
  let inGroup := member_key <$> membersJson g in
  let todo := filter (λ u, Some (us_mlsKey u) ∉ inGroup) usable in
  if is_nil todo then mret None else
  out ← on_group (toLowerCase groupId) g (λ d g,
    addMembers d g ((λ u, cl_keyPackage (us_claim u)) <$> todo));
  let recipients := (λ u, (cl_wallet (us_claim u), cl_deviceId (us_claim u))) <$> todo in
  mret (Some {| bt_commit := out.1; bt_added := length todo;
                bt_afterAccept :=
                  modify (add_sent (PostWelcome groupId recipients out.2));;
                  ok ← ask (λ t, en_postWelcome env t groupId recipients out.2);
                  if (ok : bool) then mret tt else throw RelayerError |}).

Definition addWallets (groupId : jsstr) (wallets : list jsstr) : mls nat :=
  let wanted := foldl (λ l w, set_add (toLowerCase w) l) [] wallets in
  claimed ← (r ← ask (λ t, en_claimKeyPackages env t wanted); or_throw RelayerError r);
  here ← members groupId;
  usable ← usable_claims wanted (member_key <$> here) claimed;
  if is_nil usable then mret 0%nat else
  done ← commit groupId (add_devices groupId usable);
  mret (match done with Some b => bt_added b | None => 0%nat end).

(** ** Group lifecycle *)

Definition accept_welcome (w : jsstr * bytes) : mls (option jsstr) :=
  let key := toLowerCase w.1 in
  member ← hasGroup key;
  if (member : bool) then mret None else
  catch
    (modify (λ s, set_device (deleteGroup (ms_device s) (utf8_encode key)) s);;
     drop_group key;;
     s ← get_state;
     let '(g, d) := join (ms_device s) w.2 in
     modify (set_device d);;
     g ← or_throw EngineError g;
     setGroup key g;;
     un_desync key;;
     mret (Some key)) None.

Fixpoint accept_each (l : list (jsstr * bytes)) : mls (list jsstr) :=
  match l with
  | [] => mret []
  | w :: l' => k ← accept_welcome w; r ← accept_each l'; mret (match k with Some k => k :: r | None => r end)
  end.

Definition acceptWelcomes : mls (list jsstr) :=
  t ← now;
  modify (set_welcomePoll t);;
  welcomes ← (r ← ask (en_takeWelcomes env); or_throw RelayerError r);
  joined ← accept_each welcomes;
  (if is_nil joined then mret tt else persist;; publishKeyPackages (length joined));;
  mret joined.

Definition in_step (key : jsstr) : mls bool := m ← hasGroup key; d ← is_desynced key; mret (m && negb d).

(** Create the group by claiming its first epoch, or join the one there is. *)
Fixpoint bootstrap_loop (attempts : nat) (key : jsstr) (memberWallets : list jsstr) : mls bool :=
  match attempts with
  | O => mret false
  | S attempts' =>
      ready ← in_step key;
      if (ready : bool) then catch (addWallets key memberWallets) 0%nat;; mret true else
      catch acceptWelcomes [];;
      ready ← in_step key;
      if (ready : bool) then bootstrap_loop attempts' key memberWallets else
      info ← (r ← ask (λ t, en_getGroupInfo env t key); or_throw RelayerError r);
      if match info with Some _ => true | None => false end then joinExternal key else
      s ← get_state;
      let before := snapshot (ms_device s) in
      let '(g, d) := createGroup (deleteGroup (ms_device s) (utf8_encode key)) (utf8_encode key) in
      modify (set_device d);;
      drop_group key;;
      let '(claim, g, d) := selfUpdate d g in
      modify (set_device d);;
      claim ← or_throw EngineError claim;
      accepted ← try_catch (postCommit key claim) (λ e, rollback before;; throw e);
      if (accepted : bool) then
        setGroup key g;;
        un_desync key;;
        persist;;
        publishGroupInfo key;;
        addWallets key memberWallets;;
        mret true
      else
        rollback before;;
        await;;
        bootstrap_loop attempts' key memberWallets
  end.

Definition bootstrap (key : jsstr) (memberWallets : list jsstr) : mls bool := bootstrap_loop MAX_COMMIT_ATTEMPTS key memberWallets.

Definition createGroup_public (groupId : jsstr) (memberWallets : list jsstr) : mls bool := bootstrap (toLowerCase groupId) memberWallets.

Definition ensureGroup (groupId : jsstr) : mls bool :=
  let key := toLowerCase groupId in
  ready ← in_step key;
  if (ready : bool) then mret true else
  t ← now;
  s ← get_state;
  ready ← (if WELCOME_POLL_MS <=? t - ms_lastWelcomePoll s then catch acceptWelcomes [];; in_step key else mret false);
  if (ready : bool) then mret true else
  t ← now;
  s ← get_state;
  if t <? default 0 (map_get key (ms_joinBackoff s)) then mret false else
  readers ← chain_readers key;
  ok ← catch (match readers with
              | Some l => if decide (en_wallet env ∈ l) then bootstrap key l else joinExternal key
              | None => joinExternal key
              end) false;
  (if (ok : bool) then mret tt else back_off key);;
  mret ok.

(** ** The membership rule *)

(** What a member calls for: removal, a pause, or nothing. *)
Inductive verdict := v_fine | v_bad | v_unknown (wallet : jsstr).

Definition judge_member (readers : list jsstr) (myKey : jsstr) (m : MlsMember) : mls verdict :=
  match mb_certificate m with
  | None => mret v_bad
  | Some cert =>
      let wallet := toLowerCase (ct_wallet cert) in
      if negb (bool_decide (wallet ∈ readers)) || bool_decide (ct_mls_key cert = myKey) then mret v_bad else
      st ← certificate_status cert;
      mret (match st with c_valid => v_fine | c_invalid => v_bad | c_unknown => v_unknown wallet end)
  end.

(** The leaves to remove and the wallets that pause the send. *)
Fixpoint judge_members (readers : list jsstr) (myKey : jsstr) (mine : option Z) (l : list MlsMember) : mls (list Z * list jsstr) :=
  match l with
  | [] => mret ([], [])
  | m :: l' =>
      v ← (if bool_decide (Some (leafIndex m) = mine) then mret v_fine else judge_member readers myKey m);
      r ← judge_members readers myKey mine l';
      mret (match v with
            | v_fine => r
            | v_bad => (leafIndex m :: r.1, r.2)
            | v_unknown w => (r.1, w :: set_remove w r.2)
            end)
  end.

Definition remove_leaves (key : jsstr) (bad : list Z) (g : Group) : mls (option built) :=
  c ← on_group key g (λ d g, removeLeaves d g bad);
  mret (Some {| bt_commit := c; bt_added := 0; bt_afterAccept := mret tt |}).

Definition commit_pending (key : jsstr) (g : Group) : mls (option built) :=
  c ← on_group key g commitPending;
  mret (match c with Some c => Some {| bt_commit := c; bt_added := 0; bt_afterAccept := mret tt |} | None => None end).

Definition reconcile (key : jsstr) (onChainReaders : list jsstr) : mls unit :=
  let readers := toLowerCase <$> onChainReaders in
  me ← certificate;
  g ← get_group key;
  mine ← (match g with Some g => myLeaf g | None => mret None end);
  here ← members key;
  judged ← judge_members readers (ct_mls_key me) mine here;
  (if is_nil judged.1 then mret tt else commit key (remove_leaves key judged.1);; mret tt);;
  commit key (commit_pending key);;
  if is_nil judged.2 then mret tt else throw (MlsMembersUnverifiedError key judged.2).

(** Encrypt under the group's current key, and save the device first. *)
Definition seal_with (groupId key : jsstr) (inner : MlsInner) : mls bytes :=
  g ← active_group key;
  match g with
  | None => throw (NotAMember groupId)
  | Some g =>
      plain ← or_throw BadData (encodeInner inner);
      out ← on_group key g (λ d g, encrypt d g plain);
      persist;;
      mret out
  end.

Definition seal (groupId : jsstr) (onChainReaders : list jsstr) (inner : MlsInner) : mls bytes :=
  let key := toLowerCase groupId in
  sync key;;
  gone ← is_desynced key;
  if (gone : bool) then throw (MlsGroupUnavailableError key not_joined) else
  reconcile key onChainReaders;;
  seal_with groupId key inner.

Definition wrap (groupId : jsstr) (inner : MlsInner) : mls bytes :=
  let key := toLowerCase groupId in
  g ← active_group key;
  match g with
  | None => throw (NotAMember groupId)
  | Some _ =>
      gone ← is_desynced key;
      if (gone : bool) then throw (MlsGroupUnavailableError groupId not_joined) else seal_with groupId key inner
  end.

Definition storeOwn (groupId : jsstr) (row : rv) : mls unit := update_store (putRows (toLowerCase groupId) [row]).

Definition rows (groupId : jsstr) (before : option number) (limit : nat) : mls (list rv) :=
  with_store (listRows (toLowerCase groupId) before limit).
End operations.
