(* ===== verification/MlsFrame.v ===== *)
(** What the work of a session leaves alone ([mls/session.ts]).  A run changes the
    device only by the engine's operations, and the certificate cache only by
    letting the clock run and by storing values under names that are not protected; so
    it keeps any property of the device and of the cache that these keep.  One lemma per
    operation, found by [auto with keeps]. *)
From S2P Require Import Prelude JsString JsMap Utf8 TextDecoder Json Verification Anchors Wire HttpTransport HttpCalls.
From S2P Require Import MlsRows MlsTypes MlsCertificates MlsSession.

#[local] Notation mls := (eff session mls_error).

(** A property of devices that every operation but [withIdentity] keeps. *)
Class DeviceKept `{MlsEngine} (P : Device → Prop) : Prop := {
  kept_restore d : P d → P (restore (snapshot d));
  kept_keyPackage d : P d → P (keyPackage d).2;
  kept_createGroup d k : P d → P (createGroup d k).2;
  kept_join d w : P d → P (join d w).2;
  kept_rejoinExternal d i : P d → P (rejoinExternal d i).2;
  kept_deleteGroup d k : P d → P (deleteGroup d k);
  kept_addMembers d g l : P d → P (addMembers d g l).2;
  kept_removeLeaves d g l : P d → P (removeLeaves d g l).2;
  kept_selfUpdate d g : P d → P (selfUpdate d g).2;
  kept_commitPending d g : P d → P (commitPending d g).2;
  kept_updateCredential d g : P d → P (updateCredential d g).2;
  kept_leave d g : P d → P (leave d g).2;
  kept_encrypt d g b : P d → P (encrypt d g b).2;
  kept_process d g b : P d → P (process d g b).2;
}.

(** A property of certificate caches that waiting keeps, and storing values that are not [protected]. *)
Class CertsKept (J : certs → Prop) := {
  protected : jsstr → bool;
  kept_tick c : J c → J (tick c);
  kept_store c st : J c → (∀ k, protected k = true → getMeta k st = getMeta k (cc_store c)) → J (set_store st c);
  kept_groups : protected (js "groups") = false;
}.

(** Any device will do. *)
#[export] Instance any_device `{MlsEngine} : DeviceKept (λ _, True).
Proof. by split. Qed.

Create HintDb keeps.

Ltac keeps_step := lazymatch goal with
  | |- keeps _ (mbind _ get_state) => apply keeps_bind_get; intros ? ?
  | |- keeps _ (mbind _ _) => apply keeps_bind; [|intros ?]
  | |- keeps _ (try_catch _ _) => apply keeps_catch; [|intros ?]
  | |- keeps _ (match _ with _ => _ end) => case_match
  | |- ∀ _, _ => intros ?
  | |- keeps _ (modify _) => first [solve [auto with keeps nocore] | apply keeps_modify; intros ? Hframe; exact Hframe]
  | |- _ => solve [auto with keeps nocore]
  end.
Ltac keeps_auto := unfold catch; repeat keeps_step.

#[export] Hint Resolve keeps_ret keeps_throw keeps_get : keeps.
#[export] Hint Extern 1 (DeviceKept _) => apply _ : keeps.
#[export] Hint Extern 1 (CertsKept _) => apply _ : keeps.

Section frame.
Context `{JsonNumbers} `{JsText} `{HexCodec} `{Sha256} `{MlsEngine} (env : mls_env) (fuel : nat).
Context (P : Device → Prop) (J : certs → Prop) `{!DeviceKept P} `{!CertsKept J}.

Definition framed (s : session) : Prop := P (ms_device s) ∧ J (ms_certs s).

Lemma keeps_bind_ran {A B} (f : mls A) (k : A → mls B) :
  keeps framed f → (∀ s a s', f s = (Ok a, s') → keeps framed (k a)) → keeps framed (f ≫= k).
Proof.
  intros Hf Hk s Hs. specialize (Hf s Hs). unfold mbind, eff_bind. destruct (f s) as [[a|e] s'] eqn:E; [|done]. exact (Hk _ _ _ E s' Hf).
Qed.

Lemma keeps_modify_device (f : session → Device) : (∀ s, framed s → P (f s)) → keeps framed (modify (λ s, set_device (f s) s) : mls unit).
Proof. intros Hf. apply keeps_modify. intros s Hs. split; [by apply Hf|apply Hs]. Qed.

Lemma keeps_set_device d : P d → keeps framed (modify (set_device d) : mls unit).
Proof. intros Hd. apply keeps_modify. intros s Hs. split; [done|apply Hs]. Qed.

Lemma framed_tick s : framed s → framed (set_certs (tick (ms_certs s)) s).
Proof. intros [Hp Hj]. split; [done|by apply kept_tick]. Qed.

Lemma keeps_await : keeps framed await.
Proof. apply keeps_modify, framed_tick. Qed.

Lemma keeps_ask {A} (f : nat → A) : keeps framed (ask f).
Proof. intros s Hs. by apply framed_tick. Qed.

Lemma keeps_or_throw {A} e (o : option A) : keeps framed (or_throw e o).
Proof. destruct o; intros s Hs; exact Hs. Qed.

Lemma keeps_now : keeps framed (now env).
Proof. intros s Hs. exact Hs. Qed.

Lemma keeps_with_store {A} (f : MlsStateStore → A) : keeps framed (with_store f).
Proof. intros s Hs. by apply framed_tick. Qed.

Lemma keeps_update_store f : (∀ st k, protected k = true → getMeta k (f st) = getMeta k st) → keeps framed (update_store f).
Proof.
  intros Hf. unfold update_store. apply keeps_bind; [|intros _; apply keeps_await]. apply keeps_modify.
  intros s [Hp Hj]. split; [done|]. apply kept_store; [done|]. intros k. apply Hf.
Qed.

Lemma keeps_persist : keeps framed (persist env).
Proof. apply keeps_bind_get. intros s _. by apply keeps_update_store. Qed.

Lemma keeps_rollback snap : P (restore snap) → keeps framed (rollback snap).
Proof. intros Hp. apply keeps_modify. intros s Hs. split; [done|apply Hs]. Qed.

Lemma keeps_remember key : keeps framed (rememberGroup key).
Proof.
  apply keeps_modify. intros s [Hp Hj]. cbv zeta. destruct (decide _); [done|]. split; [done|]. apply kept_store; [done|]. intros k Hk.
  rewrite getMeta_set, decide_False; [done|]. intros ->. by rewrite kept_groups in Hk.
Qed.

#[local] Hint Resolve keeps_await keeps_ask keeps_or_throw keeps_now keeps_with_store keeps_persist keeps_remember : keeps.

(** ** Groups *)

Lemma keeps_get_group g : keeps framed (get_group g).
Proof. unfold get_group. keeps_auto. Qed.

Lemma keeps_setGroup k g : keeps framed (setGroup k g).
Proof. unfold setGroup. keeps_auto. Qed.
#[local] Hint Resolve keeps_get_group keeps_setGroup : keeps.

Lemma keeps_on_group {A} key g (f : Device → Group → option A * Group * Device) :
  (∀ d, P d → P (f d g).2) → keeps framed (on_group key g f).
Proof.
  intros Hf. unfold on_group. apply keeps_bind_get. intros s [Hp _]. specialize (Hf _ Hp).
  destruct (f (ms_device s) g) as [[r g'] d']. apply keeps_bind; [|intros _; auto with keeps]. apply keeps_modify. intros s' Hs'. split; [done|apply Hs'].
Qed.

Lemma keeps_active_group g : keeps framed (active_group g).
Proof. unfold active_group. keeps_auto. Qed.
#[local] Hint Resolve keeps_active_group : keeps.

Lemma keeps_hasGroup g : keeps framed (hasGroup g).
Proof. unfold hasGroup. keeps_auto. Qed.

Lemma keeps_certificate : keeps framed certificate.
Proof. unfold certificate. keeps_auto. Qed.
#[local] Hint Resolve keeps_hasGroup keeps_certificate : keeps.

Lemma keeps_members g : keeps framed (members g).
Proof. unfold members. keeps_auto. Qed.

Lemma keeps_myLeaf g : keeps framed (myLeaf g).
Proof. unfold myLeaf. keeps_auto. Qed.
#[local] Hint Resolve keeps_members keeps_myLeaf : keeps.

Lemma keeps_isResponder b g : keeps framed (isResponder b g).
Proof. unfold isResponder. keeps_auto. Qed.

Lemma keeps_publishGroupInfo g : keeps framed (publishGroupInfo env g).
Proof. unfold publishGroupInfo. keeps_auto. Qed.
#[local] Hint Resolve keeps_isResponder keeps_publishGroupInfo : keeps.

Lemma kept_keyPackages n : ∀ d, P d → P (keyPackages n d).2.
Proof.
  induction n as [|n IH]; intros d Hd; [done|]. simpl. pose proof (kept_keyPackage d Hd) as Hk. destruct (keyPackage d) as [k d1].
  specialize (IH d1 Hk). by destruct (keyPackages n d1).
Qed.

Lemma keeps_publishKeyPackages n : keeps framed (publishKeyPackages env n).
Proof.
  unfold publishKeyPackages. apply keeps_bind_get. intros s [Hp _]. pose proof (kept_keyPackages n (ms_device s) Hp) as Hk.
  destruct (keyPackages n (ms_device s)) as [kps d]. apply keeps_bind; [by apply keeps_set_device|intros _]. keeps_auto.
Qed.

(** ** Commits and joins *)

Lemma keeps_fetchRows g c : keeps framed (fetchRows env g c).
Proof. unfold fetchRows. keeps_auto. Qed.
#[local] Hint Resolve keeps_fetchRows : keeps.

Lemma keeps_find_loop n g b : ∀ c, keeps framed (find_loop env n g b c).
Proof. induction n as [|n IH]; intros c; cbn [find_loop]; keeps_auto. Qed.
#[local] Hint Resolve keeps_find_loop : keeps.

Lemma keeps_postCommit g c : keeps framed (postCommit env fuel g c).
Proof. unfold postCommit, findInLog. keeps_auto. Qed.

Lemma keeps_un_desync k : keeps framed (un_desync k).
Proof. unfold un_desync. keeps_auto. Qed.

Lemma keeps_drop_group k : keeps framed (drop_group k).
Proof. unfold drop_group. keeps_auto. Qed.
#[local] Hint Resolve keeps_postCommit keeps_un_desync keeps_drop_group : keeps.

Lemma keeps_rollback_snapshot s : framed s → keeps framed (rollback (snapshot (ms_device s))).
Proof. intros [Hp _]. by apply keeps_rollback, kept_restore. Qed.
#[local] Hint Resolve keeps_rollback_snapshot : keeps.

Lemma keeps_join_loop n k : keeps framed (join_loop env fuel n k).
Proof.
  induction n as [|n IH]; cbn [join_loop]; [keeps_auto|]. apply keeps_bind; [keeps_auto|]. intros [info|]; [|keeps_auto].
  apply keeps_bind_get. intros s Hs. pose proof (kept_rejoinExternal (ms_device s) info (proj1 Hs)) as Hk. destruct (rejoinExternal (ms_device s) info) as [j d].
  apply keeps_bind; [by apply keeps_set_device|intros _]. keeps_auto.
Qed.
#[local] Hint Resolve keeps_join_loop : keeps.

Lemma keeps_mayResync k : keeps framed (mayResync env k).
Proof. unfold mayResync. keeps_auto. Qed.

Lemma keeps_back_off k : keeps framed (back_off env k).
Proof. unfold back_off. keeps_auto. Qed.

Lemma keeps_chain_readers k : keeps framed (chain_readers env k).
Proof. unfold chain_readers. keeps_auto. Qed.
#[local] Hint Resolve keeps_mayResync keeps_back_off keeps_chain_readers : keeps.

Lemma keeps_deleteGroup k : keeps framed (modify (λ s, set_device (deleteGroup (ms_device s) k) s) : mls unit).
Proof. apply keeps_modify_device. intros s [Hp _]. by apply kept_deleteGroup. Qed.
#[local] Hint Resolve keeps_deleteGroup : keeps.

Lemma keeps_resync k : keeps framed (resync env fuel k).
Proof. unfold resync, joinExternal. keeps_auto. Qed.
#[local] Hint Resolve keeps_resync : keeps.

(** ** Reading *)

Lemma keeps_putRows g rows : keeps framed (update_store (putRows g rows)).
Proof. by apply keeps_update_store. Qed.

Lemma keeps_setCursor g o : keeps framed (update_store (setCursor g o)).
Proof. by apply keeps_update_store. Qed.
#[local] Hint Resolve keeps_putRows keeps_setCursor : keeps.

Lemma keeps_import_groups t o l : keeps framed (import_groups t o l).
Proof. induction l as [|e l IH]; cbn [import_groups]; unfold import_group; keeps_auto. Qed.
#[local] Hint Resolve keeps_import_groups : keeps.

Lemma keeps_importBundle p t o : keeps framed (importBundle p t o).
Proof. unfold importBundle. keeps_auto. Qed.

Lemma keeps_reassemble k p : keeps framed (reassemble k p).
Proof. unfold reassemble. keeps_auto. Qed.
#[local] Hint Resolve keeps_importBundle keeps_reassemble : keeps.

Lemma keeps_post_chunks g l : keeps framed (post_chunks env g l).
Proof.
  induction l as [|c l IH]; cbn [post_chunks]; [keeps_auto|]. apply keeps_bind; [keeps_auto|]. intros [h|]; [|keeps_auto].
  apply keeps_bind; [apply keeps_on_group; intros d; apply kept_encrypt|]. keeps_auto.
Qed.
#[local] Hint Resolve keeps_post_chunks : keeps.

Lemma keeps_shareRecent g d : keeps framed (shareRecent env g d).
Proof. unfold shareRecent. keeps_auto. Qed.
#[local] Hint Resolve keeps_shareRecent : keeps.

Lemma keeps_process k g b : keeps framed (on_group k g (λ d g, process d g b)).
Proof. apply keeps_on_group. intros d. apply kept_process. Qed.
#[local] Hint Resolve keeps_process : keeps.

Lemma keeps_processRow k g row : keeps framed (processRow env k g row).
Proof. unfold processRow. keeps_auto. Qed.
#[local] Hint Resolve keeps_processRow : keeps.

Lemma keeps_rows_loop k rows : ∀ p out r, keeps framed (rows_loop env fuel k rows p out r).
Proof. induction rows as [|row rows IH]; intros p out r; cbn [rows_loop]; unfold out_of_step, days_to_share; keeps_auto. Qed.
#[local] Hint Resolve keeps_rows_loop : keeps.

Lemma keeps_sync_loop n k : ∀ out r, keeps framed (sync_loop env fuel n k out r).
Proof. induction n as [|n IH]; intros out r; cbn [sync_loop]; keeps_auto. Qed.
#[local] Hint Resolve keeps_sync_loop : keeps.

Lemma keeps_finally {A} (f : mls A) (h : mls unit) : keeps framed f → keeps framed h → keeps framed (finally f h).
Proof.
  intros Hf Hh s Hs. specialize (Hf s Hs). unfold finally. destruct (f s) as [r s1]. specialize (Hh s1 Hf).
  by destruct (h s1) as [[[]|e] s2].
Qed.

Lemma keeps_sync k : keeps framed (sync env fuel k).
Proof. unfold sync. apply keeps_bind; [keeps_auto|]. intros g. apply keeps_finally; keeps_auto. Qed.
#[local] Hint Resolve keeps_sync : keeps.

(** ** Commits *)

Lemma keeps_commit g build : (∀ h, keeps framed (build h)) → (∀ h s b s', build h s = (Ok (Some b), s') → bt_afterAccept b = mret tt) →
  keeps framed (commit env fuel g build).
Proof.
  intros Hb Hafter. unfold commit. generalize MAX_COMMIT_ATTEMPTS as n. induction n as [|n IH]; cbn [commit_loop]; [keeps_auto|].
  apply keeps_bind_get. intros s Hs. apply keeps_bind; [keeps_auto|]. intros [h|]; [|keeps_auto].
  apply keeps_bind_ran; [done|]. intros s1 [b|] s2 Eb; [|keeps_auto]. rewrite (Hafter _ _ _ _ Eb). keeps_auto.
Qed.

End frame.

#[export] Hint Resolve keeps_await keeps_ask keeps_or_throw keeps_now keeps_with_store keeps_persist keeps_get_group keeps_setGroup
  keeps_active_group keeps_hasGroup keeps_certificate
  keeps_members keeps_myLeaf keeps_isResponder keeps_publishKeyPackages keeps_putRows keeps_setCursor keeps_importBundle keeps_reassemble
  keeps_process keeps_rollback_snapshot keeps_sync : keeps.
