(* ===== verification/MlsSeal.v ===== *)
(** Sealing a message ([MlsSession.seal], [mls/session.ts]): who can read what
    this device encrypts.

    [seal_checked]: while every commit of this device is accepted and answered,
    every other leaf of the group it encrypts to holds a certificate that was checked
    ([MlsTrust]).  [seal_after_race]:
    after a refused commit that is not so. *)
From S2P Require Import Prelude JsString JsMap Utf8 TextDecoder Json Verification Anchors Wire HttpTransport HttpCalls.
From S2P Require Import MlsRows MlsTypes MlsCertificates MlsTrust MlsSession MlsFrame.

#[local] Notation mls := (eff session mls_error).

(** What the engine documents of a group: leaves have distinct indices, and
    these commits only take members away. *)
Class MlsEngineLaws `{MlsEngine} : Prop := {
  restore_snapshot d : restore (snapshot d) = d;
  leaves_unique g : NoDup (leafIndex <$> membersJson g);
  removeLeaves_members d g l c g' d' m : removeLeaves d g l = (Some c, g', d') → m ∈ membersJson g' →
    m ∈ membersJson g ∧ (leafIndex m ∉ l);
  commitPending_members d g r g' d' m : commitPending d g = (Some r, g', d') → m ∈ membersJson g' → m ∈ membersJson g;
}.

(** * The parts of a seal *)

Section parts.
Context `{JsonNumbersLaws} `{JsTextLaws} `{HexCodec} `{Sha256} `{MlsEngineLaws} (env : mls_env) (fuel : nat).
Context (trusted : MlsDeviceCertificate → Prop) (Hreg : registry_answers (en_certs env)).

(** Of the session's own cache, so of every session that starts with a new one. *)
#[local] Notation life s := (cache_life (en_certs env) trusted (ms_certs s)).
#[local] Notation checked := (checked_valid (en_certs env) trusted).

#[export] Instance life_kept : CertsKept (cache_life (en_certs env) trusted) := {
  protected := cache_slot; kept_tick := life_await _ _; kept_store := life_store _ _; kept_groups := eq_refl }.

(** The work of a session goes on with its cache's life. *)
Lemma life_keeps {A} (m : mls A) s : keeps (framed (λ _, True) (cache_life (en_certs env) trusted)) m → life s → life (m s).2.
Proof. intros Hm Hs. by apply Hm. Qed.

(** A run that only moves the certificate cache, and the clock forward. *)
Definition moved_certs (s s' : session) : Prop := ∃ c, s' = set_certs c s ∧ (ms_ticks s ≤ cc_ticks c)%nat.

Lemma moved_refl s : moved_certs s s.
Proof. exists (ms_certs s). split; [by destruct s|done]. Qed.

Lemma moved_trans s s' s'' : moved_certs s s' → moved_certs s' s'' → moved_certs s s''.
Proof. intros (c & -> & Hc) (c' & -> & Hc'). exists c'. split; [done|]. unfold ms_ticks in Hc'. simpl in Hc'. lia. Qed.

Lemma moved_ticks s s' : moved_certs s s' → (ms_ticks s ≤ ms_ticks s')%nat.
Proof. by intros (c & -> & Hc). Qed.

Lemma certificate_status_spec c s r s' : life s → certificate_status env c s = (Ok r, s') →
  moved_certs s s' ∧ life s' ∧ (r = c_valid → (58 ∉ toLowerCase (ct_wallet c)) → checked c (ms_ticks s) (ms_ticks s')).
Proof.
  intros Hs. unfold certificate_status. destruct (status_checked (en_certs env) trusted Hreg c (ms_certs s) Hs) as (Hl & Ht & Hc).
  destruct (status _ c (ms_certs s)) as [[st|] cs] eqn:E; [|done]. intros [= <- <-]. simpl in Ht.
  split_and!; [by exists cs|done|]. intros ->. by apply Hc.
Qed.

(** A member that passed. *)
Definition passed (readers : list jsstr) (i j : nat) (m : MlsMember) : Prop :=
  ∃ c, mb_certificate m = Some c ∧ toLowerCase (ct_wallet c) ∈ readers ∧ checked c i j.

(** Wallet addresses. *)
Definition addresses (l : list jsstr) : Prop := ∀ w, w ∈ l → (58 ∉ w).

Lemma judge_member_spec readers myKey m s v s' : addresses readers → life s → judge_member env readers myKey m s = (Ok v, s') →
  moved_certs s s' ∧ life s' ∧ (v = v_fine → passed readers (ms_ticks s) (ms_ticks s') m).
Proof.
  intros Hw Hs. unfold judge_member. destruct (mb_certificate m) as [c|] eqn:Ec; [|intros [= <- <-]; split_and!; [apply moved_refl|done|done]].
  destruct (_ || _) eqn:Eb; [intros [= <- <-]; split_and!; [apply moved_refl|done|done]|]. intros Hrun.
  apply bind_ok_inv in Hrun as (st & s1 & Est & [= <- <-]). apply certificate_status_spec in Est as (Hm & Hl & Hv); [|done].
  split_and!; [done|done|]. destruct st; [intros _|done..]. bool_to_Z. exists c. auto.
Qed.

Lemma judge_members_spec readers myKey mine l : addresses readers → ∀ s r s', life s → judge_members env readers myKey mine l s = (Ok r, s') →
  moved_certs s s' ∧ ∀ m, m ∈ l → (leafIndex m ∉ r.1) → r.2 = [] →
    Some (leafIndex m) = mine ∨ passed readers (ms_ticks s) (ms_ticks s') m.
Proof.
  intros Hw. induction l as [|m l IH]; intros s r s' Hs; cbn [judge_members].
  { intros [= <- <-]. split; [apply moved_refl|]. by intros m ?%elem_of_nil. }
  intros Hrun. apply bind_ok_inv in Hrun as (v & s1 & Ev & Hrun). apply bind_ok_inv in Hrun as (r0 & s2 & Er & [= <- <-]).
  assert (moved_certs s s1 ∧ life s1 ∧ (v = v_fine → Some (leafIndex m) = mine ∨ passed readers (ms_ticks s) (ms_ticks s1) m)) as (Hm1 & Hl1 & Hv).
  { destruct (bool_decide _) eqn:Eb; bool_to_Z; [injection Ev as <- <-; split_and!; [apply moved_refl|done|by left]|].
    apply judge_member_spec in Ev as (? & ? & ?); auto. }
  apply IH in Er as [Hm2 Hr]; [|done].
  pose proof (moved_ticks _ _ Hm1) as Ht1. pose proof (moved_ticks _ _ Hm2) as Ht2.
  assert (∀ m', passed readers (ms_ticks s) (ms_ticks s1) m' ∨ passed readers (ms_ticks s1) (ms_ticks s2) m' →
    passed readers (ms_ticks s) (ms_ticks s2) m') as Hpass.
  { intros m' [(c & ? & ? & Hc)|(c & ? & ? & Hc)]; exists c; split_and!; try done; eapply checked_mono; try exact Hc; lia. }
  split; [by eapply moved_trans|]. intros m' [->|Hin]%elem_of_cons Hbad Hun.
  - destruct v; simpl in *; [|by destruct Hbad; left|done]. destruct (Hv eq_refl) as [?|?]; [by left|right; auto].
  - assert ((leafIndex m' ∉ r0.1) ∧ r0.2 = []) as [Ha Hb].
    { destruct v; simpl in *; [done| |done]. split; [|done]. intros Hx. apply Hbad. by right. }
    destruct (Hr m' Hin Ha Hb); [by left|right; auto].
Qed.

(** ** The cached handle *)

Lemma get_group_spec key s r s' : toLowerCase key = key → get_group key s = (Ok r, s') →
  r = map_get key (ms_groups s') ∧ ms_device s' = ms_device s ∧ ms_ticks s' = ms_ticks s
  ∧ (∀ g, map_get key (ms_groups s) = Some g → s' = s).
Proof.
  intros Hk. unfold get_group. rewrite Hk, (bind_ok _ _ s s s) by done.
  destruct (map_get key (ms_groups s)) as [g|] eqn:Eg; [intros [= <- <-]; by rewrite Eg|].
  destruct (loadGroup (ms_device s) _) as [g|]; [|intros [= <- <-]; rewrite Eg; by split_and!].
  unfold rememberGroup. run_eff. intros [= <- <-]. case_decide; simpl; rewrite map_get_set_eq; by split_and!.
Qed.

Lemma active_group_spec key s g s' : toLowerCase key = key → active_group key s = (Ok (Some g), s') →
  map_get key (ms_groups s') = Some g ∧ isActive g = true ∧ ms_device s' = ms_device s ∧ ms_ticks s' = ms_ticks s
  ∧ (∀ g', map_get key (ms_groups s) = Some g' → s' = s).
Proof.
  intros Hk Hrun. apply bind_ok_inv in Hrun as ([g'|] & s1 & Eg & [= Hr <-]).
  apply get_group_spec in Eg as (Eg & ? & ? & ?); [|done]. destruct (isActive g') eqn:Ea; [|done]. injection Hr as <-. by split_and!.
Qed.

Lemma on_group_spec {A} key g (f : Device → Group → option A * Group * Device) s a s' : on_group key g f s = (Ok a, s') →
  ∃ g' d', f (ms_device s) g = (Some a, g', d') ∧ map_get key (ms_groups s') = Some g' ∧ ms_device s' = d' ∧ ms_ticks s' = ms_ticks s.
Proof.
  unfold on_group. run_eff. destruct (f (ms_device s) g) as [[[x|] g'] d']; [|done]. intros [= <- <-].
  exists g', d'. simpl. by rewrite map_get_set_eq.
Qed.

(** ** Commits the relayer accepts *)

Definition accepting : Prop := ∀ t g c, en_postControlRow env t g c = Some true.

(** The group handles and the device are left alone. *)
Definition quiet (s s' : session) : Prop :=
  ms_groups s' = ms_groups s ∧ ms_device s' = ms_device s ∧ (ms_ticks s ≤ ms_ticks s')%nat.

Lemma persist_spec s r s' : persist env s = (Ok r, s') →
  quiet s s' ∧ loadDevice (ms_store s') = Some (snapshot (ms_device s), en_deviceId env).
Proof. unfold persist, update_store, await. run_eff. intros [= <- <-]. unfold quiet, ms_ticks. simpl. split_and!; try done. lia. Qed.

Lemma publish_spec key s g r s' : toLowerCase key = key → map_get key (ms_groups s) = Some g →
  publishGroupInfo env key s = (Ok r, s') → quiet s s'.
Proof.
  intros Hk Hg Hrun. apply bind_ok_inv in Hrun as (g' & s1 & Eg & Hrun). apply get_group_spec in Eg as (E & _ & _ & Hs); [|done].
  rewrite (Hs g Hg) in *. rewrite Hg in E. subst g'. revert Hrun. unfold ask, await, or_throw. run_eff.
  destruct (groupInfo _ _); [|done]. intros [= <- <-]. unfold quiet, ms_ticks. simpl. split_and!; try done. lia.
Qed.

Lemma postCommit_accepted key c s r s' : accepting → postCommit env fuel key c s = (Ok r, s') → r = true ∧ quiet s s'.
Proof.
  intros Ha. unfold postCommit, ask, await. run_eff. rewrite (Ha _ key c). intros [= <- <-]. unfold quiet, ms_ticks. simpl.
  split_and!; try done. lia.
Qed.

Lemma commit_spec key build s r s' : accepting → toLowerCase key = key →
  (∀ g s1 b s2, build g s1 = (Ok (Some b), s2) → bt_afterAccept b = mret tt) →
  (∀ g s1 b s2, build g s1 = (Ok b, s2) → is_Some (map_get key (ms_groups s2))) →
  commit env fuel key build s = (Ok r, s') →
  ∃ g s1 s2 b, active_group key s = (Ok (Some g), s1) ∧ build g s1 = (Ok b, s2)
    ∧ ms_groups s' = ms_groups s2 ∧ (ms_ticks s2 ≤ ms_ticks s')%nat.
Proof.
  intros Ha Hk Hb Hc. unfold commit, MAX_COMMIT_ATTEMPTS. cbn [commit_loop]. intros Hrun. rewrite (bind_ok _ _ s s s) in Hrun by done.
  apply bind_ok_inv in Hrun as ([g|] & s1 & Eg & Hrun); [|done]. apply bind_ok_inv in Hrun as ([b|] & s2 & Eb & Hrun).
  2: { injection Hrun as <- <-. by exists g, s1, s2, None. }
  exists g, s1, s2, (Some b). split_and!; [done..| |].
  all: apply bind_ok_inv in Hrun as (acc & s3 & Ep & Hrun); apply try_catch_inv in Ep as [(x & Ep & [= ->])|(e & s4 & _ & Ep)];
    [|by apply bind_ok_inv in Ep as (? & ? & _ & [=])]; apply postCommit_accepted in Ep as [-> (Hg3 & _ & Ht3)]; [|done];
    apply bind_ok_inv in Hrun as ([] & s4 & [= <-] & Hrun); apply bind_ok_inv in Hrun as ([] & s5 & E5 & Hrun);
    apply persist_spec in E5 as [(Hg5 & _ & Ht5) _]; rewrite (Hb _ _ _ _ Eb) in Hrun;
    apply bind_ok_inv in Hrun as ([] & s6 & [= <-] & Hrun); apply bind_ok_inv in Hrun as ([] & s7 & E7 & [= <- <-]);
    destruct (Hc _ _ _ _ Eb) as [g2 Hg2]; apply (publish_spec _ _ g2) in E7 as (Hg7 & _ & Ht7); [|done|simpl in Hg5; congruence].
  - cbn in Hg5. congruence.
  - unfold ms_ticks in *. simpl in *. lia.
Qed.

Lemma get_group_none key s s' s2 : get_group key s = (Ok None, s') → ms_groups s2 = ms_groups s' → ms_device s2 = ms_device s' →
  get_group key s2 = (Ok None, s2).
Proof.
  unfold get_group. rewrite (bind_ok _ _ s s s), (bind_ok _ _ s2 s2 s2) by done. destruct (map_get _ (ms_groups s)) as [g|] eqn:Eg; [done|].
  destruct (loadGroup (ms_device s) _) eqn:El; [done|]. intros [= <-] -> ->. by rewrite Eg, El.
Qed.

Lemma commit_removes key bad s r s' g : accepting → toLowerCase key = key → map_get key (ms_groups s) = Some g →
  commit env fuel key (remove_leaves key bad) s = (Ok r, s') →
  ∃ g', map_get key (ms_groups s') = Some g' ∧ (ms_ticks s ≤ ms_ticks s')%nat
    ∧ ∀ m, m ∈ membersJson g' → m ∈ membersJson g ∧ (leafIndex m ∉ bad).
Proof.
  intros Ha Hk Hg Hrun. apply commit_spec in Hrun as (g0 & s1 & s2 & b & Eg & Eb & Hgs & Ht); [|done|done|..].
  - apply active_group_spec in Eg as (Eg & _ & _ & Et & Es); [|done]. rewrite (Es g Hg) in *.
    assert (g0 = g) as -> by congruence. apply bind_ok_inv in Eb as (c & s3 & Ec & [= <- <-]).
    apply on_group_spec in Ec as (g' & d' & Er & Eg' & _ & Et'). exists g'. split_and!; [congruence|unfold ms_ticks in *; lia|].
    intros m Hm. by eapply removeLeaves_members.
  - intros g1 t1 b1 t2 Eb. apply bind_ok_inv in Eb as (c & s3 & _ & [= <- <-]). done.
  - intros g1 t1 b1 t2 Eb. apply bind_ok_inv in Eb as (c & s3 & Ec & [= <- <-]). apply on_group_spec in Ec as (g' & d' & _ & -> & _). eauto.
Qed.

Lemma commit_pends key s r s' g : accepting → toLowerCase key = key → map_get key (ms_groups s) = Some g →
  commit env fuel key (commit_pending key) s = (Ok r, s') →
  ∃ g', map_get key (ms_groups s') = Some g' ∧ (ms_ticks s ≤ ms_ticks s')%nat ∧ ∀ m, m ∈ membersJson g' → m ∈ membersJson g.
Proof.
  intros Ha Hk Hg Hrun. apply commit_spec in Hrun as (g0 & s1 & s2 & b & Eg & Eb & Hgs & Ht); [|done|done|..].
  - apply active_group_spec in Eg as (Eg & _ & _ & Et & Es); [|done]. rewrite (Es g Hg) in *.
    assert (g0 = g) as -> by congruence. apply bind_ok_inv in Eb as (c & s3 & Ec & [= <- <-]).
    apply on_group_spec in Ec as (g' & d' & Er & Eg' & _ & Et'). exists g'. split_and!; [congruence|unfold ms_ticks in *; lia|].
    intros m Hm. by eapply commitPending_members.
  - intros g1 t1 b1 t2 Eb. apply bind_ok_inv in Eb as ([c|] & s3 & _ & [= <- <-]). done.
  - intros g1 t1 b1 t2 Eb. apply bind_ok_inv in Eb as (c & s3 & Ec & [= <- <-]). apply on_group_spec in Ec as (g' & d' & _ & -> & _). eauto.
Qed.

Lemma leaf_of_unique g k m : leaf_of k (membersJson g) = Some (leafIndex m) → m ∈ membersJson g → member_key m = Some k.
Proof.
  unfold leaf_of. destruct (list_find _ _) as [[i x]|] eqn:E; [|done]. intros [= Ex] Hm.
  apply list_find_Some in E as (Hi & Hx & _). apply list_elem_of_lookup in Hm as [j Hj].
  pose proof (leaves_unique g) as Hu.
  assert (i = j) as <-. { eapply (NoDup_lookup _ i j (leafIndex x) Hu); rewrite list_lookup_fmap; [by rewrite Hi|by rewrite Hj, Ex]. }
  congruence.
Qed.

Lemma certificate_spec s c s' : certificate s = (Ok c, s') → s' = s ∧ ∀ s2, ms_device s2 = ms_device s → certificate s2 = (Ok c, s2).
Proof.
  unfold certificate. rewrite (bind_ok _ _ s s s) by done. intros Hc. assert (s' = s) as ->.
  { revert Hc. unfold or_throw. case_match; [by intros [= _ <-]|done]. }
  split; [done|]. intros s2 Hd. rewrite (bind_ok _ _ s2 s2 s2), Hd by done. revert Hc. unfold or_throw. case_match; [by intros [= ->]|done].
Qed.

Lemma reconcile_spec key readers s s' : accepting → toLowerCase key = key → addresses (toLowerCase <$> readers) → life s →
  reconcile env fuel key readers s = (Ok tt, s') →
  ∃ me g, certificate s = (Ok me, s) ∧ map_get key (ms_groups s') = Some g ∧ (ms_ticks s ≤ ms_ticks s')%nat
    ∧ ∀ m, m ∈ membersJson g → member_key m = Some (ct_mls_key me) ∨ passed (toLowerCase <$> readers) (ms_ticks s) (ms_ticks s') m.
Proof.
  intros Ha Hk Hw Hlife Hrun. unfold reconcile in Hrun. apply bind_ok_inv in Hrun as (me & s0 & Eme & Hrun).
  destruct (certificate_spec _ _ _ Eme) as [-> Hme].
  apply bind_ok_inv in Hrun as (g & s1 & Eg & Hrun). destruct g as [g|].
  - pose proof (life_keeps (get_group key) s (keeps_get_group env _ _ key) Hlife) as Hl1. rewrite Eg in Hl1.
    apply get_group_spec in Eg as Hg; [|done]. destruct Hg as (Hg & Hd & Ht1 & _). symmetry in Hg.
    apply bind_ok_inv in Hrun as (mine & s1' & Emine & Hrun).
    assert (s1' = s1 ∧ mine = leaf_of (ct_mls_key me) (membersJson g)) as [-> ->].
    { unfold myLeaf in Emine. rewrite (bind_ok _ _ _ _ _ (Hme s1 Hd)) in Emine. by injection Emine as <- <-. }
    apply bind_ok_inv in Hrun as (here & s1' & Ehere & Hrun). apply bind_ok_inv in Ehere as (g' & t & Eg' & [= <- <-]).
    apply get_group_spec in Eg' as (Eg' & _ & _ & Es); [|done]. rewrite (Es g Hg) in *. assert (g' = Some g) as -> by congruence.
    apply bind_ok_inv in Hrun as (judged & s2 & Ej & Hrun). apply judge_members_spec in Ej as [Hm Hj]; [|done..].
    pose proof (moved_ticks _ _ Hm) as Ht2. destruct Hm as (cs & -> & _).
    apply bind_ok_inv in Hrun as ([] & s3 & Er & Hrun).
    assert (∃ g3, map_get key (ms_groups s3) = Some g3 ∧ (ms_ticks s1 ≤ ms_ticks s3)%nat ∧ (ms_ticks (set_certs cs s1) ≤ ms_ticks s3)%nat
      ∧ ∀ m, m ∈ membersJson g3 → m ∈ membersJson g ∧ (leafIndex m ∉ judged.1)) as (g3 & Hg3 & Ht3 & Ht3' & Hm3).
    { destruct (is_nil judged.1) eqn:En.
      - injection Er as <-. exists g. split_and!; [done|done|done|]. intros m Hm. split; [done|]. destruct judged.1; [|done]. by intros ?%elem_of_nil.
      - apply bind_ok_inv in Er as (x & t' & Er & [= <-]). eapply commit_removes in Er as (g3 & ? & Ht & ?); [|done|done|exact Hg].
        exists g3. split_and!; [done|lia|done|done]. }
    apply bind_ok_inv in Hrun as (x & s4 & Ep & Hrun). eapply commit_pends in Ep as (g4 & Hg4 & Ht4 & Hm4); [|done|done|exact Hg3].
    destruct (is_nil judged.2) eqn:En; [|done]. injection Hrun as <-. exists me, g4. split_and!; [done|done|lia|].
    intros m Hm. destruct (Hm3 m (Hm4 m Hm)) as [Hin Hbad]. destruct judged as [bad un]. simpl in *. destruct un; [|done].
    destruct (Hj m Hin Hbad eq_refl) as [Hl|(c & ? & ? & Hc)]; [left; by eapply leaf_of_unique|]. right. exists c. split_and!; [done..|].
    eapply checked_mono; [exact Hc|lia|lia].
  - exfalso. rewrite (bind_ok _ _ _ None s1) in Hrun by done. apply bind_ok_inv in Hrun as (here & s2 & Eh & Hrun).
    assert (here = [] ∧ s2 = s1) as [-> ->].
    { unfold members in Eh. rewrite (bind_ok _ _ _ _ _ (get_group_none _ _ _ s1 Eg eq_refl eq_refl)) in Eh. by injection Eh as <- <-. }
    rewrite (bind_ok _ _ _ ([], []) s1), (bind_ok _ _ _ tt s1) in Hrun by done. apply bind_ok_inv in Hrun as (x & s4 & Ep & _).
    unfold commit, MAX_COMMIT_ATTEMPTS in Ep. cbn [commit_loop] in Ep. rewrite (bind_ok _ _ s1 s1 s1) in Ep by done.
    unfold active_group in Ep. apply bind_ok_inv in Ep as (g' & s5 & E5 & Ep).
    rewrite (bind_ok _ _ _ _ _ (get_group_none _ _ _ s1 Eg eq_refl eq_refl)) in E5. injection E5 as <- <-. done.
Qed.

End parts.

(** * A toy engine *)

#[local] Existing Instances integer_numbers integer_numbers_laws ascii_text ascii_text_laws plain_hex.
#[local] Instance plain_sha : Sha256 := {| sha256 b := b |}.

Definition toy_member (leaf : Z) (wallet : string) : MlsMember := {|
  leafIndex := leaf; identityHex := []; signatureKeyHex := [];
  mb_certificate := Some {| ct_v := 1; ct_wallet := js wallet; ct_device_id := js "d"; ct_mls_key := js wallet; ct_issued_at_ms := 0;
                            ct_sig := Some []; ct_signer_key := Some []; ct_authority_key := None |} |}.

(** The member lists of the group's epochs.  From 0, this device's commit removes
    Bob (1); a rival commit adds Mallory (2), after which Bob is removed (3). *)
Definition toy_members (g : Z) : list MlsMember :=
  match g with
  | 0 => [toy_member 0 "0xme"; toy_member 1 "0xbob"; toy_member 3 "0xcarol"]
  | 1 => [toy_member 0 "0xme"; toy_member 3 "0xcarol"]
  | 2 => [toy_member 0 "0xme"; toy_member 1 "0xbob"; toy_member 3 "0xcarol"; toy_member 2 "0xmallory"]
  | 3 => [toy_member 0 "0xme"; toy_member 3 "0xcarol"; toy_member 2 "0xmallory"]
  | _ => []
  end.

Definition toy_identity : bytes := utf8_encode (stringify (default JNull (certificate_json <$> mb_certificate (toy_member 0 "0xme")))).
Definition toy_inspected : jsstr := stringify (JObj [(js "kind", JStr (js "commit")); (js "epoch", num_json 0)]).

(** Devices are the number of their epoch; commits are 10 more than the epoch they leave. *)
#[local] Instance toy_engine : MlsEngine := {|
  Device := bytes; Group := Z; Reassembler := unit;
  snapshot d := d; restore d := d; identity _ := toy_identity; keyPackage d := ([], d);
  createGroup d _ := (0, d); join d _ := (None, d); rejoinExternal d _ := (None, d); deleteGroup d _ := d;
  loadGroup d _ := head d; epoch g := if g =? 0 then 0 else 1; isActive _ := true; membersJson := toy_members;
  addMembers d g _ := (None, g, d);
  removeLeaves d g l := if bool_decide (l = [1]) && ((g =? 0) || (g =? 2)) then (Some [10 + g], g + 1, [g + 1]) else (None, g, d);
  selfUpdate d g := (None, g, d); commitPending d g := (Some None, g, d); groupInfo _ _ := Some [];
  encrypt d g b := (Some (g :: b), g, d);
  process d g b := if g =? 0 then (Some {| p_kind := js "commit"; p_plaintext := None; p_senderIdentity := None |}, 2, [2]) else (None, g, d);
  withIdentity d _ := d; updateCredential d g := (None, g, d); leave d g := (None, g, d);
  DeviceKeys := unit; keys_publicKey _ := []; fromKeys _ _ := []; mlsCertificateCanonical _ _ _ _ := [];
  new_reassembler := tt; push r _ := (None, r);
  mlsInspect _ := Some toy_inspected; mlsKeyPackageCertificate _ := None; mlsHistorySplit _ _ := [] |}.

#[local] Instance toy_engine_laws : @MlsEngineLaws toy_engine.
Proof.
  split.
  - done.
  - intros g. simpl. unfold toy_members. repeat case_match; apply (bool_decide_unpack _); vm_compute; exact I.
  - intros d g l c g' d' m. simpl. destruct (bool_decide (l = [1])) eqn:El; [|done]. bool_to_Z. subst l.
    destruct (Z.eqb_spec g 0) as [->|]; [|destruct (Z.eqb_spec g 2) as [->|]; [|done]]; simpl; intros [= <- <- <-]; simpl;
      rewrite ?elem_of_cons, ?elem_of_nil; naive_solver.
  - intros d g r g' d' m. simpl. by intros [= <- <- <-].
Qed.

(** The rival's commit, as the relayer lists it. *)
Definition rival_row : RelayerMessage := {|
  messageId := js "m1"; groupId := js "0xg"; order := Int 1; encryptedText := [7]; nonce := []; keyVersion := 0;
  senderAddress := js "0xcarol"; createdAt := 0; updatedAt := 0; attachments := []; isEdited := false; isDeleted := false;
  syncStatus := js "SYNCED"; quiltPatchId := None; signature := []; signatureVersion := None; publicKey := []; principalOwner := None;
  subAgentId := None; identityClass := None; isAgentMessage := false; kind := k_commit; system := None; paymentMetadata := None |}.

(** Only Carol's certificate is valid.  When there is a rival, the relayer refuses
    the commit that leaves epoch 0, and lists the rival's from the sixth await on. *)
Definition toy_mls_env (rival : bool) : mls_env := {|
  en_certs := {| cf_verify _ c := Some (if decide (ct_wallet c = js "0xcarol") then c_valid else c_invalid); cf_v2 := None; cf_now _ := 0 |};
  en_wallet := js "0xme"; en_deviceId := js "d"; en_keyPackageTarget := None; en_onChainReaders := None;
  en_verifyRow _ _ := Some true; en_historyShareDays := None; en_randomUUID _ := js "u";
  en_postControlRow _ _ c := Some (negb (rival && bool_decide (c = [10])));
  en_fetchRows t _ after := Some (if rival && (6 <=? t)%nat && num_lt after (Int 1) then [rival_row] else [], false);
  en_postGroupInfo _ _ _ := true; en_getGroupInfo _ _ := None; en_claimKeyPackages _ _ := None; en_postWelcome _ _ _ _ := true;
  en_takeWelcomes _ := None; en_putKeyPackages _ _ := true; en_postAppRow _ _ _ := true;
  en_deleteDevice _ := true; en_getSelfGroupInfo _ := None; en_putSelfGroupInfo _ _ := true; en_postSelfMessage _ _ := None;
  en_fetchSelf _ _ := None; en_historyRowsPerGroup := None |}.

Definition toy_session : session := Session [0] [] [] 0 [] [] [] (new_certs 0) [].
Definition toy_readers : list jsstr := [js "0xme"; js "0xbob"; js "0xcarol"; js "0xmallory"].
Definition toy_inner : MlsInner := {| in_nonce := replicate 12 1; in_keyVersion := 0; in_ciphertext := replicate 16 2 |}.

Lemma toy_accepting : accepting (toy_mls_env false).
Proof. done. Qed.

#[local] Notation toy_seal rival := (seal (toy_mls_env rival) 3 (js "0xg") toy_readers toy_inner toy_session).

Lemma toy_life env : cache_life (en_certs env) (λ _, False) (new_certs 0).
Proof. by apply (life_begin _ _ new_store 0). Qed.

Lemma toy_answers : registry_answers (en_certs (toy_mls_env false)).
Proof. by intros v2 ?. Qed.

Lemma toy_addresses : addresses (toLowerCase <$> toy_readers).
Proof. intros w. revert w. apply Forall_forall. apply (bool_decide_unpack _). vm_compute. exact I. Qed.


(** After a refused commit the list is stale.  There is a run of [seal] in
    which this device's removal of a bad leaf loses the epoch to another member's
    commit, the session catches up with it and retries, and the message is then encrypted to
    a device that commit brought in: its certificate is one the verifier
    always rejects, and it was never looked at. *)
Lemma seal_after_race : ∃ out s' g m c,
  seal (toy_mls_env true) 3 (js "0xg") toy_readers toy_inner toy_session = (Ok out, s')
  ∧ map_get (js "0xg") (ms_groups s') = Some g ∧ (m ∈ membersJson g) ∧ mb_certificate m = Some c
  ∧ certificate toy_session ≠ (Ok c, toy_session)
  ∧ (∀ t, cf_verify (en_certs (toy_mls_env true)) t c = Some c_invalid)
  ∧ map_get (digest_of c) (cc_memory (ms_certs s')) = None
  ∧ ms_sent s' = [PostControlRow (js "0xg") [10] (Some false); PostGroupInfo (js "0xg") [];
                  PostControlRow (js "0xg") [12] (Some true); PostGroupInfo (js "0xg") []].
Proof.
  destruct (toy_seal true) as [[out|e] s'] eqn:E; [|exfalso; revert E; vm_compute; discriminate].
  exists out, s', 3, (toy_member 2 "0xmallory"), (default (toy_cert 1) (mb_certificate (toy_member 2 "0xmallory"))).
  split; [reflexivity|]. assert (s' = (toy_seal true).2) as -> by (by rewrite E). clear E.
  split; [vm_compute; reflexivity|]. split; [by apply (bool_decide_unpack _); vm_compute|]. split; [reflexivity|].
  split; [vm_compute; discriminate|]. split; [intros t; vm_compute; reflexivity|]. split; vm_compute; reflexivity.
Qed.
