(* ===== verification/MlsHistory.v ===== *)
(** What an MLS session keeps and asks for ([mls/session.ts]): history bundles
    ([MlsSession.importBundle]), the resync budget ([mayResync]) and the search
    of the log after an ambiguous failure ([findInLog]). *)
From stdpp Require Import sorting.
From S2P Require Import Prelude JsString JsMap Utf8 TextDecoder Json Verification Anchors Wire HttpTransport HttpCalls.
From S2P Require Import MlsRows MlsTypes MlsCertificates MlsSession MlsSeal.

#[local] Notation mls := (eff session mls_error).

(** * History bundles *)

Section bundles.
Context `{JsonNumbers} `{JsText} `{HexCodec} `{Sha256} `{MlsEngine}.

(** The rows of group [g] under key [k]. *)
Definition held (st : MlsStateStore) (g k : jsstr) : option rv := map_get k (group_rows g st).

(** A row an import may have brought to group [g]. *)
Definition imported_row (trusted : bool) (onlyGroup : option jsstr) (g k : jsstr) (r : rv) : Prop :=
  row_key r = k ∧ (∃ x, rv_get r "groupId" = Some (RStr x) ∧ toLowerCase x = g) ∧ startsWith (js "self:") g = false
  ∧ (trusted = false → rv_get r "senderVerified" = Some (RBool false))
  ∧ (∀ c o, onlyGroup = Some (c :: o) → g = c :: o).

(** Rows already held stay as they are; what is new was allowed in. *)
Definition import_post (trusted : bool) (onlyGroup : option jsstr) (s s' : session) : Prop :=
  ms_device s' = ms_device s ∧ ms_groups s' = ms_groups s ∧ ms_sent s' = ms_sent s ∧ st_cursors (ms_store s') = st_cursors (ms_store s)
  ∧ (∀ g k r, held (ms_store s) g k = Some r → held (ms_store s') g k = Some r)
  ∧ ∀ g k r, held (ms_store s) g k = None → held (ms_store s') g k = Some r → imported_row trusted onlyGroup g k r.

Lemma import_refl trusted only s s' : (∃ n, s' = set_certs n s ∧ cc_store n = ms_store s) → import_post trusted only s s'.
Proof. intros (n & -> & Hn). unfold import_post, ms_store in *. simpl. rewrite Hn. split_and!; try done. congruence. Qed.

Lemma import_trans trusted only s s' s'' : import_post trusted only s s' → import_post trusted only s' s'' → import_post trusted only s s''.
Proof.
  intros (? & ? & ? & ? & Hk & Hn) (? & ? & ? & ? & Hk' & Hn'). split_and!; try congruence; [eauto|].
  intros g k r Hno Hr. destruct (held (ms_store s') g k) as [r'|] eqn:E; [|by eauto].
  specialize (Hk' _ _ _ E). assert (r = r') as -> by congruence. eauto.
Qed.

Lemma mark_row_get trusted r k : k ≠ js "senderVerified" → match mark_row trusted r with RObj l => map_get k l | _ => None end
  = match r with RObj l => map_get k l | _ => None end.
Proof. intros Hk. unfold mark_row, rv_set. destruct r; try done. by rewrite map_get_set_ne. Qed.

Lemma mark_row_key trusted r : row_key (mark_row trusted r) = row_key r.
Proof.
  pose proof (mark_row_get trusted r (js "order") ltac:(done)) as Ho. pose proof (mark_row_get trusted r (js "messageId") ltac:(done)) as Hm.
  unfold row_key, row_order, rv_get. destruct (mark_row trusted r) eqn:E, r; try done; by rewrite Ho, Hm.
Qed.

Lemma import_group_spec trusted only e s : ∃ n s', import_group trusted only e s = (Ok n, s') ∧ import_post trusted only s s'.
Proof.
  destruct e as [gid v]. unfold import_group. cbn [fst snd]. set (key := toLowerCase gid).
  assert (import_post trusted only s s) as Hrefl by (apply import_refl; exists (ms_certs s); by destruct s).
  destruct (startsWith (js "self:") key) eqn:Eself; [by eexists _, s|].
  destruct (match only with Some (c :: g) => _ | _ => _ end) eqn:Eonly; [by eexists _, s|].
  destruct v as [| | | | | |rows|]; try (by eexists _, s).
  set (cand := filter (λ r, is_candidate key r = true) rows). destruct (is_nil cand); [by eexists _, s|].
  set (have := hasRows key cand (ms_store s)). rewrite (bind_ok _ _ _ have (set_certs (tick (ms_certs s)) s)) by done.
  set (fresh := mark_row trusted <$> filter (λ r, row_key r ∉ have) cand). destruct (is_nil fresh).
  { eexists _, _. split; [reflexivity|]. apply import_refl. by eexists. }
  eexists _, _. split; [reflexivity|]. unfold import_post, ms_store, held. simpl. fold (ms_store s).
  assert (∀ r, r ∈ fresh → ∃ x, r = mark_row trusted x ∧ (row_key r ∉ have) ∧ is_candidate key x = true ∧ (row_key r ∈ (row_key <$> cand))) as Hfresh.
  { intros r (x & -> & Hx)%list_elem_of_fmap. apply list_elem_of_filter in Hx as [Hx Hc]. exists x. rewrite mark_row_key.
    split_and!; [done|done| |by apply list_elem_of_fmap; exists x]. by apply list_elem_of_filter in Hc as [? _]. }
  split_and!; try done.
  - intros g k r Hr. rewrite group_rows_put. case_decide as Eg; [|done]. subst g. rewrite put_rows_fresh; [done|].
    intros (x & -> & Hx)%list_elem_of_fmap. destruct (Hfresh x Hx) as (y & _ & Hno & _ & Hin). apply Hno, list_elem_of_filter. split; [by eexists|done].
  - intros g k r Hno. rewrite group_rows_put. case_decide as Eg; [|congruence]. subst g. rewrite put_rows_get.
    destruct (list_find _ _) as [[i x]|] eqn:Ef; [|congruence]. intros [= ->]. apply list_find_Some in Ef as (Hi & Hk & _).
    apply list_elem_of_lookup_2 in Hi. rewrite elem_of_reverse in Hi. destruct (Hfresh r Hi) as (y & -> & _ & Hc & _).
    unfold is_candidate in Hc. unfold imported_row. split_and!; [done| |done| |].
    + pose proof (mark_row_get trusted y (js "groupId") ltac:(done)) as Hg. unfold rv_get in *.
      destruct y as [| | | | | | |l]; try done. destruct (mark_row trusted (RObj l)) as [| | | | | | |l'] eqn:Em; try done. rewrite Hg.
      destruct (map_get (js "messageId") l) as [[]|]; try done. destruct (map_get (js "order") l) as [[]|]; try done.
      destruct (map_get (js "groupId") l) as [[]|]; try done. destruct (map_get (js "encryptedText") l) as [[]|]; try done. bool_to_Z. eauto.
    + intros ->. unfold mark_row, rv_set, rv_get. destruct y; try done. by rewrite map_get_set_eq.
    + intros c o ->. by bool_to_Z.
Qed.

(** C34.  Importing history is harmless.  Whatever bytes a bundle holds, the
    import returns; rows this device already has are untouched, the group state and the
    cursors too; a bundle from another member brings rows of its own group only, all
    marked unverified, and never rows of a self-group. *)
Theorem import_safe payload trusted onlyGroup s :
  ∃ n s', importBundle payload trusted onlyGroup s = (Ok n, s') ∧ import_post trusted onlyGroup s s'.
Proof.
  assert (import_post trusted onlyGroup s s) as Hrefl by (apply import_refl; exists (ms_certs s); by destruct s).
  unfold importBundle. destruct (decodeRowsJson payload) as [b|]; [|by eexists _, s].
  destruct (rv_get b "v") as [[| |[[|[]|]| | | |]| | | | |]|]; try (by eexists _, s).
  destruct (rv_get b "groups") as [v|]; [|by eexists _, s]. generalize (entries v) as l. intros l. clear Hrefl.
  revert s. induction l as [|e l IH]; intros s.
  - eexists _, s. split; [done|]. apply import_refl. exists (ms_certs s). by destruct s.
  - destruct (import_group_spec trusted onlyGroup e s) as (n & s1 & E1 & Hi1). destruct (IH s1) as (m & s2 & E2 & Hi2).
    eexists _, s2. cbn [import_groups]. rewrite (bind_ok _ _ _ _ _ E1), (bind_ok _ _ _ _ _ E2). split; [done|]. by eapply import_trans.
Qed.
End bundles.

(** * From one device to another *)

Section transfer.
Context `{JsonNumbersLaws} `{JsText} `{HexCodec} `{Sha256} `{MlsEngine}.

(** A row as this session stores it, in group [g]. *)
Definition stored_row (g : jsstr) (r : rv) : Prop :=
  rv_ok r ∧ is_candidate g r = true ∧ ∃ b, rv_get r "senderVerified" = Some (RBool b).

Lemma mark_stored g r : stored_row g r → mark_row true r = r.
Proof.
  intros (_ & _ & b & Hb). unfold mark_row, rv_get, rv_set in *. destruct r as [| | | | | | |l]; try done. rewrite Hb.
  f_equal. apply map_set_same. rewrite Hb. by destruct b.
Qed.

Lemma put_rows_new rows : ∀ m, NoDup (row_key <$> rows) → (∀ r, r ∈ rows → map_get (row_key r) m = None) →
  put_rows rows m = m ++ ((λ r, (row_key r, r)) <$> rows).
Proof.
  unfold put_rows. induction rows as [|r rows IH]; intros m Hn Hm; [by rewrite app_nil_r|]. cbn [foldl fmap list_fmap].
  inversion Hn as [|? ? Hr Hn']; subst. rewrite map_set_fresh by (apply map_get_None, Hm; left).
  rewrite IH, <-(assoc_L (++)); [done|done|]. intros r' Hr'. rewrite map_get_app, (Hm r') by (by right). simpl.
  rewrite decide_False; [done|]. intros E. apply Hr. rewrite E. apply list_elem_of_fmap. by exists r'.
Qed.

(** A group whose rows can travel: its id is lower case and not a self-group's. *)
Definition group_ok (g : jsstr) : Prop :=
  toLowerCase g = g ∧ startsWith (js "self:") g = false ∧ wf_str g ∧ g ≠ js "$b" ∧ g ≠ js "$n".

(** Rows of several groups, none of them in [st] yet. *)
Definition transferable (l : list (jsstr * list rv)) (st : MlsStateStore) : Prop :=
  map_ok l ∧ Forall (λ e, group_ok e.1 ∧ Forall (stored_row e.1) e.2 ∧ NoDup (row_key <$> e.2) ∧ e.2 ≠ []
    ∧ ∀ r, r ∈ e.2 → map_get (row_key r) (group_rows e.1 st) = None) l.

Definition keyed (rows : list rv) : list (jsstr * rv) := (λ r, (row_key r, r)) <$> rows.
Definition rows_count (l : list (jsstr * list rv)) : nat := sum_list (length <$> l.*2).

Lemma bundle_ok l st : transferable l st → rv_ok (bundle_of l).
Proof.
  intros [Hl Hrows]. apply rv_ok_obj. split_and!.
  - apply (bool_decide_unpack _). vm_compute. exact I.
  - apply (bool_decide_unpack _). vm_compute. exact I.
  - apply (bool_decide_unpack _). vm_compute. exact I.
  - repeat apply Forall_cons_2; try apply Forall_nil_2; (split; [apply wf_js|]); [by apply num_stable_int|].
    apply rv_ok_obj. unfold map_ok in *. rewrite <-list_fmap_compose. rewrite Forall_forall in Hrows. split_and!; [exact Hl| | |].
    1-2: intros ([g rows] & E & Hin)%list_elem_of_fmap; destruct (Hrows _ Hin) as ((_ & _ & _ & Hb & Hn) & _); simpl in *; congruence.
    apply Forall_fmap, Forall_forall. intros [g rows] Hin. destruct (Hrows _ Hin) as ((_ & _ & Hg & _) & Hr & _).
    split; [done|]. apply rv_ok_arr. eapply Forall_impl; [exact Hr|]. by intros r (? & _).
Qed.

Lemma import_group_whole g rows s :
  group_ok g → Forall (stored_row g) rows → rows ≠ [] → (∀ r, r ∈ rows → map_get (row_key r) (group_rows g (ms_store s)) = None) →
  ∃ s', import_group true None (g, RArr rows) s = (Ok (length rows), s') ∧ ms_store s' = putRows g rows (ms_store s).
Proof.
  intros (Hl & Hself & _) Hrows Hne Hnew. unfold import_group. cbn [fst snd]. rewrite Hl, Hself.
  assert (filter (λ r, is_candidate g r = true) rows = rows) as ->.
  { apply filter_all. eapply Forall_impl; [exact Hrows|]. by intros r (_ & Hc & _). }
  destruct (is_nil rows) eqn:En; [by destruct rows|]. rewrite (bind_ok _ _ _ (hasRows g rows (ms_store s)) (set_certs (tick (ms_certs s)) s)) by done.
  assert (hasRows g rows (ms_store s) = []) as ->.
  { unfold hasRows. clear -Hnew. induction rows as [|r rows IH]; [done|]. rewrite fmap_cons, filter_cons_False.
    - apply IH. intros x Hx. apply Hnew. by right.
    - rewrite (Hnew r) by left. by intros []. }
  assert (mark_row true <$> filter (λ r, row_key r ∉ []) rows = rows) as ->.
  { clear -Hrows. induction Hrows as [|r rows Hr _ IH]; [done|]. rewrite filter_cons_True by apply not_elem_of_nil.
    rewrite fmap_cons, IH. f_equal. by eapply mark_stored. }
  rewrite En. by eexists.
Qed.

Lemma import_groups_whole l : ∀ s, transferable l (ms_store s) →
  ∃ s', import_groups true None ((λ e, (e.1, RArr e.2)) <$> l) s = (Ok (rows_count l), s')
    ∧ ∀ g, group_rows g (ms_store s') = group_rows g (ms_store s) ++ keyed (default [] (map_get g l)).
Proof.
  induction l as [|[g rows] l IH]; intros s [Hok Hrows]; [exists s; split; [done|]; intros g; by rewrite app_nil_r|].
  apply Forall_cons in Hrows as [(Hg & Hr & Hdup & Hne & Hnew) Hrows]. unfold map_ok in Hok. cbn [fmap list_fmap fst] in Hok.
  apply NoDup_cons in Hok as [Hfresh Hok]. cbn [fst snd] in *. destruct (import_group_whole g rows s Hg Hr Hne Hnew) as (s1 & E1 & Hs1).
  assert (∀ g', group_rows g' (ms_store s1) = if decide (g' = g) then group_rows g (ms_store s) ++ keyed rows else group_rows g' (ms_store s)) as Hrows1.
  { intros g'. rewrite Hs1, group_rows_put. case_decide; [|done]. by apply put_rows_new. }
  destruct (IH s1) as (s2 & E2 & Hs2).
  { split; [done|]. rewrite Forall_forall in Hrows |- *. intros [g' rows'] Hin. destruct (Hrows _ Hin) as (? & ? & ? & ? & Hnew').
    split_and!; try done. cbn [fst] in *. rewrite Hrows1, decide_False; [done|]. intros ->. apply Hfresh, list_elem_of_fmap. by exists (g, rows'). }
  cbn [fmap list_fmap import_groups fst snd]. exists s2. rewrite (bind_ok _ _ _ _ _ E1), (bind_ok _ _ _ _ _ E2). split; [done|].
  intros g'. rewrite Hs2, Hrows1. cbn [map_get]. destruct (decide (g' = g)) as [->|Hne'].
  - rewrite decide_True by done. cbn [default]. rewrite (map_get_absent g) by done. by rewrite app_nil_r.
  - by rewrite decide_False.
Qed.

(** A bundle of rows the importing device has none of is imported whole. *)
Lemma import_whole l s : transferable l (ms_store s) →
  ∃ s', importBundle (encodeRowsJson (bundle_of l)) true None s = (Ok (rows_count l), s')
    ∧ ∀ g, group_rows g (ms_store s') = group_rows g (ms_store s) ++ keyed (default [] (map_get g l)).
Proof.
  intros Hl. unfold importBundle. rewrite rows_roundtrip by (by eapply bundle_ok). by apply import_groups_whole.
Qed.

(** History moves whole.  The bundle a device makes of a group's rows,
    imported by another device of the same account that has none of them, puts
    exactly those rows in its store, with their verification; and imports as many. *)
Lemma history_transfer g rows s :
  toLowerCase g = g → startsWith (js "self:") g = false → wf_str g → g ≠ js "$b" → g ≠ js "$n" →
  Forall (stored_row g) rows → NoDup (row_key <$> rows) → rows ≠ [] → (∀ r, r ∈ rows → held (ms_store s) g (row_key r) = None) →
  ∃ s', importBundle (encodeRowsJson (bundle_of [(g, rows)])) true None s = (Ok (length rows), s')
    ∧ group_rows g (ms_store s') = group_rows g (ms_store s) ++ ((λ r, (row_key r, r)) <$> rows)
    ∧ ∀ g', g' ≠ g → group_rows g' (ms_store s') = group_rows g' (ms_store s).
Proof.
  intros Hl Hself Hg Hb Hn Hrows Hdup Hne Hnew. destruct (import_whole [(g, rows)] s) as (s' & E & Hs').
  { split; [apply NoDup_singleton|]. by apply Forall_singleton. }
  exists s'. unfold rows_count in E. simpl in E. rewrite Nat.add_0_r in E. split; [exact E|]. split.
  - rewrite (Hs' g). simpl. by rewrite decide_True.
  - intros g' Hg'. rewrite Hs'. simpl. by rewrite decide_False, app_nil_r.
Qed.
End transfer.

(** * The resync budget *)

Section budget.
Context `{JsonNumbers} `{JsText} `{HexCodec} `{Sha256} `{MlsEngine} (env : mls_env) (key : jsstr).

(** What a session does between states, as far as the budget of [key] goes: other
    work leaves its record alone, and every resync asks first; the list is the
    times at which the answer was yes. *)
Inductive resync_run : session → list Z → session → Prop :=
  | run_start s : map_get key (ms_resyncs s) = None → resync_run s [] s
  | run_other s0 l s s' : resync_run s0 l s → map_get key (ms_resyncs s') = map_get key (ms_resyncs s) →
      (ms_ticks s ≤ ms_ticks s')%nat → resync_run s0 l s'
  | run_no s0 l s s' : resync_run s0 l s → mayResync env key s = (Ok false, s') → resync_run s0 l s'
  | run_yes s0 l s s' : resync_run s0 l s → mayResync env key s = (Ok true, s') →
      resync_run s0 (l ++ [cf_now (en_certs env) (ms_ticks s)]) s'.

(** What is recorded is what was granted in the hour before the last question. *)
Definition recorded (l : list Z) (s : session) : Prop :=
  ∃ t, t ≤ cf_now (en_certs env) (ms_ticks s) ∧ Forall (λ x, x ≤ t) l
    ∧ default [] (map_get key (ms_resyncs s)) = filter (λ x, t - 3600000 < x) l.

(** No hour holds four. *)
Definition spaced (l : list Z) : Prop :=
  StronglySorted Z.le l ∧ ∀ i x y, l !! i = Some x → l !! (i + 3)%nat = Some y → x + 3600000 ≤ y.

Lemma filter_later (a b : Z) (l : list Z) : a ≤ b → filter (λ x, b - 3600000 < x) (filter (λ x, a - 3600000 < x) l) = filter (λ x, b - 3600000 < x) l.
Proof. intros Hab. rewrite list_filter_filter. apply list_filter_iff. intros x. lia. Qed.

Lemma mayResync_spec l s b s' : recorded l s → mayResync env key s = (Ok b, s') →
  let t := cf_now (en_certs env) (ms_ticks s) in
  let recent := filter (λ x, t - 3600000 < x) l in
  ms_ticks s' = ms_ticks s ∧ (b = true → (length recent < 3)%nat)
  ∧ default [] (map_get key (ms_resyncs s')) = recent ++ (if b then [t] else []).
Proof.
  intros (t0 & Ht & _ & Hr). unfold mayResync, now. run_eff. unfold recent_resyncs.
  rewrite Hr, (filter_later _ _ _ Ht). destruct (length (filter _ l)) as [|[|[|n]]].
  4: { intros [= <- <-]. simpl. rewrite map_get_set_eq, app_nil_r. by split_and!. }
  all: destruct (_ <? _); intros [= <- <-]; simpl; rewrite ?map_get_set_eq, ?app_nil_r; split_and!; try done; lia.
Qed.

Lemma spaced_snoc l t : spaced l → Forall (λ x, x ≤ t) l → (length (filter (λ x, (t - 3600000 < x)%Z) l) < 3)%nat → spaced (l ++ [t]).
Proof.
  intros [Hs Hl] Ht Hn. rewrite Forall_forall in Ht. split.
  { apply StronglySorted_app_2; [|done|by repeat constructor]. intros x y Hx ->%list_elem_of_singleton. auto. }
  intros i x y Hx Hy. destruct (decide (i + 3 < length l)%nat) as [Hi|Hi].
  - rewrite lookup_app_l in Hx, Hy by lia. by eapply Hl.
  - assert (i + 3 = length l)%nat as Hi'. { apply lookup_lt_Some in Hy. rewrite length_app in Hy. simpl in Hy. lia. }
    rewrite Hi', lookup_app_r, Nat.sub_diag in Hy by lia. injection Hy as <-. rewrite lookup_app_l in Hx by lia.
    destruct (decide (x + 3600000 ≤ t)) as [?|Hbad]; [done|exfalso].
    rewrite <-(take_drop i l), filter_app, length_app in Hn. rewrite <-(take_drop i l) in Hs.
    assert (filter (λ x, t - 3600000 < x) (drop i l) = drop i l) as E.
    { apply filter_all. rewrite (drop_S _ _ _ Hx) in *. apply StronglySorted_app_1_r, StronglySorted_inv in Hs as [_ Hs].
      constructor; [lia|]. eapply Forall_impl; [exact Hs|]. simpl. lia. }
    rewrite E, length_drop in Hn. lia.
Qed.

(** Resyncs are bounded.  However a session interleaves its work, while the
    clock does not go back, at most three resyncs of a group start in any hour. *)
Lemma resync_budget s0 l s : (∀ i j, (i ≤ j)%nat → cf_now (en_certs env) i ≤ cf_now (en_certs env) j) →
  resync_run s0 l s → ∀ i x y, l !! i = Some x → l !! (i + 3)%nat = Some y → x + 3600000 ≤ y.
Proof.
  intros Hclock Hrun. apply (proj2 (A := StronglySorted Z.le l)). cut (spaced l ∧ recorded l s); [by intros [? _]|].
  induction Hrun as [s Hs|s0 l s s' _ [Hl (t & Ht & Hall & Hr)] Hsame Htick|s0 l s s' _ [Hl Hrec] Hno|s0 l s s' _ [Hl Hrec] Hyes].
  - split; [split; [constructor|done]|]. eexists. split_and!; [done|constructor|by rewrite Hs].
  - split; [done|]. exists t. rewrite Hsame. split_and!; [|done..]. etrans; [exact Ht|by apply Hclock].
  - destruct (mayResync_spec _ _ _ _ Hrec Hno) as (Htick & _ & Hr). split; [done|].
    exists (cf_now (en_certs env) (ms_ticks s)). rewrite Htick, Hr, app_nil_r. split_and!; [done| |done].
    destruct Hrec as (t & ? & Hall & _). eapply Forall_impl; [exact Hall|]. simpl. lia.
  - destruct (mayResync_spec _ _ _ _ Hrec Hyes) as (Htick & Hn & Hr).
    assert (Forall (λ x, x ≤ cf_now (en_certs env) (ms_ticks s)) l) as Hall.
    { destruct Hrec as (t & ? & Hall & _). eapply Forall_impl; [exact Hall|]. simpl. lia. }
    split; [by apply spaced_snoc; auto|]. exists (cf_now (en_certs env) (ms_ticks s)). rewrite Htick, Hr. split_and!; [done| |].
    + apply Forall_app. split; [done|]. by apply Forall_singleton.
    + rewrite filter_app. f_equal. rewrite filter_cons_True by lia. done.
Qed.
End budget.

(** * A commit whose answer was lost *)

Section settled.
Context `{JsonNumbers} `{JsText} `{HexCodec} `{Sha256} `{MlsEngine} (env : mls_env) (log : jsstr → list RelayerMessage).

Definition position (r : RelayerMessage) : Z := match order r with Int z => z | _ => 0 end.

(** A group's log: integer positions, growing. *)
Definition ordered (l : list RelayerMessage) : Prop :=
  Forall (λ r, order r = Int (position r)) l ∧ StronglySorted (λ r r', position r < position r') l.

Definition after (c : Z) (l : list RelayerMessage) : list RelayerMessage := filter (λ r, c < position r) l.

(** The relayer lists the log from the cursor, by pages of its choice. *)
Definition honest_log : Prop := ∀ g, ordered (log g) ∧ ∀ t c, ∃ k, (0 < k)%nat ∧
  en_fetchRows env t g (Int c) = Some (take k (after c (log g)), bool_decide (k < length (after c (log g)))%nat).

(** The commit with bytes [b] is among [l]. *)
Definition landed (b : bytes) (l : list RelayerMessage) : bool :=
  existsb (λ r, bool_decide (kind r = k_commit) && bool_decide (encryptedText r = b)) l.

Lemma scan_page_spec b l : ∀ c, ordered l → Forall (λ r, c < position r) l →
  ∃ c', scan_page b (Int c) l = (landed b l, Int c') ∧ c ≤ c' ∧ (landed b l = false → ∀ r, last l = Some r → c' = position r).
Proof.
  induction l as [|r l IH]; intros c [Ho Hs] Hc; [by exists c|]. cbn [scan_page landed existsb].
  apply Forall_cons in Ho as [Er Ho]. apply Forall_cons in Hc as [Hr Hc]. apply StronglySorted_inv in Hs as [Hs Hl].
  rewrite Er. unfold num_max. cbn [num_lt]. rewrite (proj2 (Z.ltb_lt _ _) Hr).
  destruct (bool_decide _ && bool_decide _); [exists (position r); simpl; split_and!; [done|lia|done]|].
  destruct (IH (position r)) as (c' & E & Hle & Hlast); [done..|]. exists c'. split_and!; [done|lia|]. intros Hno r' Hr'.
  destruct l as [|r1 l]; [|by apply Hlast]. injection Hr' as <-. by injection E.
Qed.

Lemma after_take c k l r : ordered l → last (take k (after c l)) = Some r → after (position r) l = drop k (after c l).
Proof.
  intros [_ Hs]. revert k. induction Hs as [|x l Hs IH Hx]; intros k Hr; [by destruct k|]. unfold after in *. rewrite Forall_forall in Hx.
  destruct (decide (c < position x)) as [Hc|Hc].
  - rewrite (filter_cons_True (λ r0, c < position r0) x) in * by done. destruct k as [|k]; [done|]. cbn [take firstn] in Hr. cbn [drop skipn].
    assert (filter (λ r, c < position r) l = l) as El by (apply filter_all, Forall_forall; intros y Hy; specialize (Hx y Hy); lia).
    rewrite El in *. destruct (take k l) as [|y l'] eqn:Et.
    + injection Hr as <-. rewrite filter_cons_False by lia. rewrite filter_all by (by apply Forall_forall). by destruct k, l.
    + change (last (x :: y :: l')) with (last (y :: l')) in Hr. assert (r ∈ l) as Hin.
      { apply last_Some in Hr as [l1 E]. rewrite <-(take_drop k l), Et, E. rewrite !elem_of_app. left. right. by left. }
      specialize (Hx r Hin). rewrite filter_cons_False by lia. apply IH. by rewrite Et.
  - rewrite (filter_cons_False (λ r0, c < position r0) x) in * by done. specialize (IH k Hr).
    assert (r ∈ filter (λ r, c < position r) l) as Hin.
    { apply last_Some in Hr as [l1 E]. rewrite <-(take_drop k (filter _ l)), E. rewrite !elem_of_app. left. right. by left. }
    apply list_elem_of_filter in Hin as [Hr1 _]. by rewrite filter_cons_False by lia.
Qed.

Lemma Forall_after (P : RelayerMessage → Prop) c l : Forall P l → Forall P (after c l).
Proof. rewrite !Forall_forall. intros Hp r Hr. apply list_elem_of_filter in Hr as [_ Hr]. auto. Qed.

Lemma after_ordered c l : ordered l → ordered (after c l) ∧ Forall (λ r, c < position r) (after c l).
Proof.
  intros [Ho Hs]. split; [split; [by apply Forall_after|]|apply Forall_forall; intros r Hr; by apply list_elem_of_filter in Hr as [? _]].
  clear Ho. induction Hs as [|x l Hs IH Hx]; [constructor|]. unfold after in *. rewrite filter_cons. case_decide; [|done].
  constructor; [done|]. by apply (Forall_after _ c l).
Qed.

(** Only the clock moved. *)
Definition waited (s s' : session) : Prop := ∃ n, s' = set_certs n s ∧ cc_store n = ms_store s.

Lemma waited_trans s s' s'' : waited s s' → waited s' s'' → waited s s''.
Proof. intros (n & -> & En) (m & -> & Em). exists m. split; [done|]. by rewrite Em. Qed.

Lemma find_loop_spec b g : honest_log → ∀ n c s, (length (after c (log g)) < n)%nat →
  ∃ s', find_loop env n g b (Int c) s = (Ok (landed b (after c (log g))), s') ∧ waited s s'.
Proof.
  intros Hlog. destruct (Hlog g) as [Hord Hpage]. induction n as [|n IH]; intros c s Hn; [lia|]. cbn [find_loop].
  destruct (Hpage (ms_ticks s) c) as (k & Hk & Ep). set (rest := after c (log g)) in *.
  assert (fetchRows env g (Int c) s = (Ok (take k rest, bool_decide (k < length rest)%nat), set_certs (tick (ms_certs s)) s)) as E.
  { unfold fetchRows, ask, await, or_throw. run_eff. by rewrite Ep. }
  rewrite (bind_ok _ _ _ _ _ E). cbn [fst snd].
  assert (waited s (set_certs (tick (ms_certs s)) s)) as Hw by (by eexists).
  destruct (after_ordered c _ Hord) as [Hor Hc]. fold rest in Hor, Hc.
  rewrite <-(take_drop k rest) in Hor, Hc. destruct Hor as [Ho Hs]. apply Forall_app in Ho as [Ho _], Hc as [Hc _].
  apply StronglySorted_app_1_l in Hs. destruct (scan_page_spec b (take k rest) c (conj Ho Hs) Hc) as (c' & Escan & _ & Hlast).
  rewrite Escan. assert (landed b rest = landed b (take k rest) || landed b (drop k rest)) as ->.
  { unfold landed. rewrite <-existsb_app. by rewrite take_drop. }
  destruct (landed b (take k rest)) eqn:El; [by eexists|]. cbn [orb].
  destruct (negb _ || is_nil _) eqn:Eend.
  - assert (drop k rest = []) as ->; [|by eexists]. apply drop_ge. apply orb_true_iff in Eend as [Hm|Hm].
    + bool_to_Z. lia.
    + destruct rest; simpl; [lia|]. by destruct k; [lia|].
  - apply orb_false_iff in Eend as [Hmore Hpg]. bool_to_Z.
    destruct (last (take k rest)) as [r|] eqn:Er; [|apply last_None in Er; by rewrite Er in Hpg].
    rewrite (Hlast eq_refl r eq_refl). destruct (IH (position r) (set_certs (tick (ms_certs s)) s)) as (s' & E' & Hw').
    + rewrite (after_take c k) by done. fold rest. rewrite length_drop. lia.
    + exists s'. rewrite E', (after_take c k) by done. split; [done|eapply waited_trans; [exact Hw|exact Hw']].
Qed.

(** C35.  A lost answer is settled by the log.  When the relayer lists its log
    truthfully, posting a commit always returns: the relayer's answer if it came, and
    otherwise whether the commit is in the group's log after the cursor; the search ends
    as soon as the log's rows are exhausted, and changes nothing of the session. *)
Theorem commit_settled fuel g commit c s :
  honest_log → getCursor g (ms_store s) = Int c → (length (log g) < fuel)%nat →
  let answer := en_postControlRow env (ms_ticks s) g commit in
  ∃ s', postCommit env fuel g commit s = (Ok (match answer with Some a => a | None => landed commit (after c (log g)) end), s')
    ∧ waited (add_sent (PostControlRow g commit answer) s) s'.
Proof.
  intros Hlog Hc Hfuel. cbv zeta. unfold postCommit.
  set (s1 := set_certs (tick (ms_certs s)) s). set (answer := en_postControlRow env (ms_ticks s) g commit).
  rewrite (bind_ok _ _ s answer s1) by done. set (s2 := add_sent (PostControlRow g commit answer) s1).
  rewrite (bind_ok _ _ s1 tt s2) by done. destruct answer as [a|]; [by exists s2; split; [done|by eexists]|].
  assert (∃ s3, findInLog env fuel g commit s2 = (Ok (landed commit (after c (log g))), s3) ∧ waited s2 s3) as (s3 & E & Hw).
  { unfold findInLog. set (s2' := set_certs (tick (ms_certs s2)) s2).
    assert (with_store (getCursor g) s2 = (Ok (Int c), s2')) as E by (rewrite <-Hc; done).
    rewrite (bind_ok _ _ _ _ _ E). destruct (find_loop_spec commit g Hlog fuel c s2') as (s3 & E3 & Hw).
    - pose proof (length_filter (λ r, c < position r) (log g)). unfold after. lia.
    - exists s3. split; [done|]. eapply waited_trans; [|exact Hw]. by eexists. }
  exists s3. split.
  - rewrite (bind_ok _ _ s2 (Some (landed commit (after c (log g)))) s3); [done|]. unfold catch, try_catch. by rewrite (bind_ok _ _ _ _ _ E).
  - destruct Hw as (n & -> & En). exists n. by split.
Qed.
End settled.

(** * Concrete sessions *)

#[local] Existing Instances integer_numbers integer_numbers_laws ascii_text ascii_text_laws plain_hex toy_engine.
#[local] Existing Instance MlsSeal.plain_sha.

Definition toy_stored : rv :=
  RObj [(js "messageId", RStr (js "m1")); (js "order", RNum (Int 1)); (js "groupId", RStr (js "0xg"));
        (js "encryptedText", RBytes [1; 2]); (js "senderVerified", RBool true)].

Lemma toy_stored_row : stored_row (js "0xg") toy_stored.
Proof.
  split; [|split; [vm_compute; reflexivity|exists true; vm_compute; reflexivity]]. apply rv_ok_obj. split_and!.
  all: try (apply (bool_decide_unpack _); vm_compute; exact I).
  repeat apply Forall_cons_2; try apply Forall_nil_2; (split; [apply wf_js|]); try exact I; try apply wf_js; try (by apply num_stable_int).
  apply (bool_decide_unpack _). vm_compute. exact I.
Qed.

Lemma history_transfer_witness : ∃ s', importBundle (encodeRowsJson (bundle_of [(js "0xg", [toy_stored])])) true None toy_session = (Ok 1%nat, s')
  ∧ group_rows (js "0xg") (ms_store s') = [(row_key toy_stored, toy_stored)].
Proof.
  destruct (history_transfer (js "0xg") [toy_stored] toy_session) as (s' & E & Hg & _).
  - reflexivity.
  - vm_compute. reflexivity.
  - apply wf_js.
  - vm_compute. discriminate.
  - vm_compute. discriminate.
  - apply Forall_singleton, toy_stored_row.
  - apply NoDup_singleton.
  - discriminate.
  - intros r _. vm_compute. reflexivity.
  - exists s'. split; [exact E|]. rewrite Hg. reflexivity.
Defined.

(** Twenty minutes between awaits; commits are never answered; one row a page. *)
Definition toy_log : list RelayerMessage := [rival_row].

Definition toy_history_env : mls_env := {|
  en_certs := {| cf_verify _ _ := None; cf_v2 := None; cf_now t := Z.of_nat t * 1200000 |};
  en_wallet := js "0xme"; en_deviceId := js "d"; en_keyPackageTarget := None; en_onChainReaders := None;
  en_verifyRow _ _ := None; en_historyShareDays := None; en_randomUUID _ := js "u";
  en_postControlRow _ _ _ := None;
  en_fetchRows _ _ c := match c with Int c => Some (take 1 (after c toy_log), bool_decide (1 < length (after c toy_log))%nat) | _ => None end;
  en_postGroupInfo _ _ _ := true; en_getGroupInfo _ _ := None; en_claimKeyPackages _ _ := None; en_postWelcome _ _ _ _ := true;
  en_takeWelcomes _ := None; en_putKeyPackages _ _ := true; en_postAppRow _ _ _ := true;
  en_deleteDevice _ := true; en_getSelfGroupInfo _ := None; en_putSelfGroupInfo _ _ := true; en_postSelfMessage _ _ := None;
  en_fetchSelf _ _ := None; en_historyRowsPerGroup := None |}.

#[local] Notation toy_asks s := (mayResync toy_history_env (js "0xg") s).
#[local] Notation later s := (set_certs (tick (ms_certs s)) s).

Lemma toy_asks_yes s0 l s : resync_run toy_history_env (js "0xg") s0 l s → (toy_asks s).1 = Ok true →
  resync_run toy_history_env (js "0xg") s0 (l ++ [Z.of_nat (ms_ticks s) * 1200000]) (later (toy_asks s).2).
Proof.
  intros Hrun Hyes. refine (run_other _ _ _ _ (toy_asks s).2 _ (run_yes _ _ _ _ s _ Hrun _) _ _); [|done|unfold ms_ticks; simpl; lia].
  by destruct (toy_asks s) as [r s'] eqn:E; simpl in *; subst r.
Qed.

Lemma resync_budget_witness : ∃ l s, resync_run toy_history_env (js "0xg") toy_session l s
  ∧ l = [0; 1200000; 2400000; 3600000] ∧ (0 + 3600000 ≤ 3600000).
Proof.
  pose proof (run_start toy_history_env (js "0xg") toy_session eq_refl) as Hrun.
  do 4 (apply toy_asks_yes in Hrun; [|vm_compute; reflexivity]).
  match type of Hrun with resync_run _ _ _ ?l ?s => exists l, s; assert (l = [0; 1200000; 2400000; 3600000]) as E by (vm_compute; reflexivity) end.
  split; [exact Hrun|]. split; [exact E|].
  refine (resync_budget toy_history_env (js "0xg") _ _ _ _ Hrun 0%nat 0 3600000 _ _).
  - intros i j Hij. cbn. lia.
  - by rewrite E.
  - by rewrite E.
Defined.

Lemma commit_settled_witness : honest_log toy_history_env (λ _, toy_log)
  ∧ ∃ s', postCommit toy_history_env 2 (js "0xg") [7] toy_session = (Ok true, s').
Proof.
  assert (honest_log toy_history_env (λ _, toy_log)) as Hlog.
  { intros g. split.
    - split; [by repeat constructor|by repeat constructor].
    - intros t c. exists 1%nat. split; [lia|]. reflexivity. }
  split; [exact Hlog|]. destruct (commit_settled toy_history_env _ 2 (js "0xg") [7] 0 toy_session Hlog) as (s' & E & _).
  - vm_compute. reflexivity.
  - simpl. lia.
  - exists s'. rewrite E. vm_compute. reflexivity.
Defined.
