(* ===== verification/MlsSelf.v ===== *)
(** The self-group ([mls/session.ts]): an MLS group of one account's own devices,
    over which they send each other the history they hold.  Its log, its
    GroupInfo and its messages have relayer routes of their own. *)
From S2P Require Import Prelude JsString JsMap Utf8 TextDecoder Json Verification Anchors Wire HttpTransport HttpCalls.
From S2P Require Import MlsRows MlsTypes MlsCertificates MlsTrust MlsSession MlsFrame MlsSeal.

#[local] Notation mls := (eff session mls_error).

Section self.
Context `{JsonNumbers} `{JsText} `{HexCodec} `{Sha256} `{MlsEngine} (env : mls_env) (fuel : nat).

Definition selfId : jsstr := js "self:" ++ en_wallet env.

Definition postSelf (body : bytes) : mls (option bool) :=
  r ← ask (λ t, en_postSelfMessage env t body); modify (add_sent (PostSelfMessage body r));; mret r.

(** [putSelfGroupInfo(#id, group.groupInfo(device))]; whether it resolved. *)
Definition putSelfInfo (g : Group) : mls bool :=
  s ← get_state;
  info ← or_throw EngineError (groupInfo (ms_device s) g);
  modify (add_sent (PutSelfGroupInfo info));;
  ask (λ t, en_putSelfGroupInfo env t info).

(** ** Joining *)

Fixpoint ensure_self_loop (attempts : nat) : mls unit :=
  match attempts with
  | O => mret tt
  | S attempts' =>
      info ← (r ← ask (en_getSelfGroupInfo env); or_throw RelayerError r);
      s ← get_state;
      let before := snapshot (ms_device s) in
      match info with
      | None =>
          let '(g, d) := createGroup (ms_device s) (utf8_encode selfId) in
          let '(claim, g, d) := selfUpdate d g in
          modify (set_device d);;
          claim ← or_throw EngineError claim;
          accepted ← (r ← postSelf claim; or_throw RelayerError r);
          if (accepted : bool) then
            setGroup selfId g;;
            persist env;;
            ok ← putSelfInfo g;
            if (ok : bool) then mret tt else throw RelayerError
          else
            rollback before;; ensure_self_loop attempts'
      | Some info =>
          let '(j, d) := rejoinExternal (ms_device s) info in
          modify (set_device d);;
          j ← or_throw EngineError j;
          drop_group selfId;;
          accepted ← (r ← postSelf j.1; or_throw RelayerError r);
          if (accepted : bool) then
            setGroup selfId j.2;;
            persist env;;
            putSelfInfo j.2;;
            mret tt
          else
            rollback before;; ensure_self_loop attempts'
      end
  end.

Definition ensureSelfGroup : mls unit :=
  joined ← hasGroup selfId;
  if (joined : bool) then mret tt else ensure_self_loop MAX_COMMIT_ATTEMPTS.

(** ** The log *)

(** The rows of a page: the cursor, and whether to answer with history; [None]
    when this device was removed. *)
Fixpoint self_items (items : list (number * bytes)) (cursor : number) (send : bool) : mls (option (number * bool)) :=
  match items with
  | [] => mret (Some (cursor, send))
  | item :: items' =>
      let cursor := num_max cursor item.1 in
      g ← (g ← get_group selfId; or_throw EngineError g);
      let before := membersJson g in
      processed ← catch (p ← on_group selfId g (λ d g, process d g item.2); mret (Some p)) None;
      match processed with
      | None => self_items items' cursor send
      | Some p =>
          if decide (p_kind p = js "commit") then
            g ← (g ← get_group selfId; or_throw EngineError g);
            if negb (isActive g) then persist env;; update_store (setCursor selfId cursor);; mret None else
            let joinedNew := existsb (λ m, negb (bool_decide (member_key m ∈ (member_key <$> before)))) (membersJson g) in
            answers ← (if (joinedNew : bool) then isResponder before g else mret false);
            self_items items' cursor (send || answers)
          else
            (match p_plaintext p with
             | Some plaintext =>
                 if decide (p_kind p = js "application") then
                   bundle ← reassemble selfId plaintext;
                   match bundle with Some b => importBundle b true None;; mret tt | None => mret tt end
                 else mret tt
             | None => mret tt
             end);;
            self_items items' cursor send
      end
  end.

Fixpoint self_log_loop (n : nat) (cursor : number) (send : bool) : mls bool :=
  match n with
  | O => throw OutOfFuel
  | S n' =>
      items ← (r ← ask (λ t, en_fetchSelf env t cursor); or_throw RelayerError r);
      r ← self_items items cursor send;
      match r with
      | None => mret false
      | Some (cursor, send) =>
          persist env;;
          update_store (setCursor selfId cursor);;
          if Z.of_nat (length items) <? SYNC_PAGE then mret send else self_log_loop n' cursor send
      end
  end.

Definition syncSelfLog : mls bool :=
  g ← active_group selfId;
  match g with
  | None => mret false
  | Some _ => cursor ← with_store (getCursor selfId); self_log_loop fuel cursor false
  end.

(** ** Commits *)

Fixpoint self_commit_loop (attempts : nat) (build : Group → mls (option bytes)) : mls bool :=
  match attempts with
  | O => mret false
  | S attempts' =>
      s ← get_state;
      let before := snapshot (ms_device s) in
      g ← active_group selfId;
      match g with
      | None => mret false
      | Some g =>
          c ← build g;
          match c with
          | None => mret false
          | Some c =>
              accepted ← try_catch (r ← postSelf c; or_throw RelayerError r) (λ e, rollback before;; throw e);
              if (accepted : bool) then
                persist env;;
                g ← get_group selfId;
                match g with Some g => putSelfInfo g;; mret true | None => mret true end
              else
                rollback before;;
                syncSelfLog;;
                self_commit_loop attempts' build
          end
      end
  end.

Definition selfCommit (build : Group → mls (option bytes)) : mls bool := self_commit_loop MAX_COMMIT_ATTEMPTS build.

Definition self_remove (bad : list Z) (g : Group) : mls (option bytes) :=
  c ← on_group selfId g (λ d g, removeLeaves d g bad); mret (Some c).

Definition self_pending (g : Group) : mls (option bytes) := on_group selfId g commitPending.

(** ** Sending history *)

Definition historyRowsPerGroup : nat := default 500%nat (en_historyRowsPerGroup env).

Fixpoint own_history (ids : list jsstr) : mls (list (jsstr * list rv)) :=
  match ids with
  | [] => mret []
  | id :: ids' =>
      if startsWith (js "self:") id then own_history ids' else
      rows ← with_store (listRows id None historyRowsPerGroup);
      r ← own_history ids';
      mret (if is_nil rows then r else (id, rows) :: r)
  end.

Fixpoint post_self_chunks (chunks : list bytes) : mls unit :=
  match chunks with
  | [] => mret tt
  | chunk :: chunks' =>
      g ← (g ← get_group selfId; or_throw EngineError g);
      body ← on_group selfId g (λ d g, encrypt d g chunk);
      (r ← postSelf body; or_throw RelayerError r);;
      persist env;;
      post_self_chunks chunks'
  end.

Definition sendOwnHistory : mls unit :=
  g ← active_group selfId;
  match g with
  | None => mret tt
  | Some _ =>
      ids ← with_store groupIds;
      groups ← own_history ids;
      if is_nil groups then mret tt else
      s ← get_state;
      post_self_chunks (mlsHistorySplit (en_randomUUID env (ms_ticks s)) (encodeRowsJson (bundle_of groups)))
  end.

(** ** The membership rule for own devices *)

Definition judge_own (m : MlsMember) : mls verdict :=
  match mb_certificate m with
  | None => mret v_bad
  | Some cert =>
      if negb (bool_decide (toLowerCase (ct_wallet cert) = en_wallet env)) then mret v_bad else
      me ← certificate;
      if bool_decide (ct_mls_key cert = ct_mls_key me) then mret v_bad else
      st ← certificate_status env cert;
      mret (match st with c_valid => v_fine | c_invalid => v_bad | c_unknown => v_unknown (en_wallet env) end)
  end.

(** The leaves to remove, and whether some device could not be verified. *)
Fixpoint judge_owns (mine : option Z) (l : list MlsMember) : mls (list Z * bool) :=
  match l with
  | [] => mret ([], false)
  | m :: l' =>
      v ← (if bool_decide (Some (leafIndex m) = mine) then mret v_fine else judge_own m);
      r ← judge_owns mine l';
      mret (match v with v_fine => r | v_bad => (leafIndex m :: r.1, r.2) | v_unknown _ => (r.1, true) end)
  end.

(** [syncSelf] up to the sending of history: whether to send it. *)
Definition selfRule : mls bool :=
  send ← syncSelfLog;
  g ← active_group selfId;
  match g with
  | None => mret false
  | Some g =>
      mine ← myLeaf g;
      here ← members selfId;
      judged ← judge_owns mine here;
      (if is_nil judged.1 then mret tt else catch (selfCommit (self_remove judged.1)) false;; mret tt);;
      catch (selfCommit self_pending) false;;
      mret ((send : bool) && negb judged.2)
  end.

Definition syncSelf : mls unit :=
  send ← selfRule;
  if (send : bool) then sendOwnHistory else mret tt.
End self.

(** * What it leaves alone *)

Section self_frame.
Context `{JsonNumbers} `{JsText} `{HexCodec} `{Sha256} `{MlsEngine} (env : mls_env) (fuel : nat).
Context (P : Device → Prop) (J : certs → Prop) `{!DeviceKept P} `{!CertsKept J}.

#[local] Notation framed := (framed P J).

Lemma keeps_postSelf b : keeps framed (postSelf env b).
Proof. unfold postSelf. keeps_auto. Qed.

Lemma keeps_putSelfInfo g : keeps framed (putSelfInfo env g).
Proof. unfold putSelfInfo. keeps_auto. Qed.
#[local] Hint Resolve keeps_postSelf keeps_putSelfInfo : keeps.

Lemma keeps_self_items l : ∀ c b, keeps framed (self_items env l c b).
Proof. induction l as [|x l IH]; intros c b; cbn [self_items]; keeps_auto. Qed.
#[local] Hint Resolve keeps_self_items : keeps.

Lemma keeps_self_log_loop n : ∀ c b, keeps framed (self_log_loop env n c b).
Proof. induction n as [|n IH]; intros c b; cbn [self_log_loop]; keeps_auto. Qed.
#[local] Hint Resolve keeps_self_log_loop : keeps.

Lemma keeps_syncSelfLog : keeps framed (syncSelfLog env fuel).
Proof. unfold syncSelfLog. keeps_auto. Qed.
#[local] Hint Resolve keeps_syncSelfLog : keeps.

Lemma keeps_selfCommit build : (∀ h, keeps framed (build h)) → keeps framed (selfCommit env fuel build).
Proof.
  intros Hb. unfold selfCommit. generalize MAX_COMMIT_ATTEMPTS as n. induction n as [|n IH]; cbn [self_commit_loop]; keeps_auto.
Qed.
End self_frame.

(** * Proofs *)

Section theorems.
Context `{JsonNumbersLaws} `{JsTextLaws} `{HexCodec} `{Sha256} `{MlsEngineLaws} (env : mls_env) (fuel : nat).

#[local] Notation self := (selfId env).

(** The wallet is kept in lower case. *)
Context (Hself : toLowerCase (selfId env) = selfId env).

Lemma get_group_cached key s g : toLowerCase key = key → map_get key (ms_groups s) = Some g → get_group key s = (Ok (Some g), s).
Proof. intros Hk Hg. unfold get_group. by rewrite Hk, (bind_ok _ _ s s s), Hg by done. Qed.

Lemma on_group_run {A} key g (f : Device → Group → option A * Group * Device) s a g' d' : f (ms_device s) g = (Some a, g', d') →
  on_group key g f s = (Ok a, set_device d' (set_groups (map_set key g' (ms_groups s)) s)).
Proof. intros E. unfold on_group. run_eff. by rewrite E. Qed.

Lemma postSelf_run body s : let r := en_postSelfMessage env (ms_ticks s) body in
  postSelf env body s = (Ok r, add_sent (PostSelfMessage body r) (set_certs (tick (ms_certs s)) s)).
Proof. done. Qed.

(** History goes out before the ratchet is saved.  When the relayer's answer
    to a chunk of history does not come, for a group or for the account's own
    devices, the chunk has been sent but the store still holds the device from before its
    encryption: a session restored from it encrypts its next message from the state
    that encrypted the chunk. *)
Lemma history_sent_before_saved key s g chunk rest body g' d' :
  toLowerCase key = key → map_get key (ms_groups s) = Some g → encrypt (ms_device s) g chunk = (Some body, g', d') →
  loadDevice (ms_store s) = Some (snapshot (ms_device s), en_deviceId env) →
  (en_postAppRow env (ms_ticks s) key body = false →
   ∃ s' saved, post_chunks env key (chunk :: rest) s = (Throw RelayerError, s') ∧ ms_sent s' = ms_sent s ++ [PostAppRow key body]
     ∧ ms_device s' = d' ∧ loadDevice (ms_store s') = Some saved ∧ restore saved.1 = ms_device s)
  ∧ (key = self → en_postSelfMessage env (ms_ticks s) body = None →
   ∃ s' saved, post_self_chunks env (chunk :: rest) s = (Throw RelayerError, s') ∧ ms_sent s' = ms_sent s ++ [PostSelfMessage body None]
     ∧ ms_device s' = d' ∧ loadDevice (ms_store s') = Some saved ∧ restore saved.1 = ms_device s).
Proof.
  intros Hk Hg He Hl. set (s1 := set_device d' (set_groups (map_set key g' (ms_groups s)) s)).
  assert (on_group key g (λ d g, encrypt d g chunk) s = (Ok body, s1)) as E1 by (by apply on_group_run).
  split; [intros Hpost|intros -> Hpost].
  - cbn [post_chunks]. rewrite (bind_ok _ _ _ _ _ (get_group_cached key s g Hk Hg)), Hk, (bind_ok _ _ _ _ _ E1).
    rewrite (bind_ok _ _ s1 tt (add_sent (PostAppRow key body) s1)) by done.
    rewrite (bind_ok _ _ _ (en_postAppRow env (ms_ticks s) key body) (set_certs (tick (ms_certs s1)) (add_sent (PostAppRow key body) s1))) by done.
    rewrite Hpost. eexists _, _. split_and!; [done|done|done|exact Hl|apply restore_snapshot].
  - cbn [post_self_chunks]. rewrite (bind_ok _ _ _ g s) by (by rewrite (bind_ok _ _ _ _ _ (get_group_cached _ s g Hself Hg))).
    rewrite (bind_ok _ _ _ _ _ E1).
    pose proof (postSelf_run body s1) as E2. change (ms_ticks s1) with (ms_ticks s) in E2. rewrite Hpost in E2.
    cbv zeta in E2. set (s2 := add_sent (PostSelfMessage body None) (set_certs (tick (ms_certs s1)) s1)) in E2. rewrite (bind_throw _ _ s1 RelayerError s2) by (by rewrite (bind_ok _ _ _ _ _ E2)).
    eexists s2, _. split_and!; [done|done|done|exact Hl|apply restore_snapshot].
Qed.

(** A failed claim leaves a self-group of one.  When nobody has set up the
    self-group and the answer to this device's claim does not come, the session
    keeps the group it made although the relayer may never have accepted it: the next
    call finds it, asks the relayer nothing, and reports success. *)
Lemma self_group_fork s g d g' d' claim g'' :
  map_get self (ms_groups s) = None → loadGroup (ms_device s) (utf8_encode self) = None →
  en_getSelfGroupInfo env (ms_ticks s) = Some None →
  createGroup (ms_device s) (utf8_encode self) = (g, d) → selfUpdate d g = (Some claim, g', d') →
  en_postSelfMessage env (S (ms_ticks s)) claim = None →
  loadGroup d' (utf8_encode self) = Some g'' → isActive g'' = true →
  ∃ s' s'', ensureSelfGroup env s = (Throw RelayerError, s') ∧ ms_sent s' = ms_sent s ++ [PostSelfMessage claim None]
    ∧ ensureSelfGroup env s' = (Ok tt, s'') ∧ ms_sent s'' = ms_sent s' ∧ map_get self (ms_groups s'') = Some g''.
Proof.
  intros Hg Hl Hi Hc Hu Hp Hl' Ha.
  assert (hasGroup self s = (Ok false, s)) as E0.
  { unfold hasGroup, active_group, get_group. rewrite Hself. run_eff. by rewrite Hg, Hl. }
  set (s1 := set_certs (tick (ms_certs s)) s). set (s2 := set_device d' s1).
  set (s3 := add_sent (PostSelfMessage claim None) (set_certs (tick (ms_certs s2)) s2)).
  assert (ensureSelfGroup env s = (Throw RelayerError, s3)) as E.
  { unfold ensureSelfGroup, MAX_COMMIT_ATTEMPTS. rewrite (bind_ok _ _ _ _ _ E0). cbn [ensure_self_loop].
    rewrite (bind_ok _ _ _ None s1) by (unfold ask, await, or_throw; run_eff; by rewrite Hi).
    rewrite (bind_ok _ _ s1 s1 s1) by done. change (ms_device s1) with (ms_device s). rewrite Hc, Hu.
    rewrite (bind_ok _ _ s1 tt s2), (bind_ok _ _ s2 claim s2) by done.
    pose proof (postSelf_run claim s2) as E2. change (ms_ticks s2) with (S (ms_ticks s)) in E2. rewrite Hp in E2. cbv zeta in E2. fold s3 in E2.
    rewrite (bind_throw _ _ s2 RelayerError s3); [done|]. by rewrite (bind_ok _ _ _ _ _ E2). }
  assert (∃ s4, get_group self s3 = (Ok (Some g''), s4) ∧ ms_sent s4 = ms_sent s3 ∧ map_get self (ms_groups s4) = Some g'') as (s4 & E4 & Es & Eg).
  { unfold get_group. rewrite Hself, (bind_ok _ _ s3 s3 s3) by done. change (ms_groups s3) with (ms_groups s). rewrite Hg.
    change (ms_device s3) with d'. rewrite Hl'. unfold rememberGroup. run_eff. eexists. split; [done|].
    case_decide; simpl; by rewrite map_get_set_eq. }
  exists s3, s4. split_and!; [done|done| |done|done]. unfold ensureSelfGroup, hasGroup, active_group.
  rewrite (bind_ok _ _ s3 true s4); [done|]. rewrite (bind_ok _ _ s3 (Some g'') s4); [done|].
  rewrite (bind_ok _ _ _ _ _ E4). by rewrite Ha.
Qed.

(** ** Who history is sent to *)

Context (trusted : MlsDeviceCertificate → Prop) (Hreg : registry_answers (en_certs env)) (Hwallet : 58 ∉ en_wallet env).

#[local] Notation life s := (cache_life (en_certs env) trusted (ms_certs s)).

(** A device of this account whose certificate was checked. *)
Definition own_passed (i j : nat) (m : MlsMember) : Prop :=
  ∃ c, mb_certificate m = Some c ∧ toLowerCase (ct_wallet c) = en_wallet env ∧ checked_valid (en_certs env) trusted c i j.

Lemma own_passed_mono m i j i' j' : own_passed i j m → (i' ≤ i)%nat → (j ≤ j')%nat → own_passed i' j' m.
Proof. intros (c & ? & ? & Hc) ? ?. exists c. split_and!; [done..|]. by eapply checked_mono. Qed.

Lemma judge_own_spec m s v s' : life s → judge_own env m s = (Ok v, s') →
  moved_certs s s' ∧ life s' ∧ (v = v_fine → own_passed (ms_ticks s) (ms_ticks s') m).
Proof.
  intros Hs. unfold judge_own. destruct (mb_certificate m) as [c|] eqn:Ec; [|intros [= <- <-]; split_and!; [apply moved_refl|done|done]].
  destruct (negb _) eqn:Ew; [intros [= <- <-]; split_and!; [apply moved_refl|done|done]|]. intros Hrun.
  apply bind_ok_inv in Hrun as (me & s0 & Eme & Hrun). destruct (certificate_spec _ _ _ Eme) as [-> _].
  revert Hrun. destruct (bool_decide (ct_mls_key c = ct_mls_key me)); [intros [= <- <-]; split_and!; [apply moved_refl|done|done]|]. intros Hrun.
  apply bind_ok_inv in Hrun as (st & s1 & Est & [= <- <-]). apply (certificate_status_spec _ trusted Hreg) in Est as (Hm & Hl & Hv); [|done].
  split_and!; [done|done|]. destruct st; [intros _|done..]. bool_to_Z. exists c. split_and!; [done|done|]. apply Hv; [done|congruence].
Qed.

Lemma judge_owns_spec mine l : ∀ s r s', life s → judge_owns env mine l s = (Ok r, s') →
  moved_certs s s' ∧ ∀ m, m ∈ l → (leafIndex m ∉ r.1) → r.2 = false →
    Some (leafIndex m) = mine ∨ own_passed (ms_ticks s) (ms_ticks s') m.
Proof.
  induction l as [|m l IH]; intros s r s' Hs; cbn [judge_owns].
  { intros [= <- <-]. split; [apply moved_refl|]. by intros m ?%elem_of_nil. }
  intros Hrun. apply bind_ok_inv in Hrun as (v & s1 & Ev & Hrun). apply bind_ok_inv in Hrun as (r0 & s2 & Er & [= <- <-]).
  assert (moved_certs s s1 ∧ life s1 ∧ (v = v_fine → Some (leafIndex m) = mine ∨ own_passed (ms_ticks s) (ms_ticks s1) m)) as (Hm1 & Hl1 & Hv).
  { destruct (bool_decide _) eqn:Eb; bool_to_Z; [injection Ev as <- <-; split_and!; [apply moved_refl|done|by left]|].
    apply judge_own_spec in Ev as (? & ? & ?); auto. }
  apply IH in Er as [Hm2 Hr]; [|done].
  pose proof (moved_ticks _ _ Hm1) as Ht1. pose proof (moved_ticks _ _ Hm2) as Ht2.
  split; [by eapply moved_trans|]. intros m' [->|Hin]%elem_of_cons Hbad Hun.
  - destruct v; simpl in *; [|by destruct Hbad; left|done]. destruct (Hv eq_refl) as [?|?]; [by left|right].
    eapply own_passed_mono; [done|done|lia].
  - assert ((leafIndex m' ∉ r0.1) ∧ r0.2 = false) as [Ha Hb].
    { destruct v; simpl in *; [done| |done]. split; [|done]. intros Hx. apply Hbad. by right. }
    destruct (Hr m' Hin Ha Hb); [by left|right]. eapply own_passed_mono; [done|lia|done].
Qed.

(** No message of this device to the self-group is refused or lost. *)
Definition self_accepting : Prop := ∀ t b, en_postSelfMessage env t b = Some true.

Lemma putSelfInfo_spec g s r s' : putSelfInfo env g s = (r, s') → quiet s s'.
Proof.
  unfold putSelfInfo, ask, await, or_throw. run_eff. destruct (groupInfo _ _); intros [= <- <-]; unfold quiet, ms_ticks; simpl; split_and!; try done; lia.
Qed.

(** The engine makes the commits it is asked for. *)
Definition engine_commits : Prop :=
  (∀ d g l, is_Some (removeLeaves d g l).1.1) ∧ ∀ d g, is_Some (commitPending d g).1.1.

(** An accepted commit leaves the handles as the builder did. *)
Lemma selfCommit_spec (P : MlsMember → Prop) build s g r s' : self_accepting → map_get self (ms_groups s) = Some g →
  (isActive g = false → ∀ m, m ∈ membersJson g → P m) →
  (∀ s1, ∃ c s2 g2, build g s1 = (Ok c, s2) ∧ map_get self (ms_groups s2) = Some g2 ∧ ms_ticks s2 = ms_ticks s1 ∧ ∀ m, m ∈ membersJson g2 → P m) →
  selfCommit env fuel build s = (r, s') →
  ∃ g', map_get self (ms_groups s') = Some g' ∧ (ms_ticks s ≤ ms_ticks s')%nat ∧ ∀ m, m ∈ membersJson g' → P m.
Proof.
  intros Ha Hg Hin Hb. unfold selfCommit, MAX_COMMIT_ATTEMPTS. cbn [self_commit_loop]. rewrite (bind_ok _ _ s s s) by done.
  rewrite (bind_ok _ _ s (if isActive g then Some g else None) s)
    by (unfold active_group; by rewrite (bind_ok _ _ _ _ _ (get_group_cached self s g Hself Hg))).
  destruct (isActive g); [|intros [= <- <-]; exists g; auto].
  destruct (Hb s) as (c & s2 & g2 & Ebuild & Hg2 & Ht2 & Hp2). rewrite (bind_ok _ _ _ _ _ Ebuild). intros Hrun. exists g2.
  destruct c as [c|]; [|injection Hrun as <- <-; split_and!; [done|lia|done]].
  set (s3 := add_sent (PostSelfMessage c (Some true)) (set_certs (tick (ms_certs s2)) s2)) in *.
  pose proof (postSelf_run c s2) as E3. rewrite Ha in E3. cbv zeta in E3. fold s3 in E3.
  rewrite (bind_ok _ _ s2 true s3) in Hrun by (unfold try_catch; by rewrite (bind_ok _ _ _ _ _ E3)).
  destruct (persist env s3) as [[[]|e] s4] eqn:E4; [|done]. apply persist_spec in E4 as Hp. destruct Hp as [(Hg4 & _ & Ht4) _].
  rewrite (bind_ok _ _ _ _ _ E4) in Hrun. assert (map_get self (ms_groups s4) = Some g2) as Hg2' by (rewrite Hg4; done).
  rewrite (bind_ok _ _ _ _ _ (get_group_cached self s4 g2 Hself Hg2')) in Hrun. assert (quiet s4 s') as (Hg5 & _ & Ht5).
  { destruct (putSelfInfo env g2 s4) as [[b|e] s5] eqn:E5; apply putSelfInfo_spec in E5 as Hq;
      [rewrite (bind_ok _ _ _ _ _ E5) in Hrun|rewrite (bind_throw _ _ _ _ _ E5) in Hrun]; by injection Hrun as <- <-. }
  unfold ms_ticks in *. simpl in *. split_and!; [by rewrite Hg5|lia|done].
Qed.

Lemma self_remove_spec bad s g : engine_commits → ∃ c s2 g2, self_remove env bad g s = (Ok c, s2) ∧ map_get self (ms_groups s2) = Some g2
  ∧ ms_ticks s2 = ms_ticks s ∧ ∀ m, m ∈ membersJson g2 → m ∈ membersJson g ∧ (leafIndex m ∉ bad).
Proof.
  intros [Hr _]. specialize (Hr (ms_device s) g bad). destruct (removeLeaves (ms_device s) g bad) as [[[c|] g'] d'] eqn:E; [|by destruct Hr].
  eexists _, _, g'. unfold self_remove. rewrite (bind_ok _ _ _ _ _ (on_group_run self g (λ d g, removeLeaves d g bad) s c g' d' E)). split; [done|].
  simpl. rewrite map_get_set_eq. split_and!; [done|done|]. intros m Hm. by eapply removeLeaves_members.
Qed.

Lemma self_pending_spec s g : engine_commits → ∃ c s2 g2, self_pending env g s = (Ok c, s2) ∧ map_get self (ms_groups s2) = Some g2
  ∧ ms_ticks s2 = ms_ticks s ∧ ∀ m, m ∈ membersJson g2 → m ∈ membersJson g.
Proof.
  intros [_ Hr]. specialize (Hr (ms_device s) g). destruct (commitPending (ms_device s) g) as [[[c|] g'] d'] eqn:E; [|by destruct Hr].
  eexists _, _, g'. unfold self_pending. rewrite (on_group_run self g commitPending s c g' d' E). split; [done|].
  simpl. rewrite map_get_set_eq. split_and!; [done|done|]. intros m Hm. by eapply commitPending_members.
Qed.

End theorems.

(** * Two devices of one account *)

#[local] Existing Instances integer_numbers integer_numbers_laws ascii_text ascii_text_laws plain_hex.
#[local] Instance plain_sha : Sha256 := {| sha256 b := b |}.

Definition tablet : MlsMember := {|
  leafIndex := 1; identityHex := []; signatureKeyHex := [];
  mb_certificate := Some {| ct_v := 1; ct_wallet := js "0xme"; ct_device_id := js "t"; ct_mls_key := js "k2"; ct_issued_at_ms := 0;
                            ct_sig := Some []; ct_signer_key := Some []; ct_authority_key := None |} |}.

(** Epoch 0 is this device alone; the tablet joins in 1 and is gone in 2. *)
Definition shelf_members (g : Z) : list MlsMember :=
  match g with 0 | 2 => [toy_member 0 "0xme"] | 1 => [toy_member 0 "0xme"; tablet] | _ => [] end.

Definition shelf_remove (g : Z) (l : list Z) : Z :=
  if bool_decide (0 ∈ l) then 3 else if bool_decide (1 ∈ l) && (g =? 1) then 2 else g.

(** A device is the groups it has stored, the newest first; an encryption is remembered. *)
#[local] Instance shelf_engine : MlsEngine := {|
  Device := bytes; Group := Z; Reassembler := unit;
  snapshot d := d; restore d := d; identity _ := toy_identity; keyPackage d := ([], d);
  createGroup d _ := (0, 0 :: d); join d _ := (None, d); rejoinExternal d _ := (None, d); deleteGroup d _ := d;
  loadGroup d _ := head d; epoch g := g; isActive _ := true; membersJson := shelf_members;
  addMembers d g _ := (None, g, d);
  removeLeaves d g l := (Some [11], shelf_remove g l, [shelf_remove g l]);
  selfUpdate d g := (Some [20], g, d); commitPending d g := (Some None, g, d); groupInfo _ _ := Some [];
  encrypt d g b := (Some (g :: b), g, g :: d);
  process d g b := if bool_decide (b = [7]) then (Some {| p_kind := js "commit"; p_plaintext := None; p_senderIdentity := None |}, 1, [1]) else (None, g, d);
  withIdentity d _ := d; updateCredential d g := (None, g, d); leave d g := (None, g, d);
  DeviceKeys := unit; keys_publicKey _ := []; fromKeys _ _ := []; mlsCertificateCanonical _ _ _ _ := [];
  new_reassembler := tt; push r _ := (None, r);
  mlsInspect _ := None; mlsKeyPackageCertificate _ := None; mlsHistorySplit _ p := [p] |}.

#[local] Instance shelf_engine_laws : @MlsEngineLaws shelf_engine.
Proof.
  split.
  - done.
  - intros g. simpl. unfold shelf_members. repeat case_match; apply (bool_decide_unpack _); vm_compute; exact I.
  - intros d g l c g' d' m. simpl. intros [= _ <- _]. unfold shelf_remove.
    destruct (bool_decide (0 ∈ l)) eqn:E0; [by intros ?%elem_of_nil|]. destruct (bool_decide (1 ∈ l)) eqn:E1; bool_to_Z; simpl.
    + destruct (Z.eqb_spec g 1) as [->|Hg]; [simpl; intros ->%list_elem_of_singleton; split; [by left|done]|].
      intros Hm. split; [done|]. unfold shelf_members in Hm. repeat case_match; try done; try (by apply elem_of_nil in Hm);
        by apply list_elem_of_singleton in Hm as ->.
    + intros Hm. split; [done|]. unfold shelf_members in Hm. repeat case_match; try (by apply elem_of_nil in Hm);
        rewrite ?elem_of_cons, ?elem_of_nil in Hm; naive_solver.
  - intros d g r g' d' m. simpl. by intros [= <- <- <-].
Qed.

Definition shelf_row : rv :=
  RObj [(js "messageId", RStr (js "m1")); (js "order", RNum (Int 1)); (js "groupId", RStr (js "0xg")); (js "encryptedText", RBytes [1; 2])].

Definition shelf_store : MlsStateStore := putRows (js "0xg") [shelf_row] (saveDevice ([0], js "d") new_store).

(** The tablet's certificate is invalid.  The log holds the commit that adds it;
    [lost] is the message to the self-group whose answer does not come. *)
Definition shelf_env (lost : option Z) : mls_env := {|
  en_certs := {| cf_verify _ _ := Some c_invalid; cf_v2 := None; cf_now _ := 0 |};
  en_wallet := js "0xme"; en_deviceId := js "d"; en_keyPackageTarget := None; en_onChainReaders := None;
  en_verifyRow _ _ := None; en_historyShareDays := None; en_randomUUID _ := js "u"; en_postControlRow _ _ _ := None;
  en_fetchRows _ _ _ := None; en_postGroupInfo _ _ _ := true; en_getGroupInfo _ _ := None; en_claimKeyPackages _ _ := None;
  en_postWelcome _ _ _ _ := true; en_takeWelcomes _ := None; en_putKeyPackages _ _ := true; en_postAppRow _ _ _ := false;
  en_deleteDevice _ := true; en_getSelfGroupInfo _ := Some None; en_putSelfGroupInfo _ _ := true;
  en_postSelfMessage _ b := if bool_decide (head b = lost) && negb (bool_decide (lost = None)) then None else Some true;
  en_fetchSelf _ after := Some (if num_lt after (Int 1) then [(Int 1, [7])] else []); en_historyRowsPerGroup := None |}.

Definition shelf_session (d : bytes) (groups : list (jsstr * Z)) : session :=
  Session d groups [] 0 [] [] [] (set_store shelf_store (new_certs 0)) [].

#[local] Notation sync_self lost := (syncSelf (shelf_env lost) 3 (shelf_session [0] [])).
#[local] Notation self_me := (js "self:0xme").

Lemma shelf_self lost : toLowerCase (selfId (shelf_env lost)) = selfId (shelf_env lost).
Proof. reflexivity. Qed.

(** History can go to a device that should have been removed.  There is a
    run of [syncSelf] in which the commit that removes a device with an invalid
    certificate gets no answer: the failure is ignored and the history held here is encrypted
    to the group that device is still in. *)
Lemma self_history_leak : ∃ s' g m c,
  syncSelf (shelf_env (Some 11)) 3 (shelf_session [0] []) = (Ok tt, s')
  ∧ map_get self_me (ms_groups s') = Some g ∧ (m ∈ membersJson g) ∧ mb_certificate m = Some c
  ∧ ct_mls_key c ≠ js "0xme" ∧ (∀ t, cf_verify (en_certs (shelf_env (Some 11))) t c = Some c_invalid)
  ∧ ms_sent s' = [PostSelfMessage [11] None;
                  PostSelfMessage (g :: encodeRowsJson (bundle_of [(js "0xg", [shelf_row])])) (Some true)].
Proof.
  destruct (sync_self (Some 11)) as [[[]|e] s'] eqn:E; [|exfalso; revert E; vm_compute; discriminate].
  exists s', 1, tablet, (default (toy_cert 1) (mb_certificate tablet)). split; [reflexivity|].
  assert (s' = (sync_self (Some 11)).2) as -> by (by rewrite E). clear E.
  split; [vm_compute; reflexivity|]. split; [by apply (bool_decide_unpack _); vm_compute|]. split; [reflexivity|].
  split; [vm_compute; discriminate|]. split; [reflexivity|]. vm_compute. reflexivity.
Qed.

Lemma shelf_accepting : self_accepting (shelf_env None).
Proof. intros t b. simpl. by rewrite andb_false_r. Qed.

Lemma shelf_commits : engine_commits.
Proof. split; [intros d g l|intros d g]; by eexists. Qed.

Lemma shelf_answers : registry_answers (en_certs (shelf_env None)).
Proof. by intros v2 ?. Qed.

Lemma shelf_life : cache_life (en_certs (shelf_env None)) (λ _, False) (ms_certs (shelf_session [0] [])).
Proof. by apply (life_begin _ _ shelf_store 0). Qed.

Lemma shelf_wallet : 58 ∉ en_wallet (shelf_env None).
Proof. apply (bool_decide_unpack _). vm_compute. exact I. Qed.


Lemma self_group_fork_witness : ∃ s' s'', ensureSelfGroup (shelf_env (Some 20)) (shelf_session [] []) = (Throw RelayerError, s')
  ∧ ensureSelfGroup (shelf_env (Some 20)) s' = (Ok tt, s'') ∧ ms_sent s'' = [PostSelfMessage [20] None].
Proof.
  destruct (self_group_fork (shelf_env (Some 20)) (shelf_self _) (shelf_session [] []) 0 [0] 0 [0] [20] 0) as (s' & s'' & E & Es & E' & Es' & _).
  1-8: vm_compute; reflexivity.
  exists s', s''. split; [exact E|]. split; [exact E'|]. rewrite Es'. exact Es.
Defined.

Lemma history_sent_before_saved_witness : ∃ s' saved,
  post_self_chunks (shelf_env (Some 0)) [[5]] (shelf_session [0] [(self_me, 0)]) = (Throw RelayerError, s')
  ∧ ms_sent s' = [PostSelfMessage [0; 5] None] ∧ ms_device s' = [0; 0] ∧ loadDevice (ms_store s') = Some saved ∧ restore saved.1 = [0].
Proof.
  refine (proj2 (history_sent_before_saved (shelf_env (Some 0)) (shelf_self _) self_me (shelf_session [0] [(self_me, 0)]) 0 [5] [] [0; 5] 0 [0; 0]
    _ _ _ _) _ _); vm_compute; reflexivity.
Defined.
