(* ===== verification/MlsRenewal.v ===== *)
(** Opening a session, renewing its certificate, revoking and logging out
    ([mls/session.ts]).

    A device's long-lived authority key is registered on chain and signs the
    certificates the device renews.  The chain's record of this device is part of the
    state ([rn_chain]); what a lookup answers of it and what a submitted
    transaction does to it is the environment's choice ([renewal_env]), and so
    is where the process stops: [rv_crash] is asked before every read and write of
    the renewal's values, every lookup and every submission.  The transactions'
    bytes are not modelled. *)
From S2P Require Import Prelude JsString JsMap Utf8 TextDecoder Json Verification Anchors Wire AuthHeaders HttpTransport HttpCalls.
From S2P Require Import MlsRows MlsTypes MlsCertificates MlsSession MlsFrame MlsSeal MlsSelf.

#[local] Notation mls := (eff session mls_error).

Inductive registry_tx :=
  | RegisterTx (deviceId authorityKeyHex : jsstr)
  | RotateTx (newKeyHex : jsstr)
  | RevokeByDeviceTx (deviceId : jsstr).

(** [Ed25519Keypair]'s secret text; [None] is a throw. *)
Class AuthorityKeys := { getSecretKey : Authority → jsstr; fromSecretKey : jsstr → option Authority; is_keypair : Authority → Prop }.
Class AuthorityKeysLaws `{AuthorityKeys} : Prop := {
  secret_roundtrip a : is_keypair a → fromSecretKey (getSecretKey a) = Some a;
  secret_nonempty a : is_keypair a → getSecretKey a ≠ [];
  secret_keypair x a : fromSecretKey x = Some a → is_keypair a;
  keypair_wf a : is_keypair a → wf_bytes (au_public a) ∧ ∀ b, wf_bytes (au_sign a b);
  keypair_public a : is_keypair a → au_public a ≠ [];
}.

Record renewal_env := {
  rv_submitter : bool;                                              (* [registry.submitter] is given *)
  rv_rotateAfterMs : option Z;
  rv_generate : nat → Authority;                                    (* [Ed25519Keypair.generate()] *)
  rv_lookup : nat → option MlsDeviceRecord → option (option MlsDeviceRecord);   (* outer [None]: rejected *)
  (* whether the promise resolves, and the chain's record after it; the signer is [None] for the account *)
  rv_submit : nat → registry_tx → option jsstr → option MlsDeviceRecord → bool * option MlsDeviceRecord;
  rv_crash : nat → bool;
}.

Inductive MlsRenewalState := rs_off | rs_unregistered | rs_current | rs_revoked | rs_conflict.

Inductive renewal_error := SessionError (e : mls_error) | ChainError | SigningError | NotRegistered | Crashed.

Definition ROTATE_AFTER_MS : Z := 90 * 24 * 60 * 60 * 1000.

Definition AUTHORITY : jsstr := js "authority".
Definition PENDING : jsstr := js "authority-pending".
Definition SINCE : jsstr := js "authority-since".

Record renewal `{MlsEngine} := { rn_session : session; rn_chain : option MlsDeviceRecord }.

Section renewal.
Context `{JsonNumbers} `{JsText} `{HexCodec} `{Sha256} `{MySoCrypto} `{Base64Codec} `{AuthorityKeys} `{MlsEngine}.
Context (env : mls_env) (renv : renewal_env) (fuel : nat).

#[local] Notation rnw := (eff renewal renewal_error).

(** ** Effects *)

Definition with_session (x : session) (s : renewal) : renewal := {| rn_session := x; rn_chain := rn_chain s |}.

Definition lift {A} (m : mls A) : rnw A := λ s,
  match m (rn_session s) with
  | (Ok a, x) => (Ok a, with_session x s)
  | (Throw e, x) => (Throw (SessionError e), with_session x s)
  end.

Definition alive : rnw unit := s ← get_state; if rv_crash renv (ms_ticks (rn_session s)) then throw Crashed else mret tt.

Definition pub (a : Authority) : jsstr := toHex (au_public a).

Definition generate : rnw Authority := s ← get_state; mret (rv_generate renv (ms_ticks (rn_session s))).

Definition loadAuthority (slot : jsstr) : rnw (option Authority) :=
  alive;;
  secret ← lift (with_store (getMeta slot));
  match secret with
  | None | Some [] => mret None
  | Some x => match fromSecretKey x with Some a => mret (Some a) | None => throw SigningError end
  end.

Definition saveAuthority (slot : jsstr) (key : option Authority) : rnw unit :=
  alive;; lift (update_store (setMeta slot (getSecretKey <$> key))).

Definition setSince : rnw unit := alive;; lift (t ← now env; update_store (setMeta SINCE (Some (dec_Z t)))).

(** [registry.chain.lookup(wallet, deviceId)] *)
Definition lookupOnce : rnw (option MlsDeviceRecord) :=
  alive;;
  s ← get_state;
  lift await;;
  match rv_lookup renv (ms_ticks (rn_session s)) (rn_chain s) with Some r => mret r | None => throw ChainError end.

Fixpoint lookupSelf (attempts : nat) : rnw (option MlsDeviceRecord) :=
  record ← lookupOnce;
  match record, attempts with
  | None, S (S _ as attempts') => lift await;; lookupSelf attempts'
  | _, _ => mret record
  end.

(** [asAccount(tx)] and [asAuthority(tx, authority)]: whether it resolved. *)
Definition submit (tx : registry_tx) (signer : option Authority) : rnw bool :=
  alive;;
  s ← get_state;
  let '(ok, chain) := rv_submit renv (ms_ticks (rn_session s)) tx (pub <$> signer) (rn_chain s) in
  put_state {| rn_session := rn_session s; rn_chain := chain |};;
  lift await;;
  mret ok.

Definition forget (deviceId : jsstr) : rnw unit :=
  alive;; lift (modify (λ s, set_certs (forgetRegistry (en_wallet env) deviceId (ms_certs s)).2 s)).

(** ** Opening *)

(** A process that starts: memory is empty, the store is what it was. *)
Definition reopen (d : Device) (s : session) : session := Session d [] [] 0 [] [] [] (restart (ms_certs s)) (ms_sent s).

Definition certify (identity_signer : Signer) (mlsKeyHex : jsstr) : mls MlsDeviceCertificate :=
  issued ← now env;
  let wallet := toLowerCase (toMySoAddress identity_signer) in
  let canonical := mlsCertificateCanonical wallet (en_deviceId env) mlsKeyHex issued in
  await;;
  match signAndCreateAuthHeaders identity_signer (utf8_encode canonical) with
  | Ok auth =>
      mret {| ct_v := 1; ct_wallet := wallet; ct_device_id := en_deviceId env; ct_mls_key := mlsKeyHex; ct_issued_at_ms := issued;
              ct_sig := map_get (js "x-signature") auth; ct_signer_key := map_get (js "x-public-key") auth; ct_authority_key := None |}
  | Throw _ => throw BadData
  end.

Definition trust_own (c : MlsDeviceCertificate) : mls unit := modify (λ s, set_certs (trust c (ms_certs s)).2 s).

Definition keyPackageTarget : nat := default 10%nat (en_keyPackageTarget env).

Definition open (identity_signer : Signer) (generate_keys : nat → DeviceKeys) : mls unit :=
  saved ← with_store loadDevice;
  restored ← match saved with
    | Some (snap, id) =>
        if decide (id = en_deviceId env) then
          modify (reopen (restore snap));;
          cert ← certificate;
          if decide (toLowerCase (ct_wallet cert) = en_wallet env) then mret true
          else update_store clear;; mret false
        else mret false
    | None => mret false
    end;
  if (restored : bool) then mret tt else
  s ← get_state;
  let keys := generate_keys (ms_ticks s) in
  cert ← certify identity_signer (toHex (keys_publicKey keys));
  modify (reopen (fromKeys keys (utf8_encode (stringify (certificate_json cert)))));;
  trust_own cert;;
  persist env;;
  publishKeyPackages env keyPackageTarget.

(** ** The renewed certificate *)

(** [JSON.stringify] of what [issueCertificateV2] returns. *)
Definition certificate_v2_json (c : MlsDeviceCertificate) : json :=
  JObj ([(js "v", num_json (ct_v c)); (js "wallet", JStr (ct_wallet c)); (js "device_id", JStr (ct_device_id c));
         (js "mls_key", JStr (ct_mls_key c)); (js "issued_at_ms", num_json (ct_issued_at_ms c))]
        ++ given "authority_key" JStr (ct_authority_key c) ++ given "sig" JStr (ct_sig c) ++ given "signer_key" JStr (ct_signer_key c)).

Definition update_credential (id : jsstr) (g : Group) : mls (option bytes) := c ← on_group id g updateCredential; mret (Some c).

(** Commit the renewed credential into one group; a failure is retried at the next [maintain]. *)
Definition push_credential (identityHexNow id : jsstr) : mls unit :=
  g ← active_group id;
  gone ← is_desynced id;
  match g with
  | None => mret tt
  | Some g =>
      if (gone : bool) then mret tt else
      mine ← myLeaf g;
      match snd <$> list_find (λ m, Some (leafIndex m) = mine) (membersJson g) with
      | None => mret tt
      | Some leaf =>
          if decide (toLowerCase (identityHex leaf) = identityHexNow) then mret tt else
          catch (if decide (id = selfId env) then selfCommit env fuel (update_credential id);; mret tt
                 else commit env fuel id (λ g, c ← update_credential id g;
                        mret ((λ c, {| bt_commit := c; bt_added := 0; bt_afterAccept := mret tt |}) <$> c));; mret tt) tt
      end
  end.

Fixpoint push_credentials (identityHexNow : jsstr) (ids : list jsstr) : mls unit :=
  match ids with
  | [] => mret tt
  | id :: ids' => push_credential identityHexNow id;; push_credentials identityHexNow ids'
  end.

Definition issue_certificate (authority : Authority) (current : MlsDeviceCertificate) : mls unit :=
  t ← now env;
  await;;
  let cert := issueCertificateV2 authority (en_wallet env) (en_deviceId env) (ct_mls_key current) t in
  modify (λ s, set_device (withIdentity (ms_device s) (utf8_encode (stringify (certificate_v2_json cert)))) (set_groups [] s));;
  persist env;;
  modify (add_sent DeleteDevice);;
  ask (en_deleteDevice env);;
  publishKeyPackages env keyPackageTarget.

Definition renewCertificate (authority : Authority) : mls unit :=
  current ← certificate;
  (if (ct_v current =? 2) && bool_decide (ct_authority_key current = Some (pub authority)) then mret tt
   else issue_certificate authority current);;
  s ← get_state;
  let identityHexNow := toHex (identity (ms_device s)) in
  known ← with_store known_groups;
  push_credentials identityHexNow (foldl (λ l x, set_add x l) [] (known ++ [selfId env])).

(** ** Keeping it current *)

(** A rotation that was in flight when the process stopped: did it land? *)
Definition resolve_pending (authority : Authority) (pending : option Authority) (record : option MlsDeviceRecord) : rnw Authority :=
  match pending, record with
  | Some p, Some r =>
      a ← (if decide (authorityKey r = pub p) then saveAuthority AUTHORITY (Some p);; setSince;; mret p else mret authority);
      saveAuthority PENDING None;;
      mret a
  | _, _ => mret authority
  end.

(** [None]: not registered now. *)
Definition register (authority : Authority) : rnw (option MlsDeviceRecord) :=
  if negb (rv_submitter renv) then mret None else
  ok ← submit (RegisterTx (en_deviceId env) (pub authority)) None;
  if negb ok then mret None else
  record ← lookupSelf 4;
  (match record with Some _ => setSince | None => mret tt end);;
  mret record.

(** [Number(x)] of the stored text, an integer; [None] is [NaN]. *)
Definition since_of (now_ms : Z) (text : option jsstr) : option Z := match text with Some x => StringToBigInt x | None => Some now_ms end.

Definition rotate (authority : Authority) : rnw Authority :=
  alive;;
  text ← lift (with_store (getMeta SINCE));
  t ← lift (now env);
  let due := match since_of t text with Some since => default ROTATE_AFTER_MS (rv_rotateAfterMs renv) <=? t - since | None => false end in
  if negb (rv_submitter renv && due) then mret authority else
  next ← generate;
  saveAuthority PENDING (Some next);;
  ok ← submit (RotateTx (pub next)) (Some authority);
  a ← (if (ok : bool) then saveAuthority AUTHORITY (Some next);; setSince;; forget (en_deviceId env);; mret next else mret authority);
  saveAuthority PENDING None;;
  mret a.

Definition authority_of (stored : option Authority) : rnw Authority :=
  match stored with
  | Some a => mret a
  | None => a ← generate; saveAuthority AUTHORITY (Some a);; setSince;; mret a
  end.

Definition maintain : rnw MlsRenewalState :=
  match cf_v2 (en_certs env) with
  | None => mret rs_off
  | Some _ =>
      stored ← loadAuthority AUTHORITY;
      authority ← authority_of stored;
      record ← lookupSelf 1;
      pending ← loadAuthority PENDING;
      authority ← resolve_pending authority pending record;
      record ← (match record with Some r => mret (Some r) | None => register authority end);
      match record with
      | None => mret rs_unregistered
      | Some r =>
          if negb (revokedAtMs r =? 0) then mret rs_revoked
          else if negb (bool_decide (authorityKey r = pub authority)) then mret rs_conflict
          else
            authority ← rotate authority;
            lift (renewCertificate authority);;
            mret rs_current
      end
  end.

Definition revokeDevice (deviceId : jsstr) : rnw unit :=
  authority ← loadAuthority AUTHORITY;
  match authority with
  | Some a =>
      if rv_submitter renv && match cf_v2 (en_certs env) with Some _ => true | None => false end then
        ok ← submit (RevokeByDeviceTx deviceId) (Some a);
        if (ok : bool) then forget deviceId else throw ChainError
      else throw NotRegistered
  | None => throw NotRegistered
  end.

(** ** Logging out *)

Definition leave_group (id : jsstr) : mls unit :=
  g ← active_group id;
  match g with
  | None => mret tt
  | Some g =>
      catch (body ← on_group (toLowerCase id) g leave;
             r ← ask (λ t, en_postControlRow env t (toLowerCase id) body);
             modify (add_sent (PostControlRow (toLowerCase id) body r));;
             or_throw RelayerError r;;
             mret tt) tt
  end.

Fixpoint leave_groups (ids : list jsstr) : mls unit :=
  match ids with [] => mret tt | id :: ids' => leave_group id;; leave_groups ids' end.

Definition leave_self : mls unit :=
  g ← active_group (selfId env);
  match g with
  | None => mret tt
  | Some g => body ← on_group (selfId env) g leave; postSelf env body;; mret tt
  end.

Definition logout (groupIds : list jsstr) : rnw unit :=
  lift (leave_groups groupIds);;
  lift leave_self;;
  lift (modify (add_sent DeleteDevice);; ask (en_deleteDevice env));;
  authority ← try_catch (loadAuthority AUTHORITY) (λ e, match e with Crashed => throw Crashed | _ => mret None end);
  (match authority with
   | Some a =>
       if rv_submitter renv && match cf_v2 (en_certs env) with Some _ => true | None => false end
       then submit (RevokeByDeviceTx (en_deviceId env)) (Some a);; mret tt else mret tt
   | None => mret tt
   end);;
  lift (update_store clear);;
  lift (modify (set_groups [])).
End renewal.

(** * What the renewal is about *)

(** What the engine documents: only [withIdentity] changes a device's identity. *)
Definition identity_is `{MlsEngine} (i : bytes) (d : Device) : Prop := identity d = i.

Class MlsIdentityLaws `{MlsEngine} : Prop := {
  identity_kept i : DeviceKept (identity_is i);
  id_withIdentity d b : identity (withIdentity d b) = b;
}.

(** The names of the renewal's values. *)
Definition renewal_slots : list jsstr := [js "authority"; js "authority-pending"; js "authority-since"].

(** A cache whose store has these values under them. *)
Definition slots_are (m : jsstr → option jsstr) (c : certs) : Prop := ∀ k, k ∈ renewal_slots → getMeta k (cc_store c) = m k.

#[export] Instance slots_kept m : CertsKept (slots_are m).
Proof.
  refine {| protected k := bool_decide (k ∈ renewal_slots) |}.
  - done.
  - intros c st Hc Hst k Hk. rewrite Hst by by apply bool_decide_eq_true. by apply Hc.
  - done.
Defined.

#[export] Existing Instance identity_kept.

(** Sessions with this identity and these values. *)
Notation frame i m := (framed (identity_is i) (slots_are m)).

(** The chain's record, the stored authority keys, and the device's identity. *)
Record view := View { vw_chain : option MlsDeviceRecord; vw_authority : option jsstr; vw_pending : option jsstr; vw_identity : bytes }.

Definition set_chain (c : option MlsDeviceRecord) (v : view) : view := View c (vw_authority v) (vw_pending v) (vw_identity v).
Definition set_authority (x : option jsstr) (v : view) : view := View (vw_chain v) x (vw_pending v) (vw_identity v).
Definition set_pending (x : option jsstr) (v : view) : view := View (vw_chain v) (vw_authority v) x (vw_identity v).
Definition set_identity (x : bytes) (v : view) : view := View (vw_chain v) (vw_authority v) (vw_pending v) x.

Section theorems.
Context `{JsonNumbersLaws} `{JsTextLaws} `{HexCodecLaws} `{Sha256} `{AuthorityKeysLaws} `{MlsEngineLaws} `{!MlsIdentityLaws}.
Context (env : mls_env) (renv : renewal_env) (fuel : nat).

#[local] Notation rnw := (eff renewal renewal_error).

Definition view_of (s : renewal) : view :=
  View (rn_chain s) (getMeta AUTHORITY (ms_store (rn_session s))) (getMeta PENDING (ms_store (rn_session s)))
    (identity (ms_device (rn_session s))).

(** A stored text that reads as the key [a]. *)
Definition stored_as (x : option jsstr) (a : Authority) : Prop := is_keypair a ∧ ∃ y, x = Some y ∧ y ≠ [] ∧ fromSecretKey y = Some a.

Lemma stored_unique x a b : stored_as x a → stored_as x b → a = b.
Proof. intros (_ & y & -> & _ & Ea) (_ & z & [= <-] & _ & Eb). congruence. Qed.

Lemma stored_secret a : is_keypair a → stored_as (Some (getSecretKey a)) a.
Proof. intros Ha. split; [done|]. eexists. split; [done|]. split; [by apply secret_nonempty|by apply secret_roundtrip]. Qed.

(** The certificate an identity is. *)
Definition certificate_in (i : bytes) : option MlsDeviceCertificate := json_parse (text_decode i) ≫= certificate_of.

(** Signed with [a]'s key, as a certificate for that key. *)
Definition signed_by (a : Authority) (c : MlsDeviceCertificate) : Prop :=
  ct_v c = 2 ∧ ct_authority_key c = Some (pub a)
  ∧ ct_sig c = Some (toHex (au_sign a (utf8_encode
      (certificateCanonicalV2 (ct_wallet c) (ct_device_id c) (ct_mls_key c) (ct_issued_at_ms c) (pub a))))).

(** A renewed certificate of this device. *)
Definition issued_here (a : Authority) (c : MlsDeviceCertificate) : Prop :=
  is_keypair a ∧ signed_by a c ∧ ct_wallet c = toLowerCase (trim (en_wallet env)) ∧ ct_device_id c = trim (en_deviceId env).

(** The identity's certificate is signed by the account, or one of these. *)
Definition certified (i : bytes) : Prop := ∀ c, certificate_in i = Some c → ct_v c = 2 → ∃ a, issued_here a c.

(** The key the chain has is stored here, as the authority or as a rotation in flight. *)
Definition key_stored (v : view) : Prop :=
  ∀ r, vw_chain v = Some r → ∃ a, stored_as (vw_authority v) a
    ∧ (authorityKey r = pub a ∨ ∃ p, stored_as (vw_pending v) p ∧ authorityKey r = pub p).

Definition recoverable (v : view) : Prop := certified (vw_identity v) ∧ key_stored v.

(** [m] takes [p] to [q], and leaves the keys recoverable wherever it stops. *)
Definition triple {A} (p : view → Prop) (m : rnw A) (q : A → view → Prop) : Prop :=
  hoare (λ s, p (view_of s)) m (λ r s, match r with Ok a => q a (view_of s) | Throw _ => recoverable (view_of s) end).

Lemma t_bind {A B} p q r (m : rnw A) (k : A → rnw B) : triple p m q → (∀ a, triple (q a) (k a) r) → triple p (m ≫= k) r.
Proof. intros Hm Hk. eapply hoare_bind; [|exact Hk]. eapply hoare_conseq; [exact Hm|done|]. by intros [a|e]. Qed.

Lemma t_ret {A} (p : view → Prop) (q : A → view → Prop) a : (∀ v, p v → q a v) → triple p (mret a : rnw A) q.
Proof. intros Hq s Hs. by apply Hq. Qed.

Lemma t_conseq {A} (p p' : view → Prop) (q q' : A → view → Prop) (m : rnw A) :
  triple p' m q' → (∀ v, p v → p' v) → (∀ a v, q' a v → q a v) → triple p m q.
Proof. intros Hm Hp Hq. eapply hoare_conseq; [exact Hm|intros s; apply Hp|]. intros [a|e] s; [apply Hq|done]. Qed.

Lemma t_throw {A} (p : view → Prop) e (q : A → view → Prop) : (∀ v, p v → recoverable v) → triple p (throw e : rnw A) q.
Proof. intros Hp s Hs. by apply Hp. Qed.

Lemma t_alive (p : view → Prop) : (∀ v, p v → recoverable v) → triple p (alive renv) (λ _, p).
Proof. intros Hp s Hs. unfold alive. run_eff. destruct (rv_crash _ _); simpl; auto. Qed.

(** Work of the session that leaves the renewal's values alone. *)
Lemma t_lift {A} (m : mls A) (p : view → Prop) : (∀ i f, keeps (frame i f) m) → (∀ v, p v → recoverable v) → triple p (lift m) (λ _, p).
Proof.
  intros Hm Hp s Hs. set (x := rn_session s).
  assert (view_of (with_session (m x).2 s) = view_of s) as E.
  { specialize (Hm (identity (ms_device x)) (λ k, getMeta k (ms_store x)) x (conj eq_refl (λ k _, eq_refl))) as [Hi Hk].
    unfold view_of. simpl. by rewrite Hi, !Hk by (unfold renewal_slots; rewrite !elem_of_cons; auto). }
  unfold lift. fold x. destruct (m x) as [[a|e] x']; simpl in *; rewrite E; auto.
Qed.

Lemma t_read {A} (f : MlsStateStore → A) (g : view → A) (p : view → Prop) : (∀ s, f (ms_store (rn_session s)) = g (view_of s)) →
  triple p (lift (with_store f)) (λ a v, p v ∧ a = g v).
Proof. intros Hf s Hs. split; [exact Hs|exact (Hf s)]. Qed.

(** What [loadAuthority] makes of a stored text. *)
Definition loaded (o : option Authority) (x : option jsstr) : Prop :=
  match o with Some a => stored_as x a | None => x = None ∨ x = Some [] end.

Lemma loaded_None x a : loaded None x → ¬ stored_as x a.
Proof. intros [-> | ->] (_ & y & E & Hy & _); [done|congruence]. Qed.

Lemma t_load slot (g : view → option jsstr) (p : view → Prop) : (∀ s, getMeta slot (ms_store (rn_session s)) = g (view_of s)) →
  (∀ v, p v → recoverable v) → triple p (loadAuthority renv slot) (λ o v, p v ∧ loaded o (g v)).
Proof.
  intros Hg Hp. apply (t_bind _ (λ _, p)); [by apply t_alive|]. intros _. eapply t_bind; [by apply (t_read _ g)|].
  intros [[|c x]|]; [apply t_ret; intros v [Hv <-]; simpl; auto| |apply t_ret; intros v [Hv <-]; simpl; auto].
  destruct (fromSecretKey (c :: x)) as [a|] eqn:E; [|apply t_throw; intros v [Hv _]; auto].
  apply t_ret. intros v [Hv <-]. simpl. split; [done|]. split; [by eapply secret_keypair|]. by eexists.
Qed.

(** A write to the store, after [alive]. *)
Lemma t_write (f : MlsStateStore → MlsStateStore) (g : view → view) (p q : view → Prop) :
  (∀ st c i, View c (getMeta AUTHORITY (f st)) (getMeta PENDING (f st)) i = g (View c (getMeta AUTHORITY st) (getMeta PENDING st) i)) →
  (∀ v, p v → q (g v)) → triple p (lift (update_store f)) (λ _, q).
Proof. intros Hf Hq s Hs. simpl. apply Hq in Hs. unfold view_of in *. rewrite <-Hf in Hs. exact Hs. Qed.

Lemma t_save_authority k (p q : view → Prop) : (∀ v, p v → recoverable v) → (∀ v, p v → q (set_authority (getSecretKey <$> k) v)) →
  triple p (saveAuthority renv AUTHORITY k) (λ _, q).
Proof.
  intros Hp Hq. apply (t_bind _ (λ _, p)); [by apply t_alive|]. intros _. apply (t_write _ (set_authority (getSecretKey <$> k))); [|done].
  intros st c i. by rewrite !getMeta_set.
Qed.

Lemma t_save_pending k (p q : view → Prop) : (∀ v, p v → recoverable v) → (∀ v, p v → q (set_pending (getSecretKey <$> k) v)) →
  triple p (saveAuthority renv PENDING k) (λ _, q).
Proof.
  intros Hp Hq. apply (t_bind _ (λ _, p)); [by apply t_alive|]. intros _. apply (t_write _ (set_pending (getSecretKey <$> k))); [|done].
  intros st c i. by rewrite !getMeta_set.
Qed.

Lemma t_setSince (p : view → Prop) : (∀ v, p v → recoverable v) → triple p (setSince env renv) (λ _, p).
Proof.
  intros Hp. apply (t_bind _ (λ _, p)); [by apply t_alive|]. intros _ s Hs. unfold lift, now, update_store, await. run_eff.
  unfold view_of, ms_store in *. simpl. by rewrite !getMeta_set.
Qed.

Lemma t_forget d (p : view → Prop) : (∀ v, p v → recoverable v) → triple p (forget env renv d) (λ _, p).
Proof.
  intros Hp. apply (t_bind _ (λ _, p)); [by apply t_alive|]. intros _ s Hs. unfold lift, forgetRegistry, write_meta. run_eff.
  unfold view_of, ms_store in *. simpl. rewrite !getMeta_set, !decide_False; [exact Hs|..]; intros E; by apply (f_equal (take 1)) in E.
Qed.

Lemma t_generate (p : view → Prop) : triple p (generate renv) (λ a v, p v ∧ ∃ t, a = rv_generate renv t).
Proof. intros s Hs. split; [exact Hs|by eexists]. Qed.

Lemma t_await (p : view → Prop) : triple p (lift await) (λ _, p).
Proof. intros s Hs. exact Hs. Qed.

(** ** A chain that keeps its word *)

(** A lookup that resolves says what the chain holds; a submission that rejects
    has not landed and will not; rotating is for the current key. *)
Record honest : Prop := {
  lookups_true t c : rv_lookup renv t c = Some c ∨ rv_lookup renv t c = None;
  registrations_final t d k c : match rv_submit renv t (RegisterTx d k) None c with
    | (true, c') => c = None ∧ ∃ r, c' = Some r ∧ authorityKey r = k
    | (false, c') => c' = c end;
  rotations_final t k signer c : match rv_submit renv t (RotateTx k) (Some signer) c with
    | (true, c') => ∃ r, c' = Some r ∧ authorityKey r = k ∧ ∃ r0, c = Some r0 ∧ revokedAtMs r = revokedAtMs r0
    | (false, c') => c' = c end;
  generated t : is_keypair (rv_generate renv t);
}.
Context (Hhonest : honest).

Lemma t_lookup_once (p : view → Prop) : (∀ v, p v → recoverable v) → triple p (lookupOnce renv) (λ o v, p v ∧ o = vw_chain v).
Proof.
  intros Hp. apply (t_bind _ (λ _, p)); [by apply t_alive|]. intros _ s Hs. unfold lift, await. run_eff.
  destruct (lookups_true Hhonest (ms_ticks (rn_session s)) (rn_chain s)) as [-> | ->]; simpl; auto.
Qed.

Lemma t_lookup n (p : view → Prop) : (∀ v, p v → recoverable v) → triple p (lookupSelf renv n) (λ o v, p v ∧ o = vw_chain v).
Proof.
  intros Hp. induction n as [|n IH]; cbn [lookupSelf]; (eapply t_bind; [by apply t_lookup_once|]).
  - intros o. by destruct o; apply t_ret.
  - intros [r|]; [by apply t_ret|]. destruct n as [|n]; [by apply t_ret|].
    apply (t_bind _ (λ _ v, p v ∧ None = vw_chain v)); [apply t_await|]. intros _. eapply t_conseq; [exact IH|by intros v [? _]|done].
Qed.

Lemma t_submit tx signer (p : view → Prop) (q : bool → view → Prop) : (∀ v, p v → recoverable v) →
  (∀ t v, p v → q (rv_submit renv t tx (pub <$> signer) (vw_chain v)).1 (set_chain (rv_submit renv t tx (pub <$> signer) (vw_chain v)).2 v)) →
  triple p (submit renv tx signer) q.
Proof.
  intros Hp Hq. apply (t_bind _ (λ _, p)); [by apply t_alive|]. intros _ s Hs. apply (Hq (ms_ticks (rn_session s))) in Hs.
  unfold lift, await. run_eff. by destruct (rv_submit renv _ tx _ _) as [ok c].
Qed.

(** ** The renewal, piece by piece *)

Section pieces.
Context (Φ : bytes → Prop) (HΦc : ∀ i, Φ i → certified i).      (* what is known of the device's identity *)

Definition known (a : Authority) (v : view) : Prop :=
  stored_as (vw_authority v) a ∧ Φ (vw_identity v)
  ∧ ∀ r, vw_chain v = Some r → authorityKey r = pub a ∨ ∃ p, stored_as (vw_pending v) p ∧ authorityKey r = pub p.

Definition settled (a : Authority) (v : view) : Prop :=
  stored_as (vw_authority v) a ∧ Φ (vw_identity v) ∧ ∀ r, vw_chain v = Some r → authorityKey r = pub a.

Definition active (a : Authority) (v : view) : Prop := settled a v ∧ ∃ r, vw_chain v = Some r ∧ revokedAtMs r = 0.

Lemma known_recoverable a v : known a v → recoverable v.
Proof. intros (Ha & HΦ & Hc). split; [auto|]. intros r Hr. exists a. auto. Qed.

Lemma settled_known a v : settled a v → known a v.
Proof. intros (? & ? & Hc). split_and!; auto. Qed.

Lemma settled_recoverable a v : settled a v → recoverable v.
Proof. intros Hs. eapply known_recoverable, settled_known, Hs. Qed.
#[local] Hint Resolve settled_recoverable known_recoverable : core.

Lemma t_authority_of stored :
  triple (λ v, (recoverable v ∧ Φ (vw_identity v)) ∧ loaded stored (vw_authority v)) (authority_of env renv stored) known.
Proof.
  destruct stored as [a|]; cbn [authority_of].
  - apply t_ret. intros v [[[_ Hr] HΦ] Ha]. split_and!; [done|done|]. intros r Hc. destruct (Hr r Hc) as (a' & Ha' & Hk).
    by rewrite (stored_unique _ _ _ Ha Ha').
  - apply (t_bind _ (λ a v, is_keypair a ∧ vw_chain v = None ∧ Φ (vw_identity v))).
    + eapply t_conseq; [apply t_generate|intros v Hv; exact Hv|]. intros a v [[[[_ Hr] HΦ] Hl] (t & ->)]. split_and!; [by apply (generated Hhonest)| |done].
      destruct (vw_chain v) as [r|] eqn:Hc; [|done]. destruct (Hr r Hc) as (a & Ha & _). by apply loaded_None with (a := a) in Hl.
    + intros a. apply (t_bind _ (λ _, known a)).
      * apply t_save_authority; intros v (Ha & Hc & HΦ); [split; [auto|]; intros r; by rewrite Hc|]. split_and!; [by apply stored_secret|done|].
        intros r. simpl. by rewrite Hc.
      * intros _. apply (t_bind _ (λ _, known a)); [apply t_setSince; eauto|]. intros _. by apply t_ret.
Qed.

Lemma t_resolve a pending record :
  triple (λ v, (known a v ∧ record = vw_chain v) ∧ loaded pending (vw_pending v)) (resolve_pending env renv a pending record)
    (λ a v, settled a v ∧ record = vw_chain v).
Proof.
  assert (∀ v, known a v → vw_chain v = None ∨ loaded None (vw_pending v) → settled a v) as Hdone.
  { intros v (? & ? & Hc) Hd. split_and!; [done|done|]. intros r Hr. destruct (Hc r Hr) as [?|(p & Hp & _)]; [done|].
    destruct Hd as [Hn|Hn]; [congruence|]. by eapply loaded_None in Hn. }
  unfold resolve_pending. destruct pending as [p|]; [destruct record as [r|]|].
  2: { apply t_ret. intros v [[Hk Hc] _]. auto. }
  2: { apply t_ret. intros v [[Hk Hc] Hl]. auto. }
  apply (t_bind _ (λ a v, settled a v ∧ Some r = vw_chain v)).
  - case_decide as Ek.
    + apply (t_bind _ (λ _ v, settled p v ∧ Some r = vw_chain v)).
      * apply t_save_authority; intros v [[Hk Hc] Hl]; [eauto|]. destruct Hk as (? & HΦ & _). destruct Hl as [Hkp ?]. split; [|done].
        split_and!; [by apply stored_secret|done|]. intros r'. simpl. rewrite <-Hc. by intros [= <-].
      * intros _. apply (t_bind _ (λ _ v, settled p v ∧ Some r = vw_chain v)); [apply t_setSince; intros v [? _]; eauto|]. intros _. by apply t_ret.
    + apply t_ret. intros v [[(Ha & HΦ & Hk) Hc] Hl]. split; [|done]. split_and!; [done|done|]. intros r' Hr'.
      destruct (Hk r' Hr') as [?|(p' & Hp' & E)]; [done|]. rewrite (stored_unique _ _ _ Hl Hp') in Ek. congruence.
  - intros a'. apply (t_bind _ (λ _ v, settled a' v ∧ Some r = vw_chain v)); [|intros _; by apply t_ret].
    apply t_save_pending; intros v [Hs Hc]; [eauto|]. split; [|done]. destruct Hs as (? & ? & ?). by split_and!.
Qed.

Lemma t_register a : triple (λ v, settled a v ∧ None = vw_chain v) (register env renv a)
  (λ o v, recoverable v ∧ match o with Some r => settled a v ∧ Some r = vw_chain v | None => True end).
Proof.
  unfold register. destruct (negb _); [apply t_ret; intros v [? _]; eauto|].
  apply (t_bind _ (λ _, settled a)).
  - apply t_submit; [intros v [? _]; eauto|]. intros t v [(Ha & HΦ & _) Hc]. pose proof (registrations_final Hhonest t (en_deviceId env) (pub a) (vw_chain v)) as Hf.
    simpl in *. destruct (rv_submit renv t _ _ _) as [[] c']; simpl in *.
    + destruct Hf as (_ & r & -> & Hr). split_and!; [done|done|]. by intros r' [= <-].
    + rewrite Hf, <-Hc. by split_and!.
  - intros ok. destruct (negb ok); [apply t_ret; eauto|]. eapply t_bind; [apply t_lookup; eauto|]. intros record. cbv beta.
    destruct record as [r|].
    + apply (t_bind _ (λ _ v, settled a v ∧ Some r = vw_chain v)); [apply t_setSince; intros v [? _]; eauto|]. intros _. apply t_ret. intros v [? ?]. eauto.
    + apply (t_bind _ (λ _ v, settled a v ∧ None = vw_chain v)); [by apply t_ret|]. intros _. apply t_ret. intros v [? ?]. eauto.
Qed.

Lemma t_rotate a : triple (active a) (rotate env renv a) active.
Proof.
  assert (∀ a v, active a v → recoverable v) as Hact by (intros b v [? _]; eauto). unfold rotate.
  apply (t_bind _ (λ _, active a)); [apply t_alive; eauto|]. intros _.
  eapply (t_bind _ (λ _, active a)).
  { intros s Hs. exact Hs. }
  intros text. apply (t_bind _ (λ _, active a)); [by intros s Hs|]. intros t. destruct (negb _); [by apply t_ret|].
  apply (t_bind _ (λ next v, active a v ∧ is_keypair next)).
  { eapply t_conseq; [apply t_generate|intros v Hv; exact Hv|]. intros next v [Hv (t' & ->)]. split; [done|]. apply (generated Hhonest). }
  intros next. apply (t_bind _ (λ _ v, active a v ∧ stored_as (vw_pending v) next)).
  { apply t_save_pending; intros v [[(? & ? & ?) ?] Hn]; [eapply settled_recoverable; by split_and!|].
    split; [by split_and!|]. by apply stored_secret. }
  intros _. apply (t_bind _ (λ ok v, ∃ r, vw_chain v = Some r ∧ revokedAtMs r = 0 ∧ stored_as (vw_authority v) a ∧ Φ (vw_identity v)
    ∧ stored_as (vw_pending v) next ∧ authorityKey r = pub (if ok : bool then next else a))).
  { apply t_submit; [intros v [? _]; eauto|]. intros t' v [[(Ha & HΦ & Hk) (r & Hr & Hrev)] Hn].
    pose proof (rotations_final Hhonest t' (pub next) (pub a) (vw_chain v)) as Hf. simpl in *.
    destruct (rv_submit renv t' _ _ _) as [[] c']; simpl in *.
    - destruct Hf as (r' & -> & Er & r0 & Hr0 & Erev). exists r'. simplify_eq. split_and!; try done. congruence.
    - rewrite Hf. exists r. split_and!; auto. }
  intros ok. apply (t_bind _ active).
  - destruct ok.
    + apply (t_bind _ (λ _, active next)).
      * apply t_save_authority; intros v (r & Hr & Hrev & Ha & HΦ & Hn & Ek).
        -- split; [auto|]. intros r' Hr'. exists a. split; [done|]. right. exists next. split; [done|]. congruence.
        -- split; [|by exists r]. split_and!; [apply stored_secret, Hn|done|]. intros r' Hr'. simpl in Hr'. congruence.
      * intros _. apply (t_bind _ (λ _, active next)); [apply t_setSince; eauto|]. intros _.
        apply (t_bind _ (λ _, active next)); [apply t_forget; eauto|]. intros _. by apply t_ret.
    + apply t_ret. intros v (r & Hr & Hrev & Ha & HΦ & Hn & Ek). split; [|by exists r]. split_and!; [done|done|]. intros r' Hr'. congruence.
  - intros a'. apply (t_bind _ (λ _, active a')); [|intros _; by apply t_ret].
    apply t_save_pending; intros v [(? & ? & ?) ?]; [eapply settled_recoverable; by split_and!|]. split; [by split_and!|done].
Qed.
End pieces.

(** ** The certificate *)

(** The device's certificate is for the key [a] has; the key that signed it may be an older object. *)
Definition renewed (a : Authority) (i : bytes) : Prop :=
  ∃ c a', certificate_in i = Some c ∧ issued_here a' c ∧ pub a' = pub a.

(** A readable key, so that the new certificate carries it on. *)
Definition readable (i : bytes) : Prop := ∀ c, certificate_in i = Some c → wf_str (ct_mls_key c).

Lemma renewed_certified a i : renewed a i → certified i.
Proof. intros (c & a' & Hc & Ha & _) c' Hc' _. exists a'. congruence. Qed.

Record printable : Prop := {
  wallet_printable : wf_str (en_wallet env);
  device_printable : wf_str (en_deviceId env);
  clock_printable t : Z.abs (cf_now (en_certs env) t) ≤ 2 ^ 53 - 1;
}.
Context (Hprintable : printable).

Lemma issued_renewed a k t : is_keypair a → wf_str k →
  renewed a (utf8_encode (stringify (certificate_v2_json (issueCertificateV2 a (en_wallet env) (en_deviceId env) k (cf_now (en_certs env) t))))).
Proof.
  intros Ha Hk. destruct (keypair_wf a Ha) as [Hp Hs]. destruct Hprintable as [Hw Hd Ht]. specialize (Ht t).
  assert (wf_str (toLowerCase (strip_0x (trim k)))) as Hk'.
  { apply toLowerCase_wf. unfold strip_0x. case_match; [apply Forall_drop|]; by apply trim_wf. }
  exists (issueCertificateV2 a (en_wallet env) (en_deviceId env) k (cf_now (en_certs env) t)), a. split; [|by split_and!].
  unfold certificate_in. assert (json_ok (certificate_v2_json (issueCertificateV2 a (en_wallet env) (en_deviceId env) k (cf_now (en_certs env) t)))) as Hok.
  { apply json_ok_obj. repeat (apply Forall_cons_2 || apply Forall_nil_2); (split; [apply wf_js|]); simpl; try (by apply num_stable_int);
      try done; try apply wf_js; try (by apply toHex_wf); [apply toLowerCase_wf|]; by apply trim_wf. }
  rewrite text_stringify, json_parse_stringify by done. done.
Qed.

Lemma keeps_push_credential i f h id : keeps (frame i f) (push_credential env fuel h id).
Proof.
  assert (∀ id g, keeps (frame i f) (update_credential id g)) as Hu.
  { intros id' g. unfold update_credential. apply keeps_bind; [apply keeps_on_group; intros d; apply kept_updateCredential|]. intros c. apply keeps_ret. }
  assert (keeps (frame i f) (selfCommit env fuel (update_credential id))) as Hself by (apply keeps_selfCommit; try apply _; intros g; apply Hu).
  assert (keeps (frame i f) (commit env fuel id (λ g, c ← update_credential id g;
    mret ((λ c, {| bt_commit := c; bt_added := 0; bt_afterAccept := mret tt |}) <$> c)))) as Hcommit.
  { apply keeps_commit; [apply _..|intros g; apply keeps_bind; [apply Hu|intros c; apply keeps_ret]|]. intros g s0 b s' Hrun.
    apply bind_ok_inv in Hrun as (c & s1 & _ & E). revert E. intros [= E _]. by destruct c; [injection E as <-|]. }
  unfold push_credential, is_desynced. keeps_auto.
Qed.

Lemma keeps_push_credentials i f h ids : keeps (frame i f) (push_credentials env fuel h ids).
Proof. induction ids as [|id ids IH]; cbn [push_credentials]; [keeps_auto|]. apply keeps_bind; [apply keeps_push_credential|done]. Qed.

(** The renewal of the certificate keeps the stored keys, and ends with the new one. *)
Lemma renew_spec a i f s : is_keypair a → readable i → certified i → frame i f s → ∃ i', frame i' f (renewCertificate env fuel a s).2
  ∧ certified i' ∧ ∀ u, (renewCertificate env fuel a s).1 = Ok u → renewed a i'.
Proof.
  intros Ha Hread Hcert Hs. unfold renewCertificate. destruct (certificate s) as [[current|e] s0] eqn:Ec.
  2: { unfold mbind, eff_bind. rewrite Ec. exists i. split; [|done]. pose proof (keeps_certificate _ _ s Hs) as Hk. by rewrite Ec in Hk. }
  destruct (certificate_spec _ _ _ Ec) as [-> _]. rewrite (bind_ok _ _ _ _ _ Ec).
  assert (certificate_in i = Some current) as Hc.
  { destruct Hs as [<- _]. revert Ec. unfold certificate, certificate_in. rewrite (bind_ok _ _ s s s) by done. unfold or_throw. case_match; [by intros [= ->]|done]. }
  assert (∀ i', keeps (frame i' f) (s2 ← get_state; known ← with_store known_groups;
    push_credentials env fuel (toHex (identity (ms_device s2))) (foldl (λ l x, set_add x l) [] (known ++ [selfId env])))) as Hpush.
  { intros i'. apply keeps_bind_get. intros s2 _. apply keeps_bind; [auto with keeps|]. intros known. apply keeps_push_credentials. }
  destruct ((ct_v current =? 2) && _) eqn:Ecur.
  - exists i. split; [exact (Hpush i s Hs)|]. bool_to_Z. split; [done|]. intros _ _. destruct (Hcert current) as (a' & Ha'); [done..|].
    exists current, a'. split_and!; [done|done|]. destruct Ha' as (_ & (_ & Hk & _) & _). congruence.
  - set (new := issueCertificateV2 a (en_wallet env) (en_deviceId env) (ct_mls_key current) (cf_now (en_certs env) (ms_ticks s))).
    set (i' := utf8_encode (stringify (certificate_v2_json new))).
    assert (renewed a i') as Hgood by (apply issued_renewed; auto).
    assert (frame i' f (issue_certificate env a current s).2) as Hs1.
    { unfold issue_certificate. set (s1 := set_certs (tick (ms_certs s)) s).
      rewrite (bind_ok _ _ s (cf_now (en_certs env) (ms_ticks s)) s), (bind_ok _ _ s tt s1) by done. cbv zeta. fold new. fold i'.
      set (s2 := set_device (withIdentity (ms_device s1) i') (set_groups [] s1)). rewrite (bind_ok _ _ s1 tt s2) by done.
      assert (frame i' f s2) as Hs2 by (split; [apply id_withIdentity|apply Hs]). revert Hs2. generalize s2. intros s3 Hs3.
      match goal with |- frame i' f (?m s3).2 => cut (keeps (frame i' f) m); [intros Hk; by apply Hk|] end. keeps_auto. }
    destruct (issue_certificate env a current s) as [[[]|e] s1] eqn:Ei; simpl in Hs1.
    + rewrite (bind_ok _ _ _ _ _ Ei). exists i'. split; [exact (Hpush i' s1 Hs1)|]. split; [by eapply renewed_certified|done].
    + rewrite (bind_throw _ _ _ _ _ Ei). exists i'. split; [done|]. split; [by eapply renewed_certified|done].
Qed.

(** What is known of the identity before the renewal. *)
Definition renewable (i : bytes) : Prop := readable i ∧ certified i.

Lemma renewable_certified i : renewable i → certified i.
Proof. by intros [_ ?]. Qed.

Lemma t_renew a : triple (active renewable a) (lift (renewCertificate env fuel a)) (λ _, active (renewed a) a).
Proof.
  intros s [(Ha & [Hread Hcert] & Hk) Hc]. set (x := rn_session s).
  destruct (renew_spec a (identity (ms_device x)) (λ k, getMeta k (ms_store x)) x (proj1 Ha) Hread Hcert (conj eq_refl (λ k _, eq_refl)))
    as (i' & [Hi Hm] & Hcert' & Hgood).
  assert (view_of (with_session (renewCertificate env fuel a x).2 s) = set_identity i' (view_of s)) as E.
  { unfold view_of. simpl. by rewrite Hi, !Hm by (unfold renewal_slots; rewrite !elem_of_cons; auto). }
  unfold lift. fold x. destruct (renewCertificate env fuel a x) as [[[]|e] x']; simpl in E |- *; rewrite E; [|split; [done|]; intros r Hr; exists a; auto].
  split; [|done]. split_and!; [done|by eapply Hgood|done].
Qed.

(** ** The whole *)

Lemma t_maintain : triple (λ v, recoverable v ∧ readable (vw_identity v)) (maintain env renv fuel)
  (λ st v, recoverable v ∧ st ≠ rs_conflict ∧ (st = rs_revoked → ∃ r, vw_chain v = Some r ∧ revokedAtMs r ≠ 0)
    ∧ (st = rs_current → ∃ r a, is_keypair a ∧ vw_chain v = Some r ∧ revokedAtMs r = 0 ∧ authorityKey r = pub a ∧ renewed a (vw_identity v))).
Proof.
  unfold maintain. destruct (cf_v2 _) as [v2|]; [|apply t_ret; intros v [Hv _]; by split_and!].
  eapply t_bind; [apply (t_load _ vw_authority); [done|by intros v [? _]]|]. intros stored.
  eapply t_bind; [eapply t_conseq; [apply (t_authority_of renewable renewable_certified)| |]; [|done];
    intros v [[[Hc Hk] Hr] Hl]; by repeat split|]. intros a.
  eapply t_bind; [apply t_lookup; intros v; apply (known_recoverable renewable renewable_certified)|]. intros record.
  eapply t_bind; [apply (t_load _ vw_pending); [done|intros v [? _]; by eapply (known_recoverable renewable renewable_certified)]|]. intros pending.
  eapply t_bind; [apply (t_resolve renewable renewable_certified)|]. clear a. intros a. cbv beta.
  apply (t_bind _ (λ o v, recoverable v ∧ match o with Some r => settled renewable a v ∧ Some r = vw_chain v | None => True end)).
  { destruct record as [r|]; [|apply (t_register renewable renewable_certified)]. apply t_ret. intros v [Hs Hc]. split; [by eapply (settled_recoverable renewable renewable_certified)|done]. }
  intros [r|]; [|apply t_ret; intros v [Hv _]; by split_and!]. destruct (Z.eqb_spec (revokedAtMs r) 0) as [Hrev|Hrev].
  2: { apply t_ret. intros v (Hv & Hs & Hc). split_and!; try done. intros _. exists r. by rewrite <-Hc. }
  cbn [negb]. destruct (bool_decide (authorityKey r = pub a)) eqn:Ek; bool_to_Z.
  2: { cbn [negb]. intros s (_ & Hs & Hc). destruct Ek. destruct Hs as (_ & _ & Hk). by apply Hk. }
  cbn [negb]. apply (t_bind _ (active renewable)).
  { eapply t_conseq; [apply (t_rotate renewable renewable_certified)| |]; [|done]. intros v (_ & Hs & Hc). split; [done|]. exists r. by rewrite <-Hc. }
  clear a Ek r Hrev record. intros a. eapply t_bind; [apply t_renew|]. intros []. apply t_ret. intros v [(Ha & Hg & Hk) (r & Hr & Hrev)].
  split_and!; [|done|done|].
  - split; [by eapply renewed_certified|]. intros r' Hr'. exists a. auto.
  - intros _. exists r, a. split_and!; auto. apply Ha.
Qed.

(** Of the account's own signature, as [open] makes them. *)
Definition account_signed (i : bytes) : Prop := ∀ c, certificate_in i = Some c → ct_v c ≠ 2.

(** A device's life, as far as its authority keys and its certificate go: it starts
    unregistered with an account-signed certificate, runs [maintain], which may stop
    anywhere, and in between does other work that leaves the renewal's values and the
    identity alone ([MlsFrame]), restarts included, or opens anew with an account-signed
    one; another device may revoke it. *)
Inductive life : renewal → Prop :=
  | life_new s : rn_chain s = None → account_signed (identity (ms_device (rn_session s))) → life s
  | life_maintain s r s' : life s → readable (identity (ms_device (rn_session s))) → maintain env renv fuel s = (r, s') → life s'
  | life_other s s' : life s → rn_chain s' = rn_chain s →
      (∀ k, k ∈ renewal_slots → getMeta k (ms_store (rn_session s')) = getMeta k (ms_store (rn_session s))) →
      identity (ms_device (rn_session s')) = identity (ms_device (rn_session s)) ∨ account_signed (identity (ms_device (rn_session s'))) → life s'
  | life_revoked s s' r r' : life s → rn_chain s = Some r → rn_chain s' = Some r' → authorityKey r' = authorityKey r →
      rn_session s' = rn_session s → life s'.

Lemma account_certified i : account_signed i → certified i.
Proof. intros Hi c Hc Hv. by destruct (Hi c). Qed.

Lemma life_recoverable s : life s → recoverable (view_of s).
Proof.
  induction 1 as [s Hc Hi|s r s' _ IH Hread Hrun|s s' _ [IHc IH] Hc Hk Hi|s s' r r' _ [IHc IH] Hr Hr' Ek Es].
  - split; [by apply account_certified|]. intros x. simpl. by rewrite Hc.
  - pose proof (t_maintain s (conj IH Hread)) as Ht. rewrite Hrun in Ht. by destruct r; [destruct Ht as [Ht _]|].
  - split; [destruct Hi as [Hi|Hi]; [|by apply account_certified]; simpl; by rewrite Hi|]. intros x. specialize (IH x). simpl in *.
    by rewrite Hc, !Hk by (unfold renewal_slots; rewrite !elem_of_cons; auto).
  - split; [simpl; by rewrite Es|]. intros x. simpl. rewrite Hr'. intros [= <-]. rewrite Ek, Es. by apply IH.
Qed.

Lemma pub_valid r a now : is_keypair a → authorityKey r = pub a → revokedAtMs r = 0 → registryKeyIsValid r (pub a) now = true.
Proof.
  intros Ha Hk Hrev. destruct (keypair_wf a Ha) as [Hw _]. pose proof (toHex_hex (au_public a) Hw) as Hhex. unfold registryKeyIsValid. rewrite Hrev. cbn [Z.eqb negb].
  assert (toLowerCase (pub a) = pub a) as ->.
  { rewrite toLowerCase_ascii by (eapply Forall_impl; [exact Hhex|]; intros c Hc; by apply lower_hex_props).
    unfold pub. clear -Hhex. induction Hhex as [|c l Hc _ IH]; [done|]. cbn [fmap list_fmap]. rewrite IH. f_equal. by apply lower_hex_props. }
  assert (strip_0x (pub a) = pub a) as ->; [|by rewrite bool_decide_true].
  unfold strip_0x. destruct (startsWith (js "0x") (pub a)) eqn:E; [|done]. exfalso. unfold pub in E. change (js "0x") with [48; 120] in E.
  destruct Hhex as [|x l _ [|y l' Hy _]]; [done|simpl in E; by rewrite andb_false_r in E|].
  apply andb_prop in E as [_ E]. apply andb_prop in E as [E _]. apply Z.eqb_eq in E. simpl in E. by subst y.
Qed.

(** What the signature check of the members documents: it accepts a certificate
    that its authority key signed. *)
Definition checks_signatures (v2 : CertificateV2Options) : Prop :=
  ∀ a c, is_keypair a → signed_by a c → verifySignature v2 (stringify (certificate_json c)) = true.

(** A member that has not asked before, and whom the registry answers [r] of this
    device, finds the certificate valid. *)
Lemma member_accepts a c r o v2 t : issued_here a c → authorityKey r = pub a → revokedAtMs r = 0 →
  cf_v2 o = Some v2 → checks_signatures v2 → (∀ i, lookup v2 i (toLowerCase (ct_wallet c)) (ct_device_id c) = Some (Some r)) →
  (status o c (new_certs t)).1 = Ok c_valid.
Proof.
  intros (Ha & Hs & _) Hr Hrev Hv2 Hsig Hl. specialize (Hsig a c Ha Hs). destruct Hs as (Hv & Hk & _). unfold status. rewrite Hv. cbn [Z.eqb].
  pose proof (toHex_nonempty (au_public a) (keypair_public a Ha)) as Hne. pose proof (pub_valid r a (cf_now o (S (S (S (S t))))) Ha Hr Hrev) as Hvalid.
  change (Pos.eqb 2 2) with true. cbv iota. unfold statusV2. rewrite Hv2, Hk. fold (pub a) in Hne. destruct (pub a) as [|x k] eqn:Ek; [done|].
  unfold signature_ok, certificateDigest, registryEntry, cached_entry, read_registry, read_meta, write_meta, cert_now. run_eff. rewrite Hsig.
  cbn [negb]. run_eff. rewrite Hl. run_eff. cbn [cc_ticks tick set_store set_registry set_sigOk new_certs] in *. by rewrite Hvalid.
Qed.

(** C40.  The renewal does not lose its key.  A device starts unregistered, with an
    account-signed certificate, and between its calls of [maintain] nothing else touches
    the stored keys, or the identity unless it opens anew.  Wherever [maintain] stopped
    before, as long as the chain answers truthfully, a transaction that rejects never
    lands and the keys and certificate texts survive their encodings, it never finds
    another key registered for its device id ([rs_conflict]), and says [rs_revoked]
    only of a revoked device.  When it says [rs_current], the device's certificate is for this
    wallet and device, and signed with the key [a] that the chain has registered and
    not revoked; so a member that has nothing cached about this device, whose
    signature check accepts what an authority key signed and whose registry lookups
    answer with the chain's record, finds the certificate valid. *)
Theorem maintain_keeps_key s st s' :
  life s → readable (identity (ms_device (rn_session s))) → maintain env renv fuel s = (Ok st, s') →
  st ≠ rs_conflict
  ∧ (st = rs_revoked → ∃ r, rn_chain s' = Some r ∧ revokedAtMs r ≠ 0)
  ∧ (st = rs_current → ∃ c r a, certificate (rn_session s') = (Ok c, rn_session s') ∧ issued_here a c
      ∧ rn_chain s' = Some r ∧ authorityKey r = pub a ∧ revokedAtMs r = 0
      ∧ ∀ o v2 t, cf_v2 o = Some v2 → checks_signatures v2 →
          (∀ i, lookup v2 i (toLowerCase (ct_wallet c)) (ct_device_id c) = Some (Some r)) → (status o c (new_certs t)).1 = Ok c_valid).
Proof.
  intros Hlife Hread Hrun. pose proof (t_maintain s (conj (life_recoverable s Hlife) Hread)) as Ht. rewrite Hrun in Ht.
  destruct Ht as (Hrec & Hc & Hrev & Hcur). split; [done|]. split; [done|]. intros Est.
  destruct (Hcur Est) as (r & a & Ha & Hr & Hr0 & Hk & (c & a' & Hcert & Hiss & Hpub)). rewrite <-Hpub in Hk. exists c, r, a'.
  split_and!; [|done..|intros o v2 t; by eapply member_accepts].
  unfold certificate. rewrite (bind_ok _ _ _ (rn_session s') (rn_session s')) by done.
  change (certificate_in (identity (ms_device (rn_session s'))) = Some c) in Hcert. unfold certificate_in in Hcert. by rewrite Hcert.
Qed.
End theorems.

(** * A toy chain *)

#[local] Existing Instances integer_numbers integer_numbers_laws ascii_text ascii_text_laws plain_hex toy_crypto.
#[local] Existing Instance plain_hex_laws.
#[local] Instance plain_sha : Sha256 := {| sha256 b := b |}.

Definition toy_key (n : Z) : Authority := {| au_public := [n mod 256]; au_sign := λ _, [n mod 256] |}.

#[local] Instance toy_keys : AuthorityKeys := {|
  getSecretKey a := au_public a;
  fromSecretKey x := match x with [n] => if (0 <=? n) && (n <? 256) then Some (toy_key n) else None | _ => None end;
  is_keypair a := ∃ n, 0 ≤ n < 256 ∧ a = toy_key n |}.

#[local] Instance toy_keys_laws : AuthorityKeysLaws.
Proof.
  split.
  - intros a (n & Hn & ->). simpl. rewrite Z.mod_small by lia. rewrite (proj2 (Z.leb_le _ _)), (proj2 (Z.ltb_lt _ _)) by lia. done.
  - by intros a (n & _ & ->).
  - intros [|n [|]] a; try done. simpl. destruct ((0 <=? n) && (n <? 256)) eqn:E; [|done]. intros [= <-]. exists n. bool_to_Z. split; [lia|done].
  - intros a (n & Hn & ->). simpl. rewrite Z.mod_small by lia. split; [|intros _]; (apply Forall_singleton; unfold is_byte; lia).
  - by intros a (n & _ & ->).
Qed.

(** A device that is its identity, in no group. *)
#[local] Instance lone_engine : MlsEngine := {|
  Device := bytes; Group := unit; Reassembler := unit;
  snapshot d := d; restore d := d; identity d := d; keyPackage d := ([], d);
  createGroup d _ := (tt, d); join d _ := (None, d); rejoinExternal d _ := (None, d); deleteGroup d _ := d;
  loadGroup d _ := None; epoch g := 0; isActive _ := false; membersJson _ := [];
  addMembers d g _ := (None, g, d); removeLeaves d g l := (None, g, d); selfUpdate d g := (None, g, d);
  commitPending d g := (None, g, d); groupInfo _ _ := None; encrypt d g b := (None, g, d); process d g b := (None, g, d);
  withIdentity d i := i; updateCredential d g := (None, g, d); leave d g := (None, g, d);
  DeviceKeys := unit; keys_publicKey _ := []; fromKeys _ i := i; mlsCertificateCanonical _ _ _ _ := [];
  new_reassembler := tt; push r _ := (None, r);
  mlsInspect _ := None; mlsKeyPackageCertificate _ := None; mlsHistorySplit _ p := [p] |}.

#[local] Instance lone_laws : @MlsEngineLaws lone_engine.
Proof. split; try done. intros g. simpl. constructor. Qed.

#[local] Instance lone_identity : @MlsIdentityLaws lone_engine.
Proof. by split; [intros i; split|]. Qed.

Definition record_with (k : jsstr) (revoked : Z) : MlsDeviceRecord := {|
  authorityKey := k; previousKey := []; previousValidUntilMs := 0; generation := 0; registeredAtMs := 0; revokedAtMs := revoked |}.

(** A chain that keeps its word; [lost] is whether the answer to a rotation is lost
    on the way back.  A rotation is due at every [maintain]. *)
Definition toy_renv (lost : bool) : renewal_env := {|
  rv_submitter := true; rv_rotateAfterMs := Some 0; rv_generate t := toy_key (Z.of_nat t mod 256); rv_crash _ := false;
  rv_lookup _ c := Some c;
  rv_submit _ tx signer c := match tx, c with
    | RegisterTx _ k, None => (true, Some (record_with k 0))
    | RotateTx k, Some r => if decide (signer = Some (authorityKey r)) then (negb lost, Some (record_with k (revokedAtMs r))) else (false, c)
    | _, _ => (false, c) end |}.

Definition lone_env : mls_env := {|
  en_certs := toy_certs_config; en_wallet := js "0xme"; en_deviceId := js "d"; en_keyPackageTarget := Some 1%nat; en_onChainReaders := None;
  en_verifyRow _ _ := None; en_historyShareDays := None; en_randomUUID _ := js "u"; en_postControlRow _ _ _ := None;
  en_fetchRows _ _ _ := None; en_postGroupInfo _ _ _ := true; en_getGroupInfo _ _ := None; en_claimKeyPackages _ _ := None;
  en_postWelcome _ _ _ _ := true; en_takeWelcomes _ := None; en_putKeyPackages _ _ := true; en_postAppRow _ _ _ := false;
  en_deleteDevice _ := true; en_getSelfGroupInfo _ := None; en_putSelfGroupInfo _ _ := true; en_postSelfMessage _ _ := None;
  en_fetchSelf _ _ := None; en_historyRowsPerGroup := None |}.

Definition lone_renewal : renewal := {| rn_session := Session toy_identity [] [] 0 [] [] [] (new_certs 0) []; rn_chain := None |}.

#[local] Notation maintained lost s := (maintain lone_env (toy_renv lost) 1 s).

Lemma toy_chain_honest : honest (toy_renv false).
Proof.
  split.
  - by left.
  - intros t d k [r|]; simpl; [done|]. split; [done|]. by eexists.
  - intros t k signer [r|]; simpl; [|done]. case_decide; simpl; [|done]. eexists. split_and!; [done|done|]. by exists r.
  - intros t. simpl. exists (Z.of_nat t mod 256). split; [apply Z.mod_pos_bound; lia|done].
Qed.

Lemma lone_printable : printable lone_env.
Proof. split; [apply wf_js|apply wf_js|]. intros t. simpl. unfold toy_now. lia. Qed.

Lemma lone_readable : readable toy_identity.
Proof.
  intros c Hc. assert (ct_mls_key <$> certificate_in toy_identity = Some (js "0xme")) as E by (vm_compute; reflexivity).
  rewrite Hc in E. injection E as ->. apply wf_js.
Qed.

Lemma lone_account_signed : account_signed toy_identity.
Proof.
  intros c Hc Hv. assert (ct_v <$> certificate_in toy_identity = Some 1) as E by (vm_compute; reflexivity).
  rewrite Hc in E. injection E as E. congruence.
Qed.

(** A member whom the registry answers [r]; its signature check takes anything. *)
Definition member_config (r : MlsDeviceRecord) : cert_config := {|
  cf_verify _ _ := None; cf_v2 := Some {| verifySignature _ := true; lookup _ _ _ := Some (Some r) |}; cf_now := toy_now |}.

(** The first run registers and rotates; the certificate is under the new key, and a member takes it. *)
Lemma maintain_keeps_key_witness : (maintained false lone_renewal).1 = Ok rs_current
  ∧ ∃ s' c r a, maintained false lone_renewal = (Ok rs_current, s') ∧ certificate (rn_session s') = (Ok c, rn_session s')
    ∧ issued_here lone_env a c ∧ rn_chain s' = Some r ∧ authorityKey r = pub a ∧ (status (member_config r) c (new_certs 0)).1 = Ok c_valid.
Proof.
  assert ((maintained false lone_renewal).1 = Ok rs_current) as E1 by (vm_compute; reflexivity). split; [exact E1|].
  destruct (maintained false lone_renewal) as [st s'] eqn:E. cbn [fst] in E1. rewrite E1 in E.
  assert (life lone_env (toy_renv false) 1 lone_renewal) as Hlife by (apply life_new; [reflexivity|exact lone_account_signed]).
  destruct (maintain_keeps_key lone_env (toy_renv false) 1 toy_chain_honest lone_printable lone_renewal rs_current s' Hlife lone_readable E) as (_ & _ & Hcur).
  destruct (Hcur eq_refl) as (c & r & a & Hc & Hi & Hr & Hk & _ & Hm). exists s', c, r, a. rewrite E1.
  split; [reflexivity|]. split; [exact Hc|]. split; [exact Hi|]. split; [exact Hr|]. split; [exact Hk|].
  refine (Hm (member_config r) _ 0%nat eq_refl _ _); [intros a0 c0 _ _; reflexivity|intros t; reflexivity].
Defined.

(** A rotation whose answer is lost ends the device.  There is a run of
    [maintain] in which the rotation lands but its transaction rejects (a timeout): the
    pending key is erased as for a failure, [maintain] still says [rs_current], and the
    next run finds a key on chain that it no longer has: [rs_conflict], for good. *)
Lemma lost_rotation_conflicts : ∃ s1 s2 r a,
  maintain lone_env (toy_renv true) 1 lone_renewal = (Ok rs_current, s1)
  ∧ rn_chain s1 = Some r ∧ getMeta AUTHORITY (ms_store (rn_session s1)) = Some (getSecretKey a) ∧ authorityKey r ≠ pub a
  ∧ getMeta PENDING (ms_store (rn_session s1)) = None
  ∧ maintain lone_env (toy_renv true) 1 s1 = (Ok rs_conflict, s2)
  ∧ (maintain lone_env (toy_renv true) 1 s2).1 = Ok rs_conflict.
Proof.
  exists (maintained true lone_renewal).2, (maintained true (maintained true lone_renewal).2).2, (record_with [48; 57] 0), (toy_key 1).
  assert (∀ s r, (maintained true s).1 = Ok r → maintained true s = (Ok r, (maintained true s).2)) as Hpair by (intros s r <-; apply surjective_pairing).
  split; [apply Hpair; vm_compute; reflexivity|]. split; [vm_compute; reflexivity|]. split; [vm_compute; reflexivity|].
  split; [vm_compute; discriminate|]. split; [vm_compute; reflexivity|]. split; [apply Hpair|]; vm_compute; reflexivity.
Qed.
