(* ===== verification/MlsBackup.v ===== *)
(** The passkey message backup ([mls/backup.ts] and its part of
    [mls/session.ts]): sealed segments of history on the relayer, from which a new
    device of the account takes back what it could read before.

    HKDF and AES-GCM with associated data are the class [BackupCrypto].  A record
    used as a map ([segment], [cursor], [backedUp]) is an association list. *)
From S2P Require Import Prelude JsString JsMap Utf8 TextDecoder Json Verification Anchors Wire HttpTransport HttpCalls.
From S2P Require Import MlsRows MlsTypes MlsCertificates MlsSession MlsSeal MlsHistory.

#[local] Notation mls := (eff session mls_error).

Class BackupCrypto := {
  hkdf_bits : bytes → bytes → bytes → nat → bytes;             (* key material, salt, info, length in bytes *)
  gcm_seal : bytes → bytes → bytes → bytes → bytes;            (* key, nonce, associated data, plaintext *)
  gcm_open : bytes → bytes → bytes → bytes → option bytes;
}.
Class BackupCryptoLaws `{BackupCrypto} : Prop := {
  gcm_open_seal k n a p : gcm_open k n a (gcm_seal k n a p) = Some p;
  gcm_seal_length k n a p : length (gcm_seal k n a p) = (length p + 16)%nat;
  hkdf_wf i s x n : wf_bytes (hkdf_bits i s x n);
}.

Definition BACKUP_PRF_LABEL : jsstr := js "mysocial/messaging-backup-prf/v1".
Definition HKDF_SALT : jsstr := js "mysocial/messaging-backup/v1".
Definition BACKUP_MAGIC : bytes := utf8_encode (js "MBK1").
Definition BACKUP_SEGMENT_PLAINTEXT_BYTES : nat := Z.to_nat (512 * 1024).

Record MessageBackupKey := { keyId : jsstr; keyHex : jsstr }.

Section segments.
Context `{JsonNumbers} `{JsText} `{HexCodec} `{Sha256} `{BackupCrypto}.

(** ** Keys and segments *)

Definition backupPrfSalt : bytes := sha256 (utf8_encode BACKUP_PRF_LABEL).

Definition deriveBackupKey (prf : bytes) (wallet : jsstr) : option MessageBackupKey :=
  if negb (length prf =? 32)%nat then None else
  let w := toLowerCase (trim wallet) in
  let derive info n := hkdf_bits prf (utf8_encode HKDF_SALT) (utf8_encode info) n in
  Some {| keyHex := toHex (derive (js "key:" ++ w) 32%nat); keyId := toHex (derive (js "id:" ++ w) 16%nat) |}.

Definition backup_aad (wallet keyId : jsstr) : bytes := utf8_encode (js "myso-backup-v1:" ++ toLowerCase (trim wallet) ++ js ":" ++ keyId).

(** [aesKey]: importing a key that is not hexadecimal, or not of an AES size, throws. *)
Definition aes_key_size (k : bytes) : bool := bool_decide (length k ∈ [16; 24; 32]%nat).
Definition aesKey (key : MessageBackupKey) : option bytes := k ← fromHex (keyHex key); if aes_key_size k then Some k else None.

(** [None] is the throw. *)
Definition sealBackupSegment (nonce : bytes) (key : MessageBackupKey) (wallet : jsstr) (payload : bytes) : option bytes :=
  k ← aesKey key;
  Some (BACKUP_MAGIC ++ nonce ++ gcm_seal k nonce (backup_aad wallet (keyId key)) (0 :: payload)).

Definition openBackupSegment (key : MessageBackupKey) (wallet : jsstr) (segment : bytes) : option bytes :=
  if (length segment <? length BACKUP_MAGIC + 12 + 17)%nat || negb (bool_decide (take (length BACKUP_MAGIC) segment = BACKUP_MAGIC)) then None else
  k ← aesKey key;
  plain ← gcm_open k (take 12 (drop 4 segment)) (backup_aad wallet (keyId key)) (drop 16 segment);
  match plain with 0 :: payload => Some payload | _ => None end.

(** [JSON.stringify(key)] and back. *)
Definition backup_key_json (k : MessageBackupKey) : json := JObj [(js "keyHex", JStr (keyHex k)); (js "keyId", JStr (keyId k))].
Definition backup_key_of (v : json) : option MessageBackupKey :=
  i ← field as_str v "keyId"; h ← field as_str v "keyHex";
  if is_nil i || is_nil h then None else Some {| keyId := i; keyHex := h |}.

(** ** Cursors: the highest order of each group that is backed up *)

Definition cursors : Type := list (jsstr * number).

Definition cursors_json (c : cursors) : json := JObj ((λ e, (e.1, JNum e.2)) <$> c).
Definition cursors_of (v : json) : cursors :=
  match v with
  | JObj l => omap (λ e, match e.2 with JNum n => Some (e.1, n) | _ => None end) (foldl (λ m kv, map_set kv.1 kv.2 m) [] l)
  | _ => []
  end.

Definition cursor_at (g : jsstr) (c : cursors) : number := default (Int 0) (map_get g c).
End segments.

(** What the relayer offers for backups; [None] when it has no such call. *)
Record backup_env := {
  bk_put : option (nat → jsstr → bytes → bool);
  bk_list : option (nat → jsstr → number → option (list (number * bytes)));
  bk_delete : option (nat → jsstr → bool);
  bk_nonce : nat → bytes;
}.

(** A segment being filled. *)
Record filling := { fl_segment : list (jsstr * list rv); fl_size : nat; fl_total : nat; fl_cursor : cursors }.

Section backup.
Context `{JsonNumbers} `{JsText} `{HexCodec} `{Sha256} `{BackupCrypto} `{MlsEngine} (env : mls_env) (benv : backup_env) (fuel : nat).

Definition BACKUP_KEY : jsstr := js "backup-key".
Definition cursor_key (k : MessageBackupKey) : jsstr := js "backup-cursor:" ++ keyId k.

Definition backupKey : mls (option MessageBackupKey) :=
  raw ← with_store (getMeta BACKUP_KEY);
  mret (match raw with None | Some [] => None | Some x => json_parse x ≫= backup_key_of end).

Definition load_cursors (k : MessageBackupKey) : mls cursors :=
  raw ← with_store (getMeta (cursor_key k));
  mret (match json_parse (default (js "{}") raw) with Some v => cursors_of v | None => [] end).

Definition save_cursors (k : MessageBackupKey) (c : cursors) : mls unit :=
  update_store (setMeta (cursor_key k) (Some (stringify (cursors_json c)))).

(** ** Backing up *)

Definition raise_cursor (c : cursors) (e : jsstr * list rv) : cursors :=
  map_set e.1 (foldl num_max (cursor_at e.1 c) (row_order <$> e.2)) c.

Definition flush (put : nat → jsstr → bytes → bool) (key : MessageBackupKey) (f : filling) : mls filling :=
  if is_nil (fl_segment f) then mret f else
  s ← get_state;
  body ← or_throw BadData (sealBackupSegment (bk_nonce benv (ms_ticks s)) key (en_wallet env) (encodeRowsJson (bundle_of (fl_segment f))));
  await;;
  modify (add_sent (PutBackupSegment (keyId key) body));;
  ok ← ask (λ t, put t (keyId key) body);
  if negb ok then throw RelayerError else
  let cursor := foldl raise_cursor (fl_cursor f) (fl_segment f) in
  save_cursors key cursor;;
  mret {| fl_segment := []; fl_size := 0; fl_total := fl_total f; fl_cursor := cursor |}.

Definition add_row (g : jsstr) (row : rv) (f : filling) : filling :=
  {| fl_segment := map_set g (default [] (map_get g (fl_segment f)) ++ [row]) (fl_segment f);
     fl_size := fl_size f + length (encodeRowsJson row); fl_total := S (fl_total f); fl_cursor := fl_cursor f |}.

Fixpoint backup_rows (put : nat → jsstr → bytes → bool) (key : MessageBackupKey) (g : jsstr) (rows : list rv) (f : filling) : mls filling :=
  match rows with
  | [] => mret f
  | row :: rows' =>
      let rowSize := length (encodeRowsJson row) in
      f ← (if (BACKUP_SEGMENT_PLAINTEXT_BYTES <? fl_size f + rowSize)%nat && (0 <? fl_size f)%nat then flush put key f else mret f);
      backup_rows put key g rows' (add_row g row f)
  end.

(** The rows of a group past its cursor. *)
Definition unsaved (after : number) (rows : list rv) : list rv := filter (λ r, num_lt after (row_order r) = true) rows.

Fixpoint backup_groups (put : nat → jsstr → bytes → bool) (key : MessageBackupKey) (ids : list jsstr) (f : filling) : mls filling :=
  match ids with
  | [] => mret f
  | g :: ids' =>
      if startsWith (js "self:") g then backup_groups put key ids' f else
      rows ← with_store (listRows g None (Z.to_nat 1000000));
      f ← backup_rows put key g (unsaved (cursor_at g (fl_cursor f)) rows) f;
      backup_groups put key ids' f
  end.

Definition backup_with (key : MessageBackupKey) : mls nat :=
  match bk_put benv with
  | None => mret 0%nat
  | Some put =>
      cursor ← load_cursors key;
      ids ← with_store groupIds;
      f ← backup_groups put key ids {| fl_segment := []; fl_size := 0; fl_total := 0; fl_cursor := cursor |};
      f ← flush put key f;
      mret (fl_total f)
  end.

(** ** Restoring *)

(** The rows [for (const r of rows)] goes through; [None] is the throw. *)
Definition iterated (v : rv) : option (list rv) :=
  match v with RArr l => Some l | RStr l => Some ((λ x, RStr [x]) <$> l) | RBytes l => Some ((λ x, RNum (Int x)) <$> l) | _ => None end.

(** [r.order] as [Math.max] takes it, of a number or what is no number; [None] is the throw. *)
Definition order_read (r : rv) : option number :=
  match r with
  | RNull => None
  | _ => match rv_get r "order" with
         | Some (RNum n) => Some n | Some RNull => Some (Int 0) | Some (RBool b) => Some (Int (Z.b2z b)) | Some (RBig _) => None
         | _ => Some NaN end
  end.

(** The highest order of each group in a segment that was read, up to the first
    throw; whether there was none. *)
Fixpoint note_rows (g : jsstr) (rows : list rv) (c : cursors) : cursors * bool :=
  match rows with
  | [] => (c, true)
  | r :: rows' =>
      match order_read r with
      | Some n => note_rows g rows' (map_set g (num_max (cursor_at g c) n) c)
      | None => (c, false)
      end
  end.

Fixpoint note_groups (l : list (jsstr * rv)) (c : cursors) : cursors :=
  match l with
  | [] => c
  | e :: l' =>
      match iterated e.2 with
      | Some rows => let noted := note_rows (toLowerCase e.1) rows c in if noted.2 then note_groups l' noted.1 else noted.1
      | None => c
      end
  end.

Definition note_bundle (payload : bytes) (c : cursors) : cursors :=
  match decodeRowsJson payload with
  | Some b => match rv_get b "groups" with Some groups => note_groups (entries groups) c | None => c end
  | None => c
  end.

Fixpoint restore_items (key : MessageBackupKey) (items : list (number * bytes)) (after : number) (imported : nat) (c : cursors) :
    mls (number * nat * cursors) :=
  match items with
  | [] => mret (after, imported, c)
  | item :: items' =>
      let after := num_max after item.1 in
      await;;
      match openBackupSegment key (en_wallet env) item.2 with
      | None => restore_items key items' after imported c
      | Some payload =>
          n ← importBundle payload true None;
          restore_items key items' after (imported + n) (note_bundle payload c)
      end
  end.

Fixpoint restore_loop (n : nat) (key : MessageBackupKey) (list_segments : nat → jsstr → number → option (list (number * bytes)))
    (after : number) (imported : nat) (c : cursors) : mls (nat * cursors) :=
  match n with
  | O => throw OutOfFuel
  | S n' =>
      page ← (r ← ask (λ t, list_segments t (keyId key) after); or_throw RelayerError r);
      r ← restore_items key page after imported c;
      let '(after, imported, c) := r in
      if (length page <? 20)%nat then mret (imported, c) else restore_loop n' key list_segments after imported c
  end.

Definition restore_with (key : MessageBackupKey) : mls nat :=
  match bk_list benv with
  | None => mret 0%nat
  | Some list_segments =>
      r ← restore_loop fuel key list_segments (Int 0) 0 [];
      cursor ← load_cursors key;
      save_cursors key (foldl (λ c e, map_set e.1 (num_max (cursor_at e.1 c) e.2) c) cursor r.2);;
      mret r.1
  end.

(** ** The public calls *)

Definition enableBackup (prf : bytes) : mls (nat * nat * jsstr) :=
  if match bk_put benv with None => true | Some _ => false end then throw RelayerError else
  await;;
  key ← or_throw BadData (deriveBackupKey prf (en_wallet env));
  update_store (setMeta BACKUP_KEY (Some (stringify (backup_key_json key))));;
  restored ← restore_with key;
  backedUp ← backup_with key;
  mret (restored, backedUp, keyId key).

Definition backupNow : mls nat := key ← backupKey; match key with Some k => backup_with k | None => mret 0%nat end.
Definition restoreBackup : mls nat := key ← backupKey; match key with Some k => restore_with k | None => mret 0%nat end.

Definition disableBackup (deleteRemote : bool) : mls unit :=
  key ← backupKey;
  match key with
  | Some k =>
      (match bk_delete benv with
       | Some delete =>
           if deleteRemote then
             modify (add_sent (DeleteBackup (keyId k)));;
             ok ← ask (λ t, delete t (keyId k));
             if (ok : bool) then mret tt else throw RelayerError
           else mret tt
       | None => mret tt
       end);;
      update_store (setMeta (cursor_key k) None)
  | None => mret tt
  end;;
  update_store (setMeta BACKUP_KEY None).
End backup.

(** * A backup restores *)

Section segment_laws.
Context `{JsonNumbersLaws} `{JsText} `{HexCodec} `{Sha256} `{BackupCryptoLaws}.

Lemma open_seal nonce key wallet payload body : length nonce = 12%nat →
  sealBackupSegment nonce key wallet payload = Some body → openBackupSegment key wallet body = Some payload.
Proof.
  intros Hn. unfold sealBackupSegment, openBackupSegment. destruct (aesKey key) as [k|] eqn:Ek; [|done].
  set (a := backup_aad wallet (keyId key)). set (c := gcm_seal k nonce a (0 :: payload)). intros E.
  assert (body = BACKUP_MAGIC ++ nonce ++ c) as -> by (symmetry; by apply (inj Some)). clear E.
  assert (length c = S (length payload) + 16)%nat as Hc by apply gcm_seal_length.
  assert (length BACKUP_MAGIC = 4%nat) as Hm by (vm_compute; reflexivity).
  rewrite !length_app, Hm, Hn, Hc, (proj2 (Nat.ltb_ge _ _)) by lia. rewrite (take_app_length' BACKUP_MAGIC) by done.
  rewrite bool_decide_true by done. cbn [orb negb mbind option_bind].
  rewrite (drop_app_length' BACKUP_MAGIC) by done. rewrite take_app_length' by done.
  rewrite (assoc_L (++) BACKUP_MAGIC), (drop_app_length' (BACKUP_MAGIC ++ nonce)) by (by rewrite length_app, Hm, Hn). unfold c. by rewrite gcm_open_seal.
Qed.
End segment_laws.

Section uploads.
Context `{JsonNumbersLaws} `{JsText} `{HexCodec} `{Sha256} `{BackupCryptoLaws} `{MlsEngine}.
Context (env : mls_env) (benv : backup_env) (key : MessageBackupKey) (k : bytes).
Context (put : nat → jsstr → bytes → bool) (Hput : ∀ t i b, put t i b = true) (Hkey : aesKey key = Some k)
  (Hnonce : ∀ t, length (bk_nonce benv t) = 12%nat).

Definition seg_rows (g : jsstr) (seg : list (jsstr * list rv)) : list rv := default [] (map_get g seg).

(** [body] is the segment [seg], sealed. *)
Definition sealed (body : bytes) (seg : list (jsstr * list rv)) : Prop :=
  ∃ nonce, length nonce = 12%nat ∧ sealBackupSegment nonce key (en_wallet env) (encodeRowsJson (bundle_of seg)) = Some body.

Definition seg_ok (seg : list (jsstr * list rv)) : Prop := map_ok seg ∧ Forall (λ e, e.2 ≠ []) seg.

(** Where a run of the upload is: the segments sent and the one being filled hold
    the rows [added], in order. *)
Record uploading (s0 : session) (added : jsstr → list rv) (segs : list (list (jsstr * list rv))) (f : filling) (s : session) : Prop := {
  up_rows : st_rows (ms_store s) = st_rows (ms_store s0);
  up_sent : ∃ bodies, ms_sent s = ms_sent s0 ++ (PutBackupSegment (keyId key) <$> bodies) ∧ Forall2 sealed bodies segs;
  up_ok : Forall seg_ok segs ∧ seg_ok (fl_segment f);
  up_added g : concat (seg_rows g <$> segs) ++ seg_rows g (fl_segment f) = added g;
  up_total : fl_total f = (sum_list (rows_count <$> segs) + rows_count (fl_segment f))%nat;
  up_cursor g : added g = [] → cursor_at g (fl_cursor f) = Int 0;
}.

Lemma raise_others l : ∀ c g, g ∉ l.*1 → cursor_at g (foldl raise_cursor c l) = cursor_at g c.
Proof.
  induction l as [|[g' rows] l IH]; intros c g Hg; [done|]. rewrite fmap_cons, not_elem_of_cons in Hg. destruct Hg as [Hne Hg].
  simpl. rewrite IH by done. unfold raise_cursor, cursor_at. cbn [fst]. by rewrite map_get_set_ne.
Qed.

Lemma flush_spec s0 added segs f s : uploading s0 added segs f s →
  ∃ f' s' segs', flush env benv put key f s = (Ok f', s') ∧ uploading s0 added segs' f' s' ∧ fl_segment f' = [].
Proof.
  intros [Hr (bodies & Hs & Hb) [Hok Hf] Ha Ht Hc]. unfold flush. destruct (is_nil (fl_segment f)) eqn:En.
  { exists f, s, segs. split; [done|]. destruct (fl_segment f) eqn:E; [|done]. split; [|done]. split; rewrite ?E; eauto. }
  rewrite (bind_ok _ _ s s s) by done.
  destruct (sealBackupSegment (bk_nonce benv (ms_ticks s)) key (en_wallet env) (encodeRowsJson (bundle_of (fl_segment f)))) as [body|] eqn:Ebody.
  2: { unfold sealBackupSegment in Ebody. by rewrite Hkey in Ebody. }
  rewrite (bind_ok _ _ s body s) by done. set (s1 := set_certs (tick (ms_certs s)) s). rewrite (bind_ok _ _ s tt s1) by done.
  set (s2 := add_sent (PutBackupSegment (keyId key) body) s1). rewrite (bind_ok _ _ s1 tt s2) by done.
  set (s3 := set_certs (tick (ms_certs s2)) s2). rewrite (bind_ok _ _ s2 true s3) by (unfold ask; run_eff; by rewrite Hput).
  cbn [negb]. set (c := foldl raise_cursor (fl_cursor f) (fl_segment f)). cbv zeta.
  unfold save_cursors, update_store. eexists _, _, (segs ++ [fl_segment f]). split; [reflexivity|]. split; [|done]. split; cbn [fl_segment fl_total fl_cursor].
  - done.
  - exists (bodies ++ [body]). split; [simpl; rewrite Hs, fmap_app, (assoc_L (++)); done|].
    apply Forall2_app; [done|]. apply Forall2_cons. split; [|done]. eexists. by split.
  - split; [|split; [apply NoDup_nil_2|constructor]]. apply Forall_app. split; [done|]. by apply Forall_singleton.
  - intros g. rewrite fmap_app, concat_app. simpl. rewrite !app_nil_r. apply Ha.
  - rewrite Ht, fmap_app, sum_list_with_app. cbn [fmap list_fmap sum_list_with]. change (rows_count []) with 0%nat. unfold id. lia.
  - intros g Hg. unfold c. rewrite raise_others; [by apply Hc|]. intros Hin. rewrite <-Ha in Hg. apply app_nil in Hg as [_ Hg].
    apply list_elem_of_fmap in Hin as ([g' rows] & -> & Hin). destruct Hf as [Hmap Hne]. rewrite Forall_forall in Hne.
    unfold seg_rows in Hg. cbn [fst] in Hg. apply (Hne _ Hin). simpl.
    apply elem_of_map_get in Hin; [|done]. by rewrite Hin in Hg.
Qed.

Lemma seg_rows_add g row f g' :
  seg_rows g' (fl_segment (add_row g row f)) = seg_rows g' (fl_segment f) ++ (if decide (g' = g) then [row] else []).
Proof. unfold seg_rows, add_row. cbn [fl_segment]. rewrite map_get_set. case_decide as E; [by subst|by rewrite app_nil_r]. Qed.

Lemma rows_count_cons g rows seg : rows_count ((g, rows) :: seg) = (length rows + rows_count seg)%nat.
Proof. done. Qed.

Lemma count_add g row (seg : list (jsstr * list rv)) : rows_count (map_set g (default [] (map_get g seg) ++ [row]) seg) = S (rows_count seg).
Proof.
  induction seg as [|[g' rows] seg IH]; [done|]. cbn [map_set map_get]. destruct (decide _) as [E|E]; rewrite !rows_count_cons.
  - cbn [default]. rewrite length_app. simpl. lia.
  - rewrite IH. lia.
Qed.

Lemma add_row_spec s0 added segs f s g row : uploading s0 added segs f s →
  uploading s0 (λ g', added g' ++ if decide (g' = g) then [row] else []) segs (add_row g row f) s.
Proof.
  intros [Hr Hs [Hok [Hm Hf]] Ha Ht Hc]. split; try done.
  - split; [done|]. split; [by apply map_set_ok|]. cbn [fl_segment add_row]. apply Forall_forall. intros [g' rows] Hin.
    apply elem_of_map_get in Hin; [|by apply map_set_ok]. rewrite map_get_set in Hin. cbn [snd]. case_decide.
    + injection Hin as <-. by destruct (default _ _).
    + apply elem_of_map_get in Hin; [|done]. rewrite Forall_forall in Hf. exact (Hf _ Hin).
  - intros g'. by rewrite seg_rows_add, (assoc_L (++)), Ha.
  - cbn [fl_total add_row fl_segment]. rewrite count_add, Ht. lia.
  - intros g' [Hg' _]%app_nil. by apply Hc.
Qed.

Lemma uploading_ext s0 a a' segs f s : uploading s0 a segs f s → (∀ g, a' g = a g) → uploading s0 a' segs f s.
Proof. intros [] E. split; auto; intros g; rewrite E; auto. Qed.

Lemma backup_rows_spec s0 g rows : ∀ added segs f s, uploading s0 added segs f s →
  ∃ f' s' segs', backup_rows env benv put key g rows f s = (Ok f', s')
    ∧ uploading s0 (λ g', added g' ++ if decide (g' = g) then rows else []) segs' f' s'.
Proof.
  induction rows as [|row rows IH]; intros added segs f s Hup.
  - exists f, s, segs. split; [done|]. eapply uploading_ext; [exact Hup|]. intros g'. case_decide; by rewrite app_nil_r.
  - cbn [backup_rows]. cbv zeta. assert (∃ f1 s1 segs1, (if (BACKUP_SEGMENT_PLAINTEXT_BYTES <? fl_size f + length (encodeRowsJson row))%nat && (0 <? fl_size f)%nat
      then flush env benv put key f else mret f) s = (Ok f1, s1) ∧ uploading s0 added segs1 f1 s1) as (f1 & s1 & segs1 & E1 & Hup1).
    { case_match; [|by exists f, s, segs]. destruct (flush_spec _ _ _ _ _ Hup) as (f1 & s1 & segs1 & E & Hf & _). eauto. }
    rewrite (bind_ok _ _ _ _ _ E1). destruct (IH _ _ _ _ (add_row_spec _ _ _ _ _ g row Hup1)) as (f2 & s2 & segs2 & E2 & Hup2).
    exists f2, s2, segs2. split; [exact E2|]. eapply uploading_ext; [exact Hup2|]. intros g'. simpl. case_decide; [|by rewrite !app_nil_r].
    by rewrite <-(assoc_L (++)).
Qed.

(** What the backup of [st] holds of group [g] when nothing was backed up before. *)
Definition to_back_up (g : jsstr) (st : MlsStateStore) : list rv := unsaved (Int 0) (listRows g None (Z.to_nat 1000000) st).

Lemma backup_groups_spec s0 ids : ∀ added segs f s, uploading s0 added segs f s → NoDup ids → (∀ g, g ∈ ids → added g = []) →
  ∃ f' s' segs', backup_groups env benv put key ids f s = (Ok f', s')
    ∧ uploading s0 (λ g, added g ++ if decide (g ∈ ids ∧ startsWith (js "self:") g = false) then to_back_up g (ms_store s0) else []) segs' f' s'.
Proof.
  induction ids as [|g ids IH]; intros added segs f s Hup Hdup Hnone.
  - exists f, s, segs. split; [done|]. eapply uploading_ext; [exact Hup|]. intros g'. rewrite decide_False, app_nil_r; [done|]. intros [Hin _]. by apply elem_of_nil in Hin.
  - apply NoDup_cons in Hdup as [Hg Hdup]. cbn [backup_groups]. destruct (startsWith (js "self:") g) eqn:Eself.
    + destruct (IH added segs f s Hup Hdup) as (f' & s' & segs' & E & Hup'); [intros g' Hg'; apply Hnone; by right|].
      exists f', s', segs'. split; [exact E|]. eapply uploading_ext; [exact Hup'|]. intros g'. cbv beta. f_equal. apply decide_ext. rewrite elem_of_cons. split; [|tauto].
      intros [[->|?] ?]; [congruence|tauto].
    + set (s1 := set_certs (tick (ms_certs s)) s).
      assert (listRows g None (Z.to_nat 1000000) (ms_store s) = listRows g None (Z.to_nat 1000000) (ms_store s0)) as El.
      { unfold listRows, group_rows. by rewrite (up_rows _ _ _ _ _ Hup). }
      rewrite (bind_ok _ _ s (listRows g None (Z.to_nat 1000000) (ms_store s0)) s1) by (by rewrite <-El).
      rewrite (up_cursor _ _ _ _ _ Hup g) by (apply Hnone; left). fold (to_back_up g (ms_store s0)).
      assert (uploading s0 added segs f s1) as Hup1 by (by destruct Hup; split).
      destruct (backup_rows_spec s0 g (to_back_up g (ms_store s0)) _ _ _ _ Hup1) as (f2 & s2 & segs2 & E2 & Hup2).
      rewrite (bind_ok _ _ _ _ _ E2). destruct (IH _ _ _ _ Hup2 Hdup) as (f3 & s3 & segs3 & E3 & Hup3).
      { intros g' Hg'. rewrite Hnone by (by right). by rewrite decide_False by (intros ->; done). }
      exists f3, s3, segs3. split; [exact E3|]. eapply uploading_ext; [exact Hup3|]. intros g'. simpl. rewrite <-(assoc_L (++)). f_equal.
      destruct (decide (g' = g)) as [->|Hne].
      * rewrite decide_True by (split; [by left|done]). rewrite decide_False by tauto. by rewrite app_nil_r.
      * simpl. apply decide_ext. rewrite elem_of_cons. tauto.
Qed.

Lemma empty_cursors s : getMeta (cursor_key key) (ms_store s) = None →
  load_cursors key s = (Ok [], set_certs (tick (ms_certs s)) s).
Proof.
  intros Hm. unfold load_cursors. rewrite (bind_ok _ _ s None (set_certs (tick (ms_certs s)) s)) by (by rewrite <-Hm).
  cbn [default]. assert (json_parse (js "{}") = Some (JObj [])) as -> by (vm_compute; reflexivity). done.
Qed.

Lemma no_rows_to_back_up g st : g ∉ groupIds st → to_back_up g st = [].
Proof. intros Hg. unfold to_back_up, listRows, group_rows. by rewrite map_get_absent. Qed.

(** A first backup uploads every row of every group, in the order of the log. *)
Lemma backup_uploads s : bk_put benv = Some put → getMeta (cursor_key key) (ms_store s) = None → map_ok (st_rows (ms_store s)) →
  ∃ s' bodies segs, backup_with env benv key s = (Ok (sum_list (rows_count <$> segs)), s')
    ∧ ms_sent s' = ms_sent s ++ (PutBackupSegment (keyId key) <$> bodies) ∧ Forall2 sealed bodies segs ∧ Forall seg_ok segs
    ∧ ∀ g, concat (seg_rows g <$> segs) = if startsWith (js "self:") g then [] else to_back_up g (ms_store s).
Proof.
  intros Hbk Hm Hok. unfold backup_with. rewrite Hbk, (bind_ok _ _ _ _ _ (empty_cursors s Hm)). set (s1 := set_certs (tick (ms_certs s)) s).
  set (s2 := set_certs (tick (ms_certs s1)) s1). rewrite (bind_ok _ _ s1 (groupIds (ms_store s)) s2) by done.
  destruct (backup_groups_spec s (groupIds (ms_store s)) (λ _, []) [] {| fl_segment := []; fl_size := 0; fl_total := 0; fl_cursor := [] |} s2)
    as (f3 & s3 & segs3 & E3 & Hup3); [|done|done|].
  { split; try done; [exists []; split; [symmetry; apply app_nil_r|constructor]|split; [done|split; [apply NoDup_nil_2|constructor]]]. }
  rewrite (bind_ok _ _ _ _ _ E3). destruct (flush_spec _ _ _ _ _ Hup3) as (f4 & s4 & segs & E4 & Hup4 & Hnil). rewrite (bind_ok _ _ _ _ _ E4).
  destruct Hup4 as [_ (bodies & Hs & Hb) [Hsegs _] Ha Ht _]. rewrite Hnil in Ht, Ha. exists s4, bodies, segs. split_and!; try done.
  - rewrite Ht. change (rows_count []) with 0%nat. by rewrite Nat.add_0_r.
  - intros g. specialize (Ha g). change (seg_rows g []) with ([] : list rv) in Ha. rewrite app_nil_r, app_nil_l in Ha. rewrite Ha. destruct (startsWith _ g) eqn:Eself.
    + by case_decide as Hin; [destruct Hin|].
    + case_decide as Hin; [done|]. symmetry. apply no_rows_to_back_up. tauto.
Qed.
End uploads.

Section downloads.
Context `{JsonNumbersLaws} `{JsText} `{HexCodec} `{Sha256} `{BackupCryptoLaws} `{MlsEngine}.
Context (env : mls_env) (benv : backup_env) (key : MessageBackupKey) (wallet_env : mls_env) (Hwallet : en_wallet wallet_env = en_wallet env).

(** What the segments hold of each group, all together. *)
Context (whole : jsstr → list rv).
Context (Hwhole : ∀ g, whole g ≠ [] → group_ok g ∧ Forall (stored_row g) (whole g) ∧ NoDup (row_key <$> whole g)).

Definition restored (got : jsstr → list rv) (s : session) : Prop := ∀ g, group_rows g (ms_store s) = keyed (got g).

Lemma seg_transferable seg got s : seg_ok seg → restored got s → (∀ g, ∃ rest, whole g = got g ++ seg_rows g seg ++ rest) →
  transferable seg (ms_store s).
Proof.
  intros [Hm Hne] Hgot Hparts. split; [done|]. rewrite Forall_forall in Hne |- *. intros [g rows] Hin. specialize (Hne _ Hin). cbn [fst snd] in *.
  destruct (Hparts g) as [rest Hg]. assert (seg_rows g seg = rows) as Eg. { unfold seg_rows. by apply elem_of_map_get in Hin as ->. }
  rewrite Eg in Hg. destruct (Hwhole g) as (Hgok & Hst & Hdup); [rewrite Hg; intros [_ [E _]%app_nil]%app_nil; done|].
  rewrite Hg in Hst, Hdup. apply Forall_app in Hst as [_ [Hst _]%Forall_app]. rewrite !fmap_app, !NoDup_app in Hdup.
  destruct Hdup as (_ & Hdisj & Hdup & _). split_and!; try done.
  intros r Hr. rewrite Hgot. apply map_get_absent. unfold keyed. rewrite <-list_fmap_compose. intros Hk.
  apply (Hdisj (row_key r)); [exact Hk|]. apply elem_of_app. left. apply list_elem_of_fmap. by exists r.
Qed.

Lemma total_cons (seg : list (jsstr * list rv)) segs : sum_list (rows_count <$> seg :: segs) = (rows_count seg + sum_list (rows_count <$> segs))%nat.
Proof. done. Qed.

Lemma restore_items_spec items segs : Forall2 (λ it seg, sealed wallet_env key it.2 seg) items segs → Forall seg_ok segs →
  ∀ after imported c got s, restored got s → (∀ g, ∃ rest, whole g = got g ++ concat (seg_rows g <$> segs) ++ rest) →
  ∃ c' s', restore_items env key items after imported c s
      = (Ok (foldl (λ a it, num_max a it.1) after items, (imported + sum_list (rows_count <$> segs))%nat, c'), s')
    ∧ restored (λ g, got g ++ concat (seg_rows g <$> segs)) s'.
Proof.
  induction 1 as [|[q body] seg items segs (nonce & Hn & Hseal) _ IH]; intros Hok after imported c got s Hgot Hparts.
  - exists c, s. simpl. split; [by rewrite Nat.add_0_r|]. intros g. simpl. by rewrite app_nil_r.
  - apply Forall_cons in Hok as [Hseg Hok]. cbn [restore_items fst snd]. set (s1 := set_certs (tick (ms_certs s)) s).
    rewrite (bind_ok _ _ s tt s1) by done. cbn [snd] in Hseal. rewrite Hwallet in Hseal. rewrite (open_seal _ _ _ _ _ Hn Hseal).
    destruct (import_whole seg s1) as (s2 & E2 & Hs2).
    { apply (seg_transferable seg got); [done|exact Hgot|]. intros g. destruct (Hparts g) as [rest E].
      exists (concat (seg_rows g <$> segs) ++ rest). rewrite E. simpl. by rewrite <-!(assoc_L (++)). }
    rewrite (bind_ok _ _ _ _ _ E2).
    destruct (IH Hok (num_max after q) (imported + rows_count seg)%nat (note_bundle (encodeRowsJson (bundle_of seg)) c)
      (λ g, got g ++ seg_rows g seg) s2) as (c' & s' & E & Hs').
    { intros g. rewrite Hs2. change (ms_store s1) with (ms_store s). rewrite Hgot. unfold keyed, seg_rows. by rewrite fmap_app. }
    { intros g. destruct (Hparts g) as [rest Eg]. exists rest. rewrite Eg. simpl. by rewrite <-!(assoc_L (++)). }
    exists c', s'. rewrite E. split; [by rewrite total_cons, Nat.add_assoc|]. intros g. rewrite (Hs' g). simpl. by rewrite <-(assoc_L (++)).
Qed.

(** ** Every page *)

(** Where a listing of [items] is once [l] was read. *)
Definition read_to (l : list (number * bytes)) : number := default (Int 0) (fst <$> last l).

(** The relayer numbers its segments upwards from 1, and lists the first 20 past a number. *)
Definition lists (id : jsstr) (lister : nat → jsstr → number → option (list (number * bytes))) (items : list (number * bytes)) : Prop :=
  (∀ l1 p l2, items = l1 ++ p :: l2 → num_lt (read_to l1) p.1 = true)
  ∧ ∀ t l1 l2, items = l1 ++ l2 → lister t id (read_to l1) = Some (take 20 l2).

Lemma num_max_lt a b : num_lt a b = true → num_max a b = b.
Proof. intros Hab. unfold num_max. rewrite Hab. by destruct a, b. Qed.

Lemma read_page id lister items : lists id lister items → ∀ page l1 l2, items = l1 ++ page ++ l2 →
  foldl (λ a it, num_max a it.1) (read_to l1) page = read_to (l1 ++ page).
Proof.
  intros [Hinc _] page. induction page as [|p page IH]; intros l1 l2 E; [by rewrite app_nil_r|]. simpl.
  assert (num_max (read_to l1) p.1 = read_to (l1 ++ [p])) as ->.
  { rewrite num_max_lt by exact (Hinc _ _ _ E). unfold read_to. by rewrite last_snoc. }
  rewrite (IH _ l2) by (by rewrite E, <-!(assoc_L (++))). by rewrite <-(assoc_L (++)).
Qed.

Lemma Forall2_take_drop {A B} (P : A → B → Prop) n l k : Forall2 P l k → Forall2 P (take n l) (take n k) ∧ Forall2 P (drop n l) (drop n k).
Proof. intros Hp. split; [by apply Forall2_take|by apply Forall2_drop]. Qed.

Lemma restore_loop_spec lister items : lists (keyId key) lister items →
  ∀ n read rest segs, items = read ++ rest → Forall2 (λ it seg, sealed wallet_env key it.2 seg) rest segs → Forall seg_ok segs →
  (length rest < n)%nat → ∀ imported c got s, restored got s → (∀ g, whole g = got g ++ concat (seg_rows g <$> segs)) →
  ∃ c' s', restore_loop env n key lister (read_to read) imported c s = (Ok ((imported + sum_list (rows_count <$> segs))%nat, c'), s')
    ∧ restored whole s'.
Proof.
  intros Hlist. induction n as [|n IH]; intros read rest segs E Hseal Hok Hn imported c got s Hgot Hparts; [lia|]. cbn [restore_loop].
  set (s1 := set_certs (tick (ms_certs s)) s).
  assert ((r ← ask (λ t, lister t (keyId key) (read_to read)); or_throw RelayerError r) s = (Ok (take 20 rest), s1)) as Eask.
  { unfold ask, or_throw. run_eff. by rewrite (proj2 Hlist _ _ _ E). }
  rewrite (bind_ok _ _ _ _ _ Eask). destruct (Forall2_take_drop _ 20 _ _ Hseal) as [Htake Hdrop].
  rewrite <-(take_drop 20 segs) in Hok, Hparts |- *. apply Forall_app in Hok as [Hok1 Hok2].
  destruct (restore_items_spec _ _ Htake Hok1 (read_to read) imported c got s1 Hgot) as (c1 & s2 & E2 & Hs2).
  { intros g. exists (concat (seg_rows g <$> drop 20 segs)). by rewrite Hparts, fmap_app, concat_app. }
  rewrite (bind_ok _ _ _ _ _ E2). rewrite (read_page _ _ _ Hlist _ _ (drop 20 rest)) by (by rewrite take_drop).
  rewrite fmap_app, sum_list_with_app. change (sum_list_with id (rows_count <$> ?l)) with (sum_list (rows_count <$> l)).
  assert (∀ g, whole g = (got g ++ concat (seg_rows g <$> take 20 segs)) ++ concat (seg_rows g <$> drop 20 segs)) as Hparts'.
  { intros g. by rewrite Hparts, fmap_app, concat_app, (assoc_L (++)). }
  destruct (Nat.ltb_spec (length (take 20 rest)) 20) as [Hlast|Hmore].
  - rewrite length_take in Hlast. assert (drop 20 segs = []) as Enil by (apply drop_ge; apply Forall2_length in Hseal; lia).
    exists c1, s2. rewrite Enil. simpl. rewrite Nat.add_0_r. split; [done|]. intros g. rewrite (Hs2 g), Hparts', Enil. simpl. by rewrite app_nil_r.
  - rewrite length_take in Hmore.
    destruct (λ Er Hl, IH (read ++ take 20 rest) (drop 20 rest) (drop 20 segs) Er Hdrop Hok2 Hl
      (imported + sum_list (rows_count <$> take 20 segs))%nat c1 _ s2 Hs2 Hparts') as (c2 & s3 & E3 & Hs3).
    + by rewrite <-(assoc_L (++)), take_drop.
    + rewrite length_drop. lia.
    + exists c2, s3. rewrite E3. by rewrite Nat.add_assoc.
Qed.
End downloads.

Section end_to_end.
Context `{JsonNumbersLaws} `{JsText} `{HexCodec} `{Sha256} `{BackupCryptoLaws} `{MlsEngine}.

(** The store of a device, as sessions leave it: groups under lower-case ids, rows
    under their keys. *)
Definition store_sound (st : MlsStateStore) : Prop :=
  map_ok (st_rows st) ∧ ∀ g m, map_get g (st_rows st) = Some m → startsWith (js "self:") g = false →
    group_ok g ∧ map_ok m ∧ Forall (λ e, e.1 = row_key e.2 ∧ stored_row g e.2) m.

Lemma row_insert_perm x l : row_insert x l ≡ₚ x :: l.
Proof. induction l as [|y l IH]; [done|]. simpl. case_match; [done|]. rewrite IH. constructor. Qed.

Lemma sort_rows_perm l : sort_rows l ≡ₚ l.
Proof. induction l as [|x l IH]; [done|]. change (sort_rows (x :: l)) with (row_insert x (sort_rows l)). by rewrite row_insert_perm, IH. Qed.

Lemma listRows_all g st : ∃ cut, cut ++ listRows g None (Z.to_nat 1000000) st ≡ₚ (group_rows g st).*2
  ∧ ((length (group_rows g st) ≤ Z.to_nat 1000000)%nat → cut = []).
Proof.
  unfold listRows. cbv zeta. rewrite filter_all by (by apply Forall_forall). set (all := sort_rows _). exists (take (length all - Z.to_nat 1000000) all).
  rewrite take_drop. split; [apply sort_rows_perm|]. intros Hl.
  assert (length all = length (group_rows g st)) as -> by (unfold all; by rewrite sort_rows_perm, length_fmap).
  by replace (length (group_rows g st) - Z.to_nat 1000000)%nat with 0%nat by lia.
Qed.

(** What is backed up, group by group. *)
Definition backup_of (st : MlsStateStore) (g : jsstr) : list rv := if startsWith (js "self:") g then [] else to_back_up g st.

Lemma backup_of_sound st g : store_sound st → backup_of st g ≠ [] →
  group_ok g ∧ Forall (stored_row g) (backup_of st g) ∧ NoDup (row_key <$> backup_of st g).
Proof.
  intros [_ Hst]. unfold backup_of. destruct (startsWith (js "self:") g) eqn:Eself; [done|]. intros Hne.
  destruct (listRows_all g st) as (cut & Hperm & _). unfold group_rows in Hperm. destruct (map_get g (st_rows st)) as [m|] eqn:Em.
  2: { destruct Hne. unfold to_back_up, listRows, group_rows. by rewrite Em. }
  cbn [default] in Hperm. destruct (Hst g m Em Eself) as (Hg & Hm & Hrows).
  assert (Forall (stored_row g) (m.*2) ∧ row_key <$> m.*2 = m.*1) as [Hstored Hkeys].
  { clear -Hrows. induction Hrows as [|[k r] m [Ek Hr] _ [IHa IHb]]; [by split|]. cbn [fmap list_fmap fst snd] in *. split; [by constructor|]. by rewrite Ek, <-IHb. }
  assert (NoDup (row_key <$> m.*2)) as Hdup by (by rewrite Hkeys). rewrite <-Hperm in Hstored, Hdup.
  apply Forall_app in Hstored as [_ Hstored]. rewrite fmap_app in Hdup. apply NoDup_app in Hdup as (_ & _ & Hdup).
  unfold to_back_up, unsaved. split_and!; [done| |].
  - rewrite Forall_forall in *. intros r Hr. apply Hstored. by apply list_elem_of_filter in Hr as [_ ?].
  - eapply sublist_NoDup; [exact Hdup|]. apply fmap_sublist, sublist_filter.
Qed.

(** C36.  A backup restores.  A device backs up for the first time, every upload
    accepted.  Any device of the wallet that holds no rows and is given the same AES key,
    reading the segments from a relayer that lists them truthfully, page by page, then
    holds exactly the backed-up rows, verified marks included, and imports as many as
    were uploaded: all rows of every group with a positive order, up to the newest
    million of a group. *)
Theorem backup_restore env benv key k put s :
  aesKey key = Some k → (∀ t, length (bk_nonce benv t) = 12%nat) → bk_put benv = Some put → (∀ t i b, put t i b = true) →
  store_sound (ms_store s) → getMeta (cursor_key key) (ms_store s) = None →
  ∃ n s1 bodies, backup_with env benv key s = (Ok n, s1) ∧ ms_sent s1 = ms_sent s ++ (PutBackupSegment (keyId key) <$> bodies)
    ∧ ∀ env2 benv2 lister items fuel s2, en_wallet env2 = en_wallet env → bk_list benv2 = Some lister → lists (keyId key) lister items →
        items.*2 = bodies → (length items < fuel)%nat → st_rows (ms_store s2) = [] →
        ∃ s3, restore_with env2 benv2 fuel key s2 = (Ok n, s3)
          ∧ ∀ g, startsWith (js "self:") g = false → group_rows g (ms_store s3) = keyed (to_back_up g (ms_store s))
            ∧ ((length (group_rows g (ms_store s)) ≤ Z.to_nat 1000000)%nat →
                ∀ r, r ∈ to_back_up g (ms_store s) ↔ (r ∈ (group_rows g (ms_store s)).*2) ∧ num_lt (Int 0) (row_order r) = true).
Proof.
  intros Hkey Hnonce Hbk Hput Hst Hmeta.
  destruct (backup_uploads env benv key k put Hput Hkey Hnonce s Hbk Hmeta (proj1 Hst)) as (s1 & bodies & segs & E & Hsent & Hseal & Hok & Hparts).
  eexists _, s1, bodies. split; [exact E|]. split; [exact Hsent|]. clear E Hsent Hbk Hput Hnonce Hkey Hmeta.
  intros env2 benv2 lister items fuel s2 Hwallet Hls Hlist <- Hfuel Hempty. apply (Forall2_fmap_l snd) in Hseal. unfold restore_with. rewrite Hls.
  destruct (restore_loop_spec env2 key env (eq_sym Hwallet) (backup_of (ms_store s)) (λ g, backup_of_sound (ms_store s) g Hst)
    lister items Hlist fuel [] items segs eq_refl Hseal Hok Hfuel 0%nat [] (λ _, []) s2) as (c & s4 & E4 & Hs4).
  { intros g. unfold group_rows. by rewrite Hempty. }
  { intros g. by rewrite Hparts. }
  change (read_to []) with (Int 0) in E4. rewrite (bind_ok _ _ _ _ _ E4).
  eexists. split; [reflexivity|]. intros g Eself. split.
  - change (group_rows g (ms_store s4) = keyed (to_back_up g (ms_store s))). rewrite (Hs4 g). unfold backup_of. by rewrite Eself.
  - intros Hl r. destruct (listRows_all g (ms_store s)) as (cut & Hperm & Hcut). rewrite (Hcut Hl) in Hperm. simpl in Hperm.
    unfold to_back_up, unsaved. rewrite list_elem_of_filter, Hperm. tauto.
Qed.
End end_to_end.

(** * A toy backup *)

#[local] Existing Instances integer_numbers integer_numbers_laws ascii_text ascii_text_laws plain_hex toy_engine.
#[local] Instance plain_sha : Sha256 := {| sha256 b := b |}.

#[local] Instance toy_backup_crypto : BackupCrypto := {|
  hkdf_bits _ _ _ n := replicate n 7; gcm_seal _ _ _ p := p ++ replicate 16 0; gcm_open _ _ _ c := Some (take (length c - 16) c) |}.

#[local] Instance toy_backup_crypto_laws : BackupCryptoLaws.
Proof.
  split.
  - intros k n a p. cbn [gcm_open gcm_seal toy_backup_crypto]. f_equal. rewrite length_app, length_replicate. replace (length p + 16 - 16)%nat with (length p) by lia. apply take_app_length.
  - intros k n a p. cbn [gcm_seal toy_backup_crypto]. by rewrite length_app, length_replicate.
  - intros i s x n. apply Forall_replicate. done.
Qed.

Definition toy_backup_key : MessageBackupKey := {| keyId := js "01"; keyHex := js "07070707070707070707070707070707" |}.

(** The relayer keeps [segments], numbered from 1. *)
Definition toy_benv (segments : list bytes) : backup_env := {|
  bk_put := Some (λ _ _ _, true);
  bk_list := Some (λ _ _ after, Some (filter (λ it, num_lt after it.1 = true) (imap (λ i b, (Int (Z.of_nat (S i)), b)) segments)));
  bk_delete := None; bk_nonce _ := replicate 12 9 |}.

Definition holding (rows : list rv) : session :=
  Session [0] [] [] 0 [] [] [] (set_store (putRows (js "0xg") rows new_store) (new_certs 0)) [].

#[local] Notation toy_env := (toy_mls_env false).
#[local] Notation sent_bodies s := (omap (λ q, match q with PutBackupSegment _ b => Some b | _ => None end) (ms_sent s)).

Lemma toy_store_sound : store_sound (ms_store (holding [toy_stored])).
Proof.
  split; [apply NoDup_singleton|]. intros g m Hg Eself.
  change (map_get g [(js "0xg", [(row_key toy_stored, toy_stored)])] = Some m) in Hg. cbn [map_get] in Hg.
  case_decide as E; [|done]. subst g. injection Hg as <-.
  split; [split_and!; [reflexivity|exact Eself|apply wf_js|vm_compute; discriminate..]|]. split; [apply NoDup_singleton|].
  apply Forall_singleton. split; [done|]. apply toy_stored_row.
Qed.

Lemma toy_lists body : lists (keyId toy_backup_key) (default (λ _ _ _, None) (bk_list (toy_benv [body]))) [(Int 1, body)].
Proof.
  split.
  - intros [|q [|q' l1]] p l2 E; [by injection E as <- <-|done|done].
  - intros t [|q [|q' l1]] l2 E; simpl in E.
    + by subst l2.
    + injection E as <- <-. reflexivity.
    + done.
Qed.

Lemma backup_restore_witness : ∃ n s1 body s3, backup_with toy_env (toy_benv []) toy_backup_key (holding [toy_stored]) = (Ok n, s1)
  ∧ sent_bodies s1 = [body] ∧ restore_with toy_env (toy_benv [body]) 2 toy_backup_key toy_session = (Ok n, s3)
  ∧ group_rows (js "0xg") (ms_store s3) = [(row_key toy_stored, toy_stored)].
Proof.
  destruct (backup_restore toy_env (toy_benv []) toy_backup_key (replicate 16 7) (λ _ _ _, true) (holding [toy_stored]))
    as (n & s1 & bodies & E & Hsent & Hrestore).
  - vm_compute. reflexivity.
  - reflexivity.
  - reflexivity.
  - reflexivity.
  - apply toy_store_sound.
  - vm_compute. reflexivity.
  - assert (∃ body, bodies = [body]) as [body ->].
    { assert (length (ms_sent (backup_with toy_env (toy_benv []) toy_backup_key (holding [toy_stored])).2) = 1%nat) as Hl by (vm_compute; reflexivity).
      rewrite E in Hl. cbn [snd] in Hl. rewrite Hsent, length_app, length_fmap in Hl. by destruct bodies as [|b [|b' l]]; [|exists b|]. }
    destruct (Hrestore toy_env (toy_benv [body]) _ [(Int 1, body)] 2%nat toy_session eq_refl eq_refl (toy_lists body) eq_refl)
      as (s3 & E3 & Hs3); [simpl; lia|reflexivity|].
    exists n, s1, body, s3. split; [exact E|]. split; [rewrite Hsent; reflexivity|]. split; [exact E3|].
    rewrite (proj1 (Hs3 (js "0xg") eq_refl)). vm_compute. reflexivity.
Defined.

Definition older_row : rv :=
  RObj [(js "messageId", RStr (js "m0")); (js "order", RNum (Int 1)); (js "groupId", RStr (js "0xg"));
        (js "encryptedText", RBytes [1; 2]); (js "senderVerified", RBool true)].
Definition newer_row : rv :=
  RObj [(js "messageId", RStr (js "m5")); (js "order", RNum (Int 5)); (js "groupId", RStr (js "0xg"));
        (js "encryptedText", RBytes [1; 2]); (js "senderVerified", RBool true)].

#[local] Notation toy_backup := (backup_with toy_env (toy_benv []) toy_backup_key).

(** Older history is never backed up.  There is a run in which a device backs
    up its only row, imports an older row of the same group from another member, and
    backs up again: the second backup uploads nothing, and a device restoring what
    was uploaded does not get the older row. *)
Lemma late_history_not_backed_up : ∃ s1 s2 s3 body s4,
  toy_backup (holding [newer_row]) = (Ok 1%nat, s1)
  ∧ importBundle (encodeRowsJson (bundle_of [(js "0xg", [older_row])])) false (Some (js "0xg")) s1 = (Ok 1%nat, s2)
  ∧ toy_backup s2 = (Ok 0%nat, s3) ∧ ms_sent s3 = [PutBackupSegment (keyId toy_backup_key) body]
  ∧ restore_with toy_env (toy_benv [body]) 2 toy_backup_key toy_session = (Ok 1%nat, s4)
  ∧ is_Some (held (ms_store s3) (js "0xg") (row_key older_row)) ∧ held (ms_store s4) (js "0xg") (row_key older_row) = None.
Proof.
  set (s1 := (toy_backup (holding [newer_row])).2).
  set (s2 := (importBundle (encodeRowsJson (bundle_of [(js "0xg", [older_row])])) false (Some (js "0xg")) s1).2).
  set (s3 := (toy_backup s2).2). set (body := default [] (head (sent_bodies s3))).
  set (s4 := (restore_with toy_env (toy_benv [body]) 2 toy_backup_key toy_session).2). exists s1, s2, s3, body, s4.
  split_and!; try (vm_compute; reflexivity). vm_compute. by eexists.
Qed.
