(* ===== verification/HostedStore.v ===== *)
(** The MLS state of hosted devices ([mls/hosted-store.ts]): one snapshot that
    holds what the store of a session holds, its bytes, and the sealed blob they
    become on the server; and that the store implements the store the sessions
    are proved against ([MlsTypes.MlsStateStore]), up to the bound on rows.
    [HostedLease] models the lease the blob is kept under.

    The objects used as maps ([cursors], [rows], [meta]) are association lists
    in the order of insertion; names that objects inherit or that are array
    indices do not occur as group ids or meta keys. *)
From S2P Require Import Prelude JsString JsMap Utf8 TextDecoder Json Verification Anchors Wire HttpTransport HttpCalls.
From S2P Require Import MlsRows MlsTypes MlsCertificates MlsSession MlsSeal MlsHistory MlsBackup.

Inductive hosted_error :=
  | LeaseLost                   (* HostedMlsLeaseLostError *)
  | Busy                        (* HostedMlsBusyError *)
  | UnknownState                (* 'unknown hosted MLS state format' *)
  | UnknownBlob                 (* 'hosted MLS state: unknown format' *)
  | DecryptFailed
  | NotDeterministic
  | SignFailed
  | BackendFailed               (* a call of the backend rejects *)
  | OperationFailed (e : jsstr). (* thrown by the operation run under the lease *)

#[global] Instance hosted_error_eq_dec : EqDecision hosted_error.
Proof. solve_decision. Defined.

Record Snapshot := {
  device : option (bytes * jsstr);             (* snapshot, deviceId *)
  sn_cursors : list (jsstr * number);
  sn_rows : list (jsstr * list rv);
  sn_meta : list (jsstr * jsstr);
}.

Definition new_snapshot : Snapshot := {| device := None; sn_cursors := []; sn_rows := []; sn_meta := [] |}.

(** [l.slice(start)] *)
Definition slice_from {A} (start : Z) (l : list A) : list A :=
  drop (if start <? 0 then length l - Z.to_nat (- start) else Z.to_nat start) l.

(** * The class [SnapshotMlsStateStore]

    A method is its effect on [#s]; [HostedLease] adds the call of [onWrite]. *)
Module SnapshotMlsStateStore.
Section methods.
Context `{JsonNumbers} (maxRowsPerGroup : Z).

Definition loadDevice (s : Snapshot) : option (bytes * jsstr) := device s.

Definition saveDevice (state : bytes * jsstr) (s : Snapshot) : Snapshot :=
  {| device := Some state; sn_cursors := sn_cursors s; sn_rows := sn_rows s; sn_meta := sn_meta s |}.

Definition getCursor (groupId : jsstr) (s : Snapshot) : number := default (Int 0) (map_get groupId (sn_cursors s)).

Definition setCursor (groupId : jsstr) (order : number) (s : Snapshot) : Snapshot :=
  {| device := device s; sn_cursors := map_set groupId order (sn_cursors s); sn_rows := sn_rows s; sn_meta := sn_meta s |}.

Definition group_rows (groupId : jsstr) (s : Snapshot) : list rv := default [] (map_get groupId (sn_rows s)).

Definition keyed_rows (rows : list rv) : list (jsstr * rv) := put_rows rows [].

Definition kept_rows (old rows : list rv) : list rv :=
  slice_from (- maxRowsPerGroup) (sort_rows (put_rows rows (keyed_rows old)).*2).

Definition putRows (groupId : jsstr) (rows : list rv) (s : Snapshot) : Snapshot :=
  {| device := device s; sn_cursors := sn_cursors s;
     sn_rows := map_set groupId (kept_rows (group_rows groupId s) rows) (sn_rows s); sn_meta := sn_meta s |}.

Definition listRows (groupId : jsstr) (before : option number) (limit : nat) (s : Snapshot) : list rv :=
  let all := filter (λ r, match before with None => true | Some b => num_lt (row_order r) b end = true) (group_rows groupId s) in
  drop (length all - limit) all.

Definition hasRows (groupId : jsstr) (rows : list rv) (s : Snapshot) : list jsstr :=
  filter (λ k, k ∈ row_key <$> group_rows groupId s) (row_key <$> rows).

Definition groupIds (s : Snapshot) : list jsstr := (sn_rows s).*1.

Definition getMeta (key : jsstr) (s : Snapshot) : option jsstr := map_get key (sn_meta s).

Definition setMeta (key : jsstr) (value : option jsstr) (s : Snapshot) : Snapshot :=
  {| device := device s; sn_cursors := sn_cursors s; sn_rows := sn_rows s;
     sn_meta := match value with Some v => map_set key v (sn_meta s) | None => map_delete key (sn_meta s) end |}.

Definition clear (_ : Snapshot) : Snapshot := new_snapshot.
End methods.

Section codec.
Context `{JsonNumbers}.

(** [#s] as the object it is. *)
Definition snapshot_rv (s : Snapshot) : rv :=
  RObj [(js "v", RNum (Int 1));
        (js "device", match device s with
                      | Some (b, d) => RObj [(js "snapshot", RBytes b); (js "deviceId", RStr d)]
                      | None => RNull
                      end);
        (js "cursors", RObj ((λ e, (e.1, RNum e.2)) <$> sn_cursors s));
        (js "rows", RObj ((λ e, (e.1, RArr e.2)) <$> sn_rows s));
        (js "meta", RObj ((λ e, (e.1, RStr e.2)) <$> sn_meta s))].

Definition toBytes (s : Snapshot) : bytes := encodeRowsJson (snapshot_rv s).

(** The members of an object, each read by [f]; [None] is [undefined] or [null]. *)
Definition members {A} (f : rv → option A) (v : option rv) : option (list (jsstr * A)) :=
  match v with
  | None | Some RNull => Some []
  | Some (RObj l) => mapM (λ e, x ← f e.2; Some (e.1, x)) l
  | _ => None
  end.

Definition device_of (v : option rv) : option (option (bytes * jsstr)) :=
  match v with
  | None | Some RNull => Some None
  | Some d => match rv_get d "snapshot", rv_get d "deviceId" with
              | Some (RBytes b), Some (RStr i) => Some (Some (b, i))
              | _, _ => None
              end
  end.

(** The members are cast, not checked; a state of other types than [toBytes]
    writes (nobody else has the sealing key) is left out here. *)
Definition snapshot_of (v : rv) : option Snapshot :=
  match rv_get v "v" with
  | Some (RNum (Int 1)) =>
      d ← device_of (rv_get v "device");
      c ← members (λ x, match x with RNum n => Some n | _ => None end) (rv_get v "cursors");
      r ← members (λ x, match x with RArr l => Some l | _ => None end) (rv_get v "rows");
      m ← members (λ x, match x with RStr t => Some t | _ => None end) (rv_get v "meta");
      Some {| device := d; sn_cursors := c; sn_rows := r; sn_meta := m |}
  | _ => None
  end.

Definition fromBytes (b : bytes) : outcome hosted_error Snapshot :=
  match decodeRowsJson b ≫= snapshot_of with Some s => Ok s | None => Throw UnknownState end.
End codec.
End SnapshotMlsStateStore.
Import SnapshotMlsStateStore.

(** * The sealed blob *)

Definition MAGIC : bytes := utf8_encode (js "MHS1").

Section sealing.
Context `{BackupCrypto}.

Definition seal (nonce key aad plain : bytes) : bytes := MAGIC ++ nonce ++ gcm_seal key nonce aad plain.

(** [open]; a keyword in Rocq. *)
Definition open_blob (key aad blob : bytes) : outcome hosted_error bytes :=
  if (length blob <? 16 + 16)%nat || negb (bool_decide (take (length MAGIC) blob = MAGIC)) then Throw UnknownBlob else
  match gcm_open key (take 12 (drop 4 blob)) aad (drop 16 blob) with Some p => Ok p | None => Throw DecryptFailed end.

Context `{JsText}.

Definition seal_message (owner deviceId : jsstr) : bytes :=
  utf8_encode (js "myso-mls-state-seal-v1:" ++ toLowerCase owner ++ js ":" ++ deviceId).

(** [sign n] is the answer of the [n]-th call of the signer; [None] rejects. *)
Definition deriveHostedSealKey (sign : nat → bytes → option bytes) (owner deviceId : jsstr) : outcome hosted_error bytes :=
  let message := seal_message owner deviceId in
  match sign 0%nat message with
  | None => Throw SignFailed
  | Some a =>
      match sign 1%nat message with
      | None => Throw SignFailed
      | Some b =>
          if negb (length a =? length b)%nat || negb (bool_decide (a = b)) then Throw NotDeterministic
          else Ok (hkdf_bits a (utf8_encode (js "myso-mls-hosted-state")) message 32)
      end
  end.

Definition state_aad (owner deviceId : jsstr) : bytes :=
  utf8_encode (js "myso-mls-hosted-state-v1:" ++ toLowerCase owner ++ js ":" ++ deviceId).

Definition hostedDeviceId (prefix owner : jsstr) : jsstr :=
  let o := toLowerCase owner in
  prefix ++ js "-" ++ padStart 64 48 (if startsWith (js "0x") o then drop 2 o else o).
End sealing.

(** * The bytes of a state are read back *)

Section roundtrip.
Context `{JsonNumbersLaws}.

Definition name_ok (k : jsstr) : Prop := wf_str k ∧ k ≠ js "$b" ∧ k ≠ js "$n".

Definition entries_ok {A} (P : A → Prop) (l : list (jsstr * A)) : Prop := map_ok l ∧ Forall (λ e, name_ok e.1 ∧ P e.2) l.

(** What the codec carries: no name or value that it cannot print. *)
Record snapshot_ok (s : Snapshot) : Prop := {
  ok_device : ∀ b d, device s = Some (b, d) → wf_bytes b ∧ wf_str d;
  ok_cursors : entries_ok (λ n, num_stable n = true) (sn_cursors s);
  ok_rows : entries_ok (Forall rv_ok) (sn_rows s);
  ok_meta : entries_ok wf_str (sn_meta s);
}.

Lemma map_set_Forall {A} (P : jsstr * A → Prop) k x (l : list (jsstr * A)) : P (k, x) → Forall P l → Forall P (map_set k x l).
Proof. intros Hx. induction 1 as [|[k' y] l Hy Hl IH]; simpl; [by repeat constructor|]. case_decide; subst; by constructor. Qed.

Lemma map_delete_Forall {A} (P : jsstr * A → Prop) k (l : list (jsstr * A)) : Forall P l → Forall P (map_delete k l).
Proof. induction 1 as [|[k' y] l Hy Hl IH]; simpl; [constructor|]. case_decide; [done|]. by constructor. Qed.

Lemma entries_set {A} (P : A → Prop) k x l : name_ok k → P x → entries_ok P l → entries_ok P (map_set k x l).
Proof. intros Hk Hx [Hl Hf]. split; [by apply map_set_ok|by apply map_set_Forall]. Qed.

Lemma entries_delete {A} (P : A → Prop) k l : entries_ok P l → entries_ok P (map_delete k l).
Proof. intros [Hl Hf]. split; [by apply map_delete_ok|by apply map_delete_Forall]. Qed.

Lemma entries_rv {A} (P : A → Prop) (g : A → rv) l : (∀ x, P x → rv_ok (g x)) → entries_ok P l →
  rv_ok (RObj ((λ e, (e.1, g e.2)) <$> l)).
Proof.
  intros Hg [Hl Hf]. apply rv_ok_obj. unfold map_ok in *. rewrite <-list_fmap_compose. rewrite Forall_forall in Hf. split_and!; [exact Hl| | |].
  - intros (e & E & He)%list_elem_of_fmap. by destruct (Hf e He) as [(_ & Hb & _) _].
  - intros (e & E & He)%list_elem_of_fmap. by destruct (Hf e He) as [(_ & _ & Hn) _].
  - apply Forall_fmap, Forall_forall. intros e He. destruct (Hf e He) as [(Hw & _) Hp]. split; [exact Hw|by apply Hg].
Qed.

Lemma members_map {A} (f : rv → option A) (g : A → rv) l : (∀ x, f (g x) = Some x) →
  members f (Some (RObj ((λ e, (e.1, g e.2)) <$> l))) = Some l.
Proof.
  intros Hfg. simpl. induction l as [|[k x] l IH]; [done|]. cbn [fmap list_fmap mapM fst snd]. rewrite Hfg. cbn. cbn in IH. by rewrite IH.
Qed.

Lemma snapshot_rv_ok s : snapshot_ok s → rv_ok (snapshot_rv s).
Proof.
  intros [Hd Hc Hr Hm]. apply rv_ok_obj. split_and!.
  - by apply (bool_decide_unpack _).
  - by apply (bool_decide_unpack _).
  - by apply (bool_decide_unpack _).
  - repeat apply Forall_cons_2; [split; [apply wf_js|]..|apply Forall_nil_2].
    + by apply num_stable_int.
    + destruct (device s) as [[b d]|]; [|done]. destruct (Hd b d eq_refl) as [Hb Hs]. apply rv_ok_obj.
      split_and!; [by apply (bool_decide_unpack _)..|]. repeat apply Forall_cons_2; [split; [apply wf_js|done]..|apply Forall_nil_2].
    + by apply (entries_rv _ RNum _ (λ x Hx, Hx)).
    + apply (entries_rv _ RArr _ (λ x Hx, proj2 (rv_ok_arr x) Hx)). done.
    + by apply (entries_rv _ RStr _ (λ x Hx, Hx)).
Qed.

Lemma snapshot_of_rv s : snapshot_of (snapshot_rv s) = Some s.
Proof.
  assert (rv_get (snapshot_rv s) "v" = Some (RNum (Int 1))) as Ev by done.
  assert (device_of (rv_get (snapshot_rv s) "device") = Some (device s)) as Ed by (by destruct s as [[[b d]|] c r m]).
  unfold snapshot_of. rewrite Ev, Ed. cbv iota. cbn [mbind option_bind].
  change (rv_get (snapshot_rv s) "cursors") with (Some (RObj ((λ e, (e.1, RNum e.2)) <$> sn_cursors s))). rewrite (members_map _ RNum) by done.
  change (rv_get (snapshot_rv s) "rows") with (Some (RObj ((λ e, (e.1, RArr e.2)) <$> sn_rows s))). rewrite (members_map _ RArr) by done.
  change (rv_get (snapshot_rv s) "meta") with (Some (RObj ((λ e, (e.1, RStr e.2)) <$> sn_meta s))). rewrite (members_map _ RStr) by done.
  by destruct s.
Qed.

Lemma fromBytes_toBytes s : snapshot_ok s → fromBytes (toBytes s) = Ok s.
Proof.
  intros Hs. unfold fromBytes, toBytes. rewrite rows_roundtrip by (by apply snapshot_rv_ok). cbn [mbind option_bind]. by rewrite snapshot_of_rv.
Qed.

Context `{BackupCryptoLaws}.

Lemma open_sealed nonce key aad plain : length nonce = 12%nat → open_blob key aad (seal nonce key aad plain) = Ok plain.
Proof.
  intros Hn. unfold open_blob, seal. set (c := gcm_seal key nonce aad plain).
  assert (length c = length plain + 16)%nat as Hc by apply gcm_seal_length.
  assert (length MAGIC = 4%nat) as Hm by (vm_compute; reflexivity).
  rewrite !length_app, Hm, Hn, Hc, (proj2 (Nat.ltb_ge _ _)) by lia. rewrite (take_app_length' MAGIC) by done.
  rewrite bool_decide_true by done. cbn [orb negb].
  rewrite (drop_app_length' MAGIC) by done. rewrite take_app_length' by done.
  rewrite (assoc_L (++) MAGIC), (drop_app_length' (MAGIC ++ nonce)) by (by rewrite length_app, Hm, Hn). unfold c. by rewrite gcm_open_seal.
Qed.

End roundtrip.

Section state_ok.
Context `{JsonNumbers}.

(** A mutation keeps a state that the codec carries, given values it carries. *)
Lemma saveDevice_ok b d s : wf_bytes b → wf_str d → snapshot_ok s → snapshot_ok (saveDevice (b, d) s).
Proof. intros Hb Hd []. split; simpl; [by intros ? ? [= <- <-]|done..]. Qed.

Lemma setCursor_ok g o s : name_ok g → num_stable o = true → snapshot_ok s → snapshot_ok (setCursor g o s).
Proof. intros Hg Ho []. split; simpl; [done|by apply entries_set|done..]. Qed.

Lemma setMeta_ok k v s : name_ok k → (∀ x, v = Some x → wf_str x) → snapshot_ok s → snapshot_ok (setMeta k v s).
Proof. intros Hk Hv []. split; simpl; [done..|]. destruct v as [x|]; [apply entries_set; auto|by apply entries_delete]. Qed.

Lemma put_rows_incl rows : ∀ m r, r ∈ (put_rows rows m).*2 → r ∈ rows ∨ r ∈ m.*2.
Proof.
  unfold put_rows. induction rows as [|x rows IH] using rev_ind; intros m r; [by right|]. rewrite foldl_app. simpl.
  set (m' := foldl _ m rows). intros Hr. assert (r = x ∨ r ∈ m'.*2) as [->|Hm].
  { clearbody m'. clear IH. induction m' as [|[k y] m' IHm]; simpl in *; [set_solver|]. case_decide; simpl in *; set_solver. }
  - left. set_solver.
  - destruct (IH m r Hm); [left; set_solver|by right].
Qed.

Lemma kept_rows_incl max old rows r : r ∈ kept_rows max old rows → r ∈ rows ∨ r ∈ old.
Proof.
  unfold kept_rows, slice_from. intros Hr%(subseteq_drop _ _ r). rewrite sort_rows_perm in Hr.
  apply put_rows_incl in Hr as [Hr|Hr]; [by left|]. unfold keyed_rows in Hr. apply put_rows_incl in Hr as [Hr|Hr]; [by right|]. set_solver.
Qed.

Lemma putRows_ok max g rows s : name_ok g → Forall rv_ok rows → snapshot_ok s → snapshot_ok (putRows max g rows s).
Proof.
  intros Hg Hr [Hd Hc Hrows Hm]. split; simpl; [done..| |done]. apply entries_set; [done| |done]. apply Forall_forall.
  intros r [Hin|Hin]%kept_rows_incl; [by eapply Forall_forall in Hr|]. unfold group_rows in Hin.
  destruct (map_get g (sn_rows s)) as [l|] eqn:El; [|set_solver]. destruct Hrows as [Hok Hf].
  apply (elem_of_map_get g l) in El; [|done]. rewrite Forall_forall in Hf. destruct (Hf _ El) as [_ Hl]. simpl in *. by eapply Forall_forall in Hl.
Qed.

Lemma new_snapshot_ok : snapshot_ok new_snapshot.
Proof. split; simpl; [done|by split; constructor..]. Qed.
End state_ok.

(** * The snapshot implements the store of the sessions *)

Inductive mutation :=
  | SaveDevice (d : bytes * jsstr)
  | SetCursor (groupId : jsstr) (order : number)
  | PutRows (groupId : jsstr) (rows : list rv)
  | SetMeta (key : jsstr) (value : option jsstr)
  | Clear.

Section mutations.
Context `{JsonNumbers}.

Definition mutate (maxRows : Z) (m : mutation) (s : Snapshot) : Snapshot :=
  match m with
  | SaveDevice d => saveDevice d s
  | SetCursor g o => setCursor g o s
  | PutRows g rows => putRows maxRows g rows s
  | SetMeta k v => setMeta k v s
  | Clear => clear s
  end.

(** The same call on the reference store. *)
Definition reference (m : mutation) (st : MlsStateStore) : MlsStateStore :=
  match m with
  | SaveDevice d => MlsTypes.saveDevice d st
  | SetCursor g o => MlsTypes.setCursor g o st
  | PutRows g rows => MlsTypes.putRows g rows st
  | SetMeta k v => MlsTypes.setMeta k v st
  | Clear => MlsTypes.clear st
  end.

(** What the relayer promises of a group's rows: an order is one message's. *)
Definition consistent (R : rv → Prop) : Prop :=
  (∀ r, R r → ∃ z, row_order r = Int z ∧ Z.abs z < 10 ^ 21)
  ∧ ∀ r r', R r → R r' → row_order r = row_order r' → row_key r = row_key r'.

Definition rows_put (g : jsstr) (ms : list mutation) (r : rv) : Prop :=
  ∃ rows, PutRows g rows ∈ ms ∧ r ∈ rows.
End mutations.

Definition ord (r : rv) : Z := match row_order r with Int z => z | _ => 0 end.

(** Rows in the order of the log, one of each order. *)
Definition in_order : list rv → Prop := StronglySorted (λ x y, ord x < ord y).

Fixpoint upsert (r : rv) (l : list rv) : list rv :=
  match l with
  | [] => [r]
  | y :: l' => if ord r <? ord y then r :: l else if ord r =? ord y then r :: l' else y :: upsert r l'
  end.

Lemma upsert_elem r l x : in_order l → x ∈ upsert r l ↔ x = r ∨ (x ∈ l ∧ ord x ≠ ord r).
Proof.
  induction 1 as [|y l Hl IH Hy]; simpl; [set_solver|]. rewrite Forall_forall in Hy.
  assert (x ∈ l → ord y < ord x) as Hlt by (intros Hx; by apply Hy).
  repeat case_match; bool_to_Z; rewrite !elem_of_cons, ?IH; clear IH Hy; split; naive_solver lia.
Qed.

Lemma upsert_order r l : in_order l → in_order (upsert r l).
Proof.
  intros Hl. induction Hl as [|y l Hl IH Hy]; simpl; [repeat constructor|].
  repeat case_match; bool_to_Z.
  - constructor; [by constructor|]. constructor; [done|]. eapply Forall_impl; [exact Hy|]. simpl. lia.
  - constructor; [done|]. eapply Forall_impl; [exact Hy|]. simpl. lia.
  - constructor; [exact IH|]. apply Forall_forall. intros x Hx. apply upsert_elem in Hx as [->|[Hx _]]; [lia| |done]. by eapply Forall_forall in Hy.
Qed.

Lemma in_order_unique l1 l2 : in_order l1 → in_order l2 → (∀ x, x ∈ l1 ↔ x ∈ l2) → l1 = l2.
Proof.
  intros H1. revert l2. induction H1 as [|x l1 Hl1 IH Hx]; intros l2 H2 He.
  { destruct l2 as [|y l2]; [done|]. assert (y ∈ []) as Hn by (apply He; left). set_solver. }
  destruct H2 as [|y l2 Hl2 Hy].
  { assert (x ∈ []) as Hn by (apply He; left). set_solver. }
  rewrite Forall_forall in Hx, Hy. assert (x = y) as ->.
  { assert (x ∈ y :: l2) as Hin by (rewrite <-He; left). assert (y ∈ x :: l1) as Hin' by (rewrite He; left).
    apply elem_of_cons in Hin as [->|Hin]; [done|]. apply elem_of_cons in Hin' as [->|Hin']; [done|].
    apply Hx in Hin'. apply Hy in Hin. simpl in *. lia. }
  f_equal. apply IH; [done|]. intros z. split; intros Hz.
  - assert (z ∈ y :: l2) as Hin by (rewrite <-He; by right). apply elem_of_cons in Hin as [->|]; [|done]. apply Hx in Hz. simpl in *. lia.
  - assert (z ∈ y :: l1) as Hin by (rewrite He; by right). apply elem_of_cons in Hin as [->|]; [|done]. apply Hy in Hz. simpl in *. lia.
Qed.

(** [slice(-n)], the newest [n]. *)
Lemma slice_newest {A} (n : nat) (l : list A) : (0 < n)%nat → slice_from (- Z.of_nat n) l = drop (length l - n) l.
Proof. intros Hn. unfold slice_from. rewrite (proj2 (Z.ltb_lt _ _)) by lia. by replace (Z.to_nat (- - Z.of_nat n)) with n by lia. Qed.

Lemma slice_all {A} (l : list A) : slice_from (- 0) l = l.
Proof. done. Qed.

Lemma upsert_below r B c C : in_order (B ++ c :: C) → ord r < ord c → upsert r (B ++ c :: C) = upsert r B ++ c :: C.
Proof.
  intros Hs Hr. induction B as [|b B IH]; simpl; [by rewrite (proj2 (Z.ltb_lt _ _) Hr)|].
  inversion Hs as [|? ? Hs' Hb]; subst. repeat case_match; simpl; try done. by rewrite IH.
Qed.

Lemma upsert_above r B c C : in_order (B ++ c :: C) → ord c ≤ ord r → upsert r (B ++ c :: C) = B ++ upsert r (c :: C).
Proof.
  intros Hs Hr. induction B as [|b B IH]; [done|]. inversion Hs as [|? ? Hs' Hb]; subst. rewrite Forall_forall in Hb.
  assert (ord b < ord c) by (apply Hb; set_solver). change ((b :: B) ++ c :: C) with (b :: (B ++ c :: C)). cbn [upsert].
  rewrite (proj2 (Z.ltb_ge _ _)), (proj2 (Z.eqb_neq _ _)) by lia. rewrite IH by done. done.
Qed.

Lemma upsert_length r l : (length l ≤ length (upsert r l))%nat.
Proof. induction l as [|y l IH]; simpl; [lia|]. repeat case_match; simpl; lia. Qed.

(** Ageing out before or after an insertion is the same. *)
Lemma newest_upsert (n : nat) r l : in_order l →
  slice_from (- Z.of_nat n) (upsert r l) = slice_from (- Z.of_nat n) (upsert r (slice_from (- Z.of_nat n) l)).
Proof.
  intros Hl. destruct n as [|n']; [by rewrite !slice_all|]. set (n := S n'). rewrite !(slice_newest n) by (unfold n; lia).
  destruct (decide (length l ≤ n)%nat) as [Hle|Hgt].
  { by replace (length l - n)%nat with 0%nat by lia. }
  set (k := (length l - n)%nat). pose proof (take_drop k l) as E. set (B := take k l) in *.
  assert (length (drop k l) = n) as Hn by (rewrite length_drop; unfold k; lia).
  destruct (drop k l) as [|c C] eqn:Ed; [unfold n in Hn; simpl in Hn; lia|]. rewrite <-E in Hl. rewrite <-E. clearbody B. clear E Ed k Hgt.
  destruct (Z.lt_ge_cases (ord r) (ord c)) as [Hr|Hr].
  - rewrite upsert_below by done. cbn [upsert]. rewrite (proj2 (Z.ltb_lt _ _) Hr). rewrite drop_app_length' by (rewrite length_app; lia).
    replace (length (r :: c :: C) - n)%nat with 1%nat by (simpl in *; lia). done.
  - rewrite upsert_above by done. pose proof (upsert_length r (c :: C)). rewrite length_app, drop_app_ge by lia. f_equal. lia.
Qed.

Lemma newest_order (n : nat) l : in_order l → in_order (slice_from (- Z.of_nat n) l).
Proof.
  intros Hl. assert (∀ k, in_order (drop k l)) as Hd; [|apply Hd].
  induction Hl as [|y l Hl IH Hy]; intros [|k]; simpl; try (by constructor). apply IH.
Qed.

Lemma newest_upserts (n : nat) rows : ∀ l l', in_order l → in_order l' → slice_from (- Z.of_nat n) l = slice_from (- Z.of_nat n) l' →
  slice_from (- Z.of_nat n) (foldl (flip upsert) l rows) = slice_from (- Z.of_nat n) (foldl (flip upsert) l' rows).
Proof.
  induction rows as [|r rows IH]; intros l l' Hl Hl' E; [done|]. simpl. apply IH; [by apply upsert_order..|].
  unfold flip. by rewrite newest_upsert, E, <-newest_upsert by done.
Qed.

Lemma newest_idemp {A} (n : nat) (l : list A) : slice_from (- Z.of_nat n) (slice_from (- Z.of_nat n) l) = slice_from (- Z.of_nat n) l.
Proof.
  destruct n as [|n']; [done|]. set (n := S n'). rewrite !(slice_newest n) by (unfold n; lia). rewrite length_drop.
  replace (length l - (length l - n) - n)%nat with 0%nat by lia. done.
Qed.

Section refinement.
Context `{JsonNumbersLaws} (R : rv → Prop) (HR : consistent R).

Lemma order_text_key a b s t : (58 ∉ a) → (58 ∉ b) → a ++ 58 :: s = b ++ 58 :: t → a = b.
Proof.
  intros Ha Hb E. assert (length a = length b) as Hl.
  { apply (inj Some). by rewrite <-(indexOf_app 58 a s), <-(indexOf_app 58 b t), E. }
  by apply app_inj_1 in E as [? _].
Qed.

Lemma dec_Z_no_colon z : 58 ∉ dec_Z z.
Proof.
  assert (∀ n, 0 ≤ n → 58 ∉ dec n) as Hd.
  { intros n Hn Hin. pose proof (dec_Forall_digit n Hn) as Hf. rewrite Forall_forall in Hf. apply Hf in Hin. lia. }
  unfold dec_Z. case_match; bool_to_Z; [|by apply Hd]. intros [E|Hin]%elem_of_cons; [done|]. apply Hd in Hin; [done|lia].
Qed.

Lemma row_key_order r r' : R r → R r' → row_key r = row_key r' → row_order r = row_order r'.
Proof.
  destruct HR as [Hint _]. intros (z & Ez & Hz)%Hint (z' & Ez' & Hz')%Hint. unfold row_key. rewrite Ez, Ez'. cbn [num_text].
  rewrite !num_print_int by done. intros E. change (js ":") with [58] in E. cbn [app] in E. f_equal. apply dec_Z_inj.
  eapply order_text_key; [apply dec_Z_no_colon..|exact E].
Qed.

Lemma ord_key r r' : R r → R r' → ord r = ord r' ↔ row_key r = row_key r'.
Proof.
  intros Hr Hr'. destruct HR as [Hint Hfun]. unfold ord. split.
  - intros E. apply Hfun; [done..|]. destruct (Hint _ Hr) as (z & Ez & _), (Hint _ Hr') as (z' & Ez' & _). rewrite Ez, Ez' in *. congruence.
  - intros E. by rewrite (row_key_order r r').
Qed.

Lemma sort_rows_ord l : Forall R l → sort_rows l = sort_by ord l.
Proof.
  assert (∀ x l, R x → Forall R l → row_insert x l = sort_insert ord x l) as Hins.
  { intros x l0 Hx. induction 1 as [|y l0 Hy Hl IH]; [done|]. simpl. rewrite IH. unfold ord.
    destruct (proj1 HR _ Hx) as (z & -> & _), (proj1 HR _ Hy) as (z' & -> & _). done. }
  induction 1 as [|x l Hx Hl IH]; [done|]. change (sort_rows (x :: l)) with (row_insert x (sort_rows l)).
  rewrite IH, Hins; [done|done|]. by rewrite sort_by_perm.
Qed.

(** Rows of a group under their keys. *)
Definition well (m : list (jsstr * rv)) : Prop := map_ok m ∧ Forall (λ e, e.1 = row_key e.2 ∧ R e.2) m.

Lemma well_elem m r : well m → r ∈ m.*2 ↔ map_get (row_key r) m = Some r.
Proof.
  intros [Hm Hf]. rewrite Forall_forall in Hf. rewrite <-elem_of_map_get by done. split.
  - intros ([k x] & -> & Hin)%list_elem_of_fmap. simpl. by destruct (Hf _ Hin) as [E _]; simpl in E; subst.
  - intros Hin. apply list_elem_of_fmap. by exists (row_key r, r).
Qed.

Lemma well_R m r : well m → r ∈ m.*2 → R r.
Proof. intros [_ Hf] (e & -> & Hin)%list_elem_of_fmap. rewrite Forall_forall in Hf. by destruct (Hf _ Hin). Qed.

Lemma well_set r m : R r → well m → well (map_set (row_key r) r m).
Proof. intros Hr [Hm Hf]. split; [by apply map_set_ok|]. by apply map_set_Forall. Qed.

Lemma sorted_in_order m : well m → in_order (sort_rows m.*2).
Proof.
  intros Hw. assert (Forall R m.*2) as Hf by (apply Forall_forall; intros r; by apply well_R). rewrite (sort_rows_ord _ Hf).
  assert (NoDup (ord <$> m.*2)) as Hn.
  { destruct Hw as [Hm Hw]. clear Hf. induction m as [|[k r] m IH]; [constructor|]. inversion Hw as [|? ? [Ek Hr] Hw']; inversion Hm as [|? ? Hk Hm']; subst.
    simpl in *. constructor; [|by apply IH]. intros (x & E & Hx)%list_elem_of_fmap. apply list_elem_of_fmap in Hx as ([k' y] & -> & Hin). simpl in *.
    rewrite Forall_forall in Hw'. destruct (Hw' _ Hin) as [Ek' Hy]. simpl in *. apply ord_key in E; [|done..]. apply Hk.
    apply list_elem_of_fmap. exists (k', y). split; [simpl; congruence|done]. }
  pose proof (sort_by_sorted ord m.*2) as Hs. rewrite <-(sort_by_perm ord) in Hn. revert Hn. unfold in_order.
  induction Hs as [|x l Hl IH Hx]; [constructor|]. rewrite fmap_cons. intros [Hni Hnd]%NoDup_cons. constructor; [by apply IH|].
  rewrite Forall_forall in *. intros y Hy. specialize (Hx y Hy). simpl in *. assert (ord x ≠ ord y); [|lia].
  intros E. apply Hni. rewrite E. by apply list_elem_of_fmap_2.
Qed.

Lemma sort_set r m : R r → well m → sort_rows (map_set (row_key r) r m).*2 = upsert r (sort_rows m.*2).
Proof.
  intros Hr Hm. pose proof (well_set r m Hr Hm) as Hm'. pose proof (sorted_in_order m Hm) as Ho.
  apply in_order_unique; [by apply sorted_in_order|by apply upsert_order|]. intros x.
  rewrite upsert_elem, !sort_rows_perm, !well_elem, map_get_set by done. case_decide as Hk.
  - split.
    + intros [= ->]. by left.
    + intros [->|[Hx Hne]]; [done|]. destruct Hne. apply ord_key; [|done..]. eapply well_R; [exact Hm|]. by apply well_elem.
  - split; [|by intros [->|[]]]. intros Hx. right. split; [done|]. intros E. apply Hk. apply ord_key; [|done..].
    eapply well_R; [exact Hm|]. by apply well_elem.
Qed.

Lemma sort_puts rows : ∀ m, Forall R rows → well m →
  well (put_rows rows m) ∧ sort_rows (put_rows rows m).*2 = foldl (flip upsert) (sort_rows m.*2) rows.
Proof.
  unfold put_rows. induction rows as [|r rows IH]; intros m Hr Hm; [done|]. inversion Hr; subst. cbn [foldl].
  destruct (IH (map_set (row_key r) r m)) as [Hw E]; [done|by apply well_set|]. split; [done|]. rewrite E, sort_set by done. done.
Qed.

Lemma keyed_in_order old : Forall R old → in_order old → well (keyed_rows old) ∧ sort_rows (keyed_rows old).*2 = old.
Proof.
  intros Hf Ho. assert (NoDup (row_key <$> old)) as Hn.
  { induction Ho as [|x l Hl IH Hx]; [constructor|]. inversion Hf as [|? ? HRx Hf']; subst. rewrite fmap_cons. constructor; [|by apply IH].
    intros (y & E & Hy)%list_elem_of_fmap. rewrite Forall_forall in Hx, Hf'. apply ord_key in E; [|by auto..]. specialize (Hx _ Hy). simpl in Hx. lia. }
  assert (keyed_rows old = (λ r, (row_key r, r)) <$> old) as E by (unfold keyed_rows; by rewrite put_rows_new).
  assert (well (keyed_rows old)) as Hw.
  { rewrite E. split; [unfold map_ok; by rewrite <-list_fmap_compose|]. apply Forall_fmap. eapply Forall_impl; [exact Hf|done]. }
  split; [done|]. apply in_order_unique; [by apply sorted_in_order|done|]. intros x. rewrite sort_rows_perm, E.
  by replace (((λ r, (row_key r, r)) <$> old).*2) with old by (rewrite <-list_fmap_compose; symmetry; apply list_fmap_id).
Qed.
End refinement.

Section agreement.
Context `{JsonNumbersLaws}.

Lemma consistent_sub (R R' : rv → Prop) : (∀ r, R r → R' r) → consistent R' → consistent R.
Proof. intros Hs [Hi Hf]. split; [auto|]. intros r r' Hr Hr'. by apply Hf; apply Hs. Qed.

Lemma well_sub (R R' : rv → Prop) m : (∀ r, R r → R' r) → well R m → well R' m.
Proof. intros Hs [Hm Hf]. split; [done|]. eapply Forall_impl; [exact Hf|]. intros e []. auto. Qed.

(** A snapshot and the reference store after the same calls. *)
Record agrees (max : nat) (R : jsstr → rv → Prop) (s : Snapshot) (st : MlsStateStore) : Prop := {
  ag_device : device s = st_device st;
  ag_cursors : sn_cursors s = st_cursors st;
  ag_meta : sn_meta s = st_meta st;
  ag_groups : (sn_rows s).*1 = (st_rows st).*1;
  ag_well : ∀ g, well (R g) (MlsTypes.group_rows g st);
  ag_rows : ∀ g, group_rows g s = slice_from (- Z.of_nat max) (sort_rows (MlsTypes.group_rows g st).*2);
}.

Lemma map_set_keys_eq {A B} k (x : A) (y : B) (l : list (jsstr * A)) (l' : list (jsstr * B)) :
  l.*1 = l'.*1 → (map_set k x l).*1 = (map_set k y l').*1.
Proof.
  revert l'. induction l as [|[k1 a] l IH]; intros [|[k2 b] l'] E; simpl in E; try done. injection E as -> E.
  simpl. case_decide; simpl; f_equal; auto.
Qed.

Lemma kept_agrees max (R : rv → Prop) rows old m : consistent R → Forall R rows → well R m →
  old = slice_from (- Z.of_nat max) (sort_rows m.*2) →
  kept_rows (Z.of_nat max) old rows = slice_from (- Z.of_nat max) (sort_rows (put_rows rows m).*2).
Proof.
  intros HR Hr Hm ->. set (L := sort_rows m.*2). pose proof (sorted_in_order R HR m Hm) as HL. fold L in HL.
  pose proof (newest_order max L HL) as HT. set (T := slice_from _ L) in *.
  assert (Forall R T) as HRT.
  { apply Forall_forall. intros r Hin. apply (well_R R m r Hm). rewrite <-(sort_rows_perm m.*2). unfold T, slice_from in Hin. by apply (subseteq_drop _ _ r) in Hin. }
  destruct (keyed_in_order R HR T HRT HT) as [Hw Ek]. unfold kept_rows.
  rewrite (proj2 (sort_puts R HR rows _ Hr Hw)), Ek, (proj2 (sort_puts R HR rows _ Hr Hm)). fold L.
  apply newest_upserts; [done..|]. unfold T. apply newest_idemp.
Qed.

Lemma mutate_agrees max R m s st : (∀ g, consistent (R g)) → (∀ g rows, m = PutRows g rows → Forall (R g) rows) →
  agrees max R s st → agrees max R (mutate (Z.of_nat max) m s) (reference m st).
Proof.
  intros HR Hm [Hd Hc Hmeta Hg Hw Hrows]. destruct m as [d|g o|g rows|k v|]; cbn [mutate reference].
  - by split.
  - split; try done. simpl. by rewrite Hc.
  - specialize (Hm g rows eq_refl). split; try done.
    + simpl. by apply map_set_keys_eq.
    + intros g'. rewrite group_rows_put. case_decide; subst; [|done]. by apply sort_puts.
    + intros g'. rewrite group_rows_put. unfold group_rows. simpl. rewrite map_get_set. case_decide; subst; [|apply Hrows].
      simpl. by eapply kept_agrees.
  - split; try done. simpl. destruct v; by rewrite Hmeta.
  - split; try done; intros g; [by split; [apply map_ok_nil|constructor]|]. simpl. unfold group_rows, slice_from. simpl. by rewrite drop_nil.
Qed.

Lemma newest_length {A} max (l : list A) : (0 < max)%nat → (length (slice_from (- Z.of_nat max) l) ≤ max)%nat.
Proof. intros Hm. rewrite slice_newest by done. rewrite length_drop. lia. Qed.

Lemma last_suffix {A} n (l l' : list A) : l `suffix_of` l' → drop (length l - n) l `suffix_of` drop (length l' - n) l'.
Proof.
  intros [p ->]. rewrite length_app. destruct (decide (n ≤ length l)%nat).
  - rewrite drop_app_ge by lia. exists []. simpl. f_equal. lia.
  - replace (length l - n)%nat with 0%nat by lia. rewrite drop_0. rewrite drop_app_le by lia. by eexists.
Qed.

Lemma slice_suffix {A} start (l : list A) : slice_from start l `suffix_of` l.
Proof. unfold slice_from. eexists (take _ l). by rewrite take_drop. Qed.

Lemma filter_suffix {A} (P : A → Prop) `{∀ x, Decision (P x)} l l' : l `suffix_of` l' → filter P l `suffix_of` filter P l'.
Proof. intros [p ->]. rewrite filter_app. by eexists. Qed.

Lemma sort_rows_filter (R : rv → Prop) (P : rv → Prop) `{∀ x, Decision (P x)} l : consistent R → Forall R l → in_order (sort_rows l) →
  sort_rows (filter P l) = filter P (sort_rows l).
Proof.
  intros HR Hf Ho. assert (Forall R (filter P l)) as Hf'.
  { apply Forall_forall. intros r Hr. apply list_elem_of_filter in Hr as [_ Hr]. by eapply Forall_forall in Hf. }
  assert (in_order (filter P (sort_rows l))) as Hof.
  { revert Ho. generalize (sort_rows l). clear. intros l. induction 1 as [|x l Hl IH Hx]; [constructor|]. rewrite filter_cons. case_decide; [|done].
    constructor; [done|]. apply Forall_forall. intros y Hy. apply list_elem_of_filter in Hy as [_ Hy]. by eapply Forall_forall in Hx. }
  rewrite (sort_rows_ord R HR _ Hf'). apply (sorted_unique ord).
  - apply sort_by_sorted.
  - unfold sorted_by. induction Hof as [|x k Hk IH Hx]; [constructor|]. constructor; [done|]. eapply Forall_impl; [exact Hx|]. simpl. lia.
  - rewrite sort_by_perm. by rewrite (sort_rows_perm l).
  - rewrite sort_by_perm. assert (NoDup (ord <$> filter P (sort_rows l))) as Hn.
    { clear -Hof. induction Hof as [|x k Hk IH Hx]; [constructor|]. rewrite fmap_cons. constructor; [|done].
      intros (y & E & Hy)%list_elem_of_fmap. rewrite Forall_forall in Hx. specialize (Hx _ Hy). simpl in Hx. lia. }
    by rewrite (sort_rows_perm l) in Hn.
Qed.

Lemma listRows_newest (max : nat) R s st g : agrees max R s st → consistent (R g) → ∀ before limit,
  listRows g before limit s `suffix_of` MlsTypes.listRows g before limit st
  ∧ (before = None → (limit ≤ max)%nat → listRows g before limit s = MlsTypes.listRows g before limit st).
Proof.
  intros Ha HR before limit. pose proof (ag_well _ _ _ _ Ha g) as Hw. pose proof (ag_rows _ _ _ _ Ha g) as Er.
  assert (Forall (R g) (MlsTypes.group_rows g st).*2) as Hf by (apply Forall_forall; intros r; by apply well_R).
  pose proof (sorted_in_order _ HR _ Hw) as Ho. unfold listRows, MlsTypes.listRows. cbv zeta. rewrite Er.
  rewrite (sort_rows_filter (R g)) by done. set (all := sort_rows _) in *. split; [apply last_suffix, filter_suffix, slice_suffix|].
  intros -> Hl. rewrite !filter_all by (by apply Forall_forall). destruct max as [|max]; [done|]. rewrite slice_newest by lia. rewrite length_drop, drop_drop. f_equal. lia.
Qed.

Lemma hasRows_held (max : nat) R s st g rows k : agrees max R s st → k ∈ hasRows g rows s → k ∈ MlsTypes.hasRows g rows st.
Proof.
  intros Ha. unfold hasRows, MlsTypes.hasRows. rewrite !list_elem_of_filter. intros [Hk Hin]. split; [|done].
  apply list_elem_of_fmap in Hk as (r & -> & Hr). rewrite (ag_rows _ _ _ _ Ha) in Hr. unfold slice_from in Hr. apply (subseteq_drop _ _ r) in Hr.
  rewrite sort_rows_perm, (well_elem _ _ _ (ag_well _ _ _ _ Ha g)) in Hr. by eexists.
Qed.

(** C37.  The store of a hosted device is the store the sessions are proved against,
    but for rows that aged out.  After any calls, if within a group one order is one
    message, the device, cursors, meta values and group ids are those of the
    reference store; the rows held of a group are its newest, in order and at most
    [max] (unless [max] is 0, which keeps them all); a page read is the end of the
    page the reference returns, the whole of it for the newest rows; and a row is
    only reported present if the reference has it. *)
Theorem hosted_refines (max : nat) (ms : list mutation) : (∀ g, consistent (rows_put g ms)) →
  let s := foldl (flip (mutate (Z.of_nat max))) new_snapshot ms in
  let st := foldl (flip reference) new_store ms in
  loadDevice s = MlsTypes.loadDevice st
  ∧ (∀ g, getCursor g s = MlsTypes.getCursor g st) ∧ (∀ k, getMeta k s = MlsTypes.getMeta k st)
  ∧ groupIds s = MlsTypes.groupIds st
  ∧ ∀ g, group_rows g s = slice_from (- Z.of_nat max) (sort_rows (MlsTypes.group_rows g st).*2)
    ∧ ((0 < max)%nat → (length (group_rows g s) ≤ max)%nat)
    ∧ (∀ before limit, listRows g before limit s `suffix_of` MlsTypes.listRows g before limit st
       ∧ (before = None → (limit ≤ max)%nat → listRows g before limit s = MlsTypes.listRows g before limit st))
    ∧ ∀ rows k, k ∈ hasRows g rows s → k ∈ MlsTypes.hasRows g rows st.
Proof.
  intros HR s st. assert (agrees max (λ g, rows_put g ms) s st) as Ha.
  { unfold s, st. clear s st. induction ms as [|m ms IH] using rev_ind.
    { split; try done; intros g; [by split; [apply map_ok_nil|constructor]|]. unfold group_rows, slice_from. simpl. by rewrite drop_nil. }
    assert (∀ g r, rows_put g ms r → rows_put g (ms ++ [m]) r) as Hsub by (intros g r (rows & Hin & Hr); exists rows; set_solver).
    rewrite !foldl_app. cbn [foldl]. apply mutate_agrees; [done| |].
    - intros g rows ->. apply Forall_forall. intros r Hr. exists rows. set_solver.
    - destruct IH as [Hd Hc Hm Hg Hw Hrows]; [|split; try done]. { intros g. eapply consistent_sub; [apply Hsub|apply HR]. }
      intros g. eapply well_sub; [apply Hsub|done]. }
  unfold loadDevice, getCursor, getMeta, groupIds, MlsTypes.loadDevice, MlsTypes.getCursor, MlsTypes.getMeta, MlsTypes.groupIds.
  pose proof Ha as [Hd Hc Hm Hg Hw Hrows]. rewrite Hd, Hc, Hm, Hg. split_and!; [done..|]. intros g. split; [done|]. split.
  - intros Hmax. rewrite Hrows. by apply newest_length.
  - split; [exact (listRows_newest max _ s st g Ha (HR g))|]. intros rows k. exact (hasRows_held max _ s st g rows k Ha).
Qed.
End agreement.

(** * A toy store *)

#[local] Existing Instances integer_numbers integer_numbers_laws.

#[local] Definition toy_row (n : Z) (id : string) (ok : bool) : rv :=
  RObj [(js "order", RNum (Int n)); (js "messageId", RStr (js id)); (js "senderVerified", RBool ok)].

#[local] Definition toy_calls : list mutation :=
  [SaveDevice ([1], js "d"); PutRows (js "g") [toy_row 3 "c" false; toy_row 1 "a" false]; SetMeta (js "k") (Some (js "v"));
   PutRows (js "g") [toy_row 2 "b" false; toy_row 3 "c" true]; SetCursor (js "g") (Int 3)].

(** Of three rows, written in two batches, the newest two are held, the later
    version of the row written twice. *)
Lemma hosted_refines_witness :
  let s := foldl (flip (mutate 2)) new_snapshot toy_calls in
  group_rows (js "g") s = [toy_row 2 "b" false; toy_row 3 "c" true]
  ∧ listRows (js "g") None 1 s = MlsTypes.listRows (js "g") None 1 (foldl (flip reference) new_store toy_calls).
Proof.
  assert (∀ g r, rows_put g toy_calls r → r ∈ [toy_row 3 "c" false; toy_row 1 "a" false; toy_row 2 "b" false; toy_row 3 "c" true]) as Hall.
  { intros g r (rows & Hin & Hr). unfold toy_calls in Hin. rewrite !elem_of_cons in Hin.
    destruct Hin as [Hin|[Hin|[Hin|[Hin|[Hin|Hin]]]]]; try discriminate; [..|by apply not_elem_of_nil in Hin]; injection Hin as _ ->; set_solver. }
  destruct (hosted_refines 2 toy_calls) as (_ & _ & _ & _ & Hg).
  - intros g. apply (consistent_sub _ (λ r, r ∈ [toy_row 3 "c" false; toy_row 1 "a" false; toy_row 2 "b" false; toy_row 3 "c" true])); [apply Hall|].
    split.
    + apply Forall_forall. repeat constructor; eexists; split; reflexivity.
    + intros r r' Hr Hr'. rewrite !elem_of_cons in Hr, Hr'.
      destruct Hr as [->|[->|[->|[->|Hr]]]], Hr' as [->|[->|[->|[->|Hr']]]]; try (by apply not_elem_of_nil in Hr); try (by apply not_elem_of_nil in Hr');
        intros E; try discriminate E; vm_compute; reflexivity.
  - destruct (Hg (js "g")) as (E & _ & Hl & _). split; [etransitivity; [exact E|vm_compute; reflexivity]|]. apply Hl; [reflexivity|lia].
Defined.
