(* ===== verification/HostedLease.v ===== *)
(** The lease of a hosted device's state ([withHostedMlsStore] of
    [mls/hosted-store.ts]), as a machine of the server and of any number of
    instances that run an operation on the same device.

    Everything between two awaits of an instance is one step.  A step is taken
    when a request is served, its answer or its failure arrives, a timer fires,
    a sealing is done, or the operation calls the store, returns or throws.  An
    event that finds nothing waiting for it changes nothing.

    The server ([HostedMlsLeaseBackend]) is what the interface documents: it
    keeps a version and a blob, gives the lease with both or [null], and writes
    under a live lease at the version it has, which then goes up; otherwise it
    answers [null].  Which lease is live is the server's to say: an event does.
    A request that was sent can reach the server at any later time, more than
    once or never, and the instance can see it fail in each case. *)
From S2P Require Import Prelude JsString JsMap Utf8 Json MlsRows MlsTypes MlsBackup HostedStore.
Import SnapshotMlsStateStore.

Record lease_options := {
  lo_sealKey : bytes; lo_owner : jsstr; lo_deviceId : jsstr;
  lo_maxRowsPerGroup : option nat; lo_waitMs : option Z; lo_renewEveryMs : option Z;
}.

(** What [acquire] answers: the token, the version and the blob. *)
Record lease := { ls_token : jsstr; ls_version : Z; ls_blob : option bytes }.

(** What the instance waits for. *)
Inductive lease_stage (T : Type) :=
  | Acquiring (attempt : nat) (answer : option (option lease))  (* the answer, once served *)
  | Sleeping (attempt : nat) (until : Z)
  | Running                                                     (* [fn] *)
  | Returning (result : T)                                      (* [await flush()] *)
  | Finishing (o : outcome hosted_error T) (links : nat)        (* the flushes of [await flushing] *)
  | Releasing (o : outcome hosted_error T)
  | Ended (o : outcome hosted_error T).
Arguments Acquiring {T}. Arguments Sleeping {T}. Arguments Running {T}. Arguments Returning {T}.
Arguments Finishing {T}. Arguments Releasing {T}. Arguments Ended {T}.

(** A link of [flushing]: the call that waits for it, or the last flush. *)
Inductive link := OfCall (call : nat) | OfReturn.

(** How far the first link is. *)
Inductive flush_progress :=
  | NotStarted
  | Sealing (plain : bytes)
  | Writing (request : nat).

Record held_store := {
  hs_token : jsstr;
  version : Z;
  lost : bool;
  store : Snapshot;
  dirty : bool;
  flushing : list link;
  progress : flush_progress;
  flush_error : option hosted_error;            (* [flushing] is rejected *)
  renew_at : option Z;                          (* the interval *)
  renewing : nat;                               (* renewals on their way *)
  calls : list mutation;                        (* the calls on the store; a call is its place here *)
  settled : list (nat * outcome hosted_error unit);  (* their promises *)
}.

Record instance (T : Type) := { in_stage : lease_stage T; in_deadline : Z; in_held : option held_store }.
Arguments in_stage {T}. Arguments in_deadline {T}. Arguments in_held {T}.

Record write_request := { wr_token : jsstr; wr_version : Z; wr_blob : bytes }.

Record lease_system (T : Type) := {
  now : Z;
  sv_version : Z;
  sv_blob : option bytes;
  requests : list write_request;                (* sent, oldest first *)
  answers : list (nat * option Z);              (* given by the server to a request *)
  releases : list jsstr;
  instances : list (instance T);
}.
Arguments now {T}. Arguments sv_version {T}. Arguments sv_blob {T}. Arguments requests {T}. Arguments answers {T}.
Arguments releases {T}. Arguments instances {T}.

Inductive lease_event (T : Type) :=
  | Tick (ms : nat)
  | Start
  | ServeAcquire (i : nat) (grant : option jsstr)   (* the token, or busy *)
  | AcquireAnswer (i : nat)
  | AcquireError (i : nat)
  | Wake (i : nat)
  | Call (i : nat) (m : mutation)
  | Proceed (i : nat)                               (* the first link starts *)
  | Sealed (i : nat) (nonce : bytes)
  | ServeWrite (request : nat) (live : bool)
  | WriteAnswer (i : nat) (answer : option Z)
  | WriteError (i : nat)
  | RenewTick (i : nat)
  | RenewAnswer (i : nat) (ok : option bool)
  | Return (i : nat) (result : T)
  | Raise (i : nat) (e : jsstr)
  | Finish (i : nat)
  | ReleaseAnswer (i : nat).
Arguments Tick {T}. Arguments Start {T}. Arguments ServeAcquire {T}. Arguments AcquireAnswer {T}. Arguments AcquireError {T}.
Arguments Wake {T}. Arguments Call {T}. Arguments Proceed {T}. Arguments Sealed {T}. Arguments ServeWrite {T}.
Arguments WriteAnswer {T}. Arguments WriteError {T}. Arguments RenewTick {T}. Arguments RenewAnswer {T}.
Arguments Return {T}. Arguments Raise {T}. Arguments Finish {T}. Arguments ReleaseAnswer {T}.

(** [onWrite]'s argument. *)
Definition critical (m : mutation) : bool := match m with SaveDevice _ | Clear => true | _ => false end.

Section setters.

Definition set_store (s : Snapshot) (d : bool) (cs : list mutation) (h : held_store) : held_store := {|
  hs_token := hs_token h; version := version h; lost := lost h; store := s; dirty := d; flushing := flushing h;
  progress := progress h; flush_error := flush_error h; renew_at := renew_at h; renewing := renewing h;
  calls := cs; settled := settled h |}.

Definition set_flush (d : bool) (l : list link) (p : flush_progress) (e : option hosted_error) (h : held_store) : held_store := {|
  hs_token := hs_token h; version := version h; lost := lost h; store := store h; dirty := d; flushing := l;
  progress := p; flush_error := e; renew_at := renew_at h; renewing := renewing h; calls := calls h; settled := settled h |}.

Definition set_lease (v : Z) (l : bool) (h : held_store) : held_store := {|
  hs_token := hs_token h; version := v; lost := l; store := store h; dirty := dirty h; flushing := flushing h;
  progress := progress h; flush_error := flush_error h; renew_at := renew_at h; renewing := renewing h;
  calls := calls h; settled := settled h |}.

Definition set_renewal (t : option Z) (n : nat) (h : held_store) : held_store := {|
  hs_token := hs_token h; version := version h; lost := lost h; store := store h; dirty := dirty h; flushing := flushing h;
  progress := progress h; flush_error := flush_error h; renew_at := t; renewing := n; calls := calls h; settled := settled h |}.

(** The promise of a call. *)
Definition settle_call (k : nat) (r : outcome hosted_error unit) (h : held_store) : held_store := {|
  hs_token := hs_token h; version := version h; lost := lost h; store := store h; dirty := dirty h; flushing := flushing h;
  progress := progress h; flush_error := flush_error h; renew_at := renew_at h; renewing := renewing h;
  calls := calls h; settled := settled h ++ [(k, r)] |}.

Context {T : Type}.

Definition with_held (h : held_store) (x : instance T) : instance T :=
  {| in_stage := in_stage x; in_deadline := in_deadline x; in_held := Some h |}.

Definition at_stage (s : lease_stage T) (x : instance T) : instance T :=
  {| in_stage := s; in_deadline := in_deadline x; in_held := in_held x |}.

Definition set_instance (i : nat) (x : instance T) (y : lease_system T) : lease_system T := {|
  now := now y; sv_version := sv_version y; sv_blob := sv_blob y; requests := requests y; answers := answers y;
  releases := releases y; instances := <[i := x]> (instances y) |}.

Definition send_write (q : write_request) (y : lease_system T) : lease_system T := {|
  now := now y; sv_version := sv_version y; sv_blob := sv_blob y; requests := requests y ++ [q]; answers := answers y;
  releases := releases y; instances := instances y |}.

Definition send_release (t : jsstr) (y : lease_system T) : lease_system T := {|
  now := now y; sv_version := sv_version y; sv_blob := sv_blob y; requests := requests y; answers := answers y;
  releases := releases y ++ [t]; instances := instances y |}.

Definition serve (v : Z) (b : option bytes) (n : nat) (a : option Z) (y : lease_system T) : lease_system T := {|
  now := now y; sv_version := v; sv_blob := b; requests := requests y; answers := answers y ++ [(n, a)];
  releases := releases y; instances := instances y |}.
End setters.

Section machine.
Context {T : Type} `{JsonNumbers} `{JsText} `{BackupCrypto} (o : lease_options) (next_version : Z → Z).

Definition maxRowsPerGroup : Z := Z.of_nat (default 500%nat (lo_maxRowsPerGroup o)).
Definition lease_aad : bytes := state_aad (lo_owner o) (lo_deviceId o).
Definition waitMs : Z := default 15000 (lo_waitMs o).
Definition renewEveryMs : Z := default 20000 (lo_renewEveryMs o).
Definition retry_ms (attempt : nat) : Z := Z.min 2000 (200 * 2 ^ Z.of_nat attempt).

Definition start (y : lease_system T) : lease_system T := {|
  now := now y; sv_version := sv_version y; sv_blob := sv_blob y; requests := requests y; answers := answers y; releases := releases y;
  instances := instances y ++ [{| in_stage := Acquiring 0 None; in_deadline := now y + waitMs; in_held := None |}] |}.

(** The store under a lease. *)
Definition open_state (blob : option bytes) : outcome hosted_error Snapshot :=
  match blob with
  | None => Ok new_snapshot
  | Some b => match open_blob (lo_sealKey o) lease_aad b with Ok p => fromBytes p | Throw e => Throw e end
  end.

Definition hold (t : Z) (l : lease) (s : Snapshot) : held_store := {|
  hs_token := ls_token l; version := ls_version l; lost := false; store := s; dirty := false; flushing := [];
  progress := NotStarted; flush_error := None; renew_at := Some (t + renewEveryMs); renewing := 0; calls := []; settled := [] |}.

(** From the answer of [acquire()] to [fn(store)], or to the next attempt. *)
Definition acquired (t : Z) (attempt : nat) (answer : option lease) (x : instance T) : instance T :=
  match answer with
  | None => if in_deadline x <=? t then at_stage (Ended (Throw Busy)) x else at_stage (Sleeping attempt (t + retry_ms attempt)) x
  | Some l =>
      match open_state (ls_blob l) with
      | Throw e => at_stage (Ended (Throw e)) x
      | Ok s => at_stage Running (with_held (hold t l s) x)
      end
  end.

(** The [finally], up to [await flushing]. *)
Definition finishing (out : outcome hosted_error T) (h : held_store) (x : instance T) : instance T :=
  at_stage (Finishing out (length (flushing h))) (with_held (set_renewal None (renewing h) h) x).

(** A link of [flushing] is settled: who waits for it goes on. *)
Definition settle (w : link) (r : outcome hosted_error unit) (h : held_store) (x : instance T) : instance T :=
  match w with
  | OfCall k =>
      let x := with_held (settle_call k r h) x in
      match in_stage x with Finishing out (S n) => at_stage (Finishing out n) x | _ => x end
  | OfReturn =>
      match in_stage x with
      | Returning result => finishing (match r with Ok _ => Ok result | Throw e => Throw e end) h x
      | _ => with_held h x
      end
  end.

Definition end_link (w : link) (rest : list link) (r : outcome hosted_error unit) (h : held_store) (x : instance T) : instance T :=
  settle w r (set_flush (dirty h) rest NotStarted (match r with Ok _ => None | Throw e => Some e end) h) x.

(** The first link of [flushing] runs up to [seal], or ends. *)
Definition proceed (h : held_store) (x : instance T) : instance T :=
  match flushing h, progress h with
  | w :: rest, NotStarted =>
      match flush_error h with
      | Some e => end_link w rest (Throw e) h x
      | None =>
          if lost h then end_link w rest (Throw LeaseLost) h x
          else if dirty h then with_held (set_flush false (w :: rest) (Sealing (toBytes (store h))) None h) x
          else end_link w rest (Ok tt) h x
      end
  | _, _ => x
  end.

(** The link goes on after [write] ([None]: it rejects). *)
Definition written (answer : option (option Z)) (h : held_store) (x : instance T) : instance T :=
  match flushing h with
  | w :: rest =>
      match answer with
      | None => end_link w rest (Throw BackendFailed) h x
      | Some None => end_link w rest (Throw LeaseLost) (set_lease (version h) true h) x
      | Some (Some v) => end_link w rest (Ok tt) (set_lease v (lost h) h) x
      end
  | [] => x
  end.

(** A mutating method of the store, and its [onWrite]. *)
Definition call (m : mutation) (h : held_store) (x : instance T) : instance T :=
  let k := length (calls h) in
  let h' d := set_store (mutate maxRowsPerGroup m (store h)) d (calls h ++ [m]) h in
  if lost h then with_held (settle_call k (Throw LeaseLost) (h' (dirty h))) x
  else if critical m then with_held (set_flush true (flushing h ++ [OfCall k]) (progress h) (flush_error h) (h' true)) x
  else with_held (settle_call k (Ok tt) (h' true)) x.

(** [fn] returns: the last flush. *)
Definition returned (result : T) (h : held_store) (x : instance T) : instance T :=
  at_stage (Returning result) (with_held (set_flush (dirty h) (flushing h ++ [OfReturn]) (progress h) (flush_error h) h) x).

(** An instance that reached the store does [f]. *)
Definition on_held (i : nat) (f : held_store → instance T → lease_system T) (y : lease_system T) : lease_system T :=
  match instances y !! i with
  | Some x => match in_held x with Some h => f h x | None => y end
  | None => y
  end.

Definition on_stage (i : nat) (f : lease_stage T → instance T → lease_system T) (y : lease_system T) : lease_system T :=
  match instances y !! i with Some x => f (in_stage x) x | None => y end.

Definition step (y : lease_system T) (ev : lease_event T) : lease_system T :=
  match ev with
  | Tick ms => {| now := now y + Z.of_nat ms; sv_version := sv_version y; sv_blob := sv_blob y; requests := requests y;
                  answers := answers y; releases := releases y; instances := instances y |}
  | Start => start y
  | ServeAcquire i grant => on_stage i (λ s x,
      match s with
      | Acquiring n None =>
          let l := (λ t, {| ls_token := t; ls_version := sv_version y; ls_blob := sv_blob y |}) <$> grant in
          set_instance i (at_stage (Acquiring n (Some l)) x) y
      | _ => y
      end) y
  | AcquireAnswer i => on_stage i (λ s x,
      match s with Acquiring n (Some answer) => set_instance i (acquired (now y) n answer x) y | _ => y end) y
  | AcquireError i => on_stage i (λ s x,
      match s with Acquiring _ _ => set_instance i (at_stage (Ended (Throw BackendFailed)) x) y | _ => y end) y
  | Wake i => on_stage i (λ s x,
      match s with
      | Sleeping n until => if until <=? now y then set_instance i (at_stage (Acquiring (S n) None) x) y else y
      | _ => y
      end) y
  | Call i m => on_held i (λ h x, match in_stage x with Running => set_instance i (call m h x) y | _ => y end) y
  | Proceed i => on_held i (λ h x, set_instance i (proceed h x) y) y
  | Sealed i nonce => on_held i (λ h x,
      match progress h with
      | Sealing plain =>
          if (length nonce =? 12)%nat then
            send_write {| wr_token := hs_token h; wr_version := version h; wr_blob := seal nonce (lo_sealKey o) lease_aad plain |}
              (set_instance i (with_held (set_flush (dirty h) (flushing h) (Writing (length (requests y))) (flush_error h) h) x) y)
          else y
      | _ => y
      end) y
  | ServeWrite n live =>
      match requests y !! n with
      | Some q =>
          if live && (wr_version q =? sv_version y) then
            serve (next_version (sv_version y)) (Some (wr_blob q)) n (Some (next_version (sv_version y))) y
          else serve (sv_version y) (sv_blob y) n None y
      | None => y
      end
  | WriteAnswer i answer => on_held i (λ h x,
      match progress h with
      | Writing n => if bool_decide ((n, answer) ∈ answers y) then set_instance i (written (Some answer) h x) y else y
      | _ => y
      end) y
  | WriteError i => on_held i (λ h x,
      match progress h with Writing _ => set_instance i (written None h x) y | _ => y end) y
  | RenewTick i => on_held i (λ h x,
      match renew_at h with
      | Some t => if t <=? now y then set_instance i (with_held (set_renewal (Some (now y + renewEveryMs)) (S (renewing h)) h) x) y else y
      | None => y
      end) y
  | RenewAnswer i ok => on_held i (λ h x,
      match renewing h with
      | S n => let h' := set_renewal (renew_at h) n h in
               set_instance i (with_held (match ok with Some false => set_lease (version h') true h' | _ => h' end) x) y
      | O => y
      end) y
  | Return i result => on_held i (λ h x, match in_stage x with Running => set_instance i (returned result h x) y | _ => y end) y
  | Raise i e => on_held i (λ h x,
      match in_stage x with Running => set_instance i (finishing (Throw (OperationFailed e)) h x) y | _ => y end) y
  | Finish i => on_held i (λ h x,
      match in_stage x with
      | Finishing out O =>
          if lost h then set_instance i (at_stage (Ended out) x) y
          else send_release (hs_token h) (set_instance i (at_stage (Releasing out) x) y)
      | _ => y
      end) y
  | ReleaseAnswer i => on_stage i (λ s x, match s with Releasing out => set_instance i (at_stage (Ended out) x) y | _ => y end) y
  end.

Definition run (y : lease_system T) (evs : list (lease_event T)) : lease_system T := foldl step y evs.

(** Nobody acts for the device yet; [fresh]: it has no state on the server. *)
Definition found (t v : Z) (blob : option bytes) : lease_system T := {|
  now := t; sv_version := v; sv_blob := blob; requests := []; answers := []; releases := []; instances := [] |}.
Definition fresh (t v : Z) : lease_system T := found t v None.
End machine.
