(* ===== verification/HostedProps.v ===== *)
(** What is proved of the lease of a hosted device ([HostedLease]): the instances act
    one after the other on the state, leases are given back, waiting ends. *)
From S2P Require Import Prelude JsString JsMap Utf8 Json MlsRows MlsTypes MlsBackup HostedStore HostedLease.
Import SnapshotMlsStateStore.

(** * The history of a device

    A segment is what one instance has got accepted, in order: the state on the
    server is always that of the segments run one after the other. *)

Notation segment := (nat * list mutation)%type.

Section history.
Context `{JsonNumbers} (max : Z).

Definition run_calls (s : Snapshot) (ms : list mutation) : Snapshot := foldl (flip (mutate max)) s ms.
Definition replay (segs : list segment) : Snapshot := foldl (λ s e, run_calls s e.2) new_snapshot segs.
End history.

(** A later history: every segment is still there, only the last may have grown. *)
Definition extends (segs segs' : list segment) : Prop := ∀ p i ms, segs !! p = Some (i, ms) →
  ∃ ms', segs' !! p = Some (i, ms') ∧ ms `prefix_of` ms' ∧ (S p < length segs → ms' = ms)%nat.

Definition committed (segs : list segment) (i : nat) (ms : list mutation) : Prop :=
  ms = [] ∨ ∃ ms', (i, ms') ∈ segs ∧ ms `prefix_of` ms'.

(** The history in which instance [i] opened the state of [base] and [ms] was accepted since. *)
Definition own (base : list segment) (i : nat) (ms : list mutation) : list segment :=
  match ms with [] => base | _ => base ++ [(i, ms)] end.

Lemma extends_refl segs : extends segs segs.
Proof. intros p i ms Hp. by exists ms. Qed.

Lemma extends_length segs segs' : extends segs segs' → (length segs ≤ length segs')%nat.
Proof.
  intros He. destruct (length segs) as [|n] eqn:El; [lia|]. destruct (lookup_lt_is_Some_2 segs n) as [[i ms] Hn]; [lia|].
  destruct (He _ _ _ Hn) as (ms' & Hn' & _). apply lookup_lt_Some in Hn'. lia.
Qed.

Lemma extends_trans s1 s2 s3 : extends s1 s2 → extends s2 s3 → extends s1 s3.
Proof.
  intros H12 H23 p i ms Hp. destruct (H12 _ _ _ Hp) as (ms' & Hp' & Hpre & Hlast). destruct (H23 _ _ _ Hp') as (ms'' & Hp'' & Hpre' & Hlast').
  exists ms''. split_and!; [done|by etransitivity|]. intros Hl. apply extends_length in H12. rewrite Hlast' by lia. by apply Hlast.
Qed.

Lemma extends_app segs t : extends segs (segs ++ t).
Proof. intros p i ms Hp. exists ms. split_and!; [by apply lookup_app_l_Some|done|done]. Qed.

Lemma extends_own base i ms ms' : ms `prefix_of` ms' → extends (own base i ms) (own base i ms').
Proof.
  intros Hpre. destruct ms as [|m ms]; [destruct ms'; [apply extends_refl|apply extends_app]|].
  destruct ms' as [|m' ms']; [by apply prefix_nil_inv in Hpre|]. intros p j l Hp. unfold own in *.
  apply lookup_app_Some in Hp as [Hp|[Hge Hp]].
  - exists l. split_and!; [by apply lookup_app_l_Some|done|done].
  - apply list_lookup_singleton_Some in Hp as [Hz [= <- <-]]. exists (m' :: ms'). split_and!; [|done|].
    + rewrite lookup_app_r by done. by rewrite Hz.
    + rewrite length_app. simpl. lia.
Qed.

Lemma committed_extends segs segs' i ms : extends segs segs' → committed segs i ms → committed segs' i ms.
Proof.
  intros He [->|(ms' & Hin & Hpre)]; [by left|]. apply list_elem_of_lookup in Hin as [p Hp]. destruct (He _ _ _ Hp) as (ms'' & Hp' & Hpre' & _).
  right. exists ms''. split; [by eapply list_elem_of_lookup_2|by etransitivity].
Qed.

Lemma committed_own base i ms : committed (own base i ms) i ms.
Proof. destruct ms as [|m ms]; [by left|]. right. exists (m :: ms). split; [set_solver|done]. Qed.

Lemma committed_prefix segs i ms ms' : ms `prefix_of` ms' → committed segs i ms' → committed segs i ms.
Proof.
  intros Hpre [->|(l & Hin & Hl)]; [apply prefix_nil_inv in Hpre; by left|]. right. exists l. split; [done|by etransitivity].
Qed.

Lemma replay_own `{JsonNumbers} max base i ms : replay max (own base i ms) = run_calls max (replay max base) ms.
Proof. destruct ms as [|m ms]; [done|]. unfold own, replay. by rewrite foldl_app. Qed.

(** Values that the codec carries. *)
Definition mutation_ok `{JsonNumbers} (m : mutation) : Prop :=
  match m with
  | SaveDevice (b, d) => wf_bytes b ∧ wf_str d
  | SetCursor g o => name_ok g ∧ num_stable o = true
  | PutRows g rows => name_ok g ∧ Forall rv_ok rows
  | SetMeta k v => name_ok k ∧ ∀ x, v = Some x → wf_str x
  | Clear => True
  end.

Lemma mutate_ok `{JsonNumbers} max m s : mutation_ok m → snapshot_ok s → snapshot_ok (mutate max m s).
Proof.
  destruct m as [[b d]|g o|g rows|k v|]; simpl; intros Hm Hs.
  - destruct Hm. by apply saveDevice_ok.
  - destruct Hm. by apply setCursor_ok.
  - destruct Hm. by apply putRows_ok.
  - destruct Hm. by apply setMeta_ok.
  - apply new_snapshot_ok.
Qed.

Lemma run_calls_ok `{JsonNumbers} max ms : ∀ s, Forall mutation_ok ms → snapshot_ok s → snapshot_ok (run_calls max s ms).
Proof. induction ms as [|m ms IH]; intros s Hms Hs; [done|]. inversion Hms; subst. simpl. apply IH; [done|]. by apply mutate_ok. Qed.

Lemma replay_ok `{JsonNumbers} max segs : Forall (λ e : segment, Forall mutation_ok e.2) segs → snapshot_ok (replay max segs).
Proof.
  induction segs as [|e segs IH] using rev_ind; intros Hf; [apply new_snapshot_ok|]. apply Forall_app in Hf as [Hf He]. unfold replay.
  rewrite foldl_app. simpl. apply run_calls_ok; [by inversion He|]. by apply IH.
Qed.

#[local] Opaque toBytes fromBytes open_blob seal mutate.

Section serial.
Context {T : Type} `{JsonNumbersLaws} `{JsText} `{BackupCryptoLaws} (o : lease_options) (next_version : Z → Z).
Context (Hnext : ∀ v, v < next_version v).

Notation max := (maxRowsPerGroup o).
Notation system := (lease_system T).

Definition calls_of (y : system) (i : nat) : list mutation :=
  match instances y !! i ≫= in_held with Some h => calls h | None => [] end.

Definition segs_ok (segs : list segment) : Prop := Forall (λ e, Forall mutation_ok e.2) segs.

(** [ms] are the calls that the link under way writes. *)
Definition captured (h : held_store) (ms : list mutation) : Prop :=
  ms ≠ [] ∧ ms `prefix_of` calls h ∧ flush_error h = None ∧ (dirty h = false → lost h = false → ms = calls h)
  ∧ match flushing h with OfCall k :: _ => (k < length ms)%nat | OfReturn :: _ => ms = calls h | [] => False end.

Definition succeeded (st : lease_stage T) : bool :=
  match st with Finishing (Ok _) _ | Releasing (Ok _) | Ended (Ok _) => true | _ => false end.

Definition acquiring (st : lease_stage T) : bool := match st with Acquiring _ _ | Sleeping _ _ => true | _ => false end.

(** At version [v] with history [segs]: an instance that opened the state of [base];
    [sent] are the instance and the calls of each request. *)
Record held_ok (v : Z) (segs base sent : list segment) (i : nat) (st : lease_stage T) (h : held_store) : Prop := {
  ho_stage : acquiring st = false;
  ho_store : store h = run_calls max (replay max base) (calls h);
  ho_calls : Forall mutation_ok (calls h);
  ho_base : segs_ok base;
  ho_extends : extends base segs;
  ho_placed : ∀ ms, (i, ms) ∈ segs → base ++ [(i, ms)] `prefix_of` segs;
  ho_version : version h ≤ v;
  ho_current : version h = v → ∃ ms, ms `prefix_of` calls h ∧ segs = own base i ms;
  ho_dirty : dirty h = true → calls h ≠ [];
  ho_progress : match progress h with
    | NotStarted => flush_error h = None → dirty h = false → lost h = false → committed segs i (calls h)
    | Sealing plain => ∃ ms, captured h ms ∧ plain = toBytes (run_calls max (replay max base) ms)
        ∧ (version h = v → ∃ ms0, ms0 `prefix_of` ms ∧ segs = own base i ms0)
    | Writing n => ∃ ms, captured h ms ∧ sent !! n = Some (i, ms)
    end;
  ho_waiters : ∀ k, OfCall k ∈ flushing h → (k < length (calls h))%nat;
  ho_return : ∀ l l', flushing h = l ++ OfReturn :: l' → l' = [] ∧ ∃ r, st = Returning r;
  ho_settled : ∀ k r, (k, r) ∈ settled h → (k < length (calls h))%nat;
  ho_acked : ∀ k m, (k, Ok tt) ∈ settled h → calls h !! k = Some m → critical m = true → committed segs i (take (S k) (calls h));
  ho_done : succeeded st = true → committed segs i (calls h);
}.

Definition inst_ok (v : Z) (segs base sent : list segment) (i : nat) (x : instance T) : Prop :=
  match in_held x with
  | Some h => held_ok v segs base sent i (in_stage x) h
  | None =>
      (∀ ms, (i, ms) ∉ segs) ∧ succeeded (in_stage x) = false
      ∧ match in_stage x with
        | Acquiring _ (Some (Some l)) =>
            ls_version l ≤ v ∧ open_state o (ls_blob l) = Ok (replay max base) ∧ segs_ok base ∧ extends base segs
            ∧ (ls_version l = v → segs = base)
        | _ => True
        end
  end.

Record inv (segs : list segment) (base : nat → list segment) (sent : list segment) (y : system) : Prop := {
  iv_blob : open_state o (sv_blob y) = Ok (replay max segs);
  iv_ids : NoDup segs.*1;
  iv_segs : ∀ i ms, (i, ms) ∈ segs → ms ≠ [] ∧ ms `prefix_of` calls_of y i;
  iv_ok : segs_ok segs;
  iv_sent : length sent = length (requests y);
  iv_requests : ∀ n q i ms, requests y !! n = Some q → sent !! n = Some (i, ms) →
    ms ≠ [] ∧ ms `prefix_of` calls_of y i ∧ wr_version q ≤ sv_version y
    ∧ open_state o (Some (wr_blob q)) = Ok (run_calls max (replay max (base i)) ms)
    ∧ (wr_version q = sv_version y → ∃ ms0, ms0 `prefix_of` ms ∧ segs = own (base i) i ms0);
  iv_answers : ∀ n v, (n, Some v) ∈ answers y → ∃ i ms, sent !! n = Some (i, ms) ∧ v ≤ sv_version y
    ∧ (v = sv_version y → segs = own (base i) i ms) ∧ committed segs i ms;
  iv_instances : ∀ i x, instances y !! i = Some x → inst_ok (sv_version y) segs (base i) sent i x;
}.

(** ** Steps of one instance *)

Lemma calls_of_set i x x' y j : instances y !! i = Some x → calls_of (set_instance i x' y) j =
  if decide (j = i) then match in_held x' with Some h => calls h | None => [] end else calls_of y j.
Proof.
  intros Hx. unfold calls_of, set_instance. cbn [instances]. case_decide as E.
  - subst j. rewrite list_lookup_insert_eq; [done|]. by eapply lookup_lt_Some.
  - by rewrite list_lookup_insert_ne.
Qed.

Lemma inv_local segs base sent y i x x' : inv segs base sent y → instances y !! i = Some x →
  inst_ok (sv_version y) segs (base i) sent i x' →
  calls_of y i `prefix_of` (match in_held x' with Some h => calls h | None => [] end) →
  inv segs base sent (set_instance i x' y).
Proof.
  intros [Hb Hi Hs Hk Hn Hr Ha Hx] Ex Hx' Hpre.
  assert (∀ j, calls_of y j `prefix_of` calls_of (set_instance i x' y) j) as Hgrow.
  { intros j. rewrite (calls_of_set i x x' y j Ex). case_decide; [by subst|done]. }
  split; try done.
  - intros j ms Hin. destruct (Hs j ms Hin) as [Hne Hp]. split; [done|]. etransitivity; [exact Hp|apply Hgrow].
  - intros n q j ms Hq Hj. destruct (Hr n q j ms Hq Hj) as (K1 & K2 & K3 & K4 & K5). split_and!; try done. etransitivity; [exact K2|apply Hgrow].
  - intros j z Hz. cbn [set_instance instances] in Hz. destruct (decide (j = i)) as [->|Hne].
    + rewrite list_lookup_insert_eq in Hz by (by eapply lookup_lt_Some). injection Hz as <-. exact Hx'.
    + rewrite list_lookup_insert_ne in Hz by done. by apply Hx.
Qed.

Lemma take_prefix_calls (ms l : list mutation) k : (k ≤ length ms)%nat → ms `prefix_of` l → take k l = take k ms.
Proof. intros Hk [t ->]. by rewrite take_app_le. Qed.

(** The first link, done writing, is settled with [r]. *)
Lemma end_link_ok v segs base sent i (x : instance T) h w rest r :
  held_ok v segs base sent i (in_stage x) (set_flush (dirty h) (w :: rest) NotStarted (match r with Ok _ => None | Throw e => Some e end) h) →
  (r = Ok tt → match w with OfCall k => committed segs i (take (S k) (calls h)) | OfReturn => committed segs i (calls h) end) →
  inst_ok v segs base sent i (end_link w rest r h x).
Proof.
  intros [Hst Hstore Hcalls Hbase Hext Hpl Hv Hcur Hd Hp Hw Hret Hse Hack Hdone] Hr. cbn in *.
  assert (∀ l l', rest = l ++ OfReturn :: l' → l' = [] ∧ ∃ r, in_stage x = Returning r) as Hret'.
  { intros l l' ->. by apply (Hret (w :: l) l'). }
  unfold end_link, settle, inst_ok. destruct w as [k|].
  - assert (held_ok v segs base sent i (in_stage x) (settle_call k r (set_flush (dirty h) rest NotStarted (match r with Ok _ => None | Throw e => Some e end) h))) as Hh.
    { split; cbn; try done.
      - intros j Hj. apply Hw. by right.
      - intros j r' [Hin|Hin]%elem_of_app; [by eapply Hse|]. apply list_elem_of_singleton in Hin. injection Hin as -> ->. apply Hw. left.
      - intros j m [Hin|Hin]%elem_of_app; [by eapply Hack|]. apply list_elem_of_singleton in Hin. injection Hin as -> E. intros _ _. by apply Hr. }
    cbn. destruct (in_stage x) as [| | | |out [|n]| |] eqn:Es; cbn; rewrite ?Es; try exact Hh.
    destruct Hh as [K1 K2 K3 K4 K5 K6 K7 K8 K9 K10 K11 K12 K13 K14 K15]. split; cbn in *; try done.
    intros l l' E. by destruct (K12 l l' E) as [? [? ?]].
  - destruct (Hret [] rest eq_refl) as [-> [res Es]]. rewrite Es. cbn. split; cbn; try done.
    + intros j Hj. by apply not_elem_of_nil in Hj.
    + intros [|? l] l'; discriminate.
    + intros Hs. apply Hr. by destruct r as [[]|].
Qed.

(** Every operation on the link under way keeps the invariant of its instance. *)
Lemma proceed_ok v segs base sent i (x : instance T) h : in_held x = Some h → held_ok v segs base sent i (in_stage x) h →
  inst_ok v segs base sent i (proceed h x).
Proof.
  intros Eh Hok. unfold proceed. destruct (flushing h) as [|w rest] eqn:Ef; [by unfold inst_ok; rewrite Eh|].
  destruct (progress h) as [|plain|n] eqn:Ep; [|by unfold inst_ok; rewrite Eh..].
  assert (∀ e, (e = None → flush_error h = None) → held_ok v segs base sent i (in_stage x) (set_flush (dirty h) (w :: rest) NotStarted e h)) as Hset.
  { intros e He. destruct Hok as [K1 K2 K3 K4 K5 K6 K7 K8 K9 K10 K11 K12 K13 K14 K15]. rewrite Ep in K10. rewrite Ef in K11, K12.
    split; cbn; try done. intros ->. by apply K10, He. }
  destruct (flush_error h) as [e|] eqn:Ee; [apply end_link_ok; [by apply Hset|done]|].
  destruct (lost h) eqn:El; [apply end_link_ok; [by apply Hset|done]|].
  destruct (dirty h) eqn:Ed.
  - unfold inst_ok. cbn. destruct Hok as [K1 K2 K3 K4 K5 K6 K7 K8 K9 K10 K11 K12 K13 K14 K15]. rewrite Ef in K11, K12. split; cbn; try done.
    exists (calls h). split_and!; [|by rewrite K2|done]. split_and!; cbn; [by apply K9|done..|]. destruct w as [k|]; [|done]. apply K11. left.
  - apply end_link_ok; [rewrite Ed; by apply Hset|]. intros _. pose proof (ho_progress _ _ _ _ _ _ _ Hok) as Hp. rewrite Ep in Hp.
    destruct w as [k|]; [|by apply Hp]. eapply committed_prefix; [apply prefix_take|by apply Hp].
Qed.

Lemma written_ok v segs base sent i (x : instance T) h n answer : in_held x = Some h → held_ok v segs base sent i (in_stage x) h →
  progress h = Writing n →
  (∀ w ms, answer = Some (Some w) → sent !! n = Some (i, ms) → w ≤ v ∧ (w = v → segs = own base i ms) ∧ committed segs i ms) →
  inst_ok v segs base sent i (written answer h x).
Proof.
  intros Eh Hok Ep Ha. unfold written. destruct (flushing h) as [|w rest] eqn:Ef; [by unfold inst_ok; rewrite Eh|].
  destruct Hok as [K1 K2 K3 K4 K5 K6 K7 K8 K9 K10 K11 K12 K13 K14 K15]. rewrite Ep in K10. rewrite Ef in K11, K12.
  destruct K10 as (ms & (Hms & Hpre & Hfe & Hdirty & Hhead) & Hsent). rewrite Ef in Hhead.
  destruct answer as [[w'|]|].
  - destruct (Ha w' ms eq_refl Hsent) as (Hw & Hcur & Hcom). apply end_link_ok; cbn.
    + split; cbn; try done. { intros E. exists ms. split; [done|by apply Hcur]. } intros _ Hd Hl. by rewrite <-(Hdirty Hd Hl).
    + intros _. destruct w as [k|]; [|by subst ms]. eapply committed_prefix; [|exact Hcom]. rewrite (take_prefix_calls ms) by (done || lia). apply prefix_take.
  - apply end_link_ok; [|done]. split; cbn; done.
  - apply end_link_ok; [|done]. split; cbn; done.
Qed.

Lemma call_ok v segs base sent i (x : instance T) h m : in_held x = Some h → in_stage x = Running → mutation_ok m →
  held_ok v segs base sent i (in_stage x) h → inst_ok v segs base sent i (call o m h x).
Proof.
  intros Eh Es Hm Hok. destruct Hok as [K1 K2 K3 K4 K5 K6 K7 K8 K9 K10 K11 K12 K13 K14 K15].
  assert (calls h `prefix_of` calls h ++ [m]) as Hpre by (by eexists).
  assert (flushing h ≠ [OfReturn] ∧ ∀ l l', flushing h ≠ l ++ OfReturn :: l') as [_ Hnoret].
  { assert (∀ l l', flushing h ≠ l ++ OfReturn :: l') as Hn by (intros l l' E; destruct (K12 l l' E) as (_ & r & Er); congruence).
    split; [apply (Hn [] [])|done]. }
  assert (∀ d l s e, (d = true ∨ d = dirty h ∧ lost h = true) → (∀ k, OfCall k ∈ l → (k < S (length (calls h)))%nat) → (∀ p l', l ≠ p ++ OfReturn :: l') →
    e = flush_error h → (∃ t, l = flushing h ++ t) →
    (∀ k r, (k, r) ∈ s → (k, r) ∈ settled h ∨ k = length (calls h) ∧ (r = Ok tt → critical m = false)) →
    held_ok v segs base sent i (in_stage x) {|
      hs_token := hs_token h; version := version h; lost := lost h; store := mutate max m (store h); dirty := d; flushing := l;
      progress := progress h; flush_error := e; renew_at := renew_at h; renewing := renewing h; calls := calls h ++ [m]; settled := s |}) as Hgen.
  { intros d l s e Hd Hw Hr -> [t El] Hs. split; cbn; try done.
    - unfold run_calls. rewrite foldl_app. cbn. by rewrite K2.
    - apply Forall_app. by split; [|apply Forall_singleton].
    - intros E. destruct (K8 E) as (ms & Hms & Eseg). exists ms. split; [by etransitivity|done].
    - intros _. by destruct (calls h).
    - destruct (progress h) as [|plain|n].
      + intros _ Hd' Hl. destruct Hd as [->|[_ E]]; congruence.
      + destruct K10 as (ms & (Hms & Hp & Hfe & Hdirty & Hhead) & E & Hc). exists ms. split_and!; try done. split_and!; cbn; try done; [by etransitivity| |].
        * intros Hd' Hl. destruct Hd as [->|[_ E']]; congruence.
        * rewrite El. destruct (flushing h) as [|[k|] rest] eqn:Ef; cbn; [done..|]. destruct (Hnoret [] rest eq_refl).
      + destruct K10 as (ms & (Hms & Hp & Hfe & Hdirty & Hhead) & E). exists ms. split_and!; try done. split_and!; cbn; try done; [by etransitivity| |].
        * intros Hd' Hl. destruct Hd as [->|[_ E']]; congruence.
        * rewrite El. destruct (flushing h) as [|[k|] rest] eqn:Ef; cbn; [done..|]. destruct (Hnoret [] rest eq_refl).
    - intros k Hk. rewrite length_app. cbn. apply Hw in Hk. lia.
    - intros p l' E. by destruct (Hr p l').
    - intros k r Hk. rewrite length_app. cbn. destruct (Hs k r Hk) as [Hin|[-> _]]; [apply K13 in Hin|]; lia.
    - intros k m' Hk Hlook Hcrit. destruct (Hs k _ Hk) as [Hin|[-> Hc]].
      + pose proof (K13 _ _ Hin) as Hlt. rewrite lookup_app_l in Hlook by done. rewrite take_app_le by lia. by eapply K14.
      + rewrite lookup_app_r, Nat.sub_diag in Hlook by lia. injection Hlook as <-. rewrite Hc in Hcrit by done. done.
    - by rewrite Es. }
  unfold call. case_eq (lost h); intros El.
  - unfold inst_ok. cbn. apply Hgen; [by right|intros k Hk; apply K11 in Hk; lia|done|done|by exists []; rewrite app_nil_r|].
    intros k r [Hin|Hin]%elem_of_app; [by left|]. apply list_elem_of_singleton in Hin. injection Hin as -> ->. by right.
  - destruct (critical m) eqn:Ec; unfold inst_ok; cbn.
    + apply Hgen; [by left| | |done|by eexists|by intros k r ?; left].
      * intros k [Hk|Hk]%elem_of_app; [apply K11 in Hk; lia|]. apply list_elem_of_singleton in Hk. injection Hk as ->. lia.
      * intros p l' E. destruct l' as [|w l' _] using rev_ind.
        -- apply app_inj_tail in E as [_ E]. done.
        -- rewrite app_comm_cons, (assoc_L (++)) in E. apply app_inj_tail in E as [E _]. by destruct (Hnoret p l').
    + apply Hgen; [by left|intros k Hk; apply K11 in Hk; lia|done|done|by exists []; rewrite app_nil_r|].
      intros k r [Hin|Hin]%elem_of_app; [by left|]. apply list_elem_of_singleton in Hin. injection Hin as -> ->. by right.
Qed.

Lemma held_ok_lost v segs base sent i st h : held_ok v segs base sent i st h → held_ok v segs base sent i st (set_lease (version h) true h).
Proof.
  intros [K1 K2 K3 K4 K5 K6 K7 K8 K9 K10 K11 K12 K13 K14 K15]. split; cbn; try done. destruct (progress h) as [|plain|n]; [done|..].
  - destruct K10 as (ms & (Hms & Hp & Hfe & Hdirty & Hhead) & E & Hc). exists ms. by split_and!.
  - destruct K10 as (ms & (Hms & Hp & Hfe & Hdirty & Hhead) & E). exists ms. by split_and!.
Qed.

Lemma held_ok_renewal v segs base sent i st h t n : held_ok v segs base sent i st h → held_ok v segs base sent i st (set_renewal t n h).
Proof. intros [K1 K2 K3 K4 K5 K6 K7 K8 K9 K10 K11 K12 K13 K14 K15]. by split. Qed.

(** The last flush, if asked for, is asked for while returning. *)
Lemma held_ok_stage v segs base sent i st st' h : held_ok v segs base sent i st h → (∀ r, st ≠ Returning r) → acquiring st' = false →
  (succeeded st' = true → succeeded st = true) → held_ok v segs base sent i st' h.
Proof.
  intros [K1 K2 K3 K4 K5 K6 K7 K8 K9 K10 K11 K12 K13 K14 K15] Hr Ha Hs. split; try done.
  - intros l l' E. destruct (K12 l l' E) as (_ & r & Er). by destruct (Hr r).
  - intros Es. by apply K15, Hs.
Qed.

Lemma returned_ok v segs base sent i (x : instance T) h result : in_stage x = Running →
  held_ok v segs base sent i (in_stage x) h → inst_ok v segs base sent i (returned result h x).
Proof.
  intros Es [K1 K2 K3 K4 K5 K6 K7 K8 K9 K10 K11 K12 K13 K14 K15]. unfold inst_ok. cbn. split; cbn; try done.
  - destruct (progress h) as [|plain|n]; [done|..].
    + destruct K10 as (ms & (Hms & Hp & Hfe & Hdirty & Hhead) & E & Hc). exists ms. split_and!; try done. split_and!; try done. cbn. by destruct (flushing h) as [|[k|] rest].
    + destruct K10 as (ms & (Hms & Hp & Hfe & Hdirty & Hhead) & E). exists ms. split_and!; try done. split_and!; try done. cbn. by destruct (flushing h) as [|[k|] rest].
  - intros k [Hk|Hk]%elem_of_app; [by apply K11|]. by apply list_elem_of_singleton in Hk.
  - intros l l' E. split; [|by eexists]. destruct l' as [|w l' _] using rev_ind; [done|]. rewrite app_comm_cons, (assoc_L (++)) in E.
    apply app_inj_tail in E as [E _]. destruct (K12 l l' E) as (_ & r & Er). congruence.
Qed.

Lemma not_held_no_calls segs base sent y i x : inv segs base sent y → instances y !! i = Some x → in_held x = None →
  calls_of y i = [] ∧ ∀ n ms, sent !! n = Some (i, ms) → False.
Proof.
  intros Hinv Ex Eh. assert (calls_of y i = []) as Hc by (unfold calls_of; rewrite Ex; cbn; by rewrite Eh). split; [done|]. intros n ms Hn.
  destruct (lookup_lt_is_Some_2 (requests y) n) as [q Hq]; [rewrite <-(iv_sent _ _ _ _ Hinv); by eapply lookup_lt_Some|].
  destruct (iv_requests _ _ _ _ Hinv n q i ms Hq Hn) as (Hne & Hpre & _). rewrite Hc in Hpre. by apply prefix_nil_inv in Hpre.
Qed.

(** ** Steps of the server *)

Lemma new_instance_ok segs base sent y : inv segs base sent y → inv segs base sent (start o y).
Proof.
  intros Hinv. pose proof Hinv as [Hb Hi Hs Hk Hn Hr Ha Hx].
  assert (∀ j, calls_of (start o y) j = calls_of y j) as Hcalls.
  { intros j. unfold calls_of, start. cbn [instances]. destruct (instances y !! j) as [x|] eqn:Ex.
    - by rewrite (lookup_app_l_Some _ _ _ _ Ex).
    - apply lookup_ge_None in Ex. rewrite lookup_app_r by done. by destruct (j - _)%nat as [|[|k]]. }
  split; try done.
  - intros i ms Hin. rewrite Hcalls. by apply Hs.
  - intros n q i ms Hq Hsent. rewrite Hcalls. by apply (Hr n q).
  - intros i x Ex. cbn [start instances] in Ex. apply lookup_app_Some in Ex as [Ex|[Hge Ex]]; [by apply Hx|].
    apply list_lookup_singleton_Some in Ex as [_ <-]. cbn. split_and!; [|done|done]. intros ms Hin. destruct (Hs _ _ Hin) as [Hne Hpre].
    unfold calls_of in Hpre. rewrite (lookup_ge_None_2 (instances y)) in Hpre by done. cbn in Hpre. by apply prefix_nil_inv in Hpre.
Qed.

(** The server gives the lease and the state it has. *)
Lemma granted_ok segs base sent y i x n grant : inv segs base sent y → instances y !! i = Some x → in_held x = None →
  in_stage x = Acquiring n None →
  let l := (λ t, {| ls_token := t; ls_version := sv_version y; ls_blob := sv_blob y |}) <$> grant in
  inv segs (λ j, if decide (j = i) then segs else base j) sent (set_instance i (at_stage (Acquiring n (Some l)) x) y).
Proof.
  intros Hinv Ex Eh Es l. destruct (not_held_no_calls _ _ _ _ _ _ Hinv Ex Eh) as [_ Hnone]. pose proof Hinv as [Hb Hi Hs Hk Hn Hr Ha Hx].
  set (base' := λ j, if decide (j = i) then segs else base j).
  assert (∀ j, j ≠ i → base' j = base j) as Hother by (intros j Hj; unfold base'; by rewrite decide_False).
  assert (inv segs base' sent y) as Hinv'.
  { assert (inst_ok (sv_version y) segs (base' i) sent i x) as Hxi.
    { pose proof (Hx i x Ex) as Hxi. unfold inst_ok in *. rewrite Eh in *. destruct Hxi as (Hni & Hns & _). rewrite Es. by split_and!. }
    split; try done.
    - intros m q j ms Hq Hj. destruct (decide (j = i)) as [->|Hne]; [by apply Hnone in Hj|]. rewrite Hother by done. by apply (Hr m q).
    - intros m v Hm. destruct (Ha m v Hm) as (j & ms & Hj & Hrest). exists j, ms. split; [done|].
      destruct (decide (j = i)) as [->|Hne]; [by apply Hnone in Hj|]. by rewrite Hother.
    - intros j z Hz. destruct (decide (j = i)) as [->|Hne]; [rewrite Ex in Hz; by injection Hz as <-|]. rewrite Hother by done. by apply Hx. }
  apply (inv_local _ _ _ _ _ x); [done|done| |].
  - pose proof (Hx i x Ex) as Hxi. unfold inst_ok in *. cbn [at_stage in_held in_stage]. rewrite Eh in *. destruct Hxi as (Hni & Hns & _). split_and!; [done|done|].
    unfold l. destruct grant as [t|]; [|done]. cbn. unfold base'. rewrite decide_True by done. split_and!; try done; apply extends_refl.
  - cbn. rewrite Eh. unfold calls_of. rewrite Ex. cbn. by rewrite Eh.
Qed.


Lemma acquired_ok segs base sent y i x n answer : inv segs base sent y → instances y !! i = Some x → in_held x = None →
  in_stage x = Acquiring n (Some answer) → inv segs base sent (set_instance i (acquired o (now y) n answer x) y).
Proof.
  intros Hinv Ex Eh Es. pose proof (iv_instances _ _ _ _ Hinv i x Ex) as Hxi. destruct (not_held_no_calls _ _ _ _ _ _ Hinv Ex Eh) as [Hcalls _].
  apply (inv_local _ _ _ _ _ x); [done|done| |rewrite Hcalls; apply prefix_nil].
  unfold inst_ok in Hxi. rewrite Eh, Es in Hxi. destruct Hxi as (Hni & Hns & Hl). unfold acquired. destruct answer as [l|].
  - destruct Hl as (Hv & Hopen & Hok & Hext & Hcur). rewrite Hopen. unfold inst_ok. cbn. split; cbn; try done.
    + intros ms Hin. by apply Hni in Hin.
    + intros E. exists []. split; [done|]. by apply Hcur.
    + intros _ _ _. by left.
    + intros k Hk. by apply not_elem_of_nil in Hk.
    + by intros [|? ?] ?.
    + intros k r Hk. by apply not_elem_of_nil in Hk.
  - case_match; unfold inst_ok; cbn; rewrite Eh; by split_and!.
Qed.

(** A request leaves with the calls that its link captured. *)
Lemma sealed_ok segs base sent y i x h plain nonce : inv segs base sent y → instances y !! i = Some x → in_held x = Some h →
  progress h = Sealing plain → length nonce = 12%nat → ∃ ms,
  inv segs base (sent ++ [(i, ms)])
    (send_write {| wr_token := hs_token h; wr_version := version h; wr_blob := seal nonce (lo_sealKey o) (lease_aad o) plain |}
       (set_instance i (with_held (set_flush (dirty h) (flushing h) (Writing (length (requests y))) (flush_error h) h) x) y)).
Proof.
  intros Hinv Ex Eh Ep Hn. pose proof (iv_instances _ _ _ _ Hinv i x Ex) as Hxi. unfold inst_ok in Hxi. rewrite Eh in Hxi.
  pose proof Hxi as [K1 K2 K3 K4 K5 K6 K7 K8 K9 K10 K11 K12 K13 K14 K15]. rewrite Ep in K10.
  destruct K10 as (ms & (Hms & Hp & Hfe & Hdirty & Hhead) & E & Hc). exists ms.
  assert (calls_of y i = calls h) as Hcalls by (unfold calls_of; rewrite Ex; cbn; by rewrite Eh).
  set (x' := with_held _ x). set (q := {| wr_token := _ |}).
  pose proof Hinv as [Lb Li Ls Lk Ln Lr La Lx].
  assert (∀ j, calls_of (send_write q (set_instance i x' y)) j = calls_of y j) as Hsame.
  { intros j. change (calls_of (set_instance i x' y) j = calls_of y j). rewrite (calls_of_set i x x' y j Ex). case_decide; [subst j; by rewrite Hcalls|done]. }
  assert (open_state o (Some (wr_blob q)) = Ok (run_calls max (replay max (base i)) ms)) as Hopen.
  { unfold open_state, q. cbn [wr_blob]. rewrite open_sealed by done. subst plain. apply fromBytes_toBytes. apply run_calls_ok; [|by apply replay_ok].
    destruct Hp as [t Ht]. rewrite Ht in K3. by apply Forall_app in K3 as [? _]. }
  split; try done.
  - intros j l Hin. rewrite Hsame. by apply Ls.
  - cbn. rewrite !length_app. cbn. lia.
  - intros m q' j l Hq Hj. rewrite Hsame. cbn [send_write requests set_instance] in Hq. apply lookup_app_Some in Hq as [Hq|[Hge Hq]].
    + apply (Lr m q'); [done|]. rewrite lookup_app_l in Hj; [done|]. rewrite Ln. by eapply lookup_lt_Some.
    + apply list_lookup_singleton_Some in Hq as [Hz <-]. rewrite lookup_app_r, Ln, Hz in Hj by lia. injection Hj as <- <-.
      split_and!; [done|by rewrite Hcalls|done|done|]. cbn. done.
  - intros m v Hm. destruct (La m v Hm) as (j & l & Hj & Hrest). exists j, l. split; [by apply lookup_app_l_Some|done].
  - intros j z Hz. cbn [send_write instances set_instance] in Hz.
    assert (∀ st hh, held_ok (sv_version y) segs (base j) sent j st hh → held_ok (sv_version y) segs (base j) (sent ++ [(i, ms)]) j st hh) as Hsent.
    { intros st hh [P1 P2 P3 P4 P5 P6 P7 P8 P9 P10 P11 P12 P13 P14 P15]. split; try done. destruct (progress hh) as [|pl|k]; [done..|].
      destruct P10 as (l & Hl & Hk). exists l. split; [done|]. by apply lookup_app_l_Some. }
    destruct (decide (j = i)) as [->|Hne].
    + rewrite list_lookup_insert_eq in Hz by (by eapply lookup_lt_Some). injection Hz as <-. unfold inst_ok. cbn. split; cbn; try done.
      exists ms. split; [by split_and!|]. rewrite lookup_app_r, Ln, Nat.sub_diag by lia. done.
    + rewrite list_lookup_insert_ne in Hz by done. specialize (Lx j z Hz). unfold inst_ok in *. destruct (in_held z) as [hh|]; [by apply Hsent|done].
Qed.

Lemma prefix_other (l l' : list segment) i j ms ms' : i ≠ j → l ++ [(i, ms)] `prefix_of` l' ++ [(j, ms')] → l ++ [(i, ms)] `prefix_of` l'.
Proof.
  intros Hne [k E]. destruct k as [|e k _] using rev_ind.
  - rewrite app_nil_r in E. apply app_inj_tail in E as [_ [= ? _]]. congruence.
  - rewrite (assoc_L (++)) in E. apply app_inj_tail in E as [-> _]. by eexists.
Qed.

(** The server accepts a request: its instance's segment grows or is added. *)
Lemma accepted_ok segs base sent y n q : inv segs base sent y → requests y !! n = Some q → wr_version q = sv_version y →
  ∃ segs', inv segs' base sent (serve (next_version (sv_version y)) (Some (wr_blob q)) n (Some (next_version (sv_version y))) y) ∧ extends segs segs'.
Proof.
  intros Hinv Hq Hv. destruct (lookup_lt_is_Some_2 sent n) as [[j ms] Hj]; [rewrite (iv_sent _ _ _ _ Hinv); by eapply lookup_lt_Some|].
  destruct (iv_requests _ _ _ _ Hinv n q j ms Hq Hj) as (Hms & Hpre & _ & Hopen & Hcur). destruct (Hcur Hv) as (ms0 & Hms0 & Eseg).
  exists (own (base j) j ms). assert (extends segs (own (base j) j ms)) as Hext by (rewrite Eseg; by apply extends_own). split; [|done].
  pose proof Hinv as [Lb Li Ls Lk Ln Lr La Lx]. pose proof (Hnext (sv_version y)) as Hlt.
  assert (own (base j) j ms = base j ++ [(j, ms)]) as Eown by (by destruct ms).
  assert (∃ z h, instances y !! j = Some z ∧ in_held z = Some h ∧ calls_of y j = calls h) as (z & h & Ez & Eh & Ec).
  { unfold calls_of in *. destruct (instances y !! j) as [z|]; [|by apply prefix_nil_inv in Hpre]. cbn [mbind option_bind] in *.
    destruct (in_held z) as [h|] eqn:Eh; [|by apply prefix_nil_inv in Hpre]. by exists z, h. }
  pose proof (Lx j z Ez) as Hz. unfold inst_ok in Hz. rewrite Eh in Hz.
  assert (∀ l, (j, l) ∉ base j) as Hnotin.
  { intros l Hin. assert ((j, l) ∈ segs) as Hin' by (rewrite Eseg; destruct ms0; [done|]; apply elem_of_app; by left).
    pose proof (ho_placed _ _ _ _ _ _ _ Hz l Hin') as Hp. destruct ms0 as [|m0 ms0]; cbn in Eseg; subst segs.
    - destruct Hp as [t E]. rewrite <-(assoc_L (++)) in E. apply (f_equal length) in E. rewrite length_app in E. cbn in E. lia.
    - rewrite fmap_app in Li. apply NoDup_app in Li as (_ & Hd & _). eapply (Hd j); [|by left]. apply list_elem_of_fmap. by exists (j, l). }
  assert (∀ i l, i ≠ j → (i, l) ∈ own (base j) j ms → (i, l) ∈ segs) as Hold.
  { intros i l Hne Hin. rewrite Eown in Hin. apply elem_of_app in Hin as [Hin|Hin]; [|apply list_elem_of_singleton in Hin; congruence].
    rewrite Eseg. destruct ms0; [done|]. apply elem_of_app. by left. }
  assert (∀ i st hh, held_ok (sv_version y) segs (base i) sent i st hh →
    held_ok (next_version (sv_version y)) (own (base j) j ms) (base i) sent i st hh) as Hheld.
  { intros i st hh [P1 P2 P3 P4 P5 P6 P7 P8 P9 P10 P11 P12 P13 P14 P15]. split; try done.
    - by eapply extends_trans.
    - intros l Hin. destruct (decide (i = j)) as [->|Hne].
      + rewrite Eown in Hin |- *. apply elem_of_app in Hin as [Hin|Hin]; [by apply Hnotin in Hin|]. apply list_elem_of_singleton in Hin. by injection Hin as ->.
      + pose proof (P6 l (Hold i l Hne Hin)) as Hp. rewrite Eown. rewrite Eseg in Hp. apply prefix_app_r.
        destruct ms0 as [|m0 ms0]; [done|]. by eapply prefix_other.
    - lia.
    - intros E. lia.
    - destruct (progress hh) as [|plain|k].
      + intros E1 E2 E3. eapply committed_extends; [exact Hext|]. by apply P10.
      + destruct P10 as (l & Hl & El & _). exists l. split_and!; try done. intros E. lia.
      + exact P10.
    - intros k m E1 E2 E3. eapply committed_extends; [exact Hext|]. by eapply P14.
    - intros E. eapply committed_extends; [exact Hext|]. by apply P15. }
  split; cbn [serve sv_version sv_blob requests answers instances].
  - rewrite replay_own. exact Hopen.
  - rewrite Eown, fmap_app. apply NoDup_app. split_and!.
    + rewrite Eseg in Li. destruct ms0; [done|]. cbn in Li. rewrite fmap_app in Li. by apply NoDup_app in Li as (? & _).
    + intros i Hi Hi'. apply list_elem_of_singleton in Hi' as ->. apply list_elem_of_fmap in Hi as ([k l] & E & Hin). cbn in E. subst k. by apply Hnotin in Hin.
    + apply NoDup_singleton.
  - intros i l Hin. change (calls_of (serve _ _ _ _ y) i) with (calls_of y i). destruct (decide (i = j)) as [->|Hne]; [|by apply Ls, Hold].
    rewrite Eown in Hin. apply elem_of_app in Hin as [Hin|Hin]; [by apply Hnotin in Hin|]. apply list_elem_of_singleton in Hin. by injection Hin as ->.
  - rewrite Eown. apply Forall_app. split; [exact (ho_base _ _ _ _ _ _ _ Hz)|]. apply Forall_singleton. cbn.
    pose proof (ho_calls _ _ _ _ _ _ _ Hz) as Hok. rewrite <-Ec in Hok. destruct Hpre as [t Et]. rewrite Et in Hok. by apply Forall_app in Hok as [? _].
  - done.
  - intros n' q' i l Hq' Hi. destruct (Lr n' q' i l Hq' Hi) as (H1' & H2' & H3' & H4' & _). split_and!; try done; [lia|]. intros E. lia.
  - intros n' v [Hin|Hin]%elem_of_app.
    + destruct (La n' v Hin) as (i & l & Hi & Hle & _ & Hcom). exists i, l. split_and!; [done|lia|intros E; lia|]. by eapply committed_extends.
    + apply list_elem_of_singleton in Hin. injection Hin as -> ->. exists j, ms. split_and!; [done|lia|done|apply committed_own].
  - intros i x Ex. specialize (Lx i x Ex). unfold inst_ok in *. destruct (in_held x) as [hh|] eqn:Ehx; [by apply Hheld|].
    destruct Lx as (Hni & Hns & Hl). split_and!; [|done|].
    + intros l Hin. destruct (decide (i = j)) as [->|Hne]; [rewrite Ez in Ex; congruence|]. by apply (Hni l), Hold.
    + destruct (in_stage x) as [k [[l|]|]| | | | | |]; try done. destruct Hl as (G1 & G2 & G3 & G4 & _). split_and!; [lia|done..| |intros E; lia].
      by eapply extends_trans.
Qed.

Definition event_ok (ev : lease_event T) : Prop := match ev with Call _ m => mutation_ok m | _ => True end.

Lemma held_stage segs base sent y i x h : inv segs base sent y → instances y !! i = Some x → in_held x = Some h →
  held_ok (sv_version y) segs (base i) sent i (in_stage x) h.
Proof. intros Hinv Ex Eh. pose proof (iv_instances _ _ _ _ Hinv i x Ex) as Hx. unfold inst_ok in Hx. by rewrite Eh in Hx. Qed.

Lemma acquiring_not_held segs base sent y i x : inv segs base sent y → instances y !! i = Some x → acquiring (in_stage x) = true → in_held x = None.
Proof.
  intros Hinv Ex Ha. destruct (in_held x) as [h|] eqn:Eh; [|done]. pose proof (ho_stage _ _ _ _ _ _ _ (held_stage _ _ _ _ _ _ _ Hinv Ex Eh)) as E. congruence.
Qed.

(** What a step leaves alone is enough for the invariant. *)
Lemma inv_held segs base sent y i x x' h : inv segs base sent y → instances y !! i = Some x → in_held x = Some h →
  inst_ok (sv_version y) segs (base i) sent i x' → (∃ h', in_held x' = Some h' ∧ calls h `prefix_of` calls h') →
  inv segs base sent (set_instance i x' y).
Proof.
  intros Hinv Ex Eh Hx' (h' & Eh' & Hpre). apply (inv_local _ _ _ _ _ x); [done|done|done|]. rewrite Eh'. unfold calls_of. rewrite Ex. cbn. by rewrite Eh.
Qed.

Lemma inv_stage segs base sent y i x st : inv segs base sent y → instances y !! i = Some x → in_held x = None →
  succeeded st = false → (∀ n l, st ≠ Acquiring n (Some l)) → inv segs base sent (set_instance i (at_stage st x) y).
Proof.
  intros Hinv Ex Eh Hs Ha. pose proof (iv_instances _ _ _ _ Hinv i x Ex) as Hx. apply (inv_local _ _ _ _ _ x); [done|done| |].
  - unfold inst_ok in *. cbn [at_stage in_held in_stage]. rewrite Eh in *. destruct Hx as (Hni & _ & _). split_and!; [done|done|].
    destruct st as [n [l|]| | | | | |]; try done. by destruct (Ha n l).
  - cbn [at_stage in_held]. rewrite Eh. destruct (not_held_no_calls _ _ _ _ _ _ Hinv Ex Eh) as [-> _]. done.
Qed.

Lemma settle_held w r h (x : instance T) : ∃ h', in_held (settle w r h x) = Some h' ∧ calls h' = calls h.
Proof. unfold settle. destruct w as [k|]; cbn; destruct (in_stage x) as [| | | |out [|n]| |]; cbn; by eexists. Qed.

Lemma proceed_held h (x : instance T) : in_held x = Some h → ∃ h', in_held (proceed h x) = Some h' ∧ calls h' = calls h.
Proof.
  intros Eh. unfold proceed. repeat case_match; try (by exists h); try (by eexists);
    unfold end_link; match goal with |- context [settle ?w ?r ?hh x] => destruct (settle_held w r hh x) as (h' & E & Ec) end; by exists h'.
Qed.

Lemma written_held a h (x : instance T) : in_held x = Some h → ∃ h', in_held (written a h x) = Some h' ∧ calls h' = calls h.
Proof.
  intros Eh. unfold written. repeat case_match; try (by exists h);
    unfold end_link; match goal with |- context [settle ?w ?r ?hh x] => destruct (settle_held w r hh x) as (h' & E & Ec) end; by exists h'.
Qed.

Lemma step_ok segs base sent y ev : inv segs base sent y → event_ok ev →
  ∃ segs' base' sent', inv segs' base' sent' (step o next_version y ev) ∧ extends segs segs'.
Proof.
  intros Hinv Hev. assert (∀ y', inv segs base sent y' → ∃ segs' base' sent', inv segs' base' sent' y' ∧ extends segs segs') as Same.
  { intros y' Hy. exists segs, base, sent. split; [exact Hy|apply extends_refl]. }
  destruct ev as [ms| |i grant|i|i|i|i m|i|i nonce|n live|i answer|i|i|i ok|i result|i e|i|i]; cbn [step];
    try (unfold on_stage, on_held; destruct (instances y !! i) as [x|] eqn:Ex; [|by apply Same]);
    try (destruct (in_held x) as [h|] eqn:Eh; [|by apply Same]; pose proof (held_stage _ _ _ _ _ _ _ Hinv Ex Eh) as Hh).
  - apply Same. destruct Hinv. by split.
  - apply Same. by apply new_instance_ok.
  - destruct (in_stage x) as [n [a|]| | | | | |] eqn:Es; try by apply Same.
    assert (in_held x = None) as Eh by (eapply acquiring_not_held; [done..|by rewrite Es]).
    eexists segs, _, sent. split; [by eapply granted_ok|apply extends_refl].
  - destruct (in_stage x) as [n [a|]| | | | | |] eqn:Es; try by apply Same.
    assert (in_held x = None) as Eh by (eapply acquiring_not_held; [done..|by rewrite Es]). apply Same. by apply acquired_ok.
  - destruct (in_stage x) as [n a| | | | | |] eqn:Es; try by apply Same.
    assert (in_held x = None) as Eh by (eapply acquiring_not_held; [done..|by rewrite Es]). apply Same. by apply inv_stage.
  - destruct (in_stage x) as [|n until| | | | |] eqn:Es; try by apply Same. case_match; [|by apply Same].
    assert (in_held x = None) as Eh by (eapply acquiring_not_held; [done..|by rewrite Es]). apply Same. by apply inv_stage.
  - destruct (in_stage x) eqn:Es; try by apply Same. apply Same. apply (inv_held _ _ _ _ _ x _ h); [done..| |].
    + apply call_ok; [done..|by rewrite Es].
    + unfold call. repeat case_match; eexists; (split; [done|cbn; by eexists]).
  - apply Same. apply (inv_held _ _ _ _ _ x _ h); [done..|by apply proceed_ok|]. destruct (proceed_held h x Eh) as (h' & E & Ec). exists h'. by rewrite Ec.
  - destruct (progress h) as [|plain|k] eqn:Ep; try by apply Same. case_match; [|by apply Same].
    destruct (sealed_ok _ _ _ _ _ _ _ _ nonce Hinv Ex Eh Ep) as [ms Hms]; [by apply Nat.eqb_eq|].
    eexists segs, base, _. split; [exact Hms|apply extends_refl].
  - destruct (requests y !! n) as [q|] eqn:Eq; [|by apply Same]. destruct (live && (wr_version q =? sv_version y)) eqn:El.
    + apply andb_prop in El as [_ El]. apply Z.eqb_eq in El. destruct (accepted_ok _ _ _ _ _ _ Hinv Eq El) as (segs' & Hs & He). by exists segs', base, sent.
    + apply Same. destruct Hinv as [Lb Li Ls Lk Ln Lr La Lx]. split; try done. intros k v [Hin|Hin]%elem_of_app; [by apply La|].
      by apply list_elem_of_singleton in Hin.
  - destruct (progress h) as [|plain|k] eqn:Ep; try by apply Same. case_bool_decide as Hin; [|by apply Same]. apply Same.
    apply (inv_held _ _ _ _ _ x _ h); [done..| |destruct (written_held (Some answer) h x Eh) as (h' & E & Ec); exists h'; by rewrite Ec].
    apply (written_ok _ _ _ _ _ _ _ k); [done..|]. intros w ms [= ->] Hsent. destruct (iv_answers _ _ _ _ Hinv k w Hin) as (j & l & Hj & Hle & Hcur & Hcom).
    rewrite Hsent in Hj. by injection Hj as <- <-.
  - destruct (progress h) as [|plain|k] eqn:Ep; try by apply Same. apply Same.
    apply (inv_held _ _ _ _ _ x _ h); [done..| |destruct (written_held None h x Eh) as (h' & E & Ec); exists h'; by rewrite Ec].
    by apply (written_ok _ _ _ _ _ _ _ k).
  - destruct (renew_at h); [|by apply Same]. case_match; [|by apply Same]. apply Same.
    apply (inv_held _ _ _ _ _ x _ h); [done..|by apply held_ok_renewal|by eexists].
  - destruct (renewing h) as [|k]; [by apply Same|]. apply Same. apply (inv_held _ _ _ _ _ x _ h); [done..| |].
    + unfold inst_ok. cbn. destruct ok as [[]|]; try by apply held_ok_renewal. exact (held_ok_lost _ _ _ _ _ _ _ (held_ok_renewal _ _ _ _ _ _ _ _ _ Hh)).
    + cbn. eexists. split; [done|]. by destruct ok as [[]|].
  - destruct (in_stage x) eqn:Es; try by apply Same. apply Same.
    apply (inv_held _ _ _ _ _ x _ h); [done..|apply returned_ok; [done|by rewrite Es]|by eexists].
  - destruct (in_stage x) eqn:Es; try by apply Same. apply Same. apply (inv_held _ _ _ _ _ x _ h); [done..| |by eexists].
    unfold inst_ok. cbn. eapply held_ok_renewal, held_ok_stage; [exact Hh|by intros r|done|done].
  - destruct (in_stage x) as [| | | |out [|k]| |] eqn:Es; try by apply Same. apply Same.
    assert (∀ st, acquiring st = false → (succeeded st = true → succeeded (in_stage x) = true) → inv segs base sent (set_instance i (at_stage st x) y)) as Hst.
    { intros st Ha Hs. apply (inv_held _ _ _ _ _ x _ h); [done..| |exists h; split; [by cbn; rewrite Eh|done]]. unfold inst_ok. cbn [at_stage in_held in_stage].
      rewrite Eh. eapply held_ok_stage; [exact Hh|by intros r|done|intros E; apply Hs in E; by rewrite Es in E]. }
    destruct (lost h); [apply Hst; [done|by rewrite Es]|]. assert (inv segs base sent (set_instance i (at_stage (Releasing out) x) y)) as Hr by (apply Hst; [done|by rewrite Es]).
    destruct Hr. by split.
  - destruct (in_stage x) as [| | | | |out|] eqn:Es; try by apply Same. apply Same.
    destruct (in_held x) as [h|] eqn:Eh.
    + pose proof (held_stage _ _ _ _ _ _ _ Hinv Ex Eh) as Hh. apply (inv_held _ _ _ _ _ x _ h); [done..| |exists h; split; [by cbn; rewrite Eh|done]].
      unfold inst_ok. cbn [at_stage in_held in_stage]. rewrite Eh. eapply held_ok_stage; [exact Hh|by rewrite Es|done|by rewrite Es].
    + apply inv_stage; [done..| |done]. pose proof (iv_instances _ _ _ _ Hinv i x Ex) as Hx. unfold inst_ok in Hx. rewrite Eh, Es in Hx. destruct Hx as (_ & Hx & _).
      by destruct out.
Qed.

Lemma run_ok evs : ∀ segs base sent y, inv segs base sent y → Forall event_ok evs →
  ∃ segs' base' sent', inv segs' base' sent' (run o next_version y evs) ∧ extends segs segs'.
Proof.
  induction evs as [|ev evs IH]; intros segs base sent y Hinv Hev; [exists segs, base, sent; split; [done|apply extends_refl]|].
  inversion Hev; subst. destruct (step_ok _ _ _ _ ev Hinv) as (s1 & b1 & t1 & H1' & E1); [done|].
  destruct (IH s1 b1 t1 _ H1') as (s2 & b2 & t2 & H2' & E2); [done|]. exists s2, b2, t2. split; [exact H2'|by eapply extends_trans].
Qed.

Lemma fresh_ok t v : inv [] (λ _, []) [] (fresh t v).
Proof.
  split; try done.
  - constructor.
  - intros i ms Hin. by apply not_elem_of_nil in Hin.
  - constructor.
  - intros n v' Hin. by apply not_elem_of_nil in Hin.
Qed.

(** [segs] is the history of a system: one segment for each instance that got calls
    accepted, the beginning of its calls. *)
Record serial (y : system) (segs : list segment) : Prop := {
  sr_state : open_state o (sv_blob y) = Ok (replay max segs);
  sr_ids : NoDup segs.*1;
  sr_calls : ∀ i ms, (i, ms) ∈ segs → ms ≠ [] ∧ ms `prefix_of` calls_of y i;
  sr_store : ∀ i x h, instances y !! i = Some x → in_held x = Some h → ∃ base, extends base segs
    ∧ store h = run_calls max (replay max base) (calls h) ∧ ∀ ms, (i, ms) ∈ segs → base ++ [(i, ms)] `prefix_of` segs;
  sr_acknowledged : ∀ i x h k m, instances y !! i = Some x → in_held x = Some h →
    (k, Ok tt) ∈ settled h → calls h !! k = Some m → critical m = true → committed segs i (take (S k) (calls h));
  sr_ended : ∀ i x h r, instances y !! i = Some x → in_held x = Some h → in_stage x = Ended (Ok r) → committed segs i (calls h);
}.

Lemma inv_serial segs base sent y : inv segs base sent y → serial y segs.
Proof.
  intros Hinv. pose proof Hinv as [Lb Li Ls Lk Ln Lr La Lx]. split; try done.
  - intros i x h Ex Eh. destruct (held_stage _ _ _ _ _ _ _ Hinv Ex Eh) as [K1 K2 K3 K4 K5 K6 K7 K8 K9 K10 K11 K12 K13 K14 K15]. by exists (base i).
  - intros i x h k m Ex Eh. apply (held_stage _ _ _ _ _ _ _ Hinv Ex Eh).
  - intros i x h r Ex Eh Es. apply (held_stage _ _ _ _ _ _ _ Hinv Ex Eh). by rewrite Es.
Qed.

(** C5.  The instances that act for a hosted device act one after the other.  Whatever
    the instances do, whenever leases expire, requests are lost, delayed or repeated:
    the state on the server is that of a history in which each instance appears at
    most once, with the beginning of the calls it made, run on the state it opened;
    a device state whose saving resolved is in it, and so is all that an operation
    that ended well wrote.  Whatever happens next, the history is only continued: a
    later holder opens a state in which no saved device state is undone, except by a
    later one. *)
Theorem hosted_history (t v : Z) (evs later : list (lease_event T)) : Forall event_ok (evs ++ later) → ∃ segs segs',
  serial (run o next_version (fresh t v) evs) segs ∧ serial (run o next_version (fresh t v) (evs ++ later)) segs' ∧ extends segs segs'.
Proof.
  intros [Hevs Hlater]%Forall_app. destruct (run_ok evs _ _ _ _ (fresh_ok t v) Hevs) as (segs & base & sent & Hinv & _).
  destruct (run_ok later _ _ _ _ Hinv Hlater) as (segs' & base' & sent' & Hinv' & Hext). exists segs, segs'. split; [by eapply inv_serial|].
  split; [|done]. unfold run in *. rewrite foldl_app. by eapply inv_serial.
Qed.
End serial.

(** * The lease is waited for and given back *)

Section lease_life.
Context {T : Type} `{JsonNumbers} `{JsText} `{BackupCrypto} (o : lease_options) (next_version : Z → Z).

Notation system := (lease_system T).

(** The time slept before an attempt. *)
Definition slept (attempt : nat) : Z := foldr Z.add 0 (retry_ms <$> seq 0 attempt).

Definition at_work (st : lease_stage T) : bool := match st with Running | Returning _ | Finishing _ _ => true | _ => false end.

Definition life_ok (y : system) (x : instance T) : Prop :=
  match in_stage x with
  | Acquiring n _ => in_held x = None ∧ (n = 0%nat ∨ slept (pred n) < waitMs o) ∧ in_deadline x - waitMs o + slept n ≤ now y
  | Sleeping n until => in_held x = None ∧ slept n < waitMs o ∧ in_deadline x - waitMs o + slept (S n) ≤ until
  | Releasing _ => ∀ h, in_held x = Some h → hs_token h ∈ releases y
  | Ended _ => ∀ h, in_held x = Some h → lost h = true ∨ hs_token h ∈ releases y
  | _ => True
  end.

(** What work on the store changes of an instance. *)
Definition same_life (x x' : instance T) : Prop :=
  in_deadline x' = in_deadline x
  ∧ (in_stage x' = in_stage x ∨ at_work (in_stage x) = true ∧ at_work (in_stage x') = true)
  ∧ ∀ h', in_held x' = Some h' → ∃ h, in_held x = Some h ∧ hs_token h' = hs_token h ∧ (lost h = true → lost h' = true).

Lemma same_life_ok y x x' : same_life x x' → in_held x ≠ None → life_ok y x → life_ok y x'.
Proof.
  intros (Hd & Hst & Hh) Hsome Hx. unfold life_ok in *. destruct Hst as [Est|[Ew Ew']]; [|by destruct (in_stage x')].
  rewrite Est. destruct (in_stage x); try done; [by destruct Hx|by destruct Hx|..]; intros h' Eh'; destruct (Hh h' Eh') as (h & Eh & -> & Hl).
  - by apply Hx.
  - destruct (Hx h Eh); auto.
Qed.

Lemma settle_life w r h h0 (x : instance T) : in_held x = Some h0 → hs_token h = hs_token h0 → (lost h0 = true → lost h = true) → same_life x (settle w r h x).
Proof.
  intros Eh Et El. unfold settle, finishing, same_life. destruct w as [k|]; destruct (in_stage x) as [| | | |out [|n]| |] eqn:Es; cbn; rewrite ?Es; cbn;
    (split; [done|]); (split; [by auto|]); intros h' [= <-]; exists h0; cbn; auto.
Qed.

Lemma refl_life (x : instance T) : same_life x x.
Proof. split; [done|]. split; [by left|]. intros h Eh. by exists h. Qed.

Lemma held_life h h0 (x : instance T) : in_held x = Some h0 → hs_token h = hs_token h0 → (lost h0 = true → lost h = true) → same_life x (with_held h x).
Proof. intros Eh Et El. split; [done|]. split; [by left|]. intros h' [= <-]. by exists h0. Qed.

Lemma proceed_life h (x : instance T) : in_held x = Some h → same_life x (proceed h x).
Proof. intros Eh. unfold proceed, end_link. repeat case_match; try apply refl_life; try (by eapply settle_life); by eapply held_life. Qed.

Lemma written_life a h (x : instance T) : in_held x = Some h → same_life x (written a h x).
Proof. intros Eh. unfold written, end_link. repeat case_match; try apply refl_life; by eapply settle_life. Qed.

Lemma call_life m h (x : instance T) : in_held x = Some h → same_life x (call o m h x).
Proof. intros Eh. unfold call. repeat case_match; by eapply held_life. Qed.

Lemma life_mono y y' x : now y ≤ now y' → (∀ t, t ∈ releases y → t ∈ releases y') → life_ok y x → life_ok y' x.
Proof.
  intros Hn Hr. unfold life_ok. destruct (in_stage x); try done.
  - intros (? & ? & ?). split_and!; [done..|lia].
  - intros Hx h Eh. auto.
  - intros Hx h Eh. destruct (Hx h Eh); auto.
Qed.

Definition lives (y : system) : Prop := ∀ i x, instances y !! i = Some x → life_ok y x.

Lemma lives_set y i x x' : lives y → instances y !! i = Some x → life_ok y x' → lives (set_instance i x' y).
Proof.
  intros Hy Ex Hx' j z Ez. apply (life_mono y); [done|done|]. cbn [set_instance instances] in Ez. destruct (decide (j = i)) as [->|Hne].
  - rewrite list_lookup_insert_eq in Ez by (by eapply lookup_lt_Some). by injection Ez as <-.
  - rewrite list_lookup_insert_ne in Ez by done. by apply (Hy j).
Qed.

Lemma lives_held y i x h x' : lives y → instances y !! i = Some x → in_held x = Some h → same_life x x' → lives (set_instance i x' y).
Proof. intros Hy Ex Eh Hs. eapply lives_set; [done..|]. eapply same_life_ok; [done|by rewrite Eh|by eapply Hy]. Qed.

Lemma slept_S n : slept (S n) = slept n + retry_ms n.
Proof. unfold slept. rewrite seq_S, fmap_app, foldr_app. simpl. generalize (retry_ms <$> seq 0 n). intros l. induction l as [|a l IH]; simpl; lia. Qed.

Lemma retry_pos n : 200 ≤ retry_ms n ≤ 2000.
Proof. unfold retry_ms. assert (1 ≤ 2 ^ Z.of_nat n) by (pose proof (Z.pow_pos_nonneg 2 (Z.of_nat n)); lia). lia. Qed.

Lemma slept_mono n m : (n ≤ m)%nat → slept n ≤ slept m.
Proof. induction 1 as [|m Hm IH]; [done|]. rewrite slept_S. pose proof (retry_pos m). lia. Qed.

Lemma step_lives y ev : lives y → lives (step o next_version y ev).
Proof.
  intros Hy. destruct ev as [ms| |i grant|i|i|i|i m|i|i nonce|n live|i answer|i|i|i ok|i result|i e|i|i]; cbn [step];
    try (unfold on_stage, on_held; destruct (instances y !! i) as [x|] eqn:Ex; [|done]; pose proof (Hy i x Ex) as Hx);
    try (destruct (in_held x) as [h|] eqn:Eh; [|done]).
  - intros j z Ez. apply (life_mono y); [cbn; lia|done|by apply (Hy j)].
  - intros j z Ez. apply (life_mono y); [done|done|]. cbn [start instances] in Ez. apply lookup_app_Some in Ez as [Ez|[_ Ez]]; [by apply (Hy j)|].
    apply list_lookup_singleton_Some in Ez as [_ <-]. cbn. split_and!; [done|by left|lia].
  - destruct (in_stage x) as [n [a|]| | | | | |] eqn:Es; try done. eapply lives_set; [done..|]. unfold life_ok in *. rewrite Es in Hx. exact Hx.
  - destruct (in_stage x) as [n [a|]| | | | | |] eqn:Es; try done. eapply lives_set; [done..|]. unfold life_ok in Hx. rewrite Es in Hx.
    destruct Hx as (Eh & Hn & Ht). unfold acquired. destruct a as [l|].
    + destruct (open_state o (ls_blob l)); unfold life_ok; cbn [at_stage with_held in_stage in_held]; [done|]. intros h. by rewrite Eh.
    + destruct (in_deadline x <=? now y) eqn:E; unfold life_ok; cbn [at_stage in_stage in_held in_deadline]; bool_to_Z.
      * intros h. by rewrite Eh.
      * rewrite slept_S. split_and!; [done|lia|lia].
  - destruct (in_stage x) as [n a| | | | | |] eqn:Es; try done. eapply lives_set; [done..|]. unfold life_ok in *. rewrite Es in Hx. cbn. destruct Hx as (-> & _). done.
  - destruct (in_stage x) as [|n until| | | | |] eqn:Es; try done. case_match; [|done]. eapply lives_set; [done..|]. unfold life_ok in *. rewrite Es in Hx. cbn [at_stage in_stage in_held in_deadline].
    destruct Hx as (Eh & Hn & Ht). bool_to_Z. split_and!; [done|by right|lia].
  - destruct (in_stage x) eqn:Es; try done. eapply lives_held; [done..|by apply call_life].
  - eapply lives_held; [done..|by apply proceed_life].
  - destruct (progress h); try done. case_match; [|done]. intros j z Ez. apply (life_mono (set_instance i (with_held (set_flush (dirty h) (flushing h) (Writing (length (requests y))) (flush_error h) h) x) y)); [done|done|].
    eapply lives_held; [done..| |exact Ez]. by eapply held_life.
  - repeat case_match; intros j z Ez; try (by apply (Hy j)); (apply (life_mono y); [done|done|by apply (Hy j)]).
  - destruct (progress h); try done. case_match; [|done]. eapply lives_held; [done..|by apply written_life].
  - destruct (progress h); try done. eapply lives_held; [done..|by apply written_life].
  - repeat case_match; try done. eapply lives_held; [done..|by eapply held_life].
  - destruct (renewing h); [done|]. eapply lives_held; [done..|]. eapply held_life; [done|by destruct ok as [[]|]|by destruct ok as [[]|]].
  - destruct (in_stage x) eqn:Es; try done. eapply lives_set; [done..|]. by unfold life_ok.
  - destruct (in_stage x) eqn:Es; try done. eapply lives_set; [done..|]. by unfold life_ok.
  - destruct (in_stage x) as [| | | |out [|k]| |] eqn:Es; try done. destruct (lost h) eqn:El.
    + eapply lives_set; [done..|]. unfold life_ok. cbn. intros h' Eh'. rewrite Eh in Eh'. injection Eh' as <-. by left.
    + intros j z Ez. cbn [send_release set_instance instances] in Ez. destruct (decide (j = i)) as [->|Hne].
      * rewrite list_lookup_insert_eq in Ez by (by eapply lookup_lt_Some). injection Ez as <-. unfold life_ok. cbn. intros h' Eh'.
        rewrite Eh in Eh'. injection Eh' as <-. set_solver.
      * rewrite list_lookup_insert_ne in Ez by done. apply (life_mono y); [done|cbn; set_solver|by apply (Hy j)].
  - destruct (in_stage x) as [| | | | |out|] eqn:Es; try done. eapply lives_set; [done..|]. unfold life_ok in *. rewrite Es in Hx. cbn. auto.
Qed.

Lemma run_lives evs : ∀ y, lives y → lives (run o next_version y evs).
Proof. induction evs as [|ev evs IH]; intros y Hy; [done|]. simpl. by apply IH, step_lives. Qed.

Lemma found_lives t v blob : lives (found t v blob : system).
Proof. by intros i x Ex. Qed.

(** An instance whose run has ended without a store does nothing more. *)
Lemma ended_stays (y : system) i (x : instance T) out : instances y !! i = Some x → in_held x = None → in_stage x = Ended out →
  ∀ evs, instances (run o next_version y evs) !! i = Some x.
Proof.
  intros Ex Eh Es evs. revert y Ex. induction evs as [|ev evs IH]; intros y Ex; [done|]. simpl. apply IH.
  assert (∀ j z, j ≠ i → instances (set_instance j z y) !! i = Some x) as Hother by (intros j z Hj; cbn; by rewrite list_lookup_insert_ne).
  destruct ev as [ms| |j grant|j|j|j|j m|j|j nonce|n live|j answer|j|j|j ok|j result|j e|j|j]; cbn [step]; try done;
    try (unfold on_stage, on_held; destruct (decide (j = i)) as [->|Hne]; [rewrite Ex, ?Es, ?Eh; done|];
      destruct (instances y !! j) as [z|] eqn:Ez; [|done]; try (destruct (in_held z); [|done]); repeat case_match; try done; by apply Hother).
  - cbn. by apply lookup_app_l_Some.
  - repeat case_match; done.
Qed.


(** A busy lease is waited for in bounded time: with the default wait of 15 s, no
    run asks for the lease more than eleven times. *)
Theorem acquire_bounded (t v : Z) (blob : option bytes) (evs : list (lease_event T)) (i n : nat) (x : instance T) :
  lo_waitMs o = None → instances (run o next_version (found t v blob) evs) !! i = Some x →
  (∃ a, in_stage x = Acquiring n a) ∨ (∃ until, in_stage x = Sleeping n until) → (n ≤ 10)%nat.
Proof.
  intros Ew Ex Hst. pose proof (run_lives evs _ (found_lives t v blob) i x Ex) as Hx. unfold life_ok, waitMs in Hx. rewrite Ew in Hx. cbn in Hx.
  assert (slept 10 = 15000) as E10 by reflexivity. destruct (decide (n ≤ 10)%nat) as [|Hn]; [done|]. exfalso.
  pose proof (slept_mono 10 n). pose proof (slept_mono 10 (pred n)).
  destruct Hst as [[a Es]|[until Es]]; rewrite Es in Hx; destruct Hx as (_ & Hw & _); lia.
Qed.
End lease_life.

(** * Two instances of a device *)

#[local] Existing Instances integer_numbers integer_numbers_laws ascii_text MlsBackup.toy_backup_crypto MlsBackup.toy_backup_crypto_laws.

#[local] Definition toy_lease : lease_options := {|
  lo_sealKey := [7]; lo_owner := js "0xA"; lo_deviceId := js "d"; lo_maxRowsPerGroup := None; lo_waitMs := None; lo_renewEveryMs := None |}.
#[local] Definition toy_nonce : bytes := replicate 12 9.
#[local] Definition saves (b : Z) : mutation := SaveDevice ([b], js "d").

(** The first instance saves a device state. *)
#[local] Definition first_saves : list (lease_event nat) :=
  [Start; ServeAcquire 0 (Some (js "t0")); AcquireAnswer 0; Call 0 (saves 1); Proceed 0; Sealed 0 toy_nonce; ServeWrite 0 true; WriteAnswer 0 (Some 1)].

(** Its lease expires: a second instance takes over and saves; then the first tries
    to write again, and a write of the second is delivered twice. *)
#[local] Definition second_takes_over : list (lease_event nat) :=
  [Start; ServeAcquire 1 (Some (js "t1")); AcquireAnswer 1; Call 1 (saves 2); Proceed 1; Sealed 1 toy_nonce; ServeWrite 1 true; WriteAnswer 1 (Some 2);
   Call 0 (saves 3); Proceed 0; Sealed 0 toy_nonce; ServeWrite 2 true; WriteAnswer 0 None; ServeWrite 1 true;
   Return 1 5%nat; Proceed 1; Finish 1; ReleaseAnswer 1].

#[local] Notation toy_run := (run toy_lease Z.succ).

#[local] Definition stored_device (y : lease_system nat) : option bytes :=
  match open_state toy_lease (sv_blob y) with Ok s => fst <$> device s | Throw _ => None end.

Lemma hosted_history_witness : (∃ segs segs', serial toy_lease (toy_run (fresh 0 0) first_saves) segs
    ∧ serial toy_lease (toy_run (fresh 0 0) (first_saves ++ second_takes_over)) segs' ∧ extends segs segs')
  ∧ stored_device (toy_run (fresh 0 0) first_saves) = Some [1]
  ∧ stored_device (toy_run (fresh 0 0) (first_saves ++ second_takes_over)) = Some [2].
Proof.
  split; [|split; vm_compute; reflexivity]. apply hosted_history.
  - intros v. lia.
  - assert (∀ b, is_byte b → mutation_ok (saves b)) as Hs by (intros b Hb; split; [by apply Forall_singleton|apply wf_js]).
    repeat apply Forall_cons_2; try apply Forall_nil_2; try exact I; apply Hs; done.
Defined.


Lemma acquire_bounded_witness : ∃ x : instance nat,
  instances (toy_run (found 0 0 None) [Start; ServeAcquire 0 None; AcquireAnswer 0; Tick 200; Wake 0]) !! 0%nat = Some x ∧ in_stage x = Acquiring 1 None ∧ (1 ≤ 10)%nat.
Proof.
  set (evs := [Start; ServeAcquire 0 None; AcquireAnswer 0; Tick 200; Wake 0] : list (lease_event nat)).
  destruct (instances (toy_run (found 0 0 None) evs) !! 0%nat) as [x|] eqn:Ex; [|vm_compute in Ex; discriminate].
  assert (in_stage x = Acquiring 1 None) as Es by (vm_compute in Ex; injection Ex as <-; reflexivity).
  exists x. split; [reflexivity|]. split; [exact Es|]. apply (acquire_bounded toy_lease Z.succ 0 0 None evs 0 1 x eq_refl Ex). left. by exists None.
Defined.
