(* ===== verification/Attachments.v ===== *)
(** Attachments ([attachments/attachments-manager.ts]): files encrypted one by
    one, stored as a batch with a storage adapter, and read back.

    A manager works on the cache of data keys, the clock of its awaits and the
    storage service ([crypto]).  What the chain, the session, the random
    generator and the service answer at each await is [crypto_env]; a handle's
    [data] closure is the value it closes over ([handle_source]) with
    [handle_data] to run it. *)
From S2P Require Import Prelude JsString JsMap Utf8 TextDecoder Json Aad Encryption Envelope Verification HttpTransport HttpCalls.

#[local] Set Warnings "-notation-overridden".

Record AttachmentFile := { af_fileName : jsstr; af_mimeType : jsstr; af_data : bytes; af_extras : option (list (jsstr * json)) }.

(** Numbers of [AttachmentsConfig]. *)
Record AttachmentsConfig := { cf_maxAttachments : option Z; cf_maxFileSizeBytes : option Z; cf_maxTotalFileSizeBytes : option Z }.

Definition DEFAULT_MAX_ATTACHMENTS : Z := 10.
Definition DEFAULT_MAX_FILE_SIZE_BYTES : Z := 10 * 1024 * 1024.
Definition DEFAULT_MAX_TOTAL_FILE_SIZE_BYTES : Z := 50 * 1024 * 1024.
Definition FILE_V2_AAD : bytes := utf8_encode (js "myso-file-v2").

Definition maxAttachments (c : AttachmentsConfig) : Z := default DEFAULT_MAX_ATTACHMENTS (cf_maxAttachments c).
Definition maxFileSizeBytes (c : AttachmentsConfig) : Z := default DEFAULT_MAX_FILE_SIZE_BYTES (cf_maxFileSizeBytes c).
Definition maxTotalFileSizeBytes (c : AttachmentsConfig) : Z := default DEFAULT_MAX_TOTAL_FILE_SIZE_BYTES (cf_maxTotalFileSizeBytes c).

Inductive attachment_error `{EncryptionLib} :=
  | EncryptionError (e : enc_error)
  | AadError | HexError | JsonError | StorageError
  | NoFiles | TooManyFiles | FileTooLarge (fileName : jsstr) | TotalTooLarge.

(** What the outside answers at the [n]-th await; [None] rejects.  The storage
    adapter promises one id for each entry. *)
Record crypto_env `{EncryptionLib} := {
  cv_view : nat → view;
  cv_session : nat → outcome error Session;
  cv_random : nat → nat → bytes;                                                           (* length *)
  cv_upload : nat → list (jsstr * bytes) → option (list jsstr * option (list (jsstr * json)));
  cv_download : nat → jsstr → option bytes;
  cv_delete : bool;                                                                        (* the adapter can delete *)
}.

Inductive storage_request := Upload (entries : list (jsstr * bytes)) | DeleteEntries (ids : list jsstr).

(** The cache, the awaits so far, and what the storage service was asked, oldest first. *)
Record crypto `{DekCache} := Crypto { cr_cache : cache; cr_ticks : nat; cr_requests : list storage_request }.

(** The bytes of a handle. *)
Inductive handle_source {Ctx : Type} :=
  | FromGroup (groupId historyId : jsstr) (ctx : option Ctx) (storageId nonce : jsstr) (keyVersion : Z) (aad : option bytes)
  | FromEnvelope (id k n : jsstr).
Arguments handle_source : clear implicits.

(** [h_metadata] is the object the metadata decrypted to; the handle's fields are read from it. *)
Record AttachmentHandle {Ctx : Type} := {
  h_metadata : json; h_wire : Attachment; h_aadBound : bool; h_source : handle_source Ctx;
}.
Arguments AttachmentHandle : clear implicits.

Section manager.
Context `{JsonNumbers} `{JsText} `{Verification.HexCodec} `{EncryptionLib} `{MySoBcs} `{!DekCache} {Ctx : Type}.
Context (packageConfig : PackageConfig) (policy : MyDataPolicy Ctx) (env : crypto_env) (config : AttachmentsConfig).

#[local] Notation att := (eff crypto attachment_error).

(** ** Awaits *)

Definition ticked (s : crypto) : crypto := Crypto _ _ (cr_cache s) (S (cr_ticks s)) (cr_requests s).

(** [EnvelopeEncryption.encrypt] and [decrypt] for a group given by its ids. *)
Definition group_encrypt (g h : jsstr) (data : bytes) (version : option Z) (ctx : option Ctx) (aad : option bytes) : att EncryptedEnvelope := λ s,
  let t := cr_ticks s in
  let '(r, c) := encrypt packageConfig policy (cv_view env t) (cv_session env t) (IdsRef g h) data version ctx aad (cv_random env t 12) (cr_cache s) in
  (match r with Ok e => Ok e | Throw e => Throw (EncryptionError e) end, Crypto _ _ c (S t) (cr_requests s)).

Definition group_decrypt (g h : jsstr) (e : EncryptedEnvelope) (ctx : option Ctx) : att bytes := λ s,
  let t := cr_ticks s in
  let '(r, c) := decrypt packageConfig policy (cv_view env t) (cv_session env t) (IdsRef g h) e ctx (cr_cache s) in
  (match r with Ok b => Ok b | Throw e => Throw (EncryptionError e) end, Crypto _ _ c (S t) (cr_requests s)).

Definition or_error {A} (e : attachment_error) (o : option A) : att A := match o with Some a => mret a | None => throw e end.

Definition await_random (n : nat) : att bytes := s ← get_state; modify ticked;; mret (cv_random env (cr_ticks s) n).

(** [storageAdapter.upload] *)
Definition store (entries : list (jsstr * bytes)) : att (list jsstr * option (list (jsstr * json))) :=
  s ← get_state;
  modify (λ s, Crypto _ _ (cr_cache s) (S (cr_ticks s)) (cr_requests s ++ [Upload entries]));;
  or_error StorageError (cv_upload env (cr_ticks s) entries).

Definition download (id : jsstr) : att bytes := s ← get_state; modify ticked;; or_error StorageError (cv_download env (cr_ticks s) id).

(** ** Limits *)

Definition file_size (f : AttachmentFile) : Z := Z.of_nat (length (af_data f)).

Fixpoint check_sizes (files : list AttachmentFile) (total : Z) : outcome attachment_error Z :=
  match files with
  | [] => Ok total
  | f :: files' =>
      if maxFileSizeBytes config <? file_size f then Throw (FileTooLarge (af_fileName f))
      else check_sizes files' (total + file_size f)
  end.

Definition validateFiles (files : list AttachmentFile) : outcome attachment_error unit :=
  if is_nil files then Throw NoFiles
  else if maxAttachments config <? Z.of_nat (length files) then Throw TooManyFiles
  else match check_sizes files 0 with
       | Throw e => Throw e
       | Ok total => if maxTotalFileSizeBytes config <? total then Throw TotalTooLarge else Ok tt
       end.

Definition validate (files : list AttachmentFile) : att unit := λ s, (validateFiles files, s).

(** ** Upload *)

(** [aadFor(role)]: [undefined] without a binding; it throws when an address is invalid. *)
Definition aadFor (binding : option AadParams) (role : AttachmentAadRole) : att (option bytes) :=
  match binding with
  | Some b => a ← or_error AadError (buildAttachmentAad b role); mret (Some a)
  | None => mret None
  end.

Fixpoint encrypt_files (g h : jsstr) (ctx : option Ctx) (binding : option AadParams) (files : list AttachmentFile) : att (list EncryptedEnvelope) :=
  match files with
  | [] => mret []
  | f :: files' =>
      a ← aadFor binding role_data;
      e ← group_encrypt g h (af_data f) (aad_keyVersion <$> binding) ctx a;
      es ← encrypt_files g h ctx binding files';
      mret (e :: es)
  end.

(** [{ ...m, ...extras }] *)
Definition spread (m extras : list (jsstr * json)) : list (jsstr * json) := foldl (λ m e, map_set e.1 e.2 m) m extras.

Definition file_metadata (f : AttachmentFile) (uploaded : option (list (jsstr * json))) : json :=
  JObj ([(js "fileName", JStr (af_fileName f)); (js "mimeType", JStr (af_mimeType f)); (js "fileSize", JNum (Int (file_size f)))]
        ++ match af_extras f, uploaded with
           | None, None => []
           | e, u => [(js "extras", JObj (spread (spread [] (default [] u)) (default [] e)))]
           end).

Fixpoint encrypt_metadata (g h : jsstr) (ctx : option Ctx) (binding : option AadParams) (uploaded : option (list (jsstr * json)))
    (l : list (AttachmentFile * EncryptedEnvelope)) (ids : list jsstr) : att (list Attachment) :=
  match l with
  | [] => mret []
  | (f, e) :: l' =>
      a ← aadFor binding role_meta;
      m ← group_encrypt g h (utf8_encode (stringify (file_metadata f uploaded))) (aad_keyVersion <$> binding) ctx a;
      id ← or_error StorageError (head ids);
      rest ← encrypt_metadata g h ctx binding uploaded l' (tail ids);
      mret ({| storageId := id; att_nonce := toHex (Encryption.nonce e); encryptedMetadata := toHex (Encryption.ciphertext m);
               metadataNonce := toHex (Encryption.nonce m) |} :: rest)
  end.

Definition upload (files : list AttachmentFile) (g h : jsstr) (ctx : option Ctx) (binding : option AadParams) : att (list Attachment) :=
  validate files;;
  es ← encrypt_files g h ctx binding files;
  up ← store (zip_with (λ f e, (af_fileName f, Encryption.ciphertext e)) files es);
  encrypt_metadata g h ctx binding up.2 (zip files es) up.1.

(** ** Resolve *)

(** [try { decrypt with the AAD } catch { without }]: whether the AAD opened it, and the bytes. *)
Definition decrypt_meta (g h : jsstr) (ctx : option Ctx) (ciphertext nonce : bytes) (keyVersion : Z) (aad : option bytes) : att (bool * bytes) :=
  let env a := {| Encryption.ciphertext := ciphertext; Encryption.nonce := nonce; Encryption.keyVersion := keyVersion; Encryption.aad := a |} in
  let plain := b ← group_decrypt g h (env None) ctx; mret (false, b) in
  match aad with
  | None => plain
  | Some a =>
      try_catch (b ← group_decrypt g h (env (Some a)) ctx; mret (true, b))
        (λ e, match e with EncryptionError (EncryptionAccessDeniedError _) => throw e | _ => plain end)
  end.

(** [JSON.parse]; reading a property of [null] throws too. *)
Definition parse_metadata (b : bytes) : option json := v ← json_parse (text_decode b); if is_null v then None else Some v.

Definition resolve_one (g h : jsstr) (keyVersion : Z) (ctx : option Ctx) (binding : option AadParams) (a : Attachment) : att (AttachmentHandle Ctx) :=
  ct ← or_error HexError (fromHex (encryptedMetadata a));
  n ← or_error HexError (fromHex (metadataNonce a));
  metaAad ← aadFor binding role_meta;
  r ← decrypt_meta g h ctx ct n keyVersion metaAad;
  metadata ← or_error JsonError (parse_metadata r.2);
  dataAad ← (if (r.1 : bool) then aadFor binding role_data else mret None);
  mret {| h_metadata := metadata; h_wire := a; h_aadBound := r.1;
          h_source := FromGroup g h ctx (storageId a) (att_nonce a) keyVersion dataAad |}.

(** [binding] carries the parent message's key version. *)
Fixpoint resolve_each (g h : jsstr) (keyVersion : Z) (ctx : option Ctx) (binding : option AadParams) (l : list Attachment) : att (list (AttachmentHandle Ctx)) :=
  match l with
  | [] => mret []
  | a :: l' => x ← resolve_one g h keyVersion ctx binding a; xs ← resolve_each g h keyVersion ctx binding l'; mret (x :: xs)
  end.

Definition resolve (l : list Attachment) (g h : jsstr) (keyVersion : Z) (ctx : option Ctx) (binding : option (jsstr * jsstr)) : att (list (AttachmentHandle Ctx)) :=
  resolve_each g h keyVersion ctx
    ((λ b, {| aad_groupId := b.1; aad_keyVersion := keyVersion; aad_senderAddress := b.2 |}) <$> binding) l.

(** ** Content envelope v2 *)

Definition lib_call {A} (o : outcome error A) : att A := match o with Ok a => mret a | Throw e => throw (EncryptionError (LibError e)) end.

Fixpoint seal_files (files : list AttachmentFile) : att (list (bytes * bytes * bytes)) :=
  match files with
  | [] => mret []
  | f :: files' =>
      k ← await_random 32;
      n ← await_random 12;
      d ← lib_call (aesGcmEncrypt k (af_data f) n (Some FILE_V2_AAD));
      rest ← seal_files files';
      mret ((k, n, d) :: rest)
  end.

Definition envelope_attachment (f : AttachmentFile) (x : bytes * bytes * bytes) (id : jsstr) : EnvelopeAttachment := {|
  att_id := id; att_k := toHex x.1.1; att_n := toHex x.1.2; att_name := af_fileName f; att_mime := af_mimeType f;
  att_size := Int (file_size f); att_poster := None; att_dur := None; att_w := None; att_h := None |}.

Fixpoint envelope_attachments (l : list (AttachmentFile * (bytes * bytes * bytes))) (ids : list jsstr) : att (list EnvelopeAttachment) :=
  match l with
  | [] => mret []
  | (f, x) :: l' => id ← or_error StorageError (head ids); rest ← envelope_attachments l' (tail ids); mret (envelope_attachment f x id :: rest)
  end.

Definition uploadV2 (files : list AttachmentFile) : att (list EnvelopeAttachment) :=
  validate files;;
  es ← seal_files files;
  up ← store (imap (λ i e, (js "f" ++ dec (Z.of_nat i), e.2)) es);
  envelope_attachments (zip files es) up.1.

Definition resolveV2_one (r : EnvelopeAttachment) : AttachmentHandle Ctx := {|
  h_metadata := JObj [(js "fileName", JStr (att_name r)); (js "mimeType", JStr (att_mime r)); (js "fileSize", JNum (att_size r));
    (js "extras", JObj (opt_field "poster" (poster_json <$> att_poster r) ++ opt_field "durationMs" (JNum <$> att_dur r)
                        ++ opt_field "width" (JNum <$> att_w r) ++ opt_field "height" (JNum <$> att_h r)))];
  h_wire := {| storageId := att_id r; att_nonce := att_n r; encryptedMetadata := []; metadataNonce := [] |};
  h_aadBound := true; h_source := FromEnvelope (att_id r) (att_k r) (att_n r) |}.

Definition resolveV2 (refs : list EnvelopeAttachment) : list (AttachmentHandle Ctx) := resolveV2_one <$> refs.

Definition downloadV2Blob (id k n : jsstr) : att bytes :=
  encrypted ← download id;
  k ← or_error HexError (fromHex k);
  n ← or_error HexError (fromHex n);
  lib_call (aesGcmDecrypt k encrypted n (Some FILE_V2_AAD)).

(** [handle.data()] *)
Definition handle_data (h : AttachmentHandle Ctx) : att bytes :=
  match h_source h with
  | FromGroup g hist ctx id n keyVersion aad =>
      encrypted ← download id;
      n ← or_error HexError (fromHex n);
      group_decrypt g hist {| Encryption.ciphertext := encrypted; Encryption.nonce := n; Encryption.keyVersion := keyVersion; Encryption.aad := aad |} ctx
  | FromEnvelope id k n => downloadV2Blob id k n
  end.

(** ** Deletion, best effort *)

Definition deleteStorageEntries (ids : list jsstr) : att unit :=
  if is_nil ids || negb (cv_delete env) then mret tt else
  modify (λ s, Crypto _ _ (cr_cache s) (S (cr_ticks s)) (cr_requests s ++ [DeleteEntries ids])).
End manager.

(** * Limits *)

Section limits.
Context `{JsonNumbers} `{JsText} `{Verification.HexCodec} `{EncryptionLib} `{MySoBcs} `{!DekCache} {Ctx : Type}.
Context (config : AttachmentsConfig).

Definition total_size (files : list AttachmentFile) : Z := foldr (λ f n, file_size f + n) 0 files.

Lemma check_sizes_spec files : ∀ n t, check_sizes config files n = Ok t ↔ Forall (λ f, file_size f ≤ maxFileSizeBytes config) files ∧ t = n + total_size files.
Proof.
  induction files as [|f files IH]; intros n t; simpl.
  - split; [intros [= <-]; split; [constructor|lia]|intros [_ ->]; f_equal; lia].
  - destruct (Z.ltb_spec (maxFileSizeBytes config) (file_size f)) as [Hf|Hf]; rewrite ?IH, Forall_cons; split; try done; intros; destruct_and?; split_and?; try done; lia.
Qed.

(** What an upload may be. *)
Definition within_limits (files : list AttachmentFile) : Prop :=
  files ≠ [] ∧ Z.of_nat (length files) ≤ maxAttachments config ∧ Forall (λ f, file_size f ≤ maxFileSizeBytes config) files
  ∧ total_size files ≤ maxTotalFileSizeBytes config.

Lemma validateFiles_spec files : validateFiles config files = Ok tt ↔ within_limits files.
Proof.
  unfold validateFiles, within_limits. destruct files as [|f files]; [by split; [|intros [? _]]|]. cbn [is_nil].
  destruct (Z.ltb_spec (maxAttachments config) (Z.of_nat (length (f :: files)))) as [Hn|Hn]; [by split; [|intros (_ & ? & _); lia]|].
  destruct (check_sizes config (f :: files) 0) as [t|e] eqn:E.
  - apply check_sizes_spec in E as [Hf ->]. destruct (Z.ltb_spec (maxTotalFileSizeBytes config) (0 + total_size (f :: files))).
    + by split; [|intros (_ & _ & _ & ?); lia].
    + split; [|done]. intros _. split_and!; [done|done|done|lia].
  - split; [done|]. intros (_ & _ & Hf & _). assert (check_sizes config (f :: files) 0 = Ok (0 + total_size (f :: files))) as E' by (by apply check_sizes_spec).
    congruence.
Qed.
End limits.

(** * Round trip *)

(** Keys, random bytes and ciphertexts are bytes. *)
Record byte_world `{EncryptionLaws} (w : view) (history : jsstr → jsstr) (env : crypto_env) : Prop := {
  random_wf t n : wf_bytes (cv_random env t n);
  keys_wf g v d : published w history g v d → wf_bytes d;
  ciphertext_wf k m n a c : wf_bytes k → wf_bytes m → wf_bytes n → from_option (λ b, wf_bytes b) True a →
    aesGcmEncrypt k m n a = Ok c → wf_bytes c;
}.

Lemma aad_eta (b : AadParams) :
  {| aad_groupId := aad_groupId b; aad_keyVersion := aad_keyVersion b; aad_senderAddress := aad_senderAddress b |} = b.
Proof. by destruct b. Qed.

Lemma zip_names `{EncryptionLib} files es : length files = length es → (zip_with (λ f e, (af_fileName f, Encryption.ciphertext e)) files es).*1 = af_fileName <$> files.
Proof. revert es. induction files as [|f files IH]; intros [|e es] Hl; try done. csimpl. f_equal. apply IH. by injection Hl. Qed.

Section roundtrip.
Context `{JsonNumbersLaws} `{JsText} `{HexCodecLaws} `{EncryptionLaws} `{MySoBcs} `{!DekCache} `{!DekCacheLaws} {Ctx : Type}.
Context (packageConfig : PackageConfig) (w : view) (history : jsstr → jsstr).

(** At each await, the session of [env] resolves the key of version [v] of group [g]. *)
Definition can_read (policy : MyDataPolicy Ctx) (env : crypto_env) (ctx : option Ctx) (g : jsstr) (v : Z) : Prop :=
  ∀ t c, coherent w history c → ∃ s d, cv_session env t = Ok s ∧ (resolveDEK policy (cv_view env t) g (history g) v s ctx c).1 = Ok d.

Definition truthful (env : crypto_env) : Prop := ∀ t, sees w history (cv_view env t).

Lemma ids_ref g : resolveGroupRef packageConfig (IdsRef g (history g)) = Some (g, history g, None).
Proof. done. Qed.

Lemma group_encrypt_coherent (policy : MyDataPolicy Ctx) env g data ver ctx a s : truthful env → coherent w history (cr_cache s) →
  coherent w history (cr_cache (group_encrypt packageConfig policy env g (history g) data ver ctx a s).2).
Proof.
  intros Hw Hc. unfold group_encrypt.
  pose proof (encrypt_coherent packageConfig w history _ policy (cv_session env (cr_ticks s)) (IdsRef g (history g)) data ver ctx a
    (cv_random env (cr_ticks s) 12) _ g None (Hw (cr_ticks s)) Hc (ids_ref g)) as Hc'.
  by destruct (encrypt _ _ _ _ _ _ _ _ _ _ _) as [r c].
Qed.

Lemma group_decrypt_coherent (policy : MyDataPolicy Ctx) env g e ctx s : truthful env → coherent w history (cr_cache s) →
  coherent w history (cr_cache (group_decrypt packageConfig policy env g (history g) e ctx s).2).
Proof.
  intros Hw Hc. unfold group_decrypt.
  pose proof (decrypt_coherent packageConfig w history _ policy (cv_session env (cr_ticks s)) (IdsRef g (history g)) e ctx _ g None
    (Hw (cr_ticks s)) Hc (ids_ref g)) as Hc'.
  by destruct (decrypt _ _ _ _ _ _ _ _) as [r c].
Qed.

Lemma group_encrypt_sealed (policy : MyDataPolicy Ctx) env g data ver ctx a s e s' : truthful env → coherent w history (cr_cache s) →
  group_encrypt (Ctx := Ctx) packageConfig policy env g (history g) data ver ctx a s = (Ok e, s') →
  coherent w history (cr_cache s') ∧ sealed_for w history g data e ∧ (∃ t, Encryption.nonce e = cv_random env t 12) ∧ Encryption.aad e = a
  ∧ (∀ v, ver = Some v → Encryption.keyVersion e = v) ∧ cr_requests s' = cr_requests s.
Proof.
  intros Hw Hc. unfold group_encrypt. destruct (encrypt _ _ _ _ _ _ _ _ _ _ _) as [[e'|x] c] eqn:E; [|done]. intros [= -> <-].
  destruct (encrypt_sealed packageConfig w history _ _ _ _ _ _ _ _ _ _ _ _ g None (Hw (cr_ticks s)) Hc (ids_ref g) E) as (Hc' & Hs & Hn & Ha & Hv).
  split_and!; try done. by eexists.
Qed.

Lemma group_decrypt_sealed (policy : MyDataPolicy Ctx) env g data ctx s e : truthful env → coherent w history (cr_cache s) → sealed_for w history g data e →
  can_read policy env ctx g (Encryption.keyVersion e) →
  ∃ s', group_decrypt packageConfig policy env g (history g) e ctx s = (Ok data, s') ∧ coherent w history (cr_cache s').
Proof.
  intros Hw Hc He Hr. destruct (Hr (cr_ticks s) _ Hc) as (ss & d & Es & Ed). unfold group_decrypt. rewrite Es.
  pose proof (decrypt_sealed packageConfig w history _ policy ss (IdsRef g (history g)) data ctx _ e g None (Hw (cr_ticks s)) Hc (ids_ref g) He (ex_intro _ _ Ed)) as E.
  pose proof (decrypt_coherent packageConfig w history _ policy (Ok ss) (IdsRef g (history g)) e ctx _ g None (Hw (cr_ticks s)) Hc (ids_ref g)) as Hc'.
  destruct (decrypt _ _ _ _ _ _ _ _) as [r c]. simpl in E, Hc'. subst r. by eexists.
Qed.

(** ** Sending *)

Context (env : crypto_env) (policy : MyDataPolicy Ctx) (b : AadParams) (ctx : option Ctx).
Context (Htruth : truthful env) (Hbytes : byte_world w history env)
  (Haad : ∀ role a, buildAttachmentAad b role = Some a → wf_bytes a).
#[local] Notation g := (aad_groupId b).

(** [e] seals [data] under the binding's [role]. *)
Definition sealed_as (role : AttachmentAadRole) (data : bytes) (e : EncryptedEnvelope) : Prop :=
  sealed_for w history g data e ∧ Encryption.keyVersion e = aad_keyVersion b ∧ Encryption.aad e = buildAttachmentAad b role
  ∧ is_Some (Encryption.aad e) ∧ wf_bytes (Encryption.nonce e) ∧ (wf_bytes data → wf_bytes (Encryption.ciphertext e)).

Lemma encrypt_as role data s e s' : coherent w history (cr_cache s) →
  (a ← aadFor (Some b) role; group_encrypt packageConfig policy env g (history g) data (aad_keyVersion <$> Some b) ctx a) s = (Ok e, s') →
  coherent w history (cr_cache s') ∧ sealed_as role data e ∧ cr_requests s' = cr_requests s.
Proof.
  intros Hc. unfold aadFor. destruct (buildAttachmentAad b role) as [a|] eqn:Ea; [|done]. intros E.
  apply (group_encrypt_sealed _ _ _ _ _ _ _ _ _ _ Htruth Hc) in E as (Hc' & Hs & [t Hn] & Ha & Hv & Hq). split; [done|]. split; [|done].
  split; [done|]. split; [by apply Hv|]. split; [by rewrite Ha, Ea|]. split; [by rewrite Ha|]. split; [rewrite Hn; apply (random_wf _ _ _ Hbytes)|].
  intros Hdata. destruct Hs as (d & Hd & He). eapply (ciphertext_wf _ _ _ Hbytes); [by eapply (keys_wf _ _ _ Hbytes)|exact Hdata| | |exact He].
  - rewrite Hn. apply (random_wf _ _ _ Hbytes).
  - rewrite Ha. simpl. by eapply Haad.
Qed.

Lemma encrypt_files_spec files : ∀ s es s', coherent w history (cr_cache s) →
  encrypt_files packageConfig policy env g (history g) ctx (Some b) files s = (Ok es, s') →
  coherent w history (cr_cache s') ∧ Forall2 (λ f e, sealed_as role_data (af_data f) e) files es ∧ cr_requests s' = cr_requests s.
Proof.
  induction files as [|f files IH]; intros s es s' Hc E; [by injection E as <- <-|]. cbn [encrypt_files] in E.
  apply bind_ok_inv in E as (a & s1 & Ea & E). apply bind_ok_inv in E as (e & s2 & Ee & E). apply bind_ok_inv in E as (es' & s3 & Ees & [= <- <-]).
  destruct (encrypt_as role_data (af_data f) s e s2 Hc) as (Hc2 & Hf & Hq); [by rewrite (bind_ok _ _ _ _ _ Ea)|].
  destruct (IH s2 es' s3 Hc2 Ees) as (Hc3 & Hfs & Hq3). split; [done|]. split; [by constructor|congruence].
Qed.

(** An attachment made for [f], whose data is sealed as [e] and stored as [id]. *)
Definition attached (uploaded : option (list (jsstr * json))) (f : AttachmentFile) (e : EncryptedEnvelope) (id : jsstr) (a : Attachment) : Prop :=
  storageId a = id ∧ att_nonce a = toHex (Encryption.nonce e) ∧ ∃ m, sealed_as role_meta (utf8_encode (stringify (file_metadata f uploaded))) m
    ∧ encryptedMetadata a = toHex (Encryption.ciphertext m) ∧ metadataNonce a = toHex (Encryption.nonce m).

Lemma encrypt_metadata_spec uploaded l : ∀ ids s r s', coherent w history (cr_cache s) →
  encrypt_metadata packageConfig policy env g (history g) ctx (Some b) uploaded l ids s = (Ok r, s') →
  coherent w history (cr_cache s') ∧ cr_requests s' = cr_requests s
  ∧ length r = length l ∧ ∀ i x a, l !! i = Some x → r !! i = Some a → ∃ id, ids !! i = Some id ∧ attached uploaded x.1 x.2 id a.
Proof.
  induction l as [|[f e] l IH]; intros ids s r s' Hc E; [injection E as <- <-; split_and!; try done; by intros []|]. cbn [encrypt_metadata] in E.
  apply bind_ok_inv in E as (a & s1 & Ea & E). apply bind_ok_inv in E as (m & s2 & Em & E). apply bind_ok_inv in E as (id & s3 & Eid & E).
  apply bind_ok_inv in E as (rest & s4 & Er & [= <- <-]).
  destruct (encrypt_as role_meta (utf8_encode (stringify (file_metadata f uploaded))) s m s2 Hc) as (Hc2 & Hm & Hq); [by rewrite (bind_ok _ _ _ _ _ Ea)|].
  unfold or_error in Eid. destruct ids as [|id' ids]; [done|]. simpl in Eid. injection Eid as -> <-.
  destruct (IH ids s2 rest s4 Hc2 Er) as (Hc4 & Hq4 & Hlen & Hrest). split_and!; [done|congruence|simpl; congruence|].
  intros [|i] x y Hx Hy; [|by apply Hrest]. simpl in Hx, Hy. injection Hx as <-. injection Hy as <-. exists id. split; [done|].
  split; [done|]. split; [done|]. by exists m.
Qed.
(** ** Reading *)

Context (env' : crypto_env) (policy' : MyDataPolicy Ctx) (ctx' : option Ctx).
Context (Htruth' : truthful env') (Hread : can_read policy' env' ctx' g (aad_keyVersion b)).

Lemma sealed_as_eta role data e : sealed_as role data e →
  {| Encryption.ciphertext := Encryption.ciphertext e; Encryption.nonce := Encryption.nonce e;
     Encryption.keyVersion := aad_keyVersion b; Encryption.aad := buildAttachmentAad b role |} = e.
Proof. intros (_ & <- & <- & _). by destruct e. Qed.

Lemma decrypt_sealed_as role data e s : coherent w history (cr_cache s) → sealed_as role data e →
  ∃ s', group_decrypt packageConfig policy' env' g (history g) e ctx' s = (Ok data, s') ∧ coherent w history (cr_cache s').
Proof.
  intros Hc He. eapply group_decrypt_sealed; [done|done|apply He|]. destruct He as (_ & -> & _). exact Hread.
Qed.

(** The handle of the attachment [a] of [f]. *)
Definition handle_of (uploaded : option (list (jsstr * json))) (f : AttachmentFile) (a : Attachment) (h : AttachmentHandle Ctx) : Prop :=
  h_metadata h = file_metadata f uploaded ∧ h_wire h = a ∧ h_aadBound h = true
  ∧ h_source h = FromGroup g (history g) ctx' (storageId a) (att_nonce a) (aad_keyVersion b) (buildAttachmentAad b role_data).

Lemma resolve_one_spec uploaded f e id a s : coherent w history (cr_cache s) → json_ok (file_metadata f uploaded) →
  attached uploaded f e id a → sealed_as role_data (af_data f) e →
  ∃ h s', resolve_one packageConfig policy' env' g (history g) (aad_keyVersion b) ctx' (Some b) a s = (Ok h, s')
    ∧ coherent w history (cr_cache s') ∧ handle_of uploaded f a h.
Proof.
  intros Hc Hj (_ & _ & m & Hm & Ect & En) He. destruct (stringify_text_ok _ Hj) as [Hsw Hsu].
  pose proof (utf8_encode_wf _ Hsw Hsu) as Htext.
  destruct (decrypt_sealed_as role_meta _ m s Hc Hm) as (s' & Ed & Hc').
  pose proof (sealed_as_eta _ _ _ Hm) as Em. destruct Hm as (_ & _ & _ & [am Ham] & Hnw & Hcw). specialize (Hcw Htext).
  destruct He as (_ & _ & Hda & [ad Had] & _ & _).
  assert (buildAttachmentAad b role_meta = Some am) as Eam by (rewrite <-Em in Ham; exact Ham).
  assert (buildAttachmentAad b role_data = Some ad) as Ead by congruence.
  unfold resolve_one. rewrite Ect, En. unfold or_error at 1 2. rewrite !fromHex_toHex by done.
  rewrite (bind_ok _ _ s (Encryption.ciphertext m) s) by done. rewrite (bind_ok _ _ s (Encryption.nonce m) s) by done.
  rewrite (bind_ok _ _ s (Some am) s) by (unfold aadFor; by rewrite Eam).
  rewrite Eam in Em. rewrite (bind_ok _ _ s (true, utf8_encode (stringify (file_metadata f uploaded))) s').
  2: { unfold decrypt_meta, try_catch. cbv zeta. rewrite Em. by rewrite (bind_ok _ _ _ _ _ Ed). }
  rewrite (bind_ok _ _ s' (file_metadata f uploaded) s').
  2: { unfold parse_metadata. cbn [snd]. by rewrite text_stringify, json_parse_stringify by done. }
  rewrite (bind_ok _ _ s' (Some ad) s') by (unfold aadFor; cbn [fst]; by rewrite Ead).
  eexists _, s'. split; [done|]. split; [done|]. unfold handle_of. by rewrite Ead.
Qed.

(** The [i]-th sealed file is what the service has under the [i]-th id. *)
Definition kept (es : list EncryptedEnvelope) (attachments : list Attachment) : Prop :=
  ∀ i e a t, es !! i = Some e → attachments !! i = Some a → cv_download env' t (storageId a) = Some (Encryption.ciphertext e).

Lemma handle_data_spec uploaded f e id a h s : coherent w history (cr_cache s) → attached uploaded f e id a → sealed_as role_data (af_data f) e →
  handle_of uploaded f a h → (∀ t, cv_download env' t (storageId a) = Some (Encryption.ciphertext e)) →
  ∃ s', handle_data packageConfig policy' env' h s = (Ok (af_data f), s') ∧ coherent w history (cr_cache s').
Proof.
  intros Hc (_ & En & _) He (_ & _ & _ & Hsrc) Hdown. unfold handle_data, download. rewrite Hsrc, En.
  destruct (decrypt_sealed_as role_data (af_data f) e (ticked s) Hc He) as (s' & Ed & Hc').
  pose proof (sealed_as_eta _ _ _ He) as Ee. destruct He as (_ & _ & _ & _ & Hnw & _).
  rewrite (bind_ok _ _ s (Encryption.ciphertext e) (ticked s)) by (unfold mbind, eff_bind; simpl; by rewrite Hdown).
  rewrite (bind_ok _ _ (ticked s) (Encryption.nonce e) (ticked s)) by (by rewrite fromHex_toHex).
  rewrite Ee, Ed. by exists s'.
Qed.

Lemma resolve_each_spec uploaded l : ∀ s attachments (ids : list jsstr), coherent w history (cr_cache s) → length attachments = length l →
  Forall (λ x, json_ok (file_metadata x.1 uploaded) ∧ sealed_as role_data (af_data x.1) x.2) l →
  (∀ i x a, l !! i = Some x → attachments !! i = Some a → ∃ id, ids !! i = Some id ∧ attached uploaded x.1 x.2 id a) →
  ∃ hs s', resolve_each packageConfig policy' env' g (history g) (aad_keyVersion b) ctx' (Some b) attachments s = (Ok hs, s')
    ∧ coherent w history (cr_cache s') ∧ length hs = length l
    ∧ ∀ i x a h, l !! i = Some x → attachments !! i = Some a → hs !! i = Some h → handle_of uploaded x.1 a h.
Proof.
  induction l as [|x l IH]; intros s [|a attachments] ids Hc Hlen Hl Hatt; try done; [by exists [], s|].
  apply Forall_cons in Hl as [[Hj Hx] Hl]. injection Hlen as Hlen.
  destruct (Hatt 0%nat x a eq_refl eq_refl) as (id & _ & Ha).
  destruct (resolve_one_spec _ _ _ _ _ s Hc Hj Ha Hx) as (h & s1 & E1 & Hc1 & Hh).
  destruct (IH s1 attachments (tail ids) Hc1 Hlen Hl) as (hs & s2 & E2 & Hc2 & Hlen2 & Hhs).
  { intros i y c Hy Hcc. destruct (Hatt (S i) y c Hy Hcc) as (id' & Hid & Hat). exists id'. split; [|done]. by destruct ids. }
  exists (h :: hs), s2. cbn [resolve_each]. rewrite (bind_ok _ _ s h s1 E1), (bind_ok _ _ s1 hs s2 E2). split; [done|]. split; [done|].
  split; [simpl; congruence|]. intros [|i] y c k; simpl; [by intros [= <-] [= <-] [= <-]|by apply Hhs].
Qed.
(** What a reader gets from the handle of [f]. *)
Definition reads_back (f : AttachmentFile) (h : AttachmentHandle Ctx) : Prop :=
  h_aadBound h = true ∧ (∃ uploaded, h_metadata h = file_metadata f uploaded)
  ∧ ∀ k, coherent w history (cr_cache k) → ∃ k', handle_data packageConfig policy' env' h k = (Ok (af_data f), k') ∧ coherent w history (cr_cache k').

Lemma upload_parts config files attachments s s' : coherent w history (cr_cache s) →
  upload packageConfig policy env config files g (history g) ctx (Some b) s = (Ok attachments, s') →
  within_limits config files ∧ ∃ es n up, Forall2 (λ f e, sealed_as role_data (af_data f) e) files es
    ∧ cv_upload env n (zip_with (λ f e, (af_fileName f, Encryption.ciphertext e)) files es) = Some up
    ∧ cr_requests s' = cr_requests s ++ [Upload (zip_with (λ f e, (af_fileName f, Encryption.ciphertext e)) files es)]
    ∧ length attachments = length (zip files es)
    ∧ ∀ i x a, zip files es !! i = Some x → attachments !! i = Some a → ∃ id, up.1 !! i = Some id ∧ attached up.2 x.1 x.2 id a.
Proof.
  intros Hc (u & s0 & Hval & Hup)%bind_ok_inv. unfold validate in Hval. injection Hval as Hval <-. destruct u.
  split; [by apply validateFiles_spec|]. apply bind_ok_inv in Hup as (es & s1 & Hes & Hup).
  apply encrypt_files_spec in Hes as (Hc1 & Hes & Hq1); [|done]. apply bind_ok_inv in Hup as (up & s2 & Hst & Hup).
  unfold store in Hst. rewrite (bind_ok _ _ s1 s1 s1) in Hst by done.
  rewrite (bind_ok _ _ s1 tt (Crypto _ _ (cr_cache s1) (S (cr_ticks s1)) (cr_requests s1 ++ [Upload (zip_with (λ f e, (af_fileName f, Encryption.ciphertext e)) files es)])) eq_refl) in Hst. unfold or_error in Hst.
  destruct (cv_upload env (cr_ticks s1) _) as [up'|] eqn:Eup; [|done]. injection Hst as -> <-.
  exists es, (cr_ticks s1), up. split; [done|]. split; [done|].
  apply encrypt_metadata_spec in Hup as (_ & Hq & Hlen & Hatt); [|done]. simpl in Hq. split; [by rewrite Hq, Hq1|]. done.
Qed.

End roundtrip.

(** * Witness: one small file, and a service that keeps it *)

#[local] Existing Instances integer_numbers integer_numbers_laws ascii_text plain_hex plain_hex_laws plain_bcs plain_lib plain_laws plain_cache plain_cache_laws.

Definition one_key_view : view := {| getCurrentKeyVersion _ := Ok 3; encryptedKey _ _ := Ok [7; 7] |}.
Definition toy_file : AttachmentFile := {| af_fileName := js "a.txt"; af_mimeType := js "text/plain"; af_data := [104; 105]; af_extras := None |}.
Definition toy_limits : AttachmentsConfig := {| cf_maxAttachments := None; cf_maxFileSizeBytes := Some 4; cf_maxTotalFileSizeBytes := None |}.
Definition toy_kept : bytes := [7; 7] ++ repeat 5 12 ++ default [] (buildAttachmentAad toy_aad role_data) ++ [104; 105].
Definition toy_crypto_env : crypto_env := {|
  cv_view _ := one_key_view; cv_session _ := Ok alice; cv_random _ n := repeat 5 n;
  cv_upload _ entries := Some (imap (λ i _, js "blob" ++ dec (Z.of_nat i)) entries, Some [(js "epochs", JNum (Int 3))]);
  cv_download _ id := if bool_decide (id = js "blob0") then Some toy_kept else None; cv_delete := false |}.

Definition toy_start : crypto := Crypto _ _ ([] : @cache _ plain_cache) 0 [].

Notation toy_uploaded := (upload toy_config toy_policy toy_crypto_env toy_limits [toy_file] toy_group (js "0xc") None (Some toy_aad) toy_start).
Definition toy_attachments : list Attachment := Eval vm_compute in match toy_uploaded.1 with Ok l => l | Throw _ => [] end.

Lemma toy_aad_wf role a : buildAttachmentAad toy_aad role = Some a → wf_bytes a.
Proof.
  assert (wf_bytes (default [] (buildAttachmentAad toy_aad role))) as Hw by (destruct role; apply (bool_decide_unpack _); vm_compute; reflexivity).
  intros E. by rewrite E in Hw.
Qed.

Lemma toy_bytes : byte_world one_key_view (λ _, js "0xc") toy_crypto_env.
Proof.
  split.
  - intros t n. cbn [cv_random toy_crypto_env]. induction n as [|n IH]; simpl; [constructor|]. constructor; [|exact IH]. unfold is_byte. lia.
  - intros g v d (e & [= <-] & [= <-]). apply (bool_decide_unpack _). vm_compute. reflexivity.
  - intros k m n a c Hk Hm Hn Ha. simpl. intros [= <-]. repeat apply Forall_app_2; try done. by destruct a; [|constructor].
Qed.

Lemma toy_can_read v : can_read one_key_view (λ _, js "0xc") toy_policy toy_crypto_env None toy_group v.
Proof.
  intros t c Hc. exists alice, [7; 7]. split; [done|]. unfold resolveDEK, try_catch, mbind, eff_bind. simpl.
  destruct (assoc (dek_path toy_group v) c) as [d|] eqn:E; [|done]. simpl. f_equal.
  destruct (Hc _ _ _ E) as (e & [= <-] & [= <-]). done.
Qed.

Lemma toy_metadata_ok : json_ok (file_metadata toy_file (Some [(js "epochs", JNum (Int 3))])).
Proof.
  assert (file_metadata toy_file (Some [(js "epochs", JNum (Int 3))]) = JObj [(js "fileName", JStr (js "a.txt")); (js "mimeType", JStr (js "text/plain"));
    (js "fileSize", JNum (Int 2)); (js "extras", JObj [(js "epochs", JNum (Int 3))])]) as -> by reflexivity.
  repeat split; apply wf_js.
Qed.

