(* ===== verification/ClientMessage.v ===== *)
(** Reading a row ([client.ts]: [#decryptMessage], [#fromEnvelope],
    [#verifyRawMessage], [#resolveAttachments]): the checks, the decryption, and
    the message released to the application.

    Rows of the relayer are [Wire]'s [RelayerMessage]s.  A row of a device's MLS
    store is a JavaScript object ([rv]); [message_of_row] reads it at its type,
    and a stored object of another shape is not read. *)
From S2P Require Import Prelude JsString JsMap Utf8 TextDecoder Json Payments Aad Encryption Envelope Verification Wire RoomHistory HttpTransport HttpCalls MlsRows MlsTypes MlsCertificates MlsSession Attachments.

#[local] Set Warnings "-notation-overridden".

(** What the client throws, its calls' errors included. *)
Inductive client_error `{EncryptionLib} :=
  | CryptoFailed (e : attachment_error)
  | AttachmentResolutionError (cause : attachment_error)
  | SignFailed (e : sign_error)
  | MlsFailed (e : mls_error)
  | HistoryFailed (e : history_error)
  | PaymentFailed (e : payment_error)
  | GroupUnavailable (groupId : jsstr) (reason : MlsUnavailableReason)
  | WrongGroup | AadInvalid | UnresolvedRef | TransportFailed | ChainFailed
  | BlockCheckFailed | BlockedMessagingError
  | NothingToSend | AttachmentsNotConfigured | MissingSharedPost | MissingIdempotencyKey | MissingDigest | WrongTransferKey
  | MissingAssetKind | WrongRequestKey | MissingMessageId | BadEmoji
  | NotOnThisDevice | NotDecrypted | WrongMessage | SignerChanged | NotAReader | RecoveryNotConfigured
  | RelayerUrlMissing | NameTooLong.

(** ** The message given to the application *)

Record ClientMessage {Ctx : Type} := {
  m_messageId : jsstr; m_groupId : jsstr; m_order : number; m_text : jsstr; m_senderAddress : jsstr;
  m_createdAt : Z; m_updatedAt : Z; m_isEdited : bool; m_isDeleted : bool; m_syncStatus : jsstr;
  m_attachments : list (AttachmentHandle Ctx); m_attachmentIntegrity : Integrity; m_attributionIntegrity : Integrity;
  m_senderVerified : bool; m_principalOwner : option jsstr; m_subAgentId : option jsstr; m_identityClass : option Z;
  m_isAgentMessage : bool; m_kind : MessageKind; m_system : option SystemMessage;
  m_paymentMetadata : option PaymentMetadata; m_payment : option PaymentPayload; m_contentVersion : Z;
  m_event : option MessageEvent; m_envelopeAttachments : option (list EnvelopeAttachment);
}.
Arguments ClientMessage : clear implicits.

Definition payment_kind_of (k : MessageKind) : payment_kind :=
  match k with k_token_transfer => Payments.token_transfer | k_request_payment => Payments.request_payment | _ => other_kind end.

Definition kind_of_type (t : EnvelopeMessageType) : MessageKind :=
  match t with
  | text => k_text | poll => k_poll | post => k_post
  | Envelope.token_transfer => k_token_transfer | Envelope.request_payment => k_request_payment
  end.

Definition has_attribution (raw : RelayerMessage) : bool :=
  negb (is_nil (default [] (principalOwner raw))) || negb (is_nil (default [] (subAgentId raw)))
  || match identityClass raw with Some _ => true | None => false end.

(** The attribution a row's signature is checked with. *)
Definition row_attribution (raw : RelayerMessage) : option SignedMessageAttribution :=
  if has_attribution raw then Some {| Verification.principalOwner := non_empty (principalOwner raw);
    Verification.subAgentId := non_empty (subAgentId raw); Verification.identityClass := identityClass raw |}
  else None.

(** The state of a reference or an attribution that a version-2 signature may cover. *)
Definition integrity (present : bool) (raw : RelayerMessage) (senderVerified : bool) : Integrity :=
  if negb present then i_none
  else if negb (bool_decide (signatureVersion raw = Some 2)) then i_legacy_unverified
  else if negb senderVerified then i_signature_unverified else i_verified.

Section reading.
Context `{JsonNumbers} `{JsText} `{Verification.HexCodec} `{MySoCrypto} `{EncryptionLib} `{MySoBcs} `{!DekCache} {Ctx : Type}.
Context (packageConfig : PackageConfig) (policy : MyDataPolicy Ctx) (env : crypto_env) (attachmentsConfig : option AttachmentsConfig).

#[local] Notation reading := (eff crypto client_error).

Definition crypt {A} (f : attachment_error → client_error) (m : eff crypto attachment_error A) : reading A := λ s,
  let '(r, s') := m s in (match r with Ok a => Ok a | Throw e => Throw (f e) end, s').

Definition or_fail {S A} (e : client_error) (o : option A) : eff S client_error A := match o with Some a => mret a | None => throw e end.

(** ** [#verifyRawMessage] *)

Definition transfer_digest (raw : RelayerMessage) : option jsstr :=
  match kind raw, paymentMetadata raw with
  | k_token_transfer, Some (TransferMetadata d _ _ _ _ _ _) => Some d
  | _, _ => None
  end.

Definition canonical_of_row (raw : RelayerMessage) (version : Z) : CanonicalParams := {|
  Verification.groupId := groupId raw; Verification.kind := Some (kind_name (kind raw)); Verification.signatureVersion := Some version;
  Verification.encryptedText := encryptedText raw; Verification.nonce := nonce raw; Verification.keyVersion := keyVersion raw;
  sharedPostAddress := None; transferDigest := transfer_digest raw;
  idempotencyKey := transferIdempotencyKey (senderAddress raw) <$> non_empty (transfer_digest raw);
  Verification.attachments := Some (attachments raw); attribution := row_attribution raw |}.

Definition verifyRawMessage (raw : RelayerMessage) : bool :=
  let version := default 1 (signatureVersion raw) in
  if negb ((version =? 1) || (version =? 2)) then false
  else if is_nil (signature raw) || is_nil (publicKey raw) then false
  else verifyMessageSender (canonical_of_row raw version) (senderAddress raw) (signature raw) (publicKey raw).

(** ** [#fromEnvelope] *)

(** A message with a row's relayer fields; the other fields as given. *)
Definition message_base (raw : RelayerMessage) (version : Z) (senderVerified : bool) (attribution : Integrity) : ClientMessage Ctx := {|
  m_messageId := messageId raw; m_groupId := groupId raw; m_order := order raw; m_text := []; m_senderAddress := senderAddress raw;
  m_createdAt := createdAt raw; m_updatedAt := updatedAt raw; m_isEdited := isEdited raw; m_isDeleted := false;
  m_syncStatus := syncStatus raw; m_attachments := []; m_attachmentIntegrity := i_none; m_attributionIntegrity := attribution;
  m_senderVerified := senderVerified; m_principalOwner := principalOwner raw; m_subAgentId := subAgentId raw;
  m_identityClass := identityClass raw; m_isAgentMessage := isAgentMessage raw && bool_decide (attribution = i_verified);
  m_kind := k_text; m_system := None; m_paymentMetadata := paymentMetadata raw; m_payment := None; m_contentVersion := version;
  m_event := None; m_envelopeAttachments := None |}.

Definition with_content (txt : jsstr) (handles : list (AttachmentHandle Ctx)) (att : Integrity) (k : MessageKind) (pay : option PaymentPayload)
    (event : option MessageEvent) (refs : option (list EnvelopeAttachment)) (m : ClientMessage Ctx) : ClientMessage Ctx := {|
  m_messageId := m_messageId m; m_groupId := m_groupId m; m_order := m_order m; m_text := txt; m_senderAddress := m_senderAddress m;
  m_createdAt := m_createdAt m; m_updatedAt := m_updatedAt m; m_isEdited := m_isEdited m; m_isDeleted := m_isDeleted m;
  m_syncStatus := m_syncStatus m; m_attachments := handles; m_attachmentIntegrity := att; m_attributionIntegrity := m_attributionIntegrity m;
  m_senderVerified := m_senderVerified m; m_principalOwner := m_principalOwner m; m_subAgentId := m_subAgentId m;
  m_identityClass := m_identityClass m; m_isAgentMessage := m_isAgentMessage m; m_kind := k; m_system := m_system m;
  m_paymentMetadata := m_paymentMetadata m; m_payment := pay; m_contentVersion := m_contentVersion m;
  m_event := event; m_envelopeAttachments := refs |}.

Definition fromEnvelope (raw : RelayerMessage) (envelope : ContentEnvelope) (senderVerified resolveAttachments : bool) : ClientMessage Ctx :=
  let base := message_base raw 2 senderVerified (integrity (has_attribution raw) raw senderVerified) in
  if negb (bool_decide (kind_name (kind raw) = relayerKindForEnvelope envelope)) then base else
  match envelope with
  | Event e => with_content [] [] i_none k_event None (if senderVerified then Some e else None) None base
  | Message t txt att =>
      let refs := default [] att in
      let state := if is_nil refs then i_none else if senderVerified then i_verified else i_signature_unverified in
      let handles := if resolveAttachments && bool_decide (state = i_verified) && bool_decide (is_Some attachmentsConfig)
                     then resolveV2 refs else [] in
      with_content txt handles state (kind_of_type t) (parsePaymentPayload (payment_kind_of (kind_of_type t)) txt) None
        (if negb (is_nil refs) && senderVerified then Some refs else None) base
  end.

(** ** [#decryptMessage] *)

Definition system_message (raw : RelayerMessage) : ClientMessage Ctx := {|
  m_messageId := messageId raw; m_groupId := groupId raw; m_order := order raw; m_text := []; m_senderAddress := senderAddress raw;
  m_createdAt := createdAt raw; m_updatedAt := updatedAt raw; m_isEdited := false; m_isDeleted := false;
  m_syncStatus := syncStatus raw; m_attachments := []; m_attachmentIntegrity := i_none; m_attributionIntegrity := i_none;
  m_senderVerified := false; m_principalOwner := principalOwner raw; m_subAgentId := subAgentId raw;
  m_identityClass := identityClass raw; m_isAgentMessage := false; m_kind := k_system; m_system := system raw;
  m_paymentMetadata := None; m_payment := None; m_contentVersion := 1; m_event := None; m_envelopeAttachments := None |}.

Definition deleted_message (raw : RelayerMessage) : ClientMessage Ctx := {|
  m_messageId := messageId raw; m_groupId := groupId raw; m_order := order raw; m_text := []; m_senderAddress := senderAddress raw;
  m_createdAt := createdAt raw; m_updatedAt := updatedAt raw; m_isEdited := isEdited raw; m_isDeleted := true;
  m_syncStatus := syncStatus raw; m_attachments := []; m_attachmentIntegrity := i_none; m_attributionIntegrity := i_signature_unverified;
  m_senderVerified := false; m_principalOwner := principalOwner raw; m_subAgentId := subAgentId raw;
  m_identityClass := identityClass raw; m_isAgentMessage := isAgentMessage raw;
  m_kind := (match kind raw with k_message => k_text | k => k end); m_system := None;
  m_paymentMetadata := None; m_payment := None;
  m_contentVersion := (match kind raw with k_message | k_event => 2 | _ => 1 end); m_event := None; m_envelopeAttachments := None |}.

(** [#resolveAttachments] *)
Definition resolveAttachments (l : list Attachment) (g h : jsstr) (version : Z) (ctx : option Ctx) (sender : jsstr) :
    eff crypto attachment_error (list (AttachmentHandle Ctx)) :=
  if is_nil l || negb (bool_decide (is_Some attachmentsConfig)) then mret []
  else Attachments.resolve packageConfig policy env l g h version ctx (Some (g, sender)).

Definition legacy_message (raw : RelayerMessage) (txt : jsstr) (senderVerified : bool) (handles : list (AttachmentHandle Ctx)) : ClientMessage Ctx :=
  with_content txt handles (integrity (negb (is_nil (attachments raw))) raw senderVerified) (kind raw)
    (parsePaymentPayload (payment_kind_of (kind raw)) txt) None None
    (message_base raw 1 senderVerified (integrity (has_attribution raw) raw senderVerified)).

(** [verified] is [verifiedOptions.senderVerified]. *)
Definition decryptMessage (raw : RelayerMessage) (g h : jsstr) (ctx : option Ctx) (verified : option bool) (resolving : bool) : reading (ClientMessage Ctx) :=
  if negb (bool_decide (normalizeSharedPostAddress (Some (groupId raw)) = normalizeSharedPostAddress (Some g)))
     || negb (bool_decide (is_Some (normalizeSharedPostAddress (Some g))))
  then throw WrongGroup
  else if decide (kind raw = k_system) then mret (system_message raw)
  else if isDeleted raw then mret (deleted_message raw)
  else
    a ← or_fail AadInvalid (buildMessageAad {| aad_groupId := g; aad_keyVersion := keyVersion raw; aad_senderAddress := senderAddress raw |});
    plaintext ← crypt CryptoFailed (group_decrypt packageConfig policy env g h
      {| Encryption.ciphertext := encryptedText raw; Encryption.nonce := nonce raw; Encryption.keyVersion := keyVersion raw;
         Encryption.aad := Some a |} ctx);
    let senderVerified := default (verifyRawMessage raw) verified in
    match decodeContentEnvelope plaintext with
    | Some envelope => mret (fromEnvelope raw envelope senderVerified resolving)
    | None =>
        handles ← (if resolving && bool_decide (integrity (negb (is_nil (attachments raw))) raw senderVerified = i_verified)
                   then crypt AttachmentResolutionError (resolveAttachments (attachments raw) g h (keyVersion raw) ctx (senderAddress raw))
                   else mret []);
        mret (legacy_message raw (text_decode plaintext) senderVerified handles)
    end.

(** [Promise.allSettled] of [decryptMessage], the failures dropped; the calls
    run one after the other here. *)
Fixpoint decrypt_settled (g h : jsstr) (ctx : option Ctx) (l : list (RelayerMessage * option bool)) : reading (list (ClientMessage Ctx)) :=
  match l with
  | [] => mret []
  | (raw, verified) :: l' =>
      m ← try_catch (m ← decryptMessage raw g h ctx verified true; mret [m]) (λ _, mret []);
      rest ← decrypt_settled g h ctx l';
      mret (m ++ rest)
  end.
End reading.

(** * Rows of a device's store *)

Definition rv_str (v : rv) : option jsstr := match v with RStr s => Some s | _ => None end.
Definition rv_num (v : rv) : option number := match v with RNum n => Some n | _ => None end.
Definition rv_int (v : rv) : option Z := match v with RNum (Int z) => Some z | _ => None end.
Definition rv_bool (v : rv) : option bool := match v with RBool b => Some b | _ => None end.
Definition rv_bytes (v : rv) : option bytes := match v with RBytes b => Some b | _ => None end.
Definition rv_big (v : rv) : option Z := match v with RBig n => Some n | _ => None end.
Definition rv_list {A} (f : rv → option A) (v : rv) : option (list A) := match v with RArr l => mapM f l | _ => None end.

Definition rv_field {A} (f : rv → option A) (r : rv) (k : string) : option A := rv_get r k ≫= f.

(** A field that may be [undefined]. *)
Definition rv_maybe {A} (f : rv → option A) (r : rv) (k : string) : option (option A) :=
  match rv_get r k with None => Some None | Some v => Some <$> f v end.

Fixpoint json_of_rv (v : rv) : option json :=
  match v with
  | RNull => Some JNull | RBool b => Some (JBool b) | RNum n => Some (JNum n) | RStr s => Some (JStr s)
  | RBytes _ | RBig _ => None
  | RArr l => JArr <$> (fix go (l : list rv) := match l with [] => Some [] | x :: l' => y ← json_of_rv x; ys ← go l'; Some (y :: ys) end) l
  | RObj l => JObj <$> (fix go (l : list (jsstr * rv)) :=
      match l with [] => Some [] | x :: l' => y ← json_of_rv x.2; ys ← go l'; Some ((x.1, y) :: ys) end) l
  end.

Definition attachment_of_rv (v : rv) : option Attachment :=
  s ← rv_field rv_str v "storageId"; n ← rv_field rv_str v "nonce"; e ← rv_field rv_str v "encryptedMetadata"; m ← rv_field rv_str v "metadataNonce";
  Some {| storageId := s; att_nonce := n; encryptedMetadata := e; metadataNonce := m |}.

Definition system_of_rv (v : rv) : option SystemMessage :=
  t ← rv_field rv_str v "type"; m ← rv_field rv_str v "member"; a ← rv_maybe json_of_rv v "actor";
  Some {| sys_type := t; sys_member := m; sys_actor := a |}.

Definition by_name {A} (name : A → jsstr) (l : list A) (v : rv) : option A := s ← rv_str v; snd <$> list_find (λ a, name a = s) l.

Definition payment_of_rv (v : rv) : option PaymentMetadata :=
  t ← rv_field rv_str v "type";
  a ← rv_field (by_name asset_kind_name [native; spt]) v "assetKind";
  if decide (t = js "token_transfer") then
    d ← rv_field rv_str v "digest"; s ← rv_field (by_name transfer_status_name [t_pending; t_success; t_failed]) v "status";
    r1 ← rv_field rv_str v "to"; r2 ← rv_maybe rv_str v "requestMessageId"; r3 ← rv_maybe rv_str v "reason"; r4 ← rv_maybe rv_str v "senderWallet";
    Some (TransferMetadata d a s r1 r2 r3 r4)
  else if decide (t = js "request_payment") then
    p ← rv_field rv_str v "payer"; s ← rv_field (by_name request_status_name [r_open; r_rejected; r_cancelled; r_expired; r_paid]) v "status";
    r1 ← rv_maybe rv_str v "fulfillingMessageId"; r2 ← rv_maybe rv_str v "fulfilledDigest";
    Some (RequestMetadata a p s r1 r2)
  else None.

Definition message_kinds : list MessageKind := [k_text; k_system; k_post; k_request_payment; k_poll; k_token_transfer; k_message; k_event; k_commit].

(** A row at the type [UnwrappedRow], with its [senderVerified]. *)
Definition message_of_row (r : rv) : option (RelayerMessage * bool) :=
  a1 ← rv_field rv_str r "messageId"; a2 ← rv_field rv_str r "groupId"; a3 ← rv_field rv_num r "order";
  a4 ← rv_field rv_bytes r "encryptedText"; a5 ← rv_field rv_bytes r "nonce"; a6 ← rv_field rv_big r "keyVersion";
  a7 ← rv_field rv_str r "senderAddress"; a8 ← rv_field rv_int r "createdAt"; a9 ← rv_field rv_int r "updatedAt";
  b1 ← rv_field (rv_list attachment_of_rv) r "attachments"; b2 ← rv_field rv_bool r "isEdited"; b3 ← rv_field rv_bool r "isDeleted";
  b4 ← rv_field rv_str r "syncStatus"; b5 ← rv_maybe rv_str r "quiltPatchId"; b6 ← rv_field rv_str r "signature";
  b7 ← rv_maybe rv_int r "signatureVersion"; b8 ← rv_field rv_str r "publicKey"; b9 ← rv_maybe rv_str r "principalOwner";
  c1 ← rv_maybe rv_str r "subAgentId"; c2 ← rv_maybe rv_int r "identityClass"; c3 ← rv_field rv_bool r "isAgentMessage";
  c4 ← rv_maybe (by_name kind_name message_kinds) r "kind"; c5 ← rv_maybe system_of_rv r "system"; c6 ← rv_maybe payment_of_rv r "paymentMetadata";
  c7 ← rv_field rv_bool r "senderVerified";
  Some ({| messageId := a1; groupId := a2; order := a3; encryptedText := a4; nonce := a5; keyVersion := a6; senderAddress := a7;
           createdAt := a8; updatedAt := a9; attachments := b1; isEdited := b2; isDeleted := b3; syncStatus := b4; quiltPatchId := b5;
           signature := b6; signatureVersion := b7; publicKey := b8; principalOwner := b9; subAgentId := c1; identityClass := c2;
           isAgentMessage := c3; kind := default k_text c4; system := c5; paymentMetadata := c6 |}, c7).

(** [row] with its inner layer in place of its ciphertext. *)
Definition unwrapped (row : RelayerMessage) (inner : MlsInner) : RelayerMessage := {|
  messageId := messageId row; groupId := groupId row; order := order row; encryptedText := in_ciphertext inner; nonce := in_nonce inner;
  keyVersion := in_keyVersion inner; senderAddress := senderAddress row; createdAt := createdAt row; updatedAt := updatedAt row;
  attachments := attachments row; isEdited := isEdited row; isDeleted := isDeleted row; syncStatus := syncStatus row;
  quiltPatchId := quiltPatchId row; signature := signature row; signatureVersion := signatureVersion row; publicKey := publicKey row;
  principalOwner := principalOwner row; subAgentId := subAgentId row; identityClass := identityClass row;
  isAgentMessage := isAgentMessage row; kind := kind row; system := system row; paymentMetadata := paymentMetadata row |}.

Lemma json_of_rv_of_json v : json_of_rv (rv_of_json v) = Some v.
Proof.
  induction v as [| b | n | s | l IH | l IH] using json_nested_ind; try done; simpl; apply fmap_Some; eexists; split; try reflexivity.
  - induction IH as [|x l Hx _ IHl]; [done|]. rewrite fmap_cons, Hx. cbn [mbind option_bind]. by rewrite IHl.
  - induction IH as [|[k x] l Hx _ IHl]; [done|]. rewrite fmap_cons. simpl in Hx |- *. rewrite Hx. cbn [mbind option_bind]. by rewrite IHl.
Qed.

Lemma attachment_of_attachment_rv a : attachment_of_rv (attachment_rv a) = Some a.
Proof. by destruct a. Qed.

Lemma attachments_of_rv l : rv_list attachment_of_rv (RArr (attachment_rv <$> l)) = Some l.
Proof. unfold rv_list. apply mapM_Some, Forall2_fmap_l, Forall_Forall2_diag, Forall_true, attachment_of_attachment_rv. Qed.

Lemma payment_of_payment_rv p : payment_of_rv (payment_rv p) = Some p.
Proof. destruct p as [d [] [] t [] [] []|[] p [] [] []]; vm_compute; reflexivity. Qed.

Lemma system_of_system_rv s : system_of_rv (system_rv s) = Some s.
Proof.
  destruct s as [t m [a|]]; [|done]. unfold system_of_rv, rv_maybe.
  assert (rv_get (system_rv {| sys_type := t; sys_member := m; sys_actor := Some a |}) "actor" = Some (rv_of_json a)) as -> by done.
  rewrite json_of_rv_of_json. done.
Qed.

Lemma kind_of_name k : by_name kind_name message_kinds (RStr (kind_name k)) = Some k.
Proof. by destruct k. Qed.

Lemma rv_get_hit k x l : rv_get (RObj ((js k, x) :: l)) k = Some x.
Proof. simpl. by rewrite decide_True. Qed.

Lemma rv_get_skip k k' x l e : js k' ≠ js k → rv_get (RObj l) k = e → rv_get (RObj ((js k', x) :: l)) k = e.
Proof. intros Hk <-. simpl. by rewrite decide_False. Qed.

Lemma rv_get_opt_hit {A} k (f : A → rv) o l : rv_get (RObj l) k = None → rv_get (RObj (rv_opt k f o ++ l)) k = f <$> o.
Proof. intros Hl. destruct o; [apply rv_get_hit|done]. Qed.

Lemma rv_get_opt_skip {A} k k' (f : A → rv) o l e : js k' ≠ js k → rv_get (RObj l) k = e → rv_get (RObj (rv_opt k' f o ++ l)) k = e.
Proof. intros Hk Hl. destruct o; [by apply rv_get_skip|done]. Qed.

(** Reads a field of an object given by its literal fields. *)
Ltac read_field :=
  lazymatch goal with
  | |- rv_get (RObj (rv_opt ?k' _ _ ++ _)) ?k = _ => first [apply rv_get_opt_hit; read_field | apply rv_get_opt_skip; [discriminate|read_field]]
  | |- rv_get (RObj ((js ?k', _) :: _)) ?k = _ => first [apply rv_get_hit | apply rv_get_skip; [discriminate|read_field]]
  | |- rv_get (RObj ((?a :: ?l) ++ ?l')) ?k = ?e => change (rv_get (RObj (a :: (l ++ l'))) k = e); read_field
  | |- rv_get (RObj ([] ++ ?l')) ?k = ?e => change (rv_get (RObj l') k = e); read_field
  | |- _ => reflexivity
  end.

Lemma maybe_opt {A} (f : A → rv) (g : rv → option A) (o : option A) : (∀ a, g (f a) = Some a) →
  match f <$> o with None => Some None | Some v => Some <$> g v end = Some o.
Proof. intros Hg. destruct o as [a|]; [simpl; by rewrite Hg|done]. Qed.

(** What MLS hands back is read as the row it unwrapped. *)
Lemma message_of_unwrapped_row row inner v : message_of_row (unwrapped_row row inner v) = Some (unwrapped row inner, v).
Proof.
  unfold message_of_row, rv_field, rv_maybe.
  repeat match goal with |- context [rv_get (unwrapped_row row inner v) ?k] =>
    let E := fresh in eassert (rv_get (unwrapped_row row inner v) k = _) as E by (unfold unwrapped_row; read_field); rewrite E; clear E
  end.
  cbn [mbind option_bind rv_str rv_num rv_bytes rv_big rv_int rv_bool]. rewrite attachments_of_rv, kind_of_name.
  cbn [mbind option_bind fmap option_fmap option_map]. rewrite !maybe_opt by (auto using system_of_system_rv, payment_of_payment_rv).
  cbn [mbind option_bind]. done.
Qed.
