(* ===== verification/Client.v ===== *)
(** The messaging client ([client.ts]): its state, the group's on-chain flags,
    its MLS sessions, and sending.

    A client works on its data keys, clock and storage requests ([crypto]), the
    metadata its view caches, the MLS sessions it was given — objects, held in a
    heap because the map of sessions and the primary session may name the same
    one — and the calls it made that change the relayer or the chain.  What
    they, the chain and the block list answer at each await is [client_env]; a
    session's own awaits are counted by its own clock. *)
From S2P Require Import Prelude JsString JsMap Utf8 TextDecoder Json Base64 Anchors AuthHeaders GroupName Payments Aad Encryption Envelope Verification Wire RoomHistory HttpTransport HttpCalls MlsRows MlsTypes MlsCertificates MlsSession MlsSelf MlsRenewal Attachments ClientMessage.

#[local] Set Warnings "-notation-overridden".

(** ** Data *)

(** The on-chain metadata of a group. *)
Record GroupMetadata := { gm_name : jsstr; gm_uuid : jsstr; gm_data : list (jsstr * jsstr) }.

(** What a metadata object is read as. *)
Inductive metadata_object := ObjectError | Unparsable | Metadata (m : GroupMetadata).

(** Transactions the client executes. *)
Inductive chain_tx :=
  | InsertGroupData (groupId key value : jsstr)
  | SetGroupName (groupId name : jsstr).

(** Calls that change the relayer's or the chain's state, oldest first. *)
Inductive request :=
  | SendMessage (p : SendMessageParams)
  | UpdateMessage (p : UpdateMessageParams)
  | DeleteMessage (groupId messageId : jsstr)
  | PostGroupReaction (groupId : jsstr) (chainSeq : number) (emoji : jsstr) (add : bool)
  | RespondToPaymentRequest (groupId messageId action : jsstr)
  | ExecuteTransaction (tx : chain_tx).

Record SendMessageOptions `{MySoCrypto} {Ctx : Type} := {
  so_signer : Signer; so_groupRef : GroupRef; so_text : option jsstr; so_files : list AttachmentFile;
  so_kind : option EnvelopeMessageType; so_idempotencyKey : option jsstr; so_paymentMetadata : option PaymentSendMetadata;
  so_sharedPostAddress : option jsstr; so_attribution : option SendAttribution; so_principalOwner : option jsstr; so_ctx : option Ctx;
}.
Arguments SendMessageOptions {_} _.

Record client_env `{EncryptionLib} := {
  ce_crypto : crypto_env;
  ce_metadataFieldId : jsstr → jsstr;                                     (* the id of a group's metadata field *)
  ce_objects : nat → list jsstr → option (list metadata_object);
  ce_members : nat → jsstr → bool → option (list (jsstr * list jsstr));   (* [exhaustive]; addresses and their permissions *)
  ce_hasPermission : nat → jsstr → jsstr → jsstr → option bool;           (* group, member, permission *)
  ce_checkPair : nat → jsstr → jsstr → option bool;
  ce_execute : nat → chain_tx → bool;                                     (* [false]: it throws *)
  ce_sendMessage : nat → SendMessageParams → option jsstr;
  ce_updateMessage : nat → UpdateMessageParams → bool;
  ce_deleteMessage : nat → jsstr → jsstr → bool;
  ce_postReaction : nat → jsstr → number → jsstr → bool → bool;
  ce_respond : nat → jsstr → jsstr → jsstr → bool;
  ce_fetchMessage : nat → jsstr → jsstr → option RelayerMessage;           (* group, message *)
  ce_fetchMessages : nat → jsstr → HistoryOptions → option FetchMessagesResult;
  ce_recover : option (nat → jsstr → HistoryOptions → option FetchMessagesResult);
  ce_randomUUID : nat → jsstr;
}.

(** The options of the constructor.  [authSigner] gives the address the relayer
    authenticates a signer as, at each await. *)
Record client_config `{EncryptionLib} `{MySoCrypto} {Ctx : Type} := {
  packageConfig : PackageConfig;
  policy : MyDataPolicy Ctx;
  attachmentsConfig : option AttachmentsConfig;
  blockGating : bool;
  authSigner : option (nat → Signer → jsstr);
  has_relayerUrl : bool;
}.
Arguments client_config {_ _} _.

Record client `{DekCache} `{MlsEngine} := Client {
  cl_crypto : crypto;
  cl_metadata : list (jsstr * GroupMetadata);
  cl_heap : list (mls_env * session);
  cl_sessions : list (jsstr * nat);        (* [#mlsSessions], by wallet *)
  cl_mls : option nat;                     (* [#mls] *)
  cl_sent : list request;
}.

Definition lookup_value (k : jsstr) (l : list (jsstr * jsstr)) : option jsstr := e ← head (filter (λ e, e.1 = k) l); Some e.2.

Section client.
Context `{JsonNumbers} `{JsText} `{Verification.HexCodec} `{Sha256} `{Base64Codec} `{MySoCrypto} `{EncryptionLib} `{MySoBcs} `{!DekCache} `{MlsEngine} {Ctx : Type}.
Context (config : client_config Ctx) (env : client_env) (fuel : nat).

#[local] Notation cl := (eff client client_error).

(** ** Awaits *)

Definition set_crypto (c : crypto) (s : client) : client := Client _ _ _ c (cl_metadata s) (cl_heap s) (cl_sessions s) (cl_mls s) (cl_sent s).
Definition set_metadata (m : list (jsstr * GroupMetadata)) (s : client) : client :=
  Client _ _ _ (cl_crypto s) m (cl_heap s) (cl_sessions s) (cl_mls s) (cl_sent s).
Definition set_heap (h : list (mls_env * session)) (s : client) : client :=
  Client _ _ _ (cl_crypto s) (cl_metadata s) h (cl_sessions s) (cl_mls s) (cl_sent s).
Definition add_request (r : request) (s : client) : client :=
  Client _ _ _ (cl_crypto s) (cl_metadata s) (cl_heap s) (cl_sessions s) (cl_mls s) (cl_sent s ++ [r]).
Definition tick_client (s : client) : client := set_crypto (ticked (cl_crypto s)) s.

Definition now_tick (s : client) : nat := cr_ticks (cl_crypto s).

Definition on_crypto {A} (m : eff crypto client_error A) : cl A := λ s,
  let '(r, c) := m (cl_crypto s) in (r, set_crypto c s).

Definition encrypting {A} (m : eff crypto attachment_error A) : cl A := on_crypto (crypt CryptoFailed m).

(** An await, and its answer. *)
Definition ask {A} (f : nat → A) : cl A := s ← get_state; modify tick_client;; mret (f (now_tick s)).

(** A call that changes something outside. *)
Definition request_answer {A} (r : request) (f : nat → A) : cl A := s ← get_state; modify (λ s, add_request r (tick_client s));; mret (f (now_tick s)).

Definition check (e : client_error) (b : bool) : cl unit := if b then mret tt else throw e.

Definition lift_outcome {E A} (f : E → client_error) (o : outcome E A) : cl A := match o with Ok a => mret a | Throw e => throw (f e) end.

(** A call of the session object [i]. *)
Definition on_session {A} (i : nat) (m : mls_env → eff session mls_error A) : cl A := λ s,
  match cl_heap s !! i with
  | Some (menv, x) =>
      let '(r, x') := m menv x in
      (match r with Ok a => Ok a | Throw e => Throw (MlsFailed e) end, set_heap (<[i := (menv, x')]> (cl_heap s)) s)
  | None => (Throw NotOnThisDevice, s)
  end.

(** ** Group references, addresses *)

(** An empty uuid, whose ids are [undefined], is refused at once. *)
Definition resolveRef (ref : GroupRef) : cl (jsstr * jsstr) :=
  ClientMessage.or_fail UnresolvedRef (r ← resolveGroupRef (packageConfig config) ref; Some r.1).

Definition relayerAddress (signer : Signer) : cl jsstr :=
  s ← get_state; mret (match authSigner config with Some f => f (now_tick s) signer | None => toMySoAddress signer end).

Definition getCurrentKeyVersion (h : jsstr) : cl Z :=
  v ← ask (λ t, getCurrentKeyVersion (cv_view (ce_crypto env) t) h);
  lift_outcome (λ e, CryptoFailed (EncryptionError (LibError e))) v.

(** ** [view.groupsMetadata] *)

Fixpoint read_objects (l : list metadata_object) (result : list (jsstr * GroupMetadata)) : cl (list (jsstr * GroupMetadata)) :=
  match l with
  | [] => mret result
  | ObjectError :: l' => read_objects l' result
  | Unparsable :: _ => throw ChainFailed
  | Metadata m :: l' =>
      let g := Encryption.groupId (packageConfig config) (gm_uuid m) in
      modify (λ s, set_metadata (map_set g m (cl_metadata s)) s);;
      read_objects l' (map_set g m result)
  end.

Definition groupsMetadata (ids : list jsstr) (refresh : bool) : cl (list (jsstr * GroupMetadata)) :=
  s ← get_state;
  let cached g := if refresh then None else map_get g (cl_metadata s) in
  let known := foldl (λ r g, match cached g with Some m => map_set g m r | None => r end) [] ids in
  let idsToFetch := filter (λ g, cached g = None) ids in
  if is_nil idsToFetch then mret known else
  objects ← ask (λ t, ce_objects env t (ce_metadataFieldId env <$> idsToFetch));
  objects ← ClientMessage.or_fail ChainFailed objects;
  read_objects objects known.

(** On-chain [data["e2ee"]], or another key of the metadata of a group. *)
Definition group_value (g key : jsstr) (refresh : bool) : cl (option jsstr) :=
  metas ← groupsMetadata [g] refresh;
  mret (m ← map_get g metas; lookup_value key (gm_data m)).

Definition e2eeFlag (g : jsstr) : cl (option jsstr) := group_value g (js "e2ee") false.

Definition writesContentEnvelopeV2 (ref : GroupRef) (refresh : bool) : cl bool :=
  ids ← resolveRef ref;
  try_catch (flag ← group_value ids.1 (js "e2ee") refresh;
             mret (bool_decide (flag = Some (js "v2")) || bool_decide (flag = Some (js "mls1"))))
    (λ _, mret false).

(** ** MLS sessions *)

(** Wallets holding [MessagingReader] on chain, in lower case. *)
Definition messagingReader : jsstr := cfg_originalPackageId (packageConfig config) ++ js "::messaging::MessagingReader".

Definition onChainReaders (g : jsstr) : cl (list jsstr) :=
  members ← ask (λ t, ce_members env t g true);
  members ← ClientMessage.or_fail ChainFailed members;
  mret (foldl (λ r m, set_add m r) [] ((λ m, toLowerCase m.1) <$> filter (λ m, messagingReader ∈ m.2) members)).

(** The read path: whether a group is read through MLS. *)
Definition readsMls (g : jsstr) : cl bool :=
  flag ← try_catch (f ← e2eeFlag g; mret (Some f)) (λ _, mret None);
  if negb (bool_decide (flag = Some (Some (js "mls1")))) then mret false else
  s ← get_state;
  match cl_mls s with
  | None => throw (GroupUnavailable g no_device)
  | Some i =>
      ready ← on_session i (λ e, ensureGroup e fuel g);
      if (ready : bool) then mret true else throw (GroupUnavailable g not_joined)
  end.

Definition usesMls (ref : GroupRef) : cl bool :=
  ids ← resolveRef ref; try_catch (readsMls ids.1) (λ _, mret false).

Inductive mls_status := status_off | status_ready | status_unavailable (r : MlsUnavailableReason).

Definition unavailable_reason (e : client_error) : MlsUnavailableReason :=
  match e with
  | GroupUnavailable _ r | MlsFailed (MlsGroupUnavailableError _ r) => r
  | _ => not_joined
  end.

Definition mlsStatus (ref : GroupRef) : cl mls_status :=
  ids ← resolveRef ref;
  try_catch (ready ← readsMls ids.1; mret (if (ready : bool) then status_ready else status_off)) (λ e, mret (status_unavailable (unavailable_reason e))).

(** The write path: the session a sender uses in an [mls1] group. *)
Definition senderMlsSession (g senderAddress : jsstr) : cl (option nat) :=
  flag ← e2eeFlag g;
  if negb (bool_decide (flag = Some (js "mls1"))) then mret None else
  s ← get_state;
  match map_get (toLowerCase senderAddress) (cl_sessions s) with
  | None => throw (GroupUnavailable g no_device)
  | Some i =>
      ready ← on_session i (λ e, ensureGroup e fuel g);
      if (ready : bool) then mret (Some i) else throw (GroupUnavailable g not_joined)
  end.

Fixpoint setup_loop (attempts : nat) (i : nat) (g : jsstr) : cl bool :=
  match attempts with
  | O => mret false
  | S n =>
      done ← try_catch (readers ← onChainReaders g; on_session i (λ e, createGroup_public e fuel g readers)) (λ _, mret false);
      if (done : bool) then mret true else (ask (λ _, tt);; setup_loop n i g)
  end.

Definition setupMlsGroup (ref : GroupRef) (attempts : option nat) : cl bool :=
  s ← get_state;
  ids ← resolveRef ref;
  match cl_mls s with
  | None => throw (GroupUnavailable ids.1 no_device)
  | Some i => setup_loop (default 5%nat attempts) i ids.1
  end.

(** The session becomes an object of the heap, known by its wallet and, if
    [primary], the one messages are read through. *)
Definition add_session (menv : mls_env) (x : session) (primary : option bool) : cl (nat * bool) :=
  s ← get_state;
  let i := length (cl_heap s) in
  let first := default (negb (bool_decide (is_Some (cl_mls s)))) primary in
  put_state (Client _ _ _ (cl_crypto s) (cl_metadata s) (cl_heap s ++ [(menv, x)]) (map_set (en_wallet menv) i (cl_sessions s))
    (if first then Some i else cl_mls s) (cl_sent s));;
  mret (i, first).

Definition attachMlsSession (i : nat) (primary : option bool) : cl unit :=
  s ← get_state;
  match cl_heap s !! i with
  | None => throw NotOnThisDevice
  | Some (menv, _) =>
      let first := default (negb (bool_decide (is_Some (cl_mls s)))) primary in
      put_state (Client _ _ _ (cl_crypto s) (cl_metadata s) (cl_heap s) (map_set (en_wallet menv) i (cl_sessions s))
        (if first then Some i else cl_mls s) (cl_sent s))
  end.

(** [start] is the session over the device's store; [identity] the signer the
    groups list as the member. *)
Definition openMlsSession (menv : mls_env) (start : session) (identity : Signer) (keys : nat → DeviceKeys) (primary : option bool) : cl nat :=
  check RelayerUrlMissing (has_relayerUrl config);;
  let '(r, x) := MlsRenewal.open menv identity keys start in
  lift_outcome MlsFailed r;;
  added ← add_session menv x primary;
  on_session added.1 (λ e, acceptWelcomes e);;
  (if (added.2 : bool) then
     try_catch (on_session added.1 (λ e, ensureSelfGroup e)) (λ _, mret tt);;
     try_catch (on_session added.1 (λ e, syncSelf e fuel)) (λ _, mret tt)
   else mret tt);;
  mret added.1.

(** ** Sending *)

Definition validateSendInput (o : SendMessageOptions Ctx) : cl unit :=
  check NothingToSend (negb (is_nil (default [] (so_text o))) || negb (is_nil (so_files o))).

(** [BlockGatingClient.checkEitherBlocked] *)
Definition checkEitherBlocked (a b : jsstr) (principal : option jsstr) : cl bool :=
  x ← ask (λ t, ce_checkPair env t a b);
  x ← ClientMessage.or_fail BlockCheckFailed x;
  if (x : bool) then mret true else
  match non_empty principal with
  | Some p =>
      if decide (p = a) then mret false else
      y ← ask (λ t, ce_checkPair env t p b);
      ClientMessage.or_fail BlockCheckFailed y
  | None => mret false
  end.

Definition assertDmNotBlocked (g senderAddress : jsstr) (principal : option jsstr) : cl unit :=
  if negb (blockGating config) then mret tt else
  members ← ask (λ t, ce_members env t g false);
  members ← ClientMessage.or_fail ChainFailed members;
  match filter (λ a, a ≠ senderAddress) (fst <$> members) with
  | [peer] => blocked ← checkEitherBlocked senderAddress peer principal; check BlockedMessagingError (negb blocked)
  | _ => mret tt
  end.

Definition requireAttachments : cl AttachmentsConfig := ClientMessage.or_fail AttachmentsNotConfigured (attachmentsConfig config).

(** [#uploadAttachments] *)
Definition uploadAttachments (files : list AttachmentFile) (g h : jsstr) (ctx : option Ctx) (binding : AadParams) : cl (list Attachment) :=
  if is_nil files then mret [] else
  a ← requireAttachments;
  encrypting (upload (packageConfig config) (policy config) (ce_crypto env) a files g h ctx (Some binding)).

Definition message_aad (g : jsstr) (v : Z) (sender : jsstr) : cl bytes :=
  ClientMessage.or_fail AadInvalid (buildMessageAad {| aad_groupId := g; aad_keyVersion := v; aad_senderAddress := sender |}).

Definition sign (signer : Signer) (p : CanonicalParams) : cl jsstr := lift_outcome SignFailed (signMessageContent signer p).

(** The attribution as signed, and as sent. *)
Definition signed_attribution (a : SendAttribution) : SignedMessageAttribution := {|
  Verification.principalOwner := Some (sa_principalOwner a); Verification.subAgentId := Some (sa_subAgentId a);
  Verification.identityClass := Some (sa_identityClass a) |}.

Definition sends_payment (t : EnvelopeMessageType) : bool :=
  match t with Envelope.token_transfer | Envelope.request_payment => true | _ => false end.

(** The bound references of a kind: the shared post and the transfer digest. *)
Definition payment_checks (o : SendMessageOptions Ctx) (sender : jsstr) : cl (option jsstr) :=
  match default text (so_kind o) with
  | Envelope.token_transfer =>
      let digest := trim (default [] (so_paymentMetadata o ≫= pm_digest)) in
      check MissingDigest (negb (is_nil digest));;
      check WrongTransferKey (bool_decide (so_idempotencyKey o = Some (transferIdempotencyKey sender digest)));;
      mret (Some digest)
  | Envelope.request_payment =>
      check MissingAssetKind (bool_decide (is_Some (so_paymentMetadata o)));;
      check WrongRequestKey (startsWith (js "request:") (default [] (so_idempotencyKey o)));;
      mret None
  | _ => mret None
  end.

Definition shared_post (o : SendMessageOptions Ctx) : option jsstr :=
  match default text (so_kind o) with post => normalizeSharedPostAddress (so_sharedPostAddress o) | _ => None end.

Definition has_key (o : SendMessageOptions Ctx) : bool := negb (is_nil (trim (default [] (so_idempotencyKey o)))).

Definition post_checks (o : SendMessageOptions Ctx) (missing_key : client_error) : cl unit :=
  match default text (so_kind o) with
  | post => check MissingSharedPost (bool_decide (is_Some (shared_post o)));; check missing_key (has_key o)
  | _ => mret tt
  end.

(** What one v2 row is sent with, besides its envelope. *)
Record envelope_params := {
  ep_notifyWallets : option (list jsstr); ep_idempotencyKey : option jsstr; ep_sharedPostAddress : option jsstr;
  ep_transferDigest : option jsstr; ep_paymentMetadata : option PaymentSendMetadata; ep_attribution : option SendAttribution;
}.

Definition no_params : envelope_params := {| ep_notifyWallets := None; ep_idempotencyKey := None; ep_sharedPostAddress := None;
  ep_transferDigest := None; ep_paymentMetadata := None; ep_attribution := None |}.

Definition signature_version (b : bool) : Z := if b then 2 else 1.

Definition kind_of_envelope (e : ContentEnvelope) : MessageKind :=
  match e with
  | Event _ => k_event
  | Message post _ _ => k_post
  | Message Envelope.token_transfer _ _ => k_token_transfer
  | Message Envelope.request_payment _ _ => k_request_payment
  | Message _ _ _ => k_message
  end.

(** [transport.sendMessage]: the id of the new row. *)
Definition post_row (p : SendMessageParams) : cl jsstr :=
  id ← request_answer (SendMessage p) (λ t, ce_sendMessage env t p);
  ClientMessage.or_fail TransportFailed id.

Definition fetch_row (g id : jsstr) : cl RelayerMessage := raw ← ask (λ t, ce_fetchMessage env t g id); ClientMessage.or_fail TransportFailed raw.

(** The sender's own copy, kept by the session messages are read through. *)
Definition keep_own (g id : jsstr) (sender : nat) (inner : MlsInner) : cl unit :=
  stored ← fetch_row g id;
  s ← get_state;
  on_session (default sender (cl_mls s)) (λ _, storeOwn g (unwrapped_row stored inner true)).

(** The MLS layer of a row: its text and nonce. *)
Definition wrap_row (g : jsstr) (sender : option nat) (inner : MlsInner) : cl (bytes * bytes) :=
  match sender with
  | None => mret (in_ciphertext inner, in_nonce inner)
  | Some i =>
      readers ← onChainReaders g;
      rowText ← on_session i (λ e, seal e fuel g readers inner);
      rowNonce ← encrypting (await_random (ce_crypto env) 12);
      mret (rowText, rowNonce)
  end.

(** [#sendEnvelope] *)
Definition sendEnvelope (signer : Signer) (g h : jsstr) (ctx : option Ctx) (senderAddress : jsstr) (envelope : ContentEnvelope)
    (p : envelope_params) : cl jsstr :=
  let kind := kind_of_envelope envelope in
  v ← getCurrentKeyVersion h;
  a ← message_aad g v senderAddress;
  sealed ← encrypting (group_encrypt (packageConfig config) (policy config) (ce_crypto env) g h (encodeContentEnvelope envelope) (Some v) ctx (Some a));
  let inner := {| in_nonce := Encryption.nonce sealed; in_keyVersion := Encryption.keyVersion sealed; in_ciphertext := Encryption.ciphertext sealed |} in
  sender ← senderMlsSession g senderAddress;
  row ← wrap_row g sender inner;
  let version := signature_version (bool_decide (is_Some (ep_attribution p))) in
  sig ← sign signer {|
    Verification.groupId := g; Verification.kind := Some (kind_name kind); Verification.signatureVersion := Some version;
    Verification.encryptedText := row.1; Verification.nonce := row.2; Verification.keyVersion := Encryption.keyVersion sealed;
    sharedPostAddress := ep_sharedPostAddress p; transferDigest := ep_transferDigest p; idempotencyKey := ep_idempotencyKey p;
    Verification.attachments := Some []; attribution := signed_attribution <$> ep_attribution p |};
  id ← post_row {|
    sp_groupId := g; sp_encryptedText := row.1; sp_nonce := row.2; sp_keyVersion := Encryption.keyVersion sealed; sp_kind := Some kind;
    sp_signatureVersion := Some version; sp_idempotencyKey := ep_idempotencyKey p; sp_sharedPostAddress := ep_sharedPostAddress p;
    sp_paymentMetadata := ep_paymentMetadata p; sp_attachments := None; sp_messageSignature := Some sig;
    sp_notifyWallets := ep_notifyWallets p; sp_attribution := ep_attribution p |};
  (match sender with Some i => keep_own g id i inner | None => mret tt end);;
  mret id.

(** [#sendMessageV2] *)
Definition sendMessageV2 (o : SendMessageOptions Ctx) (g h senderAddress : jsstr) : cl jsstr :=
  att ← (if is_nil (so_files o) then mret None
         else a ← requireAttachments; l ← encrypting (uploadV2 (ce_crypto env) a (so_files o)); mret (Some l));
  post_checks o MissingSharedPost;;
  digest ← payment_checks o senderAddress;
  let t := default text (so_kind o) in
  sendEnvelope (so_signer o) g h (so_ctx o) senderAddress (Message t (default [] (so_text o)) att) {|
    ep_notifyWallets := None; ep_idempotencyKey := so_idempotencyKey o; ep_sharedPostAddress := shared_post o; ep_transferDigest := digest;
    ep_paymentMetadata := if sends_payment t then so_paymentMetadata o else None; ep_attribution := so_attribution o |}.

(** The row of a group that writes no envelopes. *)
Definition sendMessageV1 (o : SendMessageOptions Ctx) (g h senderAddress : jsstr) : cl jsstr :=
  v ← getCurrentKeyVersion h;
  a ← message_aad g v senderAddress;
  envelope ← encrypting (group_encrypt (packageConfig config) (policy config) (ce_crypto env) g h (utf8_encode (default [] (so_text o))) (Some v) (so_ctx o) (Some a));
  refs ← uploadAttachments (so_files o) g h (so_ctx o) {| aad_groupId := g; aad_keyVersion := v; aad_senderAddress := senderAddress |};
  post_checks o MissingIdempotencyKey;;
  digest ← payment_checks o senderAddress;
  let t := default text (so_kind o) in
  let version := signature_version (negb (is_nil refs) || bool_decide (is_Some (so_attribution o))) in
  sig ← sign (so_signer o) {|
    Verification.groupId := g; Verification.kind := Some (kind_name (kind_of_type t)); Verification.signatureVersion := Some version;
    Verification.encryptedText := Encryption.ciphertext envelope; Verification.nonce := Encryption.nonce envelope;
    Verification.keyVersion := Encryption.keyVersion envelope; sharedPostAddress := shared_post o; transferDigest := digest;
    idempotencyKey := so_idempotencyKey o; Verification.attachments := Some refs; attribution := signed_attribution <$> so_attribution o |};
  post_row {|
    sp_groupId := g; sp_encryptedText := Encryption.ciphertext envelope; sp_nonce := Encryption.nonce envelope;
    sp_keyVersion := Encryption.keyVersion envelope; sp_kind := Some (kind_of_type t); sp_signatureVersion := Some version;
    sp_idempotencyKey := so_idempotencyKey o; sp_sharedPostAddress := shared_post o;
    sp_paymentMetadata := if sends_payment t then so_paymentMetadata o else None;
    sp_attachments := if is_nil refs then None else Some refs; sp_messageSignature := Some sig; sp_notifyWallets := None;
    sp_attribution := so_attribution o |}.

Definition sendMessage (o : SendMessageOptions Ctx) : cl jsstr :=
  validateSendInput o;;
  ids ← resolveRef (so_groupRef o);
  senderAddress ← relayerAddress (so_signer o);
  assertDmNotBlocked ids.1 senderAddress
    (match so_principalOwner o with Some p => Some p | None => sa_principalOwner <$> so_attribution o end);;
  v2 ← writesContentEnvelopeV2 (so_groupRef o) false;
  if (v2 : bool) then sendMessageV2 o ids.1 ids.2 senderAddress else sendMessageV1 o ids.1 ids.2 senderAddress.
End client.
