(* ===== verification/ClientRead.v ===== *)
(** The messaging client, continued ([client.ts]): payments, reading and
    paging, strict room pages, edits, deletion, reactions, names, live events
    and recovery. *)
From S2P Require Import Prelude JsString JsMap Utf8 TextDecoder Json Base64 Anchors AuthHeaders GroupName Payments Aad Encryption Envelope Verification Wire RoomHistory HttpTransport HttpCalls MlsRows MlsTypes MlsCertificates MlsSession Attachments ClientMessage Client.

#[local] Set Warnings "-notation-overridden".

Record GetMessagesResult {Ctx : Type} := { gr_messages : list (ClientMessage Ctx); gr_hasNext : bool }.
Arguments GetMessagesResult : clear implicits.

Record EditAttachments := {
  ea_current : list Attachment; ea_currentEnvelope : option (list EnvelopeAttachment); ea_remove : option (list jsstr);
  ea_new : list AttachmentFile;
}.

Record EditMessageOptions `{MySoCrypto} {Ctx : Type} := {
  eo_signer : Signer; eo_groupRef : GroupRef; eo_messageId : jsstr; eo_text : jsstr; eo_attachments : option EditAttachments; eo_ctx : option Ctx;
}.
Arguments EditMessageOptions {_} _.

Inductive RoomHistoryEntry :=
  | SystemMetadata (id : jsstr) (order : number)
  | DeletedMetadata (id : jsstr) (order : number)
  | UnverifiedContent (id : jsstr) (order : number)
  | UnavailableContent (id : jsstr) (order : number)
  | VerifiedEntry (content : VerifiedContent).

Record RoomHistoryPage := {
  rp_groupId : jsstr; rp_entries : list RoomHistoryEntry; rp_hasNext : bool; rp_nextCursor : option Cursor; rp_allContentVerified : bool;
}.

Inductive MessagingEvent {Ctx : Type} :=
  | OnMessage (message : ClientMessage Ctx)
  | OnReaction (reaction : RelayerReactionEvent)
  | OnTyping (member : jsstr) (typing : bool) (expiresAt : option Z)
  | OnPresence (member : jsstr) (online : bool)
  | OnReceipt (receipt : RelayerReceiptEvent).
Arguments MessagingEvent : clear implicits.

Definition is_verified_entry (e : RoomHistoryEntry) : bool := match e with VerifiedEntry _ => true | _ => false end.

Definition handle_info {Ctx} (h : AttachmentHandle Ctx) : AttachmentInfo := {|
  fileName := obj_get (h_metadata h) (js "fileName"); mimeType := obj_get (h_metadata h) (js "mimeType");
  fileSize := obj_get (h_metadata h) (js "fileSize"); ai_storageId := storageId (h_wire h) |}.

(** The fields of a message that a room entry is made of. *)
Definition history_message {Ctx} (m : ClientMessage Ctx) : DecryptedMessage := {|
  d_messageId := m_messageId m; d_groupId := m_groupId m; d_order := m_order m; d_text := m_text m; d_senderAddress := m_senderAddress m;
  d_isDeleted := m_isDeleted m; d_kind := Some (m_kind m); d_attachments := handle_info <$> m_attachments m;
  d_attachmentIntegrity := m_attachmentIntegrity m; d_senderVerified := m_senderVerified m;
  d_attributionIntegrity := m_attributionIntegrity m; d_isAgentMessage := m_isAgentMessage m; d_principalOwner := m_principalOwner m;
  d_subAgentId := m_subAgentId m; d_identityClass := m_identityClass m |}.

(** All the rows a store lists. *)
Definition ALL_ROWS : nat := Z.to_nat 1000000.

Definition has_message_id (id : jsstr) (r : rv) : bool := match rv_get r "messageId" with Some (RStr x) => bool_decide (x = id) | _ => false end.

(** First occurrences. *)
Definition distinct (l : list jsstr) : list jsstr := foldl (λ r x, set_add x r) [] l.

Definition wire_asset (k : Payments.PaymentAssetKind) : PaymentAssetKind := match k with Payments.native => native | Payments.spt => spt end.

Section client.
Context `{JsonNumbers} `{JsText} `{Verification.HexCodec} `{Sha256} `{Base64Codec} `{MySoCrypto} `{EncryptionLib} `{MySoBcs} `{!DekCache} `{MlsEngine} {Ctx : Type}.
Context (config : client_config Ctx) (env : client_env) (fuel : nat).

#[local] Notation cl := (eff client client_error).

(** ** Payments *)

Definition sendTokenTransfer (signer : Signer) (ref : GroupRef) (digest amount : jsstr) (asset : PaymentAssetRef) (to : jsstr) (note : option jsstr)
    (requestMessageId senderWallet : option jsstr) (ctx : option Ctx) : cl jsstr :=
  senderAddress ← relayerAddress config signer;
  let digest := trim digest in
  txt ← lift_outcome PaymentFailed (encodeTokenTransferPayload amount asset to note);
  sendMessage config env fuel {|
    so_signer := signer; so_groupRef := ref; so_text := Some txt; so_files := []; so_kind := Some Envelope.token_transfer;
    so_idempotencyKey := Some (transferIdempotencyKey senderAddress digest);
    so_paymentMetadata := Some {| pm_digest := Some digest; pm_assetKind := wire_asset (asset_kind asset);
      pm_requestMessageId := requestMessageId; pm_senderWallet := senderWallet |};
    so_sharedPostAddress := None; so_attribution := None; so_principalOwner := None; so_ctx := ctx |}.

Definition sendPaymentRequest (signer : Signer) (ref : GroupRef) (requestId : option jsstr) (amount : jsstr) (asset : PaymentAssetRef)
    (description : option jsstr) (ctx : option Ctx) : cl jsstr :=
  s ← get_state;
  let id := default (ce_randomUUID env (now_tick s)) (non_empty (trim <$> requestId)) in
  txt ← lift_outcome PaymentFailed (encodePaymentRequestPayload amount asset description);
  sendMessage config env fuel {|
    so_signer := signer; so_groupRef := ref; so_text := Some txt; so_files := []; so_kind := Some Envelope.request_payment;
    so_idempotencyKey := Some (js "request:" ++ id);
    so_paymentMetadata := Some {| pm_digest := None; pm_assetKind := wire_asset (asset_kind asset); pm_requestMessageId := None; pm_senderWallet := None |};
    so_sharedPostAddress := None; so_attribution := None; so_principalOwner := None; so_ctx := ctx |}.

Definition respondToPaymentRequest (ref : GroupRef) (id action : jsstr) : cl unit :=
  ids ← resolveRef config ref;
  ok ← request_answer (RespondToPaymentRequest ids.1 id action) (λ t, ce_respond env t ids.1 id action);
  check TransportFailed ok.

(** ** Reading *)

Definition decrypt_row (raw : RelayerMessage) (g h : jsstr) (ctx : option Ctx) (verified : option bool) (resolving : bool) : cl (ClientMessage Ctx) :=
  on_crypto (decryptMessage (packageConfig config) (policy config) (ce_crypto env) (attachmentsConfig config) raw g h ctx verified resolving).

Definition decrypt_rows (g h : jsstr) (ctx : option Ctx) (l : list (RelayerMessage * option bool)) : cl (list (ClientMessage Ctx)) :=
  on_crypto (decrypt_settled (packageConfig config) (policy config) (ce_crypto env) (attachmentsConfig config) g h ctx l).

(** [#decryptUnwrapped]: rows of the device's store. *)
Definition decryptUnwrapped (rows : list rv) (g h : jsstr) (ctx : option Ctx) : cl (list (ClientMessage Ctx)) :=
  decrypt_rows g h ctx ((λ x : RelayerMessage * bool, (x.1, Some x.2)) <$> omap message_of_row rows).

Definition primary : cl nat := s ← get_state; ClientMessage.or_fail NotOnThisDevice (cl_mls s).

Definition mls_sync (g : jsstr) : cl (list rv) := i ← primary; on_session i (λ e, sync e fuel g).
Definition mls_rows (g : jsstr) (before : option number) (limit : nat) : cl (list rv) := i ← primary; on_session i (λ _, rows g before limit).

Definition storedMlsRow (g id : jsstr) : cl (option rv) :=
  l ← mls_rows g None ALL_ROWS;
  mret (head (filter (λ r, has_message_id id r = true) l)).

Definition getMessage (ref : GroupRef) (id : jsstr) (ctx : option Ctx) : cl (ClientMessage Ctx) :=
  ids ← resolveRef config ref;
  mls ← readsMls config env fuel ids.1;
  if (mls : bool) then
    stored ← storedMlsRow ids.1 id;
    stored ← (match stored with Some r => mret (Some r) | None => mls_sync ids.1;; storedMlsRow ids.1 id end);
    row ← ClientMessage.or_fail NotOnThisDevice stored;
    l ← decryptUnwrapped [row] ids.1 ids.2 ctx;
    ClientMessage.or_fail NotDecrypted (head l)
  else
    raw ← fetch_row env ids.1 id;
    check WrongMessage (bool_decide (messageId raw = id));;
    decrypt_row raw ids.1 ids.2 ctx None true.

Definition after_of (after : option number) (r : rv) : bool := match after with Some a => num_lt a (row_order r) | None => true end.
Definition before_of (before : option number) (r : rv) : bool := match before with Some b => num_lt (row_order r) b | None => true end.

Definition getMessages (ref : GroupRef) (after before : option number) (limit : option nat) (ctx : option Ctx) : cl (GetMessagesResult Ctx) :=
  ids ← resolveRef config ref;
  mls ← readsMls config env fuel ids.1;
  if (mls : bool) then
    mls_sync ids.1;;
    let n := default 50%nat limit in
    l ← mls_rows ids.1 before n;
    ms ← decryptUnwrapped (filter (λ r, after_of after r = true) l) ids.1 ids.2 ctx;
    mret {| gr_messages := ms; gr_hasNext := (length l =? n)%nat |}
  else
    let o := {| afterOrder := after; beforeOrder := before; limit := (λ n, Int (Z.of_nat n)) <$> limit |} in
    result ← ask (λ t, ce_fetchMessages env t ids.1 o);
    result ← ClientMessage.or_fail TransportFailed result;
    ms ← decrypt_rows ids.1 ids.2 ctx ((λ r, (r, None)) <$> messages result);
    mret {| gr_messages := ms; gr_hasNext := hasNext result |}.

(** ** Strict room pages *)

(** [#mlsPage] *)
Definition mlsPage (g : jsstr) (after before : option number) (limit : nat) : cl (list rv * bool) :=
  mls_sync g;;
  l ← mls_rows g None ALL_ROWS;
  let all := filter (λ r, after_of after r && before_of before r = true) l in
  let page := match after with Some _ => take limit all | None => drop (length all - limit) all end in
  mret (page, (length page <? length all)%nat).

Definition clear_keys (g : jsstr) : cl unit :=
  modify (λ s, let c := cl_crypto s in set_crypto (Crypto _ _ (clearCache (Some g) (cr_cache c)) (cr_ticks c) (cr_requests c)) s).

Definition assertReader (signer : Signer) (member g : jsstr) : cl unit :=
  address ← relayerAddress config signer;
  (if decide (address = member) then mret tt else clear_keys g;; throw SignerChanged);;
  allowed ← ask (λ t, ce_hasPermission env t g member (messagingReader config));
  allowed ← ClientMessage.or_fail ChainFailed allowed;
  if (allowed : bool) then mret tt else clear_keys g;; throw NotAReader.

Definition readRow (g h : jsstr) (ctx : option Ctx) (mls : bool) (x : RelayerMessage * bool) : cl RoomHistoryEntry :=
  let raw := x.1 in
  if decide (kind raw = k_system) then mret (SystemMetadata (messageId raw) (order raw))
  else if isDeleted raw then mret (DeletedMetadata (messageId raw) (order raw))
  else if negb (if mls then x.2 else verifyRawMessage raw) then mret (UnverifiedContent (messageId raw) (order raw))
  else
    try_catch
      (m ← try_catch (decrypt_row raw g h ctx (Some true) true)
             (λ e, match e with AttachmentResolutionError _ => decrypt_row raw g h ctx (Some true) false | _ => throw e end);
       e ← lift_outcome HistoryFailed (verifiedRoomEntry raw (history_message m));
       mret (VerifiedEntry e))
      (λ _, mret (UnavailableContent (messageId raw) (order raw))).

Fixpoint read_entries (g h : jsstr) (ctx : option Ctx) (mls : bool) (l : list (RelayerMessage * bool)) : cl (list RoomHistoryEntry) :=
  match l with
  | [] => mret []
  | x :: l' => e ← readRow g h ctx mls x; rest ← read_entries g h ctx mls l'; mret (e :: rest)
  end.

(** The raw page: from the device's store, or from the relayer (the flag of a
    relayer row is not read). *)
Definition room_rows (g : jsstr) (o : HistoryOptions) (limit : number) (mls : bool) : cl (list (RelayerMessage * bool) * bool) :=
  if mls then
    page ← mlsPage g (afterOrder o) (beforeOrder o) (match limit with Int n => Z.to_nat n | _ => O end);
    l ← ClientMessage.or_fail (HistoryFailed InvalidPage) (mapM message_of_row page.1);
    mret (l, page.2)
  else
    result ← ask (λ t, ce_fetchMessages env t g {| afterOrder := afterOrder o; beforeOrder := beforeOrder o; limit := Some limit |});
    result ← ClientMessage.or_fail TransportFailed result;
    mret ((λ r, (r, false)) <$> messages result, hasNext result).

Definition getRoomMessages (signer : Signer) (ref : GroupRef) (o : HistoryOptions) (ctx : option Ctx) : cl RoomHistoryPage :=
  lim ← lift_outcome HistoryFailed (validateRoomHistoryRequest o);
  ids ← resolveRef config ref;
  member ← relayerAddress config signer;
  assertReader signer member ids.1;;
  mls ← readsMls config env fuel ids.1;
  page ← room_rows ids.1 o lim mls;
  cursor ← lift_outcome HistoryFailed (validateRoomHistoryPage {| messages := fst <$> page.1; hasNext := page.2 |} ids.1
    {| afterOrder := afterOrder o; beforeOrder := beforeOrder o; limit := Some lim |});
  entries ← read_entries ids.1 ids.2 ctx mls page.1;
  assertReader signer member ids.1;;
  mret {| rp_groupId := ids.1; rp_entries := entries; rp_hasNext := page.2; rp_nextCursor := cursor;
          rp_allContentVerified := negb (is_nil entries) && forallb is_verified_entry entries |}.

(** ** Events, edits, deletion *)

Definition sendEvent (signer : Signer) (ref : GroupRef) (e : MessageEvent) (notifyWallets : option (list jsstr)) : cl jsstr :=
  ids ← resolveRef config ref;
  senderAddress ← relayerAddress config signer;
  sendEnvelope config env fuel signer ids.1 ids.2 None senderAddress (Event e)
    {| ep_notifyWallets := notifyWallets; ep_idempotencyKey := None; ep_sharedPostAddress := None; ep_transferDigest := None;
       ep_paymentMetadata := None; ep_attribution := None |}.

Definition setPinned (signer : Signer) (ref : GroupRef) (id : jsstr) (pinned : bool) : cl jsstr := sendEvent signer ref (Pin id pinned) None.

(** The envelope references of an edited message. *)
Definition edit_refs (a : EditAttachments) : cl (list EnvelopeAttachment) :=
  let kept := filter (λ x, att_id x ∉ default [] (ea_remove a)) (default [] (ea_currentEnvelope a)) in
  added ← (if is_nil (ea_new a) then mret [] else
           c ← requireAttachments config; encrypting (uploadV2 (ce_crypto env) c (ea_new a)));
  mret (kept ++ added).

(** The final references of an edited legacy message, and what to delete. *)
Definition edit_legacy (a : EditAttachments) (g h : jsstr) (ctx : option Ctx) (binding : AadParams) : cl (list Attachment * list jsstr) :=
  let removed := distinct (default [] (ea_remove a)) in
  let kept := filter (λ x, storageId x ∉ removed) (ea_current a) in
  uploaded ← uploadAttachments config env (ea_new a) g h ctx binding;
  mret (kept ++ uploaded, removed).

Definition editMessageV1 (o : EditMessageOptions Ctx) (g h senderAddress : jsstr) : cl unit :=
  existing ← fetch_row env g (eo_messageId o);
  let k := match kind existing with k_system => k_text | k => k end in
  v ← getCurrentKeyVersion env h;
  a ← message_aad g v senderAddress;
  envelope ← encrypting (group_encrypt (packageConfig config) (policy config) (ce_crypto env) g h (utf8_encode (eo_text o)) (Some v) (eo_ctx o) (Some a));
  final ← (match eo_attachments o with
           | Some x => edit_legacy x g h (eo_ctx o) {| aad_groupId := g; aad_keyVersion := v; aad_senderAddress := senderAddress |}
           | None => mret (attachments existing, [])
           end);
  let version := signature_version (negb (is_nil final.1) || has_attribution existing) in
  sig ← sign (eo_signer o) {|
    Verification.groupId := g; Verification.kind := Some (kind_name k); Verification.signatureVersion := Some version;
    Verification.encryptedText := Encryption.ciphertext envelope; Verification.nonce := Encryption.nonce envelope;
    Verification.keyVersion := Encryption.keyVersion envelope; sharedPostAddress := None; transferDigest := None; idempotencyKey := None;
    Verification.attachments := Some final.1; attribution := row_attribution existing |};
  let p := {| up_messageId := eo_messageId o; up_groupId := g; up_encryptedText := Encryption.ciphertext envelope;
              up_nonce := Encryption.nonce envelope; up_keyVersion := Encryption.keyVersion envelope; up_signatureVersion := Some version;
              up_attachments := Some final.1; up_messageSignature := Some sig |} in
  ok ← request_answer (UpdateMessage p) (λ t, ce_updateMessage env t p);
  check TransportFailed ok;;
  if bool_decide (is_Some (attachmentsConfig config)) then encrypting (deleteStorageEntries (ce_crypto env) final.2) else mret tt.

Definition editMessage (o : EditMessageOptions Ctx) : cl unit :=
  ids ← resolveRef config (eo_groupRef o);
  senderAddress ← relayerAddress config (eo_signer o);
  v2 ← writesContentEnvelopeV2 config env (eo_groupRef o) false;
  if (v2 : bool) then
    att ← (match eo_attachments o with Some a => l ← edit_refs a; mret (Some l) | None => mret None end);
    sendEnvelope config env fuel (eo_signer o) ids.1 ids.2 (eo_ctx o) senderAddress (Event (Edit (eo_messageId o) (eo_text o) att)) no_params;;
    mret tt
  else editMessageV1 o ids.1 ids.2 senderAddress.

Definition deleteMessage (signer : Signer) (ref : GroupRef) (id : jsstr) : cl unit :=
  ids ← resolveRef config ref;
  v2 ← writesContentEnvelopeV2 config env ref false;
  (if (v2 : bool) then
     senderAddress ← relayerAddress config signer;
     sendEnvelope config env fuel signer ids.1 ids.2 None senderAddress (Event (Delete id)) no_params;; mret tt
   else mret tt);;
  ok ← request_answer (DeleteMessage ids.1 id) (λ t, ce_deleteMessage env t ids.1 id);
  check TransportFailed ok.

(** ** Reactions *)

(** [#reactV2]: [false] for a group that writes no envelopes. *)
Definition reactV2 (signer : Signer) (ref : GroupRef) (id target : option jsstr) (emoji : jsstr) (add : bool) : cl bool :=
  v2 ← writesContentEnvelopeV2 config env ref false;
  if negb v2 then mret false else
  id ← ClientMessage.or_fail MissingMessageId (non_empty id);
  sender ← relayerAddress config signer;
  let target := toLowerCase <$> target in
  emoji ← ClientMessage.or_fail BadEmoji (emojiToStorage emoji);
  sendEvent signer ref (Reaction id emoji add)
    (match non_empty target with Some t => if add && negb (bool_decide (t = toLowerCase sender)) then Some [t] else None | None => None end);;
  mret true.

(** [addReaction] and [removeReaction] *)
Definition react (signer : Signer) (ref : GroupRef) (chainSeq : number) (id target : option jsstr) (emoji : jsstr) (add : bool) : cl unit :=
  done ← reactV2 signer ref id target emoji add;
  if (done : bool) then mret tt else
  ids ← resolveRef config ref;
  emoji ← ClientMessage.or_fail BadEmoji (emojiToStorage emoji);
  ok ← request_answer (PostGroupReaction ids.1 chainSeq emoji add) (λ t, ce_postReaction env t ids.1 chainSeq emoji add);
  check TransportFailed ok.

(** ** Names and group data *)

Definition encryptGroupName (ref : GroupRef) (name : jsstr) : cl jsstr :=
  ids ← resolveRef config ref;
  v ← getCurrentKeyVersion env ids.2;
  padded ← ClientMessage.or_fail NameTooLong (padGroupName name);
  sealed ← encrypting (group_encrypt (packageConfig config) (policy config) (ce_crypto env) ids.1 ids.2 padded (Some v) None (Some (groupNameAad ids.1)));
  mret (formatEncryptedGroupName v (Encryption.nonce sealed) (Encryption.ciphertext sealed)).

Definition decryptGroupName (ref : GroupRef) (name : jsstr) : cl (option jsstr) :=
  match parseEncryptedGroupName name with
  | None => mret (if isEncryptedGroupName name then None else Some name)
  | Some p =>
      ids ← resolveRef config ref;
      try_catch
        (padded ← encrypting (group_decrypt (packageConfig config) (policy config) (ce_crypto env) ids.1 ids.2
           {| Encryption.ciphertext := gn_ciphertext p; Encryption.nonce := gn_nonce p; Encryption.keyVersion := gn_keyVersion p;
              Encryption.aad := Some (groupNameAad ids.1) |} None);
         mret (unpadGroupName padded))
        (λ _, mret None)
  end.

Definition execute (tx : chain_tx) : cl unit := ok ← request_answer (ExecuteTransaction tx) (λ t, ce_execute env t tx); check ChainFailed ok.

Definition insertGroupData (g key value : jsstr) : cl unit := execute (InsertGroupData g key value).

(** The transaction, then a refresh whose failure is ignored. *)
Definition insert_and_refresh (g key value : jsstr) : cl unit :=
  insertGroupData g key value;;
  try_catch (groupsMetadata config env [g] true;; mret tt) (λ _, mret tt).

Definition enableContentEnvelopeV2 (ref : GroupRef) : cl unit := ids ← resolveRef config ref; insert_and_refresh ids.1 (js "e2ee") (js "v2").

(** [days] is the floor of the option, clamped. *)
Definition setHistorySharing (ref : GroupRef) (days : Z) : cl unit :=
  ids ← resolveRef config ref;
  insert_and_refresh ids.1 (js "e2ee_history_days") (dec_Z (Z.max 0 (Z.min 365 days))).

Definition setGroupName (g name : jsstr) : cl unit :=
  metas ← groupsMetadata config env [g] false;
  name ← (match non_empty (gm_uuid <$> map_get g metas) with
          | Some uuid => v2 ← writesContentEnvelopeV2 config env (UuidRef uuid) false;
                         if (v2 : bool) then encryptGroupName (UuidRef uuid) name else mret name
          | None => mret name
          end);
  execute (SetGroupName g name).

(** ** Live events *)

(** What one event of the transport's subscription yields. *)
Definition on_event (g h : jsstr) (ctx : option Ctx) (event : RelayerSubscriptionEvent) : cl (list (MessagingEvent Ctx)) :=
  match event with
  | MessageCreated m | MessageDeleted m | MessageEdited m =>
      mls ← try_catch (b ← readsMls config env fuel g; mret (Some b)) (λ _, mret None);
      match mls with
      | None => mret []
      | Some true => try_catch (fresh ← mls_sync g; l ← decryptUnwrapped fresh g h ctx; mret (OnMessage <$> l)) (λ _, mret [])
      | Some false => try_catch (x ← decrypt_row m g h ctx None true; mret [OnMessage x]) (λ _, mret [])
      end
  | ReactionUpdated r => mret [OnReaction r]
  | TypingStart t => mret [OnTyping (ty_member t) true (ty_expiresAt t)]
  | TypingStop t => mret [OnTyping (ty_member t) false None]
  | PresenceUpdated p => mret [OnPresence (pr_member p) (pr_online p)]
  | ReceiptUpdated r => mret [OnReceipt r]
  end.

Fixpoint events_loop (g h : jsstr) (ctx : option Ctx) (events : list RelayerSubscriptionEvent) : cl (list (MessagingEvent Ctx)) :=
  match events with
  | [] => mret []
  | e :: l => x ← on_event g h ctx e; rest ← events_loop g h ctx l; mret (x ++ rest)
  end.

(** [subscribe], on the events the transport has yielded. *)
Definition subscribe (ref : GroupRef) (ctx : option Ctx) (events : list RelayerSubscriptionEvent) : cl (list (MessagingEvent Ctx)) :=
  ids ← resolveRef config ref; events_loop ids.1 ids.2 ctx events.

(** ** Recovery *)

Definition recoverMessages (ref : GroupRef) (o : HistoryOptions) (ctx : option Ctx) : cl (GetMessagesResult Ctx) :=
  match ce_recover env with
  | None => throw RecoveryNotConfigured
  | Some recover =>
      ids ← resolveRef config ref;
      flag ← try_catch (e2eeFlag config env ids.1) (λ _, mret None);
      if decide (flag = Some (js "mls1")) then mret {| gr_messages := []; gr_hasNext := false |} else
      result ← ask (λ t, recover t ids.1 o);
      result ← ClientMessage.or_fail TransportFailed result;
      ms ← decrypt_rows ids.1 ids.2 ctx ((λ r, (r, None)) <$> messages result);
      mret {| gr_messages := ms; gr_hasNext := hasNext result |}
  end.
End client.
