(* ===== verification/ClientProps.v ===== *)
(** What the client's sending and reading guarantee ([client.ts]).

    [does I P m Q]: from a state with [I], [m] ends in a state with [I], has
    added to the client's requests only some with [P], and what it returns
    has [Q]. *)
From S2P Require Import Prelude JsString JsMap Utf8 TextDecoder Json Base64 Anchors AuthHeaders GroupName Payments Aad Encryption Envelope Verification Wire RoomHistory HttpTransport HttpCalls MlsRows MlsTypes MlsCertificates MlsSession Attachments ClientMessage Client ClientRead.

#[local] Set Warnings "-notation-overridden".

(** * A logic of requests *)

Section logic.
Context `{EncryptionLib} `{!DekCache} `{MlsEngine}.
#[local] Notation cl := (eff client client_error).

Definition does (I : client → Prop) (P : request → Prop) {A} (m : cl A) (Q : A → Prop) : Prop :=
  ∀ s, I s → I (m s).2 ∧ (∃ l, cl_sent (m s).2 = cl_sent s ++ l ∧ Forall P l) ∧ ∀ a, (m s).1 = Ok a → Q a.

Context (I : client → Prop) (P : request → Prop).

Lemma does_run {A} (m : cl A) Q s a s' : does I P m Q → I s → m s = (Ok a, s') →
  I s' ∧ (∃ l, cl_sent s' = cl_sent s ++ l ∧ Forall P l) ∧ Q a.
Proof. intros Hm Hs E. destruct (Hm s Hs) as (Hi & Hl & Hq). rewrite E in Hi, Hl, Hq. split_and!; [done|done|by apply Hq]. Qed.

Lemma does_mono {A} (m : cl A) (Q Q' : A → Prop) : does I P m Q → (∀ a, Q a → Q' a) → does I P m Q'.
Proof. intros Hm HQ s Hs. destruct (Hm s Hs) as (? & ? & Hq). split_and!; [done|done|]. intros a Ha. by apply HQ, Hq. Qed.

Lemma does_same {A} (r : outcome client_error A) (Q : A → Prop) : (∀ a, r = Ok a → Q a) → does I P (λ s, (r, s)) Q.
Proof. intros HQ s Hs. split_and!; [done|exists []; by rewrite app_nil_r|done]. Qed.

Lemma does_ret {A} (a : A) (Q : A → Prop) : Q a → does I P (mret a) Q.
Proof. intros Ha. apply does_same. by intros x [= <-]. Qed.

Lemma does_throw {A} e (Q : A → Prop) : does I P (throw e) Q.
Proof. by apply does_same. Qed.

Lemma does_bind {A B} (m : cl A) (k : A → cl B) R Q : does I P m R → (∀ a, R a → does I P (k a) Q) → does I P (m ≫= k) Q.
Proof.
  intros Hm Hk s Hs. destruct (Hm s Hs) as (Hi & (l & El & Hl) & HR). unfold mbind, eff_bind.
  destruct (m s) as [[a|e] s1]; simpl in *; [|split_and!; [done|by exists l|done]].
  destruct (Hk a (HR a eq_refl) s1 Hi) as (Hi' & (l' & El' & Hl') & HQ). split_and!; [done| |done].
  exists (l ++ l'). rewrite El', El, (assoc_L (++)). split; [done|by apply Forall_app].
Qed.

Lemma does_get {B} (k : client → cl B) Q : (∀ s, I s → does I P (k s) Q) → does I P (get_state ≫= k) Q.
Proof. intros Hk s Hs. exact (Hk s Hs s Hs). Qed.

Lemma does_modify (f : client → client) (Q : () → Prop) : (∀ s, I s → I (f s) ∧ cl_sent (f s) = cl_sent s) → Q () → does I P (modify f) Q.
Proof. intros Hf HQ s Hs. destruct (Hf s Hs) as [? E]. split_and!; [done|exists []; by rewrite app_nil_r|by intros []]. Qed.

Lemma does_catch {A} (m : cl A) h Q : does I P m Q → (∀ e, does I P (h e) Q) → does I P (try_catch m h) Q.
Proof.
  intros Hm Hh s Hs. destruct (Hm s Hs) as (Hi & (l & El & Hl) & HQ). unfold try_catch.
  destruct (m s) as [[a|e] s1]; simpl in *; [split_and!; [done|by exists l|done]|].
  destruct (Hh e s1 Hi) as (Hi' & (l' & El' & Hl') & HQ'). split_and!; [done| |done].
  exists (l ++ l'). rewrite El', El, (assoc_L (++)). split; [done|by apply Forall_app].
Qed.

Lemma does_check e b : does I P (check e b) (λ _, b = true).
Proof. unfold check. destruct b; [by apply does_ret|apply does_throw]. Qed.

Lemma does_fail {A} e (o : option A) : does I P (ClientMessage.or_fail e o) (λ a, o = Some a).
Proof. destruct o; [by apply does_ret|apply does_throw]. Qed.

Lemma does_lift {E A} (f : E → client_error) (o : outcome E A) : does I P (lift_outcome f o) (λ a, o = Ok a).
Proof. destruct o; [by apply does_ret|apply does_throw]. Qed.

(** The states' parts that calls move. *)
Context (Htick : ∀ s, I s → I (tick_client s)).

Lemma does_ask {A} (f : nat → A) : does I P (ask f) (λ a, ∃ t, a = f t).
Proof.
  unfold ask. apply does_get. intros s Hs. eapply does_bind; [by apply (does_modify _ (λ _, True)); [intros; split; [by apply Htick|]|]|].
  intros _ _. apply does_ret. by exists (now_tick s).
Qed.

Lemma does_request {A} r (f : nat → A) : (∀ s, I s → I (add_request r s)) → P r → does I P (request_answer r f) (λ _, True).
Proof.
  intros Hadd Hr s Hs. unfold request_answer, mbind, eff_bind, get_state, modify. simpl. split_and!; [by apply Hadd, Htick| |done].
  exists [r]. split; [done|by constructor].
Qed.

Lemma does_session {A} i (m : mls_env → eff session mls_error A) (Q : A → Prop) :
  (∀ s e x x', I s → cl_heap s !! i = Some (e, x) → I (set_heap (<[i := (e, x')]> (cl_heap s)) s)) →
  (∀ s e x a x', I s → cl_heap s !! i = Some (e, x) → m e x = (Ok a, x') → Q a) → does I P (on_session i m) Q.
Proof.
  intros Hheap HQ s Hs. unfold on_session. destruct (cl_heap s !! i) as [[e x]|] eqn:E; [|by apply does_throw].
  destruct (m e x) as [r x'] eqn:Em. simpl. split_and!; [by eapply Hheap|exists []; by rewrite app_nil_r|].
  intros a Ha. destruct r as [b|]; [|done]. injection Ha as ->. by eapply HQ.
Qed.

Lemma does_crypto {A} (m : eff crypto client_error A) (Q : A → Prop) :
  (∀ s, I s → I (set_crypto (m (cl_crypto s)).2 s)) → (∀ s a, I s → (m (cl_crypto s)).1 = Ok a → Q a) → does I P (on_crypto m) Q.
Proof.
  intros Hi HQ s Hs. unfold on_crypto. specialize (Hi s Hs). specialize (HQ s). destruct (m (cl_crypto s)) as [r c]. simpl in *.
  split_and!; [done|exists []; by rewrite app_nil_r|]. intros a Ha. by apply HQ.
Qed.
End logic.

(** * Steps shared by the calls *)

Section steps.
Context `{JsonNumbers} `{JsText} `{Verification.HexCodec} `{Sha256} `{Base64Codec} `{MySoCrypto} `{EncryptionLib} `{MySoBcs} `{!DekCache} `{MlsEngine} {Ctx : Type}.
Context (config : client_config Ctx) (env : client_env) (I : client → Prop) (P : request → Prop) (Htick : ∀ s, I s → I (tick_client s)).

Lemma getCurrentKeyVersion_does h : does I P (getCurrentKeyVersion env h) (λ _, True).
Proof.
  unfold getCurrentKeyVersion. eapply does_bind; [apply (does_ask I P Htick)|]. intros v _.
  eapply does_mono; [apply does_lift|done].
Qed.

Definition the_kind (o : SendMessageOptions Ctx) : EnvelopeMessageType := default text (so_kind o).
Definition the_text (o : SendMessageOptions Ctx) : jsstr := default [] (so_text o).

Definition transfer_of (o : SendMessageOptions Ctx) : jsstr := trim (default [] (so_paymentMetadata o ≫= pm_digest)).

Definition digest_of (o : SendMessageOptions Ctx) : option jsstr :=
  match the_kind o with Envelope.token_transfer => Some (transfer_of o) | _ => None end.

(** The checks of a kind have passed. *)
Definition checked_kind (o : SendMessageOptions Ctx) (sender : jsstr) : Prop :=
  match the_kind o with
  | post => is_Some (shared_post o) ∧ has_key o = true
  | Envelope.token_transfer => transfer_of o ≠ [] ∧ so_idempotencyKey o = Some (transferIdempotencyKey sender (transfer_of o))
  | _ => True
  end.

Lemma post_checks_does o e : does I P (post_checks o e) (λ _, the_kind o = post → is_Some (shared_post o) ∧ has_key o = true).
Proof.
  unfold post_checks, the_kind. destruct (default text (so_kind o)); try by apply does_ret.
  eapply does_bind; [apply does_check|]. intros [] Hp. eapply does_mono; [apply does_check|]. intros [] Hk _.
  split; [by apply bool_decide_eq_true in Hp|done].
Qed.

Lemma payment_checks_does o sender : does I P (payment_checks o sender) (λ d, d = digest_of o ∧ (the_kind o = Envelope.token_transfer →
  transfer_of o ≠ [] ∧ so_idempotencyKey o = Some (transferIdempotencyKey sender (transfer_of o)))).
Proof.
  unfold payment_checks, digest_of, the_kind. destruct (default text (so_kind o)); try by apply does_ret.
  - eapply does_bind; [apply does_check|]. intros [] Hd. eapply does_bind; [apply does_check|]. intros [] Hk. apply does_ret.
    split; [done|]. intros _. apply bool_decide_eq_true in Hk. split; [|done]. unfold transfer_of. by destruct (trim _).
  - eapply does_bind; [apply does_check|]. intros [] _. eapply does_bind; [apply does_check|]. intros [] _. by apply does_ret.
Qed.

Lemma checkEitherBlocked_does a b x : does I P (checkEitherBlocked env a b x) (λ _, True).
Proof.
  unfold checkEitherBlocked. eapply does_bind; [apply (does_ask I P Htick)|]. intros r _. eapply does_bind; [apply does_fail|]. intros [] _; [by apply does_ret|].
  destruct (non_empty x) as [p|]; [|by apply does_ret]. case_decide; [by apply does_ret|].
  eapply does_bind; [apply (does_ask I P Htick)|]. intros y _. eapply does_mono; [apply does_fail|done].
Qed.

Lemma assertDm_does g a x : does I P (assertDmNotBlocked config env g a x) (λ _, True).
Proof.
  unfold assertDmNotBlocked. destruct (negb _); [by apply does_ret|].
  eapply does_bind; [apply (does_ask I P Htick)|]. intros r _. eapply does_bind; [apply does_fail|]. intros l _.
  destruct (filter _ _) as [|peer [|]]; try by apply does_ret.
  eapply does_bind; [apply checkEitherBlocked_does|]. intros b _. eapply does_mono; [apply does_check|done].
Qed.
End steps.

Notation nothing := (λ _ : request, False).

Lemma no_requests (s s' : list request) : (∃ l, s' = s ++ l ∧ Forall nothing l) → s' = s.
Proof. intros (l & -> & Hl). destruct l as [|r l]; [by rewrite app_nil_r|]. by apply Forall_cons in Hl as [[] _]. Qed.

(** * Groups without MLS *)

Section plain.
Context `{JsonNumbersLaws} `{JsTextLaws} `{HexCodecLaws} `{Sha256} `{Base64Codec} `{MySoCryptoLaws} `{EncryptionLaws} `{MySoBcs} `{!DekCache} `{!DekCacheLaws} `{MlsEngine} {Ctx : Type}.
Context (config : client_config Ctx) (env : client_env) (fuel : nat) (w : view) (history : jsstr → jsstr) (g : jsstr).

(** [U]: what the chain may answer for the group's metadata, if it answers; not [mls1]. *)
Context (U : GroupMetadata → Prop) (heap : list (mls_env * session)).

Definition unflagged : Prop := ∀ m, U m → lookup_value (js "e2ee") (gm_data m) ≠ Some (js "mls1").

Definition answers : Prop := ∀ t ids l m, ce_objects env t ids = Some l → Metadata m ∈ l →
  Encryption.groupId (packageConfig config) (gm_uuid m) = g → U m.

Definition no_flag (l : list (jsstr * GroupMetadata)) : Prop := ∀ m, map_get g l = Some m → U m.

(** The cached keys are the published ones, the cached metadata is not flagged,
    and the sessions are [heap]. *)
Definition plain (s : client) : Prop := coherent w history (cr_cache (cl_crypto s)) ∧ no_flag (cl_metadata s) ∧ cl_heap s = heap.

Context (Hunflagged : unflagged) (Hanswers : answers) (Htruth : truthful w history (ce_crypto env)).

Lemma plain_tick s : plain s → plain (tick_client s).
Proof. done. Qed.

Lemma no_flag_set k m l : (k = g → U m) → no_flag l → no_flag (map_set k m l).
Proof. intros Hm Hl x. rewrite map_get_set. case_decide; [intros [= <-]; by apply Hm|apply Hl]. Qed.

Lemma read_objects_plain l : ∀ result, (∀ m, Metadata m ∈ l → Encryption.groupId (packageConfig config) (gm_uuid m) = g → U m) →
  no_flag result → does plain nothing (read_objects config l result) no_flag.
Proof.
  induction l as [|[| |m] l IH]; intros result Hl Hr; simpl.
  - by apply does_ret.
  - apply IH; [|done]. intros x Hx. apply Hl. by right.
  - apply does_throw.
  - eapply does_bind; [apply (does_modify _ _ _ (λ _, True)); [|done]|].
    + intros s (Hc & Hm & Hh). split; [|done]. split; [done|]. split; [|done]. apply no_flag_set; [|done]. apply Hl. left.
    + intros _ _. apply IH; [intros x Hx; apply Hl; by right|]. apply no_flag_set; [|done]. apply Hl. left.
Qed.

Lemma groupsMetadata_plain ids refresh : does plain nothing (groupsMetadata config env ids refresh) no_flag.
Proof.
  unfold groupsMetadata. apply does_get. intros s (_ & Hm & _). set (cached := λ x, if refresh then None else map_get x (cl_metadata s)).
  assert (no_flag (foldl (λ r x, match cached x with Some m => map_set x m r | None => r end) [] ids)) as Hk.
  { assert (∀ r, no_flag r → no_flag (foldl (λ r x, match cached x with Some m => map_set x m r | None => r end) r ids)) as Hf; [|by apply Hf].
    induction ids as [|x ids IH]; intros r Hr; simpl; [done|]. apply IH. destruct (cached x) as [m|] eqn:E; [|done].
    apply no_flag_set; [|done]. intros ->. unfold cached in E. destruct refresh; [done|]. by apply Hm. }
  cbv zeta. fold cached. destruct (is_nil _); [by apply does_ret|].
  eapply does_bind; [apply does_ask, plain_tick|]. intros o [t ->].
  eapply does_bind; [apply does_fail|]. intros l El. apply read_objects_plain; [|done]. intros m Hin. exact (Hanswers _ _ _ _ El Hin).
Qed.

Lemma flag_plain refresh : does plain nothing (group_value config env g (js "e2ee") refresh)
  (λ f, f ≠ Some (js "mls1") ∧ ((∀ m, ¬ U m) → f = None)).
Proof.
  unfold group_value. eapply does_bind; [apply groupsMetadata_plain|]. intros l Hl. apply does_ret.
  destruct (map_get g l) as [m|] eqn:E; [|done]. simpl. split; [by apply Hunflagged, Hl|]. intros HU. destruct (HU m (Hl m E)).
Qed.

Lemma sender_plain a : does plain nothing (senderMlsSession config env fuel g a) (λ i, i = None).
Proof.
  unfold senderMlsSession, e2eeFlag. eapply does_bind; [apply flag_plain|]. intros f [Hf _].
  rewrite bool_decide_eq_false_2 by done. by apply does_ret.
Qed.

(** The sealed content of a row. *)
Lemma encrypt_plain data v ctx a : does plain nothing
  (encrypting (group_encrypt (packageConfig config) (policy config) (ce_crypto env) g (history g) data (Some v) ctx (Some a)))
  (λ e, sealed_for w history g data e ∧ Encryption.keyVersion e = v ∧ Encryption.aad e = Some a).
Proof.
  unfold encrypting. apply does_crypto.
  - intros s [Hc Hm]. split; [|exact Hm]. simpl. unfold crypt.
    pose proof (group_encrypt_coherent (packageConfig config) w history (policy config) (ce_crypto env) g data (Some v) ctx (Some a) _ Htruth Hc) as Hc'.
    by destruct (group_encrypt _ _ _ _ _ _ _ _ _ (cl_crypto s)) as [r c].
  - intros s e [Hc Hm]. unfold crypt. destruct (group_encrypt _ _ _ _ _ _ _ _ _ (cl_crypto s)) as [[x|x] c] eqn:E; [|done].
    intros [= <-]. apply (group_encrypt_sealed _ w history) in E as (_ & Hs & _ & Ha & Hv & _); [|done..]. split_and!; try done. by apply Hv.
Qed.

(** What the client posts for [data]: the group's ciphertext of it, signed with
    the row's bound fields, [digest] among them. *)
Definition signed_params (p : SendMessageParams) (digest : option jsstr) : CanonicalParams := {|
  Verification.groupId := sp_groupId p; Verification.kind := kind_name <$> sp_kind p; Verification.signatureVersion := sp_signatureVersion p;
  Verification.encryptedText := sp_encryptedText p; Verification.nonce := sp_nonce p; Verification.keyVersion := sp_keyVersion p;
  sharedPostAddress := sp_sharedPostAddress p; transferDigest := digest; idempotencyKey := sp_idempotencyKey p;
  Verification.attachments := Some (default [] (sp_attachments p)); attribution := signed_attribution <$> sp_attribution p |}.

Definition row_aad (p : SendMessageParams) (sender : jsstr) : option bytes :=
  buildMessageAad {| aad_groupId := sp_groupId p; aad_keyVersion := sp_keyVersion p; aad_senderAddress := sender |}.

Definition row_envelope (p : SendMessageParams) (a : option bytes) : EncryptedEnvelope :=
  {| Encryption.ciphertext := sp_encryptedText p; Encryption.nonce := sp_nonce p; Encryption.keyVersion := sp_keyVersion p; Encryption.aad := a |}.

Definition posted (signer : Signer) (sender : jsstr) (digest : option jsstr) (data : bytes) (p : SendMessageParams) : Prop :=
  sp_groupId p = g ∧ is_Some (row_aad p sender) ∧ sealed_for w history g data (row_envelope p (row_aad p sender))
  ∧ ∃ sig, sp_messageSignature p = Some sig ∧ signMessageContent signer (signed_params p digest) = Ok sig.

(** One row is posted, last. *)
Definition posts (m : eff client client_error jsstr) (Q : SendMessageParams → Prop) : Prop :=
  ∀ s id s', plain s → m s = (Ok id, s') → plain s' ∧ ∃ p, cl_sent s' = cl_sent s ++ [SendMessage p] ∧ Q p.

Lemma posts_bind {A} (m : eff client client_error A) k (R : A → Prop) Q : does plain nothing m R → (∀ a, R a → posts (k a) Q) → posts (m ≫= k) Q.
Proof.
  intros Hm Hk s id s' Hs (a & s1 & Em & E)%bind_ok_inv.
  destruct (does_run _ _ _ _ _ _ _ Hm Hs Em) as (Hs1 & Hq%no_requests & Ha). rewrite <-Hq. exact (Hk a Ha s1 id s' Hs1 E).
Qed.

Lemma posts_row p (Q : SendMessageParams → Prop) : Q p → posts (post_row env p) Q.
Proof.
  intros HQ s id s' Hs. unfold post_row, request_answer, mbind, eff_bind, get_state, modify. simpl.
  destruct (ce_sendMessage _ _ _) as [x|]; [|done]. intros [= <- <-]. split; [done|]. by exists p.
Qed.

Lemma posts_same m (k : jsstr → eff client client_error jsstr) Q : posts m Q → (∀ id s, k id s = (Ok id, s)) → posts (m ≫= k) Q.
Proof. intros Hm Hk s id s' Hs (x & s1 & E & Er)%bind_ok_inv. rewrite Hk in Er. injection Er as -> ->. exact (Hm _ _ _ Hs E). Qed.

Lemma sendEnvelope_posts signer ctx sender envelope x : posts (sendEnvelope config env fuel signer g (history g) ctx sender envelope x)
  (λ p, posted signer sender (ep_transferDigest x) (encodeContentEnvelope envelope) p ∧ sp_kind p = Some (kind_of_envelope envelope)
        ∧ sp_attachments p = None ∧ sp_attribution p = ep_attribution x ∧ sp_idempotencyKey p = ep_idempotencyKey x
        ∧ sp_paymentMetadata p = ep_paymentMetadata x ∧ sp_sharedPostAddress p = ep_sharedPostAddress x
        ∧ sp_signatureVersion p = Some (signature_version (bool_decide (is_Some (ep_attribution x))))).
Proof.
  unfold sendEnvelope. eapply posts_bind; [apply getCurrentKeyVersion_does, plain_tick|]. intros v _.
  eapply posts_bind; [apply does_fail|]. intros a Ea. cbn beta in Ea. eapply posts_bind; [apply encrypt_plain|]. intros sealed (Hs & Hv & Had).
  eapply posts_bind; [apply sender_plain|]. intros i ->. apply (posts_bind _ _ (λ r, r = (Encryption.ciphertext sealed, Encryption.nonce sealed))); [by apply does_ret|]. intros row ->.
  eapply posts_bind; [apply does_lift|]. intros sig Hsig.
  apply posts_same; [|done]. apply posts_row. unfold posted, row_aad, row_envelope, signed_params. cbn.
  rewrite Hv, Ea. split_and!; try done; [|by exists sig; rewrite <-Hv].
  rewrite <-Hv, <-Had. by destruct sealed.
Qed.
(** ** A message without files *)

(** What is encrypted, and the kind of the row. *)
Definition content_of (o : SendMessageOptions Ctx) (v2 : bool) : bytes :=
  if v2 then encodeContentEnvelope (Message (the_kind o) (the_text o) None) else utf8_encode (the_text o).
Definition row_kind_of (o : SendMessageOptions Ctx) (v2 : bool) : MessageKind :=
  if v2 then kind_of_envelope (Message (the_kind o) (the_text o) None) else kind_of_type (the_kind o).

Definition sender_of (o : SendMessageOptions Ctx) (a : jsstr) : Prop :=
  ∃ t, a = match authSigner config with Some f => f t (so_signer o) | None => toMySoAddress (so_signer o) end.

Definition sent_as (o : SendMessageOptions Ctx) (sender : jsstr) (v2 : bool) (p : SendMessageParams) : Prop :=
  posted (so_signer o) sender (digest_of o) (content_of o v2) p ∧ sp_kind p = Some (row_kind_of o v2)
  ∧ sp_attachments p = None ∧ sp_attribution p = so_attribution o ∧ sp_idempotencyKey p = so_idempotencyKey o
  ∧ sp_paymentMetadata p = (if sends_payment (the_kind o) then so_paymentMetadata o else None) ∧ sp_sharedPostAddress p = shared_post o
  ∧ sp_signatureVersion p = Some (signature_version (bool_decide (is_Some (so_attribution o)))).

Lemma writes_plain ref m : resolveGroupRef (packageConfig config) ref = Some (g, history g, m) →
  does plain nothing (writesContentEnvelopeV2 config env ref false) (λ b, (∀ m, ¬ U m) → b = false).
Proof.
  intros Hr. unfold writesContentEnvelopeV2, resolveRef. rewrite Hr. eapply does_bind; [apply does_fail|]. intros ids [= <-].
  apply does_catch; [|intros e; by apply does_ret]. eapply does_bind; [apply flag_plain|]. intros f [_ Hf]. apply does_ret. intros HU. by rewrite (Hf HU).
Qed.

Lemma sendMessageV2_posts o sender : so_files o = [] → posts (sendMessageV2 config env fuel o g (history g) sender)
  (λ p, sent_as o sender true p ∧ checked_kind o sender).
Proof.
  intros Hf. unfold sendMessageV2. rewrite Hf. apply (posts_bind _ _ (λ r, r = None)); [by apply does_ret|]. intros att ->.
  eapply posts_bind; [apply post_checks_does|]. intros [] Hp. eapply posts_bind; [apply payment_checks_does|]. intros d [-> Ht].
  intros s id s' Hs E. apply sendEnvelope_posts in E as (Hs' & p & Ep & H1p & H2p & H3p & H4p & H5p & H6p & H7p & H8p); [|done].
  split; [done|]. exists p. split; [done|]. split; [by split_and!|]. unfold checked_kind. destruct (the_kind o); auto.
Qed.

Lemma sendMessageV1_posts o sender : so_files o = [] → posts (sendMessageV1 config env o g (history g) sender)
  (λ p, sent_as o sender false p ∧ checked_kind o sender).
Proof.
  intros Hf. unfold sendMessageV1. rewrite Hf. eapply posts_bind; [apply getCurrentKeyVersion_does, plain_tick|]. intros v _.
  eapply posts_bind; [apply does_fail|]. intros a Ea. cbn beta in Ea. eapply posts_bind; [apply encrypt_plain|]. intros sealed (Hs & Hv & Had).
  apply (posts_bind _ _ (λ r, r = [])); [by apply does_ret|]. intros refs ->.
  eapply posts_bind; [apply post_checks_does|]. intros [] Hp. eapply posts_bind; [apply payment_checks_does|]. intros d [-> Ht].
  cbv zeta. eapply posts_bind; [apply does_lift|]. intros sig Hsig. cbn beta in Hsig. cbn [is_nil negb orb] in *.
  apply posts_row. split; [|unfold checked_kind; destruct (the_kind o); auto].
  split; [|done]. unfold posted, row_aad, row_envelope, signed_params. cbn. rewrite Hv, Ea.
  split_and!; try done; [|by exists sig; rewrite <-Hv]. rewrite <-Hv, <-Had. by destruct sealed.
Qed.

Lemma sendMessage_posts o m : so_files o = [] → resolveGroupRef (packageConfig config) (so_groupRef o) = Some (g, history g, m) →
  posts (sendMessage config env fuel o) (λ p, ∃ sender v2, sender_of o sender ∧ sent_as o sender v2 p ∧ checked_kind o sender ∧ ((∀ m, ¬ U m) → v2 = false)).
Proof.
  intros Hf Hr. unfold sendMessage. eapply posts_bind; [apply does_check|]. intros [] _.
  unfold resolveRef. rewrite Hr. eapply posts_bind; [apply does_fail|]. intros ids [= <-]. cbn [fst snd].
  apply (posts_bind _ _ (sender_of o)).
  { unfold relayerAddress. apply does_get. intros s _. apply does_ret. by exists (now_tick s). }
  intros sender Hsender. eapply posts_bind; [apply assertDm_does, plain_tick|]. intros _ _. eapply posts_bind; [by eapply writes_plain|]. intros v2 Hv2.
  intros s id s' Hs E. destruct v2; [apply sendMessageV2_posts in E as (Hs' & p & Ep & H1p & H2p)
    |apply sendMessageV1_posts in E as (Hs' & p & Ep & H1p & H2p)]; try done;
    (split; [done|]); exists p; (split; [done|]); exists sender; eexists; (split; [done|]); (split; [exact H1p|]); by split.
Qed.
(** ** The row as the relayer gives it back *)

(** The relayer returns what was posted, with the sender it authenticated and
    that sender's key, and a transfer's digest without blanks around it. *)
Record relayed (p : SendMessageParams) (sender : jsstr) (pk : PublicKey) (raw : RelayerMessage) : Prop := {
  rl_group : groupId raw = sp_groupId p;
  rl_text : encryptedText raw = sp_encryptedText p;
  rl_nonce : nonce raw = sp_nonce p;
  rl_version : keyVersion raw = sp_keyVersion p;
  rl_sender : senderAddress raw = sender;
  rl_key : publicKey raw = toHex (toMySoBytes pk) ∧ publicKey raw ≠ [];
  rl_signature : sp_messageSignature p = Some (signature raw) ∧ signature raw ≠ [];
  rl_signatureVersion : signatureVersion raw = sp_signatureVersion p;
  rl_kind : sp_kind p = Some (kind raw);
  rl_attachments : attachments raw = default [] (sp_attachments p);
  rl_principal : principalOwner raw = sa_principalOwner <$> sp_attribution p;
  rl_agent : subAgentId raw = sa_subAgentId <$> sp_attribution p;
  rl_class : identityClass raw = sa_identityClass <$> sp_attribution p;
  rl_deleted : isDeleted raw = false;
  rl_digest : kind raw = k_token_transfer → transfer_digest raw = trim <$> (sp_paymentMetadata p ≫= pm_digest);
}.

(** The signature covers nothing that the row does not carry: not a shared
    post, nor, in version 2, the idempotency key of another kind than a transfer. *)
Definition bindable (o : SendMessageOptions Ctx) : Prop :=
  the_kind o ≠ post ∧ (the_kind o = Envelope.token_transfer ∨ so_attribution o = None ∨ has_key o = false).

Lemma attribution_relayed o sender v2 p pk raw : sent_as o sender v2 p → relayed p sender pk raw →
  attribution_row (row_attribution raw) = attribution_row (signed_attribution <$> sp_attribution p).
Proof.
  intros _ Hrel. unfold row_attribution, has_attribution. rewrite (rl_principal _ _ _ _ Hrel), (rl_agent _ _ _ _ Hrel), (rl_class _ _ _ _ Hrel).
  destruct (sp_attribution p) as [[x y z]|]; [|done]. cbn. rewrite orb_true_r. unfold attribution_row. cbn. by destruct x, y.
Qed.

Lemma build_v1 p : Verification.signatureVersion p = Some 1 → buildCanonicalMessage p = Ok (utf8_encode (canonical_v1 p)).
Proof. unfold buildCanonicalMessage. by intros ->. Qed.

Lemma build_v2 p : Verification.signatureVersion p = Some 2 → buildCanonicalMessage p = Ok (utf8_encode (stringify (canonical_v2 p))).
Proof. unfold buildCanonicalMessage. by intros ->. Qed.

(** What the canonical forms say of a kind that is not a post. *)
Lemma canonical_v1_other p k : Verification.kind p = Some k → k ≠ js "post" → k ≠ js "token_transfer" →
  canonical_v1 p = JsString.join [58] [toLowerCase (Verification.groupId p); k; toHex (Verification.encryptedText p); toHex (Verification.nonce p); dec_Z (Verification.keyVersion p)].
Proof. intros Hk Hp Ht. unfold canonical_v1. rewrite Hk. cbn [default from_option]. by rewrite !decide_False by done. Qed.

Lemma canonical_v1_transfer p : Verification.kind p = Some (js "token_transfer") →
  canonical_v1 p = JsString.join [58] ([toLowerCase (Verification.groupId p); js "token_transfer"; trim (default [] (transferDigest p)); trim (default [] (idempotencyKey p))]
    ++ [toHex (Verification.encryptedText p); toHex (Verification.nonce p); dec_Z (Verification.keyVersion p)]).
Proof. intros Hk. unfold canonical_v1. rewrite Hk. cbn [default from_option]. by rewrite decide_False, decide_True by done. Qed.

Lemma bound_reference_other p k : Verification.kind p = Some k → k ≠ js "post" → k ≠ js "token_transfer" → bound_reference p = [].
Proof. intros Hk Hp Ht. unfold bound_reference. rewrite Hk. cbn [default from_option]. by rewrite !decide_False by done. Qed.

Lemma bound_reference_transfer p : Verification.kind p = Some (js "token_transfer") → bound_reference p = trim (default [] (transferDigest p)).
Proof. intros Hk. unfold bound_reference. rewrite Hk. cbn [default from_option]. by rewrite decide_False, decide_True by done. Qed.

Lemma row_kind_name o v2 : the_kind o ≠ post →
  the_kind o = Envelope.token_transfer ∧ row_kind_of o v2 = k_token_transfer
  ∨ the_kind o ≠ Envelope.token_transfer ∧ kind_name (row_kind_of o v2) ≠ js "post" ∧ kind_name (row_kind_of o v2) ≠ js "token_transfer".
Proof. intros Hp. unfold row_kind_of. destruct (the_kind o), v2; try done; auto. Qed.

Lemma canonical_relayed o sender v2 p pk raw : bindable o → sent_as o sender v2 p → checked_kind o sender → relayed p sender pk raw →
  ∃ v, signatureVersion raw = Some v ∧ (v = 1 ∨ v = 2)
    ∧ buildCanonicalMessage (canonical_of_row raw v) = buildCanonicalMessage (signed_params p (digest_of o)).
Proof.
  intros [Hpost Hkey] Hsent Hchk Hrel. pose proof (attribution_relayed _ _ _ _ _ _ Hsent Hrel) as Hattr.
  destruct Hsent as (_ & Ek & Eatt & Eat & Ei & Ep & Esh & Ev). destruct Hrel as [R1 R2 R3 R4 R5 R6 R7 R8 R9 R10 R11 R12 R13 R14 R15].
  rewrite Ev in R8. exists (signature_version (bool_decide (is_Some (so_attribution o)))). split; [done|].
  split; [destruct (bool_decide _); auto|].
  assert (kind raw = row_kind_of o v2) as Ekn by congruence.
  assert (the_kind o = Envelope.token_transfer → transfer_digest raw = digest_of o
    ∧ transferIdempotencyKey (senderAddress raw) <$> non_empty (transfer_digest raw) = so_idempotencyKey o) as Htransfer.
  { intros Et. unfold checked_kind in Hchk. rewrite Et in Hchk. destruct Hchk as [Hd Hi].
    assert (transfer_digest raw = Some (transfer_of o)) as Ed.
    { rewrite R15 by (rewrite Ekn; unfold row_kind_of; rewrite Et; by destruct v2). rewrite Ep, Et. cbn [sends_payment].
      unfold transfer_of. destruct (so_paymentMetadata o ≫= pm_digest) as [x|] eqn:Ex; [done|]. exfalso. apply Hd. unfold transfer_of. by rewrite Ex. }
    split; [unfold digest_of; by rewrite Et|]. rewrite Ed, Hi, R5. by destruct (transfer_of o). }
  destruct (so_attribution o) as [x|] eqn:Ex.
  - change (signature_version (bool_decide (is_Some (Some x)))) with 2 in *. rewrite !build_v2 by done. do 3 f_equal. 
    assert (bound_reference (canonical_of_row raw 2) = bound_reference (signed_params p (digest_of o))
            ∧ trim (default [] (idempotencyKey (canonical_of_row raw 2))) = trim (default [] (idempotencyKey (signed_params p (digest_of o))))) as [Eb Eid].
    { destruct (row_kind_name o v2 Hpost) as [[Et Ekt]|(Et & Hk1 & Hk2)].
      - destruct (Htransfer Et) as [Ed Ei']. rewrite !bound_reference_transfer by (cbn; by rewrite ?Ek, ?Ekn, Ekt).
        cbn [signed_params canonical_of_row transferDigest idempotencyKey]. by rewrite Ei', Ed, Ei.
      - rewrite (bound_reference_other (canonical_of_row raw _) (kind_name (row_kind_of o v2))) by (first [cbn; by rewrite Ekn|done]).
        rewrite (bound_reference_other (signed_params p _) (kind_name (row_kind_of o v2))) by (first [cbn; by rewrite Ek|done]).
        split; [done|]. cbn [signed_params canonical_of_row idempotencyKey]. rewrite Ei.
        destruct Hkey as [?|[?|Hkey]]; [done..|]. unfold has_key in Hkey. apply negb_false_iff in Hkey.
        assert (trim (default [] (so_idempotencyKey o)) = []) as -> by (by destruct (trim _)).
        assert (transfer_digest raw = None) as ->; [|done]. unfold transfer_digest. destruct (kind raw); try done. by rewrite <-Ekn in Hk2. }
    unfold canonical_v2. rewrite Eb, Eid. cbn [signed_params canonical_of_row Verification.groupId Verification.kind Verification.encryptedText
      Verification.nonce Verification.keyVersion Verification.attachments attribution].
    by rewrite Hattr, R1, R2, R3, R4, R10, Ek, Ekn.
  - change (signature_version (bool_decide (is_Some (@None SendAttribution)))) with 1 in *. rewrite !build_v1 by done. do 2 f_equal.
    destruct (row_kind_name o v2 Hpost) as [[Et Ekt]|(Et & Hk1 & Hk2)].
    + destruct (Htransfer Et) as [Ed Ei']. rewrite !canonical_v1_transfer by (cbn; by rewrite ?Ek, ?Ekn, Ekt).
      cbn [signed_params canonical_of_row Verification.groupId transferDigest idempotencyKey Verification.encryptedText Verification.nonce Verification.keyVersion].
      by rewrite R1, R2, R3, R4, Ei', Ed, Ei.
    + rewrite (canonical_v1_other (canonical_of_row raw _) (kind_name (row_kind_of o v2))) by (first [cbn; by rewrite Ekn|done]).
      rewrite (canonical_v1_other (signed_params p _) (kind_name (row_kind_of o v2))) by (first [cbn; by rewrite Ek|done]).
      cbn [signed_params canonical_of_row Verification.groupId Verification.encryptedText Verification.nonce Verification.keyVersion].
      by rewrite R1, R2, R3, R4.
Qed.
Lemma verify_relayed o sender v2 p raw : keypair_signer (so_signer o) → bindable o → sent_as o sender v2 p → checked_kind o sender →
  relayed p sender (signer_key (so_signer o)) raw → verifyRawMessage raw = bool_decide (sender = toMySoAddress (so_signer o)).
Proof.
  intros Hkey Hb Hsent Hchk Hrel. destruct (canonical_relayed _ _ _ _ _ _ Hb Hsent Hchk Hrel) as (v & Ev & Hv & Ec).
  destruct Hsent as ((_ & _ & _ & sig & Esig & Hsig) & _). destruct (rl_signature _ _ _ _ Hrel) as [Es Hs]. rewrite Esig in Es. injection Es as ->.
  destruct (rl_key _ _ _ _ Hrel) as [Ek Hk]. unfold verifyRawMessage. rewrite Ev. change (default 1 (Some v)) with v. cbv zeta.
  assert (negb ((v =? 1) || (v =? 2)) = false) as -> by (by destruct Hv as [-> | ->]).
  assert (is_nil (signature raw) || is_nil (publicKey raw) = false) as -> by (by destruct (signature raw), (publicKey raw)).
  rewrite Ek, (rl_sender _ _ _ _ Hrel). eapply signed_verifies; [done|exact Hsig|exact Ec|]. destruct Hv as [-> | ->]; [by right; left|by right; right].
Qed.

(** ** Reading it back *)

Context (pc : PackageConfig) (policy' : MyDataPolicy Ctx) (env' : crypto_env) (files' : option AttachmentsConfig) (ctx' : option Ctx).
Context (Htruth' : truthful w history env').

(** A text that a version-1 row carries as it is. *)
Definition plain_text (txt : jsstr) : Prop :=
  wf_str txt ∧ wf_utf16 txt = true ∧ strip_bom (utf8_encode txt) = utf8_encode txt ∧ decodeContentEnvelope (utf8_encode txt) = None.

Lemma kind_of_envelope_name e : kind_name (kind_of_envelope e) = relayerKindForEnvelope e.
Proof. by destruct e as [[]|]. Qed.

Lemma decrypt_posted signer sender digest data p raw resolving k : is_Some (normalizeSharedPostAddress (Some g)) →
  posted signer sender digest data p → relayed p sender (signer_key signer) raw → kind raw ≠ k_system →
  coherent w history (cr_cache k) → can_read w history policy' env' ctx' g (sp_keyVersion p) →
  attachments raw = [] →
  ∃ k', coherent w history (cr_cache k')
    ∧ decryptMessage pc policy' env' files' raw g (history g) ctx' None resolving k =
      (Ok (match decodeContentEnvelope data with
           | Some e => fromEnvelope files' raw e (verifyRawMessage raw) resolving
           | None => legacy_message raw (text_decode data) (verifyRawMessage raw) []
           end), k').
Proof.
  intros Hn (Eg & [a Ea] & Hs & _) Hrel Hk Hc Hread Hatt. unfold decryptMessage. rewrite (rl_group _ _ _ _ Hrel), Eg.
  rewrite !bool_decide_eq_true_2 by done. cbn [negb orb]. rewrite decide_False, (rl_deleted _ _ _ _ Hrel) by done.
  unfold row_aad in Ea, Hs. rewrite Eg in Ea, Hs. rewrite (rl_version _ _ _ _ Hrel), (rl_sender _ _ _ _ Hrel), Ea.
  rewrite (bind_ok _ _ k a k) by done. rewrite (rl_text _ _ _ _ Hrel), (rl_nonce _ _ _ _ Hrel). rewrite Ea in Hs.
  destruct (group_decrypt_sealed pc w history policy' env' g data ctx' k _ Htruth' Hc Hs Hread) as (k' & Ed & Hc').
  exists k'. split; [done|]. rewrite (bind_ok _ _ k data k') by (unfold crypt; unfold row_envelope in Ed; by rewrite Ed).
  cbv zeta. cbn [default from_option]. destruct (decodeContentEnvelope data); [done|].
  assert (integrity (negb (is_nil (attachments raw))) raw (verifyRawMessage raw) = i_none) as -> by (by rewrite Hatt).
  rewrite (bool_decide_eq_false_2 (i_none = i_verified)) by done. by rewrite andb_false_r.
Qed.

Lemma row_kind_not_system o v2 : row_kind_of o v2 ≠ k_system.
Proof. unfold row_kind_of. by destruct (the_kind o), v2. Qed.

Lemma read_sent o sender v2 p raw k : is_Some (normalizeSharedPostAddress (Some g)) →
  sent_as o sender v2 p → checked_kind o sender → relayed p sender (signer_key (so_signer o)) raw →
  plain_text (the_text o) → Z.of_nat (length (envelope_body (Message (the_kind o) (the_text o) None))) < 2 ^ 32 →
  coherent w history (cr_cache k) → can_read w history policy' env' ctx' g (sp_keyVersion p) →
  ∃ m k', decryptMessage pc policy' env' files' raw g (history g) ctx' None true k = (Ok m, k') ∧ coherent w history (cr_cache k')
    ∧ m_text m = the_text o ∧ m_kind m = kind_of_type (the_kind o) ∧ m_messageId m = messageId raw ∧ m_senderAddress m = sender
    ∧ m_senderVerified m = verifyRawMessage raw ∧ m_event m = None ∧ m_attachments m = [].
Proof.
  intros Hn Hsent Hchk Hrel (Hw & Hu & Hbom & Hlegacy) Hlen Hc Hread. destruct Hsent as (Hposted & Ek & Eatt & _).
  assert (kind raw = row_kind_of o v2) as Ekr by (pose proof (rl_kind _ _ _ _ Hrel); congruence).
  destruct (decrypt_posted _ _ _ _ _ _ true k Hn Hposted Hrel) as (k' & Hc' & Ed); [rewrite Ekr; apply row_kind_not_system|done|done| |].
  { by rewrite (rl_attachments _ _ _ _ Hrel), Eatt. }
  eexists _, k'. split; [exact Ed|]. split; [done|]. unfold content_of. destruct v2.
  - rewrite decode_encoded by done. unfold fromEnvelope. rewrite Ekr. unfold row_kind_of. rewrite kind_of_envelope_name, bool_decide_eq_true_2 by done.
    cbn. by rewrite (rl_sender _ _ _ _ Hrel).
  - rewrite Hlegacy, text_decode_encode by done. unfold legacy_message. cbn. by rewrite (rl_sender _ _ _ _ Hrel), Ekr.
Qed.
(** ** What is delivered *)

(** C1.  Delivery.  In a group whose metadata is not flagged [mls1], neither in the
    cache nor by the chain, and whose id is an address, while caches and
    members have published keys only, whenever [sendMessage] returns for a message without files, exactly one
    row was posted, whichever format the group writes.  If the text is well-formed UTF-16
    that does not start with a byte order mark and whose bytes are not themselves an
    envelope, and its envelope is below 2^32 bytes, then from that row as the relayer
    gives it back, any client that can resolve the row's key version gets the text,
    kind, message id and sender.  The message is marked verified exactly
    when the relayer's address for the signer is that of the signer's own key,
    provided the signer is a keypair (its raw signature verifies under its key) and the row
    carries all that was signed: it is no shared post and not a message with
    both an attribution and an idempotency key, a transfer apart.  A zkLogin sender is thus not
    verified. *)
Theorem message_delivered o m s id s' : plain s → so_files o = [] →
  resolveGroupRef (packageConfig config) (so_groupRef o) = Some (g, history g, m) → is_Some (normalizeSharedPostAddress (Some g)) →
  sendMessage config env fuel o s = (Ok id, s') →
  cl_heap s' = heap ∧ ∃ p sender, cl_sent s' = cl_sent s ++ [SendMessage p] ∧ sp_groupId p = g ∧ sender_of o sender
  ∧ (plain_text (the_text o) → Z.of_nat (length (envelope_body (Message (the_kind o) (the_text o) None))) < 2 ^ 32 →
     ∀ raw k, relayed p sender (signer_key (so_signer o)) raw → coherent w history (cr_cache k) →
       can_read w history policy' env' ctx' g (sp_keyVersion p) →
       ∃ x k', decryptMessage pc policy' env' files' raw g (history g) ctx' None true k = (Ok x, k')
         ∧ m_text x = the_text o ∧ m_kind x = kind_of_type (the_kind o) ∧ m_messageId x = messageId raw ∧ m_senderAddress x = sender
         ∧ (keypair_signer (so_signer o) → bindable o →
            m_senderVerified x = bool_decide (sender = toMySoAddress (so_signer o)))).
Proof.
  intros Hs Hf Hr Hn E. apply (sendMessage_posts o m Hf Hr) in E as ((_ & _ & Hheap) & p & Ep & sender & v2 & Hsender & Hsent & Hchk & _); [|done].
  split; [done|]. exists p, sender. split; [done|]. split; [by destruct Hsent as ((? & _) & _)|]. split; [done|]. intros Htxt Hlen raw k Hrel Hk Hread.
  destruct (read_sent o sender v2 p raw k) as (x & k' & Ed & _ & ? & ? & ? & ? & Hv & _); try done. exists x, k'. repeat (split; [done|]).
  intros Hkey Hb. rewrite Hv. by eapply verify_relayed.
Qed.

(** ** Posts *)

Lemma utf8_ascii s : Forall is_ascii s → utf8_encode s = s.
Proof. induction 1 as [|c s Hc _ IH]; [done|]. unfold is_ascii in Hc. rewrite utf8_encode_ascii_cons by lia. by rewrite IH. Qed.

Lemma canonical_v1_post p : Verification.kind p = Some (js "post") →
  canonical_v1 p = JsString.join [58] ([toLowerCase (Verification.groupId p); js "post"; post_reference (sharedPostAddress p); trim (default [] (idempotencyKey p))]
    ++ [toHex (Verification.encryptedText p); toHex (Verification.nonce p); dec_Z (Verification.keyVersion p)]).
Proof. intros Hk. unfold canonical_v1. rewrite Hk. cbn [default from_option]. by rewrite decide_True by done. Qed.

Ltac ascii_literal := repeat (apply Forall_cons_2; [vm_compute; split; done|]); apply Forall_nil_2.

Lemma join_ascii l : Forall (Forall is_ascii) l → Forall is_ascii (JsString.join [58] l).
Proof.
  induction 1 as [|x l Hx Hl IH]; [constructor|]. destruct l as [|y l]; [done|]. change (Forall is_ascii (x ++ [58] ++ JsString.join [58] (y :: l))).
  apply Forall_app_2; [done|]. apply Forall_app_2; [|done]. constructor; [unfold is_ascii; lia|constructor].
Qed.

Lemma lower_ascii s : Forall is_ascii s → Forall is_ascii (toLowerCase s).
Proof.
  intros Hs. rewrite toLowerCase_ascii by done. apply Forall_fmap. eapply Forall_impl; [exact Hs|]. intros c Hc.
  unfold is_ascii, ascii_lower in *. simpl. case_match; [|lia]. bool_to_Z. lia.
Qed.

Lemma hex_ascii z : wf_bytes z → Forall is_ascii (toHex z).
Proof. intros Hz. eapply Forall_impl; [by apply toHex_hex|]. intros c Hc. by apply lower_hex_props. Qed.

Lemma dec_ascii z : Forall is_ascii (dec_Z z).
Proof.
  assert (∀ n, 0 ≤ n → Forall is_ascii (dec n)) as Hdec.
  { intros n Hn. eapply Forall_impl; [by apply dec_Forall_digit|]. unfold is_ascii. simpl. lia. }
  unfold dec_Z. destruct (z <? 0) eqn:E; bool_to_Z; [constructor; [unfold is_ascii; lia|apply Hdec; lia]|by apply Hdec].
Qed.

Lemma trim_ascii s : Forall is_ascii s → Forall is_ascii (trim s).
Proof. apply trim_incl. Qed.

Lemma normalized_ascii raw r : normalizeSharedPostAddress raw = Some r → Forall is_ascii r ∧ r ≠ [].
Proof.
  intros (hex & -> & _ & Hh)%normalized_shape. split; [|done]. apply Forall_app_2; [ascii_literal|].
  eapply Forall_impl; [exact Hh|]. intros c Hc. by apply lower_hex_props.
Qed.

Lemma post_reference_none : post_reference None = [].
Proof. unfold post_reference, normalizeSharedPostAddress. change (trim (default [] None)) with (@nil Z). by rewrite toLowerCase_ascii by constructor. Qed.

(** A post's canonical bytes, and those a reader checks it with. *)
Definition post_string (a b : jsstr) (x y : bytes) (v : Z) : jsstr :=
  JsString.join [58] ([toLowerCase g; js "post"; a; b] ++ [toHex x; toHex y; dec_Z v]).

Lemma post_string_ascii a b x y v : Forall is_ascii g → Forall is_ascii a → Forall is_ascii b → wf_bytes x → wf_bytes y →
  Forall is_ascii (post_string a b x y v).
Proof.
  intros Hg Ha Hb Hx Hy. apply join_ascii. cbn [app].
  apply Forall_cons_2; [by apply lower_ascii|]. apply Forall_cons_2; [ascii_literal|]. apply Forall_cons_2; [done|]. apply Forall_cons_2; [done|].
  repeat (apply Forall_cons_2; [by auto using hex_ascii, dec_ascii|]). apply Forall_nil_2.
Qed.

Lemma post_string_length a b x y v : length (post_string a b x y v) = (length a + length b + length (post_string [] [] x y v))%nat.
Proof. unfold post_string. cbn [JsString.join app]. repeat (rewrite ?length_app; cbn [length]). lia. Qed.

(** A shared post is never verified.  Whenever [sendMessage] returns for a
    post, the row it posted is signed with the post and the idempotency key, but
    [#verifyRawMessage] checks a row without them: no reader's check of the row
    the relayer gives back succeeds, and a room page shows its content as
    unverified. *)
Lemma post_never_verified o m s id s' : plain s → so_files o = [] →
  resolveGroupRef (packageConfig config) (so_groupRef o) = Some (g, history g, m) →
  the_kind o = post → so_attribution o = None → Forall is_ascii g → Forall is_ascii (default [] (so_idempotencyKey o)) →
  keypair_signer (so_signer o) → binding_signer (so_signer o) →
  sendMessage config env fuel o s = (Ok id, s') →
  ∃ p sender, cl_sent s' = cl_sent s ++ [SendMessage p] ∧ sender_of o sender ∧ sp_sharedPostAddress p = normalizeSharedPostAddress (so_sharedPostAddress o)
  ∧ ∀ raw, relayed p sender (signer_key (so_signer o)) raw → wf_bytes (encryptedText raw) → wf_bytes (nonce raw) →
      verifyRawMessage raw = false
      ∧ ∀ h c, readRow config env g h ctx' false (raw, false) c = (Ok (UnverifiedContent (messageId raw) (order raw)), c).
Proof.
  intros Hs Hf Hr Hk Hattr Hg Hkey Hpair Hbind E.
  apply (sendMessage_posts o m Hf Hr) in E as (_ & p & Ep & sender & v2 & Hsender & Hsent & Hchk & _); [|done]. exists p, sender. split; [done|]. split; [done|].
  destruct Hsent as ((Eg & _ & _ & sig & Esig & Hsig) & Ekind & Eatt & Eat & Ei & _ & Esh & Ev).
  assert (shared_post o = normalizeSharedPostAddress (so_sharedPostAddress o)) as Eshared by (unfold shared_post; unfold the_kind in Hk; by rewrite Hk).
  split; [congruence|]. intros raw Hrel Hx Hy.
  assert (verifyRawMessage raw = false) as Hno.
  { unfold checked_kind in Hchk. rewrite Hk in Hchk. destruct Hchk as [[r Er] Hhas]. rewrite Eshared in Er.
    destruct (normalized_ascii _ _ Er) as [Hr1 Hr2].
    destruct Hrel as [R1 R2 R3 R4 R5 [R6 R6'] [R7 R7'] R8 R9 R10 R11 R12 R13 R14 R15].
    assert (row_kind_of o v2 = k_post) as Ek by (unfold row_kind_of; rewrite Hk; by destruct v2). rewrite Ek in Ekind.
    rewrite Ekind in R9. injection R9 as Ekr. rewrite Ev, Hattr in R8. rewrite Esig in R7. injection R7 as R7.
    change (signature_version (bool_decide (is_Some (@None SendAttribution)))) with 1 in R8.
    unfold verifyRawMessage. rewrite R8. change (default 1 (Some 1)) with 1. cbv zeta. change (negb ((1 =? 1) || (1 =? 2))) with false.
    destruct (is_nil (signature raw) || is_nil (publicKey raw)); [done|]. rewrite R6, <-R7.
    assert (canonical_v1 (signed_params p (digest_of o)) = post_string r (trim (default [] (so_idempotencyKey o))) (encryptedText raw) (nonce raw) (keyVersion raw)) as Ep1.
    { rewrite canonical_v1_post by (cbn; by rewrite Ekind). cbn [signed_params Verification.groupId sharedPostAddress idempotencyKey
        Verification.encryptedText Verification.nonce Verification.keyVersion].
      rewrite Eg, Esh, Ei, Eshared, R2, R3, R4, Er. unfold post_reference. rewrite (proj2 (normalize_canonical _ _ Er)). done. }
    assert (canonical_v1 (canonical_of_row raw 1) = post_string [] [] (encryptedText raw) (nonce raw) (keyVersion raw)) as Eq1.
    { rewrite canonical_v1_post by (cbn; by rewrite <-Ekr). unfold canonical_of_row, transfer_digest.
      cbn [Verification.groupId sharedPostAddress idempotencyKey Verification.encryptedText Verification.nonce Verification.keyVersion].
      rewrite <-Ekr, R1, Eg. by rewrite post_reference_none. }
    assert (Forall is_ascii (trim (default [] (so_idempotencyKey o)))) as Hidem by (by apply trim_ascii).
    pose proof (post_string_ascii r (trim (default [] (so_idempotencyKey o))) (encryptedText raw) (nonce raw) (keyVersion raw) Hg Hr1 Hidem Hx Hy) as Hasc1.
    pose proof (post_string_ascii [] [] (encryptedText raw) (nonce raw) (keyVersion raw) Hg ltac:(constructor) ltac:(constructor) Hx Hy) as Hasc2.
    assert (∀ z, Forall is_ascii z → wf_bytes z) as Hwf by (intros z Hz; eapply Forall_impl; [exact Hz|]; unfold is_ascii, is_byte; intros; lia).
    eapply (other_refused (so_signer o) (signed_params p (digest_of o)) (canonical_of_row raw 1)); [done..| | | | |].
    - rewrite build_v1 by (cbn; by rewrite Ev, Hattr). by rewrite Ep1, utf8_ascii.
    - rewrite build_v1 by done. by rewrite Eq1, utf8_ascii.
    - by apply Hwf.
    - by apply Hwf.
    - intros Heq. apply (f_equal length) in Heq. rewrite post_string_length in Heq. destruct r; [done|]. simpl in Heq. lia. }
  split; [done|]. intros h c. unfold readRow. cbn [fst snd]. rewrite decide_False, (rl_deleted _ _ _ _ Hrel), Hno; [done|].
  pose proof (rl_kind _ _ _ _ Hrel) as Hkr. rewrite Ekind in Hkr. injection Hkr as <-. apply row_kind_not_system.
Qed.
(** A metadata outage turns MLS off.  While the chain answers a group's
    metadata query with no object (or not at all), and none is cached, every
    [sendMessage] and [sendEvent] that returns has posted its row under the
    group's shared key only, as a group without MLS would, through no MLS
    session, whatever the group's flag on chain; a message is even posted in the
    legacy format. *)
Lemma metadata_outage ref m s : (∀ x, ¬ U x) → plain s → resolveGroupRef (packageConfig config) ref = Some (g, history g, m) →
  (∀ o id s', so_groupRef o = ref → so_files o = [] → sendMessage config env fuel o s = (Ok id, s') →
     cl_heap s' = heap ∧ ∃ p sender, cl_sent s' = cl_sent s ++ [SendMessage p]
     ∧ sealed_for w history g (utf8_encode (the_text o)) (row_envelope p (row_aad p sender)))
  ∧ (∀ signer e notify id s', sendEvent config env fuel signer ref e notify s = (Ok id, s') →
     cl_heap s' = heap ∧ ∃ p sender, cl_sent s' = cl_sent s ++ [SendMessage p]
     ∧ sealed_for w history g (encodeContentEnvelope (Event e)) (row_envelope p (row_aad p sender))).
Proof.
  intros HU Hs Hr. split.
  - intros o id s' <- Hf E. apply (sendMessage_posts o m Hf Hr) in E as ((_ & _ & Hh) & p & Ep & sender & v2 & _ & Hsent & _ & Hv2); [|done].
    split; [done|]. exists p, sender. split; [done|]. rewrite (Hv2 HU) in Hsent. by destruct Hsent as ((_ & _ & ? & _) & _).
  - intros signer e notify id s' E.
    assert (posts (sendEvent config env fuel signer ref e notify) (λ p, ∃ sender,
      sealed_for w history g (encodeContentEnvelope (Event e)) (row_envelope p (row_aad p sender)))) as Hposts.
    { unfold sendEvent, resolveRef. rewrite Hr. eapply posts_bind; [apply does_fail|]. intros ids [= <-]. cbn [fst snd].
      apply (posts_bind _ _ (λ _, True)); [unfold relayerAddress; apply does_get; intros ? _; by apply does_ret|]. intros sender _.
      intros s1 i1 s2 Hs1 E1. apply sendEnvelope_posts in E1 as (Hs2 & p & Ep & (_ & _ & Hsealed & _) & _); [|done].
      split; [done|]. exists p. split; [done|]. by exists sender. }
    destruct (Hposts s id s' Hs E) as ((_ & _ & Hh) & p & Ep & sender & Hp). split; [done|]. by exists p, sender.
Qed.
End plain.
