(* ===== verification/ClientSafety.v ===== *)
(** Safety of the client's writes ([client.ts]): the rows of an MLS group are
    sealed, whatever the chain and the relayer answer. *)
From S2P Require Import Prelude JsString JsMap Utf8 TextDecoder Json Base64 Anchors AuthHeaders GroupName Payments Aad Encryption Envelope Verification Wire RoomHistory HttpTransport HttpCalls MlsRows MlsTypes MlsCertificates MlsSession Attachments ClientMessage Client ClientRead ClientProps.

#[local] Set Warnings "-notation-overridden".

Section mls.
Context `{JsonNumbers} `{JsText} `{Verification.HexCodec} `{Sha256} `{Base64Codec} `{MySoCrypto} `{EncryptionLib} `{MySoBcs} `{!DekCache} `{MlsEngine} {Ctx : Type}.
Context (config : client_config Ctx) (env : client_env) (fuel : nat) (g : jsstr) (envs : list mls_env).

(** The group is known to be [mls1]; the sessions of the heap are those of
    [envs], and each is known by its own wallet. *)
Record guarded (s : client) : Prop := {
  gd_flag : ∃ m, map_get g (cl_metadata s) = Some m ∧ lookup_value (js "e2ee") (gm_data m) = Some (js "mls1");
  gd_envs : (cl_heap s).*1 = envs;
  gd_owned : ∀ w i, map_get w (cl_sessions s) = Some i → ∃ e, envs !! i = Some e ∧ en_wallet e = w;
}.

Definition authenticated_as (signer : Signer) (a : jsstr) : Prop :=
  ∃ t, a = match authSigner config with Some f => f t signer | None => toMySoAddress signer end.

(** The readers the chain listed for the group, at some await. *)
Definition chain_readers (readers : list jsstr) : Prop := ∃ t members, ce_members env t g true = Some members
  ∧ readers = foldl (λ r m, set_add m r) [] ((λ m, toLowerCase m.1) <$> filter (λ m, messagingReader config ∈ m.2) members).

(** A row is the output of [seal] of a session of the sender's own wallet for
    the readers on chain; no row is updated in place, and no reaction is sent in
    the clear. *)
Definition sealed_row (signer : Signer) (r : request) : Prop :=
  match r with
  | SendMessage p => ∃ a e readers inner x x', authenticated_as signer a ∧ en_wallet e = toLowerCase a ∧ chain_readers readers
      ∧ seal e fuel g readers inner x = (Ok (sp_encryptedText p), x')
  | UpdateMessage _ | PostGroupReaction _ _ _ _ => False
  | _ => True
  end.

Lemma guarded_tick s : guarded s → guarded (tick_client s).
Proof. by intros []. Qed.

Lemma guarded_request r s : guarded s → guarded (add_request r s).
Proof. by intros []. Qed.

Lemma guarded_heap s i e x x' : guarded s → cl_heap s !! i = Some (e, x) → guarded (set_heap (<[i := (e, x')]> (cl_heap s)) s).
Proof.
  intros [Hf He Ho] Hi. split; [done| |done]. simpl. rewrite list_fmap_insert. simpl. rewrite list_insert_id; [done|].
  by rewrite list_lookup_fmap, Hi.
Qed.

Context (signer : Signer).
#[local] Notation safe := (does guarded (sealed_row signer)).

Lemma safe_crypto {A} (m : eff crypto client_error A) : safe (on_crypto m) (λ _, True).
Proof. apply does_crypto; [by intros s []|done]. Qed.

Lemma safe_session {A} i (m : mls_env → eff session mls_error A) (Q : A → Prop) :
  (∀ e x a x', envs !! i = Some e → m e x = (Ok a, x') → Q a) → safe (on_session i m) Q.
Proof.
  intros HQ. apply does_session; [intros s e x x'; apply guarded_heap|]. intros s e x a x' [_ He _] Hi Em. apply (HQ e x a x'); [|done].
  by rewrite <-He, list_lookup_fmap, Hi.
Qed.

Lemma safe_request {A} r (f : nat → A) : sealed_row signer r → safe (request_answer r f) (λ _, True).
Proof. intros Hr. apply does_request; auto using guarded_tick, guarded_request. Qed.

(** The cached flag answers without asking the chain. *)
Lemma flag_known s : guarded s → group_value config env g (js "e2ee") false s = (Ok (Some (js "mls1")), s).
Proof.
  intros [(m & Em & Hm) _ _]. unfold group_value.
  rewrite (bind_ok _ _ s [(g, m)] s).
  - cbn [map_get]. rewrite decide_True by done. cbn [mbind option_bind]. by rewrite Hm.
  - unfold groupsMetadata. rewrite (bind_ok _ _ s s s) by done. cbv zeta. cbn [foldl]. rewrite Em.
    rewrite filter_cons_False by (rewrite Em; done). rewrite filter_nil. cbn [is_nil]. done.
Qed.

Lemma safe_known {A} (m : eff client client_error A) a : (∀ s, guarded s → m s = (Ok a, s)) → safe m (λ b, b = a).
Proof. intros Hm s Hs. rewrite (Hm s Hs). split_and!; [done|exists []; by rewrite app_nil_r|by intros b [= <-]]. Qed.

Lemma safe_writes ref h m : resolveGroupRef (packageConfig config) ref = Some (g, h, m) →
  safe (writesContentEnvelopeV2 config env ref false) (λ b, b = true).
Proof.
  intros Hr. apply safe_known. intros s Hs. unfold writesContentEnvelopeV2, resolveRef. rewrite Hr.
  rewrite (bind_ok _ _ s (g, h) s) by done. unfold try_catch. cbn [fst]. by rewrite (bind_ok _ _ s _ s (flag_known s Hs)).
Qed.

Lemma safe_ref ref h m : resolveGroupRef (packageConfig config) ref = Some (g, h, m) → safe (resolveRef config ref) (λ ids, ids = (g, h)).
Proof. intros Hr. apply safe_known. intros s _. unfold resolveRef. by rewrite Hr. Qed.

Lemma safe_address x : safe (relayerAddress config x) (λ a, ∃ t, a = match authSigner config with Some f => f t x | None => toMySoAddress x end).
Proof. unfold relayerAddress. apply does_get. intros s _. apply does_ret. by exists (now_tick s). Qed.

Lemma safe_sender a : safe (senderMlsSession config env fuel g a) (λ i, ∃ j e, i = Some j ∧ envs !! j = Some e ∧ en_wallet e = toLowerCase a).
Proof.
  unfold senderMlsSession, e2eeFlag. eapply does_bind; [apply safe_known, flag_known|]. intros f ->.
  rewrite bool_decide_eq_true_2 by done. cbn [negb]. apply does_get. intros s [_ _ Ho].
  destruct (map_get (toLowerCase a) (cl_sessions s)) as [j|] eqn:Ej; [|apply does_throw]. destruct (Ho _ _ Ej) as (e & He & Hw).
  eapply does_bind; [by apply (safe_session _ _ (λ _, True))|]. intros [] _; [|apply does_throw]. apply does_ret. by exists j, e.
Qed.

Lemma safe_readers : safe (onChainReaders config env g) chain_readers.
Proof.
  unfold onChainReaders. eapply does_bind; [apply (does_ask _ _ guarded_tick)|]. intros o [t Et]. eapply does_bind; [apply does_fail|]. intros l El.
  apply does_ret. exists t, l. by rewrite <-Et.
Qed.

Lemma safe_wrap j e inner : envs !! j = Some e →
  safe (wrap_row config env fuel g (Some j) inner) (λ row, ∃ readers x x', chain_readers readers ∧ seal e fuel g readers inner x = (Ok row.1, x')).
Proof.
  intros He. unfold wrap_row. eapply does_bind; [apply safe_readers|]. intros readers Hreaders.
  eapply does_bind; [apply (safe_session _ _ (λ b, ∃ x x', seal e fuel g readers inner x = (Ok b, x')))|].
  - intros e' x a x' He' Em. rewrite He in He'. injection He' as <-. by exists x, x'.
  - intros b (x & x' & Em). eapply does_bind; [apply safe_crypto|]. intros n _. apply does_ret. by exists readers, x, x'.
Qed.

Lemma safe_fetch id : safe (fetch_row env g id) (λ _, True).
Proof.
  unfold fetch_row. apply (does_bind _ _ _ _ (λ _, True)); [apply does_mono with (2 := λ _ _, Logic.I), does_ask, guarded_tick|].
  intros o _. eapply does_mono; [apply does_fail|done].
Qed.

Lemma safe_envelope h ctx a envelope p : authenticated_as signer a → safe (sendEnvelope config env fuel signer g h ctx a envelope p) (λ _, True).
Proof.
  intros Ha. unfold sendEnvelope. eapply does_bind; [apply getCurrentKeyVersion_does, guarded_tick|]. intros v _.
  eapply does_bind; [apply does_fail|]. intros aad _. eapply does_bind; [apply safe_crypto|]. intros sealed _. cbv zeta.
  eapply does_bind; [apply safe_sender|]. intros i (j & e & -> & He & Hw). eapply does_bind; [by apply (safe_wrap j e)|]. intros row (readers & x & x' & Hreaders & Es).
  eapply does_bind; [apply does_lift|]. intros sig _. apply (does_bind _ _ _ _ (λ _, True)).
  - unfold post_row. eapply does_bind; [apply safe_request; by exists a, e, readers; eexists _, x, x'|]. intros id _.
    eapply does_mono; [apply does_fail|done].
  - intros id _. apply (does_bind _ _ _ _ (λ _, True)); [|intros _ _; by apply does_ret].
    unfold keep_own. eapply does_bind; [apply safe_fetch|]. intros raw _. apply does_get. intros s _. by apply (safe_session _ _ (λ _, True)).
Qed.

(** ** The calls that write *)

(** What a signer may ask of the client for the group: a message, an event, an
    edit, a deletion, a reaction. *)
Inductive write_call :=
  | Send (o : SendMessageOptions Ctx)
  | SendEvent (e : MessageEvent) (notifyWallets : option (list jsstr))
  | EditMessage (o : EditMessageOptions Ctx)
  | Remove (messageId : jsstr)
  | React (chainSeq : number) (messageId target : option jsstr) (emoji : jsstr) (add : bool).

Definition run_write (ref : GroupRef) (c : write_call) : eff client client_error () :=
  match c with
  | Send o => sendMessage config env fuel o;; mret tt
  | SendEvent e w => sendEvent config env fuel signer ref e w;; mret tt
  | EditMessage o => editMessage config env fuel o
  | Remove id => deleteMessage config env fuel signer ref id
  | React n id target emoji add => react config env fuel signer ref n id target emoji add
  end.

(** The options of a call name the signer and the group. *)
Definition addressed (ref : GroupRef) (c : write_call) : Prop :=
  match c with
  | Send o => so_signer o = signer ∧ so_groupRef o = ref
  | EditMessage o => eo_signer o = signer ∧ eo_groupRef o = ref
  | _ => True
  end.

Section call.
Context (ref : GroupRef) (h : jsstr) (m : option jsstr) (Hr : resolveGroupRef (packageConfig config) ref = Some (g, h, m)).

Lemma safe_uploads files : safe (if is_nil files then mret None else
  a ← requireAttachments config; l ← encrypting (uploadV2 (ce_crypto env) a files); mret (Some l)) (λ _, True).
Proof.
  destruct (is_nil files); [by apply does_ret|]. eapply does_bind; [apply does_fail|]. intros c _.
  eapply does_bind; [apply safe_crypto|]. intros l _. by apply does_ret.
Qed.

Lemma safe_message o : so_signer o = signer → so_groupRef o = ref → safe (sendMessage config env fuel o) (λ _, True).
Proof.
  intros Es Er. unfold sendMessage. rewrite Es, Er. eapply does_bind; [apply does_check|]. intros [] _.
  eapply does_bind; [by eapply safe_ref|]. intros ids ->. cbn [fst snd]. eapply does_bind; [apply safe_address|]. intros a Ha.
  eapply does_bind; [apply assertDm_does, guarded_tick|]. intros _ _. eapply does_bind; [by eapply safe_writes|]. intros b ->.
  unfold sendMessageV2. rewrite Es. eapply does_bind; [apply safe_uploads|]. intros att _. eapply does_bind; [apply post_checks_does|]. intros [] _.
  eapply does_bind; [apply payment_checks_does|]. intros d _. by apply safe_envelope.
Qed.

Lemma safe_event e w : safe (sendEvent config env fuel signer ref e w) (λ _, True).
Proof.
  unfold sendEvent. eapply does_bind; [by eapply safe_ref|]. intros ids ->. eapply does_bind; [apply safe_address|]. intros a Ha. by apply safe_envelope.
Qed.

Lemma safe_edit o : eo_signer o = signer → eo_groupRef o = ref → safe (editMessage config env fuel o) (λ _, True).
Proof.
  intros Es Er. unfold editMessage. rewrite Es, Er. eapply does_bind; [by eapply safe_ref|]. intros ids ->. cbn [fst snd].
  eapply does_bind; [apply safe_address|]. intros a Ha. eapply does_bind; [by eapply safe_writes|]. intros b ->.
  apply (does_bind _ _ _ _ (λ _, True)).
  - destruct (eo_attachments o) as [x|]; [|by apply does_ret]. apply (does_bind _ _ _ _ (λ _, True)); [|intros l _; by apply does_ret].
    unfold edit_refs. apply (does_bind _ _ _ _ (λ _, True)); [|intros l _; by apply does_ret]. destruct (is_nil _); [by apply does_ret|].
    eapply does_bind; [apply does_fail|]. intros c _. apply safe_crypto.
  - intros att _. eapply does_bind; [by apply safe_envelope|]. intros id _. by apply does_ret.
Qed.

Lemma safe_delete id : safe (deleteMessage config env fuel signer ref id) (λ _, True).
Proof.
  unfold deleteMessage. eapply does_bind; [by eapply safe_ref|]. intros ids ->. cbn [fst snd]. eapply does_bind; [by eapply safe_writes|]. intros b ->.
  apply (does_bind _ _ _ _ (λ _, True)).
  - eapply does_bind; [apply safe_address|]. intros a Ha. eapply does_bind; [by apply safe_envelope|]. intros i _. by apply does_ret.
  - intros _ _. eapply does_bind; [by apply safe_request|]. intros ok _. eapply does_mono; [apply does_check|done].
Qed.

Lemma safe_react n id target emoji add : safe (react config env fuel signer ref n id target emoji add) (λ _, True).
Proof.
  unfold react. apply (does_bind _ _ _ _ (λ b, b = true)); [|intros b ->; by apply does_ret].
  unfold reactV2. eapply does_bind; [by eapply safe_writes|]. intros b ->. cbn [negb]. eapply does_bind; [apply does_fail|]. intros i _.
  eapply does_bind; [apply safe_address|]. intros a _. cbv zeta. eapply does_bind; [apply does_fail|]. intros c _.
  eapply does_bind; [apply safe_event|]. intros x _. by apply does_ret.
Qed.

End call.
End mls.
