(* ===== verification/ClientRelease.v ===== *)
(** What the client's reads release ([client.ts]): messages are given at the
    trust of the row they were read from, and a strict room page shows no text
    of a row that was not verified. *)
From S2P Require Import Prelude JsString JsMap Utf8 TextDecoder Json Base64 Anchors AuthHeaders GroupName Payments Aad Encryption Envelope Verification Wire RoomHistory HttpTransport HttpCalls MlsRows MlsTypes MlsCertificates MlsSession Attachments ClientMessage Client ClientRead ClientProps.

#[local] Set Warnings "-notation-overridden".

(** * What is released *)

Section release.
Context `{JsonNumbers} `{JsText} `{Verification.HexCodec} `{MySoCrypto} `{EncryptionLib} `{MySoBcs} `{!DekCache} {Ctx : Type}.
Context (pc : PackageConfig) (pol : MyDataPolicy Ctx) (cenv : crypto_env) (files : option AttachmentsConfig) (g h : jsstr) (ctx : option Ctx).

(** The text of a row's plaintext. *)
Definition row_text (raw : RelayerMessage) (plaintext : bytes) : jsstr :=
  match decodeContentEnvelope plaintext with
  | Some e => if decide (kind_name (kind raw) = relayerKindForEnvelope e) then match e with Message _ txt _ => txt | Event _ => [] end else []
  | None => text_decode plaintext
  end.

(** [plaintext] is the row's ciphertext opened with the group's key of the row's
    version, for the row's sender. *)
Definition opened (raw : RelayerMessage) (plaintext : bytes) : Prop := ∃ a c c',
  buildMessageAad {| aad_groupId := g; aad_keyVersion := keyVersion raw; aad_senderAddress := senderAddress raw |} = Some a
  ∧ group_decrypt pc pol cenv g h {| Encryption.ciphertext := encryptedText raw; Encryption.nonce := nonce raw;
      Encryption.keyVersion := keyVersion raw; Encryption.aad := Some a |} ctx c = (Ok plaintext, c').

(** What a message says of the row it was read from, [v] telling whether the
    sender is verified: an event, attachments and their references are released
    of verified rows only, and an attribution counts only if a verified
    version-2 signature covers it. *)
Record content (raw : RelayerMessage) (v : bool) (plaintext : bytes) (m : ClientMessage Ctx) : Prop := {
  ct_row : m_messageId m = messageId raw ∧ m_groupId m = groupId raw ∧ m_order m = order raw ∧ m_senderAddress m = senderAddress raw;
  ct_verified : m_senderVerified m = v ∧ m_isDeleted m = false;
  ct_text : m_text m = row_text raw plaintext;
  ct_event : ∀ e, m_event m = Some e → v = true ∧ kind raw = k_event ∧ decodeContentEnvelope plaintext = Some (Event e);
  ct_refs : ∀ l, m_envelopeAttachments m = Some l → v = true ∧ ∃ t txt, decodeContentEnvelope plaintext = Some (Message t txt (Some l));
  ct_handles : m_attachments m ≠ [] → m_attachmentIntegrity m = i_verified;
  ct_integrity : m_attachmentIntegrity m = i_verified → v = true;
  ct_attribution : m_attributionIntegrity m = i_verified → v = true ∧ signatureVersion raw = Some 2 ∧ has_attribution raw = true;
  ct_agent : m_isAgentMessage m = true → m_attributionIntegrity m = i_verified;
}.

Inductive released (raw : RelayerMessage) (v : bool) : ClientMessage Ctx → Prop :=
  | released_system : kind raw = k_system → released raw v (system_message raw)
  | released_deleted : kind raw ≠ k_system → isDeleted raw = true → released raw v (deleted_message raw)
  | released_content plaintext m : kind raw ≠ k_system → isDeleted raw = false → opened raw plaintext → content raw v plaintext m →
      released raw v m.

Lemma integrity_verified b raw v : integrity b raw v = i_verified → b = true ∧ v = true ∧ signatureVersion raw = Some 2.
Proof. unfold integrity. destruct b; [|done]. destruct (bool_decide _) eqn:E; [|done]. apply bool_decide_eq_true in E. by destruct v. Qed.

Lemma relayer_kind_event e k : kind_name k = relayerKindForEnvelope (Event e) → k = k_event.
Proof. by destruct k. Qed.

Lemma legacy_content raw v plaintext handles : decodeContentEnvelope plaintext = None →
  (handles ≠ [] → integrity (negb (is_nil (attachments raw))) raw v = i_verified) →
  content raw v plaintext (legacy_message raw (text_decode plaintext) v handles).
Proof.
  intros Ed Hh. split; try done.
  - cbn. unfold row_text. by rewrite Ed.
  - cbn. by intros (_ & ? & _)%integrity_verified.
  - cbn. by intros (? & ? & ?)%integrity_verified.
  - cbn. intros [_ Ha]%andb_prop. by apply bool_decide_eq_true in Ha.
Qed.

Lemma envelope_content raw v plaintext e b : decodeContentEnvelope plaintext = Some e → content raw v plaintext (fromEnvelope files raw e v b).
Proof.
  intros Ed. unfold fromEnvelope.
  assert (integrity (has_attribution raw) raw v = i_verified → v = true ∧ signatureVersion raw = Some 2 ∧ has_attribution raw = true) as Hattr
    by (by intros (? & ? & ?)%integrity_verified).
  assert (isAgentMessage raw && bool_decide (integrity (has_attribution raw) raw v = i_verified) = true → integrity (has_attribution raw) raw v = i_verified) as Hagent
    by (intros [_ Ha]%andb_prop; by apply bool_decide_eq_true in Ha).
  destruct (bool_decide (kind_name (kind raw) = relayerKindForEnvelope e)) eqn:Ek; [apply bool_decide_eq_true in Ek|apply bool_decide_eq_false in Ek]; cbn [negb].
  - destruct e as [t txt att|e]; split; try done; cbn [with_content message_base m_text m_event m_envelopeAttachments m_attachments m_attachmentIntegrity].
    + unfold row_text. by rewrite Ed, decide_True.
    + intros l. destruct att as [[|a att]|]; [done| |done]. destruct v; [|done]. cbn. intros [= <-]. split; [done|]. by exists t, txt.
    + destruct (is_nil (default [] att)) eqn:En; [by destruct (default [] att), b, (bool_decide (is_Some files))|]. destruct v; [done|]. by rewrite andb_false_r.
    + destruct (is_nil (default [] att)); [done|]. by destruct v.
    + unfold row_text. by rewrite Ed, decide_True.
    + destruct v; [|done]. intros x [= <-]. split; [done|]. split; [by eapply relayer_kind_event|done].
  - split; try done. cbn. unfold row_text. by rewrite Ed, decide_False.
Qed.

(** A decrypted row is of the group asked for, and released at its trust. *)
Lemma decrypt_released raw verified resolving c m c' : decryptMessage pc pol cenv files raw g h ctx verified resolving c = (Ok m, c') →
  normalizeSharedPostAddress (Some (groupId raw)) = normalizeSharedPostAddress (Some g) ∧ released raw (default (verifyRawMessage raw) verified) m.
Proof.
  unfold decryptMessage. destruct (negb _ || negb _) eqn:Eg; [done|]. apply orb_false_elim in Eg as [Eg _].
  apply negb_false_iff, bool_decide_eq_true in Eg. intros E. split; [done|]. revert E.
  case_decide as Ek; [intros [= <- _]; by constructor|]. destruct (isDeleted raw) eqn:Edel; [intros [= <- _]; by apply released_deleted|].
  intros (a & c1 & Ea & E)%bind_ok_inv. unfold ClientMessage.or_fail in Ea.
  destruct (buildMessageAad _) as [aad|] eqn:Eaad; [|done]. injection Ea as -> ->.
  apply bind_ok_inv in E as (plaintext & c2 & Ep & E). unfold crypt in Ep.
  destruct (group_decrypt _ _ _ _ _ _ _ _) as [[x|] c3] eqn:Ed; [|done]. injection Ep as -> ->.
  assert (opened raw plaintext) as Hopened by (by exists a, c1, c2). cbv zeta in E.
  destruct (decodeContentEnvelope plaintext) as [e|] eqn:Edec.
  - injection E as <- _. apply (released_content _ _ plaintext); try done. by apply envelope_content.
  - apply bind_ok_inv in E as (handles & c4 & Eh & E). injection E as <- _. apply (released_content _ _ plaintext); try done.
    apply legacy_content; [done|]. intros Hne. destruct (resolving && _) eqn:Er; [|by injection Eh as <-].
    apply andb_prop in Er as [_ Er]. by apply bool_decide_eq_true in Er.
Qed.

Definition row_trust (x : RelayerMessage * option bool) : bool := default (verifyRawMessage x.1) x.2.

(** The messages are those of a part of the rows, in their order. *)
Definition released_of (l : list (RelayerMessage * option bool)) (ms : list (ClientMessage Ctx)) : Prop :=
  ∃ l', sublist l' l ∧ Forall2 (λ x m, normalizeSharedPostAddress (Some (groupId x.1)) = normalizeSharedPostAddress (Some g)
    ∧ released x.1 (row_trust x) m) l' ms.

Lemma settled_released l : ∀ c ms c', decrypt_settled pc pol cenv files g h ctx l c = (Ok ms, c') → released_of l ms.
Proof.
  induction l as [|[raw v] l IH]; intros c ms c'; simpl.
  { intros [= <- _]. exists []. by split. }
  intros (x & c1 & Ex & E)%bind_ok_inv. apply bind_ok_inv in E as (rest & c2 & Er & E). injection E as <- _.
  destruct (IH _ _ _ Er) as (l' & Hl' & Hrest). unfold try_catch in Ex.
  destruct ((m ← decryptMessage pc pol cenv files raw g h ctx v true; mret [m]) c) as [[y|e] c3] eqn:Ey.
  - injection Ex as -> ->. apply bind_ok_inv in Ey as (m & c4 & Em & Ey). injection Ey as <- _.
    exists ((raw, v) :: l'). split; [by apply sublist_skip|]. constructor; [by eapply decrypt_released|done].
  - injection Ex as <- _. exists l'. split; [by apply sublist_cons|done].
Qed.
End release.

(** * Pages of messages *)

Section pages.
Context `{JsonNumbers} `{JsText} `{Verification.HexCodec} `{Sha256} `{Base64Codec} `{MySoCrypto} `{EncryptionLib} `{MySoBcs} `{!DekCache} `{MlsEngine} {Ctx : Type}.
Context (config : client_config Ctx) (env : client_env) (fuel : nat).

#[local] Notation released := (released (packageConfig config) (policy config) (ce_crypto env)).
#[local] Notation released_of := (released_of (packageConfig config) (policy config) (ce_crypto env)).
#[local] Notation opened := (opened (packageConfig config) (policy config) (ce_crypto env)).

Lemma on_crypto_ok {A} (m : eff crypto client_error A) s a s' : on_crypto m s = (Ok a, s') →
  ∃ c, m (cl_crypto s) = (Ok a, c) ∧ s' = set_crypto c s.
Proof. unfold on_crypto. destruct (m (cl_crypto s)) as [r c]. intros [= -> <-]. by exists c. Qed.

Lemma on_session_rows i key before n s l s' : on_session i (λ _, rows key before n) s = (Ok l, s') →
  cl_mls s' = cl_mls s ∧ ∃ e x, cl_heap s' !! i = Some (e, x) ∧ l = listRows (toLowerCase key) before n (ms_store x).
Proof.
  unfold on_session. destruct (cl_heap s !! i) as [[e x]|] eqn:Ei; [|done]. cbv zeta.
  intros E. unfold rows, with_store, mbind, eff_bind, get_state in E. simpl in E. injection E as <- <-.
  split; [done|]. eexists e, _. split; [simpl; by apply list_lookup_insert_eq, lookup_lt_is_Some|done].
Qed.

Lemma catch_inv {S E A} (m : eff S E A) k s a s' : try_catch m k s = (Ok a, s') → m s = (Ok a, s') ∨ ∃ e s1, k e s1 = (Ok a, s').
Proof. unfold try_catch. destruct (m s) as [[x|e] s1]; [by left|]. intros Ek. right. by exists e, s1. Qed.

(** The rows a device of the state holds for a group. *)
Definition held (s : client) (key : jsstr) (before : option number) (n : nat) (l : list rv) : Prop :=
  ∃ i e x, cl_mls s = Some i ∧ cl_heap s !! i = Some (e, x) ∧ l = listRows (toLowerCase key) before n (ms_store x).

Lemma mls_rows_held key before n s l s' : mls_rows key before n s = (Ok l, s') → held s' key before n l.
Proof.
  unfold mls_rows, primary. intros (i & s1 & Ei & E)%bind_ok_inv. apply bind_ok_inv in Ei as (s2 & s3 & [= <- <-] & Ei).
  destruct (cl_mls s) as [j|] eqn:Ej; [|done]. injection Ei as <- <-.
  apply on_session_rows in E as (Em & e & x & Hx & El). exists j, e, x. by rewrite Em.
Qed.

Lemma or_fail_ok {S A} e (o : option A) (s : S) a s' : ClientMessage.or_fail e o s = (Ok a, s') → o = Some a ∧ s' = s.
Proof. destruct o; [|done]. by intros [= -> ->]. Qed.

Lemma lift_ok {E A} (f : E → client_error) (o : outcome E A) s a s' : lift_outcome f o s = (Ok a, s') → o = Ok a ∧ s' = s.
Proof. destruct o; [|done]. by intros [= -> ->]. Qed.

Lemma resolveRef_ok ref s ids s' : resolveRef config ref s = (Ok ids, s') → s' = s ∧ ∃ m, resolveGroupRef (packageConfig config) ref = Some (ids, m).
Proof.
  unfold resolveRef. intros [Er ->]%or_fail_ok. split; [done|]. destruct (resolveGroupRef _ ref) as [[x m]|]; [|done]. injection Er as <-. by exists m.
Qed.

Lemma ask_ok {A} (f : nat → A) s a s' : ask f s = (Ok a, s') → a = f (now_tick s) ∧ s' = tick_client s.
Proof. unfold ask. by intros [= <- <-]. Qed.

(** C3.  Messages are released at the trust of their rows.  The messages of a
    page are, in order, those of a part of the rows the relayer answered — each
    trusted only as far as its own signature verifies — or of the rows the
    device's store holds, trusted as the store marked them.  Each belongs to the
    group asked for, and but for system and deleted rows, which carry no content,
    its text is the row's ciphertext opened under the group, key version and
    sender of the row; its event, its attachments and their references are
    released only if the row is trusted, and an agent's attribution counts only
    if a trusted version-2 signature covers it. *)
Theorem messages_released ref after before limit ctx s res s' : getMessages config env fuel ref after before limit ctx s = (Ok res, s') →
  ∃ g h m l, resolveGroupRef (packageConfig config) ref = Some (g, h, m)
  ∧ released_of g h ctx l (gr_messages res)
  ∧ ((∃ t page, ce_fetchMessages env t g {| afterOrder := after; beforeOrder := before; limit := (λ n, Int (Z.of_nat n)) <$> limit |} = Some page
        ∧ l = (λ r, (r, None)) <$> messages page)
     ∨ (∃ stored, held s' g before (default 50%nat limit) stored
        ∧ l = (λ x : RelayerMessage * bool, (x.1, Some x.2)) <$> omap message_of_row (filter (λ r, after_of after r = true) stored))).
Proof.
  unfold getMessages. intros ([g h] & s1 & [-> [m Hr]]%resolveRef_ok & E)%bind_ok_inv. exists g, h, m. cbn [fst snd] in E.
  apply bind_ok_inv in E as (mls & s2 & _ & E). destruct mls.
  - apply bind_ok_inv in E as (fresh & s3 & _ & E). apply bind_ok_inv in E as (l & s4 & El & E). apply mls_rows_held in El.
    apply bind_ok_inv in E as (ms & s5 & Ems & E). injection E as <- ->.
    unfold decryptUnwrapped, decrypt_rows in Ems. apply on_crypto_ok in Ems as (c & Ems & ->).
    eexists. split; [done|]. split; [by eapply settled_released|]. right. by exists l.
  - apply bind_ok_inv in E as (o & s3 & [-> ->]%ask_ok & E). apply bind_ok_inv in E as (page & s4 & [Ep ->]%or_fail_ok & E).
    apply bind_ok_inv in E as (ms & s5 & Ems & E). injection E as <- _. apply on_crypto_ok in Ems as (c & Ems & ->).
    eexists. split; [done|]. split; [by eapply settled_released|]. left. by exists (now_tick s2), page.
Qed.

(** ** Strict room pages *)

Definition row_verified (mls : bool) (x : RelayerMessage * bool) : bool := if mls then x.2 else verifyRawMessage x.1.

(** What an entry says of its row. *)
Definition entry_of (g h : jsstr) (ctx : option Ctx) (mls : bool) (x : RelayerMessage * bool) (e : RoomHistoryEntry) : Prop :=
  let raw := x.1 in
  match e with
  | SystemMetadata id n => kind raw = k_system ∧ id = messageId raw ∧ n = order raw
  | DeletedMetadata id n => isDeleted raw = true ∧ id = messageId raw ∧ n = order raw
  | UnverifiedContent id n => row_verified mls x = false ∧ id = messageId raw ∧ n = order raw
  | UnavailableContent id n => row_verified mls x = true ∧ id = messageId raw ∧ n = order raw
  | VerifiedEntry c => row_verified mls x = true ∧ kind raw ≠ k_system ∧ isDeleted raw = false
      ∧ v_messageId c = messageId raw ∧ v_order c = order raw ∧ v_senderAddress c = senderAddress raw
      ∧ (∃ plaintext, opened g h ctx raw plaintext ∧ v_text c = row_text raw plaintext)
      ∧ (is_Some (v_attribution c) → signatureVersion raw = Some 2)
  end.

Lemma verified_fields raw m c : verifiedRoomEntry raw m = Ok c →
  v_messageId c = messageId raw ∧ v_order c = order raw ∧ v_senderAddress c = d_senderAddress m ∧ v_text c = d_text m
  ∧ d_isDeleted m = false ∧ d_kind m ≠ Some k_system ∧ (is_Some (v_attribution c) → d_attributionIntegrity m = i_verified).
Proof.
  unfold verifiedRoomEntry. destruct (_ || bool_decide (d_kind m = Some k_system)) eqn:E; [done|]. intros [= <-]. cbn.
  apply orb_false_elim in E as [[_ Hdel]%orb_false_elim Hk]. apply bool_decide_eq_false in Hk. split_and!; try done.
  case_bool_decide; [done|]. by intros [].
Qed.

Lemma released_entry g h ctx mls x m c : row_verified mls x = true → kind x.1 ≠ k_system → isDeleted x.1 = false →
  released g h ctx x.1 true m → verifiedRoomEntry x.1 (history_message m) = Ok c →
  entry_of g h ctx mls x (VerifiedEntry c).
Proof.
  intros Hv Hk Hd Hrel (E1 & E2 & E3 & E4 & E5 & E6 & E7)%verified_fields. cbn in E3, E4, E5, E6, E7.
  destruct Hrel as [?|? Hdel|plaintext m _ _ Hopen [Hrow Hver Htext _ _ _ _ Hattr _]]; [done|congruence|].
  destruct Hrow as (_ & _ & _ & Hs). rewrite Hs in E3. rewrite Htext in E4. split_and!; try done; [by exists plaintext|].
  intros Ha. by destruct (Hattr (E7 Ha)) as (_ & ? & _).
Qed.

Lemma decrypt_row_ok raw g h ctx v b s m s' : decrypt_row config env raw g h ctx v b s = (Ok m, s') →
  released g h ctx raw (default (verifyRawMessage raw) v) m.
Proof. unfold decrypt_row. intros (c & E & _)%on_crypto_ok. by eapply decrypt_released in E as [_ ?]. Qed.

Lemma readRow_sound g h ctx mls x s e s' : readRow config env g h ctx mls x s = (Ok e, s') → entry_of g h ctx mls x e.
Proof.
  destruct x as [raw b]. unfold readRow. cbn [fst snd]. case_decide as Hk; [by intros [= <- _]|].
  destruct (isDeleted raw) eqn:Hd; [by intros [= <- _]|]. destruct (if mls then b else verifyRawMessage raw) eqn:Hv; cbn [negb]; [|by intros [= <- _]].
  intros [Ey|(er & s0 & Ey)]%catch_inv; [|by injection Ey as <- _]. apply bind_ok_inv in Ey as (m & s1 & Em & E). apply bind_ok_inv in E as (c & s2 & [Ec ->]%lift_ok & E). injection E as <- ->.
  apply (released_entry g h ctx mls (raw, b) m); try done. apply catch_inv in Em as [Em|(er & s3 & Em)].
  - exact (decrypt_row_ok _ _ _ _ _ _ _ _ _ Em).
  - destruct er; try done. exact (decrypt_row_ok _ _ _ _ _ _ _ _ _ Em).
Qed.

Lemma read_entries_sound g h ctx mls l : ∀ s es s', read_entries config env g h ctx mls l s = (Ok es, s') → Forall2 (entry_of g h ctx mls) l es.
Proof.
  induction l as [|x l IH]; intros s es s'; simpl; [by intros [= <- _]|].
  intros (e & s1 & Ee & E)%bind_ok_inv. apply bind_ok_inv in E as (rest & s2 & Er & E). injection E as <- _.
  constructor; [by eapply readRow_sound|by eapply IH].
Qed.

Definition address_at (t : nat) (signer : Signer) : jsstr := match authSigner config with Some f => f t signer | None => toMySoAddress signer end.

Lemma assertReader_ok signer member g s u s' : assertReader config env signer member g s = (Ok u, s') →
  address_at (now_tick s) signer = member ∧ ce_hasPermission env (now_tick s) g member (messagingReader config) = Some true ∧ s' = tick_client s.
Proof.
  unfold assertReader. intros (a & s1 & Ea & E)%bind_ok_inv. injection Ea as <- <-.
  apply bind_ok_inv in E as (? & s2 & Em & E). unfold address_at. case_decide; [|by apply bind_ok_inv in Em as (? & ? & _ & ?)].
  injection Em as <- <-. apply bind_ok_inv in E as (o & s3 & [-> ->]%ask_ok & E). apply bind_ok_inv in E as (b & s4 & [Eb ->]%or_fail_ok & E).
  destruct b; [|by apply bind_ok_inv in E as (? & ? & _ & ?)]. by injection E as <- <-.
Qed.

(** ** Where the rows of a page come from *)

(** The device, its sessions and the cached metadata. *)
Definition same_device (s s' : client) : Prop :=
  cl_mls s' = cl_mls s ∧ cl_heap s' = cl_heap s ∧ cl_metadata s' = cl_metadata s.

Lemma held_same s s' g before n l : same_device s s' → held s g before n l → held s' g before n l.
Proof. intros (Em & Eh & _) (i & e & x & Hi & Hx & ->). exists i, e, x. by rewrite Em, Eh. Qed.

Lemma same_trans s1 s2 s3 : same_device s1 s2 → same_device s2 s3 → same_device s1 s3.
Proof. unfold same_device. intros (-> & -> & ->) (-> & -> & ->). done. Qed.

(** A call that only decrypts, or only asks. *)
Definition only_reads {A} (m : eff client client_error A) : Prop := ∀ s0, keeps (same_device s0) m.

Lemma on_crypto_reads {A} (m : eff crypto client_error A) : only_reads (on_crypto m).
Proof. intros s0 s Hs. unfold on_crypto. destruct (m (cl_crypto s)) as [r c]. exact Hs. Qed.

Lemma lift_reads {E A} (f : E → client_error) (o : outcome E A) : only_reads (lift_outcome f o).
Proof. intros s0. destruct o; [apply keeps_ret|apply keeps_throw]. Qed.

Lemma readRow_reads g h ctx mls x : only_reads (readRow config env g h ctx mls x).
Proof.
  intros s0. unfold readRow. case_decide; [apply keeps_ret|]. destruct (isDeleted x.1); [apply keeps_ret|].
  destruct (negb _); [apply keeps_ret|]. apply keeps_catch; [|intros; apply keeps_ret].
  apply keeps_bind; [|intros; apply keeps_bind; [apply lift_reads|intros; apply keeps_ret]].
  apply keeps_catch; [apply on_crypto_reads|]. intros []; first [apply keeps_throw|apply on_crypto_reads].
Qed.

Lemma read_entries_reads g h ctx mls l : only_reads (read_entries config env g h ctx mls l).
Proof.
  intros s0. induction l as [|x l IH]; [apply keeps_ret|]. cbn [read_entries].
  apply keeps_bind; [apply readRow_reads|]. intros. apply keeps_bind; [exact IH|]. intros. apply keeps_ret.
Qed.

(** The client knows the group as [mls1]. *)
Definition flagged (s : client) (g : jsstr) : Prop :=
  ∃ m, map_get g (cl_metadata s) = Some m ∧ lookup_value (js "e2ee") (gm_data m) = Some (js "mls1").

Lemma read_objects_cached l : ∀ known s r s', (∀ g m, map_get g known = Some m → map_get g (cl_metadata s) = Some m) →
  read_objects config l known s = (Ok r, s') → ∀ g m, map_get g r = Some m → map_get g (cl_metadata s') = Some m.
Proof.
  induction l as [|[| |m0] l IH]; intros known s r s' Hk; simpl; [intros [= <- <-]; exact Hk|by apply IH|done|].
  intros E. apply bind_ok_inv in E as (? & s1 & E1 & E). injection E1 as _ <-. eapply IH; [|exact E].
  intros g m. simpl. rewrite !map_get_set. case_decide; [done|apply Hk].
Qed.

Lemma groupsMetadata_cached g s r s' : groupsMetadata config env [g] false s = (Ok r, s') →
  ∀ m, map_get g r = Some m → map_get g (cl_metadata s') = Some m.
Proof.
  unfold groupsMetadata. intros (s0 & s1 & [= <- <-] & E)%bind_ok_inv. cbv zeta in E. cbn [foldl] in E.
  set (known := match map_get g (cl_metadata s) with Some m => map_set g m [] | None => [] end) in E.
  assert (∀ g' m, map_get g' known = Some m → map_get g' (cl_metadata s) = Some m) as Hk.
  { intros g' m. unfold known. destruct (map_get g (cl_metadata s)) as [m0|] eqn:Eg; [|done].
    rewrite map_get_set. case_decide; [intros [= <-]; by subst|done]. }
  destruct (is_nil _); [injection E as <- <-; apply Hk|].
  apply bind_ok_inv in E as (o & s2 & [-> ->]%ask_ok & E). apply bind_ok_inv in E as (l & s3 & [_ ->]%or_fail_ok & E).
  intros m. by apply (read_objects_cached l known (tick_client s) _ _ Hk E).
Qed.

Lemma readsMls_flagged g s s' : readsMls config env fuel g s = (Ok true, s') → flagged s' g.
Proof.
  unfold readsMls. intros (flag & s1 & Ef & E)%bind_ok_inv. destruct (negb _) eqn:Eb; [done|].
  apply negb_false_iff, bool_decide_eq_true in Eb as ->.
  assert (flagged s1 g) as (m & Hm & Hv).
  { apply catch_inv in Ef as [Ef|(e & s2 & Ef)]; [|done]. apply bind_ok_inv in Ef as (f & s3 & Ef & E1). injection E1 as -> <-.
    unfold e2eeFlag, group_value in Ef. apply bind_ok_inv in Ef as (metas & s4 & Em & Ef). injection Ef as Ef ->.
    destruct (map_get g metas) as [m|] eqn:Eg; [|done]. exists m. split; [by eapply groupsMetadata_cached|exact Ef]. }
  apply bind_ok_inv in E as (s2 & s3 & [= <- <-] & E). destruct (cl_mls s1) as [i|]; [|done].
  apply bind_ok_inv in E as (b & s4 & E1 & E). assert (cl_metadata s4 = cl_metadata s1) as Em.
  { unfold on_session in E1. destruct (cl_heap s1 !! i) as [[menv x]|]; [|done].
    destruct (ensureGroup menv fuel g x) as [r x']. injection E1 as _ <-. done. }
  destruct b; [|done]. injection E as <-. exists m. by rewrite Em.
Qed.

(** The raw rows of a page, [more] telling whether others follow: of a group read
    through MLS, those of the device's store between the bounds asked for, the
    first or the last [n] of them; otherwise those the relayer answered. *)
Definition page_source (s : client) (g : jsstr) (o : HistoryOptions) (n : number) (mls : bool)
    (l : list (RelayerMessage * bool)) (more : bool) : Prop :=
  if mls then
    flagged s g ∧ ∃ stored, held s g None ALL_ROWS stored
    ∧ let all := filter (λ r, match afterOrder o with Some a => num_lt a (row_order r) | None => true end
                              && match beforeOrder o with Some b => num_lt (row_order r) b | None => true end = true) stored in
      let n := match n with Int n => Z.to_nat n | _ => O end in
      let page := match afterOrder o with Some _ => take n all | None => drop (length all - n) all end in
      mapM message_of_row page = Some l ∧ more = (length page <? length all)%nat
  else ∃ t page, ce_fetchMessages env t g {| afterOrder := afterOrder o; beforeOrder := beforeOrder o; limit := Some n |} = Some page
    ∧ l = (λ r, (r, false)) <$> messages page ∧ more = hasNext page.

Lemma page_source_same s s' g o n mls l more : same_device s s' → page_source s g o n mls l more → page_source s' g o n mls l more.
Proof.
  intros Hs. destruct mls; [|done]. intros ((m & Hm & Hv) & stored & Hheld & Hrows). split; [exists m; by rewrite (proj2 (proj2 Hs))|].
  exists stored. split; [by eapply held_same|exact Hrows].
Qed.

Lemma mls_sync_metadata g s l s' : mls_sync fuel g s = (Ok l, s') → cl_metadata s' = cl_metadata s.
Proof.
  unfold mls_sync, primary. intros (i & s1 & Ei & E)%bind_ok_inv.
  apply bind_ok_inv in Ei as (? & s2 & [= <- <-] & [_ ->]%or_fail_ok).
  unfold on_session in E. destruct (cl_heap s !! i) as [[e x]|]; [|done].
  destruct (sync e fuel g x) as [r x']. by injection E as _ <-.
Qed.

Lemma mls_rows_metadata key before n s l s' : mls_rows key before n s = (Ok l, s') → cl_metadata s' = cl_metadata s.
Proof.
  unfold mls_rows, primary. intros (i & s1 & Ei & E)%bind_ok_inv.
  apply bind_ok_inv in Ei as (? & s2 & [= <- <-] & [_ ->]%or_fail_ok).
  unfold on_session in E. destruct (cl_heap s !! i) as [[e x]|]; [|done].
  destruct (rows key before n x) as [r x']. by injection E as _ <-.
Qed.

Lemma room_rows_source g o n mls s l more s' : (mls = true → flagged s g) →
  room_rows env fuel g o n mls s = (Ok (l, more), s') → page_source s' g o n mls l more.
Proof.
  intros Hf. unfold room_rows, page_source. destruct mls.
  - intros ([page b] & s1 & Ep & E)%bind_ok_inv. apply bind_ok_inv in E as (l1 & s2 & [El ->]%or_fail_ok & E). injection E as -> -> ->.
    unfold mlsPage in Ep. apply bind_ok_inv in Ep as (? & s3 & Ey & Ep). apply bind_ok_inv in Ep as (stored & s4 & Er & Ep).
    injection Ep as <- <- ->. cbn [fst snd] in El |- *. pose proof (mls_rows_held _ _ _ _ _ _ Er) as Hheld.
    split. { destruct (Hf eq_refl) as (m & Hm & Hv). exists m.
             by rewrite (mls_rows_metadata _ _ _ _ _ _ Er), (mls_sync_metadata _ _ _ _ Ey). }
    exists stored. split; [exact Hheld|]. cbv zeta. by split.
  - intros (a & s1 & [-> ->]%ask_ok & E)%bind_ok_inv. apply bind_ok_inv in E as (page & s2 & [Ep ->]%or_fail_ok & E).
    injection E as <- <- _. by exists (now_tick s), page.
Qed.

(** C4.  A strict room page is sound.  When [getRoomMessages] returns, the
    signer's address held the group's reading permission on chain at the call's
    first await and at its last one, after every row was read, and was the same
    address at both.  The rows are those the relayer answered for the group and the
    bounds asked for, or, only where the client's metadata flags the group [mls1], those
    between the bounds in the device's store, the first or last [limit] of them.
    They passed the page's validation, which gave the
    cursor; the entries are theirs, one each, in order.  An entry shows text
    only for a row that is verified: a relayer's row by its own signature, a stored
    one by the mark of the device's store.  The text is the row's ciphertext opened for the row's
    sender; an attribution shows only under a version-2 signature.  The page
    counts as verified only if it has entries and all show verified content. *)
Theorem room_page_sound signer ref o ctx s page s' : getRoomMessages config env fuel signer ref o ctx s = (Ok page, s') →
  ∃ h m mls rows limit t, resolveGroupRef (packageConfig config) ref = Some (rp_groupId page, h, m)
  ∧ (let member := address_at (now_tick s) signer in
     ce_hasPermission env (now_tick s) (rp_groupId page) member (messagingReader config) = Some true
     ∧ address_at t signer = member ∧ ce_hasPermission env t (rp_groupId page) member (messagingReader config) = Some true ∧ now_tick s' = S t)
  ∧ validateRoomHistoryRequest o = Ok limit
  ∧ page_source s' (rp_groupId page) o limit mls rows (rp_hasNext page)
  ∧ validateRoomHistoryPage {| messages := rows.*1; hasNext := rp_hasNext page |} (rp_groupId page)
      {| afterOrder := afterOrder o; beforeOrder := beforeOrder o; limit := Some limit |} = Ok (rp_nextCursor page)
  ∧ Forall2 (entry_of (rp_groupId page) h ctx mls) rows (rp_entries page)
  ∧ (rp_allContentVerified page = true ↔ rp_entries page ≠ [] ∧ Forall (λ e, ∃ c, e = VerifiedEntry c) (rp_entries page)).
Proof.
  unfold getRoomMessages. intros (limit & s1 & [El ->]%lift_ok & E)%bind_ok_inv.
  apply bind_ok_inv in E as ([g h] & s2 & [-> [m Hr]]%resolveRef_ok & E). cbn [fst snd] in E.
  apply bind_ok_inv in E as (member & s3 & Em & E). injection Em as <- <-.
  apply bind_ok_inv in E as (? & s4 & (_ & Hfirst & _)%assertReader_ok & E). apply bind_ok_inv in E as (mls & s5 & Emls & E).
  apply bind_ok_inv in E as ([rows more] & s6 & Erows & E). cbn [fst snd] in E. apply bind_ok_inv in E as (cursor & s7 & [Ec ->]%lift_ok & E).
  apply room_rows_source in Erows; [|intros ->; by eapply readsMls_flagged].
  apply bind_ok_inv in E as (es & s8 & Ees & E). pose proof (read_entries_reads g h ctx mls rows s6 s6 ltac:(done)) as Hsame.
  rewrite Ees in Hsame. apply read_entries_sound in Ees.
  apply bind_ok_inv in E as (? & s9 & (Haddr & Hlast & ->)%assertReader_ok & E). injection E as <- <-. cbn [rp_groupId rp_entries rp_hasNext rp_nextCursor rp_allContentVerified].
  exists h, m, mls, rows, limit, (now_tick s8). split_and!; try done; [by eapply page_source_same|]. split.
  - intros He. destruct es as [|e es]; [done|]. split; [done|]. cbn [is_nil negb andb] in He. apply Is_true_true, forallb_True in He.
    eapply Forall_impl; [exact He|]. intros y. cbn. destruct y; try done. by eexists.
  - intros [Hne Hes]. destruct es as [|e es]; [done|]. cbn [is_nil negb andb]. apply Is_true_true, forallb_True.
    eapply Forall_impl; [exact Hes|]. by intros y [c ->].
Qed.
End pages.
