(* ===== verification/ClientExamples.v ===== *)
(** Concrete clients: a member of a group that writes envelopes, one of a group
    that publishes no metadata, and one of an [mls1] group. *)
From S2P Require Import Prelude JsString JsMap Utf8 TextDecoder Json Base64 Anchors AuthHeaders GroupName Payments Aad Encryption Envelope Verification Wire RoomHistory HttpTransport HttpCalls HttpAuth MlsRows MlsTypes MlsCertificates MlsSession MlsSeal Attachments ClientMessage Client ClientRead ClientProps ClientSafety ClientRelease.

#[local] Set Warnings "-notation-overridden".

(** The toy signature scheme, with addresses of full length. *)
Definition wide_address (k : bool) : jsstr := js "0x" ++ padStart 64 48 (if k then js "b" else js "a").

Definition wide_crypto : MySoCrypto := {|
  PublicKey := bool;
  SIGNATURE_FLAG_TO_SCHEME := @SIGNATURE_FLAG_TO_SCHEME toy_crypto;
  publicKeyFromMySoBytes := @publicKeyFromMySoBytes toy_crypto;
  toMySoBytes := @toMySoBytes toy_crypto;
  toSerializedSignature := @toSerializedSignature toy_crypto;
  parseSerializedSignature := @parseSerializedSignature toy_crypto;
  verifyPersonalMessageSignature := @verifyPersonalMessageSignature toy_crypto;
  key_address := wide_address |}.

Lemma wide_crypto_laws : @MySoCryptoLaws wide_crypto.
Proof. split; apply toy_crypto_laws. Qed.

Definition wide_signer : @Signer wide_crypto := @Build_Signer wide_crypto true (λ m, 1 :: m).

Lemma wide_signer_ok : @keypair_signer wide_crypto wide_signer.
Proof. exact toy_signer_ok. Qed.

Lemma wide_signer_binding : @binding_signer wide_crypto wide_signer.
Proof. exact toy_signer_binding. Qed.

#[local] Existing Instances integer_numbers integer_numbers_laws ascii_text ascii_text_laws plain_hex plain_hex_laws plain_base64 wide_crypto
  wide_crypto_laws MlsSeal.plain_sha MlsSeal.toy_engine plain_bcs plain_lib plain_laws plain_cache plain_cache_laws.

Definition wide_member : jsstr := wide_address true.

Definition room_config : client_config unit := {|
  packageConfig := toy_config; policy := toy_policy; attachmentsConfig := Some toy_limits; blockGating := true; authSigner := None;
  has_relayerUrl := true |}.

Definition room_reader : jsstr := messagingReader room_config.

(** The chain lists the members and answers no metadata query with an object;
    the relayer accepts every row and lists [page]. *)
Definition room_env (members : list (jsstr * list jsstr)) (page : FetchMessagesResult) : client_env := {|
  ce_crypto := toy_crypto_env; ce_metadataFieldId g := g; ce_objects _ _ := Some []; ce_members _ _ _ := Some members;
  ce_hasPermission _ _ m p := Some (bool_decide (m = wide_member) && bool_decide (p = room_reader));
  ce_checkPair _ _ _ := Some false; ce_execute _ _ := true; ce_sendMessage _ _ := Some (js "m1"); ce_updateMessage _ _ := true;
  ce_deleteMessage _ _ _ := true; ce_postReaction _ _ _ _ _ := true; ce_respond _ _ _ _ := true;
  ce_fetchMessage _ _ _ := head (messages page); ce_fetchMessages _ _ _ := Some page; ce_recover := None; ce_randomUUID _ := js "u" |}.

Definition empty_page : FetchMessagesResult := {| messages := []; hasNext := false |}.
Definition two_members : list (jsstr * list jsstr) := [(wide_member, [room_reader]); (wide_address false, [room_reader])].

Definition cached_flag (v : string) : list (jsstr * GroupMetadata) :=
  [(toy_group, {| gm_name := js "room"; gm_uuid := js "u"; gm_data := [(js "e2ee", js v)] |})].

Definition room_client (metadata : list (jsstr * GroupMetadata)) (heap : list (mls_env * session)) (sessions : list (jsstr * nat)) : client :=
  Client _ _ _ toy_start metadata heap sessions (if is_nil heap then None else Some 0%nat) [].

Definition say (k : EnvelopeMessageType) (key shared : option jsstr) : SendMessageOptions unit := {|
  so_signer := wide_signer; so_groupRef := toy_ref; so_text := Some (js "hi"); so_files := []; so_kind := Some k; so_idempotencyKey := key;
  so_paymentMetadata := None; so_sharedPostAddress := shared; so_attribution := None; so_principalOwner := None; so_ctx := None |}.

(** The first row posted. *)
Definition posted_by (s : client) : option SendMessageParams := match cl_sent s with SendMessage p :: _ => Some p | _ => None end.

Definition envelope_client : client := room_client (cached_flag "v2") [] [].

Notation after_saying o := (sendMessage room_config (room_env two_members empty_page) 0 o envelope_client).

Definition row_of (p : SendMessageParams) : RelayerMessage := {|
  messageId := js "m1"; groupId := sp_groupId p; order := Int 1; encryptedText := sp_encryptedText p; nonce := sp_nonce p;
  keyVersion := sp_keyVersion p; senderAddress := wide_member; createdAt := 0; updatedAt := 0; attachments := []; isEdited := false;
  isDeleted := false; syncStatus := js "SYNCED"; quiltPatchId := None; signature := default [] (sp_messageSignature p);
  signatureVersion := sp_signatureVersion p; publicKey := toHex (toMySoBytes (signer_key wide_signer)); principalOwner := None; subAgentId := None;
  identityClass := None; isAgentMessage := false; kind := default k_text (sp_kind p); system := None; paymentMetadata := None |}.

Definition said : option SendMessageParams := Eval vm_compute in posted_by (after_saying (say text None None)).2.
Definition shared : option SendMessageParams := Eval vm_compute in posted_by (after_saying (say post (Some (js "k")) (Some (js "0x12")))).2.

(** ** Groups without MLS *)

Definition writes_v2 (m : GroupMetadata) : Prop := gm_data m = [(js "e2ee", js "v2")].

Lemma one_key_truth : truthful one_key_view (λ _, js "0xc") toy_crypto_env.
Proof. intros t. apply sees_self. Qed.

Lemma empty_coherent : coherent one_key_view (λ _, js "0xc") (cr_cache toy_start).
Proof. by intros g v d. Qed.

Lemma envelope_client_plain : plain one_key_view (λ _, js "0xc") toy_group writes_v2 [] envelope_client.
Proof.
  split; [exact empty_coherent|]. split; [|reflexivity]. intros m. cbn. rewrite decide_True by done. by intros [= <-].
Qed.

Lemma no_answers (U : GroupMetadata → Prop) : answers room_config (room_env two_members empty_page) toy_group U.
Proof. intros t ids l m. cbn. intros [= <-] Hm. by apply elem_of_nil in Hm. Qed.

Lemma writes_v2_unflagged : unflagged writes_v2.
Proof. intros m E. rewrite E. vm_compute. discriminate. Qed.

Lemma toy_room : is_Some (normalizeSharedPostAddress (Some toy_group)).
Proof. apply (bool_decide_unpack _). vm_compute. reflexivity. Qed.

(** The row is one [row_of] gives back. *)
Definition relayable (p : SendMessageParams) : bool :=
  match sp_attribution p, sp_attachments p, sp_kind p with
  | None, None, Some k => negb (bool_decide (k = k_token_transfer)) && negb (is_nil (default [] (sp_messageSignature p)))
  | _, _, _ => false
  end.

Lemma row_relayed p : relayable p = true → relayed p wide_member (signer_key wide_signer) (row_of p).
Proof.
  unfold relayable. destruct (sp_attribution p) eqn:Ea; [done|]. destruct (sp_attachments p) eqn:Et; [done|].
  destruct (sp_kind p) as [k|] eqn:Ek; [|done]. intros [Hk Hs]%andb_prop. split; cbn; rewrite ?Ea, ?Et, ?Ek; try reflexivity.
  - split; [reflexivity|]. vm_compute. discriminate.
  - by destruct (sp_messageSignature p) as [[]|].
  - intros Hk'. cbn in Hk'. by rewrite (bool_decide_eq_true_2 _ Hk') in Hk.
Qed.

Lemma plain_hi : plain_text (js "hi").
Proof. repeat split; [apply wf_js|..]; vm_compute; reflexivity. Qed.

Lemma message_delivered_witness : ∃ p, cl_sent (after_saying (say text None None)).2 = [SendMessage p]
  ∧ ∃ x k', decryptMessage toy_config toy_policy toy_crypto_env None (row_of p) toy_group (js "0xc") None None true toy_start = (Ok x, k')
    ∧ m_text x = js "hi" ∧ m_senderVerified x = true.
Proof.
  assert ((after_saying (say text None None)).1 = Ok (js "m1")) as Er by (vm_compute; reflexivity).
  assert (from_option relayable false (posted_by (after_saying (say text None None)).2) = true) as Hrow by (vm_compute; reflexivity).
  destruct (after_saying (say text None None)) as [r s'] eqn:E. simpl in Er, Hrow |- *. subst r.
  destruct (message_delivered room_config (room_env two_members empty_page) 0 one_key_view (λ _, js "0xc") toy_group writes_v2 []
    writes_v2_unflagged (no_answers _) one_key_truth toy_config toy_policy toy_crypto_env None None one_key_truth
    (say text None None) None envelope_client (js "m1") s' envelope_client_plain eq_refl eq_refl toy_room E) as (_ & p & sender & Ep & _ & [t ->] & Hread).
  simpl in Ep. exists p. split; [exact Ep|]. unfold posted_by in Hrow. rewrite Ep in Hrow.
  destruct (Hread plain_hi ltac:(vm_compute; reflexivity) (row_of p) toy_start (row_relayed p Hrow) empty_coherent (toy_can_read _))
    as (x & k' & Ed & Et & _ & _ & _ & Ev).
  exists x, k'. split; [exact Ed|]. split; [exact Et|]. rewrite Ev; [by apply bool_decide_eq_true_2|exact wide_signer_ok|].
  split; [discriminate|]. right. by left.
Defined.

(** The post below is signed for a wall; nobody's check of its row succeeds. *)
Lemma post_never_verified_witness : ∃ p, cl_sent (after_saying (say post (Some (js "k")) (Some (js "0x12")))).2 = [SendMessage p]
  ∧ verifyRawMessage (row_of p) = false.
Proof.
  set (o := say post (Some (js "k")) (Some (js "0x12"))).
  assert ((after_saying o).1 = Ok (js "m1")) as Er by (vm_compute; reflexivity).
  assert (from_option (λ p, relayable p && bool_decide (wf_bytes (sp_encryptedText p)) && bool_decide (wf_bytes (sp_nonce p))) false (posted_by (after_saying o).2) = true)
    as Hrow by (vm_compute; reflexivity).
  destruct (after_saying o) as [r s'] eqn:E. simpl in Er, Hrow |- *. subst r.
  destruct (post_never_verified room_config (room_env two_members empty_page) 0 one_key_view (λ _, js "0xc") toy_group writes_v2 []
    writes_v2_unflagged (no_answers _) one_key_truth None o None envelope_client (js "m1") s' envelope_client_plain eq_refl eq_refl eq_refl eq_refl)
    as (p & sender & Ep & [t ->] & _ & Hno).
  - apply (bool_decide_unpack _). vm_compute. reflexivity.
  - apply (bool_decide_unpack _). vm_compute. reflexivity.
  - exact wide_signer_ok.
  - exact wide_signer_binding.
  - exact E.
  - simpl in Ep. exists p. split; [exact Ep|]. unfold posted_by in Hrow. rewrite Ep in Hrow. cbn [from_option] in Hrow.
    apply andb_prop in Hrow as [[Hrow Hx]%andb_prop Hy]. apply bool_decide_eq_true in Hx, Hy.
    exact (proj1 (Hno (row_of p) (row_relayed p Hrow) Hx Hy)).
Defined.

(** ** A metadata outage *)

Definition cold_client : client := room_client [] [] [].

Definition after_saying_cold : outcome client_error jsstr * client :=
  sendMessage room_config (room_env two_members empty_page) 0 (say text None None) cold_client.

Lemma metadata_outage_witness : ∃ p sender, cl_sent after_saying_cold.2 = [SendMessage p]
  ∧ sealed_for one_key_view (λ _, js "0xc") toy_group (utf8_encode (js "hi")) (row_envelope p (row_aad p sender)).
Proof.
  assert (after_saying_cold.1 = Ok (js "m1")) as Er by (vm_compute; reflexivity).
  unfold after_saying_cold in *. destruct (sendMessage _ _ _ _ cold_client) as [r s'] eqn:E. simpl in Er |- *. subst r.
  assert (plain one_key_view (λ _, js "0xc") toy_group (λ _, False) [] cold_client) as Hs by (split; [exact empty_coherent|split; [intros m; done|reflexivity]]).
  assert (unflagged (λ _, False)) as Hf by (intros m []).
  destruct (proj1 (metadata_outage room_config (room_env two_members empty_page) 0 one_key_view (λ _, js "0xc") toy_group (λ _, False) []
    Hf (no_answers _) one_key_truth toy_ref None cold_client (λ _ Hm, Hm) Hs eq_refl) (say text None None) (js "m1") s' eq_refl eq_refl E)
    as (_ & p & sender & Ep & Hp).
  exists p, sender. split; [exact Ep|exact Hp].
Defined.

(** ** An [mls1] group *)

(** The session of [MlsSeal]'s example, opened for the wallet of [wide_signer]. *)
Definition member_mls_env : mls_env := {|
  en_certs := en_certs (toy_mls_env false); en_wallet := toLowerCase wide_member; en_deviceId := js "d"; en_keyPackageTarget := None;
  en_onChainReaders := None; en_verifyRow := en_verifyRow (toy_mls_env false); en_historyShareDays := None; en_randomUUID _ := js "u";
  en_postControlRow _ _ _ := Some true; en_fetchRows _ _ _ := Some ([], false); en_postGroupInfo _ _ _ := true;
  en_getGroupInfo _ _ := None; en_claimKeyPackages _ _ := None; en_postWelcome _ _ _ _ := true; en_takeWelcomes _ := None;
  en_putKeyPackages _ _ := true; en_postAppRow _ _ _ := true; en_deleteDevice _ := true; en_getSelfGroupInfo _ := None;
  en_putSelfGroupInfo _ _ := true; en_postSelfMessage _ _ := None; en_fetchSelf _ _ := None; en_historyRowsPerGroup := None |}.

Definition mls_client : client := room_client (cached_flag "mls1") [(member_mls_env, toy_session)] [(toLowerCase wide_member, 0%nat)].
Definition mls_members : list (jsstr * list jsstr) := [(js "0xme", [room_reader]); (js "0xcarol", [room_reader]); (wide_member, [])].

Notation after_sealing := (run_write room_config (room_env mls_members empty_page) 3 wide_signer toy_ref (Send (say text None None)) mls_client).

Lemma mls_client_guarded : guarded toy_group [member_mls_env] mls_client.
Proof.
  split; [eexists; split; reflexivity|reflexivity|]. intros w i. cbn. case_decide; [|done]. intros [= <-]. exists member_mls_env. by subst.
Qed.

Lemma one_row (P : request → Prop) (r : outcome client_error () * client) : (match r.1 with Throw TransportFailed => true | _ => false end) = true →
  ((length (cl_sent r.2) =? 1)%nat && bool_decide (is_Some (posted_by r.2))) = true →
  (∃ l, cl_sent r.2 = cl_sent mls_client ++ l ∧ Forall P l) → r.1 = Throw TransportFailed ∧ ∃ p, cl_sent r.2 = [SendMessage p] ∧ P (SendMessage p).
Proof.
  destruct r as [[|e] s]; [done|]. simpl. intros He Hlen (l & El & Hl). split; [by destruct e|].
  unfold posted_by in Hlen. rewrite El in Hlen |- *. destruct l as [|[p| | | | |] [|]]; try done. exists p. split; [done|].
  by inversion Hl.
Qed.


(** ** Reading *)

Definition said_page : FetchMessagesResult :=
  Eval vm_compute in {| messages := row_of <$> option_list (posted_by after_saying_cold.2); hasNext := false |}.

Notation page_read := (getMessages room_config (room_env two_members said_page) 0 toy_ref None None None None cold_client).
Notation room_read := (getRoomMessages room_config (room_env two_members said_page) 0 wide_signer toy_ref {| afterOrder := None; beforeOrder := None; limit := None |} None cold_client).

Lemma messages_released_witness : ∃ res, page_read.1 = Ok res ∧ length (gr_messages res) = 1%nat ∧ ∃ l,
  released_of toy_config toy_policy toy_crypto_env toy_group (js "0xc") None l (gr_messages res).
Proof.
  assert (match page_read.1 with Ok res => (length (gr_messages res) =? 1)%nat | _ => false end = true) as Er by (vm_compute; reflexivity).
  destruct page_read as [[res|e] s'] eqn:E; [|discriminate]. exists res. split; [reflexivity|]. split; [by apply Nat.eqb_eq|].
  destruct (messages_released room_config (room_env two_members said_page) 0 toy_ref None None None None cold_client res s' E)
    as (g & h & m & l & Hr & Hl & _). injection Hr as <- <- <-. exists l. exact Hl.
Defined.

Lemma room_page_sound_witness : ∃ page, room_read.1 = Ok page ∧ rp_groupId page = toy_group ∧ Forall (λ e, ∃ c, e = VerifiedEntry c) (rp_entries page).
Proof.
  assert (match room_read.1 with Ok page => rp_allContentVerified page && bool_decide (rp_groupId page = toy_group) | _ => false end = true) as Er
    by (vm_compute; reflexivity).
  destruct room_read as [[page|e] s'] eqn:E; [|discriminate]. apply andb_prop in Er as [Er Eg]. apply bool_decide_eq_true in Eg.
  exists page. split; [reflexivity|]. split; [exact Eg|].
  destruct (room_page_sound room_config (room_env two_members said_page) 0 wide_signer toy_ref {| afterOrder := None; beforeOrder := None; limit := None |} None
    cold_client page s' E) as (h & m & mls & rows & limit & t & _ & _ & _ & _ & _ & _ & Hv).
  exact (proj2 (proj1 Hv Er)).
Defined.
