(* ===== verification/MlsRelayer.v ===== *)
(** The HTTP delivery service of the MLS sessions ([mls/relayer.ts], the class
    [HttpMlsRelayer]): every call, the payload it signs and sends and the value it
    returns, over the world of [HttpTransport]; and what the sessions rely on: each
    request is signed for what it asks, an answer of the relayer is taken for what it
    says, and a row posted here verifies when it is read back.

    [fetch] is called without an abort signal; the rows of the log go through the
    relayer transport ([HttpCalls]).  [random n] is what [getRandomValues] gives at
    the [n]-th await, [text_of] the text of an answer's body ([''] when it cannot be
    read). *)
From S2P Require Import Prelude JsString JsMap Utf8 Json MlsTypes MlsSession Encryption ClientMessage.
From S2P Require Import Verification AuthHeaders Wire HttpTransport HttpCalls HttpAuth.

(** [options.relayerUrl.replace(/\/$/, '')] *)
Definition strip_slash (u : jsstr) : jsstr :=
  match reverse u with 47 :: u' => reverse u' | _ => u end.

Section relayer.
Context `{JsonNumbers} `{JsText} `{HexCodec} `{MySoCrypto} `{Base64Codec}.
Context (env : nat → await_step) (relayerUrl : jsstr) (t : transport) (random : nat → bytes) (text_of : outcome jsstr json → jsstr).

Notation call := (HttpTransport.call).

(** [#call]; [view] reads the answer at the type of the call. *)
Definition mls_call {A} (view : json → option A) (m path : jsstr) (h : headers) (body : option (list (jsstr * json))) : call A :=
  _ ← modify (add_sent {|
        method := m; url := strip_slash relayerUrl ++ path;
        rq_headers := spread h (match body with Some _ => [(js "content-type", js "application/json")] | None => [] end);
        rq_body := (λ b, stringify (JObj b)) <$> body |});
  r ← await env;
  match r with
  | Failed name => throw (Platform name)
  | Response status _ b =>
      _ ← await env;
      if response_ok status then
        match b with
        | Throw name => throw (Platform name)
        | Ok v => match view v with Some x => mret x | None => throw IllTyped end
        end
      else throw (RelayerTransportError
             (Some (JStr (m ++ js " " ++ path ++ js " failed (" ++ dec_Z status ++ js "): " ++ text_of b))) status None None)
  end.

(** [#signedPost] *)
Definition signedPost {A} (view : json → option A) (signer : Signer) (path : jsstr) (payload : list (jsstr * json)) (m : jsstr) : call A :=
  bh ← sign_with env (λ now, createBodyAuth now signer payload);
  mls_call view m path bh.2 (Some bh.1).

(** A wallet DELETE signs the last path segment. *)
Definition delete_auth (now : Z) (signer : Signer) (token : jsstr) : outcome sign_error headers :=
  match signAndCreateAuthHeaders signer (utf8_encode (dec_Z (seconds now) ++ js ":" ++ sender_of signer ++ js ":" ++ token)) with
  | Throw e => Throw e
  | Ok h => Ok (spread h [(js "x-sender-address", sender_of signer); (js "x-timestamp", dec_Z (seconds now))])
  end.

Definition hex_value (s : jsstr) : call bytes := of_option Malformed (fromHex s).

Definition putKeyPackages (signer : Signer) (deviceId : jsstr) (cert : MlsDeviceCertificate) (kps : list bytes) : call unit :=
  signedPost ignore signer (js "/v1/mls/key-packages")
    [(js "device_id", JStr deviceId); (js "certificate", certificate_json cert);
     (js "key_packages", JArr ((λ k, JStr (toHex k)) <$> kps))] (js "POST").

Definition claimed_of (o : option json) : option (jsstr * jsstr * jsstr) :=
  v ← o; w ← field as_str v "wallet"; d ← field as_str v "device_id"; k ← field as_str v "key_package"; Some (w, d, k).

Definition claimKeyPackages (signer : Signer) (wallets : list jsstr) : call (list ClaimedKeyPackage) :=
  items ← signedPost (λ v, field (as_list claimed_of) v "items") signer (js "/v1/mls/key-packages/claim")
            [(js "wallets", JArr (JStr <$> wallets))] (js "POST");
  of_option Malformed (mapM (λ i, k ← fromHex i.2; Some {| cl_wallet := i.1.1; cl_deviceId := i.1.2; cl_keyPackage := k |}) items).

Definition mls_path (groupId : jsstr) (tail : string) : jsstr := js "/v1/groups/" ++ groupId ++ js "/mls/" ++ js tail.

Definition postWelcome (signer : Signer) (groupId : jsstr) (recipients : list (jsstr * jsstr)) (welcome : bytes) : call unit :=
  signedPost ignore signer (mls_path groupId "welcomes")
    [(js "group_id", JStr groupId);
     (js "recipients", JArr ((λ r, JObj [(js "wallet", JStr r.1); (js "device_id", JStr r.2)]) <$> recipients));
     (js "welcome", JStr (toHex welcome))] (js "POST").

Definition welcome_of (o : option json) : option (jsstr * jsstr) :=
  v ← o; g ← field as_str v "group_id"; w ← field as_str v "welcome"; Some (g, w).

Definition takeWelcomes (signer : Signer) (deviceId : jsstr) : call (list (jsstr * bytes)) :=
  h ← sign_with env (λ now, createWalletHeaderAuth now signer);
  d ← of_option BadURI (encodeURIComponent deviceId);
  items ← mls_call (λ v, field (as_list welcome_of) v "items") (js "GET") (js "/v1/mls/welcomes?device_id=" ++ d) h None;
  of_option Malformed (mapM (λ i, w ← fromHex i.2; Some (i.1, w)) items).

Definition postGroupInfo (signer : Signer) (groupId : jsstr) (info : bytes) : call unit :=
  signedPost ignore signer (mls_path groupId "group-info")
    [(js "group_id", JStr groupId); (js "group_info", JStr (toHex info))] (js "POST").

(** [catch (error) { if (error instanceof RelayerTransportError && error.status === status) return value; throw error }] *)
Definition on_status {A} (status : Z) (value : A) (m : call A) : call A :=
  try_catch m (λ e, if bool_decide (relayer_status e = Some status) then mret value else throw e).

Definition group_info (path : jsstr) (h : headers) : call (option bytes) :=
  on_status 404 None (i ← mls_call (λ v, field as_str v "group_info") (js "GET") path h None; b ← hex_value i; mret (Some b)).

Definition getGroupInfo (signer : Signer) (groupId : jsstr) : call (option bytes) :=
  h ← sign_with env (λ now, createHeaderAuth now signer groupId);
  group_info (mls_path groupId "group-info") h.

(** The text of an MLS row of the log that is signed, and the row. *)
Definition mls_row_params (groupId : jsstr) (k : MessageKind) (mls nonce : bytes) : CanonicalParams := {|
  Verification.groupId := groupId; Verification.kind := Some (kind_name k); Verification.signatureVersion := None;
  Verification.encryptedText := mls; Verification.nonce := nonce; Verification.keyVersion := 0; sharedPostAddress := None;
  transferDigest := None; idempotencyKey := None; Verification.attachments := None; attribution := None |}.

Definition mls_row (groupId : jsstr) (k : MessageKind) (mls nonce : bytes) (signature : jsstr) : SendMessageParams := {|
  sp_groupId := groupId; sp_encryptedText := mls; sp_nonce := nonce; sp_keyVersion := 0; sp_kind := Some k;
  sp_signatureVersion := None; sp_idempotencyKey := None; sp_sharedPostAddress := None; sp_paymentMetadata := None;
  sp_attachments := None; sp_messageSignature := Some signature; sp_notifyWallets := None; sp_attribution := None |}.

(** From the nonce to the signature. *)
Definition signed_row (signer : Signer) (groupId : jsstr) (k : MessageKind) (mls : bytes) : call SendMessageParams :=
  w ← get_state;
  let nonce := random (turn w) in
  signature ← sign_with env (λ _, signMessageContent signer (mls_row_params groupId k mls nonce));
  mret (mls_row groupId k mls nonce signature).

Definition postControlRow (signer : Signer) (groupId : jsstr) (mls : bytes) : call bool :=
  p ← signed_row signer groupId k_commit mls;
  on_status 409 false (_ ← sendMessage env t signer p; mret true).

Definition postAppRow (signer : Signer) (groupId : jsstr) (mls : bytes) : call unit :=
  p ← signed_row signer groupId k_event mls;
  discard (sendMessage env t signer p).

Definition getSelfGroupInfo (signer : Signer) : call (option bytes) :=
  h ← sign_with env (λ now, createWalletHeaderAuth now signer);
  group_info (js "/v1/mls/self/group-info") h.

Definition putSelfGroupInfo (signer : Signer) (info : bytes) : call unit :=
  signedPost ignore signer (js "/v1/mls/self/group-info") [(js "group_info", JStr (toHex info))] (js "PUT").

Definition postSelfMessage (signer : Signer) (body : bytes) : call bool :=
  on_status 409 false
    (_ ← signedPost ignore signer (js "/v1/mls/self/messages") [(js "body", JStr (toHex body))] (js "POST"); mret true).

Definition item_of (o : option json) : option (number * jsstr) :=
  v ← o; n ← field as_num v "seq"; b ← field as_str v "body"; Some (n, b).

Definition items_of (v : json) : option (list (number * jsstr)) := field (as_list item_of) v "items".

Definition item_bodies (items : list (number * jsstr)) : call (list (number * bytes)) :=
  of_option Malformed (mapM (λ i, b ← fromHex i.2; Some (i.1, b)) items).

Definition page_query (after limit : number) : jsstr :=
  js "after=" ++ String_of_number after ++ js "&limit=" ++ String_of_number limit.

Definition fetchSelf (signer : Signer) (after limit : number) : call (list (number * bytes)) :=
  h ← sign_with env (λ now, createWalletHeaderAuth now signer);
  items ← mls_call items_of (js "GET") (js "/v1/mls/self/messages?" ++ page_query after limit) h None;
  item_bodies items.

Definition putBackupSegment (signer : Signer) (keyId : jsstr) (body : bytes) : call number :=
  signedPost (λ v, field as_num v "seq") signer (js "/v1/mls/backup/segments")
    [(js "key_id", JStr keyId); (js "body", JStr (toHex body))] (js "POST").

Definition listBackupSegments (signer : Signer) (keyId : jsstr) (after limit : number) : call (list (number * bytes)) :=
  h ← sign_with env (λ now, createWalletHeaderAuth now signer);
  k ← of_option BadURI (encodeURIComponent keyId);
  items ← mls_call items_of (js "GET") (js "/v1/mls/backup/segments?key_id=" ++ k ++ js "&" ++ page_query after limit) h None;
  item_bodies items.

Definition wallet_delete (signer : Signer) (path token : jsstr) : call unit :=
  h ← sign_with env (λ now, delete_auth now signer token);
  k ← of_option BadURI (encodeURIComponent token);
  mls_call ignore (js "DELETE") (path ++ k) h None.

Definition deleteBackup (signer : Signer) (keyId : jsstr) : call unit := wallet_delete signer (js "/v1/mls/backup/") keyId.
Definition deleteDevice (signer : Signer) (deviceId : jsstr) : call unit := wallet_delete signer (js "/v1/mls/devices/") deviceId.

Definition fetchRows (signer : Signer) (groupId : jsstr) (afterOrder limit : number) : call FetchedPage :=
  fetchMessages env t signer groupId (Some afterOrder) None (Some limit).
End relayer.

(** * The calls *)

Inductive relayer_call :=
  | RPutKeyPackages (deviceId : jsstr) (cert : MlsDeviceCertificate) (kps : list bytes)
  | RClaimKeyPackages (wallets : list jsstr)
  | RPostWelcome (groupId : jsstr) (recipients : list (jsstr * jsstr)) (welcome : bytes)
  | RTakeWelcomes (deviceId : jsstr)
  | RPostGroupInfo (groupId : jsstr) (info : bytes)
  | RGetGroupInfo (groupId : jsstr)
  | RPostControlRow (groupId : jsstr) (mls : bytes)
  | RPostAppRow (groupId : jsstr) (mls : bytes)
  | RFetchRows (groupId : jsstr) (afterOrder limit : number)
  | RGetSelfGroupInfo
  | RPutSelfGroupInfo (info : bytes)
  | RPostSelfMessage (body : bytes)
  | RFetchSelf (after limit : number)
  | RPutBackupSegment (keyId : jsstr) (body : bytes)
  | RListBackupSegments (keyId : jsstr) (after limit : number)
  | RDeleteBackup (keyId : jsstr)
  | RDeleteDevice (deviceId : jsstr).

Section perform.
Context `{JsonNumbers} `{JsText} `{HexCodec} `{MySoCrypto} `{Base64Codec}.
Context (env : nat → await_step) (relayerUrl : jsstr) (t : transport) (random : nat → bytes) (text_of : outcome jsstr json → jsstr).

Notation call := (HttpTransport.call).

(** The call, without its value. *)
Definition perform (s : Signer) (c : relayer_call) : call unit :=
  match c with
  | RPutKeyPackages d c k => putKeyPackages env relayerUrl text_of s d c k
  | RClaimKeyPackages l => discard (claimKeyPackages env relayerUrl text_of s l)
  | RPostWelcome g r b => postWelcome env relayerUrl text_of s g r b
  | RTakeWelcomes d => discard (takeWelcomes env relayerUrl text_of s d)
  | RPostGroupInfo g b => postGroupInfo env relayerUrl text_of s g b
  | RGetGroupInfo g => discard (getGroupInfo env relayerUrl text_of s g)
  | RPostControlRow g b => discard (postControlRow env t random s g b)
  | RPostAppRow g b => postAppRow env t random s g b
  | RFetchRows g a l => discard (fetchRows env t s g a l)
  | RGetSelfGroupInfo => discard (getSelfGroupInfo env relayerUrl text_of s)
  | RPutSelfGroupInfo b => putSelfGroupInfo env relayerUrl text_of s b
  | RPostSelfMessage b => discard (postSelfMessage env relayerUrl text_of s b)
  | RFetchSelf a l => discard (fetchSelf env relayerUrl text_of s a l)
  | RPutBackupSegment k b => discard (putBackupSegment env relayerUrl text_of s k b)
  | RListBackupSegments k a l => discard (listBackupSegments env relayerUrl text_of s k a l)
  | RDeleteBackup k => deleteBackup env relayerUrl text_of s k
  | RDeleteDevice d => deleteDevice env relayerUrl text_of s d
  end.

(** How a request of each call is signed; for the DELETEs see [mls_authentic]. *)
Definition relayer_auth (c : relayer_call) : auth_kind :=
  match c with
  | RGetGroupInfo g | RFetchRows g _ _ => AGroup g
  | RTakeWelcomes _ | RGetSelfGroupInfo | RFetchSelf _ _ | RListBackupSegments _ _ _ => AWallet
  | RDeleteBackup k => ADelete k
  | RDeleteDevice d => ADelete d
  | _ => ABody
  end.

(** [h] carries the signature by [s] of a time, its address and a group, which [h] states. *)
Definition signs_group (s : Signer) (now : Z) (g : jsstr) (h : headers) : Prop :=
  signed s (utf8_encode (dec_Z (seconds now) ++ js ":" ++ sender_of s ++ js ":" ++ toLowerCase g)) h
  ∧ says h "x-timestamp" (dec_Z (seconds now)) ∧ says h "x-sender-address" (sender_of s) ∧ says h "x-group-id" (toLowerCase g).

Definition mls_authentic (s : Signer) (now : Z) (c : relayer_call) (rq : Request) : Prop :=
  match relayer_auth c with
  | ADelete token => rq_body rq = None
      ∧ signed s (utf8_encode (dec_Z (seconds now) ++ js ":" ++ sender_of s ++ js ":" ++ token)) (rq_headers rq)
      ∧ says (rq_headers rq) "x-timestamp" (dec_Z (seconds now)) ∧ says (rq_headers rq) "x-sender-address" (sender_of s)
  | AGroup g => rq_body rq = None ∧ signs_group s now g (rq_headers rq)
  | k => authentic s now k rq
  end.

(** ** What is sent *)

(** From [w], the call only sends requests of [P], and leaves the header cache sound. *)
Definition emits {A} (P : Request → Prop) (w : http) (m : call A) : Prop :=
  ∀ r w', m w = (r, w') → cache_ok w' ∧ ∃ l, sent w' = sent w ++ l ∧ Forall P l.

Lemma emits_of_sends {A} P w (m : call A) : sends_at cache_ok P w m → emits P w m.
Proof. intros Hm r w' Hr. destruct (Hm r w' Hr) as [HI [(l & E & F & _) _]]. split; [done|]. by exists l. Qed.

Lemma emits_ret {A} P w (a : A) : cache_ok w → emits P w (mret a).
Proof. intros HI. apply emits_of_sends. by apply sends_ret. Qed.

Lemma emits_throw {A} P w e : cache_ok w → emits P w (throw e : call A).
Proof. intros HI. apply emits_of_sends. by apply sends_throw. Qed.

Lemma emits_option {A} P w e (a : option A) : cache_ok w → emits P w (of_option e a).
Proof. intros HI. apply emits_of_sends. by apply sends_of_option. Qed.

Lemma emits_bind {A B} P (Q : A → Prop) w (m : call A) (k : A → call B) :
  emits P w m → returns_at w Q m → (∀ a w1, m w = (Ok a, w1) → cache_ok w1 → Q a → emits P w1 (k a)) → emits P w (m ≫= k).
Proof.
  intros Hm HQ Hk r w' Hr. unfold mbind, eff_bind in Hr. destruct (m w) as [[a|e] w1] eqn:E.
  - destruct (Hm _ _ E) as (HI & l & El & Fl). destruct (Hk a w1 eq_refl HI (HQ _ _ E) _ _ Hr) as (HI' & l' & El' & Fl').
    split; [done|]. exists (l ++ l'). rewrite El', El, app_assoc. split; [done|]. by apply Forall_app.
  - injection Hr as <- <-. by apply (Hm _ _ E).
Qed.

Lemma emits_then {A B} P w (m : call A) (k : A → call B) :
  emits P w m → (∀ a w1, cache_ok w1 → emits P w1 (k a)) → emits P w (m ≫= k).
Proof. intros Hm Hk. eapply (emits_bind P (λ _, True)); [done|by intros a w'|]. intros a w1 _ HI _. by apply Hk. Qed.

Lemma emits_catch {A} P w (m : call A) (h : transport_error → call A) :
  emits P w m → (∀ e w1, cache_ok w1 → emits P w1 (h e)) → emits P w (try_catch m h).
Proof.
  intros Hm Hh r w' Hr. unfold try_catch in Hr. destruct (m w) as [[a|e] w1] eqn:E.
  - injection Hr as <- <-. by apply (Hm _ _ E).
  - destruct (Hm _ _ E) as (HI & l & El & Fl). destruct (Hh e w1 HI _ _ Hr) as (HI' & l' & El' & Fl').
    split; [done|]. exists (l ++ l'). rewrite El', El, app_assoc. split; [done|]. by apply Forall_app.
Qed.

Lemma emits_status {A} P w st (v : A) (m : call A) : emits P w m → emits P w (on_status st v m).
Proof. intros Hm. apply emits_catch; [done|]. intros e w1 HI. case_bool_decide; [by apply emits_ret|by apply emits_throw]. Qed.

Lemma emits_discard {A} P w (m : call A) : emits P w m → emits P w (discard m).
Proof. intros Hm. apply emits_then; [done|]. intros a w1 HI. by apply emits_ret. Qed.

Definition mls_request_of (m path : jsstr) (h : headers) (body : option (list (jsstr * json))) : Request := {|
  method := m; url := strip_slash relayerUrl ++ path;
  rq_headers := spread h (match body with Some _ => [(js "content-type", js "application/json")] | None => [] end);
  rq_body := (λ b, stringify (JObj b)) <$> body |}.

(** [#call], with its two awaits laid out. *)
Lemma mls_call_run {A} (view : json → option A) m path h body w :
  let w1 := after_await (env (turn w)) (add_sent (mls_request_of m path h body) w) in
  mls_call env relayerUrl text_of view m path h body w =
    match st_reply (env (turn w)) with
    | Failed name => (Throw (Platform name), w1)
    | Response st tx b =>
        (if response_ok st then
           match b with Throw name => Throw (Platform name) | Ok v => match view v with Some x => Ok x | None => Throw IllTyped end end
         else Throw (RelayerTransportError
                (Some (JStr (m ++ js " " ++ path ++ js " failed (" ++ dec_Z st ++ js "): " ++ text_of b))) st None None),
         after_await (env (S (turn w))) w1)
    end.
Proof.
  cbv zeta. set (rq := mls_request_of m path h body). destruct (after_await_spec (env (turn w)) (add_sent rq w)) as (_ & _ & _ & T1 & _).
  unfold mls_call, await, mbind, eff_bind, modify, throw, mret, eff_ret. fold (mls_request_of m path h body). fold rq.
  set (w1 := after_await (env (turn w)) (add_sent rq w)) in *. change (turn (add_sent rq w)) with (turn w) in *.
  destruct (st_reply (env (turn w))) as [name|st tx b]; [done|]. fold w1. rewrite T1. destruct (response_ok st); [|done]. destruct b as [v|]; [|done]. by destruct (view v).
Qed.

Lemma after_await_ok e w : cache_ok w → cache_ok (after_await e w).
Proof.
  intros HI. destruct (after_await_spec e w) as (_ & _ & _ & _ & _ & E). destruct (st_disconnect e); [by apply cache_ok_nil|by eapply cache_ok_same].
Qed.

Lemma emits_mls_call {A} (P : Request → Prop) w (view : json → option A) m path h body :
  cache_ok w → P (mls_request_of m path h body) → emits P w (mls_call env relayerUrl text_of view m path h body).
Proof.
  intros HI HP r w' Hr. rewrite mls_call_run in Hr. cbv zeta in Hr. set (rq := mls_request_of m path h body) in *.
  assert (cache_ok (after_await (env (turn w)) (add_sent rq w))) as H1' by (by apply after_await_ok; eapply cache_ok_same).
  destruct (after_await_spec (env (turn w)) (add_sent rq w)) as (S1 & _).
  destruct (after_await_spec (env (S (turn w))) (after_await (env (turn w)) (add_sent rq w))) as (S2 & _).
  destruct (st_reply (env (turn w))) as [name|st tx b]; injection Hr as <- <-.
  - split; [done|]. exists [rq]. rewrite S1. split; [done|by constructor].
  - split; [by apply after_await_ok|]. exists [rq]. rewrite S2, S1. split; [done|by constructor].
Qed.

(** A reading of the clock between [w] and [w']: when the call starts, or after one of its awaits. *)
Definition reading (w w' : http) (now : Z) : Prop :=
  now = clock w ∨ ∃ n, (turn w ≤ n < turn w')%nat ∧ now = st_clock (env n).

(** When a call's requests are signed: as it starts; a posted row, after the row's own
    signature; the listing of rows, as it starts or, after a 401, once more. *)
Definition signing_time (c : relayer_call) (w w' : http) (now : Z) : Prop :=
  match c with
  | RPostControlRow _ _ | RPostAppRow _ _ => now = st_clock (env (turn w))
  | RFetchRows _ _ _ => reading w w' now
  | _ => now = clock w
  end.

(** The headers of a listing may also be those cached, for less than their lifetime, for
    the address and the group. *)
Definition cached_headers (s : Signer) (c : relayer_call) (w : http) (rq : Request) : Prop :=
  ∃ g after limit at_, c = RFetchRows g after limit
    ∧ map_get (headerAuthCacheKey s g) (headerAuthCache w) = Some (rq_headers rq, at_)
    ∧ 10 * (clock w - at_) < headerAuthCacheTtl10 t ∧ authentic s (clock w) (AGroup g) rq.

(** *** The clock *)

Definition advances (w w' : http) : Prop := (turn w ≤ turn w')%nat ∧ reading w w' (clock w').

Lemma advances_same w w' : turn w' = turn w → clock w' = clock w → advances w w'.
Proof. intros E1 E2. split; [lia|]. by left. Qed.

Lemma reading_later w w1 w' now : advances w w1 → reading w1 w' now → (turn w1 ≤ turn w')%nat → reading w w' now.
Proof.
  intros [Ht [Hc|(n & Hn & Hc)]] [->|(n' & Hn' & ->)] Hle.
  - by left.
  - right. exists n'. split; [lia|done].
  - right. exists n. split; [lia|done].
  - right. exists n'. split; [lia|done].
Qed.

Lemma advances_trans w1 w2 w3 : advances w1 w2 → advances w2 w3 → advances w1 w3.
Proof. intros H12 [Ht Hr]. split; [destruct H12; lia|by eapply reading_later]. Qed.

Lemma advances_await w w0 : turn w0 = turn w → advances w (after_await (env (turn w)) w0).
Proof.
  intros E. destruct (after_await_spec (env (turn w)) w0) as (_ & _ & _ & T & C & _). split; [lia|].
  right. exists (turn w). split; [lia|done].
Qed.

Lemma request_advances {A} (view : json → option A) path m h body w r w' :
  request env t view path m h body w = (r, w') → advances w w'.
Proof.
  destruct (disconnected w) eqn:Hd.
  { unfold request, mbind, eff_bind, get_state. rewrite Hd. intros [= _ <-]. by apply advances_same. }
  rewrite request_run by done. cbv zeta. set (rq := {| method := m |}).
  set (w1 := after_await (env (turn w)) (add_sent rq w)).
  assert (advances w w1) as Hw1 by (by apply advances_await).
  assert (turn w1 = S (turn w)) as T1 by (by destruct (after_await_spec (env (turn w)) (add_sent rq w)) as (_ & _ & _ & ? & _)).
  assert (advances w (after_await (env (S (turn w))) w1)) as Hw2.
  { eapply advances_trans; [exact Hw1|]. rewrite <-T1. by apply advances_await. }
  destruct (st_reply (env (turn w))) as [name|st tx b]; [by intros [= _ <-]|].
  destruct (st_disconnect (env (turn w))); [by intros [= _ <-]|]. destruct (response_ok st); by intros [= _ <-].
Qed.

Lemma cached_advances s g force w r w' : cachedHeaderAuth env t s g force w = (r, w') → advances w w'.
Proof.
  intros Hr. assert (advances w (if force then forget s g w else w)) as Hw0 by (destruct force; by apply advances_same).
  eapply advances_trans; [exact Hw0|]. destruct (cached_cases env t s g force w) as [(h & at_ & _ & _ & E)|E]; rewrite E in Hr; clear E.
  { injection Hr as _ <-. by apply advances_same. }
  set (w0 := if force then _ else _) in *. clearbody w0.
  assert (advances w0 (after_await (env (turn w0)) w0)) as Ha by (by apply advances_await).
  unfold fresh_header, sign_with, mbind, eff_bind, get_state, await, modify, throw, mret, eff_ret in Hr.
  destruct (createHeaderAuth (clock w0) s g); by injection Hr as _ <-.
Qed.

Lemma attempt_advances {A} (view : json → option A) s g path m force w r w' :
  attempt env t view s g path m force w = (r, w') → advances w w'.
Proof.
  unfold attempt, mbind, eff_bind. destruct (cachedHeaderAuth env t s g force w) as [[h|e] w1] eqn:Ec; apply cached_advances in Ec.
  - intros Hr%request_advances. by eapply advances_trans.
  - by intros [= _ <-].
Qed.

Lemma group_request_advances {A} (view : json → option A) s g path m w r w' :
  requestWithGroupHeaderAuth env t view s g path m w = (r, w') →
  advances w w' ∧ ∀ e w1, attempt env t view s g path m false w = (Throw e, w1) → reading w w' (clock w1).
Proof.
  intros Hr. change (try_catch (attempt env t view s g path m false)
    (λ e, if bool_decide (relayer_status e = Some 401) then attempt env t view s g path m true else throw e) w = (r, w')) in Hr.
  unfold try_catch in Hr. destruct (attempt env t view s g path m false w) as [[a|e] w1] eqn:E; apply attempt_advances in E.
  - injection Hr as _ <-. done.
  - assert (advances w1 w') as Hw1.
    { case_bool_decide; [by eapply attempt_advances|]. injection Hr as _ <-. by apply advances_same. }
    split; [by eapply advances_trans|]. intros e' w1' [= <- <-]. eapply reading_later; [exact E|by left|apply Hw1].
Qed.

Lemma signs_group_header s now g h : createHeaderAuth now s g = Ok h → signs_group s now g h.
Proof.
  unfold createHeaderAuth. destruct (signAndCreateAuthHeaders _ _) as [a|] eqn:Es; [|done]. intros ->%ok_inj.
  unfold wallet_canonical in Es. rewrite <-!app_assoc in Es. split; [apply signed_spread; [exact Es|repeat constructor; discriminate]|].
  destruct (sign_shape _ _ _ Es) as (sig & key & ->). by repeat split.
Qed.

(** A header used by a listing is a cached one, or signed now. *)
Lemma source_signed s g after limit w w' path h now : cache_ok w → header_source t s g w h → now = clock w →
  let rq := group_request t path (js "GET") h in
  (∃ now, signing_time (RFetchRows g after limit) w w' now ∧ mls_authentic s now (RFetchRows g after limit) rq)
  ∨ cached_headers s (RFetchRows g after limit) w rq.
Proof.
  intros HI Hh ->. cbv zeta. destruct Hh as [(at_ & Hget & Hlt)|Hf]; [right|left].
  - exists g, after, limit, at_. split_and!; try done. apply header_authentic.
    destruct (HI _ _ _ Hget) as (now & s' & g' & Ek & Eh). by exists now, s', g'.
  - exists (clock w). split; [by left|]. split; [done|]. by apply signs_group_header.
Qed.

Lemma sign_world {A} (auth : Z → outcome sign_error A) w a w1 : sign_with env auth w = (Ok a, w1) → w1 = after_await (env (turn w)) w.
Proof. unfold sign_with, mbind, eff_bind, get_state, await, mret, eff_ret, throw. destruct (auth (clock w)); [by intros [= <- <-]|done]. Qed.

Lemma emits_signed {A} (P : Request → Prop) w (view : json → option A) s path payload m : cache_ok w →
  (∀ b h, createBodyAuth (clock w) s payload = Ok (b, h) → P (mls_request_of m path h (Some b))) →
  emits P w (signedPost env relayerUrl text_of view s path payload m).
Proof.
  intros HI HP. eapply emits_bind; [apply emits_of_sends; by apply sends_sign|apply sign_returns|].
  intros [b h] w1 _ HI1 Hb. apply emits_mls_call; [done|]. by apply HP.
Qed.

Lemma spread_nil (h : headers) : spread h [] = h.
Proof. done. Qed.

Lemma mls_body_authentic s payload b h now m path : createBodyAuth now s payload = Ok (b, h) →
  authentic s now ABody (mls_request_of m path h (Some b)).
Proof.
  intros Hb. pose proof (body_authentic s payload b h now m (strip_slash relayerUrl ++ path) Hb) as (body & E & Hs & Hrest).
  cbn [rq_body] in E. apply (inj Some) in E. exists body. cbn [mls_request_of rq_body rq_headers option_fmap option_map fmap]. rewrite E. split; [done|]. split; [|done].
  unfold createBodyAuth in Hb. destruct (signAndCreateAuthHeaders _ _) as [a|] eqn:Ea; [|done]. injection Hb as <- <-. rewrite E in Ea.
  apply signed_spread; [exact Ea|repeat constructor; discriminate].
Qed.

Lemma mls_delete_authentic s h now token : delete_auth now s token = Ok h →
  signed s (utf8_encode (dec_Z (seconds now) ++ js ":" ++ sender_of s ++ js ":" ++ token)) h
  ∧ says h "x-timestamp" (dec_Z (seconds now)) ∧ says h "x-sender-address" (sender_of s).
Proof.
  unfold delete_auth. destruct (signAndCreateAuthHeaders _ _) as [a|] eqn:Es; [|done]. intros ->%ok_inj.
  split; [apply signed_spread; [done|repeat constructor; discriminate]|]. destruct (sign_shape _ _ _ Es) as (sig & key & ->). by split.
Qed.

(** What a call other than a listing sends, at a time that does not depend on how it ends. *)
Definition fixed_time (c : relayer_call) (w : http) : Z :=
  match c with RPostControlRow _ _ | RPostAppRow _ _ => st_clock (env (turn w)) | _ => clock w end.

Lemma perform_emits s c w : cache_ok w → (∀ g a l, c ≠ RFetchRows g a l) →
  emits (λ rq, mls_authentic s (fixed_time c w) c rq) w (perform s c).
Proof.
  intros HI Hlist. set (P := λ rq, _).
  assert (∀ A B (auth : Z → outcome sign_error A) (k : A → call B),
    (∀ a w1, cache_ok w1 → auth (clock w) = Ok a → w1 = after_await (env (turn w)) w → emits P w1 (k a)) → emits P w (a ← sign_with env auth; k a)) as Hsign.
  { intros A B auth k Hk. eapply emits_bind; [apply emits_of_sends; by apply sends_sign|apply sign_returns|].
    intros a w1 E HI1 Ha. apply Hk; [done|done|by eapply sign_world]. }
  assert (∀ A (view : json → option A) path payload m, relayer_auth c = ABody → fixed_time c w = clock w → emits P w (signedPost env relayerUrl text_of view s path payload m)) as Hpost.
  { intros A view path payload m Hc Ht. apply emits_signed; [done|]. intros b h Hb. unfold P. rewrite Ht. unfold mls_authentic. rewrite Hc. by eapply mls_body_authentic. }
  assert (∀ A (view : json → option A) m path h w1, cache_ok w1 → fixed_time c w = clock w → mls_authentic s (clock w) c (mls_request_of m path h None) →
    emits P w1 (mls_call env relayerUrl text_of view m path h None)) as Hcall.
  { intros A view m path h w1 HI1 Ht Ha. apply emits_mls_call; [done|]. unfold P. by rewrite Ht. }
  assert (∀ h m path, createWalletHeaderAuth (clock w) s = Ok h → relayer_auth c = AWallet → mls_authentic s (clock w) c (mls_request_of m path h None)) as Hwallet.
  { intros h m path Hh Hc. unfold mls_authentic. rewrite Hc. unfold mls_request_of. rewrite spread_nil. by apply wallet_authentic. }
  assert (∀ path token, relayer_auth c = ADelete token → fixed_time c w = clock w → emits P w (wallet_delete env relayerUrl text_of s path token)) as Hdelete.
  { intros path token Hc Ht. apply Hsign. intros h w1 HI1 Hh _. apply emits_then; [by apply emits_option|]. intros k w2 HI2. apply Hcall; [done..|].
    unfold mls_authentic. rewrite Hc. split; [done|]. cbn [mls_request_of rq_headers]. rewrite spread_nil. by apply mls_delete_authentic. }
  assert (∀ path h w1, cache_ok w1 → fixed_time c w = clock w → mls_authentic s (clock w) c (mls_request_of (js "GET") path h None) → emits P w1 (group_info env relayerUrl text_of path h)) as Hinfo.
  { intros path h w1 HI1 Ht Ha. apply emits_status, emits_then; [by apply Hcall|]. intros i w2 HI2. apply emits_then; [by apply emits_option|]. intros b w3 HI3. by apply emits_ret. }
  assert (∀ g k mls w1 sig nonce, relayer_auth c = ABody → fixed_time c w = st_clock (env (turn w)) → cache_ok w1 → w1 = after_await (env (turn w)) w →
    emits P w1 (sendMessage env t s (mls_row g k mls nonce sig))) as Hrow.
  { intros g k mls w1 sig nonce Hc Ht HI1 ->. apply emits_of_sends, sends_body_at; [done|]. intros b h Hb. unfold P.
    destruct (after_await_spec (env (turn w)) w) as (_ & _ & _ & _ & Ck & _). rewrite Ck in Hb.
    rewrite Ht. unfold mls_authentic. rewrite Hc. by eapply body_authentic. }
  assert (∀ B g k mls (f : SendMessageParams → call B), (∀ sig nonce w1, cache_ok w1 → w1 = after_await (env (turn w)) w → emits P w1 (f (mls_row g k mls nonce sig))) →
    emits P w (p ← signed_row env random s g k mls; f p)) as Hsigned.
  { intros B g k mls f Hf r w' Hr.
    refine (Hsign _ _ (λ _, signMessageContent s (mls_row_params g k mls (random (turn w)))) (λ sig, f (mls_row g k mls (random (turn w)) sig)) _ r w' _).
    - intros sig w1 HI1 _ E. by apply Hf.
    - unfold signed_row in Hr. unfold mbind, eff_bind, get_state, mret, eff_ret in Hr |- *. destruct (sign_with env _ w) as [[sig|e] w1]; exact Hr. }
  destruct c as [d c k|l|g rs b|d|g b|g|g b|g b|g a l| |b|b|a l|k b|k a l|k|d]; cbn [perform]; try (apply emits_discard).
  - by apply Hpost.
  - apply emits_then; [by apply Hpost|]. intros items w1 HI1. by apply emits_option.
  - by apply Hpost.
  - apply Hsign. intros h w1 HI1 Hh _. apply emits_then; [by apply emits_option|]. intros q w2 HI2. apply emits_then; [apply Hcall; [done|done|by apply Hwallet]|].
    intros items w3 HI3. by apply emits_option.
  - by apply Hpost.
  - apply Hsign. intros h w1 HI1 Hh _. apply Hinfo; [done..|]. unfold mls_authentic. cbn [relayer_auth]. unfold mls_request_of. rewrite spread_nil.
    split; [done|]. by apply signs_group_header.
  - apply Hsigned. intros sig nonce w1 HI1 E. apply emits_status, emits_then; [by apply Hrow|]. intros ? w2 HI2. by apply emits_ret.
  - apply Hsigned. intros sig nonce w1 HI1 E. apply emits_discard. by apply Hrow.
  - by destruct (Hlist g a l).
  - apply Hsign. intros h w1 HI1 Hh _. apply Hinfo; [done..|]. by apply Hwallet.
  - by apply Hpost.
  - apply emits_status, emits_then; [by apply Hpost|]. intros ? w1 HI1. by apply emits_ret.
  - apply Hsign. intros h w1 HI1 Hh _. apply emits_then; [apply Hcall; [done|done|by apply Hwallet]|]. intros items w3 HI3. by apply emits_option.
  - by apply Hpost.
  - apply Hsign. intros h w1 HI1 Hh _. apply emits_then; [by apply emits_option|]. intros q w2 HI2. apply emits_then; [apply Hcall; [done|done|by apply Hwallet]|].
    intros items w3 HI3. by apply emits_option.
  - by apply Hdelete.
  - by apply Hdelete.
Qed.

(** A listing: at most two requests, see [retry_once]. *)
Lemma listing_emits s g after limit w r w' : let c := RFetchRows g after limit in cache_ok w → perform s c w = (r, w') →
  cache_ok w' ∧ ∃ l, sent w' = sent w ++ l
    ∧ Forall (λ rq, (∃ now, signing_time c w w' now ∧ mls_authentic s now c rq) ∨ cached_headers s c w rq) l.
Proof.
  intros c HI Hr. split.
  { assert (sends_at cache_ok (λ _, True) w (perform s c)) as Hs by (apply sends_at_bind; [apply sends_at_bind;
      [by apply sends_group|intros page; apply sends_bind; [apply sends_of_option|intros ms; apply sends_ret]]|intros; apply sends_ret]).
    by apply Hs in Hr as [? _]. }
  assert (∃ r1, requestWithGroupHeaderAuth env t page_of s g
    (messages_path t ((js "group_id", g) :: number_param "after_order" (Some after) ++ number_param "before_order" None ++ number_param "limit" (Some limit)))
    (js "GET") w = (r1, w')) as [r1 E].
  { revert Hr. cbn [perform c]. unfold discard, fetchRows, fetchMessages, mbind, eff_bind.
    match goal with |- context [requestWithGroupHeaderAuth ?a ?b ?x ?y ?z ?p ?m w] => destruct (requestWithGroupHeaderAuth a b x y z p m w) as [[page|e] w1] eqn:E end.
    - unfold of_option. destruct (mapM _ _); unfold mret, eff_ret, throw; intros [= _ <-]; by exists (Ok page).
    - intros [= _ <-]. by exists (Throw e). }
  pose proof (group_request_advances _ _ _ _ _ _ _ _ E) as [_ Hread].
  apply retry_once in E as [Es|[(h & Hh & Es)|(h & h' & w1 & e & Hh & Ea & _ & Hh' & Es)]].
  - exists []. rewrite app_nil_r. by split.
  - eexists. split; [exact Es|]. apply Forall_cons_2; [by eapply source_signed|by apply Forall_nil_2].
  - eexists. split; [exact Es|]. apply Forall_cons_2; [by eapply source_signed|]. apply Forall_cons_2; [|by apply Forall_nil_2]. left. exists (clock w1).
    split; [by eapply Hread|]. split; [done|]. by apply signs_group_header.
Qed.

(** C31.  Every request of the MLS delivery service is signed for what it asks: whatever
    the call and whatever happens during its awaits, each request it sends carries the
    caller's own signature over exactly the body sent (which names the caller's address
    and the second of the signature), or, with those headers stating them, over the
    time, the caller's address and the group asked for, over the time and the address, or
    (a DELETE) over the time, the address and the id deleted.  The time is the clock's when the
    call starts; for a posted row, when the row's signature is done; for a listing of
    rows, when it starts or, after a 401, during the call.  A listing may instead reuse
    headers found in the cache under the caller's address and the group, put there less
    than the cache's lifetime before: these were signed by a signer with that address and for that group,
    at the earlier time they state.  The cache is assumed to hold only headers signed for their key, and
    still does after the call. *)
Theorem mls_calls_authenticated s c w r w' : cache_ok w → perform s c w = (r, w') →
  cache_ok w' ∧ ∃ l, sent w' = sent w ++ l
    ∧ Forall (λ rq, (∃ now, signing_time c w w' now ∧ mls_authentic s now c rq) ∨ cached_headers s c w rq) l.
Proof.
  intros HI Hr. assert ((∃ g a l, c = RFetchRows g a l) ∨ ∀ g a l, c ≠ RFetchRows g a l) as [(g & a & l & ->)|Hno]
    by (destruct c; first [by left; eauto|by right]); [by eapply listing_emits|].
  destruct (perform_emits s c w HI Hno r w' Hr) as (HI' & l & El & Hl). split; [done|]. exists l. split; [done|].
  eapply Forall_impl; [exact Hl|]. intros rq Hrq. left. exists (fixed_time c w). split; [|done]. destruct c; try done. by destruct (Hno groupId afterOrder limit).
Qed.

(** ** What is taken from an answer *)

(** Between [w] and [w'] the relayer gave an answer of [P]. *)
Definition answered (P : Z → outcome jsstr json → Prop) (w w' : http) : Prop :=
  ∃ n st tx b, (turn w ≤ n < turn w')%nat ∧ st_reply (env n) = Response st tx b ∧ P st b.

Definition ok_with {A} (view : json → option A) (x : A) (st : Z) (b : outcome jsstr json) : Prop :=
  response_ok st = true ∧ ∃ v, b = Ok v ∧ view v = Some x.

Lemma mls_call_outcome {A} (view : json → option A) m path h body w r w' : mls_call env relayerUrl text_of view m path h body w = (r, w') →
  match r with
  | Ok x => answered (ok_with view x) w w'
  | Throw e => ∀ k, relayer_status e = Some k → answered (λ st _, st = k) w w'
  end.
Proof.
  rewrite mls_call_run. cbv zeta. set (rq := mls_request_of m path h body). set (w1 := after_await (env (turn w)) (add_sent rq w)).
  assert (turn w1 = S (turn w)) as T1 by (by destruct (after_await_spec (env (turn w)) (add_sent rq w)) as (_ & _ & _ & ? & _)).
  set (w2 := after_await (env (S (turn w))) w1).
  assert (turn w2 = S (S (turn w))) as T2 by (destruct (after_await_spec (env (S (turn w))) w1) as (_ & _ & _ & E & _); unfold w2; lia).
  destruct (st_reply (env (turn w))) as [name|st tx b] eqn:E; [by intros [= <- <-]|]. intros [= <- <-].
  destruct (response_ok st) eqn:Eok.
  - destruct b as [v|]; [|done]. destruct (view v) as [x|] eqn:Ev; [|done]. exists (turn w), st, tx, (Ok v). split; [lia|]. split; [done|]. split; [done|]. by exists v.
  - intros k [= <-]. exists (turn w), st, tx, b. split; [lia|done].
Qed.

Lemma answered_later P w w1 w' : (turn w ≤ turn w1)%nat → answered P w1 w' → answered P w w'.
Proof. intros Ht (n & st & tx & b & Hn & Hrest). exists n, st, tx, b. split; [lia|done]. Qed.

Lemma sign_turn {A} (auth : Z → outcome sign_error A) w r w1 : sign_with env auth w = (r, w1) → turn w1 = S (turn w)
  ∧ ∀ e, r = Throw e → relayer_status e = None.
Proof.
  unfold sign_with, mbind, eff_bind, get_state, await, mret, eff_ret, throw.
  assert (turn (after_await (env (turn w)) w) = S (turn w)) as T by (by destruct (after_await_spec (env (turn w)) w) as (_ & _ & _ & ? & _)).
  destruct (auth (clock w)); intros [= <- <-]; (split; [done|]); [done|by intros ? [= <-]].
Qed.

Lemma sendMessage_outcome s p w r w' : sendMessage env t s p w = (r, w') →
  match r with
  | Ok id => answered (ok_with (λ v, field as_str v "message_id") id) w w'
  | Throw e => relayer_status e = Some 409 → answered (λ st _, st = 409) w w'
  end.
Proof.
  unfold sendMessage, body_request. unfold mbind at 1, eff_bind at 1. destruct (sign_with env _ w) as [[bh|e] w1] eqn:Es; intros Hr.
  2: { injection Hr as <- <-. rewrite (proj2 (sign_turn _ _ _ _ Es) _ eq_refl). done. }
  destruct (sign_turn _ _ _ _ Es) as [T1 _]. destruct (disconnected w1) eqn:Ed.
  { unfold request, mbind, eff_bind, get_state, throw in Hr. rewrite Ed in Hr. by injection Hr as <- <-. }
  rewrite request_run in Hr by done. cbv zeta in Hr. set (rq := {| method := _ |}) in Hr. set (w2 := after_await (env (turn w1)) (add_sent rq w1)) in *.
  assert (turn w2 = S (turn w1)) as T2 by (by destruct (after_await_spec (env (turn w1)) (add_sent rq w1)) as (_ & _ & _ & ? & _)).
  set (w3 := after_await (env (S (turn w1))) w2) in *.
  assert (turn w3 = S (S (turn w1))) as T3 by (destruct (after_await_spec (env (S (turn w1))) w2) as (_ & _ & _ & E & _); unfold w3; lia).
  destruct (st_reply (env (turn w1))) as [name|st tx b] eqn:E.
  { injection Hr as <- <-. unfold fetch_error. by case_decide. }
  destruct (st_disconnect (env (turn w1))); [by injection Hr as <- <-|]. destruct (response_ok st) eqn:Eok.
  - injection Hr as <- <-. destruct b as [v|]; [|done]. destruct (st_disconnect _); [done|]. destruct (field as_str v "message_id") as [id|] eqn:Ev; [|done].
    exists (turn w1), st, tx, (Ok v). split; [lia|]. split; [done|]. split; [done|]. by exists v.
  - injection Hr as <- <-. intros Hs. exists (turn w1), st, tx, b. cbn [turn add_reported]. split; [lia|]. split; [done|].
    unfold plain_error, error_of_body in Hs. destruct b as [v|]; [|by injection Hs]. destruct (st_disconnect _); [by injection Hs|].
    destruct (is_null v); [by injection Hs|]. destruct (_ || _); [done|by injection Hs].
Qed.

Lemma on_status_inv {A} k (v : A) (m : call A) w r w' : on_status k v m w = (r, w') →
  (∃ a, m w = (Ok a, w') ∧ r = Ok a) ∨ ∃ e, m w = (Throw e, w') ∧ (relayer_status e = Some k ∧ r = Ok v ∨ relayer_status e ≠ Some k ∧ r = Throw e).
Proof.
  unfold on_status, try_catch. destruct (m w) as [[a|e] w1]; [intros [= <- <-]; left; by exists a|].
  intros Hr. right. case_bool_decide; injection Hr as <- <-; eauto 6.
Qed.

(** Values read at the type of an answer. *)
Definition conflict_or_ok (r : outcome transport_error bool) (ok : Z → outcome jsstr json → Prop) (w w' : http) : Prop :=
  match r with
  | Ok true => answered ok w w'
  | Ok false => answered (λ st _, st = 409) w w'
  | Throw e => relayer_status e ≠ Some 409
  end.

Definition info_or_none (r : outcome transport_error (option bytes)) (w w' : http) : Prop :=
  match r with
  | Ok (Some b) => ∃ i, fromHex i = Some b ∧ answered (ok_with (λ v, field as_str v "group_info") i) w w'
  | Ok None => answered (λ st _, st = 404) w w'
  | Throw e => relayer_status e ≠ Some 404
  end.

Lemma group_info_outcome path h w r w' : group_info env relayerUrl text_of path h w = (r, w') → info_or_none r w w'.
Proof.
  intros Hr. unfold group_info in Hr. apply on_status_inv in Hr as [(a & Hm & ->)|(e & Hm & Hs)].
  - apply bind_ok_inv in Hm as (i & w1 & Hc & Hm). apply bind_ok_inv in Hm as (b & w2 & Hb & Hm). apply mret_inv in Hm as [-> ->].
    apply mls_call_outcome in Hc. unfold hex_value, of_option in Hb. destruct (fromHex i) as [b'|] eqn:Ei; [|done]. apply mret_inv in Hb as [-> ->].
    by exists i.
  - destruct Hs as [[Hs ->]|[Hs ->]]; [|done]. apply bind_throw_inv in Hm as [Hc|(i & w1 & Hc & Hm)]; [by apply (mls_call_outcome _ _ _ _ _ _ _ _ Hc)|].
    apply bind_throw_inv in Hm as [Hb|(b & w2 & Hb & Hm)]; [|done]. unfold hex_value, of_option in Hb. destruct (fromHex i); [done|]. by injection Hb as <- _.
Qed.

(** C30.  The service says what the relayer answered.  A commit, of a group or of the
    self-group, is reported lost only when the relayer answered 409 during the call,
    and accepted only on a 2xx answer; a group info is reported absent only on a 404,
    and one that is returned is the bytes of such an answer; any other end of the call
    (the network, a timeout, another status) is thrown, never taken for these. *)
Theorem relayer_answers s g b w :
  (∀ r w', postControlRow env t random s g b w = (r, w') → conflict_or_ok r (λ st _, response_ok st = true) w w')
  ∧ (∀ r w', postSelfMessage env relayerUrl text_of s b w = (r, w') → conflict_or_ok r (λ st _, response_ok st = true) w w')
  ∧ (∀ r w', getGroupInfo env relayerUrl text_of s g w = (r, w') → info_or_none r w w')
  ∧ (∀ r w', getSelfGroupInfo env relayerUrl text_of s w = (r, w') → info_or_none r w w').
Proof.
  assert (∀ path (auth : Z → outcome sign_error headers) r w', (h ← sign_with env auth; group_info env relayerUrl text_of path h) w = (r, w') → info_or_none r w w') as Hinfo.
  { intros path auth r w' Hr. unfold mbind, eff_bind in Hr. destruct (sign_with env auth w) as [[h'|e] w1] eqn:Es.
    - destruct (sign_turn _ _ _ _ Es) as [T _]. apply group_info_outcome in Hr. unfold info_or_none in *.
      destruct r as [[b'|]|e]; [destruct Hr as (i & Ei & Ha); exists i; split; [done|]|..]; try done; by eapply answered_later; [|done]; lia.
    - injection Hr as <- <-. unfold info_or_none. by rewrite (proj2 (sign_turn _ _ _ _ Es) _ eq_refl). }
  split_and!.
  - intros r w' Hr. unfold postControlRow in Hr. unfold mbind at 1, eff_bind at 1 in Hr. destruct (signed_row env random s g k_commit b w) as [[p|e] w1] eqn:Es.
    + unfold signed_row, mbind, eff_bind, get_state, mret, eff_ret in Es. destruct (sign_with env _ w) as [[sig|] w1'] eqn:Esg; [|done]. injection Es as <- <-.
      destruct (sign_turn _ _ _ _ Esg) as [T _]. apply on_status_inv in Hr as [(a & Hm & ->)|(e & Hm & Hs)].
      * apply bind_ok_inv in Hm as (id & w2 & Hc & Hm). apply mret_inv in Hm as [-> ->]. apply sendMessage_outcome in Hc. cbn.
        destruct Hc as (n & st & tx & bo & Hn & Hrep & Hok & _). exists n, st, tx, bo. split; [lia|done].
      * destruct Hs as [[Hs ->]|[Hs ->]]; [|done]. apply bind_throw_inv in Hm as [Hc|(i & w2 & Hc & Hm)]; [|done].
        apply sendMessage_outcome in Hc. eapply answered_later; [|by apply Hc]. lia.
    + injection Hr as <- <-. unfold signed_row, mbind, eff_bind, get_state, mret, eff_ret in Es. destruct (sign_with env _ w) as [[sig|] w1'] eqn:Esg; [done|].
      injection Es as -> _. cbn. by rewrite (proj2 (sign_turn _ _ _ _ Esg) _ eq_refl).
  - intros r w' Hr. unfold postSelfMessage in Hr. apply on_status_inv in Hr as [(a & Hm & ->)|(e & Hm & Hs)].
    + apply bind_ok_inv in Hm as (u & w2 & Hc & Hm). apply mret_inv in Hm as [-> ->]. unfold signedPost in Hc. apply bind_ok_inv in Hc as (bh & w1 & Es & Hc).
      destruct (sign_turn _ _ _ _ Es) as [T _]. apply mls_call_outcome in Hc. cbn. destruct Hc as (n & st & tx & bo & Hn & Hrep & Hok & _). exists n, st, tx, bo. split; [lia|done].
    + destruct Hs as [[Hs ->]|[Hs ->]]; [|done]. apply bind_throw_inv in Hm as [Hc|(i & w2 & Hc & Hm)]; [|done].
      unfold signedPost in Hc. apply bind_throw_inv in Hc as [Es|(bh & w1 & Es & Hc)]; [by rewrite (proj2 (sign_turn _ _ _ _ Es) _ eq_refl) in Hs|].
      destruct (sign_turn _ _ _ _ Es) as [T _]. eapply answered_later; [|by apply (mls_call_outcome _ _ _ _ _ _ _ _ Hc)]. lia.
  - intros r w'. apply Hinfo.
  - intros r w'. apply Hinfo.
Qed.
End perform.

(** * Rows of the log verify when they are read back *)

Section rows.
Context `{JsonNumbers} `{JsText} `{HexCodecLaws} `{MySoCryptoLaws} `{Base64Codec}.
Context (env : nat → await_step) (t : transport) (random : nat → bytes).

Notation call := (HttpTransport.call).

(** The relayer gives the posted row [p] back, with the key of the signer. *)
Record given_back (s : Signer) (p : SendMessageParams) (raw : RelayerMessage) : Prop := {
  gb_group : toLowerCase (groupId raw) = toLowerCase (sp_groupId p);
  gb_text : encryptedText raw = sp_encryptedText p;
  gb_nonce : nonce raw = sp_nonce p;
  gb_version : keyVersion raw = sp_keyVersion p;
  gb_kind : Some (kind raw) = sp_kind p;
  gb_signatureVersion : signatureVersion raw = None ∨ signatureVersion raw = Some 1;
  gb_signature : Some (signature raw) = sp_messageSignature p ∧ signature raw ≠ [];
  gb_key : publicKey raw = toHex (toMySoBytes (signer_key s)) ∧ publicKey raw ≠ [];
}.

(** [rq] posts a row of kind [k] that carries [mls], and the row verifies for its
    signer, and for nobody else. *)
Definition posts_verified (s : Signer) (k : MessageKind) (mls : bytes) (rq : Request) : Prop :=
  ∃ p now, rq_body rq = Some (stringify (JObj (auth_body now s (send_payload p))))
    ∧ ∀ raw, given_back s p raw → kind raw = k ∧ encryptedText raw = mls
        ∧ verifyRawMessage raw = bool_decide (senderAddress raw = toMySoAddress s).

Lemma canonical_mls p k : Verification.signatureVersion p = None ∨ Verification.signatureVersion p = Some 1 →
  Verification.kind p = Some (kind_name k) → k = k_commit ∨ k = k_event →
  buildCanonicalMessage p = Ok (utf8_encode (JsString.join [58] [toLowerCase (Verification.groupId p); kind_name k;
    toHex (Verification.encryptedText p); toHex (Verification.nonce p); dec_Z (Verification.keyVersion p)])).
Proof.
  intros Hv Hk Hkind. assert (buildCanonicalMessage p = Ok (utf8_encode (canonical_v1 p))) as -> by (unfold buildCanonicalMessage; by destruct Hv as [-> | ->]).
  unfold canonical_v1. rewrite Hk. cbn [default from_option]. rewrite !decide_False; [done|by destruct Hkind as [-> | ->]..].
Qed.

Lemma mls_row_verified s g k mls nonce sig raw : keypair_signer s → k = k_commit ∨ k = k_event →
  signMessageContent s (mls_row_params g k mls nonce) = Ok sig → given_back s (mls_row g k mls nonce sig) raw →
  kind raw = k ∧ encryptedText raw = mls ∧ verifyRawMessage raw = bool_decide (senderAddress raw = toMySoAddress s).
Proof.
  intros Hkey Hk Hsig [G1 G2 G3 G4 G5 G6 [G7 G8] [G9 G10]]. cbn in G1, G2, G3, G4, G5, G7. injection G5 as Ek. injection G7 as Es. split; [done|]. split; [done|].
  set (v := default 1 (signatureVersion raw)). assert (v = 1) as Ev by (unfold v; by destruct G6 as [-> | ->]).
  unfold verifyRawMessage. fold v. rewrite Ev. cbn [negb Z.eqb orb Pos.eqb].
  assert (is_nil (signature raw) || is_nil (publicKey raw) = false) as -> by (by destruct (signature raw), (publicKey raw)).
  rewrite G9, Es. eapply signed_verifies; [done|exact Hsig| |by right; left].
  rewrite (canonical_mls (canonical_of_row raw 1) k) by (first [done|by right|cbn; by rewrite Ek]). rewrite (canonical_mls (mls_row_params g k mls nonce) k) by (first [done|by left]).
  cbn [canonical_of_row mls_row_params Verification.groupId Verification.encryptedText Verification.nonce Verification.keyVersion]. by rewrite G1, G2, G3, G4.
Qed.

End rows.

(** * Concrete runs *)

#[local] Existing Instances integer_numbers ascii_text plain_hex plain_hex_laws toy_crypto toy_crypto_laws plain_base64.

#[local] Definition toy_random (n : nat) : bytes := replicate 12 (Z.of_nat n).
#[local] Definition toy_text (b : outcome jsstr json) : jsstr := match b with Ok v => stringify v | Throw _ => [] end.

Lemma mls_calls_authenticated_witness : ∃ w' rq now,
  perform (scripted [no_reply; ok_json JNull; no_reply]) (js "https://relay/") sample_transport toy_random toy_text toy_signer (RDeleteDevice (js "d 1")) fresh_http = (Ok tt, w')
  ∧ sent w' = [rq] ∧ url rq = js "https://relay/v1/mls/devices/d%201" ∧ mls_authentic toy_signer now (RDeleteDevice (js "d 1")) rq.
Proof.
  destruct (perform (scripted [no_reply; ok_json JNull; no_reply]) (js "https://relay/") sample_transport toy_random toy_text toy_signer (RDeleteDevice (js "d 1")) fresh_http) as [r w'] eqn:E.
  destruct (mls_calls_authenticated _ _ _ _ _ toy_signer (RDeleteDevice (js "d 1")) fresh_http r w' ltac:(by intros k h at_) E) as (_ & l & El & Hl).
  vm_compute in E. injection E as <- <-. cbn [sent fresh_http app] in El. subst l. destruct (Forall_inv Hl) as [(now & _ & Ha)|(? & ? & ? & ? & ? & _)]; [|done].
  eexists _, _, now. split; [reflexivity|]. split; [reflexivity|]. split; [reflexivity|exact Ha].
Defined.

#[local] Notation toy_control replies := (postControlRow (scripted replies) sample_transport toy_random toy_signer (js "0xG") [1; 2]).
#[local] Notation conflict := (Response 409 (js "Conflict") (Ok (JObj []))).

(** A commit that lost the epoch, and one whose answer never came. *)
Lemma relayer_answers_witness : ∃ w1 w2,
  toy_control [no_reply; no_reply; conflict; no_reply] fresh_http = (Ok false, w1)
  ∧ answered (scripted [no_reply; no_reply; conflict; no_reply]) (λ st _, st = 409) fresh_http w1
  ∧ toy_control [no_reply; no_reply; no_reply] fresh_http = (Throw (Platform (js "TypeError")), w2).
Proof.
  destruct (toy_control [no_reply; no_reply; conflict; no_reply] fresh_http) as [r w1] eqn:E.
  pose proof (proj1 (relayer_answers (scripted [no_reply; no_reply; conflict; no_reply]) [] sample_transport toy_random toy_text toy_signer (js "0xG") [1; 2] fresh_http) r w1 E) as Ha.
  assert (r = Ok false) as -> by (vm_compute in E; by injection E as <- _).
  exists w1. eexists. split; [reflexivity|]. split; [exact Ha|]. vm_compute. reflexivity.
Defined.

