(* ===== verification/Recovery.v ===== *)
(** Archive recovery ([recovery/]): the rows the relayer's archive returns, their
    conversion, and the transport [RelayerArchiveRecoveryTransport] that fetches
    them; and what the client can read of a recovered row.

    The transport's awaits are where the world moves: [env n] is the clock after
    the [n]-th await and, when the await is [fetch], the network's answer.  Rows are
    read at the type [FileStorageMessageWire] declares ([IllTyped] is a value of
    another type, which the code would pass on unchecked and the model stops at). *)
From stdpp Require Import sorting.
From S2P Require Import Prelude JsString JsMap Utf8 Json Envelope Aad Encryption Attachments ClientMessage RoomHistory.
From S2P Require Import Verification Anchors AuthHeaders Wire HttpTransport HttpCalls HttpAuth.

(** [new Date(text).getTime()]; [None] is [NaN]. *)
Class DateParser := { getTime : jsstr → option Z }.

(** * Rows of the archive *)

Record FileStorageAttachmentWire := { fa_storage_id : jsstr; fa_nonce : bytes; fa_encrypted_metadata : bytes; fa_metadata_nonce : bytes }.

Record FileStorageMessageWire := {
  fs_id : jsstr; fs_group_id : jsstr; fs_order : option Z; fs_sender_wallet_addr : jsstr; fs_encrypted_msg : bytes; fs_nonce : bytes;
  fs_key_version : number; fs_created_at : jsstr; fs_updated_at : jsstr; fs_sync_status : jsstr; fs_quilt_patch_id : option jsstr;
  fs_attachments : list FileStorageAttachmentWire; fs_signature : option jsstr; fs_signature_version : option Z; fs_public_key : option jsstr;
  fs_principal_owner : option jsstr; fs_sub_agent_id : option jsstr; fs_identity_class : option Z;
}.

(** A [Vec<u8>] as JSON: an array of numbers below 256. *)
Definition as_byte (o : option json) : option Z :=
  match o with Some (JNum (Int z)) => if (0 <=? z) && (z <=? 255) then Some z else None | _ => None end.

Definition FileStorageAttachmentWire_of (o : option json) : option FileStorageAttachmentWire :=
  v ← o;
  s ← field as_str v "storage_id"; n ← field (as_list as_byte) v "nonce";
  e ← field (as_list as_byte) v "encrypted_metadata"; m ← field (as_list as_byte) v "metadata_nonce";
  Some {| fa_storage_id := s; fa_nonce := n; fa_encrypted_metadata := e; fa_metadata_nonce := m |}.

Definition FileStorageMessageWire_of (o : option json) : option FileStorageMessageWire :=
  v ← o;
  a1 ← field as_str v "id"; a2 ← field as_str v "group_id"; a3 ← field (optional as_int) v "order";
  a4 ← field as_str v "sender_wallet_addr"; a5 ← field (as_list as_byte) v "encrypted_msg"; a6 ← field (as_list as_byte) v "nonce";
  a7 ← field as_num v "key_version"; a8 ← field as_str v "created_at"; a9 ← field as_str v "updated_at";
  b1 ← field as_str v "sync_status"; b2 ← field (optional as_str) v "quilt_patch_id";
  b3 ← field (as_list FileStorageAttachmentWire_of) v "attachments"; b4 ← field (optional as_str) v "signature";
  b5 ← field (optional as_int) v "signature_version"; b6 ← field (optional as_str) v "public_key";
  b7 ← field (optional as_str) v "principal_owner"; b8 ← field (optional as_str) v "sub_agent_id";
  b9 ← field (optional as_int) v "identity_class";
  Some {| fs_id := a1; fs_group_id := a2; fs_order := a3; fs_sender_wallet_addr := a4; fs_encrypted_msg := a5; fs_nonce := a6;
          fs_key_version := a7; fs_created_at := a8; fs_updated_at := a9; fs_sync_status := b1; fs_quilt_patch_id := b2;
          fs_attachments := b3; fs_signature := b4; fs_signature_version := b5; fs_public_key := b6; fs_principal_owner := b7;
          fs_sub_agent_id := b8; fs_identity_class := b9 |}.

Record ArchiveMessagesResponse := { ar_messages : option (list FileStorageMessageWire); ar_hasNext : option bool }.

Definition ArchiveMessagesResponse_of (v : json) : option ArchiveMessagesResponse :=
  l ← field (optional (as_list FileStorageMessageWire_of)) v "messages";
  n ← field (optional as_bool) v "hasNext";
  Some {| ar_messages := l; ar_hasNext := n |}.

(** * Conversion *)

Inductive recovery_error :=
  | ArchiveFailed (name : jsstr)               (* what [fetch] or [json] throws *)
  | ArchiveTimeout (url : jsstr)               (* [HttpTimeoutError] *)
  | ArchiveStatus (status : Z) (text : jsstr)  (* [Relayer archive returned ...] *)
  | ArchiveSign (e : sign_error)
  | ArchiveURI                                 (* [encodeURIComponent] throws *)
  | KeyVersionNotIntegral                      (* [BigInt] throws *)
  | ArchiveIllTyped.

Definition deleted_status (s : jsstr) : bool := bool_decide (s = js "DELETE_PENDING") || bool_decide (s = js "DELETED").

Definition mapAttachment (wire : FileStorageAttachmentWire) : Attachment := {|
  storageId := fa_storage_id wire; att_nonce := hexOf (fa_nonce wire);
  encryptedMetadata := hexOf (fa_encrypted_metadata wire); metadataNonce := hexOf (fa_metadata_nonce wire) |}.

Section conversion.
Context `{DateParser}.

(** [Math.floor(new Date(text).getTime() / 1000)]; a text that is no date is not of the declared type. *)
Definition unix_seconds (text : jsstr) : outcome recovery_error Z :=
  match getTime text with Some ms => Ok (ms / 1000) | None => Throw ArchiveIllTyped end.

Definition fromFileStorageMessage (wire : FileStorageMessageWire) : outcome recovery_error RelayerMessage :=
  match unix_seconds (fs_created_at wire), unix_seconds (fs_updated_at wire), BigInt_of_number (fs_key_version wire) with
  | Ok createdAt, Ok updatedAt, Some version => Ok {|
      Wire.messageId := fs_id wire; Wire.groupId := fs_group_id wire; Wire.order := Int (default 0 (fs_order wire));
      Wire.encryptedText := fs_encrypted_msg wire; Wire.nonce := fs_nonce wire; Wire.keyVersion := version;
      Wire.senderAddress := fs_sender_wallet_addr wire; Wire.createdAt := createdAt; Wire.updatedAt := updatedAt;
      Wire.attachments := mapAttachment <$> fs_attachments wire;
      Wire.isEdited := negb (bool_decide (fs_created_at wire = fs_updated_at wire));
      Wire.isDeleted := deleted_status (fs_sync_status wire); Wire.syncStatus := fs_sync_status wire;
      Wire.quiltPatchId := fs_quilt_patch_id wire; Wire.signature := default [] (fs_signature wire);
      Wire.signatureVersion := fs_signature_version wire; Wire.publicKey := default [] (fs_public_key wire);
      Wire.principalOwner := fs_principal_owner wire; Wire.subAgentId := fs_sub_agent_id wire;
      Wire.identityClass := match fs_identity_class wire with
                            | Some c => if bool_decide (c ∈ [0; 1; 2]) then Some c else None
                            | None => None
                            end;
      Wire.isAgentMessage := bool_decide (is_Some (fs_principal_owner wire)) || bool_decide (is_Some (fs_sub_agent_id wire))
                             || bool_decide (is_Some (fs_identity_class wire));
      Wire.kind := k_text; Wire.system := None; Wire.paymentMetadata := None |}
  | Throw e, _, _ | Ok _, Throw e, _ => Throw e
  | Ok _, Ok _, None => Throw KeyVersionNotIntegral
  end.

(** [active.map(fromFileStorageMessage)] *)
Fixpoint convert_rows (l : list FileStorageMessageWire) : outcome recovery_error (list RelayerMessage) :=
  match l with
  | [] => Ok []
  | wire :: l' =>
      match fromFileStorageMessage wire with
      | Throw e => Throw e
      | Ok m => match convert_rows l' with Ok ms => Ok (m :: ms) | Throw e => Throw e end
      end
  end.
End conversion.

(** The order [(a, b) => a.order - b.order || a.createdAt - b.createdAt] keeps. *)
Definition order_of (m : RelayerMessage) : Z := match Wire.order m with Int z => z | _ => 0 end.
Definition row_le (a b : RelayerMessage) : Prop := order_of a < order_of b ∨ (order_of a = order_of b ∧ Wire.createdAt a ≤ Wire.createdAt b).
#[global] Instance row_le_dec a b : Decision (row_le a b).
Proof. unfold row_le. apply _. Defined.

(** * The transport *)

Record RelayerArchiveRecoveryConfig `{MySoCrypto} := {
  rc_relayerUrl : jsstr; rc_namespace : jsstr; rc_signer : Signer; rc_apiPrefix : option jsstr;
}.

Record RecoverMessagesParams := { rp_groupId : jsstr; rp_afterOrder : option number; rp_beforeOrder : option number; rp_limit : option number }.

Record archive_world := { aw_turn : nat; aw_clock : Z; aw_sent : list Request; aw_reported : list recovery_error }.

Section transport.
Context `{JsonNumbers} `{JsText} `{HexCodec} `{MySoCrypto} `{Base64Codec} `{DateParser}.
Context (env : nat → Z * reply) (text_of : outcome jsstr json → jsstr) (config : RelayerArchiveRecoveryConfig).

#[local] Notation call := (eff archive_world recovery_error).

Definition archive_await : call reply := λ w,
  (Ok (env (aw_turn w)).2,
   {| aw_turn := S (aw_turn w); aw_clock := (env (aw_turn w)).1; aw_sent := aw_sent w; aw_reported := aw_reported w |}).

Definition archive_send (rq : Request) : call unit :=
  modify (λ w, {| aw_turn := aw_turn w; aw_clock := aw_clock w; aw_sent := aw_sent w ++ [rq]; aw_reported := aw_reported w |}).

Definition archive_onError (e : recovery_error) : call unit :=
  modify (λ w, {| aw_turn := aw_turn w; aw_clock := aw_clock w; aw_sent := aw_sent w; aw_reported := aw_reported w ++ [e] |}).

(** [#request] *)
Definition archive_request (u : jsstr) (h : headers) : call ArchiveMessagesResponse :=
  try_catch
    (_ ← archive_send {| method := js "GET"; url := u; rq_headers := h; rq_body := None |};
     r ← archive_await;
     match r with
     | Failed name => throw (ArchiveFailed name)
     | Response status _ body =>
         _ ← archive_await;
         if response_ok status then
           match body with
           | Throw name => throw (ArchiveFailed name)
           | Ok v => match ArchiveMessagesResponse_of v with Some x => mret x | None => throw ArchiveIllTyped end
           end
         else throw (ArchiveStatus status (text_of body))
     end)
    (λ e, match e with
          | ArchiveFailed name =>
              let e' := if decide (name = js "TimeoutError") then ArchiveTimeout u else e in
              _ ← archive_onError e'; throw e'
          | ArchiveIllTyped => throw e    (* the code goes on *)
          | _ => _ ← archive_onError e; throw e
          end).

Definition number_param (name : string) (o : option number) : list (jsstr * jsstr) :=
  match o with Some n => [(js name, String_of_number n)] | None => [] end.

Definition recovery_query (p : RecoverMessagesParams) : jsstr :=
  search_params ([(js "namespace", rc_namespace config)] ++ number_param "limit" (rp_limit p)
                 ++ number_param "after_order" (rp_afterOrder p) ++ number_param "before_order" (rp_beforeOrder p)).

Definition recovery_url (p : RecoverMessagesParams) : option jsstr :=
  g ← encodeURIComponent (rp_groupId p);
  Some (strip_trailing 47 (rc_relayerUrl config) ++ strip_trailing 47 (default (js "/v1") (rc_apiPrefix config))
        ++ js "/archive/groups/" ++ g ++ js "/messages?" ++ recovery_query p).

(** The rows of a page that are not deleted. *)
Definition live_rows (l : list FileStorageMessageWire) : list FileStorageMessageWire :=
  filter (λ m, deleted_status (fs_sync_status m) = false) l.

Definition recoverMessages (p : RecoverMessagesParams) : call FetchMessagesResult :=
  u ← (match recovery_url p with Some u => mret u | None => throw ArchiveURI end);
  w ← get_state;
  _ ← archive_await;
  h ← (match createHeaderAuth (aw_clock w) (rc_signer config) (rp_groupId p) with Ok h => mret h | Throw e => throw (ArchiveSign e) end);
  response ← archive_request u h;
  ms ← (match convert_rows (live_rows (default [] (ar_messages response))) with Ok ms => mret ms | Throw e => throw e end);
  mret {| messages := merge_sort row_le ms; hasNext := default false (ar_hasNext response) |}.
End transport.

(** * What a page is *)

#[global] Instance row_le_total : Total row_le.
Proof. intros a b. unfold row_le. lia. Qed.
#[global] Instance row_le_trans : Transitive row_le.
Proof. intros a b c. unfold row_le. lia. Qed.

Section page.
Context `{JsonNumbers} `{JsText} `{HexCodec} `{MySoCrypto} `{Base64Codec} `{DateParser}.
Context (env : nat → Z * reply) (text_of : outcome jsstr json → jsstr) (config : RelayerArchiveRecoveryConfig).

(** What a request throws that it has reported. *)
Definition archive_error (u name : jsstr) : recovery_error :=
  if decide (name = js "TimeoutError") then ArchiveTimeout u else ArchiveFailed name.

Lemma archive_request_run u h w :
  let w1 := (archive_request env text_of u h w).2 in
  aw_sent w1 = aw_sent w ++ [{| method := js "GET"; url := u; rq_headers := h; rq_body := None |}]
  ∧ match (env (aw_turn w)).2 with
    | Failed name => (archive_request env text_of u h w).1 = Throw (archive_error u name) ∧ aw_reported w1 = aw_reported w ++ [archive_error u name]
    | Response status _ body =>
        if response_ok status then
          match body with
          | Throw name => (archive_request env text_of u h w).1 = Throw (archive_error u name) ∧ aw_reported w1 = aw_reported w ++ [archive_error u name]
          | Ok v => (archive_request env text_of u h w).1 = match ArchiveMessagesResponse_of v with Some x => Ok x | None => Throw ArchiveIllTyped end
                    ∧ aw_reported w1 = aw_reported w
          end
        else (archive_request env text_of u h w).1 = Throw (ArchiveStatus status (text_of body))
             ∧ aw_reported w1 = aw_reported w ++ [ArchiveStatus status (text_of body)]
    end.
Proof.
  cbv zeta. unfold archive_request, try_catch, archive_send, archive_await, archive_onError, archive_error, mbind, eff_bind, modify, throw, mret, eff_ret.
  cbv beta iota. cbn [aw_turn aw_clock aw_sent aw_reported].
  destruct (env (aw_turn w)).2 as [name|status text body]; [by split; case_decide|].
  destruct (response_ok status); [|done]. destruct body as [v|name]; [|by split; case_decide].
  by destruct (ArchiveMessagesResponse_of v).
Qed.

Lemma convert_rows_each l ms : convert_rows l = Ok ms → Forall2 (λ wire m, fromFileStorageMessage wire = Ok m) l ms.
Proof.
  revert ms. induction l as [|wire l IH]; intros ms; cbn [convert_rows]; [by intros [= <-]|].
  destruct (fromFileStorageMessage wire) as [m|e] eqn:E; [|done]. destruct (convert_rows l) as [ms'|e]; [|done].
  intros [= <-]. constructor; auto.
Qed.

Lemma converted_row wire m : fromFileStorageMessage wire = Ok m →
  Wire.isDeleted m = deleted_status (fs_sync_status wire) ∧ Wire.kind m = k_text ∧ Wire.messageId m = fs_id wire
  ∧ Wire.encryptedText m = fs_encrypted_msg wire ∧ Wire.nonce m = fs_nonce wire ∧ Int (Wire.keyVersion m) = fs_key_version wire.
Proof.
  unfold fromFileStorageMessage, BigInt_of_number.
  destruct (unix_seconds (fs_created_at wire)), (unix_seconds (fs_updated_at wire)), (fs_key_version wire); try done. by intros [= <-].
Qed.

(** A page of the archive.  A recovery signs the group's request headers at the
    current time and sends one GET for the page asked for.  The call succeeds exactly
    when the answer is a 2xx page whose live rows all convert, and then returns those
    rows and no others, none deleted, each with the id, ciphertext, nonce and key
    version archived for it, sorted by order and then by creation time; nothing is
    reported.  A failed fetch, an unreadable body and a non-2xx answer are each thrown
    and given to [onError] once, a timeout as an [HttpTimeoutError]; without a valid
    address or a signature nothing is sent. *)
Lemma archive_page p w r w' : recoverMessages env text_of config p w = (r, w') →
  let failed e := r = Throw e ∧ aw_reported w' = aw_reported w ++ [e] in
  match recovery_url config p, createHeaderAuth (aw_clock w) (rc_signer config) (rp_groupId p) with
  | None, _ => r = Throw ArchiveURI ∧ w' = w
  | Some _, Throw e => r = Throw (ArchiveSign e) ∧ aw_sent w' = aw_sent w ∧ aw_reported w' = aw_reported w
  | Some u, Ok h =>
      aw_sent w' = aw_sent w ++ [{| method := js "GET"; url := u; rq_headers := h; rq_body := None |}]
      ∧ match (env (S (aw_turn w))).2 with
        | Failed name => failed (archive_error u name)
        | Response status _ body =>
            if negb (response_ok status) then failed (ArchiveStatus status (text_of body)) else
            match body with
            | Throw name => failed (archive_error u name)
            | Ok v => aw_reported w' = aw_reported w ∧
                match ArchiveMessagesResponse_of v with
                | None => r = Throw ArchiveIllTyped
                | Some response =>
                    let live := live_rows (default [] (ar_messages response)) in
                    match convert_rows live with
                    | Throw e => r = Throw e
                    | Ok rows => ∃ page, r = Ok page ∧ messages page ≡ₚ rows ∧ StronglySorted row_le (messages page)
                        ∧ Forall2 (λ wire m, Wire.isDeleted m = false ∧ Wire.messageId m = fs_id wire
                            ∧ Wire.encryptedText m = fs_encrypted_msg wire ∧ Wire.nonce m = fs_nonce wire
                            ∧ Int (Wire.keyVersion m) = fs_key_version wire) live rows
                        ∧ hasNext page = default false (ar_hasNext response)
                    end
                end
            end
        end
  end.
Proof.
  intros Hr failed. unfold recoverMessages in Hr.
  destruct (recovery_url config p) as [u|]; [|by injection Hr as <- <-].
  unfold mbind at 1, eff_bind at 1, get_state, archive_await, mret at 1, eff_ret at 1 in Hr.
  unfold mbind at 1, eff_bind at 1 in Hr. cbv beta iota in Hr. unfold mbind at 1, eff_bind at 1 in Hr. cbv beta iota in Hr.
  unfold mbind at 1, eff_bind at 1 in Hr.
  destruct (createHeaderAuth _ _ _) as [h|e]; [|by injection Hr as <- <-]. cbn [mret eff_ret] in Hr.
  set (w0 := {| aw_turn := S (aw_turn w) |}) in Hr. destruct (archive_request_run u h w0) as [Es Ea].
  unfold mbind at 1, eff_bind at 1 in Hr. destruct (archive_request env text_of u h w0) as [a w1] eqn:Eq. cbn [fst snd] in Es, Ea.
  change (aw_turn w0) with (S (aw_turn w)) in Ea. change (aw_sent w0) with (aw_sent w) in Es. change (aw_reported w0) with (aw_reported w) in Ea.
  assert (w' = w1) as ->.
  { destruct a; [|by injection Hr]. unfold mbind, eff_bind in Hr. destruct (convert_rows _); by injection Hr. }
  split; [done|].
  destruct (env (S (aw_turn w))).2 as [name|st tx body]; [destruct Ea as [-> ?]; injection Hr as <-; by split|].
  destruct (response_ok st); cbn [negb]; [|destruct Ea as [-> ?]; injection Hr as <-; by split].
  destruct body as [v|name]; [|destruct Ea as [-> ?]; injection Hr as <-; by split].
  destruct Ea as [-> ?]. split; [done|]. destruct (ArchiveMessagesResponse_of v) as [response|]; [|by injection Hr].
  cbv zeta. unfold mbind, eff_bind in Hr. destruct (convert_rows _) as [rows|e] eqn:Ec; [|by injection Hr].
  injection Hr as <-. eexists. split; [done|]. cbn [messages hasNext]. split; [apply merge_sort_Permutation|].
  split; [apply StronglySorted_merge_sort; apply _|]. split; [|done].
  apply convert_rows_each in Ec. apply Forall2_same_length_lookup_2; [by eapply Forall2_length|].
  intros i wire m Hi Hm. pose proof (Forall2_lookup_lr _ _ _ _ _ _ Ec Hi Hm) as Hc. destruct (converted_row _ _ Hc) as (-> & _ & ? & ? & ? & ?).
  split_and!; try done. apply list_elem_of_lookup_2 in Hi. unfold live_rows in Hi. by apply list_elem_of_filter in Hi as [? _].
Qed.
End page.

(** * What the client reads of a recovered row *)

Section recovered.
Context `{JsonNumbers} `{JsText} `{Verification.HexCodec} `{MySoCrypto} `{EncryptionLib} `{MySoBcs} `{!DekCache} `{DateParser} {Ctx : Type}.
Context (packageConfig : PackageConfig) (policy : MyDataPolicy Ctx) (env : crypto_env) (attachmentsConfig : option AttachmentsConfig).

Lemma relayer_kind_not_text e : kind_name k_text ≠ relayerKindForEnvelope e.
Proof. destruct e as [[]|]; vm_compute; discriminate. Qed.

(** A recovered row whose plaintext is a content envelope is read as an empty text
    message: the archive's row kind is replaced by [text], which is the kind of no
    envelope, so the text, the attachments, the payment and the event are all lost,
    whoever signed the row. *)
Lemma recovered_envelope_blank wire raw g h ctx verified resolving s m s' plaintext c envelope a :
  fromFileStorageMessage wire = Ok raw →
  decryptMessage packageConfig policy env attachmentsConfig raw g h ctx verified resolving s = (Ok m, s') →
  deleted_status (fs_sync_status wire) = false →
  buildMessageAad {| aad_groupId := g; aad_keyVersion := keyVersion raw; aad_senderAddress := senderAddress raw |} = Some a →
  group_decrypt packageConfig policy env g h
    {| Encryption.ciphertext := encryptedText raw; Encryption.nonce := nonce raw; Encryption.keyVersion := keyVersion raw; Encryption.aad := Some a |}
    ctx s = (Ok plaintext, c) →
  decodeContentEnvelope plaintext = Some envelope →
  m_text m = [] ∧ m_kind m = k_text ∧ m_attachments m = [] ∧ m_payment m = None ∧ m_event m = None ∧ m_envelopeAttachments m = None.
Proof.
  intros Hw Hd Hl Ha Hg He. destruct (converted_row _ _ Hw) as (Hdel & Hk & _). rewrite Hl in Hdel.
  unfold decryptMessage in Hd. destruct (negb _ || negb _) in Hd; [done|]. revert Hd.
  case_decide; [congruence|]. rewrite Hdel. intros (x & s1 & Ex & Hd)%bind_ok_inv. rewrite Ha in Ex. injection Ex as -> ->.
  apply bind_ok_inv in Hd as (y & s2 & Ey & Hd). unfold crypt in Ey. rewrite Hg in Ey. injection Ey as -> ->.
  cbv zeta in Hd. rewrite He in Hd. unfold fromEnvelope in Hd. rewrite Hk in Hd.
  rewrite bool_decide_false in Hd by apply relayer_kind_not_text. by injection Hd as <- _.
Qed.
End recovered.

(** * Witness *)

Definition plain_dates : DateParser := {| getTime s := Some (1000 * Z.of_nat (length s)) |}.

Definition archived (id : string) (o : Z) (status : string) : json := JObj
  [(js "id", JStr (js id)); (js "group_id", JStr (js "0xg")); (js "order", JNum (Int o)); (js "sender_wallet_addr", JStr (js "0xa"));
   (js "encrypted_msg", JArr [JNum (Int 7)]); (js "nonce", JArr [JNum (Int 1)]); (js "key_version", JNum (Int 0));
   (js "created_at", JStr (js "2026")); (js "updated_at", JStr (js "2026")); (js "sync_status", JStr (js status));
   (js "attachments", JArr [])].

Definition archive_answer : json := JObj
  [(js "groupId", JStr (js "0xg")); (js "hasNext", JBool true);
   (js "messages", JArr [archived "b" 2 "SYNCED"; archived "x" 3 "DELETED"; archived "a" 1 "UPDATED"])].

Definition fresh_archive : archive_world := {| aw_turn := 0; aw_clock := 5000; aw_sent := []; aw_reported := [] |}.

Definition sample_recovery (answer : reply) :=
  @recoverMessages integer_numbers ascii_text plain_hex toy_crypto plain_base64 plain_dates (λ _, (6000, answer)) (λ _, [])
    {| rc_relayerUrl := js "https://r/"; rc_namespace := js "ns"; rc_signer := toy_signer; rc_apiPrefix := None |}
    {| rp_groupId := js "0xg"; rp_afterOrder := None; rp_beforeOrder := Some (Int 9); rp_limit := Some (Int 50) |} fresh_archive.

Definition recovered_ids (r : outcome recovery_error FetchMessagesResult) : list jsstr :=
  match r with Ok page => Wire.messageId <$> messages page | Throw _ => [] end.

(** A page with two live rows, and a timeout. *)
Lemma archive_page_witness :
  recovered_ids (sample_recovery (Response 200 [] (Ok archive_answer))).1 = [js "a"; js "b"]
  ∧ (url <$> aw_sent (sample_recovery (Response 200 [] (Ok archive_answer))).2
     = [js "https://r/v1/archive/groups/0xg/messages?namespace=ns&limit=50&before_order=9"])
  ∧ length (aw_reported (sample_recovery (Failed (js "TimeoutError"))).2) = 1%nat.
Proof.
  split; [vm_compute; reflexivity|]. split; [vm_compute; reflexivity|].
  destruct (sample_recovery (Failed (js "TimeoutError"))) as [r w'] eqn:E.
  unfold sample_recovery in E. pose proof (@archive_page integer_numbers ascii_text plain_hex toy_crypto plain_base64 plain_dates _ _ _ _ _ _ _ E) as Hp. cbv zeta in Hp.
  destruct (recovery_url _ _) as [u|] eqn:Eu; [|vm_compute in Eu; discriminate].
  destruct (createHeaderAuth _ _ _) as [h|e] eqn:Eh; [|vm_compute in Eh; discriminate].
  destruct Hp as (_ & _ & Hr). change (aw_reported (r, w').2) with (aw_reported w'). by rewrite Hr.
Defined.
