(* ===== verification/Contracts.v ===== *)
(** Calls of the Move package ([contracts/utils/index.ts],
    [contracts/messaging/messaging.ts], [contracts/messaging/paid_messaging_policy.ts]):
    a call's arguments, how [normalizeMoveArguments] turns the options' values into
    them, and one definition per binding the SDK uses.

    A type of [argumentsTypes] is written as the tag its text denotes (parsing it is
    the library's), with addresses as numbers; [null] is [None].  BCS serialisation of
    pure values is the library's too (class [PureBcs]). *)
From S2P Require Import Prelude JsString JsMap Utf8.

(** * Values and arguments *)

(** A [TransactionArgument]: the gas coin, or what an earlier command returned. *)
Inductive TransactionArgument := GasCoin | Result (command : nat) | NestedResult (command result : nat).

#[global] Instance TransactionArgument_eq_dec : EqDecision TransactionArgument.
Proof. solve_decision. Defined.

(** The values options hold. *)
Inductive js_arg :=
  | AString (s : jsstr) | ANumber (n : Z) | ABool (b : bool) | ANull | AUndefined
  | ANumbers (l : list Z) | AStrings (l : list jsstr) | AArgument (a : TransactionArgument).

(** An argument of a call: [tx.object.clock()] and its like, [tx.pure(bytes)],
    [tx.object(id)], or an argument passed through. *)
Inductive call_argument :=
  | Clock | Random | DenyList | SystemState
  | Pure (b : bytes) | ObjectId (id : jsstr) | Passed (a : TransactionArgument).

(** [options.arguments]: an array, or an object with its own keys in order. *)
Inductive move_args := ArrayArgs (l : list js_arg) | ObjectArgs (l : list (jsstr * js_arg)).

(** * Types *)

Inductive TypeTag :=
  | TU8 | TU16 | TU32 | TU64 | TU128 | TU256 | TAddress | TBool
  | TVector (t : TypeTag)
  | TStruct (address : Z) (module name : string) (typeParams : list TypeTag).

Inductive BcsType := U8 | U16 | U32 | U64 | U128 | U256 | Address | Bool | BString | BVector (t : BcsType) | BOption (t : BcsType).

Fixpoint getPureBcsSchema (tag : TypeTag) : option BcsType :=
  match tag with
  | TU8 => Some U8 | TU16 => Some U16 | TU32 => Some U32 | TU64 => Some U64 | TU128 => Some U128 | TU256 => Some U256
  | TAddress => Some Address | TBool => Some Bool
  | TVector t => BVector <$> getPureBcsSchema t
  | TStruct 1 module name params =>
      if (bool_decide (module = "ascii"%string) || bool_decide (module = "string"%string)) && bool_decide (name = "String"%string)
      then Some BString
      else if bool_decide (module = "option"%string) && bool_decide (name = "Option"%string)
      then match params with t :: _ => BOption <$> getPureBcsSchema t | [] => None end
      else None
  | TStruct 2 module name _ =>
      if bool_decide (module = "object"%string) && (bool_decide (name = "ID"%string) || bool_decide (name = "UID"%string))
      then Some Address else None
  | TStruct _ _ _ _ => None
  end.

(** [bcsType.serialize(value)]; [None] throws. *)
Class PureBcs := { serialize : BcsType → js_arg → option bytes }.

Inductive bind_error :=
  | InvalidArgumentCount | ArgumentMissing | ExpectedArray | ParameterRequired (name : option jsstr) | InvalidArgument (a : js_arg) | SerializeFailed.

(** The object types a call's argument is supplied for. *)
Definition supplied (t : TypeTag) : option call_argument :=
  match t with
  | TStruct 2 "clock" "Clock" [] => Some Clock
  | TStruct 2 "random" "Random" [] => Some Random
  | TStruct 2 "deny_list" "DenyList" [] => Some DenyList
  | TStruct 3 "myso_system" "MySoSystemState" [] => Some SystemState
  | _ => None
  end.

(** * [normalizeMoveArguments] *)

Section normalize.
Context `{PureBcs}.

(** The value of the parameter [index]. *)
Definition argument_at (args : move_args) (parameterNames : option (list jsstr)) (index : nat) : outcome bind_error js_arg :=
  match args with
  | ArrayArgs l => match l !! index with Some a => Ok a | None => Throw ArgumentMissing end
  | ObjectArgs l =>
      match parameterNames with
      | None => Throw ExpectedArray
      | Some names =>
          match names !! index with
          | None => Throw (ParameterRequired None)
          | Some name =>
              match map_get name l with
              | None | Some AUndefined => Throw (ParameterRequired (Some name))
              | Some a => Ok a
              end
          end
      end
  end.

(** One value at its type. *)
Definition normalize_one (arg : js_arg) (type : option TypeTag) : outcome bind_error call_argument :=
  match arg with
  | AArgument a => Ok (Passed a)
  | _ =>
      match type ≫= getPureBcsSchema with
      | Some t => match serialize t arg with Some b => Ok (Pure b) | None => Throw SerializeFailed end
      | None => match arg with AString id => Ok (ObjectId id) | _ => Throw (InvalidArgument arg) end
      end
  end.

(** The loop over [argTypes]; [index] counts the values taken. *)
Fixpoint normalize_loop (args : move_args) (parameterNames : option (list jsstr)) (argTypes : list (option TypeTag)) (index : nat)
    : outcome bind_error (list call_argument) :=
  match argTypes with
  | [] => Ok []
  | argType :: argTypes' =>
      match argType ≫= supplied with
      | Some a =>
          match normalize_loop args parameterNames argTypes' index with Ok l => Ok (a :: l) | Throw e => Throw e end
      | None =>
          match argument_at args parameterNames index with
          | Throw e => Throw e
          | Ok arg =>
              match normalize_one arg argType with
              | Throw e => Throw e
              | Ok a => match normalize_loop args parameterNames argTypes' (S index) with Ok l => Ok (a :: l) | Throw e => Throw e end
              end
          end
      end
  end.

Definition args_length (args : move_args) : nat := match args with ArrayArgs l => length l | ObjectArgs l => length l end.

Definition normalizeMoveArguments (args : move_args) (argTypes : list (option TypeTag)) (parameterNames : option (list jsstr))
    : outcome bind_error (list call_argument) :=
  match parameterNames with
  | Some names =>
      if decide (args_length args = length names) then normalize_loop args parameterNames argTypes 0 else Throw InvalidArgumentCount
  | None => normalize_loop args None argTypes 0
  end.
End normalize.

(** * Commands of a transaction *)

Inductive Command :=
  | MoveCall (package : jsstr) (module function : jsstr) (typeArguments : list jsstr) (arguments : list call_argument)
  | MakeMoveVec (type : jsstr) (elements : list call_argument)
  | SplitCoins (coin : TransactionArgument) (amounts : list Z).

(** * Bindings *)

#[local] Notation TString := (Some (TStruct 1 "string" "String" [])).
#[local] Notation TClock := (Some (TStruct 2 "clock" "Clock" [])).
#[local] Notation TBytes := (Some (TVector TU8)).
#[local] Notation TAddresses := (Some (TVector TAddress)).
#[local] Notation obj := (None : option TypeTag).

Section bindings.
Context `{PureBcs}.

(** What a binding gives [tx.moveCall]. *)
Definition bound (package : option jsstr) (module function : string) (argumentsTypes : list (option TypeTag)) (parameterNames : list string)
    (arguments : move_args) : outcome bind_error Command :=
  match normalizeMoveArguments arguments argumentsTypes (Some (js <$> parameterNames)) with
  | Ok l => Ok (MoveCall (default (js "@local-pkg/messaging") package) (js module) (js function) [] l)
  | Throw e => Throw e
  end.

Definition createGroup package := bound package "messaging" "create_group"
  [obj; obj; obj; obj; obj; TString; TString; TBytes; obj]
  ["version"; "namespace"; "groupManager"; "blockList"; "creatorMemoryAccount"; "name"; "uuid"; "initialEncryptedDek"; "initialMembers"]%string.

Definition createAndShareGroup package := bound package "messaging" "create_and_share_group"
  [obj; obj; obj; obj; obj; TString; TString; TBytes; TAddresses]
  ["version"; "namespace"; "groupManager"; "blockList"; "creatorMemoryAccount"; "name"; "uuid"; "initialEncryptedDek"; "initialMembers"]%string.

Definition createWalletGroup package := bound package "messaging" "create_wallet_group"
  [obj; obj; obj; obj; TString; TString; TBytes; obj]
  ["version"; "namespace"; "groupManager"; "blockList"; "name"; "uuid"; "initialEncryptedDek"; "initialMembers"]%string.

Definition createAndShareWalletGroup package := bound package "messaging" "create_and_share_wallet_group"
  [obj; obj; obj; obj; TString; TString; TBytes; TAddresses]
  ["version"; "namespace"; "groupManager"; "blockList"; "name"; "uuid"; "initialEncryptedDek"; "initialMembers"]%string.

#[local] Notation agent_types members tail :=
  ([obj; obj; obj; obj; obj; obj; obj; obj; obj; TString; TString; TBytes; members;
    Some (TStruct 1 "option" "Option" [TU8]); Some (TStruct 1 "option" "Option" [TStruct 2 "object" "ID" []])] ++ tail).
#[local] Notation agent_names tail :=
  (["version"; "namespace"; "groupManager"; "groupLeaver"; "blockList"; "platform"; "memoryConfig"; "creatorMemoryAccount";
    "crossPrincipalPeerAccount"; "name"; "uuid"; "initialEncryptedDek"; "initialMembers"; "roomKind"; "roomTaskId"]%string ++ tail).

Definition createAgentGroup package := bound package "messaging" "create_agent_group" (agent_types obj [TClock]) (agent_names []).

Definition createAgentGroupWithE2ee package := bound package "messaging" "create_agent_group_with_e2ee"
  (agent_types obj [TString; TClock]) (agent_names ["e2ee"%string]).

Definition createAgentAndShareGroup package := bound package "messaging" "create_agent_and_share_group"
  (agent_types TAddresses [TClock]) (agent_names []).

Definition rotateEncryptionKey package := bound package "messaging" "rotate_encryption_key"
  [obj; obj; obj; TBytes] ["version"; "encryptionHistory"; "group"; "newEncryptedDek"]%string.

Definition leave package := bound package "messaging" "leave" [obj; obj] ["groupLeaver"; "group"]%string.

Definition archiveGroup package := bound package "messaging" "archive_group" [obj; obj] ["version"; "group"]%string.

Definition setGroupHandle package := bound package "messaging" "set_group_handle"
  [obj; obj; obj; TString] ["version"; "registry"; "group"; "handle"]%string.

Definition clearGroupHandle package := bound package "messaging" "clear_group_handle"
  [obj; obj; obj] ["version"; "registry"; "group"]%string.

Definition setGroupName package := bound package "messaging" "set_group_name"
  [obj; obj; TString] ["groupManager"; "group"; "name"]%string.

Definition insertGroupData package := bound package "messaging" "insert_group_data"
  [obj; obj; TString; TString] ["groupManager"; "group"; "key"; "value"]%string.

Definition removeGroupData package := bound package "messaging" "remove_group_data"
  [obj; obj; TString] ["groupManager"; "group"; "key"]%string.

Definition sendPaidMessageDigest package := bound package "messaging" "send_paid_message_digest"
  [obj; obj; obj; obj; obj; obj; obj; obj; Some TAddress; obj; Some TU64; TBytes; Some TU128; TClock]
  ["version"; "config"; "group"; "log"; "paidRegistry"; "socialGraph"; "blockList"; "groupManager"; "recipient"; "payment";
   "escrowAmount"; "dedupeKey"; "nonce"]%string.

Definition sendAgentPaidMessageDigest package := bound package "messaging" "send_agent_paid_message_digest"
  [obj; obj; obj; obj; obj; obj; obj; obj; obj; obj; obj; Some TAddress; obj; Some TU64; TBytes; Some TU128; TClock]
  ["version"; "config"; "group"; "log"; "paidRegistry"; "socialGraph"; "blockList"; "groupManager"; "platform"; "memoryConfig";
   "memoryAccount"; "recipient"; "payment"; "escrowAmount"; "dedupeKey"; "nonce"]%string.

Definition replyToPaidMessageClaimCoin package := bound package "messaging" "reply_to_paid_message_claim_coin"
  [obj; obj; obj; obj; obj; Some TU64; Some TU32; TBytes; Some TU128; TClock]
  ["version"; "config"; "group"; "log"; "blockList"; "paidMsgSeq"; "charCount"; "dedupeKey"; "nonce"]%string.

Definition replyToPaidMessageClaimSettled package := bound package "messaging" "reply_to_paid_message_claim_settled"
  [obj; obj; obj; obj; obj; Some TU64; Some TU32; TBytes; Some TU128; TClock; Some TAddress; obj]
  ["version"; "config"; "group"; "log"; "blockList"; "paidMsgSeq"; "charCount"; "dedupeKey"; "nonce"; "platformFeeRecipient";
   "ecosystemTreasury"]%string.

Definition replyToPaidMessageClaimSettledWithPlatform package := bound package "messaging" "reply_to_paid_message_claim_settled_with_platform"
  [obj; obj; obj; obj; obj; Some TU64; Some TU32; TBytes; Some TU128; TClock; obj; obj]
  ["version"; "config"; "group"; "log"; "blockList"; "paidMsgSeq"; "charCount"; "dedupeKey"; "nonce"; "platform"; "ecosystemTreasury"]%string.

Definition refundPaidEscrow package := bound package "messaging" "refund_paid_escrow"
  [obj; obj; obj; obj; obj; Some TU64; TClock] ["version"; "config"; "group"; "log"; "blockList"; "paidMsgSeq"]%string.

Definition setPaidMessagingPolicy package := bound package "paid_messaging_policy" "set_paid_messaging_policy"
  [obj; Some TBool; Some (TStruct 1 "option" "Option" [TU64])] ["registry"; "enabled"; "minCost"]%string.
End bindings.
