(* ===== verification/GroupCalls.v ===== *)
(** Transactions of the messaging groups ([call.ts], [transactions.ts], and the
    singleton ids of [derive.ts]): the commands each builder puts in a transaction.

    A transaction is the list of the commands asked of it so far; what a command
    returns is named by its position, as the SDK's [Transaction] names it.  A thunk
    given to [tx.add] runs where it is added (the library puts the commands of an
    asynchronous one in its place when it builds the transaction).  [env n] is what the
    [n]-th await meets: random values, the chain, the session key, the account lookup. *)
From S2P Require Import Prelude JsString JsMap Utf8 GroupName Aad Encryption Contracts.

(** * Options and configuration *)

Record StackConfig := {
  pk_originalPackageId : jsstr; pk_latestPackageId : jsstr; pk_namespaceId : jsstr; pk_versionId : jsstr;
  pk_blockListRegistryId : jsstr; pk_socialGraphId : jsstr; pk_memoryRegistryId : jsstr; pk_memoryConfigId : jsstr;
  pk_messagingConfigId : jsstr; pk_ecosystemTreasuryId : jsstr;
}.

Record CreateGroupCallOptions := {
  cg_uuid : option jsstr; cg_creatorMemoryAccountId : option jsstr; cg_name : jsstr; cg_encryptName : bool;
  cg_groupData : list (jsstr * jsstr);     (* [Object.entries(groupData ?? {})] *)
  cg_initialMembers : list jsstr;          (* [initialMembers ?? []] *)
}.

Record AgentRoomOptions := { room_kind : Z; room_taskId : option jsstr }.

Record CreateAgentGroupCallOptions := {
  ag_common : CreateGroupCallOptions; ag_e2ee : option jsstr; ag_platformId : jsstr; ag_creatorMemoryAccountId : jsstr;
  ag_crossPrincipalPeerMemoryAccountId : jsstr; ag_room : option AgentRoomOptions;
}.

(** A [string | TransactionArgument]. *)
Inductive object_ref := ById (id : jsstr) | ByResult (a : TransactionArgument).
Definition object_arg (r : object_ref) : js_arg := match r with ById id => AString id | ByResult a => AArgument a end.

Record ShareGroupCallOptions := { sh_group : TransactionArgument; sh_encryptionHistory : TransactionArgument; sh_messageLog : TransactionArgument }.

(** [GroupAndMessageLogArgs]: results of the same transaction, or a reference to shared objects. *)
Record GroupAndMessageLogRef := { gl_ref : GroupRef; gl_messageLogId : option jsstr }.
Inductive GroupAndMessageLogArgs := InTransaction (group messageLog : TransactionArgument) | Shared (ref : GroupAndMessageLogRef).

Record PaidDigestOptions := {
  pd_group : GroupAndMessageLogArgs; pd_recipient : jsstr; pd_payment : object_ref; pd_escrowAmount : Z; pd_dedupeKey : list Z; pd_nonce : Z;
}.

Record ClaimOptions := { cm_group : GroupAndMessageLogRef; cm_paidMsgSeq : Z; cm_charCount : Z; cm_dedupeKey : list Z; cm_nonce : Z }.

Inductive call_error `{EncryptionLib} :=
  | CallCrypto (e : enc_error)
  | CallBinding (e : bind_error)
  | GroupNameTooLong
  | MemoryLookupFailed
  | GroupRefUndefined                   (* an empty uuid: the code goes on with [undefined] ids *)
  | MessageLogIdRequired
  | SenderRequired.

(** A non-empty string ([if (value)]). *)
Definition truthy_str (o : option jsstr) : option jsstr := match o with Some [] | None => None | Some s => Some s end.

Definition GROUP_LEAVER_DERIVATION_KEY : jsstr := js "group_leaver".
Definition GROUP_MANAGER_DERIVATION_KEY : jsstr := js "group_manager".
Definition GROUP_HANDLE_REGISTRY_DERIVATION_KEY : jsstr := js "group_handle_registry".
Definition PAID_MESSAGING_REGISTRY_DERIVATION_KEY : jsstr := js "paid_messaging_registry".

(** What an await meets. *)
Record build_step `{EncryptionLib} := {
  bs_uuid : jsstr;                          (* [crypto.randomUUID()] *)
  bs_key : bytes;                           (* a new AES key *)
  bs_nonce : bytes;                         (* an encryption's nonce *)
  bs_view : view;
  bs_session : outcome error Session;
  bs_memoryAccount : option (option jsstr);  (* [resolveMemoryAccountId]; [None] throws *)
}.

Record building `{DekCache} := Building { bd_commands : list Command; bd_turn : nat; bd_cache : cache }.
Arguments Building {_ _} _ _ _.

Section calls.
Context `{JsText} `{EncryptionLib} `{MySoBcs} `{!DekCache} `{PureBcs} {Ctx : Type}.
Context (config : StackConfig) (defaultThreshold : Z) (policy : MyDataPolicy Ctx) (env : nat → build_step).
Context (permissionedGroupTypeName encryptionHistoryTypeName messageLogTypeName : jsstr).
(** [groupsCall.removeMember({groupId, member})] of [@socialproof/myso-groups]. *)
Context (removeMember : jsstr → jsstr → Command).

#[local] Notation bld := (eff building call_error).

(** * Derivation ([derive.ts]) *)

Definition derive_config : PackageConfig := {| cfg_originalPackageId := pk_originalPackageId config; cfg_namespaceId := pk_namespaceId config |}.

Definition singleton_id (key : jsstr) : jsstr := deriveObjectID (pk_namespaceId config) (js "0x1::string::String") (bcs_string key).

Definition groupLeaverId : jsstr := singleton_id GROUP_LEAVER_DERIVATION_KEY.
Definition groupManagerId : jsstr := singleton_id GROUP_MANAGER_DERIVATION_KEY.
Definition groupHandleRegistryId : jsstr := singleton_id GROUP_HANDLE_REGISTRY_DERIVATION_KEY.
Definition paidMessagingRegistryId : jsstr := singleton_id PAID_MESSAGING_REGISTRY_DERIVATION_KEY.
(** A [Set], in insertion order. *)
Definition systemObjectAddresses : list jsstr :=
  if decide (groupManagerId = groupLeaverId) then [groupLeaverId] else [groupLeaverId; groupManagerId].

(** * The transaction *)

(** One command; the result is named by its position. *)
Definition command (c : Command) : bld TransactionArgument := λ s,
  (Ok (Result (length (bd_commands s))), Building (bd_commands s ++ [c]) (bd_turn s) (bd_cache s)).

(** [tx.add] of a binding. *)
Definition add (o : outcome bind_error Command) : bld TransactionArgument :=
  match o with Ok c => command c | Throw e => throw (CallBinding e) end.

(** The [i]-th value of what a command returned ([created[i]]). *)
Definition nth_result (a : TransactionArgument) (i : nat) : TransactionArgument :=
  match a with Result n => NestedResult n i | _ => a end.

(** An await on the encryption. *)
Definition encryption {A} (f : build_step → eff cache enc_error A) : bld A := λ s,
  let '(r, c) := f (env (bd_turn s)) (bd_cache s) in
  (match r with Ok a => Ok a | Throw e => Throw (CallCrypto e) end, Building (bd_commands s) (S (bd_turn s)) c).

Definition package : option jsstr := Some (pk_latestPackageId config).

(** * Group creation *)

Definition generateGroupDEK (uuid : option jsstr) : bld (jsstr * bytes) :=
  encryption (λ b, Encryption.generateGroupDEK derive_config defaultThreshold policy uuid (bs_uuid b) (bs_key b)).

Definition resolveCreatorMemoryAccountId (o : CreateGroupCallOptions) : bld (option jsstr) :=
  match truthy_str (cg_creatorMemoryAccountId o) with
  | Some id => mret (Some id)
  | None => λ s,
      (match bs_memoryAccount (env (bd_turn s)) with Some a => Ok (truthy_str a) | None => Throw MemoryLookupFailed end,
       Building (bd_commands s) (S (bd_turn s)) (bd_cache s))
  end.

(** [tx.pure.address(member)] of every member. *)
Fixpoint pure_addresses (members : list jsstr) : bld (list call_argument) :=
  match members with
  | [] => mret []
  | m :: members' =>
      a ← (match serialize Address (AString m) with Some b => mret (Pure b) | None => throw (CallBinding SerializeFailed) end);
      l ← pure_addresses members';
      mret (a :: l)
  end.

Definition buildAddressVecSet (members : list jsstr) : bld TransactionArgument :=
  match members with
  | [] => command (MoveCall (js "0x2") (js "vec_set") (js "empty") [js "address"] [])
  | _ =>
      elements ← pure_addresses members;
      addressVec ← command (MakeMoveVec (js "address") elements);
      command (MoveCall (js "0x2") (js "vec_set") (js "from_keys") [js "address"] [Passed addressVec])
  end.

(** The arguments both creations share; [members] is the set, or the list. *)
Definition commonArgs (name uuid : jsstr) (dek : bytes) : list (jsstr * js_arg) :=
  [(js "version", AString (pk_versionId config)); (js "namespace", AString (pk_namespaceId config));
   (js "groupManager", AString groupManagerId); (js "blockList", AString (pk_blockListRegistryId config));
   (js "name", AString name); (js "uuid", AString uuid); (js "initialEncryptedDek", ANumbers dek)].

Definition createGroup (o : CreateGroupCallOptions) : bld TransactionArgument :=
  generated ← generateGroupDEK (cg_uuid o);
  initialMembers ← buildAddressVecSet (cg_initialMembers o);
  creatorMemoryAccount ← resolveCreatorMemoryAccountId o;
  let common := commonArgs (cg_name o) generated.1 generated.2 in
  match creatorMemoryAccount with
  | Some a => add (Contracts.createGroup package
                (ObjectArgs (common ++ [(js "creatorMemoryAccount", AString a); (js "initialMembers", AArgument initialMembers)])))
  | None => add (Contracts.createWalletGroup package (ObjectArgs (common ++ [(js "initialMembers", AArgument initialMembers)])))
  end.

(** [#sealGroupName] *)
Definition sealGroupName (uuid name : jsstr) : bld jsstr :=
  let g := groupId derive_config uuid in
  padded ← (match padGroupName name with Some b => mret b | None => throw GroupNameTooLong end);
  sealed ← encryption (λ b, encrypt derive_config policy (bs_view b) (bs_session b) (UuidRef uuid) padded (Some 0) None
                              (Some (groupNameAad g)) (bs_nonce b));
  mret (formatEncryptedGroupName 0 (nonce sealed) (ciphertext sealed)).

Definition share_object (typeName : jsstr) (a : TransactionArgument) : Command :=
  MoveCall (js "0x2") (js "transfer") (js "public_share_object") [typeName] [Passed a].

Definition shareGroup (o : ShareGroupCallOptions) : bld unit :=
  _ ← command (share_object permissionedGroupTypeName (sh_group o));
  _ ← command (share_object encryptionHistoryTypeName (sh_encryptionHistory o));
  _ ← command (share_object messageLogTypeName (sh_messageLog o));
  mret tt.

Definition insertGroupData (group : object_ref) (key value : jsstr) : bld TransactionArgument :=
  add (Contracts.insertGroupData package (ObjectArgs
    [(js "groupManager", AString groupManagerId); (js "group", object_arg group); (js "key", AString key); (js "value", AString value)])).

(** [for (const [key, value] of entries) tx.add(insertGroupData(...))] *)
Fixpoint insert_entries (group : TransactionArgument) (entries : list (jsstr * jsstr)) : bld unit :=
  match entries with
  | [] => mret tt
  | kv :: entries' => _ ← insertGroupData (ByResult group) kv.1 kv.2; insert_entries group entries'
  end.

(** The group, history and log a command returned. *)
Definition share_created (created : TransactionArgument) : bld unit :=
  shareGroup {| sh_group := nth_result created 0; sh_encryptionHistory := nth_result created 1; sh_messageLog := nth_result created 2 |}.

Definition createAndShareGroup (o : CreateGroupCallOptions) : bld unit :=
  generated ← generateGroupDEK (cg_uuid o);
  name ← (if cg_encryptName o then sealGroupName generated.1 (cg_name o) else mret (cg_name o));
  creatorMemoryAccount ← resolveCreatorMemoryAccountId o;
  let common := commonArgs name generated.1 generated.2 in
  if is_nil (cg_groupData o) then
    let args := common ++ [(js "initialMembers", AStrings (cg_initialMembers o))] in
    _ ← add (match creatorMemoryAccount with
             | Some a => Contracts.createAndShareGroup package (ObjectArgs (args ++ [(js "creatorMemoryAccount", AString a)]))
             | None => Contracts.createAndShareWalletGroup package (ObjectArgs args)
             end);
    mret tt
  else
    members ← buildAddressVecSet (cg_initialMembers o);
    let args := common ++ [(js "initialMembers", AArgument members)] in
    created ← add (match creatorMemoryAccount with
                   | Some a => Contracts.createGroup package (ObjectArgs (args ++ [(js "creatorMemoryAccount", AString a)]))
                   | None => Contracts.createWalletGroup package (ObjectArgs args)
                   end);
    _ ← insert_entries (nth_result created 0) (cg_groupData o);
    share_created created.

(** ** Groups of agents *)

(** The arguments of the agent creations, for the generated key and the members given. *)
Definition agent_args (o : CreateAgentGroupCallOptions) (uuid : jsstr) (dek : bytes) (members : js_arg) : list (jsstr * js_arg) :=
  [(js "version", AString (pk_versionId config)); (js "namespace", AString (pk_namespaceId config));
   (js "groupManager", AString groupManagerId); (js "groupLeaver", AString groupLeaverId);
   (js "blockList", AString (pk_blockListRegistryId config)); (js "platform", AString (ag_platformId o));
   (js "memoryConfig", AString (pk_memoryConfigId config)); (js "creatorMemoryAccount", AString (ag_creatorMemoryAccountId o));
   (js "crossPrincipalPeerAccount", AString (ag_crossPrincipalPeerMemoryAccountId o)); (js "name", AString (cg_name (ag_common o)));
   (js "uuid", AString uuid); (js "initialEncryptedDek", ANumbers dek); (js "initialMembers", members);
   (js "roomKind", match ag_room o with Some r => ANumber (room_kind r) | None => ANull end);
   (js "roomTaskId", match ag_room o ≫= room_taskId with Some t => AString t | None => ANull end)].

(** [#agentGroupArgs] *)
Definition agentGroupArgs (o : CreateAgentGroupCallOptions) : bld (list (jsstr * js_arg)) :=
  generated ← generateGroupDEK (cg_uuid (ag_common o));
  members ← buildAddressVecSet (cg_initialMembers (ag_common o));
  mret (agent_args o generated.1 generated.2 (AArgument members)).

Definition createAgentGroup (o : CreateAgentGroupCallOptions) : bld TransactionArgument :=
  args ← agentGroupArgs o;
  match truthy_str (ag_e2ee o) with
  | Some e2ee => add (Contracts.createAgentGroupWithE2ee package (ObjectArgs (args ++ [(js "e2ee", AString e2ee)])))
  | None => add (Contracts.createAgentGroup package (ObjectArgs args))
  end.

Definition createAgentAndShareGroup (o : CreateAgentGroupCallOptions) : bld unit :=
  match truthy_str (ag_e2ee o) with
  | Some e2ee =>
      args ← agentGroupArgs o;
      created ← add (Contracts.createAgentGroupWithE2ee package (ObjectArgs (args ++ [(js "e2ee", AString e2ee)])));
      share_created created
  | None =>
      generated ← generateGroupDEK (cg_uuid (ag_common o));
      _ ← add (Contracts.createAgentAndShareGroup package
                 (ObjectArgs (agent_args o generated.1 generated.2 (AStrings (cg_initialMembers (ag_common o))))));
      mret tt
  end.

(** * Keys and members *)

Definition generateRotationDEK (ref : GroupRef) : bld (GeneratedDEK * jsstr * jsstr) :=
  encryption (λ b, Encryption.generateRotationDEK derive_config defaultThreshold policy (bs_view b) ref (bs_key b)).

Definition rotate_call (g h : jsstr) (dek : bytes) : bld TransactionArgument :=
  add (Contracts.rotateEncryptionKey package (ObjectArgs
    [(js "version", AString (pk_versionId config)); (js "encryptionHistory", AString h); (js "group", AString g);
     (js "newEncryptedDek", ANumbers dek)])).

Definition rotateEncryptionKey (ref : GroupRef) : bld TransactionArgument :=
  generated ← generateRotationDEK ref;
  rotate_call generated.1.2 generated.2 (encryptedDek generated.1.1).

Definition resolve_ref (ref : GroupRef) : bld (jsstr * jsstr * option jsstr) :=
  match resolveGroupRef derive_config ref with Some ids => mret ids | None => throw GroupRefUndefined end.

Fixpoint remove_members (g : jsstr) (members : list jsstr) : bld unit :=
  match members with
  | [] => mret tt
  | m :: members' => _ ← command (removeMember g m); remove_members g members'
  end.

Definition removeMembersAndRotateKey (ref : GroupRef) (members : list jsstr) : bld unit :=
  ids ← resolve_ref ref;
  _ ← remove_members ids.1.1 members;
  generated ← generateRotationDEK (IdsRef ids.1.1 ids.1.2);
  _ ← rotate_call ids.1.1 ids.1.2 (encryptedDek generated.1.1);
  mret tt.

(** * Lifecycle, metadata, handles *)

Definition archiveGroup (g : jsstr) : bld TransactionArgument :=
  add (Contracts.archiveGroup package (ObjectArgs [(js "version", AString (pk_versionId config)); (js "group", AString g)])).

Definition leave (g : object_ref) : bld TransactionArgument :=
  add (Contracts.leave package (ObjectArgs [(js "groupLeaver", AString groupLeaverId); (js "group", object_arg g)])).

Definition setGroupName (g name : jsstr) : bld TransactionArgument :=
  add (Contracts.setGroupName package (ObjectArgs
    [(js "groupManager", AString groupManagerId); (js "group", AString g); (js "name", AString name)])).

Definition removeGroupData (g key : jsstr) : bld TransactionArgument :=
  add (Contracts.removeGroupData package (ObjectArgs
    [(js "groupManager", AString groupManagerId); (js "group", AString g); (js "key", AString key)])).

Definition setGroupHandle (g handle : jsstr) : bld TransactionArgument :=
  add (Contracts.setGroupHandle package (ObjectArgs
    [(js "version", AString (pk_versionId config)); (js "registry", AString groupHandleRegistryId); (js "group", AString g);
     (js "handle", AString handle)])).

Definition clearGroupHandle (g : jsstr) : bld TransactionArgument :=
  add (Contracts.clearGroupHandle package (ObjectArgs
    [(js "version", AString (pk_versionId config)); (js "registry", AString groupHandleRegistryId); (js "group", AString g)])).
(** * Paid messages *)

(** [#resolveGroupAndLog] *)
Definition resolveGroupAndLog (r : GroupAndMessageLogRef) : bld (jsstr * jsstr) :=
  resolved ← resolve_ref (gl_ref r);
  match truthy_str (match gl_messageLogId r with Some l => Some l | None => resolved.2 end) with
  | Some log => mret (resolved.1.1, log)
  | None => throw MessageLogIdRequired
  end.

(** [#resolveGroupAndLogArgs] *)
Definition resolveGroupAndLogArgs (r : GroupAndMessageLogArgs) : bld (js_arg * js_arg) :=
  match r with
  | InTransaction g l => mret (AArgument g, AArgument l)
  | Shared r => ids ← resolveGroupAndLog r; mret (AString ids.1, AString ids.2)
  end.

Definition paid_head (group log : js_arg) : list (jsstr * js_arg) :=
  [(js "version", AString (pk_versionId config)); (js "config", AString (pk_messagingConfigId config)); (js "group", group); (js "log", log)].

Definition digest_head (group log : js_arg) : list (jsstr * js_arg) :=
  paid_head group log ++
  [(js "paidRegistry", AString paidMessagingRegistryId); (js "socialGraph", AString (pk_socialGraphId config));
   (js "blockList", AString (pk_blockListRegistryId config)); (js "groupManager", AString groupManagerId)].

Definition digest_tail (o : PaidDigestOptions) : list (jsstr * js_arg) :=
  [(js "recipient", AString (pd_recipient o)); (js "payment", object_arg (pd_payment o)); (js "escrowAmount", ANumber (pd_escrowAmount o));
   (js "dedupeKey", ANumbers (pd_dedupeKey o)); (js "nonce", ANumber (pd_nonce o))].

Definition sendPaidMessageDigest (o : PaidDigestOptions) : bld TransactionArgument :=
  ids ← resolveGroupAndLogArgs (pd_group o);
  add (Contracts.sendPaidMessageDigest package (ObjectArgs (digest_head ids.1 ids.2 ++ digest_tail o))).

Definition sendAgentPaidMessageDigest (platformId memoryAccountId : jsstr) (o : PaidDigestOptions) : bld TransactionArgument :=
  ids ← resolveGroupAndLogArgs (pd_group o);
  add (Contracts.sendAgentPaidMessageDigest package (ObjectArgs (digest_head ids.1 ids.2 ++
    [(js "platform", AString platformId); (js "memoryConfig", AString (pk_memoryConfigId config));
     (js "memoryAccount", AString memoryAccountId)] ++ digest_tail o))).

Definition setPaidMessagingPolicy (enabled : bool) (minCost : option Z) : bld TransactionArgument :=
  add (Contracts.setPaidMessagingPolicy package (ObjectArgs
    [(js "registry", AString paidMessagingRegistryId); (js "enabled", ABool enabled);
     (js "minCost", match minCost with Some n => ANumber n | None => ANull end)])).

(** The arguments every claim shares. *)
Definition claim_args (o : ClaimOptions) (g log : jsstr) : list (jsstr * js_arg) :=
  paid_head (AString g) (AString log) ++
  [(js "blockList", AString (pk_blockListRegistryId config)); (js "paidMsgSeq", ANumber (cm_paidMsgSeq o));
   (js "charCount", ANumber (cm_charCount o)); (js "dedupeKey", ANumbers (cm_dedupeKey o)); (js "nonce", ANumber (cm_nonce o))].

Definition replyToPaidMessageClaimCoin (o : ClaimOptions) : bld TransactionArgument :=
  ids ← resolveGroupAndLog (cm_group o);
  add (Contracts.replyToPaidMessageClaimCoin package (ObjectArgs (claim_args o ids.1 ids.2))).

Definition replyToPaidMessageClaimSettled (platformFeeRecipient : jsstr) (o : ClaimOptions) : bld TransactionArgument :=
  ids ← resolveGroupAndLog (cm_group o);
  add (Contracts.replyToPaidMessageClaimSettled package (ObjectArgs (claim_args o ids.1 ids.2 ++
    [(js "platformFeeRecipient", AString platformFeeRecipient); (js "ecosystemTreasury", AString (pk_ecosystemTreasuryId config))]))).

Definition replyToPaidMessageClaimSettledWithPlatform (platformId : jsstr) (o : ClaimOptions) : bld TransactionArgument :=
  ids ← resolveGroupAndLog (cm_group o);
  add (Contracts.replyToPaidMessageClaimSettledWithPlatform package (ObjectArgs (claim_args o ids.1 ids.2 ++
    [(js "platform", AString platformId); (js "ecosystemTreasury", AString (pk_ecosystemTreasuryId config))]))).

Definition refundPaidEscrow (r : GroupAndMessageLogRef) (paidMsgSeq : Z) : bld TransactionArgument :=
  ids ← resolveGroupAndLog r;
  add (Contracts.refundPaidEscrow package (ObjectArgs (paid_head (AString ids.1) (AString ids.2) ++
    [(js "blockList", AString (pk_blockListRegistryId config)); (js "paidMsgSeq", ANumber paidMsgSeq)]))).

(** * Whole transactions ([transactions.ts]) *)

(** A factory method with its options. *)
Inductive tx_method :=
  | CreateAndShareGroup (sender : option jsstr) (o : CreateGroupCallOptions)
  | CreateAgentAndShareGroup (o : CreateAgentGroupCallOptions)
  | RotateEncryptionKey (ref : GroupRef)
  | RemoveMembersAndRotateKey (ref : GroupRef) (members : list jsstr)
  | ArchiveGroup (g : jsstr)
  | Leave (g : object_ref)
  | SetGroupName (g name : jsstr)
  | InsertGroupData (g : object_ref) (key value : jsstr)
  | RemoveGroupData (g key : jsstr)
  | SetGroupHandle (g handle : jsstr)
  | ClearGroupHandle (g : jsstr).

(** A method's [transaction.add(...)] on the transaction it is given, or a new one. *)
Definition add_method (m : tx_method) : bld unit :=
  let added (b : bld TransactionArgument) : bld unit := _ ← b; mret tt in
  match m with
  | CreateAndShareGroup sender o => match truthy_str sender with Some _ => createAndShareGroup o | None => throw SenderRequired end
  | CreateAgentAndShareGroup o => createAgentAndShareGroup o
  | RotateEncryptionKey ref => added (rotateEncryptionKey ref)
  | RemoveMembersAndRotateKey ref members => removeMembersAndRotateKey ref members
  | ArchiveGroup g => added (archiveGroup g)
  | Leave g => added (leave g)
  | SetGroupName g name => added (setGroupName g name)
  | InsertGroupData g key value => added (insertGroupData g key value)
  | RemoveGroupData g key => added (removeGroupData g key)
  | SetGroupHandle g handle => added (setGroupHandle g handle)
  | ClearGroupHandle g => added (clearGroupHandle g)
  end.
End calls.
