(* ===== verification/TransactionTypes.v ===== *)
(** Typing of the transactions [GroupCalls] builds: Move values are linear.  A value
    a command returns is borrowed by later commands until one takes it, it is used by
    nothing after that, and a value of a type without [drop] must have been taken when
    the transaction ends; otherwise the chain rejects the transaction.

    [type_commands] is an executable checker of these rules for a table of function
    signatures.  The deployed package's table is a parameter ([signature]).  What is
    relied on of it is [relied_on], which the Move sources of the repository declare
    too, and, for the calls that need them, [bindings_only], which only the TypeScript
    bindings have: [repository_move] is what those sources declare instead. *)
From S2P Require Import Prelude JsString JsMap Utf8 GroupName Aad Encryption Contracts GroupCalls.

(** * Signatures *)

Inductive move_type := TyGroup | TyHistory | TyLog | TyCoin | TyAddressSet | TyAddresses | TyString.

#[global] Instance move_type_eq_dec : EqDecision move_type.
Proof. solve_decision. Defined.

Definition has_drop (t : move_type) : bool := match t with TyAddressSet | TyAddresses | TyString => true | _ => false end.

(** A parameter: a pure value, a shared object by reference, a value of a type by
    reference, or one that is taken. *)
Inductive param := PPure | PObject | PBorrow (t : move_type) | PTake (t : move_type).

(** Package, module, function and type arguments. *)
Definition target : Type := jsstr * jsstr * jsstr * list jsstr.
Definition signature_table : Type := target → option (list param * list move_type).

(** * The checker *)

(** What each command so far returned; [None] was taken. *)
Notation slots := (list (list (option move_type))).

Definition held (st : slots) (a : TransactionArgument) : option move_type :=
  match a with
  | GasCoin => None
  | Result i => match st !! i with Some [v] => v | _ => None end
  | NestedResult i j => l ← st !! i; v ← l !! j; v
  end.

Definition taken (a : TransactionArgument) (st : slots) : slots :=
  match a with
  | GasCoin => st
  | Result i => <[i := [None]]> st
  | NestedResult i j => alter (λ l, <[j := None]> l) i st
  end.

(** [used] are the values the command already has; it may not have one twice. *)
Definition check_arg (st : slots) (used : list TransactionArgument) (p : param) (arg : call_argument) : option (slots * list TransactionArgument) :=
  match p, arg with
  | PPure, Pure _ => Some (st, used)
  | PObject, (Clock | Random | DenyList | SystemState | ObjectId _) => Some (st, used)
  | PBorrow _, ObjectId _ | PTake _, ObjectId _ => Some (st, used)
  | PBorrow t, Passed a =>
      if decide (held st a = Some t ∧ a ∉ used) then Some (st, a :: used) else None
  | PTake t, Passed a =>
      if decide (held st a = Some t ∧ a ∉ used) then Some (taken a st, a :: used) else None
  | _, _ => None
  end.

Fixpoint check_args (st : slots) (used : list TransactionArgument) (params : list param) (args : list call_argument) : option slots :=
  match params, args with
  | [], [] => Some st
  | p :: params', a :: args' => r ← check_arg st used p a; check_args r.1 r.2 params' args'
  | _, _ => None
  end.

Definition is_pure (a : call_argument) : bool := match a with Pure _ => true | _ => false end.

Section checker.
Context (signature : signature_table).

Definition type_command (st : slots) (c : Command) : option slots :=
  match c with
  | MoveCall p m f ts args =>
      match signature (p, m, f, ts) with
      | Some (params, results) => st' ← check_args st [] params args; Some (st' ++ [Some <$> results])
      | None => None
      end
  | MakeMoveVec t elements =>
      if bool_decide (t = js "address") && forallb is_pure elements then Some (st ++ [[Some TyAddresses]]) else None
  | SplitCoins GasCoin amounts => Some (st ++ [replicate (length amounts) (Some TyCoin)])
  | SplitCoins _ _ => None
  end.

Fixpoint type_from (st : slots) (cs : list Command) : option slots :=
  match cs with [] => Some st | c :: cs' => st' ← type_command st c; type_from st' cs' end.

Definition type_commands : list Command → option slots := type_from [].
End checker.

(** Nothing is left that must not be dropped. *)
Definition droppable (r : list (option move_type)) : bool := forallb (λ v, match v with Some t => has_drop t | None => true end) r.

(** A complete transaction the chain accepts. *)
Definition well_typed (signature : signature_table) (cs : list Command) : bool :=
  match type_commands signature cs with Some st => forallb droppable st | None => false end.

(** * What is relied on *)

Section relied_on.
Context (pkg groupName historyName logName : jsstr).

#[local] Notation own f := ((pkg, js "messaging", js f, []) : target).
#[local] Notation objects n := (replicate n PObject).
#[local] Notation pures n := (replicate n PPure).
#[local] Notation created := [TyGroup; TyHistory; TyLog].

(** The functions called whose bindings agree with the Move package of this repository
    ([repository_move]), and the framework's, with the kinds of their parameters and results. *)
Definition relied_on : list (target * (list param * list move_type)) := [
  (own "create_group", (objects 5 ++ pures 3 ++ [PTake TyAddressSet], created));
  (own "create_and_share_group", (objects 5 ++ pures 4, []));
  (own "rotate_encryption_key", ([PObject; PBorrow TyHistory; PBorrow TyGroup; PPure], []));
  (own "leave", ([PObject; PBorrow TyGroup], []));
  (own "archive_group", ([PObject; PBorrow TyGroup], []));
  (own "set_group_handle", ([PObject; PObject; PBorrow TyGroup; PPure], []));
  (own "clear_group_handle", ([PObject; PObject; PBorrow TyGroup], []));
  (own "set_group_name", ([PObject; PBorrow TyGroup; PPure], []));
  (own "insert_group_data", ([PObject; PBorrow TyGroup; PPure; PPure], []));
  (own "remove_group_data", ([PObject; PBorrow TyGroup; PPure], [TyString; TyString]));
  ((pkg, js "paid_messaging_policy", js "set_paid_messaging_policy", []), ([PObject; PPure; PPure], []));
  ((js "0x2", js "vec_set", js "empty", [js "address"]), ([], [TyAddressSet]));
  ((js "0x2", js "vec_set", js "from_keys", [js "address"]), ([PTake TyAddresses], [TyAddressSet]));
  ((js "0x2", js "transfer", js "public_share_object", [groupName]), ([PTake TyGroup], []));
  ((js "0x2", js "transfer", js "public_share_object", [historyName]), ([PTake TyHistory], []));
  ((js "0x2", js "transfer", js "public_share_object", [logName]), ([PTake TyLog], []))].

(** Those the generated bindings declare and the Move package of this repository does
    not: it has no such function, or one with other parameters. *)
Definition bindings_only : list (target * (list param * list move_type)) := [
  (own "create_wallet_group", (objects 4 ++ pures 3 ++ [PTake TyAddressSet], created));
  (own "create_and_share_wallet_group", (objects 4 ++ pures 4, []));
  (own "create_agent_group", (objects 9 ++ pures 3 ++ [PTake TyAddressSet] ++ pures 2 ++ [PObject], created));
  (own "create_agent_group_with_e2ee", (objects 9 ++ pures 3 ++ [PTake TyAddressSet] ++ pures 3 ++ [PObject], created));
  (own "create_agent_and_share_group", (objects 9 ++ pures 6 ++ [PObject], []));
  (own "send_paid_message_digest",
     ([PObject; PObject; PBorrow TyGroup; PBorrow TyLog] ++ objects 4 ++ [PPure; PTake TyCoin] ++ pures 3 ++ [PObject], []));
  (own "send_agent_paid_message_digest",
     ([PObject; PObject; PBorrow TyGroup; PBorrow TyLog] ++ objects 7 ++ [PPure; PTake TyCoin] ++ pures 3 ++ [PObject], []));
  (own "reply_to_paid_message_claim_settled",
     ([PObject; PObject; PBorrow TyGroup; PBorrow TyLog; PObject] ++ pures 4 ++ [PObject; PPure; PObject], []));
  (own "reply_to_paid_message_claim_settled_with_platform",
     ([PObject; PObject; PBorrow TyGroup; PBorrow TyLog; PObject] ++ pures 4 ++ [PObject; PObject; PObject], []));
  (own "refund_paid_escrow", ([PObject; PObject; PBorrow TyGroup; PBorrow TyLog; PObject; PPure; PObject], []))].

(** The entry points of [messaging.move] that a binding names, and
    [set_paid_messaging_policy], as the Move sources declare them; the transaction
    context is not a parameter of a call. *)
Definition repository_move : list (target * (list param * list move_type)) := [
  (own "create_group", (objects 5 ++ pures 3 ++ [PTake TyAddressSet], created));
  (own "create_and_share_group", (objects 5 ++ pures 4, []));
  (own "create_agent_group", (objects 8 ++ pures 3 ++ [PTake TyAddressSet; PObject], created));
  (own "create_agent_and_share_group", (objects 8 ++ pures 4 ++ [PObject], []));
  (own "rotate_encryption_key", ([PObject; PBorrow TyHistory; PBorrow TyGroup; PPure], []));
  (own "leave", ([PObject; PBorrow TyGroup], []));
  (own "archive_group", ([PObject; PBorrow TyGroup], []));
  (own "set_group_handle", ([PObject; PObject; PBorrow TyGroup; PPure], []));
  (own "clear_group_handle", ([PObject; PObject; PBorrow TyGroup], []));
  (own "set_group_name", ([PObject; PBorrow TyGroup; PPure], []));
  (own "insert_group_data", ([PObject; PBorrow TyGroup; PPure; PPure], []));
  (own "remove_group_data", ([PObject; PBorrow TyGroup; PPure], [TyString; TyString]));
  (own "send_paid_message_digest",
     ([PObject; PBorrow TyGroup; PBorrow TyLog] ++ objects 4 ++ [PPure; PTake TyCoin] ++ pures 3 ++ [PObject], []));
  (own "send_agent_paid_message_digest",
     ([PObject; PBorrow TyGroup; PBorrow TyLog] ++ objects 6 ++ [PPure; PTake TyCoin] ++ pures 3 ++ [PObject], []));
  (own "reply_to_paid_message_claim_settled",
     ([PObject; PBorrow TyGroup; PBorrow TyLog; PObject] ++ pures 4 ++ [PObject; PPure; PPure], []));
  (own "refund_paid_escrow", ([PObject; PBorrow TyGroup; PBorrow TyLog; PObject; PPure; PObject], []));
  ((pkg, js "paid_messaging_policy", js "set_paid_messaging_policy", []), ([PObject; PPure; PPure], []))].
End relied_on.

(** * Bindings and signatures agree

    [fits] is the checker run on the options' values, before they are normalised: it
    needs no serialisation, so it decides a binding and its caller for all values at once. *)

Definition fits_value (st : slots) (used : list TransactionArgument) (p : param) (type : option TypeTag) (arg : js_arg) :
    option (slots * list TransactionArgument) :=
  match arg with
  | AArgument a => check_arg st used p (Passed a)
  | _ =>
      match type ≫= getPureBcsSchema, p, arg with
      | Some _, PPure, _ => Some (st, used)
      | None, (PObject | PBorrow _ | PTake _), AString _ => Some (st, used)
      | _, _, _ => None
      end
  end.

Fixpoint fits (args : move_args) (names : option (list jsstr)) (types : list (option TypeTag)) (params : list param) (index : nat)
    (st : slots) (used : list TransactionArgument) : option slots :=
  match types, params with
  | [], [] => Some st
  | type :: types', p :: params' =>
      match type ≫= supplied with
      | Some _ => match p with PObject => fits args names types' params' index st used | _ => None end
      | None =>
          match argument_at args names index with
          | Throw _ => None
          | Ok arg => r ← fits_value st used p type arg; fits args names types' params' (S index) r.1 r.2
          end
      end
  | _, _ => None
  end.

Section fits.
Context `{PureBcs}.

Lemma fits_value_sound st used p type arg r : fits_value st used p type arg = Some r →
  match normalize_one arg type with Ok a => check_arg st used p a = Some r | Throw e => e = SerializeFailed end.
Proof.
  unfold fits_value, normalize_one. destruct arg; try done;
    destruct (type ≫= getPureBcsSchema) as [t|]; destruct p; try done; try (by destruct (serialize t _)).
Qed.

Lemma supplied_object st used type a : type ≫= supplied = Some a → check_arg st used PObject a = Some (st, used).
Proof.
  destruct type as [t|]; [|done]. simpl. unfold supplied. destruct t; try done. intros E.
  repeat case_match; try done; by injection E as <-.
Qed.

Lemma fits_sound args names types : ∀ params index st used st',
  fits args names types params index st used = Some st' →
  match normalize_loop args names types index with Ok l => check_args st used params l = Some st' | Throw e => e = SerializeFailed end.
Proof.
  induction types as [|type types IH]; intros [|p params] index st used st'; cbn [fits normalize_loop]; try done.
  destruct (type ≫= supplied) as [a|] eqn:Es.
  - destruct p; try done. intros E%IH. destruct (normalize_loop _ _ _ _); [|done].
    cbn [check_args]. by rewrite (supplied_object _ _ _ _ Es).
  - destruct (argument_at args names index) as [arg|]; [|done]. intros ([st1 used1] & Ev & E)%bind_Some.
    apply fits_value_sound in Ev. apply IH in E. destruct (normalize_one arg type) as [x|]; [|done].
    destruct (normalize_loop _ _ _ _); [|done]. cbn [check_args]. by rewrite Ev.
Qed.
End fits.

(** * Builders *)

Section builders.
Context `{JsText} `{EncryptionLib} `{MySoBcs} `{!DekCache} `{PureBcs} {Ctx : Type}.
Context (config : StackConfig) (defaultThreshold : Z) (policy : MyDataPolicy Ctx) (env : nat → build_step).
Context (groupName historyName logName : jsstr) (removeMember : jsstr → jsstr → Command).
Context (signature : signature_table).

#[local] Notation bld := (eff building call_error).
#[local] Notation pkg := (pk_latestPackageId config).

Definition declares (l : list (target * (list param * list move_type))) : Prop := ∀ t s, (t, s) ∈ l → signature t = Some s.

(** What the deployed packages declare, and the call of the groups package: it
    borrows shared objects and returns nothing. *)
Definition declared : Prop :=
  declares (relied_on pkg groupName historyName logName)
  ∧ (∀ g m st, type_command signature st (removeMember g m) = Some (st ++ [[]])).

(** The deployed messaging package is the one the bindings were generated from. *)
Definition bindings_declared : Prop := declares (bindings_only pkg).

(** Errors that are not of the arguments' names, number or kinds. *)
Definition benign (e : call_error) : Prop :=
  match e with CallBinding SerializeFailed => True | CallBinding _ => False | _ => True end.

(** From commands of types [st], [m] leads to commands of types [Q], or throws a benign error. *)
Definition typed {A} (st : slots) (m : bld A) (Q : A → slots → Prop) : Prop :=
  ∀ s r s', type_commands signature (bd_commands s) = Some st → m s = (r, s') →
  match r with Ok a => ∃ st', type_commands signature (bd_commands s') = Some st' ∧ Q a st' | Throw e => benign e end.

Lemma type_from_app st cs cs' : type_from signature st (cs ++ cs') = (st' ← type_from signature st cs; type_from signature st' cs').
Proof.
  revert st. induction cs as [|c cs IH]; intros st; [done|]. cbn [type_from app]. by destruct (type_command signature st c); cbn.
Qed.

Lemma check_args_length params : ∀ args st used st', check_args st used params args = Some st' → length st' = length st.
Proof.
  induction params as [|p params IH]; intros [|a args] st used st'; cbn [check_args]; try done; [by intros [= <-]|].
  intros ([st1 used1] & Ec & E)%bind_Some. apply IH in E. rewrite E. clear E IH. cbn [fst snd].
  destruct p, a; cbn in Ec; try done; try (by injection Ec as <- <-); case_decide; try done; injection Ec as <- <-; try done.
  destruct a as [|i|i j]; unfold taken; [done|apply length_insert|apply length_alter].
Qed.

Lemma type_command_length st c st' : type_command signature st c = Some st' → length st' = S (length st).
Proof.
  destruct c as [p m f ts args|t el|c am]; cbn.
  - destruct (signature _) as [[params results]|]; [|done]. intros (st1 & Ec & E)%bind_Some. injection E as <-.
    apply check_args_length in Ec. rewrite length_app, Ec. simpl. lia.
  - case_match; [|done]. intros [= <-]. rewrite length_app. simpl. lia.
  - destruct c; [|done..]. intros [= <-]. rewrite length_app. simpl. lia.
Qed.

Lemma type_from_length cs : ∀ st st', type_from signature st cs = Some st' → length st' = (length st + length cs)%nat.
Proof.
  induction cs as [|c cs IH]; intros st st'; cbn [type_from]; [intros [= <-]; simpl; lia|].
  intros (st1 & Ec%type_command_length & E%IH)%bind_Some. rewrite E, Ec. simpl. lia.
Qed.

(** ** Rules *)

Lemma typed_ret {A} st (a : A) Q : Q a st → typed st (mret a) Q.
Proof. intros HQ s r s' Hs [= <- <-]. by exists st. Qed.

Lemma typed_throw {A} st (e : call_error) (Q : A → slots → Prop) : benign e → typed st (throw e) Q.
Proof. by intros He s r s' Hs [= <- <-]. Qed.

Lemma typed_bind {A B} st (m : bld A) (k : A → bld B) P Q :
  typed st m P → (∀ a st', P a st' → typed st' (k a) Q) → typed st (m ≫= k) Q.
Proof.
  intros Hm Hk s r s' Hs. unfold mbind, eff_bind. destruct (m s) as [[a|e] s1] eqn:E; [|intros [= <- <-]; by eapply Hm in E].
  eapply Hm in E as (st' & Hs' & HP); [|done]. exact (Hk a st' HP _ _ _ Hs').
Qed.

Lemma typed_weaken {A} st (m : bld A) (P Q : A → slots → Prop) : typed st m P → (∀ a st', P a st' → Q a st') → typed st m Q.
Proof.
  intros Hm HPQ s r s' Hs E. eapply Hm in E; [|done]. destruct r; [|done]. destruct E as (st' & ? & ?). exists st'. auto.
Qed.

Lemma typed_encryption {A} st (f : build_step → eff cache enc_error A) (Q : A → slots → Prop) :
  (∀ a, Q a st) → typed st (GroupCalls.encryption env f) Q.
Proof.
  intros HQ s r s' Hs. unfold GroupCalls.encryption. destruct (f _ _) as [[a|e] c]; intros [= <- <-]; [|done]. exists st. by split.
Qed.

Lemma typed_command st c st' (Q : TransactionArgument → slots → Prop) :
  type_command signature st c = Some st' → Q (Result (length st)) st' → typed st (command c) Q.
Proof.
  intros Hc HQ s r s' Hs [= <- <-]. exists st'. cbn [bd_commands]. split.
  - unfold type_commands in *. by rewrite type_from_app, Hs; cbn; rewrite Hc.
  - unfold type_commands in Hs. apply type_from_length in Hs. simpl in Hs. by rewrite Hs in HQ.
Qed.

(** A binding whose signature is relied on, and whose values fit it. *)
Lemma typed_add st p m f names types l params results st' (Q : TransactionArgument → slots → Prop) :
  signature (default (js "@local-pkg/messaging") p, js m, js f, []) = Some (params, results) →
  length l = length names →
  fits (ObjectArgs l) (Some (js <$> names)) types params 0 st [] = Some st' →
  Q (Result (length st)) (st' ++ [Some <$> results]) → typed st (add (bound p m f types names (ObjectArgs l))) Q.
Proof.
  intros Hs Hl Hf HQ. unfold bound, normalizeMoveArguments. cbn [args_length]. rewrite length_fmap, decide_True by done.
  apply fits_sound in Hf. destruct (normalize_loop _ _ _ _) as [args|e]; cbn [add]; [|subst e; by apply typed_throw].
  eapply typed_command; [|exact HQ]. cbn [type_command]. rewrite Hs. by rewrite Hf.
Qed.

Lemma typed_sealGroupName st uuid name (Q : jsstr → slots → Prop) : (∀ n, Q n st) →
  typed st (sealGroupName config policy env uuid name) Q.
Proof.
  intros HQ. unfold sealGroupName. apply (typed_bind _ _ _ (λ _, (st =.))).
  { destruct (padGroupName name); [by apply typed_ret|by apply typed_throw]. }
  intros b ? <-. eapply typed_bind; [by apply (typed_encryption _ _ (λ _, (st =.)))|]. intros a ? <-. by apply typed_ret.
Qed.

(** A group is created for the account given, or for the one looked up, if there is one. *)
Lemma typed_memory st o (Q : option jsstr → slots → Prop) :
  (∀ a, (a = None → truthy_str (cg_creatorMemoryAccountId o) = None) → Q a st) → typed st (resolveCreatorMemoryAccountId env o) Q.
Proof.
  intros HQ. unfold resolveCreatorMemoryAccountId. destruct (truthy_str _) as [a|]; [by apply typed_ret, HQ|].
  intros s r s' Hs. destruct (bs_memoryAccount _); intros [= <- <-]; [|done]. exists st. split; [done|]. by apply HQ.
Qed.
End builders.

(** * The methods *)

(** Finds a relied-on signature, of [H] or of the bindings' own, [B]. *)
Ltac relied H := eapply (proj1 H); unfold relied_on; solve [repeat first [apply list_elem_of_here | apply list_elem_of_further]].
Ltac bound_by B := eapply B; unfold bindings_only; solve [repeat first [apply list_elem_of_here | apply list_elem_of_further]].

Lemma check_borrow st used t a : held st a = Some t → (a ∉ used) → check_arg st used (PBorrow t) (Passed a) = Some (st, a :: used).
Proof. intros Hh Hu. cbn. by rewrite decide_True. Qed.

Lemma check_take st used t a : held st a = Some t → (a ∉ used) → check_arg st used (PTake t) (Passed a) = Some (taken a st, a :: used).
Proof. intros Hh Hu. cbn. by rewrite decide_True. Qed.

Lemma lookup_here {A} (l k : list A) x : (l ++ x :: k) !! length l = Some x.
Proof. by apply list_lookup_middle. Qed.

(** A value just returned, at the end of [l]. *)
Lemma held_here l k t : held (l ++ [Some t] :: k) (Result (length l)) = Some t.
Proof. cbn [held]. by rewrite lookup_here. Qed.

Lemma taken_here l k v : taken (Result (length l)) (l ++ v :: k) = l ++ [None] :: k.
Proof. cbn [taken]. by rewrite insert_app_r_alt, Nat.sub_diag. Qed.

Lemma held_nth l k r j t : r !! j = Some (Some t) → held (l ++ r :: k) (NestedResult (length l) j) = Some t.
Proof. intros Hr. cbn [held]. rewrite lookup_here. cbn. by rewrite Hr. Qed.

Lemma taken_nth l k r j : taken (NestedResult (length l) j) (l ++ r :: k) = l ++ <[j := None]> r :: k.
Proof. cbn [taken]. by rewrite alter_app_r_alt, Nat.sub_diag. Qed.

(** Runs the checker on a call's options, up to its borrowed and taken values. *)
Ltac run_fits := lazy -[check_arg taken].

Section methods.
Context `{JsText} `{EncryptionLib} `{MySoBcs} `{!DekCache} `{PureBcs} {Ctx : Type}.
Context (config : StackConfig) (defaultThreshold : Z) (policy : MyDataPolicy Ctx) (env : nat → build_step).
Context (groupName historyName logName : jsstr) (removeMember : jsstr → jsstr → Command).
Context (signature : signature_table) (Hd : declared config groupName historyName logName removeMember signature).

#[local] Notation bld := (eff building call_error).
#[local] Notation typed := (typed signature).
#[local] Notation bindings_declared := (bindings_declared config signature).

Definition all_droppable (l : slots) : Prop := forallb droppable l = true.

(** [a] names what the last command but [post] returned. *)
Definition returned (st : slots) (v : list (option move_type)) (a : TransactionArgument) (st' : slots) : Prop :=
  ∃ pre post, st' = (st ++ pre) ++ v :: post ∧ a = Result (length (st ++ pre)) ∧ all_droppable pre ∧ all_droppable post.

Lemma all_droppable_app l k : all_droppable (l ++ k) ↔ all_droppable l ∧ all_droppable k.
Proof. unfold all_droppable. by rewrite forallb_app, andb_true_iff. Qed.

Lemma typed_pure_addresses st l (Q : list call_argument → slots → Prop) :
  (∀ el, forallb is_pure el = true → Q el st) → typed st (pure_addresses l) Q.
Proof.
  revert Q. induction l as [|m l IH]; intros Q HQ; cbn [pure_addresses]; [by apply typed_ret, HQ|].
  apply (typed_bind _ _ _ _ (λ a st', is_pure a = true ∧ st' = st)).
  { destruct (serialize _ _); [by apply typed_ret|by apply typed_throw]. }
  intros a ? [Ha ->]. apply (typed_bind _ _ _ _ (λ el st', forallb is_pure el = true ∧ st' = st)); [by apply IH|].
  intros el ? [Hel ->]. apply typed_ret, HQ. simpl. by rewrite Ha.
Qed.

Lemma typed_vecset st members : typed st (buildAddressVecSet members) (returned st [Some TyAddressSet]).
Proof.
  destruct members as [|m l]; unfold buildAddressVecSet.
  - eapply typed_command; [cbn [type_command]; erewrite (proj1 Hd) by (unfold relied_on; repeat first [apply list_elem_of_here | apply list_elem_of_further]); reflexivity|].
    exists [], []. rewrite !app_nil_r. by cbn.
  - apply (typed_bind _ _ _ _ (λ el st', forallb is_pure el = true ∧ st' = st)); [by apply typed_pure_addresses|].
    intros el ? [Hel ->]. apply (typed_bind _ _ _ _ (λ a st', a = Result (length st) ∧ st' = st ++ [[Some TyAddresses]])).
    { eapply typed_command; [|by split]. cbn [type_command]. by rewrite Hel. }
    intros a ? [-> ->]. eapply typed_command.
    { cbn [type_command]. erewrite (proj1 Hd) by (unfold relied_on; repeat first [apply list_elem_of_here | apply list_elem_of_further]).
      cbn [check_args]. rewrite check_take by (by apply held_here || apply not_elem_of_nil). rewrite taken_here. cbn. reflexivity. }
    exists [[None]], []. split; [by rewrite <- !app_assoc|]. by rewrite !length_app.
Qed.

Definition created_values : list (option move_type) := [Some TyGroup; Some TyHistory; Some TyLog].

(** [tx.add] of a creating call whose last object is the set of members. *)
Lemma typed_creating st a st' o :
  returned st [Some TyAddressSet] a st' →
  (∃ m f names types l params, o = bound (package config) m f types names (ObjectArgs l)
    ∧ signature (pk_latestPackageId config, js m, js f, []) = Some (params, [TyGroup; TyHistory; TyLog])
    ∧ length l = length names
    ∧ ∀ st'', held st' a = Some TyAddressSet → taken a st' = st'' → fits (ObjectArgs l) (Some (js <$> names)) types params 0 st' [] = Some st'') →
  typed st' (add o) (returned st created_values).
Proof.
  intros (pre & post & -> & -> & Hpre & Hpost) (m & f & names & types & l & params & -> & Hs & Hl & Hf).
  eapply typed_add; [exact Hs|exact Hl|apply Hf; [apply held_here|apply taken_here]|].
  exists (pre ++ [None] :: post), []. split; [by rewrite <- !app_assoc|]. split; [f_equal; rewrite !length_app; cbn; lia|].
  split; [|done]. by apply all_droppable_app.
Qed.

(** Whether the creation may call a function of the bindings only: no account is given. *)
Definition without_account (o : CreateGroupCallOptions) : Prop := truthy_str (cg_creatorMemoryAccountId o) = None.

Lemma typed_createGroup st o : (without_account o → bindings_declared) →
  typed st (createGroup config defaultThreshold policy env o) (returned st created_values).
Proof.
  intros Hb. unfold createGroup, generateGroupDEK.
  eapply typed_bind; [by apply (typed_encryption _ _ _ _ (λ _, (st =.)))|]. intros generated ? <-.
  eapply typed_bind; [apply typed_vecset|]. intros members st1 Hm.
  eapply typed_bind; [by apply (typed_memory _ _ _ _ (λ a st', st1 = st' ∧ (a = None → without_account o)))|].
  intros [account|] ? [<- Ho]; cbv zeta; apply (typed_creating _ _ _ _ Hm); eexists _, _, _, _, _, _;
    (split; [reflexivity|]; split; [first [relied Hd|bound_by (Hb (Ho eq_refl))]|]; split; [reflexivity|]);
    intros st2 Hh <-; run_fits; rewrite (check_take _ _ _ _ Hh) by apply not_elem_of_nil; reflexivity.
Qed.

Lemma typed_insertGroupData st x k v : held st x = Some TyGroup →
  typed st (GroupCalls.insertGroupData config (ByResult x) k v) (λ _ st', st' = st ++ [[]]).
Proof.
  intros Hx. eapply typed_add; [relied Hd|reflexivity|run_fits; rewrite (check_borrow _ _ _ _ Hx) by apply not_elem_of_nil; reflexivity|done].
Qed.

(** Values of a creation stay where they are when a call that returns nothing droppable is added. *)
Lemma returned_app st v a st' l : returned st v a st' → all_droppable l → returned st v a (st' ++ l).
Proof.
  intros (pre & post & -> & -> & ? & ?) ?. exists pre, (post ++ l). rewrite <- app_assoc. repeat split; [done|]. by apply all_droppable_app.
Qed.

Lemma returned_held st v a st' j t : returned st v a st' → v !! j = Some (Some t) → held st' (nth_result a j) = Some t.
Proof. intros (pre & post & -> & -> & ? & ?) Hv. by apply held_nth. Qed.

Lemma returned_taken st v a st' j : returned st v a st' → returned st (<[j := None]> v) a (taken (nth_result a j) st').
Proof. intros (pre & post & -> & -> & ? & ?). cbn [nth_result]. rewrite taken_nth. by exists pre, post. Qed.

Lemma typed_insert_entries st v a entries : ∀ st', returned st v a st' → v !! 0%nat = Some (Some TyGroup) →
  typed st' (insert_entries config (nth_result a 0) entries) (λ _, returned st v a).
Proof.
  induction entries as [|kv entries IH]; intros st' Hr Hv; cbn [insert_entries]; [by apply typed_ret|].
  eapply typed_bind; [apply typed_insertGroupData; by eapply returned_held|]. intros _ ? ->. apply IH; [|done]. by apply returned_app.
Qed.

(** Sharing one of the created values. *)
Lemma typed_share_object st v a st' j t name :
  signature (js "0x2", js "transfer", js "public_share_object", [name]) = Some ([PTake t], []) →
  returned st v a st' → v !! j = Some (Some t) →
  typed st' (command (share_object name (nth_result a j))) (λ _, returned st (<[j := None]> v) a).
Proof.
  intros Hs Hr Hv. eapply typed_command.
  - unfold share_object. cbn [type_command]. rewrite Hs. cbn [check_args].
    rewrite check_take by (by eapply returned_held || apply not_elem_of_nil). reflexivity.
  - apply returned_app; [|done]. by apply returned_taken.
Qed.

Lemma typed_share_created st a st' : returned st created_values a st' →
  typed st' (share_created groupName historyName logName a) (λ _ st'', ∃ new, st'' = st ++ new ∧ all_droppable new).
Proof.
  intros Hr. unfold share_created, shareGroup. cbn [sh_group sh_encryptionHistory sh_messageLog].
  eapply typed_bind; [eapply typed_share_object; [relied Hd|exact Hr|done]|]. intros ? st1 R1.
  eapply typed_bind; [eapply typed_share_object; [relied Hd|exact R1|done]|]. intros ? st2 R2.
  eapply typed_bind; [eapply typed_share_object; [relied Hd|exact R2|done]|]. intros ? st3 (pre & post & -> & _ & ? & ?).
  apply typed_ret. exists (pre ++ [None; None; None] :: post). rewrite <- app_assoc. split; [done|]. apply all_droppable_app. by split.
Qed.

(** A method's end: what it adds may be dropped. *)
Definition ended (st : slots) : unit → slots → Prop := λ _ st', ∃ new, st' = st ++ new ∧ all_droppable new.

Lemma ended_nil st l : all_droppable l → ended st tt (st ++ l).
Proof. intros Hl. by exists l. Qed.

Ltac shared_call := eapply typed_add; [relied Hd|reflexivity|run_fits; reflexivity|].

Lemma typed_createAndShareGroup st o : (without_account o → bindings_declared) →
  typed st (createAndShareGroup config defaultThreshold policy env groupName historyName logName o) (ended st).
Proof.
  intros Hb. unfold createAndShareGroup, generateGroupDEK.
  eapply typed_bind; [by apply (typed_encryption _ _ _ _ (λ _, (st =.)))|]. intros generated ? <-.
  apply (typed_bind _ _ _ _ (λ _, (st =.))).
  { destruct (cg_encryptName o); [by apply typed_sealGroupName|by apply typed_ret]. }
  intros name ? <-. eapply typed_bind; [by apply (typed_memory _ _ _ _ (λ a st', st = st' ∧ (a = None → without_account o)))|].
  intros account ? [<- Ho]. cbv zeta. destruct (is_nil (cg_groupData o)).
  - apply (typed_bind _ _ _ _ (λ _ st', st' = st ++ [[]])).
    { destruct account; (eapply typed_add; [first [relied Hd|bound_by (Hb (Ho eq_refl))]|reflexivity|run_fits; reflexivity|reflexivity]). }
    intros _ ? ->. by apply typed_ret, ended_nil.
  - eapply typed_bind; [apply typed_vecset|]. intros members st1 Hm. cbv zeta.
    apply (typed_bind _ _ _ _ (returned st created_values)).
    { apply (typed_creating _ _ _ _ Hm). destruct account; (eexists _, _, _, _, _, _; split; [reflexivity|]; split; [first [relied Hd|bound_by (Hb (Ho eq_refl))]|];
        split; [reflexivity|]; intros st2 Hh <-; run_fits; rewrite (check_take _ _ _ _ Hh) by apply not_elem_of_nil; reflexivity). }
    intros a st2 Ha. eapply typed_bind; [by eapply typed_insert_entries|]. intros ? st3 Ha3. by apply typed_share_created.
Qed.

(** The arguments of an agent creation, with the set of members the commands before returned. *)
Definition agent_arguments (o : CreateAgentGroupCallOptions) (st : slots) (args : list (jsstr * js_arg)) (st' : slots) : Prop :=
  ∃ a uuid dek, args = agent_args config o uuid dek (AArgument a) ∧ returned st [Some TyAddressSet] a st'.

Lemma typed_agentGroupArgs st o : typed st (agentGroupArgs config defaultThreshold policy env o) (agent_arguments o st).
Proof.
  unfold agentGroupArgs, generateGroupDEK. eapply typed_bind; [by apply (typed_encryption _ _ _ _ (λ _, (st =.)))|]. intros generated ? <-.
  eapply typed_bind; [apply typed_vecset|]. intros members st1 Hm. apply typed_ret. by exists members, generated.1, generated.2.
Qed.

Lemma typed_agent_call st o args st' (e2ee : option jsstr) : bindings_declared → agent_arguments o st args st' →
  typed st' (add (match e2ee with
                  | Some e => Contracts.createAgentGroupWithE2ee (package config) (ObjectArgs (args ++ [(js "e2ee", AString e)]))
                  | None => Contracts.createAgentGroup (package config) (ObjectArgs args)
                  end)) (returned st created_values).
Proof.
  intros Hb (a & uuid & dek & -> & Hm).
  destruct o as [? ? ? ? ? [[? [?|]]|]], e2ee; apply (typed_creating _ _ _ _ Hm); (eexists _, _, _, _, _, _; split; [reflexivity|];
    split; [bound_by Hb|]; split; [reflexivity|]; intros st2 Hh <-; run_fits; rewrite (check_take _ _ _ _ Hh) by apply not_elem_of_nil;
    reflexivity).
Qed.

Lemma typed_createAgentGroup st o : bindings_declared →
  typed st (createAgentGroup config defaultThreshold policy env o) (returned st created_values).
Proof.
  intros Hb. unfold createAgentGroup. eapply typed_bind; [apply typed_agentGroupArgs|]. intros args st1 Ha.
  pose proof (typed_agent_call _ _ _ _ (truthy_str (ag_e2ee o)) Hb Ha) as Ht. by destruct (truthy_str (ag_e2ee o)).
Qed.

Lemma typed_createAgentAndShareGroup st o : bindings_declared →
  typed st (createAgentAndShareGroup config defaultThreshold policy env groupName historyName logName o) (ended st).
Proof.
  intros Hb. unfold createAgentAndShareGroup, generateGroupDEK. destruct (truthy_str (ag_e2ee o)) as [e|].
  - eapply typed_bind; [apply typed_agentGroupArgs|]. intros args st1 Ha.
    eapply typed_bind; [exact (typed_agent_call _ _ _ _ (Some e) Hb Ha)|]. intros a st2 Hr. by apply typed_share_created.
  - eapply typed_bind; [by apply (typed_encryption _ _ _ _ (λ _, (st =.)))|]. intros generated ? <-.
    apply (typed_bind _ _ _ _ (λ _ st', st' = st ++ [[]])); [|intros _ ? ->; by apply typed_ret, ended_nil].
    destruct o as [? ? ? ? ? [[? [?|]]|]]; (eapply typed_add; [bound_by Hb|reflexivity|run_fits; reflexivity|reflexivity]).
Qed.

(** ** Calls on shared objects *)

Lemma typed_rotate_call st g h dek : typed st (rotate_call config g h dek) (λ _ st', st' = st ++ [[]]).
Proof. shared_call. reflexivity. Qed.

Lemma typed_remove_members st g l : typed st (remove_members removeMember g l) (ended st).
Proof.
  revert st. induction l as [|m l IH]; intros st; cbn [remove_members]; [apply typed_ret; exists []; by rewrite app_nil_r|].
  apply (typed_bind _ _ _ _ (λ _ st', st' = st ++ [[]])); [by eapply typed_command; [apply (proj2 Hd)|]|]. intros _ ? ->.
  eapply typed_weaken; [apply IH|]. intros ? ? (new & -> & Hn). exists ([] :: new). by rewrite <- app_assoc.
Qed.

Lemma typed_ended st (b : bld TransactionArgument) l : all_droppable l → typed st b (λ _ st', st' = st ++ l) →
  typed st (_ ← b; mret tt) (ended st).
Proof. intros Hl Hb. eapply typed_bind; [exact Hb|]. intros ? ? ->. by apply typed_ret, ended_nil. Qed.

(** The results a method is given are groups the transaction still holds. *)
Definition method_ok (st : slots) (m : tx_method) : Prop :=
  match m with
  | Leave (ByResult a) | InsertGroupData (ByResult a) _ _ => held st a = Some TyGroup
  | _ => True
  end.

(** The methods that may call a function which only the bindings declare. *)
Definition needs_bindings (m : tx_method) : Prop :=
  match m with
  | CreateAndShareGroup _ o => truthy_str (cg_creatorMemoryAccountId o) = None
  | CreateAgentAndShareGroup _ => True
  | _ => False
  end.

(** C7.  Transactions are well typed.  For every method of the transactions class and
    every option, if the method is added to a transaction whose commands type check,
    then either the commands it adds type check too and leave nothing behind that may
    not be dropped: every group, history and log it creates is borrowed by the calls
    that fill it in, and then shared exactly once, last, and what the transaction held
    before is as it was; or it throws, and not because an argument has the wrong name,
    number or kind for its binding.  Relied on are the signatures of the functions called.
    For the methods on existing groups and for creating a group
    with a given memory account they are those of the Move sources of this repository;
    creating an agent's group, or a group without a given account, needs functions
    that only the generated bindings declare, and the repository's Move
    sources declare otherwise or not at all. *)
Theorem transactions_typed m s r s' st :
  (needs_bindings m → bindings_declared) →
  type_commands signature (bd_commands s) = Some st → method_ok st m →
  add_method config defaultThreshold policy env groupName historyName logName removeMember m s = (r, s') →
  match r with
  | Ok _ => ∃ new, type_commands signature (bd_commands s') = Some (st ++ new) ∧ all_droppable new
  | Throw e => benign e
  end.
Proof.
  intros Hb Hs Hm Hr.
  assert (typed st (add_method config defaultThreshold policy env groupName historyName logName removeMember m) (ended st)) as Ht.
  - destruct m as [sender o|o|ref|ref members|g|g|g name|g k v|g k|g h|g]; cbn [add_method].
    + destruct (truthy_str sender); [by apply typed_createAndShareGroup|by apply typed_throw].
    + by apply typed_createAgentAndShareGroup, Hb.
    + apply (typed_ended _ _ [[]]); [done|]. unfold GroupCalls.rotateEncryptionKey, generateRotationDEK.
      eapply typed_bind; [by apply (typed_encryption _ _ _ _ (λ _, (st =.)))|]. intros generated ? <-. apply typed_rotate_call.
    + unfold GroupCalls.removeMembersAndRotateKey, generateRotationDEK, resolve_ref.
      apply (typed_bind _ _ _ _ (λ _, (st =.))); [destruct (resolveGroupRef _ _); [by apply typed_ret|by apply typed_throw]|].
      intros ids ? <-. eapply typed_bind; [apply typed_remove_members|]. intros ? ? (new & -> & Hn).
      eapply typed_bind; [by apply (typed_encryption _ _ _ _ (λ _, ((st ++ new) =.)))|]. intros generated ? <-.
      eapply typed_bind; [apply typed_rotate_call|]. intros _ ? ->. apply typed_ret. exists (new ++ [[]]).
      rewrite <- app_assoc. split; [done|]. by apply all_droppable_app.
    + apply (typed_ended _ _ [[]]); [done|]. shared_call. reflexivity.
    + apply (typed_ended _ _ [[]]); [done|]. destruct g as [g|a]; [shared_call; reflexivity|].
      eapply typed_add; [relied Hd|reflexivity|run_fits; rewrite (check_borrow _ _ _ _ Hm) by apply not_elem_of_nil; reflexivity|done].
    + apply (typed_ended _ _ [[]]); [done|]. shared_call. reflexivity.
    + apply (typed_ended _ _ [[]]); [done|]. destruct g as [g|a]; [shared_call; reflexivity|by apply typed_insertGroupData].
    + apply (typed_ended _ _ [[Some TyString; Some TyString]]); [done|]. shared_call. reflexivity.
    + apply (typed_ended _ _ [[]]); [done|]. shared_call. reflexivity.
    + apply (typed_ended _ _ [[]]); [done|]. shared_call. reflexivity.
  - specialize (Ht _ _ _ Hs Hr). destruct r as [[]|]; [|done]. by destruct Ht as (st' & ? & new & -> & ?); exists new.
Qed.
End methods.

(** * Witness *)

(** [plain_lib] with ids that are addresses. *)
Definition address_lib : EncryptionLib := {|
  error := unit; NoAccessError _ := true; Session := jsstr * jsstr; getAddress := fst; getPackageId := snd;
  object_id b := Ok (Anchors.hexOf b); fromHex := hex_bytes; toHex := Anchors.hexOf;
  mydata_encrypt _ _ _ d := Ok d; mydata_decrypt e _ _ := Ok e;
  Thunk := unit; Encryption.moveCall _ := tt; mydataApproveReader _ _ _ _ _ := tt; build_tx _ _ := Ok [];
  aesGcmEncrypt k m n a := Ok (m ++ k); aesGcmDecrypt k c n a := Ok (take (length c - length k) c);
  deriveObjectID _ _ _ := toy_group; bcs_string u := u |}.

Definition plain_serialize : PureBcs := {| serialize t a :=
  match a with
  | AString s => Some s | ANumber n => Some [n] | ABool b => Some [if b then 1 else 0] | ANull => Some [0]
  | ANumbers l => Some l | AStrings l => Some (mjoin l) | AUndefined | AArgument _ => None
  end |}.

Definition remove_call (g m : jsstr) : Command := MoveCall (js "groups") (js "group") (js "remove_member") [] [ObjectId g; Pure m].

Definition sample_stack : StackConfig := {|
  pk_originalPackageId := js "0xe110"; pk_latestPackageId := js "0xe110"; pk_namespaceId := js "0x2"; pk_versionId := js "0x3";
  pk_blockListRegistryId := js "0x4"; pk_socialGraphId := js "0x5"; pk_memoryRegistryId := js "0x6"; pk_memoryConfigId := js "0x7";
  pk_messagingConfigId := js "0x8"; pk_ecosystemTreasuryId := js "0x9" |}.

(** ** The repository's Move package, and the bindings'

    [move_signature] has what the Move sources of this repository declare, and the
    framework and groups calls; [sample_signature] what the bindings declare. *)
#[local] Notation table_of l := (λ t : target, snd <$> head (filter (λ e : target * (list param * list move_type), e.1 = t) l)).

Definition relied_table := relied_on (js "0xe110") (js "Group") (js "History") (js "Log").
Definition outside_table : list (target * (list param * list move_type)) :=
  drop 11 relied_table ++ [((js "groups", js "group", js "remove_member", []), ([PBorrow TyGroup; PPure], []))].

Definition move_signature : signature_table := table_of (repository_move (js "0xe110") ++ outside_table).
Definition sample_signature : signature_table := table_of (relied_table ++ bindings_only (js "0xe110") ++ outside_table).

(** What is relied on, the Move sources declare; of what the bindings add, nothing. *)
Lemma repository_declares : Forall (λ e, move_signature e.1 = Some e.2) relied_table
  ∧ Forall (λ e, move_signature e.1 ≠ Some e.2) (bindings_only (js "0xe110")).
Proof. split; repeat constructor; vm_compute; first [reflexivity|discriminate]. Qed.

Lemma move_declared : declared sample_stack (js "Group") (js "History") (js "Log") remove_call move_signature.
Proof.
  split; [|done]. intros t s Hin. by apply (proj1 (Forall_forall _ _) (proj1 repository_declares)) in Hin.
Qed.

Lemma sample_declared : declared sample_stack (js "Group") (js "History") (js "Log") remove_call sample_signature.
Proof.
  split; [|done]. assert (Forall (λ e, sample_signature e.1 = Some e.2) relied_table) as Hf by (repeat constructor; vm_compute; reflexivity).
  intros t s Hin. by apply (proj1 (Forall_forall _ _) Hf) in Hin.
Qed.

Lemma sample_bindings : bindings_declared sample_stack sample_signature.
Proof.
  assert (Forall (λ e, sample_signature e.1 = Some e.2) (bindings_only (js "0xe110"))) as Hf by (repeat constructor; vm_compute; reflexivity).
  intros t s Hin. by apply (proj1 (Forall_forall _ _) Hf) in Hin.
Qed.

#[local] Existing Instance plain_bcs.
#[local] Instance address_cache : @DekCache address_lib := {|
  cache := list (list jsstr * bytes); holds := assoc;
  cache_read k l c := match assoc k c, l with Some v, _ => (Ok v, c) | None, Ok v => (Ok v, (k, v) :: c) | None, Throw e => (Throw e, c) end;
  cache_clear p c := [] |}.

Definition sample_build (account : option jsstr) : nat → @build_step address_lib := λ _, {|
  bs_uuid := js "uuid"; bs_key := [9]; bs_nonce := [1]; bs_view := {| getCurrentKeyVersion _ := Ok 3; encryptedKey _ v := Ok [v] |};
  bs_session := Ok (js "0xa", js "0x1") : outcome (@error address_lib) (@Session address_lib); bs_memoryAccount := Some account |}.

Definition sample_policy : @MyDataPolicy address_lib unit := @DefaultMyDataPolicy address_lib (js "0x1") (js "0x1") (js "0x5").

Definition sample_method (m : tx_method) : outcome call_error unit * building :=
  @add_method ascii_text address_lib plain_bcs address_cache plain_serialize unit sample_stack 1 sample_policy (sample_build None)
    (js "Group") (js "History") (js "Log") remove_call m (@Building address_lib address_cache [] 0 []).

Definition sealed_group : CreateGroupCallOptions := {|
  cg_uuid := None; cg_creatorMemoryAccountId := Some (js "0xacc"); cg_name := js "Team"; cg_encryptName := true;
  cg_groupData := [(js "e2ee", js "mls1"); (js "k", js "v")]; cg_initialMembers := [js "0xa"; js "0xb"] |}.

Definition sealed_run : outcome call_error unit * building := sample_method (CreateAndShareGroup (Some (js "0xa")) sealed_group).

(** A sealed group with metadata and two members, created for a given memory account in
    one transaction of eight commands: it types against the repository's Move sources. *)
Lemma transactions_typed_witness :
  sealed_run.1 = Ok tt ∧ length (bd_commands sealed_run.2) = 8%nat ∧ well_typed move_signature (bd_commands sealed_run.2) = true.
Proof.
  assert (sealed_run.1 = Ok tt) as Er by (vm_compute; reflexivity).
  split; [exact Er|]. split; [vm_compute; reflexivity|].
  assert (needs_bindings (CreateAndShareGroup (Some (js "0xa")) sealed_group) → bindings_declared sample_stack move_signature) as Hb
    by (intros Hn; discriminate Hn).
  pose proof (@transactions_typed ascii_text address_lib plain_bcs address_cache plain_serialize unit sample_stack 1 sample_policy
    (sample_build None) (js "Group") (js "History") (js "Log") remove_call move_signature move_declared
    (CreateAndShareGroup (Some (js "0xa")) sealed_group) (@Building address_lib address_cache [] 0 []) sealed_run.1 sealed_run.2 []
    Hb eq_refl I (surjective_pairing _)) as Ht.
  rewrite Er in Ht. destruct Ht as (new & Ht & Hn). unfold well_typed. rewrite Ht. exact Hn.
Defined.

(** The same options without an account (and none on chain), and an agent's group: the
    transactions built type against the bindings, and not against the repository's Move
    sources, which have no such function, or one that takes fewer arguments. *)
Definition walletless : CreateGroupCallOptions := {|
  cg_uuid := None; cg_creatorMemoryAccountId := None; cg_name := js "Team"; cg_encryptName := false;
  cg_groupData := []; cg_initialMembers := [js "0xa"] |}.

Definition agent_group : CreateAgentGroupCallOptions := {|
  ag_common := walletless; ag_e2ee := None; ag_platformId := js "0xf"; ag_creatorMemoryAccountId := js "0xacc";
  ag_crossPrincipalPeerMemoryAccountId := js "0xacc"; ag_room := None |}.

Lemma move_rejects : Forall (λ m, (sample_method m).1 = Ok tt
    ∧ well_typed sample_signature (bd_commands (sample_method m).2) = true
    ∧ well_typed move_signature (bd_commands (sample_method m).2) = false)
  [CreateAndShareGroup (Some (js "0xa")) walletless; CreateAgentAndShareGroup agent_group].
Proof. repeat constructor; vm_compute; reflexivity. Qed.
