(* ===== verification/GroupCallProps.v ===== *)
(** What the group transactions do ([call.ts]): removing members rotates the key in
    the same transaction; a group name sealed at creation opens under the key the
    transaction publishes; and the composed creation, which stores the name in clear. *)
From S2P Require Import Prelude JsString JsMap Utf8 Base64 GroupName Aad Encryption Contracts GroupCalls TransactionTypes.

(** Runs a binding on its options, up to the serialisations. *)
Ltac run_binding E := lazy -[serialize] in E.

Section props.
Context `{JsText} `{EncryptionLib} `{MySoBcs} `{!DekCache} `{PureBcs} {Ctx : Type}.
Context (config : StackConfig) (defaultThreshold : Z) (policy : MyDataPolicy Ctx) (env : nat → build_step).
Context (groupName historyName logName : jsstr).

#[local] Notation pkg := (pk_latestPackageId config).
#[local] Notation derived := (derive_config config).

(** What a call of [messaging] puts in the transaction. *)
Definition messaging_call (f : string) (args : list call_argument) : Command := MoveCall pkg (js "messaging") (js f) [] args.

(** [encryption] leaves the commands alone. *)
Lemma encryption_ok {A} (f : build_step → eff cache enc_error A) s a s' : GroupCalls.encryption env f s = (Ok a, s') →
  f (env (bd_turn s)) (bd_cache s) = (Ok a, bd_cache s') ∧ bd_commands s' = bd_commands s ∧ bd_turn s' = S (bd_turn s).
Proof. unfold GroupCalls.encryption. destruct (f _ _) as [[b|e] c]; intros E; by simplify_eq. Qed.

Lemma add_ok o s a s' : add o s = (Ok a, s') →
  ∃ c, o = Ok c ∧ s' = Building (bd_commands s ++ [c]) (bd_turn s) (bd_cache s) ∧ a = Result (length (bd_commands s)).
Proof. destruct o as [c|e]; [|done]. cbn. intros [= <- <-]. by exists c. Qed.

(** The arguments of a rotation. *)
Lemma rotate_call_ok g h dek s a s' : rotate_call config g h dek s = (Ok a, s') →
  ∃ b, serialize (BVector U8) (ANumbers dek) = Some b
    ∧ bd_commands s' = bd_commands s ++ [messaging_call "rotate_encryption_key" [ObjectId (pk_versionId config); ObjectId h; ObjectId g; Pure b]].
Proof.
  unfold rotate_call. intros (c & Ec & -> & _)%add_ok. cbn [bd_commands].
  run_binding Ec. destruct (serialize (BVector U8) (ANumbers dek)) as [b|]; [|done]. injection Ec as <-. by exists b.
Qed.

Lemma remove_members_run removeMember g l : ∀ s, remove_members removeMember g l s
  = (Ok tt, Building (bd_commands s ++ (removeMember g <$> l)) (bd_turn s) (bd_cache s)).
Proof.
  induction l as [|m l IH]; intros s; cbn [remove_members]; [destruct s; cbn; by rewrite app_nil_r|].
  unfold mbind, eff_bind, command. rewrite IH. cbn. by rewrite <- app_assoc.
Qed.

(** Where a rotation's key comes from. *)
Lemma rotation_key_ok (step : build_step) g h c x c' :
  Encryption.generateRotationDEK derived defaultThreshold policy (bs_view step) (IdsRef g h) (bs_key step) c = (Ok x, c') →
  x.1.2 = g ∧ x.2 = h ∧ ∃ version ident, getCurrentKeyVersion (bs_view step) h = Ok version ∧ encodeIdentity g (version + 1) = Some ident
    ∧ mydata_encrypt defaultThreshold (packageId policy) (toHex ident) (bs_key step) = Ok (encryptedDek x.1.1).
Proof.
  unfold Encryption.generateRotationDEK. intros ([g' h'] & c1 & Er & E)%bind_ok_inv. injection Er as <- <- <-.
  apply bind_ok_inv in E as (version & c2 & Ev & E). apply lib_ok in Ev as [Ev ->].
  apply bind_ok_inv in E as (d & c3 & Ed & E). injection E as <- _. split; [done|]. split; [done|]. exists version.
  unfold generateDEK, dekManager_generateDEK in Ed. apply bind_ok_inv in Ed as (d1 & c4 & Ed & Ep).
  apply bind_ok_inv in Ep as (? & ? & _ & Ep). injection Ep as <- _.
  apply bind_ok_inv in Ed as (ident & c5 & Ei & Ed). apply bind_ok_inv in Ed as (o & c6 & Eo & Ed). injection Ed as <- _.
  apply lib_ok in Eo as [Eo ->]. exists ident. split; [done|]. unfold lift in Ei. cbn [default] in Ei.
  destruct (encodeIdentity _ _) as [i|]; [|done]. by injection Ei as <- _.
Qed.

(** C6.  Removal rotates the key.  A transaction that removes members holds a removal
    for each of them, in order, followed by exactly one rotation of the history of that
    same group, and nothing else; and the key it publishes is the one generated for it,
    fresh, wrapped for the identity of the group at the version after the current one.
    When the key cannot be generated the whole builder throws, so no transaction removes
    members and leaves their key in use. *)
Theorem removal_rotates (removeMember : jsstr → jsstr → Command) ref members s r s' :
  removeMembersAndRotateKey config defaultThreshold policy env removeMember ref members s = (r, s') →
  match r with
  | Ok _ => ∃ g h log wrapped b version ident step,
      resolveGroupRef derived ref = Some (g, h, log)
      ∧ bd_commands s' = bd_commands s ++ (removeMember g <$> members)
          ++ [messaging_call "rotate_encryption_key" [ObjectId (pk_versionId config); ObjectId h; ObjectId g; Pure b]]
      ∧ serialize (BVector U8) (ANumbers wrapped) = Some b
      ∧ step = env (bd_turn s) ∧ getCurrentKeyVersion (bs_view step) h = Ok version ∧ encodeIdentity g (version + 1) = Some ident
      ∧ mydata_encrypt defaultThreshold (packageId policy) (toHex ident) (bs_key step) = Ok wrapped
  | Throw e => match e with
               | GroupRefUndefined => resolveGroupRef derived ref = None
               | CallCrypto _ | CallBinding SerializeFailed => True
               | _ => False
               end
  end.
Proof.
  unfold removeMembersAndRotateKey, resolve_ref. destruct (resolveGroupRef derived ref) as [[[g h] log]|] eqn:Eg; [|by intros [= <- _]].
  unfold mbind at 1, eff_bind at 1. cbn [mret eff_ret fst snd]. unfold mbind at 1, eff_bind at 1. rewrite remove_members_run.
  set (s1 := Building _ _ _). unfold mbind at 1, eff_bind at 1.
  destruct (GroupCalls.generateRotationDEK _ _ _ _ _ s1) as [[x|e] s2] eqn:Ek; cycle 1.
  { intros [= <- _]. unfold GroupCalls.generateRotationDEK, GroupCalls.encryption in Ek. destruct (Encryption.generateRotationDEK _ _ _ _ _ _ _) as [[?|?] ?]; [done|].
    by injection Ek as <- _. }
  unfold GroupCalls.generateRotationDEK in Ek. apply encryption_ok in Ek as (Ek & Ec & _). change (bd_turn s1) with (bd_turn s) in Ek.
  apply rotation_key_ok in Ek as (_ & _ & version & ident & Ev & Ei & Em).
  unfold mbind, eff_bind. destruct (rotate_call config g h (encryptedDek x.1.1) s2) as [[a|e] s3] eqn:Er.
  - intros [= <- <-]. apply rotate_call_ok in Er as (b & Eb & Es). exists g, h, log, (encryptedDek x.1.1), b, version, ident, (env (bd_turn s)).
    rewrite Es, Ec. cbn [bd_commands s1]. rewrite <- app_assoc. by repeat split.
  - intros [= <- _]. unfold rotate_call in Er. unfold Contracts.rotateEncryptionKey, bound in Er.
    run_binding Er. destruct (serialize _ _); [done|]. by injection Er as <- _.
Qed.

(** ** Names *)

(** A command creates a group with this name and uuid, and publishes this wrapped key. *)
Definition creates (name uuid : jsstr) (dek : bytes) (c : Command) : Prop :=
  ∃ f objects rest n u d, c = messaging_call f (objects ++ Pure n :: Pure u :: Pure d :: rest)
    ∧ f ∈ ["create_group"; "create_wallet_group"; "create_and_share_group"; "create_and_share_wallet_group"]%string
    ∧ serialize BString (AString name) = Some n ∧ serialize BString (AString uuid) = Some u
    ∧ serialize (BVector U8) (ANumbers dek) = Some d.

(** Closes a binding's case: its name, uuid and key are serialised in turn. *)
Ltac creates_case E name uuid dek f objects :=
  run_binding E;
  let n := fresh "n" in let u := fresh "u" in let d := fresh "d" in
  destruct (serialize BString (AString name)) as [n|] eqn:?; [|done]; destruct (serialize BString (AString uuid)) as [u|] eqn:?; [|done];
  destruct (serialize (BVector U8) (ANumbers dek)) as [d|] eqn:?; [|done];
  try (destruct (serialize (BVector Address) _); [|done]); injection E as <-;
  eexists f, objects, _, n, u, d; split; [reflexivity|]; split; [set_solver|done].

(** The bindings [createGroup] and [createAndShareGroup] use, for their options. *)
Lemma creates_composed name uuid dek account members c :
  match account with
  | Some a => Contracts.createGroup (package config) (ObjectArgs (commonArgs config name uuid dek
                ++ [(js "creatorMemoryAccount", AString a); (js "initialMembers", AArgument members)]))
  | None => Contracts.createWalletGroup (package config) (ObjectArgs (commonArgs config name uuid dek ++ [(js "initialMembers", AArgument members)]))
  end = Ok c → creates name uuid dek c.
Proof.
  destruct account as [a|]; intros E;
    [creates_case E name uuid dek "create_group"%string [ObjectId (pk_versionId config); ObjectId (pk_namespaceId config);
       ObjectId (groupManagerId config); ObjectId (pk_blockListRegistryId config); ObjectId a]|
     creates_case E name uuid dek "create_wallet_group"%string [ObjectId (pk_versionId config); ObjectId (pk_namespaceId config);
       ObjectId (groupManagerId config); ObjectId (pk_blockListRegistryId config)]].
Qed.

Lemma creates_with_data name uuid dek account members c :
  match account with
  | Some a => Contracts.createGroup (package config) (ObjectArgs ((commonArgs config name uuid dek ++ [(js "initialMembers", AArgument members)])
                ++ [(js "creatorMemoryAccount", AString a)]))
  | None => Contracts.createWalletGroup (package config) (ObjectArgs (commonArgs config name uuid dek ++ [(js "initialMembers", AArgument members)]))
  end = Ok c → creates name uuid dek c.
Proof.
  destruct account as [a|]; intros E;
    [creates_case E name uuid dek "create_group"%string [ObjectId (pk_versionId config); ObjectId (pk_namespaceId config);
       ObjectId (groupManagerId config); ObjectId (pk_blockListRegistryId config); ObjectId a]|
     creates_case E name uuid dek "create_wallet_group"%string [ObjectId (pk_versionId config); ObjectId (pk_namespaceId config);
       ObjectId (groupManagerId config); ObjectId (pk_blockListRegistryId config)]].
Qed.

Lemma creates_shared name uuid dek account members c :
  match account with
  | Some a => Contracts.createAndShareGroup (package config) (ObjectArgs ((commonArgs config name uuid dek ++ [(js "initialMembers", AStrings members)])
                ++ [(js "creatorMemoryAccount", AString a)]))
  | None => Contracts.createAndShareWalletGroup (package config) (ObjectArgs (commonArgs config name uuid dek ++ [(js "initialMembers", AStrings members)]))
  end = Ok c → creates name uuid dek c.
Proof.
  destruct account as [a|]; intros E;
    [creates_case E name uuid dek "create_and_share_group"%string [ObjectId (pk_versionId config); ObjectId (pk_namespaceId config);
       ObjectId (groupManagerId config); ObjectId (pk_blockListRegistryId config); ObjectId a]|
     creates_case E name uuid dek "create_and_share_wallet_group"%string [ObjectId (pk_versionId config); ObjectId (pk_namespaceId config);
       ObjectId (groupManagerId config); ObjectId (pk_blockListRegistryId config)]].
Qed.

(** Later calls only append. *)
Lemma insert_entries_appends x entries : ∀ s u s', insert_entries config x entries s = (Ok u, s') → bd_commands s `prefix_of` bd_commands s'.
Proof.
  induction entries as [|kv entries IH]; intros s u s'; cbn [insert_entries]; [by intros [= _ <-]|].
  intros (a & s1 & Ea & E)%bind_ok_inv. apply IH in E. apply add_ok in Ea as (c & _ & -> & _). etrans; [|exact E]. by exists [c].
Qed.

Lemma share_created_appends a s u s' : share_created groupName historyName logName a s = (Ok u, s') → bd_commands s `prefix_of` bd_commands s'.
Proof. unfold share_created, shareGroup. cbn. intros [= _ <-]. cbn [bd_commands]. rewrite <- !app_assoc. by eexists. Qed.

Lemma memory_ok o s a s' : resolveCreatorMemoryAccountId env o s = (Ok a, s') → bd_commands s' = bd_commands s ∧ bd_cache s' = bd_cache s.
Proof. unfold resolveCreatorMemoryAccountId. destruct (truthy_str _); [by intros [= _ <-]|]. destruct (bs_memoryAccount _); by intros [= _ <-]. Qed.

(** The key a creation generates. *)
Lemma created_key_ok (step : build_step) uuid c x c' :
  Encryption.generateGroupDEK derived defaultThreshold policy uuid (bs_uuid step) (bs_key step) c = (Ok x, c') →
  x.1 = default (bs_uuid step) uuid
  ∧ (∃ ident, encodeIdentity (groupId derived x.1) 0 = Some ident
      ∧ mydata_encrypt defaultThreshold (packageId policy) (toHex ident) (bs_key step) = Ok x.2)
  ∧ c' = (cache_read (dek_path (groupId derived x.1) 0) (Ok (bs_key step)) c).2.
Proof.
  unfold Encryption.generateGroupDEK. cbv zeta. intros (d & c1 & Ed & E)%bind_ok_inv. injection E as <- <-. split; [done|].
  unfold generateDEK, dekManager_generateDEK in Ed. apply bind_ok_inv in Ed as (d1 & c2 & Ed & Ep).
  apply bind_ok_inv in Ed as (ident & c3 & Ei & Ed). apply bind_ok_inv in Ed as (o & c4 & Eo & Ed). injection Ed as <- <-.
  apply lib_ok in Eo as [Eo ->]. unfold lift in Ei. cbn [default] in Ei. destruct (encodeIdentity _ _) as [i|] eqn:Ee; [|done].
  injection Ei as <- <-. apply bind_ok_inv in Ep as ([] & c5 & Ep & E). injection E as <- <-. cbn [fst snd dek encryptedDek] in *.
  split; [by exists i|]. unfold putDEK in Ep. apply bind_ok_inv in Ep as (k & c6 & Ek & E). injection E as <-. exact (eq_sym (f_equal snd Ek)).
Qed.

(** ** A creation's name, key and commands *)

Lemma createAndShareGroup_parts o s s' :
  createAndShareGroup config defaultThreshold policy env groupName historyName logName o s = (Ok tt, s') →
  ∃ uuid wrapped name c s1, c ∈ bd_commands s' ∧ creates name uuid wrapped c
    ∧ generateGroupDEK config defaultThreshold policy env (cg_uuid o) s = (Ok (uuid, wrapped), s1)
    ∧ if cg_encryptName o then ∃ s2, sealGroupName config policy env uuid (cg_name o) s1 = (Ok name, s2) else name = cg_name o.
Proof.
  unfold createAndShareGroup. intros ([uuid wrapped] & s1 & Eg & E)%bind_ok_inv.
  apply bind_ok_inv in E as (name & s2 & En & E). apply bind_ok_inv in E as (account & s3 & _ & E). cbv zeta in E. cbn [fst snd] in *.
  assert (if cg_encryptName o then ∃ s2, sealGroupName config policy env uuid (cg_name o) s1 = (Ok name, s2) else name = cg_name o) as Hname.
  { destruct (cg_encryptName o); [by exists s2|]. by injection En as <- _. }
  destruct (is_nil (cg_groupData o)).
  - apply bind_ok_inv in E as (a & s4 & Ea & E). injection E as <-. apply add_ok in Ea as (c & Ec & -> & _).
    exists uuid, wrapped, name, c, s1. split; [cbn [bd_commands]; set_solver|]. split; [by eapply creates_shared|]. by split.
  - apply bind_ok_inv in E as (members & s4 & _ & E). apply bind_ok_inv in E as (a & s5 & Ea & E).
    apply add_ok in Ea as (c & Ec & -> & _). apply bind_ok_inv in E as (u & s6 & Ei & E).
    apply insert_entries_appends in Ei. apply share_created_appends in E. cbn [bd_commands] in Ei.
    exists uuid, wrapped, name, c, s1. split; [|split; [by eapply creates_with_data|by split]].
    eapply elem_of_prefix; [|exact E]. eapply elem_of_prefix; [|exact Ei]. set_solver.
Qed.

(** The composed creation stores the name it is given, whatever [encryptName] says:
    [createGroup] reads neither [encryptName] nor [groupData]. *)
Lemma composed_name_in_clear o s a s' : createGroup config defaultThreshold policy env o s = (Ok a, s') →
  ∃ uuid wrapped c, last (bd_commands s') = Some c ∧ creates (cg_name o) uuid wrapped c.
Proof.
  unfold createGroup. intros ([uuid wrapped] & s1 & _ & E)%bind_ok_inv.
  apply bind_ok_inv in E as (members & s2 & _ & E). apply bind_ok_inv in E as (account & s3 & _ & E). cbv zeta in E. cbn [fst snd] in E.
  exists uuid, wrapped. destruct account as [x|]; apply add_ok in E as (c & Ec & -> & _); exists c; (split; [apply last_snoc|]);
    [exact (creates_composed _ _ _ (Some x) _ _ Ec)|exact (creates_composed _ _ _ None _ _ Ec)].
Qed.
End props.

Section sealing.
Context `{JsText} `{EncryptionLaws} `{MySoBcs} `{!DekCache} `{!DekCacheLaws} `{PureBcs} {Ctx : Type}.
Context (config : StackConfig) (defaultThreshold : Z) (policy : MyDataPolicy Ctx) (env : nat → build_step).
Context (groupName historyName logName : jsstr).

#[local] Notation derived := (derive_config config).

(** A name sealed after its group's key was generated is sealed under that key. *)
Lemma sealed_under_key uuid name s1 n s2 key : holds (dek_path (groupId derived uuid) 0) (bd_cache s1) = Some key →
  sealGroupName config policy env uuid name s1 = (Ok n, s2) →
  ∃ nonce ct padded, n = formatEncryptedGroupName 0 nonce ct ∧ padGroupName name = Some padded
    ∧ aesGcmDecrypt key ct nonce (Some (groupNameAad (groupId derived uuid))) = Ok padded.
Proof.
  intros Hk. unfold sealGroupName. cbv zeta. intros (padded & s3 & Ep & E)%bind_ok_inv.
  destruct (padGroupName name) as [p|] eqn:En; [|done]. injection Ep as <- <-.
  apply bind_ok_inv in E as (sealed & s4 & Es & E). injection E as <- _. apply encryption_ok in Es as (Es & _ & _).
  apply encrypt_parts in Es as (g & h & m & ss & d & Eg & _ & Ed & Ec & En' & _ & Ev & _). specialize (Ev 0 eq_refl). rewrite Ev in Ed.
  cbn [resolveGroupRef] in Eg. destruct (is_nil uuid); [done|]. injection Eg as <- <- _.
  apply resolveDEK_cases in Ed as [(? & _ & _ & ? & _)|[_ Hd]]; [done|]. specialize (Hd d eq_refl). rewrite (read_hit _ _ _ _ Hk) in Hd.
  injection Hd as <-. exists (nonce sealed), (ciphertext sealed), p. rewrite <- En' in Ec. split; [done|]. split; [done|]. by eapply aes_inverse.
Qed.

(** C12.  A sealed group name opens.  A call that creates a group with [encryptName]
    and a uuid whose group has no cached key yet, and returns, creates it, in the transaction built, under a name of
    the stored form [enc:v1:0:...] together with its own wrapped key, version 0:
    decrypting the name's ciphertext with the key that was wrapped, its nonce and
    the group's name AAD, and dropping the padding, gives the NFC form of the name
    asked for, when that form is well-formed UTF-16 that neither starts with
    U+FEFF (which the decoder drops) nor ends with NUL (which is taken for
    padding). *)
Theorem sealed_name_opens o s s' :
  let uuid := default (bs_uuid (env (bd_turn s))) (cg_uuid o) in
  let key := bs_key (env (bd_turn s)) in
  cg_encryptName o = true → name_ok (normalizeNFC (cg_name o)) → holds (dek_path (groupId derived uuid) 0) (bd_cache s) = None →
  createAndShareGroup config defaultThreshold policy env groupName historyName logName o s = (Ok tt, s') →
  ∃ c nonce ct padded ident wrapped, c ∈ bd_commands s'
    ∧ creates config (formatEncryptedGroupName 0 nonce ct) uuid wrapped c
    ∧ encodeIdentity (groupId derived uuid) 0 = Some ident
    ∧ mydata_encrypt defaultThreshold (packageId policy) (toHex ident) key = Ok wrapped
    ∧ aesGcmDecrypt key ct nonce (Some (groupNameAad (groupId derived uuid))) = Ok padded
    ∧ unpadGroupName padded = Some (normalizeNFC (cg_name o)).
Proof.
  intros uuid key He Hn Hh E. apply createAndShareGroup_parts in E as (u & wrapped & name & c & s1 & Hin & Hc & Eg & Es).
  rewrite He in Es. destruct Es as (s2 & Es). unfold GroupCalls.generateGroupDEK in Eg. apply encryption_ok in Eg as (Eg & _ & _).
  apply created_key_ok in Eg as (Eu & (ident & Ei & Em) & Ec). cbn [fst snd] in *. fold uuid in Eu. subst u. fold key in Em, Ec.
  assert (holds (dek_path (groupId derived uuid) 0) (bd_cache s1) = Some key) as Hk by (rewrite Ec; by apply read_stores).
  destruct (sealed_under_key _ _ _ _ _ _ Hk Es) as (nonce & ct & padded & -> & Ep & Ed).
  exists c, nonce, ct, padded, ident, wrapped. split_and!; try done.
  by apply (group_name_padding (cg_name o)).
Qed.
End sealing.

(** * Witnesses *)

#[local] Instance address_laws : @EncryptionLaws address_lib.
Proof.
  refine (@Build_EncryptionLaws address_lib Some _ _).
  - intros e s tx d. simpl. by intros [= ->].
  - intros k m n a c. simpl. intros [= <-]. rewrite length_app, Nat.add_sub. by rewrite take_app_length.
Defined.

Lemma address_cache_laws : @DekCacheLaws address_lib address_cache.
Proof.
  split; simpl.
  - intros k l c v ->. done.
  - intros k l c v E. by rewrite E.
  - intros k l c E. rewrite E. by destruct l.
  - intros k c v E. rewrite E. simpl. by rewrite bool_decide_eq_true_2.
  - intros k k' l c v. destruct (assoc k c), l as [x|]; simpl; auto.
    destruct (bool_decide (k = k')) eqn:E; [|by left]. apply bool_decide_eq_true in E as ->. intros [= ->]. by right.
  - done.
Qed.

Definition empty_building : @building address_lib address_cache := @Building address_lib address_cache [] 0 [].

Definition sealing_run : outcome call_error unit * building :=
  @createAndShareGroup ascii_text address_lib plain_bcs address_cache plain_serialize unit sample_stack 1 sample_policy (sample_build None)
    (js "Group") (js "History") (js "Log") sealed_group empty_building.

Lemma sealed_name_opens_witness :
  sealing_run.1 = Ok tt
  ∧ ∃ c nonce ct padded, c ∈ bd_commands sealing_run.2
      ∧ @aesGcmDecrypt address_lib [9] ct nonce (Some (@groupNameAad ascii_text toy_group)) = Ok padded
      ∧ unpadGroupName padded = Some (js "Team").
Proof.
  assert (sealing_run.1 = Ok tt) as Er by (vm_compute; reflexivity). split; [exact Er|].
  destruct (@sealed_name_opens ascii_text address_lib address_laws plain_bcs address_cache address_cache_laws plain_serialize unit sample_stack 1
    sample_policy (sample_build None) (js "Group") (js "History") (js "Log") sealed_group empty_building sealing_run.2)
    as (c & nonce & ct & padded & ident & wrapped & Hc & _ & _ & _ & Hd & Hu).
  - reflexivity.
  - vm_compute. split_and!; (discriminate || reflexivity || (repeat constructor; discriminate)).
  - reflexivity.
  - rewrite <- Er. apply surjective_pairing.
  - exists c, nonce, ct, padded. split; [exact Hc|]. split; [exact Hd|exact Hu].
Defined.

Definition removal_run : outcome call_error unit * building :=
  @removeMembersAndRotateKey address_lib plain_bcs address_cache plain_serialize unit sample_stack 1 sample_policy (sample_build None)
    remove_call (UuidRef (js "room")) [js "0xa"; js "0xb"] empty_building.

(** Two members removed and the key rotated, in three commands. *)
Lemma removal_rotates_witness : removal_run.1 = Ok tt ∧ length (bd_commands removal_run.2) = 3%nat.
Proof.
  assert (removal_run.1 = Ok tt) as Er by (vm_compute; reflexivity). split; [exact Er|].
  pose proof (@removal_rotates address_lib plain_bcs address_cache plain_serialize unit sample_stack 1 sample_policy (sample_build None)
    remove_call (UuidRef (js "room")) [js "0xa"; js "0xb"] empty_building removal_run.1 removal_run.2 (surjective_pairing _)) as Hr.
  rewrite Er in Hr. destruct Hr as (g & h & log & w & b & v & i & step & _ & Hc & _). rewrite Hc. reflexivity.
Defined.
