(* ===== verification/PaidMessaging.v ===== *)
(** Paid direct messages ([paid-messaging.ts], [gating.ts]): the off-chain policy
    check, the transactions that open a paid conversation, pay, claim and refund an
    escrow, and their execution.

    A builder's thunks run when it is called (the library runs them when it builds the
    transaction).  The [n]-th await meets [env n] while a transaction is built and
    [world n] otherwise; [uuids], [random32] and [random16] are the random values
    drawn then. *)
From S2P Require Import Prelude JsString JsMap Utf8 Json Verification AuthHeaders HttpTransport MlsRelayer.
From S2P Require Import GroupName Aad Encryption Contracts GroupCalls.

(** * Options *)

Record WalletMessagingPolicy := { wp_wallet : jsstr; wp_enabled : bool; wp_minCost : option Z }.

(** The fields the escrow methods share. *)
Record EscrowOptions := {
  es_recipient : jsstr; es_escrowAmount : Z; es_paymentCoinId : option jsstr; es_dedupeKey : option (list Z); es_nonce : option Z;
}.

Record BuildOpenPaidDmOptions := {
  bo_sender : jsstr; bo_groupData : list (jsstr * jsstr); bo_escrow : EscrowOptions; bo_name : option jsstr; bo_uuid : option jsstr;
  bo_creatorMemoryAccountId : option jsstr;
}.

Record OpenPaidDmOptions := { od_sender : jsstr; od_escrow : EscrowOptions; od_name : option jsstr; od_uuid : option jsstr; od_skipGatingCheck : bool }.

Record OpenAgentPaidDmOptions := { oa_open : OpenPaidDmOptions; oa_platformId : jsstr; oa_memoryAccountId : jsstr; oa_e2ee : option jsstr }.

Record PayDmEscrowOptions := { py_groupRef : GroupRef; py_escrow : EscrowOptions; py_skipGatingCheck : bool }.

Record ReplyOptions := { rp_groupRef : GroupRef; rp_paidMsgSeq : Z; rp_charCount : Z; rp_dedupeKey : option (list Z); rp_nonce : option Z }.

Record OpenedPaidDm := { op_digest : jsstr; op_groupId : jsstr; op_uuid : jsstr; op_messageLogId : jsstr }.

(** The status of an executed transaction. *)
Record TxStatus := { tx_success : bool; tx_error : option jsstr; tx_digest : jsstr }.

Inductive paid_error `{EncryptionLib} :=
  | PaidCall (e : call_error)
  | PolicyFetchFailed (name : jsstr)
  | PolicyStatus (wallet : jsstr) (status : Z) (statusText : jsstr)
  | PolicyURI | PolicyMinCost | PolicyIllTyped
  | PaidNotEnabled (recipient : jsstr)
  | EscrowBelowMinimum (escrowAmount minCost : Z)
  | NoGatingClient
  | ViewFailed
  | ExecutionThrew
  | ExecutionFailed (label : string) (error : jsstr).

(** What an await of the client meets. *)
Record paid_step := {
  pq_reply : jsstr → reply;                  (* of [fetch], to a request for the URL *)
  pq_executed : option (option TxStatus);    (* [None] throws; a result with neither transaction is [Some None] *)
  pq_waited : bool;                          (* [waitForTransaction] returns *)
  pq_minReplyChars : option Z;               (* [view.getMessagingConfig()]; [None] throws *)
  pq_onChainPolicy : option (bool * option Z);  (* [view.requiresPaymentFromRecipient]; [None] throws *)
}.

Record paid_world `{DekCache} := PaidWorld {
  pw_turn : nat; pw_cache : cache; pw_minReplyChars : option Z; pw_urls : list jsstr; pw_executed : list (list Command);
}.
Arguments PaidWorld {_ _} _ _ _ _ _.

(** [value = (value << 8n) | BigInt(byte)] over 16 random bytes. *)
Definition randomNonce (random : bytes) : Z := foldl (λ value byte, Z.lor (Z.shiftl value 8) byte) 0 random.

Definition PAID_DM_MIN_REPLY_CHARS : Z := 6.
Definition PAID_MSG_NO_PLATFORM_FEE_RECIPIENT : jsstr := js "0x0".

Section paid.
Context `{JsText} `{EncryptionLib} `{MySoBcs} `{!DekCache} `{PureBcs} {Ctx : Type}.
Context (config : StackConfig) (defaultThreshold : Z) (policy : MyDataPolicy Ctx) (env : nat → build_step).
Context (groupName historyName logName : jsstr).
Context (gating : option jsstr) (world : nat → paid_step) (uuids : nat → jsstr) (random32 random16 : nat → bytes).

#[local] Notation bld := (eff building call_error).
#[local] Notation paid := (eff paid_world paid_error).
#[local] Notation derived := (derive_config config).

(** * Gating ([gating.ts]); [gating] is the client's [socialServerUrl] *)

Definition paid_await {A} (f : paid_step → A) : paid A := λ w,
  (Ok (f (world (pw_turn w))), PaidWorld (S (pw_turn w)) (pw_cache w) (pw_minReplyChars w) (pw_urls w) (pw_executed w)).

Definition paid_fetch (url : jsstr) : paid reply :=
  _ ← modify (λ w, PaidWorld (pw_turn w) (pw_cache w) (pw_minReplyChars w) (pw_urls w ++ [url]) (pw_executed w));
  paid_await (λ step, pq_reply step url).

(** [BigInt(body.min_cost)] unless [null] or missing. *)
Definition policy_min_cost (v : option json) : outcome paid_error (option Z) :=
  match v with
  | None | Some JNull => Ok None
  | Some (JStr s) => match StringToBigInt s with Some n => Ok (Some n) | None => Throw PolicyMinCost end
  | Some (JNum (Int n)) => Ok (Some n)
  | Some (JNum _) => Throw PolicyMinCost
  | Some _ => Throw PolicyIllTyped
  end.

Definition policy_of_body (wallet : jsstr) (v : json) : outcome paid_error WalletMessagingPolicy :=
  match HttpCalls.field (HttpCalls.optional HttpCalls.as_str) v "wallet", HttpCalls.field (HttpCalls.optional HttpCalls.as_bool) v "enabled" with
  | Some w, Some e =>
      match policy_min_cost (obj_get v (js "min_cost")) with
      | Ok m => Ok {| wp_wallet := default wallet w; wp_enabled := default false e; wp_minCost := m |}
      | Throw x => Throw x
      end
  | _, _ => Throw PolicyIllTyped
  end.

Definition policy_url (base wallet : jsstr) : option jsstr :=
  w ← encodeURIComponent wallet; Some (strip_slash base ++ js "/wallets/" ++ w ++ js "/messaging-policy").

Definition getWalletMessagingPolicy (base wallet : jsstr) : paid (option WalletMessagingPolicy) :=
  u ← (match policy_url base wallet with Some u => mret u | None => throw PolicyURI end);
  r ← paid_fetch u;
  match r with
  | Failed name => throw (PolicyFetchFailed name)
  | Response status text body =>
      if status =? 404 then mret None else
      if negb (response_ok status) then throw (PolicyStatus wallet status text) else
      b ← paid_await (λ _, body);
      match b with
      | Throw name => throw (PolicyFetchFailed name)
      | Ok v => match policy_of_body wallet v with Ok p => mret (Some p) | Throw e => throw e end
      end
  end.

Definition assertPaidOpenAllowed (base recipient : jsstr) (escrowAmount : Z) : paid WalletMessagingPolicy :=
  p ← getWalletMessagingPolicy base recipient;
  match p with
  | Some p =>
      if negb (wp_enabled p) then throw (PaidNotEnabled recipient) else
      match wp_minCost p with
      | Some m => if escrowAmount <? m then throw (EscrowBelowMinimum escrowAmount m) else mret p
      | None => mret p
      end
  | None => throw (PaidNotEnabled recipient)
  end.

(** [if (!options.skipGatingCheck && this.#gating) await ...] *)
Definition gate (skip : bool) (o : EscrowOptions) : paid unit :=
  match skip, gating with
  | false, Some base => _ ← assertPaidOpenAllowed base (es_recipient o) (es_escrowAmount o); mret tt
  | _, _ => mret tt
  end.

(** * Transactions *)

(** A new transaction, built. *)
Definition building_tx {A} (m : bld A) : paid (A * list Command) := λ w,
  let '(r, s) := m (Building [] (pw_turn w) (pw_cache w)) in
  let w' := PaidWorld (bd_turn s) (bd_cache s) (pw_minReplyChars w) (pw_urls w) (pw_executed w) in
  match r with Ok a => (Ok (a, bd_commands s), w') | Throw e => (Throw (PaidCall e), w') end.

Definition resolvePayment (o : EscrowOptions) : bld object_ref :=
  match truthy_str (es_paymentCoinId o) with
  | Some id => mret (ById id)
  | None => coins ← command (SplitCoins GasCoin [es_escrowAmount o]); mret (ByResult (nth_result coins 0))
  end.

(** The options of a digest call; [t] counts the awaits before it. *)
Definition digest_options (t : nat) (o : EscrowOptions) (g : GroupAndMessageLogArgs) (payment : object_ref) : PaidDigestOptions := {|
  pd_group := g; pd_recipient := es_recipient o; pd_payment := payment; pd_escrowAmount := es_escrowAmount o;
  pd_dedupeKey := default (random32 t) (es_dedupeKey o); pd_nonce := default (randomNonce (random16 t)) (es_nonce o) |}.

(** [created], paid for: the digest borrows the group and the log. *)
Definition pay_created (t : nat) (o : EscrowOptions) (created : TransactionArgument)
    (send : PaidDigestOptions → bld TransactionArgument) : bld unit :=
  payment ← resolvePayment o;
  _ ← send (digest_options t o (InTransaction (nth_result created 0) (nth_result created 2)) payment);
  mret tt.

Definition open_commands (t : nat) (uuid : jsstr) (o : BuildOpenPaidDmOptions) : bld unit :=
  created ← createGroup config defaultThreshold policy env {|
    cg_uuid := Some uuid; cg_creatorMemoryAccountId := truthy_str (bo_creatorMemoryAccountId o); cg_name := default (js "Paid DM") (bo_name o);
    cg_encryptName := false; cg_groupData := []; cg_initialMembers := [es_recipient (bo_escrow o)] |};
  _ ← pay_created t (bo_escrow o) created (sendPaidMessageDigest config);
  _ ← insert_entries config (nth_result created 0) (bo_groupData o);
  share_created groupName historyName logName created.

Record BuildOpenPaidDmResult := { br_transaction : list Command; br_uuid : jsstr; br_groupId : jsstr; br_messageLogId : jsstr }.

Definition buildOpenPaidDm (o : BuildOpenPaidDmOptions) : paid BuildOpenPaidDmResult :=
  w ← get_state;
  let uuid := default (uuids (pw_turn w)) (bo_uuid o) in
  built ← building_tx (open_commands (pw_turn w) uuid o);
  mret {| br_transaction := built.2; br_uuid := uuid; br_groupId := groupId derived uuid; br_messageLogId := messageLogId derived uuid |}.

(** [#execute] *)
Definition paid_execute (transaction : list Command) (label : string) : paid jsstr :=
  _ ← modify (λ w, PaidWorld (pw_turn w) (pw_cache w) (pw_minReplyChars w) (pw_urls w) (pw_executed w ++ [transaction]));
  result ← paid_await pq_executed;
  match result with
  | None => throw ExecutionThrew
  | Some status =>
      match status with
      | Some s =>
          if tx_success s then (waited ← paid_await pq_waited; match waited with true => mret (tx_digest s) | false => throw ExecutionThrew end)
          else throw (ExecutionFailed label (default (js "unknown error") (tx_error s)))
      | None => throw (ExecutionFailed label (js "unknown error"))
      end
  end.

Definition openPaidDm (o : OpenPaidDmOptions) : paid OpenedPaidDm :=
  _ ← gate (od_skipGatingCheck o) (od_escrow o);
  built ← buildOpenPaidDm {| bo_sender := od_sender o; bo_groupData := []; bo_escrow := od_escrow o; bo_name := od_name o; bo_uuid := od_uuid o;
                             bo_creatorMemoryAccountId := None |};
  digest ← paid_execute (br_transaction built) "open paid DM";
  mret {| op_digest := digest; op_groupId := br_groupId built; op_uuid := br_uuid built; op_messageLogId := br_messageLogId built |}.

Definition buildPayDmEscrow (ref : GroupRef) (o : EscrowOptions) : paid (list Command) :=
  w ← get_state;
  built ← building_tx (payment ← resolvePayment o;
                       sendPaidMessageDigest config
                         (digest_options (pw_turn w) o (Shared {| gl_ref := ref; gl_messageLogId := None |}) payment));
  mret built.2.

Definition payDmEscrow (o : PayDmEscrowOptions) : paid jsstr :=
  _ ← gate (py_skipGatingCheck o) (py_escrow o);
  transaction ← buildPayDmEscrow (py_groupRef o) (py_escrow o);
  paid_execute transaction "pay DM escrow".

Definition agent_open_commands (t : nat) (uuid : jsstr) (o : OpenAgentPaidDmOptions) : bld unit :=
  created ← createAgentGroup config defaultThreshold policy env {|
    ag_common := {| cg_uuid := Some uuid; cg_creatorMemoryAccountId := None; cg_name := default (js "Agent paid DM") (od_name (oa_open o));
                    cg_encryptName := false; cg_groupData := []; cg_initialMembers := [es_recipient (od_escrow (oa_open o))] |};
    ag_e2ee := truthy_str (oa_e2ee o); ag_platformId := oa_platformId o; ag_creatorMemoryAccountId := oa_memoryAccountId o;
    ag_crossPrincipalPeerMemoryAccountId := oa_memoryAccountId o; ag_room := None |};
  _ ← pay_created t (od_escrow (oa_open o)) created (sendAgentPaidMessageDigest config (oa_platformId o) (oa_memoryAccountId o));
  share_created groupName historyName logName created.

Definition openAgentPaidDm (o : OpenAgentPaidDmOptions) : paid OpenedPaidDm :=
  _ ← gate (od_skipGatingCheck (oa_open o)) (od_escrow (oa_open o));
  w ← get_state;
  let uuid := default (uuids (pw_turn w)) (od_uuid (oa_open o)) in
  built ← building_tx (agent_open_commands (pw_turn w) uuid o);
  digest ← paid_execute built.2 "open agent paid DM";
  mret {| op_digest := digest; op_groupId := groupId derived uuid; op_uuid := uuid; op_messageLogId := messageLogId derived uuid |}.

(** The options of a claim. *)
Definition claim_options (t : nat) (o : ReplyOptions) : ClaimOptions := {|
  cm_group := {| gl_ref := rp_groupRef o; gl_messageLogId := None |}; cm_paidMsgSeq := rp_paidMsgSeq o; cm_charCount := rp_charCount o;
  cm_dedupeKey := default (random32 t) (rp_dedupeKey o); cm_nonce := default (randomNonce (random16 t)) (rp_nonce o) |}.

Definition buildReplyAndClaimSettled (o : ReplyOptions) (platformFeeRecipient : jsstr) : paid (list Command) :=
  w ← get_state;
  built ← building_tx (replyToPaidMessageClaimSettled config platformFeeRecipient (claim_options (pw_turn w) o));
  mret built.2.

Definition buildReplyAndClaimSettledWithPlatform (o : ReplyOptions) (platformId : jsstr) : paid (list Command) :=
  w ← get_state;
  built ← building_tx (replyToPaidMessageClaimSettledWithPlatform config platformId (claim_options (pw_turn w) o));
  mret built.2.

Definition replyAndClaimSettled (o : ReplyOptions) (platformFeeRecipient : jsstr) : paid jsstr :=
  transaction ← buildReplyAndClaimSettled o platformFeeRecipient;
  paid_execute transaction "reply and claim settled paid escrow".

Definition replyAndClaimSettledWithPlatform (o : ReplyOptions) (platformId : jsstr) : paid jsstr :=
  transaction ← buildReplyAndClaimSettledWithPlatform o platformId;
  paid_execute transaction "reply and claim settled paid escrow with platform treasury".

Definition refundEscrow (ref : GroupRef) (paidMsgSeq : Z) : paid jsstr :=
  built ← building_tx (refundPaidEscrow config {| gl_ref := ref; gl_messageLogId := None |} paidMsgSeq);
  paid_execute built.2 "refund paid escrow".

Definition setPolicy (enabled : bool) (minCost : option Z) : paid jsstr :=
  built ← building_tx (setPaidMessagingPolicy config enabled minCost);
  paid_execute built.2 "set paid messaging policy".

(** * Reads *)

Definition minReplyChars : paid Z :=
  w ← get_state;
  match pw_minReplyChars w with
  | Some n => mret n
  | None =>
      n ← paid_await pq_minReplyChars;
      match n with
      | Some n =>
          _ ← modify (λ w, PaidWorld (pw_turn w) (pw_cache w) (Some n) (pw_urls w) (pw_executed w));
          mret n
      | None => throw ViewFailed
      end
  end.

Definition getPolicy (recipient : jsstr) : paid (option WalletMessagingPolicy) :=
  match gating with Some base => getWalletMessagingPolicy base recipient | None => throw NoGatingClient end.

Definition getOnChainPolicy : paid (bool * option Z) :=
  p ← paid_await pq_onChainPolicy; match p with Some p => mret p | None => throw ViewFailed end.
End paid.
