(* ===== verification/PaidProps.v ===== *)
(** What the paid messages promise ([paid-messaging.ts], [gating.ts]): every
    transaction the client has executed is well typed, an opening is executed only
    when the recipient's policy allows it, and it escrows the amount asked for. *)
From S2P Require Import Prelude JsString JsMap Utf8 Json Verification AuthHeaders HttpTransport MlsRelayer.
From S2P Require Import GroupName Aad Encryption Contracts GroupCalls TransactionTypes GroupCallProps PaidMessaging.

(** Appending a byte to a number. *)
Lemma lor_shift8 v b : 0 ≤ v → 0 ≤ b < 256 → Z.lor (Z.shiftl v 8) b = v * 256 + b.
Proof.
  intros Hv Hb. rewrite <- Z.add_nocarry_lor; [rewrite Z.shiftl_mul_pow2; lia|].
  apply Z.bits_inj'. intros n Hn. rewrite Z.land_spec, Z.bits_0, Z.shiftl_spec by lia.
  destruct (Z.lt_ge_cases n 8) as [Hlt|Hge]; [by rewrite Z.testbit_neg_r by lia|].
  rewrite (Z.bits_above_log2 b n); [apply andb_false_r|lia|].
  destruct (Z.eq_dec b 0) as [->|]; [simpl; lia|]. apply Z.log2_lt_pow2; [lia|].
  assert (2 ^ 8 ≤ 2 ^ n) by (apply Z.pow_le_mono_r; lia). lia.
Qed.

(** The nonce of 16 random bytes is a u128. *)
Lemma randomNonce_bounds random : wf_bytes random → 0 ≤ randomNonce random < 2 ^ (8 * Z.of_nat (length random)).
Proof.
  unfold randomNonce. induction random as [|b l IH] using rev_ind; intros Hw; [done|].
  apply Forall_app in Hw as [Hl Hb%Forall_inv]. specialize (IH Hl). rewrite foldl_app. cbn [foldl].
  set (v := foldl _ 0 l) in *. unfold is_byte in Hb. rewrite lor_shift8 by lia.
  rewrite length_app, Nat2Z.inj_add, Z.mul_add_distr_l, Z.pow_add_r by lia. change (2 ^ (8 * Z.of_nat (length [b]))) with 256.
  lia.
Qed.

Lemma held_app st l a t : held st a = Some t → held (st ++ l) a = Some t.
Proof.
  destruct a as [|i|i j]; cbn [held]; [done|..].
  - destruct (st !! i) as [v|] eqn:E; [|done]. by rewrite (lookup_app_l_Some _ _ _ _ E).
  - destruct (st !! i) as [v|] eqn:E; [|done]. by rewrite (lookup_app_l_Some _ _ _ _ E).
Qed.

Lemma not_held_twice st x y t u : held st x = Some t → held st y = Some u → t ≠ u → (x ∉ [y]).
Proof. intros Hx Hy Ht Hin%list_elem_of_singleton. congruence. Qed.

Section typing.
Context `{JsText} `{EncryptionLib} `{MySoBcs} `{!DekCache} `{PureBcs} {Ctx : Type}.
Context (config : StackConfig) (defaultThreshold : Z) (policy : MyDataPolicy Ctx) (env : nat → build_step).
Context (groupName historyName logName : jsstr) (removeMember : jsstr → jsstr → Command).
Context (signature : signature_table) (Hd : declared config groupName historyName logName removeMember signature).
Context (Hb : bindings_declared config signature).

#[local] Notation bld := (eff building call_error).
#[local] Notation typed := (typed signature).

Definition group_ok (st : slots) (g : GroupAndMessageLogArgs) : Prop :=
  match g with InTransaction x l => held st x = Some TyGroup ∧ held st l = Some TyLog | Shared _ => True end.
Definition payment_ok (st : slots) (p : object_ref) : Prop := match p with ById _ => True | ByResult c => held st c = Some TyCoin end.
Definition paid_for (st : slots) (p : object_ref) : slots := match p with ById _ => st | ByResult c => taken c st end.

Lemma typed_resolveGroupAndLog st r (Q : jsstr * jsstr → slots → Prop) : (∀ ids, Q ids st) → typed st (resolveGroupAndLog config r) Q.
Proof.
  intros HQ. unfold resolveGroupAndLog, resolve_ref. apply (typed_bind _ _ _ _ (λ _, (st =.))).
  { destruct (resolveGroupRef _ _); [by apply typed_ret|by apply typed_throw]. }
  intros ids ? <-. destruct (truthy_str _); [by apply typed_ret|by apply typed_throw].
Qed.

(** The arguments a digest borrows and takes. *)
Ltac digest_fits :=
  run_fits; repeat (first [
    erewrite check_borrow by first [eassumption | apply not_elem_of_nil | by eapply not_held_twice]
  | erewrite check_take by first [eassumption | apply not_elem_of_cons; split; [intros ->; congruence | by eapply not_held_twice] | apply not_elem_of_nil]];
  run_fits); reflexivity.

(** The group and the log of a digest, as options. *)
Definition group_args (st : slots) (g : GroupAndMessageLogArgs) (ids : js_arg * js_arg) (st' : slots) : Prop :=
  st' = st ∧ match g with InTransaction x l => ids = (AArgument x, AArgument l) | Shared _ => ∃ a b, ids = (AString a, AString b) end.

Lemma typed_resolveGroupAndLogArgs st g : typed st (resolveGroupAndLogArgs config g) (group_args st g).
Proof.
  destruct g as [x l|r]; cbn [resolveGroupAndLogArgs]; [by apply typed_ret|].
  eapply typed_bind; [by apply (typed_resolveGroupAndLog _ _ (λ _, (st =.)))|]. intros ids ? <-. apply typed_ret. split; eauto.
Qed.

Lemma typed_sendPaidMessageDigest st o : group_ok st (pd_group o) → payment_ok st (pd_payment o) →
  typed st (GroupCalls.sendPaidMessageDigest config o) (λ _ st', st' = paid_for st (pd_payment o) ++ [[]]).
Proof.
  intros Hg Hp. eapply typed_bind; [apply typed_resolveGroupAndLogArgs|]. intros ids ? [-> Hi].
  destruct o as [[x l|r] rec [id|c] am key n]; cbn [pd_group pd_payment group_ok payment_ok paid_for] in *;
    first [destruct Hi as (? & ? & ->) | destruct Hg as [Hx Hl]; subst ids];
    (eapply typed_add; [bound_by Hb|reflexivity|digest_fits|done]).
Qed.

Lemma typed_sendAgentPaidMessageDigest st platform memory o : group_ok st (pd_group o) → payment_ok st (pd_payment o) →
  typed st (GroupCalls.sendAgentPaidMessageDigest config platform memory o) (λ _ st', st' = paid_for st (pd_payment o) ++ [[]]).
Proof.
  intros Hg Hp. eapply typed_bind; [apply typed_resolveGroupAndLogArgs|]. intros ids ? [-> Hi].
  destruct o as [[x l|r] rec [id|c] am key n]; cbn [pd_group pd_payment group_ok payment_ok paid_for] in *;
    first [destruct Hi as (? & ? & ->) | destruct Hg as [Hx Hl]; subst ids];
    (eapply typed_add; [bound_by Hb|reflexivity|digest_fits|done]).
Qed.

(** The payment: a coin of the caller's, or one split from gas, held until the digest takes it. *)
Definition payment_made (st : slots) (p : object_ref) (st' : slots) : Prop :=
  match p with ById _ => st' = st | ByResult c => st' = st ++ [[Some TyCoin]] ∧ c = NestedResult (length st) 0 end.

Lemma typed_resolvePayment st o : typed st (resolvePayment o) (payment_made st).
Proof.
  unfold resolvePayment. destruct (truthy_str _) as [id|]; [by apply typed_ret|].
  apply (typed_bind _ _ _ _ (λ a st', a = Result (length st) ∧ st' = st ++ [[Some TyCoin]])); [by eapply typed_command|].
  intros a ? [-> ->]. apply typed_ret. by split.
Qed.

Lemma payment_made_ok st p st' : payment_made st p st' → payment_ok st' p ∧ ∃ l, paid_for st' p = st ++ l ∧ all_droppable l.
Proof.
  destruct p as [id|c]; cbn; [intros ->; split; [done|]; exists []; by rewrite app_nil_r|]. intros [-> ->].
  split; [by apply held_nth|]. exists [[None]]. by rewrite taken_nth.
Qed.

Lemma payment_made_held st p st' a t : payment_made st p st' → held st a = Some t → held st' a = Some t.
Proof. destruct p; cbn; [by intros ->|]. intros [-> _]. by apply held_app. Qed.

Lemma typed_pay_created st a st' t random32 random16 o send : returned st created_values a st' →
  (∀ st o', group_ok st (pd_group o') → payment_ok st (pd_payment o') → typed st (send o') (λ _ st', st' = paid_for st (pd_payment o') ++ [[]])) →
  typed st' (pay_created random32 random16 t o a send) (λ _, returned st created_values a).
Proof.
  intros Ha Hsend. unfold pay_created. eapply typed_bind; [apply typed_resolvePayment|]. intros p st1 Hp.
  destruct (payment_made_ok _ _ _ Hp) as (Hok & l & Hl & Hdrop).
  eapply typed_bind; [apply Hsend; [split; (eapply payment_made_held; [exact Hp|by eapply returned_held])|exact Hok]|].
  intros ? ? ->. cbn [digest_options pd_payment]. rewrite Hl. apply typed_ret. apply returned_app; [by apply returned_app|done].
Qed.

Lemma typed_open_commands st t uuid random32 random16 o :
  typed st (open_commands config defaultThreshold policy env groupName historyName logName random32 random16 t uuid o) (ended st).
Proof.
  unfold open_commands. eapply typed_bind; [eapply typed_createGroup; [exact Hd|by intros _]|]. intros a st1 Ha.
  eapply typed_bind; [apply typed_pay_created; [exact Ha|]; intros; by apply typed_sendPaidMessageDigest|]. intros ? st2 Ha2.
  eapply typed_bind; [eapply typed_insert_entries; [exact Hd|exact Ha2|reflexivity]|]. intros ? st3 Ha3. eapply typed_share_created; [exact Hd|eassumption].
Qed.

Lemma typed_agent_open_commands st t uuid random32 random16 o :
  typed st (agent_open_commands config defaultThreshold policy env groupName historyName logName random32 random16 t uuid o) (ended st).
Proof.
  unfold agent_open_commands. eapply typed_bind; [eapply typed_createAgentGroup; [exact Hd|exact Hb]|]. intros a st1 Ha.
  eapply typed_bind; [apply typed_pay_created; [exact Ha|]; intros; by apply typed_sendAgentPaidMessageDigest|]. intros ? st2 Ha2.
  eapply typed_share_created; [exact Hd|eassumption].
Qed.

Ltac shared_call := eapply typed_add; [first [relied Hd|bound_by Hb]|reflexivity|run_fits; reflexivity|].

(** A claim, a refund and a change of policy leave nothing. *)
Lemma typed_settled st fee o : typed st (replyToPaidMessageClaimSettled config fee o) (λ _ st', st' = st ++ [[]]).
Proof. eapply typed_bind; [by apply (typed_resolveGroupAndLog _ _ (λ _, (st =.)))|]; intros ids ? <-; shared_call; reflexivity. Qed.

Lemma typed_settled_platform st p o : typed st (replyToPaidMessageClaimSettledWithPlatform config p o) (λ _ st', st' = st ++ [[]]).
Proof. eapply typed_bind; [by apply (typed_resolveGroupAndLog _ _ (λ _, (st =.)))|]; intros ids ? <-; shared_call; reflexivity. Qed.

Lemma typed_refund st r seq : typed st (refundPaidEscrow config r seq) (λ _ st', st' = st ++ [[]]).
Proof. eapply typed_bind; [by apply (typed_resolveGroupAndLog _ _ (λ _, (st =.)))|]; intros ids ? <-; shared_call; reflexivity. Qed.

Lemma typed_setPolicy st enabled minCost : typed st (GroupCalls.setPaidMessagingPolicy config enabled minCost) (λ _ st', st' = st ++ [[]]).
Proof. destruct minCost; shared_call; reflexivity. Qed.

Lemma typed_pay_escrow st t random32 random16 ref o :
  typed st (payment ← resolvePayment o;
            GroupCalls.sendPaidMessageDigest config (digest_options random32 random16 t o (Shared {| gl_ref := ref; gl_messageLogId := None |}) payment))
    (λ _ st', ∃ new, st' = st ++ new ∧ all_droppable new).
Proof.
  eapply typed_bind; [apply typed_resolvePayment|]. intros p st1 Hp. destruct (payment_made_ok _ _ _ Hp) as (Hok & l & Hl & Hdrop).
  eapply typed_weaken; [by apply typed_sendPaidMessageDigest|]. intros ? ? ->. cbn [digest_options pd_payment]. rewrite Hl.
  exists (l ++ [[]]). rewrite <- app_assoc. split; [done|]. by apply all_droppable_app.
Qed.
End typing.

(** * What the client executes *)

(** A method of the client, with its options. *)
Inductive paid_method :=
  | OpenPaidDm (o : OpenPaidDmOptions) | OpenAgentPaidDm (o : OpenAgentPaidDmOptions) | PayDmEscrow (o : PayDmEscrowOptions)
  | ReplyAndClaimSettled (o : ReplyOptions) (platformFeeRecipient : jsstr)
  | ReplyAndClaimSettledWithPlatform (o : ReplyOptions) (platformId : jsstr)
  | RefundEscrow (ref : GroupRef) (paidMsgSeq : Z) | SetPolicy (enabled : bool) (minCost : option Z).

(** Whether the check is skipped, and the escrow, of a method that opens or pays. *)
Definition opening (m : paid_method) : option (bool * EscrowOptions) :=
  match m with
  | OpenPaidDm o => Some (od_skipGatingCheck o, od_escrow o)
  | OpenAgentPaidDm o => Some (od_skipGatingCheck (oa_open o), od_escrow (oa_open o))
  | PayDmEscrow o => Some (py_skipGatingCheck o, py_escrow o)
  | _ => None
  end.

Section client.
Context `{JsText} `{EncryptionLib} `{MySoBcs} `{!DekCache} `{PureBcs} {Ctx : Type}.
Context (config : StackConfig) (defaultThreshold : Z) (policy : MyDataPolicy Ctx) (env : nat → build_step).
Context (groupName historyName logName : jsstr).
Context (gating : option jsstr) (world : nat → paid_step) (uuids : nat → jsstr) (random32 random16 : nat → bytes).

#[local] Notation paid := (eff paid_world paid_error).

Definition run_paid (m : paid_method) : paid unit :=
  let run {A} (b : paid A) : paid unit := _ ← b; mret tt in
  match m with
  | OpenPaidDm o => run (openPaidDm config defaultThreshold policy env groupName historyName logName gating world uuids random32 random16 o)
  | OpenAgentPaidDm o => run (openAgentPaidDm config defaultThreshold policy env groupName historyName logName gating world uuids random32 random16 o)
  | PayDmEscrow o => run (payDmEscrow config gating world random32 random16 o)
  | ReplyAndClaimSettled o fee => run (replyAndClaimSettled config world random32 random16 o fee)
  | ReplyAndClaimSettledWithPlatform o p => run (replyAndClaimSettledWithPlatform config world random32 random16 o p)
  | RefundEscrow ref seq => run (refundEscrow config world ref seq)
  | SetPolicy enabled minCost => run (setPolicy config world enabled minCost)
  end.

(** [m] executes nothing, and returns a value of [Q]. *)
Definition silent {A} (m : paid A) (Q : A → Prop) : Prop :=
  ∀ w r w', m w = (r, w') → pw_executed w' = pw_executed w ∧ match r with Ok a => Q a | Throw _ => True end.

(** [m] throws and executes nothing, or executes one transaction, of [P]. *)
Definition executed {A} (P : list Command → Prop) (w : paid_world) (r : outcome paid_error A) (w' : paid_world) : Prop :=
  (pw_executed w' = pw_executed w ∧ ∃ e, r = Throw e) ∨ ∃ cs, pw_executed w' = pw_executed w ++ [cs] ∧ P cs.

Definition executes {A} (m : paid A) (P : list Command → Prop) : Prop := ∀ w r w', m w = (r, w') → executed P w r w'.

Lemma silent_ret {A} (a : A) (Q : A → Prop) : Q a → silent (mret a) Q.
Proof. intros HQ w r w' [= <- <-]. by split. Qed.

Lemma silent_throw {A} e (Q : A → Prop) : silent (throw e) Q.
Proof. by intros w r w' [= <- <-]. Qed.

Lemma silent_bind {A B} (m : paid A) (k : A → paid B) Q R : silent m Q → (∀ a, Q a → silent (k a) R) → silent (m ≫= k) R.
Proof.
  intros Hm Hk w r w'. unfold mbind, eff_bind. destruct (m w) as [[a|e] w1] eqn:E; apply Hm in E as [E HQ].
  - intros Er. apply Hk in Er as [-> ?]; [|done]. by split.
  - by intros [= <- <-].
Qed.

Lemma silent_await {A} (f : paid_step → A) : silent (paid_await world f) (λ _, True).
Proof. by intros w r w' [= <- <-]. Qed.

Lemma silent_state : silent get_state (λ _, True).
Proof. by intros w r w' [= <- <-]. Qed.

Lemma executes_bind {A B} (m : paid A) (k : A → paid B) Q P : silent m Q → (∀ a, Q a → executes (k a) P) → executes (m ≫= k) P.
Proof.
  intros Hm Hk w r w'. unfold mbind, eff_bind. destruct (m w) as [[a|e] w1] eqn:E; apply Hm in E as [E HQ].
  - intros Er. apply Hk in Er; [|done]. unfold executed in *. by rewrite E in Er.
  - intros [= <- <-]. left. eauto.
Qed.

Lemma executes_then {A B} (m : paid A) (k : A → paid B) P : executes m P → (∀ a, silent (k a) (λ _, True)) → executes (m ≫= k) P.
Proof.
  intros Hm Hk w r w'. unfold mbind, eff_bind. destruct (m w) as [[a|e] w1] eqn:E; apply Hm in E as [[E [x Ex]]|(cs & E & ?)]; try done.
  - intros Er. apply Hk in Er as [Er _]. right. exists cs. by rewrite Er.
  - intros [= <- <-]. left. eauto.
  - intros [= <- <-]. right. by exists cs.
Qed.

Lemma silent_building {A} (m : eff building call_error A) (Q : A * list Command → Prop) :
  (∀ t c a s, m (Building [] t c) = (Ok a, s) → Q (a, bd_commands s)) → silent (building_tx m) Q.
Proof.
  intros HQ w r w'. unfold building_tx. destruct (m _) as [[a|e] s] eqn:E; intros [= <- <-]; (split; [done|]); [|done].
  by apply (HQ _ _ _ _ E).
Qed.

Lemma executes_execute cs label (P : list Command → Prop) : P cs → executes (paid_execute world cs label) P.
Proof.
  intros HP w r w' E. right. exists cs. split; [|done]. unfold paid_execute in E.
  unfold mbind at 1, eff_bind at 1, modify in E. set (w0 := PaidWorld _ _ _ _ _) in E. change (pw_executed w ++ [cs]) with (pw_executed w0).
  match type of E with ?m w0 = _ => assert (silent m (λ _, True)) as Hs end; [|by apply Hs in E as [? _]].
  eapply silent_bind; [apply silent_await|]. intros [[s|]|] _; [|apply silent_throw..].
  destruct (tx_success s); [|apply silent_throw]. eapply silent_bind; [apply silent_await|].
  intros [|] _; [by apply silent_ret|apply silent_throw].
Qed.

Lemma silent_gate skip o : silent (gate gating world skip o) (λ _, True).
Proof.
  unfold gate. destruct skip; [by apply silent_ret|]. destruct gating as [base|]; [|by apply silent_ret].
  eapply (silent_bind _ _ (λ _, True)); [|intros; by apply silent_ret].
  unfold assertPaidOpenAllowed, getWalletMessagingPolicy, paid_fetch.
  eapply (silent_bind _ _ (λ _, True)).
  - eapply (silent_bind _ _ (λ _, True)); [destruct (policy_url _ _); [by apply silent_ret|apply silent_throw]|]. intros u _.
    eapply (silent_bind _ _ (λ _, True)).
    { eapply (silent_bind _ _ (λ _, True)); [by intros w r w' [= <- <-]|]. intros _ _. apply silent_await. }
    intros [name|st tx body] _; [apply silent_throw|]. destruct (st =? 404); [by apply silent_ret|].
    destruct (negb _); [apply silent_throw|]. eapply silent_bind; [apply silent_await|]. intros [v|name] _; [|apply silent_throw].
    destruct (policy_of_body _ _); [by apply silent_ret|apply silent_throw].
  - intros [p|] _; [|apply silent_throw]. destruct (negb _); [apply silent_throw|]. destruct (wp_minCost p) as [m|]; [|by apply silent_ret].
    destruct (_ <? _); [apply silent_throw|by apply silent_ret].
Qed.

(** The commands of a method's transaction; [t] counts the awaits before it. *)
Definition paid_builder (m : paid_method) (t : nat) (uuid : jsstr) : eff building call_error unit :=
  let added (b : eff building call_error TransactionArgument) : eff building call_error unit := _ ← b; mret tt in
  match m with
  | OpenPaidDm o => open_commands config defaultThreshold policy env groupName historyName logName random32 random16 t uuid
      {| bo_sender := od_sender o; bo_groupData := []; bo_escrow := od_escrow o; bo_name := od_name o; bo_uuid := od_uuid o;
         bo_creatorMemoryAccountId := None |}
  | OpenAgentPaidDm o => agent_open_commands config defaultThreshold policy env groupName historyName logName random32 random16 t uuid o
  | PayDmEscrow o => added (payment ← resolvePayment (py_escrow o);
      GroupCalls.sendPaidMessageDigest config
        (digest_options random32 random16 t (py_escrow o) (Shared {| gl_ref := py_groupRef o; gl_messageLogId := None |}) payment))
  | ReplyAndClaimSettled o fee => added (replyToPaidMessageClaimSettled config fee (claim_options random32 random16 t o))
  | ReplyAndClaimSettledWithPlatform o p => added (replyToPaidMessageClaimSettledWithPlatform config p (claim_options random32 random16 t o))
  | RefundEscrow ref seq => added (refundPaidEscrow config {| gl_ref := ref; gl_messageLogId := None |} seq)
  | SetPolicy enabled minCost => added (GroupCalls.setPaidMessagingPolicy config enabled minCost)
  end.

Definition built_by (m : paid_method) (cs : list Command) : Prop :=
  ∃ t u uuid c s, paid_builder m u uuid (Building [] t c) = (Ok tt, s) ∧ cs = bd_commands s.

Lemma run_unit {A} (b : eff building call_error A) s a s' : b s = (Ok a, s') → (_ ← b; mret tt) s = (Ok tt, s').
Proof. unfold mbind, eff_bind. by intros ->. Qed.

(** A method executes what its builder built, or nothing. *)
Lemma run_paid_executes m : executes (run_paid m) (built_by m).
Proof.
  unfold run_paid. destruct m as [o|o|o|o fee|o p|ref seq|en mc]; cbv zeta; (apply executes_then; [|intros; by apply silent_ret]).
  - unfold openPaidDm, buildOpenPaidDm. eapply executes_bind; [apply silent_gate|]. intros _ _.
    apply (executes_bind _ _ (λ b, built_by (OpenPaidDm o) (br_transaction b))).
    { eapply silent_bind; [apply silent_state|]. intros w _. cbv zeta.
      eapply (silent_bind _ _ (λ b, built_by (OpenPaidDm o) b.2)); [|intros b Hb; by apply silent_ret].
      apply silent_building. intros t c [] s E. by exists t, (pw_turn w), (default (uuids (pw_turn w)) (od_uuid o)), c, s. }
    intros b Hb. apply executes_then; [by apply executes_execute|]. intros; by apply silent_ret.
  - unfold openAgentPaidDm. eapply executes_bind; [apply silent_gate|]. intros _ _.
    eapply executes_bind; [apply silent_state|]. intros w _. cbv zeta.
    apply (executes_bind _ _ (λ b, built_by (OpenAgentPaidDm o) b.2)).
    { apply silent_building. intros t c [] s E. by exists t, (pw_turn w), (default (uuids (pw_turn w)) (od_uuid (oa_open o))), c, s. }
    intros b Hb. apply executes_then; [by apply executes_execute|]. intros; by apply silent_ret.
  - unfold payDmEscrow, buildPayDmEscrow. eapply executes_bind; [apply silent_gate|]. intros _ _.
    apply (executes_bind _ _ (built_by (PayDmEscrow o))); [|intros cs Hcs; by apply executes_execute].
    eapply silent_bind; [apply silent_state|]. intros w _.
    eapply (silent_bind _ _ (λ b, built_by (PayDmEscrow o) b.2)); [|intros b Hb; by apply silent_ret].
    apply silent_building. intros t c a s E. exists t, (pw_turn w), [], c, s. split; [by eapply run_unit|done].
  - unfold replyAndClaimSettled, buildReplyAndClaimSettled.
    apply (executes_bind _ _ (built_by (ReplyAndClaimSettled o fee))); [|intros cs Hcs; by apply executes_execute].
    eapply silent_bind; [apply silent_state|]. intros w _.
    eapply (silent_bind _ _ (λ b, built_by (ReplyAndClaimSettled o fee) b.2)); [|intros b Hb; by apply silent_ret].
    apply silent_building. intros t c a s E. exists t, (pw_turn w), [], c, s. split; [by eapply run_unit|done].
  - unfold replyAndClaimSettledWithPlatform, buildReplyAndClaimSettledWithPlatform.
    apply (executes_bind _ _ (built_by (ReplyAndClaimSettledWithPlatform o p))); [|intros cs Hcs; by apply executes_execute].
    eapply silent_bind; [apply silent_state|]. intros w _.
    eapply (silent_bind _ _ (λ b, built_by (ReplyAndClaimSettledWithPlatform o p) b.2)); [|intros b Hb; by apply silent_ret].
    apply silent_building. intros t c a s E. exists t, (pw_turn w), [], c, s. split; [by eapply run_unit|done].
  - unfold refundEscrow. apply (executes_bind _ _ (λ b, built_by (RefundEscrow ref seq) b.2)); [|intros b Hb; by apply executes_execute].
    apply silent_building. intros t c a s E. exists t, t, [], c, s. split; [by eapply run_unit|done].
  - unfold setPolicy. apply (executes_bind _ _ (λ b, built_by (SetPolicy en mc) b.2)); [|intros b Hb; by apply executes_execute].
    apply silent_building. intros t c a s E. exists t, t, [], c, s. split; [by eapply run_unit|done].
Qed.

(** Paid messages execute well-typed transactions.  For every method of the client
    that acts on the chain, and whatever the network, the chain and the signer answer,
    the method either throws with nothing executed, or asks for exactly one transaction,
    the one its builder built, and that transaction is well typed from its first
    command: the coin split from gas is taken by the escrow, the group, history and log
    are borrowed by the digest and the metadata calls, and then each is shared once;
    nothing is used after it is shared and nothing is left over. *)
Lemma paid_transactions_typed removeMember signature m w r w' :
  declared config groupName historyName logName removeMember signature → bindings_declared config signature →
  run_paid m w = (r, w') → executed (λ cs, built_by m cs ∧ well_typed signature cs = true) w r w'.
Proof.
  intros Hd Hbind [?|(cs & E & Hb)]%run_paid_executes; [by left|]. right. exists cs. split; [done|]. split; [done|].
  destruct Hb as (t & u & uuid & c & s & Hs & ->).
  assert (typed signature [] (paid_builder m u uuid) (ended [])) as Ht.
  { destruct m as [o|o|o|o fee|o p|ref seq|en mc]; cbn [paid_builder].
    - eapply typed_open_commands; eassumption.
    - eapply typed_agent_open_commands; eassumption.
    - eapply typed_bind; [eapply typed_pay_escrow; eassumption|]. intros ? ? ?. by apply typed_ret.
    - apply (typed_ended _ _ _ [[]]); [done|]. eapply typed_settled; eassumption.
    - apply (typed_ended _ _ _ [[]]); [done|]. eapply typed_settled_platform; eassumption.
    - apply (typed_ended _ _ _ [[]]); [done|]. eapply typed_refund; eassumption.
    - apply (typed_ended _ _ _ [[]]); [done|]. eapply typed_setPolicy; eassumption. }
  apply (Ht (Building [] t c) _ _ eq_refl) in Hs as (st' & Hst & new & -> & Hn). unfold well_typed. by rewrite Hst.
Qed.

(** ** Openings *)

(** The transaction escrows [o]'s amount for its recipient, from the coin given or
    from one of that amount split from gas in the same transaction. *)
Definition escrows (o : EscrowOptions) (cs : list Command) : Prop :=
  ∃ f objects payment recipient amount key n,
    MoveCall (pk_latestPackageId config) (js "messaging") (js f) [] (objects ++ [Pure recipient; payment; Pure amount; Pure key; Pure n; Clock]) ∈ cs
    ∧ f ∈ ["send_paid_message_digest"; "send_agent_paid_message_digest"]%string
    ∧ serialize Address (AString (es_recipient o)) = Some recipient ∧ serialize U64 (ANumber (es_escrowAmount o)) = Some amount
    ∧ match truthy_str (es_paymentCoinId o) with
      | Some coin => payment = ObjectId coin
      | None => ∃ i, payment = Passed (NestedResult i 0) ∧ cs !! i = Some (SplitCoins GasCoin [es_escrowAmount o])
      end.

Lemma escrows_prefix o cs cs' : cs `prefix_of` cs' → escrows o cs → escrows o cs'.
Proof.
  intros Hp (f & ob & pay & rec & am & key & n & Hin & Hf & Hr & Ha & Hc). exists f, ob, pay, rec, am, key, n.
  split; [by eapply elem_of_prefix|]. do 3 (split; [done|]). destruct (truthy_str _); [done|]. destruct Hc as (i & -> & Hi).
  exists i. split; [done|]. by eapply prefix_lookup_Some.
Qed.

Lemma resolvePayment_ok o s p s' : resolvePayment o s = (Ok p, s') →
  match truthy_str (es_paymentCoinId o) with
  | Some coin => p = ById coin ∧ bd_commands s' = bd_commands s
  | None => p = ByResult (NestedResult (length (bd_commands s)) 0) ∧ bd_commands s' = bd_commands s ++ [SplitCoins GasCoin [es_escrowAmount o]]
  end.
Proof. unfold resolvePayment. destruct (truthy_str _); by intros [= <- <-]. Qed.

Lemma resolveGroupAndLogArgs_ok g s ids s' : resolveGroupAndLogArgs config g s = (Ok ids, s') → s' = s
  ∧ match g with InTransaction x l => ids = (AArgument x, AArgument l) | Shared _ => ∃ a b, ids = (AString a, AString b) end.
Proof.
  destruct g as [x l|r]; cbn [resolveGroupAndLogArgs]; [by intros [= <- <-]|].
  intros (i & s1 & Ei & E)%bind_ok_inv. injection E as <- <-. unfold resolveGroupAndLog, resolve_ref in Ei.
  apply bind_ok_inv in Ei as (k & s2 & Ek & Ei). destruct (resolveGroupRef _ _); [|done]. injection Ek as <- <-.
  destruct (truthy_str _); [|done]. injection Ei as <- <-. split; eauto.
Qed.

(** The last arguments of a digest call. *)
Definition digest_call (o : PaidDigestOptions) (f : string) (c : Command) : Prop :=
  ∃ objects rec am key n,
    c = MoveCall (pk_latestPackageId config) (js "messaging") (js f) []
          (objects ++ [Pure rec; match pd_payment o with ById id => ObjectId id | ByResult a => Passed a end; Pure am; Pure key; Pure n; Clock])
    ∧ serialize Address (AString (pd_recipient o)) = Some rec ∧ serialize U64 (ANumber (pd_escrowAmount o)) = Some am.

(** Reads a digest call off its serialisations. *)
Ltac digest_case E :=
  run_binding E;
  repeat match type of E with
         | context [match serialize ?t ?a with _ => _ end] => let x := fresh "b" in let H := fresh "Hb" in destruct (serialize t a) as [x|] eqn:H; [|done]
         end;
  injection E as <-.

Lemma sendPaidMessageDigest_ok o s a s' : GroupCalls.sendPaidMessageDigest config o s = (Ok a, s') →
  ∃ c, bd_commands s' = bd_commands s ++ [c] ∧ digest_call o "send_paid_message_digest" c.
Proof.
  unfold GroupCalls.sendPaidMessageDigest. intros (ids & s1 & Ei & E)%bind_ok_inv. apply resolveGroupAndLogArgs_ok in Ei as [-> Hi].
  apply add_ok in E as (c & Ec & -> & _). exists c. split; [done|].
  destruct o as [[x l|r] rec [id|co] am key n]; cbn [pd_group] in Hi; first [destruct Hi as (? & ? & ->) | subst ids];
    digest_case Ec; (eexists [_; _; _; _; _; _; _; _], _, _, _, _; split; [reflexivity|by split]).
Qed.

Lemma sendAgentPaidMessageDigest_ok p m o s a s' : GroupCalls.sendAgentPaidMessageDigest config p m o s = (Ok a, s') →
  ∃ c, bd_commands s' = bd_commands s ++ [c] ∧ digest_call o "send_agent_paid_message_digest" c.
Proof.
  unfold GroupCalls.sendAgentPaidMessageDigest. intros (ids & s1 & Ei & E)%bind_ok_inv. apply resolveGroupAndLogArgs_ok in Ei as [-> Hi].
  apply add_ok in E as (c & Ec & -> & _). exists c. split; [done|].
  destruct o as [[x l|r] rec [id|co] am key n]; cbn [pd_group] in Hi; first [destruct Hi as (? & ? & ->) | subst ids];
    digest_case Ec; (eexists [_; _; _; _; _; _; _; _; _; _; _], _, _, _, _; split; [reflexivity|by split]).
Qed.

(** Paying and then sending a digest escrows. *)
Lemma paid_escrows t o g f (send : PaidDigestOptions → eff building call_error TransactionArgument) s u s' :
  (f = "send_paid_message_digest" ∨ f = "send_agent_paid_message_digest")%string →
  (∀ o s a s', send o s = (Ok a, s') → ∃ c, bd_commands s' = bd_commands s ++ [c] ∧ digest_call o f c) →
  (payment ← resolvePayment o; send (digest_options random32 random16 t o g payment)) s = (Ok u, s') →
  escrows o (bd_commands s').
Proof.
  intros Hf Hsend (p & s1 & Ep & E)%bind_ok_inv. apply resolvePayment_ok in Ep.
  apply Hsend in E as (c & -> & ob & rec & am & key & n & -> & Hr & Ha). cbn [digest_options pd_payment pd_recipient pd_escrowAmount] in *.
  exists f, ob. eexists. exists rec, am, key, n. split; [apply elem_of_app; right; by apply list_elem_of_singleton|].
  split; [destruct Hf as [-> | ->]; set_solver|]. split; [done|]. split; [done|].
  destruct (truthy_str _) as [id|]; destruct Ep as [-> Ep]; [done|]. eexists. split; [done|].
  rewrite Ep. rewrite <- app_assoc. apply lookup_here.
Qed.

Lemma pay_created_escrows t o a f send s u s' :
  (f = "send_paid_message_digest" ∨ f = "send_agent_paid_message_digest")%string →
  (∀ o s a s', send o s = (Ok a, s') → ∃ c, bd_commands s' = bd_commands s ++ [c] ∧ digest_call o f c) →
  pay_created random32 random16 t o a send s = (Ok u, s') → escrows o (bd_commands s').
Proof.
  intros Hf Hsend (p & s1 & Ep & E)%bind_ok_inv. apply bind_ok_inv in E as (x & s2 & Ex & E). injection E as _ <-.
  eapply (paid_escrows t o _ f send s); [exact Hf|exact Hsend|]. unfold mbind, eff_bind. rewrite Ep. exact Ex.
Qed.

(** An opening's transaction escrows. *)
Lemma built_escrows m skip o cs : opening m = Some (skip, o) → built_by m cs → escrows o cs.
Proof.
  intros Ho (t & u & uuid & c & s & E & ->). destruct m as [x|x|x|x y|x y|x y|x y]; try done; injection Ho as <- <-; cbn [paid_builder] in E.
  - unfold open_commands in E. apply bind_ok_inv in E as (a & s1 & _ & E). apply bind_ok_inv in E as (v & s2 & Ep & E).
    apply bind_ok_inv in E as (v2 & s3 & Ei & E). apply insert_entries_appends in Ei. apply share_created_appends in E.
    eapply escrows_prefix; [etrans; [exact Ei|exact E]|]. eapply pay_created_escrows; [by left|apply sendPaidMessageDigest_ok|exact Ep].
  - unfold agent_open_commands in E. apply bind_ok_inv in E as (a & s1 & _ & E). apply bind_ok_inv in E as (v & s2 & Ep & E).
    apply share_created_appends in E. eapply escrows_prefix; [exact E|].
    eapply pay_created_escrows; [by right|apply sendAgentPaidMessageDigest_ok|exact Ep].
  - apply bind_ok_inv in E as (v & s2 & Ep & E). injection E as <-.
    eapply paid_escrows; [by left|apply sendPaidMessageDigest_ok|exact Ep].
Qed.

(** What the check read when it passed: the answer to the request for the
    recipient's own policy. *)
Definition policy_allows (base : jsstr) (o : EscrowOptions) (w : paid_world) : Prop :=
  ∃ recipient status text v, encodeURIComponent (es_recipient o) = Some recipient
    ∧ pq_reply (world (pw_turn w)) (strip_slash base ++ js "/wallets/" ++ recipient ++ js "/messaging-policy")
      = Response status text (Ok v)
    ∧ 200 ≤ status ≤ 299
    ∧ obj_get v (js "enabled") = Some (JBool true)
    ∧ match obj_get v (js "min_cost") with
      | None | Some JNull => True
      | Some (JStr s) => ∃ min, StringToBigInt s = Some min ∧ min ≤ es_escrowAmount o
      | Some (JNum (Int min)) => min ≤ es_escrowAmount o
      | Some _ => False
      end.

Lemma policy_of_body_enabled wallet v p : policy_of_body wallet v = Ok p → wp_enabled p = true →
  obj_get v (js "enabled") = Some (JBool true) ∧ policy_min_cost (obj_get v (js "min_cost")) = Ok (wp_minCost p).
Proof.
  unfold policy_of_body. destruct (HttpCalls.field _ v "wallet") as [x|]; [|done].
  destruct (HttpCalls.field _ v "enabled") as [e|] eqn:Ee; [|done].
  destruct (policy_min_cost _) as [m|]; [|done]. intros [= <-]. simpl. intros He. split; [|done].
  unfold HttpCalls.field, HttpCalls.optional, HttpCalls.as_bool in Ee.
  destruct (obj_get v (js "enabled")) as [[]|]; simplify_eq/=; try done.
Qed.

Lemma gate_passed base o w u w' : gating = Some base → gate gating world false o w = (Ok u, w') → policy_allows base o w.
Proof.
  intros -> E. unfold gate in E. apply bind_ok_inv in E as (p & w1 & E & _). unfold assertPaidOpenAllowed in E.
  apply bind_ok_inv in E as (q & w2 & Eq & E). unfold getWalletMessagingPolicy in Eq.
  apply bind_ok_inv in Eq as (url & w3 & Eu & Eq). destruct (policy_url base (es_recipient o)) as [url'|] eqn:Hu; [|done]. injection Eu as <- <-.
  apply bind_ok_inv in Eq as (rep & w4 & Er & Eq). unfold paid_fetch in Er. apply bind_ok_inv in Er as (? & w5 & Em & Er).
  injection Em as _ <-. injection Er as <- <-. cbn [pw_turn] in Eq.
  destruct (pq_reply (world (pw_turn w)) url') as [name|status text body] eqn:Hr; [done|].
  destruct (status =? 404); [injection Eq as <- <-; done|]. destruct (response_ok status) eqn:Hs; [|done]. cbn [negb] in Eq.
  apply bind_ok_inv in Eq as (b & w6 & Eb & Eq). injection Eb as <- <-. destruct body as [v|name]; [|done].
  destruct (policy_of_body (es_recipient o) v) as [pol|e] eqn:Hp; [|done]. injection Eq as <- <-.
  destruct (wp_enabled pol) eqn:Hen; [|done]. cbn [negb] in E.
  destruct (policy_of_body_enabled _ _ _ Hp Hen) as [He Hm]. unfold policy_url in Hu.
  destruct (encodeURIComponent _) as [enc|] eqn:Henc; [|done]. injection Hu as <-.
  exists enc, status, text, v. split_and!; try done; [unfold response_ok in Hs; lia..|].
  destruct (wp_minCost pol) as [min|].
  - destruct (_ <? min) eqn:El; [done|]. bool_to_Z. unfold policy_min_cost in Hm.
    destruct (obj_get v (js "min_cost")) as [[| |[]|s| |]|]; simplify_eq; try done.
    destruct (StringToBigInt s) as [n|]; simplify_eq. eauto.
  - unfold policy_min_cost in Hm. destruct (obj_get v (js "min_cost")) as [[| |[]|s| |]|]; simplify_eq; try done.
    by destruct (StringToBigInt s).
Qed.

Lemma gate_blocks m o w r w' : opening m = Some (false, o) → run_paid m w = (r, w') →
  (∃ u w1, gate gating world false o w = (Ok u, w1)) ∨ pw_executed w' = pw_executed w.
Proof.
  intros Ho E. destruct (gate gating world false o w) as [[u|e] w1] eqn:Eg; [left; eauto|right].
  apply silent_gate in Eg as Hg. destruct Hg as [Hg _]. rewrite <- Hg.
  destruct m as [x|x|x|x y|x y|x y|x y]; try done; injection Ho as Hskip <-;
    unfold run_paid, openPaidDm, openAgentPaidDm, payDmEscrow in E; rewrite Hskip in E;
    unfold mbind at 1, eff_bind at 1 in E; unfold mbind at 1, eff_bind at 1 in E; rewrite Eg in E; by injection E as _ <-.
Qed.

End client.

(** * Witnesses *)

Definition open_options : OpenPaidDmOptions := {|
  od_sender := js "0xa"; od_name := None; od_uuid := Some (js "room"); od_skipGatingCheck := false;
  od_escrow := {| es_recipient := js "0xb"; es_escrowAmount := 25; es_paymentCoinId := None; es_dedupeKey := Some [1]; es_nonce := Some 7 |} |}.

(** The recipient asks for at least 20. *)
Definition paid_answers : nat → paid_step := λ _, {|
  pq_reply url := if bool_decide (url = js "https://s/wallets/0xb/messaging-policy")
    then Response 200 [] (Ok (JObj [(js "enabled", JBool true); (js "min_cost", JStr (js "20"))])) else Response 404 [] (Throw []);
  pq_executed := Some (Some {| tx_success := true; tx_error := None; tx_digest := js "D" |}); pq_waited := true;
  pq_minReplyChars := None; pq_onChainPolicy := None |}.

Definition fresh_paid : @paid_world address_lib address_cache := @PaidWorld address_lib address_cache 0 [] None [] [].

Definition paid_run : outcome paid_error unit * paid_world :=
  @run_paid address_lib plain_bcs address_cache plain_serialize unit sample_stack 1 sample_policy (sample_build None)
    (js "Group") (js "History") (js "Log") (Some (js "https://s")) paid_answers (λ _, []) (λ _, []) (λ _, [])
    (OpenPaidDm open_options) fresh_paid.

(** One transaction of eight commands. *)
Lemma paid_transactions_typed_witness :
  paid_run.1 = Ok tt ∧ ∃ cs, pw_executed paid_run.2 = [cs] ∧ length cs = 8%nat ∧ well_typed sample_signature cs = true.
Proof.
  assert (paid_run.1 = Ok tt) as Er by (vm_compute; reflexivity). split; [exact Er|].
  destruct (@paid_transactions_typed address_lib plain_bcs address_cache plain_serialize unit sample_stack 1 sample_policy
    (sample_build None) (js "Group") (js "History") (js "Log") (Some (js "https://s")) paid_answers (λ _, []) (λ _, []) (λ _, [])
    remove_call sample_signature (OpenPaidDm open_options) fresh_paid paid_run.1 paid_run.2 sample_declared sample_bindings (surjective_pairing _))
    as [[_ (e & He)]|(cs & Hc & _ & Ht)].
  - rewrite Er in He. discriminate He.
  - exists cs. split; [exact Hc|]. split; [|exact Ht].
    assert (length <$> pw_executed paid_run.2 = [8%nat]) as Hl by (vm_compute; reflexivity). rewrite Hc in Hl. by injection Hl.
Defined.

