(* ===== verification/Pagination.v ===== *)
(** Paged lists of the chat application ([src/chat-app/src/lib/pagination.ts]):
    walking every page up front, and the next request of a progressive list.

    The server is the environment: [env n] is what the [n]-th page request meets, with
    what the abort signal says before and after it.  The walk also gives the pages it
    fetched, with the requests they answered. *)
From S2P Require Import Prelude JsString.
From Stdlib Require Import QArith.
#[global] Open Scope Z_scope.

Definition MAX_PAGE_LIMIT : Z := 100.
Definition DEFAULT_MAX_PAGES : Z := 50.

(** * Numbers

    A JavaScript number as [Math.trunc], [Math.min] and [Math.max] see it. *)
Inductive js_num := NaN | Infinite (negative : bool) | Num (q : Q).

Definition trunc (q : Q) : Z := Z.quot (Qnum q) (Z.pos (Qden q)).

Definition clampLimit (limit : option js_num) : Z :=
  match limit with
  | Some (Num q) => Z.min (Z.max (trunc q) 1) MAX_PAGE_LIMIT
  | _ => MAX_PAGE_LIMIT
  end.

(** The bound of [while (pages < maxPages)]; [None] is [Infinity].  Against [NaN] the
    comparison is false at once. *)
Definition page_bound (maxPages : option js_num) : option nat :=
  match default (Num (inject_Z DEFAULT_MAX_PAGES)) maxPages with
  | NaN => Some 0%nat
  | Infinite false => None
  | Infinite true => Some 1%nat
  | Num q => Some (Z.to_nat (Z.max 1 (trunc q)))
  end.

(** * Pages *)

Record PageRequest := { rq_limit : Z; rq_offset : Z }.

Inductive StopReason := EmptyPage | ShortPage | TotalCount | NoProgress | MaxPages | Unsupported | Error | Aborted.

#[global] Instance StopReason_eq_dec : EqDecision StopReason.
Proof. solve_decision. Defined.

Definition isCompleteReason (r : StopReason) : bool := match r with EmptyPage | ShortPage | TotalCount => true | _ => false end.

Record PageResult (T : Type) := { items : list T; totalCount : option Z; pagingSupported : option bool }.
Arguments items {T} _.
Arguments totalCount {T} _.
Arguments pagingSupported {T} _.

Record PagedPage (T : Type) := { page : PageResult T; request : PageRequest }.
Arguments page {T} _.
Arguments request {T} _.

Record CollectResult (T E : Type) := {
  cr_items : list T; cr_totalCount : option Z; cr_complete : bool; cr_reason : StopReason; cr_pages : nat; cr_partialError : option E;
}.
Arguments cr_items {T E} _.
Arguments cr_totalCount {T E} _.
Arguments cr_complete {T E} _.
Arguments cr_reason {T E} _.
Arguments cr_pages {T E} _.
Arguments cr_partialError {T E} _.

(** What the [n]-th request meets. *)
Record page_step (T E : Type) := { ps_abortedBefore : bool; ps_page : PageRequest → outcome E (PageResult T); ps_abortedAfter : bool }.
Arguments ps_abortedBefore {T E} _.
Arguments ps_page {T E} _.
Arguments ps_abortedAfter {T E} _.

Section pagination.
Context {T E : Type} (keyOf : T → jsstr).

(** [for (const row of page.items)]: the rows not seen before are kept. *)
Fixpoint take_rows (rows : list T) (seen : list jsstr) (kept : list T) : list jsstr * list T :=
  match rows with
  | [] => (seen, kept)
  | row :: rows' =>
      if decide (keyOf row ∈ seen) then take_rows rows' seen kept
      else take_rows rows' (seen ++ [keyOf row]) (kept ++ [row])
  end.

Definition flattenPages (pages : list (PagedPage T)) : list T :=
  (foldl (λ acc p, take_rows (items (page p)) acc.1 acc.2) ([], []) pages).2.

Fixpoint pagesTotalCount (pages : list (PagedPage T)) : option Z :=
  match pages with
  | [] => None
  | p :: pages' => match totalCount (page p) with Some n => Some n | None => pagesTotalCount pages' end
  end.

Definition pagesPagingUnsupported (pages : list (PagedPage T)) : bool :=
  existsb (λ p, bool_decide (pagingSupported (page p) = Some false)) pages.

(** * [collectAllPages] *)

Record walking := {
  wk_seen : list jsstr; wk_items : list T; wk_total : option Z; wk_offset : Z; wk_pages : nat; wk_fetched : list (PagedPage T);
}.

Definition walk_start : walking := {| wk_seen := []; wk_items := []; wk_total := None; wk_offset := 0; wk_pages := 0; wk_fetched := [] |}.

Definition finish (w : walking) (reason : StopReason) (partialError : option E) : CollectResult T E := {|
  cr_items := wk_items w; cr_totalCount := wk_total w; cr_complete := isCompleteReason reason; cr_reason := reason;
  cr_pages := wk_pages w; cr_partialError := partialError |}.

(** The state after a page has been taken in. *)
Definition taken (w : walking) (q : PageRequest) (p : PageResult T) : walking :=
  let added := take_rows (items p) (wk_seen w) (wk_items w) in
  {| wk_seen := added.1; wk_items := added.2; wk_total := match wk_total w with Some n => Some n | None => totalCount p end;
     wk_offset := wk_offset w; wk_pages := S (wk_pages w); wk_fetched := wk_fetched w ++ [{| page := p; request := q |}] |}.

(** Why the walk stops after a page, if it does; [before] is what it held. *)
Definition stop_after (limit : Z) (abortedAfter : bool) (before w : walking) (p : PageResult T) : option StopReason :=
  if bool_decide (pagingSupported p = Some false) then Some Unsupported
  else if bool_decide (items p = []) then Some EmptyPage
  else if Z.of_nat (length (items p)) <? limit then Some ShortPage
  else if (match wk_total w with Some n => n <=? Z.of_nat (length (wk_items w)) | None => false end) then Some TotalCount
  else if bool_decide (length (wk_items w) = length (wk_items before)) then Some NoProgress
  else if abortedAfter then Some Aborted
  else None.

Definition advance (w : walking) (p : PageResult T) : walking := {|
  wk_seen := wk_seen w; wk_items := wk_items w; wk_total := wk_total w; wk_offset := wk_offset w + Z.of_nat (length (items p));
  wk_pages := wk_pages w; wk_fetched := wk_fetched w |}.

(** The loop.  [None]: the fuel ran out. *)
Fixpoint walk (fuel : nat) (env : nat → page_step T E) (limit : Z) (bound : option nat) (w : walking)
    : option (outcome E (CollectResult T E) * list (PagedPage T)) :=
  match fuel with
  | O => None
  | S fuel' =>
      if (match bound with Some n => bool_decide (wk_pages w < n)%nat | None => true end) then
        let step := env (wk_pages w) in
        if ps_abortedBefore step then Some (Ok (finish w Aborted None), wk_fetched w) else
        let q := {| rq_limit := limit; rq_offset := wk_offset w |} in
        match ps_page step q with
        | Throw e => Some (if decide (wk_pages w = 0%nat) then Throw e else Ok (finish w Error (Some e)), wk_fetched w)
        | Ok p =>
            let w' := taken w q p in
            match stop_after limit (ps_abortedAfter step) w w' p with
            | Some reason => Some (Ok (finish w' reason None), wk_fetched w')
            | None => walk fuel' env limit bound (advance w' p)
            end
        end
      else Some (Ok (finish w MaxPages None), wk_fetched w)
  end.

Definition collectAllPages (fuel : nat) (env : nat → page_step T E) (limit maxPages : option js_num)
    : option (outcome E (CollectResult T E) * list (PagedPage T)) :=
  walk fuel env (clampLimit limit) (page_bound maxPages) walk_start.

(** * The progressive list *)

(** [makePagedQueryFn] *)
Definition makePagedQueryFn (fetchPage : PageRequest → PageResult T) (pageParam : PageRequest) : PagedPage T :=
  {| page := fetchPage pageParam; request := pageParam |}.

(** The keys of pages, as a [Set]. *)
Definition collect_keys (pages : list (PagedPage T)) : list jsstr :=
  (foldl (λ acc p, take_rows (items (page p)) acc.1 acc.2) ([], []) pages).1.

Definition nextPageRequest (allPages : list (PagedPage T)) : option PageRequest :=
  match last allPages with
  | None => None
  | Some l =>
      if bool_decide (pagingSupported (page l) = Some false) then None
      else if bool_decide (items (page l) = []) then None
      else if Z.of_nat (length (items (page l))) <? rq_limit (request l) then None
      else
        let collected := collect_keys allPages in
        let newKeys := (length collected - length (collect_keys (take (length allPages - 1) allPages)))%nat in
        if (match totalCount (page l) with Some n => n <=? Z.of_nat (length collected) | None => false end) then None
        else if bool_decide (newKeys = 0%nat) then None
        else Some {| rq_limit := rq_limit (request l); rq_offset := rq_offset (request l) + Z.of_nat (length (items (page l))) |}
  end.

(** What [usePaginatedList] shows of the loaded pages ([src/chat-app/src/hooks/usePaginatedList.ts]). *)
Definition truncated (pages : list (PagedPage T)) : bool :=
  match last pages with
  | None => false
  | Some l =>
      let stoppedOnFullPage := rq_limit (request l) <=? Z.of_nat (length (items (page l))) in
      let reachedTotal := match pagesTotalCount pages with Some n => n <=? Z.of_nat (length (flattenPages pages)) | None => false end in
      bool_decide (nextPageRequest pages = None) && (pagesPagingUnsupported pages || (stoppedOnFullPage && negb reachedTotal))
  end.

Definition list_complete (pages : list (PagedPage T)) : bool :=
  match last pages with None => false | Some _ => bool_decide (nextPageRequest pages = None) && negb (truncated pages) end.

(** * Rows taken once *)

Lemma take_rows_seen rows kept : (take_rows rows (keyOf <$> kept) kept).1 = keyOf <$> (take_rows rows (keyOf <$> kept) kept).2.
Proof.
  revert kept. induction rows as [|r rows IH]; intros kept; [done|]. simpl. case_decide; [apply IH|].
  specialize (IH (kept ++ [r])). by rewrite fmap_app in IH.
Qed.

Lemma take_rows_grows rows seen kept : kept `prefix_of` (take_rows rows seen kept).2.
Proof.
  revert seen kept. induction rows as [|r rows IH]; intros seen kept; [done|]. simpl. case_decide; [apply IH|].
  eapply prefix_app_l, IH.
Qed.

Lemma take_rows_members rows seen kept x : x ∈ (take_rows rows seen kept).2 → x ∈ kept ∨ x ∈ rows.
Proof.
  revert seen kept. induction rows as [|r rows IH]; intros seen kept; simpl; [by left|]. case_decide; intros [Hx|Hx]%IH; set_solver.
Qed.

Lemma take_rows_covers rows kept x : x ∈ rows → keyOf x ∈ keyOf <$> (take_rows rows (keyOf <$> kept) kept).2.
Proof.
  revert kept. induction rows as [|r rows IH]; intros kept; [by intros ?%not_elem_of_nil|]. simpl.
  pose proof (IH (kept ++ [r])) as IH'. rewrite fmap_app in IH'.
  intros [->|Hx]%elem_of_cons; case_decide as Hr; try by auto.
  - destruct (take_rows_grows rows (keyOf <$> kept) kept) as [l ->]. rewrite fmap_app. set_solver.
  - destruct (take_rows_grows rows ((keyOf <$> kept) ++ [keyOf r]) (kept ++ [r])) as [l ->]. rewrite !fmap_app. set_solver.
Qed.

Lemma take_rows_NoDup rows kept : NoDup (keyOf <$> kept) → NoDup (keyOf <$> (take_rows rows (keyOf <$> kept) kept).2).
Proof.
  revert kept. induction rows as [|r rows IH]; intros kept Hk; [done|]. simpl. case_decide as Hr; [by apply IH|].
  pose proof (IH (kept ++ [r])) as IH'. rewrite fmap_app in IH'. apply IH'. apply NoDup_app. simpl.
  split; [done|]. split; [set_solver|]. apply NoDup_singleton.
Qed.

Lemma take_rows_fresh rows kept : NoDup (keyOf <$> kept ++ rows) → (take_rows rows (keyOf <$> kept) kept).2 = kept ++ rows.
Proof.
  revert kept. induction rows as [|r rows IH]; intros kept Hk; [by rewrite app_nil_r|]. simpl.
  rewrite decide_False; cycle 1.
  { rewrite fmap_app, fmap_cons in Hk. apply NoDup_app in Hk as (_ & Hk & _). intros Hr. by eapply Hk; [done|left]. }
  specialize (IH (kept ++ [r])). rewrite <-app_assoc, (fmap_app keyOf kept [r]) in IH. by apply IH.
Qed.

(** * The walk *)

(** At the head of the loop. *)
Record walked (w : walking) : Prop := {
  wd_seen : wk_seen w = keyOf <$> wk_items w;
  wd_acc : foldl (λ acc p, take_rows (items (page p)) acc.1 acc.2) ([], []) (wk_fetched w) = (wk_seen w, wk_items w);
  wd_total : wk_total w = pagesTotalCount (wk_fetched w);
  wd_pages : wk_pages w = length (wk_fetched w);
}.

Lemma walked_start : walked walk_start.
Proof. by split. Qed.

Lemma pagesTotalCount_snoc ps p :
  pagesTotalCount (ps ++ [p]) = match pagesTotalCount ps with Some n => Some n | None => totalCount (page p) end.
Proof. induction ps as [|a ps IH]; simpl; [by destruct (totalCount (page p))|]. by destruct (totalCount (page a)). Qed.

Lemma walked_taken w q p : walked w → walked (taken w q p).
Proof.
  intros [Hs Ha Ht Hp]. split; simpl.
  - rewrite Hs. apply take_rows_seen.
  - rewrite foldl_app. simpl. rewrite Ha. simpl. by rewrite <-surjective_pairing.
  - by rewrite pagesTotalCount_snoc, <-Ht.
  - rewrite length_app, Hp. simpl. lia.
Qed.

Lemma walked_advance w p : walked w → walked (advance w p).
Proof. by intros [Hs Ha Ht Hp]. Qed.

#[local] Hint Resolve walked_start walked_taken walked_advance : msg.

Lemma walked_flatten w : walked w → flattenPages (wk_fetched w) = wk_items w.
Proof. intros [_ Ha _ _]. unfold flattenPages. by rewrite Ha. Qed.

(** Both lists stop on the same page, when the totals of its pages agree. *)
Lemma next_after limit w p : walked w →
  let q := {| rq_limit := limit; rq_offset := wk_offset w |} in
  let w' := taken w q p in
  wk_total w' = totalCount p →
  nextPageRequest (wk_fetched w') = match stop_after limit false w w' p with
                                    | Some _ => None
                                    | None => Some {| rq_limit := limit; rq_offset := wk_offset (advance w' p) |}
                                    end.
Proof.
  intros Hw q w' Ht. assert (Hw' : walked w') by (by apply walked_taken).
  assert (Hc : collect_keys (wk_fetched w') = keyOf <$> wk_items w') by (unfold collect_keys; by rewrite (wd_acc _ Hw'), (wd_seen _ Hw')).
  assert (Hc0 : collect_keys (wk_fetched w) = keyOf <$> wk_items w) by (unfold collect_keys; by rewrite (wd_acc _ Hw), (wd_seen _ Hw)).
  assert (Hf : wk_fetched w' = wk_fetched w ++ [{| page := p; request := q |}]) by done.
  unfold nextPageRequest. rewrite Hc. rewrite Hf at 1. rewrite last_snoc. rewrite Hf.
  replace (take (length (wk_fetched w ++ [{| page := p; request := q |}]) - 1) (wk_fetched w ++ [{| page := p; request := q |}]))
    with (wk_fetched w) by (rewrite length_app, Nat.add_sub, take_app_length; done).
  rewrite Hc0, !length_fmap. cbn [page request rq_limit rq_offset]. unfold stop_after. rewrite Ht.
  assert (Hg : (length (wk_items w) ≤ length (wk_items w'))%nat) by (apply prefix_length, take_rows_grows).
  assert (Hn : bool_decide (length (wk_items w') - length (wk_items w) = 0)%nat = bool_decide (length (wk_items w') = length (wk_items w)))
    by (apply bool_decide_ext; lia).
  rewrite Hn. change (rq_limit q) with limit. by repeat case_match.
Qed.

(** * The two lists agree *)

(** Pages loaded one after the other, as [useInfiniteQuery] asks for them. *)
Inductive loads (limit : Z) (fetchPage : PageRequest → PageResult T) : list (PagedPage T) → Prop :=
  | loads_first : loads limit fetchPage [makePagedQueryFn fetchPage {| rq_limit := limit; rq_offset := 0 |}]
  | loads_more ps q : loads limit fetchPage ps → nextPageRequest ps = Some q → loads limit fetchPage (ps ++ [makePagedQueryFn fetchPage q]).

(** A server that answers by the request, and a signal that never aborts. *)
Definition steady (env : nat → page_step T E) (fetchPage : PageRequest → PageResult T) : Prop :=
  ∀ n, ps_abortedBefore (env n) = false ∧ ps_abortedAfter (env n) = false ∧ ∀ q, ps_page (env n) q = Ok (fetchPage q).

(** What is shown as whole is what the walk calls complete. *)
Lemma complete_agrees limit w p reason : walked w → pagesPagingUnsupported (wk_fetched w) = false →
  let w' := taken w {| rq_limit := limit; rq_offset := wk_offset w |} p in
  wk_total w' = totalCount p → 1 ≤ limit → stop_after limit false w w' p = Some reason →
  list_complete (wk_fetched w') = isCompleteReason reason.
Proof.
  intros Hw Hu w' Ht Hl Hs. assert (Hw' : walked w') by (by apply walked_taken).
  pose proof (next_after limit w p Hw) as Hn. cbv zeta in Hn. fold w' in Hn. specialize (Hn Ht). rewrite Hs in Hn.
  assert (Hlast : last (wk_fetched w') = Some {| page := p; request := {| rq_limit := limit; rq_offset := wk_offset w |} |})
    by (apply last_snoc).
  assert (Hu' : pagesPagingUnsupported (wk_fetched w') = bool_decide (pagingSupported p = Some false)).
  { unfold pagesPagingUnsupported in *. simpl. rewrite existsb_app, Hu. simpl. by rewrite orb_false_r. }
  unfold list_complete, truncated. rewrite Hlast, Hn, Hu', walked_flatten, <-(wd_total _ Hw') by done.
  cbn [page request rq_limit]. unfold stop_after in Hs. rewrite !bool_decide_true by done.
  destruct (bool_decide (pagingSupported p = Some false)); [by simplify_eq|].
  case_bool_decide as Hi; simplify_eq.
  { rewrite (proj2 (Z.leb_gt limit _)); [done|]. rewrite Hi. simpl. lia. }
  destruct (Z.ltb_spec (Z.of_nat (length (items p))) limit) as [Hlt|Hlt]; simplify_eq.
  { by rewrite (proj2 (Z.leb_gt limit _) Hlt). }
  rewrite (proj2 (Z.leb_le limit _) Hlt). destruct (match wk_total w' with Some n => _ | None => _ end); simplify_eq; [done|].
  by case_bool_decide; simplify_eq.
Qed.

(** How a walk and the progressive list stand to each other. *)
Definition agreeing (limit : Z) (fetchPage : PageRequest → PageResult T) (res : CollectResult T E) (ps : list (PagedPage T)) : Prop :=
  loads limit fetchPage ps ∧ cr_items res = flattenPages ps ∧ cr_totalCount res = pagesTotalCount ps ∧ cr_pages res = length ps
  ∧ cr_partialError res = None
  ∧ if decide (cr_reason res = MaxPages) then nextPageRequest ps ≠ None
    else nextPageRequest ps = None ∧ cr_complete res = list_complete ps.

Lemma walk_agrees fuel env fetchPage limit bound w r ps :
  steady env fetchPage → (∀ q q', totalCount (fetchPage q) = totalCount (fetchPage q')) → 1 ≤ limit →
  walked w → pagesPagingUnsupported (wk_fetched w) = false →
  (wk_pages w = 0%nat ∧ wk_offset w = 0 ∧ bound ≠ Some 0%nat
   ∨ loads limit fetchPage (wk_fetched w) ∧ nextPageRequest (wk_fetched w) = Some {| rq_limit := limit; rq_offset := wk_offset w |}
     ∧ ∀ q, wk_total w = totalCount (fetchPage q)) →
  walk fuel env limit bound w = Some (r, ps) →
  ∃ res, r = Ok res ∧ agreeing limit fetchPage res ps.
Proof.
  intros Hst Htot Hl. revert w. induction fuel as [|fuel IH]; intros w Hw Hu Hat; [done|]. simpl.
  destruct (Hst (wk_pages w)) as (-> & -> & Hpage). rewrite Hpage.
  set (q := {| rq_limit := limit; rq_offset := wk_offset w |}).
  assert (Hstart : wk_pages w = 0%nat → wk_fetched w = []) by (rewrite (wd_pages _ Hw); by intros ?%nil_length_inv).
  destruct (match bound with Some n => _ | None => _ end) eqn:Hb.
  2:{ intros [= <- <-]. eexists; split; [done|]. destruct Hat as [(Hp & _ & Hz)|(Hld & Hnext & Ht)].
      { destruct bound as [n|]; [|done]. apply bool_decide_eq_false in Hb. destruct n; [done|lia]. }
      split; [done|]. split; [by rewrite walked_flatten|]. split; [apply Hw|]. split; [apply Hw|]. split; [done|].
      simpl. rewrite Hnext. done. }
  assert (Hld' : loads limit fetchPage (wk_fetched (taken w q (fetchPage q)))).
  { destruct Hat as [(Hp & Ho & _)|(Hld & Hnext & _)]; simpl.
    - rewrite Hstart by done. unfold q. rewrite Ho. apply loads_first.
    - by apply (loads_more _ _ _ q). }
  assert (Ht' : wk_total (taken w q (fetchPage q)) = totalCount (fetchPage q)).
  { destruct Hat as [(Hp & _ & _)|(_ & _ & Ht)]; simpl.
    - by rewrite (wd_total _ Hw), Hstart.
    - rewrite (Ht q). by destruct (totalCount (fetchPage q)). }
  pose proof (next_after limit w (fetchPage q) Hw Ht') as Hn. cbv zeta in Hn. fold q in Hn.
  destruct (stop_after _ _ _ _ _) as [reason|] eqn:Hs.
  - intros [= <- <-]. eexists; split; [done|]. assert (Hw' := walked_taken w q (fetchPage q) Hw).
    split; [done|]. split; [exact (eq_sym (walked_flatten _ Hw'))|]. split; [apply Hw'|]. split; [apply Hw'|]. split; [done|].
    cbn [cr_reason finish cr_complete]. rewrite decide_False; cycle 1.
    { intros ->. unfold stop_after in Hs. by repeat case_match; simplify_eq. }
    split; [done|]. symmetry. by eapply complete_agrees.
  - apply IH; [by apply walked_advance, walked_taken| |].
    + unfold pagesPagingUnsupported in *. simpl. rewrite existsb_app, Hu. simpl. rewrite orb_false_r.
      unfold stop_after in Hs. by destruct (bool_decide (pagingSupported (fetchPage q) = Some false)).
    + right. split; [done|]. split; [done|]. intros q'. rewrite (Htot q' q). done.
Qed.

(** * The walk ends, and on what *)

Lemma walk_ends env limit n w : walked w → (wk_pages w ≤ n)%nat → ∀ fuel, (n - wk_pages w < fuel)%nat →
  ∃ r ps, walk fuel env limit (Some n) w = Some (r, ps) ∧ (length ps ≤ n)%nat
    ∧ match r with
      | Throw _ => ps = []
      | Ok res => cr_items res = flattenPages ps ∧ cr_totalCount res = pagesTotalCount ps ∧ cr_pages res = length ps
                  ∧ (cr_complete res = true → cr_partialError res = None)
      end.
Proof.
  intros Hw Hn fuel. revert w Hw Hn. induction fuel as [|fuel IH]; intros w Hw Hn Hf; [lia|]. simpl.
  assert (Hend : ∀ w' reason e, walked w' → (length (wk_fetched w') ≤ n)%nat → (isCompleteReason reason = true → e = None) →
    ∃ r ps, Some (Ok (finish w' reason e) : outcome E (CollectResult T E), wk_fetched w') = Some (r, ps) ∧ (length ps ≤ n)%nat
      ∧ match r with
        | Throw _ => ps = []
        | Ok res => cr_items res = flattenPages ps ∧ cr_totalCount res = pagesTotalCount ps ∧ cr_pages res = length ps
                    ∧ (cr_complete res = true → cr_partialError res = None)
        end).
  { intros w' reason e Hw' Hlen He. eexists _, _. split; [done|]. split; [done|].
    split; [exact (eq_sym (walked_flatten _ Hw'))|]. split; [apply Hw'|]. split; [apply Hw'|done]. }
  pose proof (wd_pages _ Hw) as Hp.
  case_bool_decide as Hb; [|apply Hend; [done|lia|done]].
  destruct (ps_abortedBefore _); [apply Hend; [done|lia|done]|].
  destruct (ps_page _ _) as [p|e].
  - pose proof (walked_taken w {| rq_limit := limit; rq_offset := wk_offset w |} p Hw) as Hw'.
    destruct (stop_after _ _ _ _ _) as [reason|].
    + apply Hend; [done| |done]. rewrite <-(wd_pages _ Hw'). simpl. lia.
    + apply IH; [by apply walked_advance|simpl; lia|simpl; lia].
  - destruct (decide (wk_pages w = 0%nat)) as [H0|H0]; [|apply Hend; [done|lia|done]].
    eexists _, _. split; [done|]. rewrite H0 in Hp. symmetry in Hp. apply nil_length_inv in Hp. rewrite Hp. simpl. split; [lia|done].
Qed.

(** C21.  The two ways to page agree.  Against a server that answers each request the same
    way and reports the same total on every page, walking all pages (which ends) and loading
    them progressively send the same requests in the same order, stop at the same page, keep
    the same rows and call the same lists complete; a walk that stops at its page limit has
    loaded a beginning of the progressive list, which goes on. *)
Theorem paging_agrees fuel env fetchPage limit maxPages n :
  steady env fetchPage → (∀ q q', totalCount (fetchPage q) = totalCount (fetchPage q')) →
  page_bound maxPages = Some n → (0 < n < fuel)%nat →
  ∃ res ps, collectAllPages fuel env limit maxPages = Some (Ok res, ps) ∧ agreeing (clampLimit limit) fetchPage res ps.
Proof.
  intros Hst Htot Hb Hn. unfold collectAllPages. rewrite Hb.
  destruct (walk_ends env (clampLimit limit) n walk_start walked_start ltac:(simpl; lia) fuel ltac:(simpl; lia)) as (r & ps & Hwalk & _).
  destruct (walk_agrees fuel env fetchPage (clampLimit limit) (Some n) walk_start r ps) as (res & -> & H); try done.
  - unfold clampLimit, MAX_PAGE_LIMIT. repeat case_match; lia.
  - left. split; [done|]. split; [done|]. intros [= ->]. lia.
  - eauto.
Qed.

(** A walk ends.  Whatever the server answers and whenever the signal aborts, a walk
    bounded by [maxPages] sends at most that many requests and returns: what it returns are
    the rows of the pages it read, each key once and none lost, with the first total any
    of them reported; it throws only if the first page could not be read; and it never calls
    a list complete after an error. *)
Lemma paging_ends env limit maxPages n fuel :
  page_bound maxPages = Some n → (n < fuel)%nat →
  ∃ r ps, collectAllPages fuel env limit maxPages = Some (r, ps) ∧ (length ps ≤ n)%nat
    ∧ match r with
      | Throw _ => ps = []
      | Ok res => NoDup (keyOf <$> cr_items res)
                  ∧ (∀ x, x ∈ cr_items res → ∃ p, p ∈ ps ∧ x ∈ items (page p))
                  ∧ (∀ p x, p ∈ ps → x ∈ items (page p) → keyOf x ∈ keyOf <$> cr_items res)
                  ∧ cr_totalCount res = pagesTotalCount ps ∧ cr_pages res = length ps
                  ∧ (cr_complete res = true → cr_partialError res = None)
      end.
Proof.
  intros Hb Hf. unfold collectAllPages. rewrite Hb.
  destruct (walk_ends env (clampLimit limit) n walk_start walked_start) with (fuel := fuel) as (r & ps & Hr & Hlen & Hres); [simpl; lia..|].
  exists r, ps. split; [done|]. split; [done|]. destruct r as [res|e]; [|done]. destruct Hres as (Hi & Hrest).
  assert (Hfl : ∀ ps, ∃ l, foldl (λ acc p, take_rows (items (page p)) acc.1 acc.2) ([], []) ps = (keyOf <$> l, l) ∧ NoDup (keyOf <$> l)
    ∧ (∀ x, x ∈ l → ∃ p, p ∈ ps ∧ x ∈ items (page p)) ∧ (∀ p x, p ∈ ps → x ∈ items (page p) → keyOf x ∈ keyOf <$> l)).
  { clear. induction ps as [|p ps (l & IHf & IHn & IHm & IHc)] using rev_ind.
    { exists []. split; [done|]. split; [constructor|]. set_solver. }
    rewrite foldl_app. simpl. rewrite IHf. exists (take_rows (items (page p)) (keyOf <$> l) l).2. simpl.
    split; [by rewrite <-take_rows_seen, <-surjective_pairing|]. split; [by apply take_rows_NoDup|]. split.
    - intros x [Hx|Hx]%take_rows_members; [destruct (IHm _ Hx) as (p' & ? & ?)|]; set_solver.
    - intros p' x [Hp|Hp]%elem_of_app Hx; [|apply list_elem_of_singleton in Hp as ->; by apply take_rows_covers].
      destruct (take_rows_grows (items (page p)) (keyOf <$> l) l) as [l' ->]. rewrite fmap_app. set_solver. }
  destruct (Hfl ps) as (l & Hl & Hnd & Hm & Hc). unfold flattenPages in Hi. rewrite Hl in Hi. simpl in Hi. rewrite Hi. done.
Qed.

(** A server with a list of rows, which it may count. *)
Definition served (rows : list T) (counted : bool) (q : PageRequest) : PageResult T := {|
  items := take (Z.to_nat (rq_limit q)) (drop (Z.to_nat (rq_offset q)) rows);
  totalCount := if counted then Some (Z.of_nat (length rows)) else None; pagingSupported := None |}.

Lemma take_step rows (k L : nat) : NoDup (keyOf <$> rows) →
  (take_rows (take L (drop (k * L) rows)) (keyOf <$> take (k * L) rows) (take (k * L) rows)).2 = take (S k * L) rows.
Proof.
  intros Hnd. rewrite take_rows_fresh; rewrite take_take_drop; [f_equal; lia|].
  rewrite <-(take_drop (k * L + L) rows), fmap_app in Hnd. by apply NoDup_app in Hnd as [? _].
Qed.

Lemma walk_served fuel env rows counted (L n : nat) w : steady env (served rows counted) → NoDup (keyOf <$> rows) →
  (1 ≤ L)%nat → (0 < n)%nat → (wk_pages w ≤ n < wk_pages w + fuel)%nat → walked w →
  wk_items w = take (wk_pages w * L) rows → wk_offset w = Z.of_nat (wk_pages w * L) → (wk_pages w * L ≤ length rows)%nat →
  (counted = true → wk_pages w = 0%nat ∨ (wk_pages w * L < length rows)%nat) →
  (wk_total w = None ∨ counted = true ∧ wk_total w = Some (Z.of_nat (length rows))) →
  ∃ res ps, walk fuel env (Z.of_nat L) (Some n) w = Some (Ok res, ps) ∧ cr_items res = take (n * L) rows
    ∧ (cr_complete res = true ↔ (length rows < n * L)%nat ∨ counted = true ∧ (length rows ≤ n * L)%nat).
Proof.
  intros Hst Hnd HL H0. revert w. induction fuel as [|fuel IH]; intros w Hn Hw Hi Ho Hle Hc Ht; [lia|]. simpl.
  destruct (Hst (wk_pages w)) as (-> & -> & Hpage). rewrite Hpage. case_bool_decide as Hb; cycle 1.
  { assert (wk_pages w = n) as Hk by lia. rewrite Hk in *. eexists _, _. split; [done|]. split; [done|]. simpl. split; [done|].
    intros [?|[Hct ?]]; [lia|]. destruct (Hc Hct); lia. }
  set (k := wk_pages w) in *. set (q := {| rq_limit := Z.of_nat L; rq_offset := wk_offset w |}).
  assert (Hrows : items (served rows counted q) = take L (drop (k * L) rows)) by (simpl; by rewrite Ho, !Nat2Z.id).
  assert (Hlen : length (items (served rows counted q)) = min L (length rows - k * L)) by (by rewrite Hrows, length_take, length_drop).
  pose proof (walked_taken w q (served rows counted q) Hw) as Hw'.
  assert (Hi' : wk_items (taken w q (served rows counted q)) = take (S k * L) rows).
  { cbn [wk_items taken]. rewrite Hrows, (wd_seen _ Hw), Hi. by apply take_step. }
  assert (Ht' : wk_total (taken w q (served rows counted q)) = if counted then Some (Z.of_nat (length rows)) else None).
  { simpl. destruct Ht as [->|[-> ->]]; done. }
  assert (HkL : (S k * L ≤ n * L)%nat) by (apply Nat.mul_le_mono_r; lia).
  assert (Hdone : ∀ reason, stop_after (Z.of_nat L) false w (taken w q (served rows counted q)) (served rows counted q) = Some reason →
    (length rows ≤ S k * L)%nat ∧ isCompleteReason reason = true
    ∧ ((length rows < n * L)%nat ∨ counted = true ∧ (length rows ≤ n * L)%nat)).
  { intros reason. unfold stop_after. rewrite Ht', Hi', Hi, Hlen. cbn [pagingSupported served]. rewrite bool_decide_false by done.
    case_bool_decide as He.
    { intros [= <-]. apply (f_equal length) in He. rewrite Hlen in He. simpl in He. split; [lia|]. split; [done|]. left. lia. }
    destruct (Z.ltb_spec (Z.of_nat (min L (length rows - k * L))) (Z.of_nat L)).
    { intros [= <-]. split; [lia|]. split; [done|]. left. lia. }
    destruct counted.
    - destruct (Z.leb_spec (Z.of_nat (length rows)) (Z.of_nat (length (take (S k * L) rows)))) as [Hr|Hr].
      { intros [= <-]. rewrite length_take in Hr. split; [lia|]. split; [done|]. right. split; [done|lia]. }
      rewrite bool_decide_false; [done|]. rewrite !length_take in *. lia.
    - rewrite bool_decide_false; [done|]. rewrite !length_take. lia. }
  destruct (stop_after _ _ _ _ _) as [reason|] eqn:Hs.
  - destruct (Hdone _ eq_refl) as (Hall & Hcomp & Hor). eexists _, _. split; [done|]. cbn [cr_items finish]. rewrite Hi'.
    rewrite !take_ge by lia. split; [done|]. by simpl.
  - assert (Hfull : (S k * L ≤ length rows)%nat ∧ (counted = true → (S k * L < length rows)%nat)).
    { unfold stop_after in Hs. rewrite Ht', Hi', Hi, Hlen in Hs. cbn [pagingSupported served] in Hs. rewrite bool_decide_false in Hs by done.
      case_bool_decide; [done|]. destruct (Z.ltb_spec (Z.of_nat (min L (length rows - k * L))) (Z.of_nat L)); [done|].
      split; [lia|]. intros ->. destruct (Z.leb_spec (Z.of_nat (length rows)) (Z.of_nat (length (take (S k * L) rows)))) as [Hr|Hr]; [done|].
      rewrite length_take in Hr. lia. }
    apply IH.
    + simpl. fold k. lia.
    + by apply walked_advance.
    + done.
    + cbn [wk_offset advance wk_pages taken]. rewrite Ho, Hlen. fold k. lia.
    + simpl. fold k. lia.
    + intros Hct. right. simpl. fold k. by apply Hfull.
    + cbn [wk_total advance]. rewrite Ht'. destruct counted; [by right|by left].
Qed.

(** Everything is collected.  From a server that answers with slices of a list of
    distinct rows, counted or not, a walk returns the rows from the first on, in order and
    without a gap, as many as its pages hold, and calls the list complete exactly when it
    holds all of it and could know that: a page came up short or empty, or the count was
    reached. *)
Lemma paging_collects env rows counted limit maxPages n fuel :
  steady env (served rows counted) → NoDup (keyOf <$> rows) → page_bound maxPages = Some n → (0 < n < fuel)%nat →
  let reach := (n * Z.to_nat (clampLimit limit))%nat in
  ∃ res ps, collectAllPages fuel env limit maxPages = Some (Ok res, ps) ∧ cr_items res = take reach rows
    ∧ (cr_complete res = true ↔ (length rows < reach)%nat ∨ counted = true ∧ (length rows ≤ reach)%nat).
Proof.
  intros Hst Hnd Hb Hn reach. unfold collectAllPages. rewrite Hb.
  assert (HL : 1 ≤ clampLimit limit) by (unfold clampLimit, MAX_PAGE_LIMIT; repeat case_match; lia).
  rewrite <-(Z2Nat.id (clampLimit limit)) by lia.
  eapply walk_served; [done|done|lia|lia|simpl; lia|apply walked_start|done|done|simpl; lia|by left|by left].
Qed.
End pagination.

(** * Runs *)

Definition number_key (z : Z) : jsstr := [z].

Definition steady_env (f : PageRequest → PageResult Z) (n : nat) : page_step Z unit :=
  {| ps_abortedBefore := false; ps_page := λ q, Ok (f q); ps_abortedAfter := false |}.

Lemma steady_env_steady f : steady (steady_env f) f.
Proof. done. Qed.

Definition two_a_page : option js_num := Some (Num (5 # 2)).

Lemma paging_agrees_witness : ∃ res ps,
  collectAllPages number_key 60 (steady_env (served [7; 8; 9; 4; 5] true)) two_a_page None = Some (Ok res, ps)
  ∧ agreeing number_key 2 (served [7; 8; 9; 4; 5] true) res ps ∧ cr_items res = [7; 8; 9; 4; 5].
Proof.
  destruct (paging_agrees number_key 60 (steady_env (served [7; 8; 9; 4; 5] true)) (served [7; 8; 9; 4; 5] true) two_a_page None
    50 (steady_env_steady _) (λ _ _, eq_refl) eq_refl ltac:(lia)) as (res & ps & E & H).
  exists res, ps. split; [exact E|]. split; [exact H|]. vm_compute in E. by simplify_eq.
Defined.

Lemma paging_ends_witness : ∃ r ps,
  collectAllPages number_key 5 (steady_env (λ _, {| items := [1; 1]; totalCount := None; pagingSupported := None |})) two_a_page
    (Some (Num 4)) = Some (r, ps) ∧ (length ps ≤ 4)%nat.
Proof.
  destruct (paging_ends number_key (steady_env (λ _, {| items := [1; 1]; totalCount := None; pagingSupported := None |})) two_a_page
    (Some (Num 4)) 4 5 eq_refl ltac:(lia)) as (r & ps & Hr & Hl & _). by exists r, ps.
Defined.

Lemma paging_collects_witness : ∃ res ps,
  collectAllPages number_key 4 (steady_env (served [7; 8; 9; 4; 5] false)) two_a_page (Some (Num 3)) = Some (Ok res, ps)
  ∧ cr_items res = [7; 8; 9; 4; 5] ∧ cr_complete res = true.
Proof.
  destruct (paging_collects number_key (steady_env (served [7; 8; 9; 4; 5] false)) [7; 8; 9; 4; 5] false two_a_page (Some (Num 3)) 3 4
    (steady_env_steady _) ltac:(apply (bool_decide_unpack _); vm_compute; exact I) eq_refl ltac:(lia)) as (res & ps & Hr & Hi & Hc).
  exists res, ps. split; [done|]. split; [rewrite Hi; reflexivity|]. apply Hc. left. vm_compute. lia.
Defined.

(** When the total grows between two pages, the walk still stops at the first total and
    calls the list complete, while the progressive list asks for the next page. *)
Definition growing (q : PageRequest) : PageResult Z :=
  if rq_offset q =? 0 then {| items := [1; 2]; totalCount := Some 4; pagingSupported := None |}
  else {| items := [3; 4]; totalCount := Some 6; pagingSupported := None |}.

Lemma growing_total : ∃ res ps,
  collectAllPages number_key 60 (steady_env growing) two_a_page None = Some (Ok res, ps)
  ∧ cr_complete res = true ∧ nextPageRequest number_key ps = Some {| rq_limit := 2; rq_offset := 4 |}.
Proof. eexists _, _. split; [vm_compute; reflexivity|]. split; vm_compute; reflexivity. Qed.
