(* ===== verification/MessageWindow.v ===== *)
(** The loaded window of a conversation in the chat application: its ledger of pages
    ([src/chat-app/src/lib/message-page-ledger.ts]), the cache of threads
    ([message-session-cache.ts]), and how [hooks/useMessages.ts] merges rows, keeps both
    in step after a render, and loads older pages.

    A message is what merging and paging read of it, with the rest in [m_body]; how
    [localeCompare] orders two ids is an argument.  Reactions are kept as they are. *)
From S2P Require Import Prelude JsString JsMap.
From Stdlib Require Import QArith.
#[global] Open Scope Z_scope.

Definition MESSAGE_PAGE_SIZE : nat := 50.
Definition MAX_CACHED_GROUPS : nat := 20.
Definition MAX_MESSAGES_PER_GROUP : nat := 300.

(** * The ledger of pages *)

Record ThreadPageLedger := {
  fetchedBeforeOrders : list Z; minOrder : option Z; maxOrder : option Z; hasMoreOlder : bool; tipSyncedAt : Z;
}.

Definition emptyPageLedger : ThreadPageLedger :=
  {| fetchedBeforeOrders := []; minOrder := None; maxOrder := None; hasMoreOlder := false; tipSyncedAt := 0 |}.

(** [Math.min(...orders)] and [Math.max(...orders)] of a list that is not empty. *)
Definition min_of (o : Z) (orders : list Z) : Z := foldl Z.min o orders.
Definition max_of (o : Z) (orders : list Z) : Z := foldl Z.max o orders.

Definition ledgerFromMessages (orders : list Z) (hasMore : bool) (now : Z) : ThreadPageLedger :=
  match orders with
  | [] => {| fetchedBeforeOrders := []; minOrder := None; maxOrder := None; hasMoreOlder := hasMore; tipSyncedAt := now |}
  | o :: orders' => {| fetchedBeforeOrders := []; minOrder := Some (min_of o orders'); maxOrder := Some (max_of o orders');
                       hasMoreOlder := hasMore; tipSyncedAt := now |}
  end.

Definition coercePageLedger (ledger : option ThreadPageLedger) (messageOrders : list Z) (legacyHasMore : option bool) (now : Z)
    : ThreadPageLedger :=
  match ledger with
  | Some l => l
  | None => ledgerFromMessages messageOrders (default false legacyHasMore) now
  end.

Definition hasFetchedBeforeOrder (ledger : ThreadPageLedger) (beforeOrder : Z) : bool :=
  bool_decide (beforeOrder ∈ fetchedBeforeOrders ledger).

(** [minOrder === null ? order : Math.min(minOrder, order)], over the orders returned. *)
Definition widen (f : Z → Z → Z) (bound : option Z) (orders : list Z) : option Z :=
  foldl (λ b o, Some match b with None => o | Some m => f m o end) bound orders.

Definition applyOlderPageToLedger (ledger : ThreadPageLedger) (beforeOrder : Z) (returnedOrders : list Z) (hasNext : bool)
    : ThreadPageLedger := {|
  fetchedBeforeOrders := if hasFetchedBeforeOrder ledger beforeOrder then fetchedBeforeOrders ledger
                         else fetchedBeforeOrders ledger ++ [beforeOrder];
  minOrder := widen Z.min (minOrder ledger) returnedOrders; maxOrder := widen Z.max (maxOrder ledger) returnedOrders;
  hasMoreOlder := if bool_decide (returnedOrders = []) && hasNext then false else hasNext;
  tipSyncedAt := tipSyncedAt ledger |}.

Definition applyNewerOrdersToLedger (ledger : ThreadPageLedger) (returnedOrders : list Z) (now : Z) : ThreadPageLedger := {|
  fetchedBeforeOrders := fetchedBeforeOrders ledger;
  minOrder := widen Z.min (minOrder ledger) returnedOrders; maxOrder := widen Z.max (maxOrder ledger) returnedOrders;
  hasMoreOlder := hasMoreOlder ledger; tipSyncedAt := now |}.

Definition invalidateLedgerAfterTrim (ledger : ThreadPageLedger) (remainingOrders : list Z) (didDropOldest : bool) : ThreadPageLedger :=
  match remainingOrders with
  | [] => {| fetchedBeforeOrders := []; minOrder := None; maxOrder := None; hasMoreOlder := didDropOldest || hasMoreOlder ledger;
             tipSyncedAt := tipSyncedAt ledger |}
  | o :: orders' =>
      let min := min_of o orders' in
      {| fetchedBeforeOrders := filter (λ cursor, cursor < min) (fetchedBeforeOrders ledger);
         minOrder := Some min; maxOrder := Some (max_of o orders');
         hasMoreOlder := if didDropOldest then true else hasMoreOlder ledger; tipSyncedAt := tipSyncedAt ledger |}
  end.

(** The order to fetch before, if a page should be fetched. *)
Definition shouldFetchOlderPage (ledger : ThreadPageLedger) (isLoadingOlder isLoadingInitial : bool) (messageCount : nat) : option Z :=
  if negb (hasMoreOlder ledger) || isLoadingOlder || isLoadingInitial || (messageCount =? 0)%nat then None else
  match minOrder ledger with
  | None => None
  | Some beforeOrder => if hasFetchedBeforeOrder ledger beforeOrder then None else Some beforeOrder
  end.

Definition shouldWarmCatchUpOnly (ledger : ThreadPageLedger) : bool :=
  bool_decide (is_Some (maxOrder ledger)) && bool_decide (is_Some (minOrder ledger)).

(** * Messages *)

Section window.
Context {B R : Type} (localeCompare : jsstr → jsstr → comparison).

Record Message := { m_id : jsstr; m_order : Z; m_createdAt : Q; m_kind : option jsstr; m_system : option jsstr; m_body : B }.

Definition KNOWN_MESSAGE_KINDS : list jsstr :=
  js <$> ["text"; "system"; "post"; "request_payment"; "poll"; "token_transfer"; "event"]%string.

Definition normalizeMessage (raw : Message) : Message :=
  let kind := match m_kind raw with
              | Some k => if bool_decide (k ∈ KNOWN_MESSAGE_KINDS) then k else js "text"
              | None => js "text"
              end in
  {| m_id := m_id raw; m_order := m_order raw; m_createdAt := m_createdAt raw; m_kind := Some kind;
     m_system := if bool_decide (kind = js "system") then m_system raw else None; m_body := m_body raw |}.

(** The comparison of [sortMessagesByOrder] is not positive. *)
Definition message_le (a b : Message) : bool :=
  match m_order a ?= m_order b with
  | Lt => true
  | Gt => false
  | Eq => match (m_createdAt a ?= m_createdAt b)%Q with
          | Lt => true
          | Gt => false
          | Eq => match localeCompare (m_id a) (m_id b) with Gt => false | _ => true end
          end
  end.

Fixpoint insert_message (m : Message) (l : list Message) : list Message :=
  match l with [] => [m] | a :: l' => if message_le m a then m :: l else a :: insert_message m l' end.

Definition sortMessagesByOrder (msgs : list Message) : list Message := foldr insert_message [] msgs.

Definition is_optimistic (m : Message) : bool := startsWith (js "optimistic-") (m_id m).

(** [mergeMessages]; the member cache it also invalidates is not modelled. *)
Definition mergeMessages (prev incoming : list Message) : list Message :=
  let byId := foldl (λ byId m, map_set (m_id m) m byId) [] (prev ++ (normalizeMessage <$> incoming)) in
  let confirmedOrders := m_order <$> filter (λ m, is_optimistic m = false) byId.*2 in
  sortMessagesByOrder (filter (λ m, ¬ (is_optimistic m = true ∧ m_order m ∈ confirmedOrders)) byId.*2).

(** * The cache of threads *)

Record CachedThread := { ct_messages : list Message; ct_hasMore : bool; ct_reactions : R; ct_pageLedger : ThreadPageLedger; ct_cachedAt : Z }.

#[local] Notation orders := (fmap m_order).

Definition trimMessagesWithLedger (messages : list Message) (ledger : ThreadPageLedger) : list Message * ThreadPageLedger :=
  if (length messages <=? MAX_MESSAGES_PER_GROUP)%nat then (messages, ledger) else
  let trimmed := drop (length messages - MAX_MESSAGES_PER_GROUP) messages in
  (trimmed, invalidateLedgerAfterTrim ledger (orders trimmed) true).

Definition threads := list (jsstr * CachedThread).

Definition touch (uuid : jsstr) (entry : CachedThread) (t : threads) : threads :=
  let t' := map_set uuid entry (map_delete uuid t) in
  drop (length t' - MAX_CACHED_GROUPS) t'.

Definition getCachedThread (uuid : jsstr) (t : threads) : option CachedThread * threads :=
  match map_get uuid t with
  | None => (None, t)
  | Some entry =>
      (Some {| ct_messages := ct_messages entry; ct_hasMore := hasMoreOlder (ct_pageLedger entry); ct_reactions := ct_reactions entry;
               ct_pageLedger := ct_pageLedger entry; ct_cachedAt := ct_cachedAt entry |},
       map_set uuid entry (map_delete uuid t))
  end.

Definition setCachedThread (uuid : jsstr) (messages : list Message) (hasMore : option bool) (reactions : R)
    (pageLedger : option ThreadPageLedger) (cachedAt : option Z) (now : Z) (t : threads) : ThreadPageLedger * threads :=
  let ledger := coercePageLedger pageLedger (orders messages)
                  (match hasMore with Some b => Some b | None => hasMoreOlder <$> pageLedger end) now in
  let trimmed := trimMessagesWithLedger messages ledger in
  (trimmed.2, touch uuid {| ct_messages := trimmed.1; ct_hasMore := hasMoreOlder trimmed.2; ct_reactions := reactions;
                            ct_pageLedger := trimmed.2; ct_cachedAt := default now cachedAt |} t).

Definition updateCachedThread (uuid : jsstr) (updater : CachedThread → option CachedThread) (now : Z) (t : threads) : threads :=
  match map_get uuid t with
  | None => t
  | Some prev =>
      match updater {| ct_messages := ct_messages prev; ct_hasMore := hasMoreOlder (ct_pageLedger prev); ct_reactions := ct_reactions prev;
                       ct_pageLedger := ct_pageLedger prev; ct_cachedAt := ct_cachedAt prev |} with
      | None => map_delete uuid t
      | Some next => (setCachedThread uuid (ct_messages next) (Some (ct_hasMore next)) (ct_reactions next) (Some (ct_pageLedger next))
                        (Some (ct_cachedAt next)) now t).2
      end
  end.

(** * The open conversation ([useMessages]) *)

(** Its list, [pageLedgerRef], [hasMore], the reactions, the cache, and the cursors sent. *)
Record view := { v_messages : list Message; v_ledger : ThreadPageLedger; v_hasMore : bool; v_reactions : R; v_cache : threads; v_sent : list Z }.

(** The effects after a render of changed messages: bounds first, then write-through. *)
Definition sync_bounds (v : view) : view :=
  match orders (v_messages v) with
  | [] => v
  | o :: os =>
      {| v_messages := v_messages v;
         v_ledger := {| fetchedBeforeOrders := fetchedBeforeOrders (v_ledger v); minOrder := Some (min_of o os); maxOrder := Some (max_of o os);
                        hasMoreOlder := hasMoreOlder (v_ledger v); tipSyncedAt := tipSyncedAt (v_ledger v) |};
         v_hasMore := v_hasMore v; v_reactions := v_reactions v; v_cache := v_cache v; v_sent := v_sent v |}
  end.

Definition write_through (uuid : jsstr) (now : Z) (v : view) : view :=
  let stored := setCachedThread uuid (v_messages v) (Some (hasMoreOlder (v_ledger v))) (v_reactions v) (Some (v_ledger v)) None now (v_cache v) in
  {| v_messages := v_messages v; v_ledger := stored.1; v_hasMore := hasMoreOlder stored.1; v_reactions := v_reactions v;
     v_cache := stored.2; v_sent := v_sent v |}.

Definition rendered (uuid : jsstr) (now : Z) (v : view) : view := write_through uuid now (sync_bounds v).

(** [loadMore], its fetch answered by [fetch] ([None] throws), and the render after it. *)
Definition loadMore (uuid : jsstr) (now : Z) (fetch : Z → option (list Message * bool)) (v : view) : view :=
  match shouldFetchOlderPage (v_ledger v) false false (length (v_messages v)) with
  | None => v
  | Some beforeOrder =>
      let sent := v_sent v ++ [beforeOrder] in
      match fetch beforeOrder with
      | None => {| v_messages := v_messages v; v_ledger := v_ledger v; v_hasMore := v_hasMore v; v_reactions := v_reactions v;
                   v_cache := v_cache v; v_sent := sent |}
      | Some (rows, hasNext) =>
          let ledger := applyOlderPageToLedger (v_ledger v) beforeOrder (orders rows) hasNext in
          rendered uuid now
            {| v_messages := mergeMessages (v_messages v) rows; v_ledger := ledger; v_hasMore := hasMoreOlder ledger;
               v_reactions := v_reactions v; v_cache := v_cache v; v_sent := sent |}
      end
  end.

(** A conversation opened without a cached thread, on the newest page. *)
Definition opened (uuid : jsstr) (now : Z) (reactions : R) (cache : threads) (rows : list Message) (hasNext : bool) : view :=
  let initial := sortMessagesByOrder rows in
  rendered uuid now {| v_messages := initial; v_ledger := ledgerFromMessages (orders initial) hasNext now; v_hasMore := hasNext;
                       v_reactions := reactions; v_cache := cache; v_sent := [] |}.

(** * Merging *)

Lemma message_le_true a b : message_le a b = true → m_order a ≤ m_order b.
Proof. unfold message_le. destruct (Z.compare_spec (m_order a) (m_order b)); [lia..|done]. Qed.

Lemma message_le_false a b : message_le a b = false → m_order b ≤ m_order a.
Proof. unfold message_le. destruct (Z.compare_spec (m_order a) (m_order b)); [lia|done|lia]. Qed.

Lemma insert_message_perm m l : insert_message m l ≡ₚ m :: l.
Proof. induction l as [|a l IH]; simpl; [done|]. case_match; [done|]. rewrite IH. apply Permutation_swap. Qed.

Lemma sortMessages_perm l : sortMessagesByOrder l ≡ₚ l.
Proof. induction l as [|m l IH]; simpl; [done|]. by rewrite insert_message_perm, IH. Qed.

Lemma insert_message_sorted m l : sorted_by m_order l → sorted_by m_order (insert_message m l).
Proof.
  unfold sorted_by. induction 1 as [|a l Hl IH Ha]; simpl; [repeat constructor|]. destruct (message_le m a) eqn:Hm.
  - apply message_le_true in Hm. constructor; [by constructor|]. constructor; [done|]. eapply Forall_impl; [done|]. simpl. lia.
  - apply message_le_false in Hm. constructor; [done|]. rewrite insert_message_perm. by constructor.
Qed.

Lemma sortMessages_sorted l : sorted_by m_order (sortMessagesByOrder l).
Proof. induction l; simpl; [constructor|by apply insert_message_sorted]. Qed.

(** Strictly increasing orders, as the relayer gives them. *)
Abbreviation ascending := (StronglySorted (λ a b : Message, m_order a < m_order b)).

Lemma ascending_sorted l : ascending l → sorted_by m_order l.
Proof. induction 1 as [|a l Hl IH Ha]; constructor; [done|]. eapply Forall_impl; [done|]. simpl. lia. Qed.

Lemma ascending_NoDup l : ascending l → NoDup (m_order <$> l).
Proof.
  induction 1 as [|a l Hl IH Ha]; simpl; constructor; [|done]. intros (b & Hb & Hin)%list_elem_of_fmap.
  rewrite Forall_forall in Ha. specialize (Ha _ Hin). simpl in Ha. lia.
Qed.

(** A list of messages in order is its set of members. *)
Lemma sorted_members l1 l2 : sorted_by m_order l1 → NoDup l1 → ascending l2 → (∀ m, m ∈ l1 ↔ m ∈ l2) → l1 = l2.
Proof.
  intros H1 Hn1 H2 Hm. assert (Hn2 : NoDup l2) by (eapply NoDup_fmap_1, ascending_NoDup; done).
  assert (Hp : l1 ≡ₚ l2) by (by apply NoDup_Permutation). symmetry.
  apply (sorted_unique m_order); [by apply ascending_sorted|done|by symmetry|by apply ascending_NoDup].
Qed.

Lemma by_id_entries l acc : (∀ k m, (k, m) ∈ acc → k = m_id m) →
  let byId := foldl (λ byId m, map_set (m_id m) m byId) acc l in
  (map_ok acc → map_ok byId) ∧ (∀ k m, (k, m) ∈ byId → k = m_id m)
  ∧ (∀ k, k ∈ byId.*1 ↔ k ∈ acc.*1 ∨ k ∈ m_id <$> l) ∧ (∀ m, m ∈ byId.*2 → m ∈ acc.*2 ∨ m ∈ l).
Proof.
  revert acc. induction l as [|a l IH]; intros acc Hacc; simpl; [set_solver|].
  assert (Hset : ∀ k v m acc', (k, m) ∈ map_set (m_id v) v acc' → (k, m) = (m_id v, v) ∨ (k, m) ∈ acc').
  { intros k v m acc'. induction acc' as [|[k' v'] acc' IHa]; simpl; [set_solver|]. case_decide; set_solver. }
  destruct (IH (map_set (m_id a) a acc)) as (I1 & I2 & I3 & I4).
  { intros k m [Hk|Hk]%Hset; [by simplify_eq|by apply Hacc]. }
  split; [intros; by apply I1, map_set_ok|]. split; [done|]. split.
  - intros k. rewrite I3, map_set_keys. set_solver.
  - intros m [Hm|Hm]%I4; [|set_solver]. apply list_elem_of_fmap in Hm as ([k m'] & -> & [Hk|Hk]%Hset); simplify_eq/=; [set_solver|].
    left. by apply (list_elem_of_fmap_2 snd) in Hk.
Qed.

(** * The relayer's history *)

Record history_ok (h : list Message) : Prop := {
  ho_ascending : ascending h;
  ho_ids : ∀ a b, a ∈ h → b ∈ h → m_id a = m_id b → a = b;
  ho_stored : ∀ m, m ∈ h → normalizeMessage m = m ∧ is_optimistic m = false;
}.

Definition newest (n : nat) (h : list Message) : list Message := drop (length h - n) h.

(** [getMessages] before an order. *)
Definition older_page (h : list Message) (beforeOrder : Z) : option (list Message * bool) :=
  let rows := filter (λ m, m_order m < beforeOrder) h in
  Some (newest MESSAGE_PAGE_SIZE rows, bool_decide (MESSAGE_PAGE_SIZE < length rows)%nat).

Lemma merge_members h prev incoming l : history_ok h → (∀ m, m ∈ prev ∨ m ∈ incoming → m ∈ h) →
  ascending l → (∀ m, m ∈ l ↔ m ∈ prev ∨ m ∈ incoming) → mergeMessages prev incoming = l.
Proof.
  intros [_ Hids Hst] Hin Hl Hm. unfold mergeMessages.
  assert (normalizeMessage <$> incoming = incoming) as ->.
  { rewrite <-(list_fmap_id incoming) at 2. apply list_fmap_ext. intros i m Hi. apply Hst, Hin. right. by eapply list_elem_of_lookup_2. }
  destruct (by_id_entries (prev ++ incoming) []) as (Hok & Hkey & Hkeys & Hvals); [set_solver|].
  specialize (Hok map_ok_nil). set (byId := foldl _ _ _) in *.
  assert (Hv : ∀ m, m ∈ byId.*2 ↔ m ∈ prev ∨ m ∈ incoming).
  { intros m. rewrite <-elem_of_app. split; [intros [?|?]%Hvals; set_solver|]. intros Hmem.
    assert (Hk : m_id m ∈ byId.*1) by (apply Hkeys; right; by apply list_elem_of_fmap_2).
    apply list_elem_of_fmap in Hk as ([k m'] & Hk & Hin'). simpl in Hk. pose proof (Hkey _ _ Hin') as Hk'.
    assert (m' ∈ byId.*2) as Hm' by (by apply (list_elem_of_fmap_2 snd) in Hin').
    rewrite (Hids m m'); [done|..]; [|destruct (Hvals _ Hm') as [?|?]; [set_solver|]|by rewrite Hk, Hk']; apply Hin; by apply elem_of_app. }
  assert (Hf : filter (λ m, ¬ (is_optimistic m = true ∧ m_order m ∈ m_order <$> filter (λ m, is_optimistic m = false) byId.*2)) byId.*2 = byId.*2).
  { apply filter_all, Forall_forall. intros m Hmem [Ho _]. apply Hv, Hin, Hst in Hmem as [_ Hm']. congruence. }
  rewrite Hf. apply sorted_members; [apply sortMessages_sorted| |done|].
  - rewrite sortMessages_perm. apply (NoDup_fmap_1 m_id). replace (m_id <$> byId.*2) with byId.*1; [done|].
    rewrite <-list_fmap_compose. apply list_fmap_ext. intros i [k m] Hi. simpl. by eapply Hkey, list_elem_of_lookup_2.
  - intros m. by rewrite sortMessages_perm, Hv, Hm.
Qed.

Lemma filter_none {A} (P : A → Prop) `{∀ x, Decision (P x)} (l : list A) : Forall (λ x, ¬ P x) l → filter P l = [].
Proof. induction 1 as [|x l Hx _ IH]; [done|]. by rewrite filter_cons_False, IH. Qed.

Lemma ascending_app l1 l2 : ascending (l1 ++ l2) ↔ ascending l1 ∧ ascending l2 ∧ ∀ a b, a ∈ l1 → b ∈ l2 → m_order a < m_order b.
Proof.
  induction l1 as [|a l1 IH]; simpl.
  { split; [intros; split; [constructor|]; split; [done|set_solver]|by intros (_ & ? & _)]. }
  split.
  - intros H. inversion H as [|? ? Hl Ha]; subst. apply IH in Hl as (H1 & H2 & H12). rewrite Forall_app in Ha. destruct Ha as [Ha1 Ha2].
    rewrite Forall_forall in Ha2. split; [by constructor|]. split; [done|]. intros b c [->|Hb]%elem_of_cons Hc; [by apply Ha2|by apply H12].
  - intros (H1 & H2 & H12). inversion H1 as [|? ? Hl Ha]; subst. constructor; [apply IH; split; [done|]; split; [done|]; set_solver|].
    apply Forall_app. split; [done|]. apply Forall_forall. intros b Hb. apply H12; [left|done].
Qed.

(** The rows before the first of the newest [n]. *)
Lemma rows_before h n m l : ascending h → newest n h = m :: l → (n ≤ length h)%nat →
  filter (λ a, m_order a < m_order m) h = take (length h - n) h.
Proof.
  intros Hh Hn Hle. rewrite <-(take_drop (length h - n) h) in Hh |- * at 1. fold (newest n h) in Hh |- *. rewrite Hn in Hh |- *.
  apply ascending_app in Hh as (_ & Hm & H12). rewrite filter_app, filter_all, filter_none; [by rewrite app_nil_r| |].
  - inversion Hm as [|? ? _ Hl]; subst. constructor; [lia|]. eapply Forall_impl; [done|]. simpl. lia.
  - apply Forall_forall. intros a Ha. apply H12; [done|left].
Qed.

Lemma newest_cons h n : (0 < n)%nat → h ≠ [] → ∃ m l, newest n h = m :: l.
Proof.
  intros Hn Hh. destruct (newest n h) as [|m l] eqn:E; [|eauto]. apply (f_equal length) in E. unfold newest in E.
  rewrite length_drop in E. destruct h; simpl in *; [done|lia].
Qed.

Lemma length_newest h n : length (newest n h) = min n (length h).
Proof. unfold newest. rewrite length_drop. lia. Qed.

Lemma newest_ascending h n : ascending h → ascending (newest n h).
Proof. intros Hh. rewrite <-(take_drop (length h - n) h) in Hh. by apply ascending_app in Hh as (_ & ? & _). Qed.

Lemma newest_elem h n m : m ∈ newest n h → m ∈ h.
Proof. apply elem_of_drop_inv || (unfold newest; intros Hm; rewrite <-(take_drop (length h - n) h); apply elem_of_app; by right). Qed.

Lemma newest_newest h n k : (n ≤ k)%nat → newest n (newest k h) = newest n h.
Proof. intros Hn. unfold newest. rewrite drop_drop, length_drop. f_equal. lia. Qed.

(** The bounds of an ascending window. *)
Lemma min_of_ascending m l : ascending (m :: l) → min_of (m_order m) (m_order <$> l) = m_order m.
Proof.
  intros H. inversion H as [|? ? _ Hl]; subst. clear H. unfold min_of. induction Hl as [|a l Ha _ IH]; [done|]. simpl.
  rewrite Z.min_l by lia. done.
Qed.

(** A page fetched before the window's first message, merged into a window it may overlap. *)
Lemma merge_older h n k m l : history_ok h → newest n h = m :: l → (n ≤ k ≤ length h)%nat →
  ∃ rows, older_page h (m_order m) = Some (rows, bool_decide (MESSAGE_PAGE_SIZE < length h - n)%nat)
    ∧ length rows = min MESSAGE_PAGE_SIZE (length h - n)
    ∧ mergeMessages (newest k h) rows = newest (max k (min (n + MESSAGE_PAGE_SIZE) (length h))) h.
Proof.
  intros Hok Hn Hk. pose proof (ho_ascending _ Hok) as Hh. unfold older_page. rewrite (rows_before h n m l) by (done || lia).
  rewrite length_take_le by lia. eexists. split; [done|]. split; [rewrite length_newest, length_take; lia|].
  set (rows := newest MESSAGE_PAGE_SIZE (take (length h - n) h)).
  assert (Hrows : ∀ a, a ∈ rows ↔ ∃ i, h !! i = Some a ∧ (length h - n - MESSAGE_PAGE_SIZE ≤ i < length h - n)%nat).
  { intros a. unfold rows, newest. rewrite length_take_le by lia. rewrite list_elem_of_lookup. split.
    - intros [i Hi]. rewrite lookup_drop in Hi. apply lookup_take_Some in Hi as [Hi Hlt]. eexists; split; [done|lia].
    - intros (i & Hi & Hlt). exists (i - (length h - n - MESSAGE_PAGE_SIZE))%nat. rewrite lookup_drop.
      apply lookup_take_Some. split; [rewrite <-Hi; f_equal; lia|lia]. }
  assert (Hnew : ∀ j a, a ∈ newest j h ↔ ∃ i, h !! i = Some a ∧ (length h - j ≤ i)%nat).
  { intros j a. unfold newest. rewrite list_elem_of_lookup. split.
    - intros [i Hi]. rewrite lookup_drop in Hi. eexists; split; [done|lia].
    - intros (i & Hi & Hlt). exists (i - (length h - j))%nat. rewrite lookup_drop. rewrite <-Hi. f_equal. lia. }
  apply (merge_members h); [done| |by apply newest_ascending|].
  - intros a [Ha|Ha]; [by eapply newest_elem|]. apply Hrows in Ha as (i & Hi & _). by eapply list_elem_of_lookup_2.
  - intros a. rewrite !Hnew, Hrows. split.
    + intros (i & Hi & Hlt). destruct (decide (length h - k ≤ i)%nat); [left; eauto|]. right. exists i. split; [done|]. lia.
    + intros [(i & Hi & Hlt)|(i & Hi & Hlt)]; exists i; (split; [done|]); unfold MESSAGE_PAGE_SIZE in *; lia.
Qed.

(** * Paging back *)

Lemma rendered_small uuid now v m l : v_messages v = m :: l → ascending (m :: l) → (length (m :: l) ≤ MAX_MESSAGES_PER_GROUP)%nat →
  let v' := rendered uuid now v in
  v_messages v' = m :: l ∧ fetchedBeforeOrders (v_ledger v') = fetchedBeforeOrders (v_ledger v)
  ∧ minOrder (v_ledger v') = Some (m_order m) ∧ hasMoreOlder (v_ledger v') = hasMoreOlder (v_ledger v) ∧ v_sent v' = v_sent v.
Proof.
  intros Hv Ha Hl. unfold rendered, write_through, sync_bounds, setCachedThread, trimMessagesWithLedger, coercePageLedger.
  rewrite Hv. cbn [fmap list_fmap v_messages v_ledger v_sent]. rewrite (proj2 (Nat.leb_le _ _) Hl), min_of_ascending by done. done.
Qed.

Lemma rendered_large uuid now v h k m l : ascending h → v_messages v = newest k h → newest MAX_MESSAGES_PER_GROUP h = m :: l →
  (MAX_MESSAGES_PER_GROUP < k ≤ length h)%nat →
  let v' := rendered uuid now v in
  v_messages v' = newest k h ∧ fetchedBeforeOrders (v_ledger v') = filter (λ c, c < m_order m) (fetchedBeforeOrders (v_ledger v))
  ∧ minOrder (v_ledger v') = Some (m_order m) ∧ hasMoreOlder (v_ledger v') = true ∧ v_sent v' = v_sent v.
Proof.
  intros Hh Hv Hm Hk. unfold rendered, write_through, setCachedThread, coercePageLedger.
  assert (Hs : v_messages (sync_bounds v) = newest k h) by (unfold sync_bounds; by case_match).
  assert (Hf : fetchedBeforeOrders (v_ledger (sync_bounds v)) = fetchedBeforeOrders (v_ledger v)) by (unfold sync_bounds; by case_match).
  assert (Hsent : v_sent (sync_bounds v) = v_sent v) by (unfold sync_bounds; by case_match).
  assert (Htrim : trimMessagesWithLedger (newest k h) (v_ledger (sync_bounds v))
                  = (m :: l, invalidateLedgerAfterTrim (v_ledger (sync_bounds v)) (m_order <$> m :: l) true)).
  { unfold trimMessagesWithLedger. rewrite length_newest, Nat.min_l, (proj2 (Nat.leb_gt _ _)) by lia. rewrite <-Hm.
    replace (drop _ (newest k h)) with (newest MAX_MESSAGES_PER_GROUP h); [done|]. rewrite <-(newest_newest h _ k) by lia.
    unfold newest at 1. by rewrite length_newest, Nat.min_l by lia. }
  rewrite Hs, Htrim. simpl. rewrite Hf, Hsent, min_of_ascending; [done|]. rewrite <-Hm. by apply newest_ascending.
Qed.

(** The newest [n] rows are loaded, no more than the cache keeps. *)
Record at_window (h : list Message) (n : nat) (v : view) : Prop := {
  aw_messages : v_messages v = newest n h;
  aw_size : (0 < n ≤ length h)%nat ∧ (n ≤ MAX_MESSAGES_PER_GROUP)%nat;
  aw_min : minOrder (v_ledger v) = m_order <$> head (newest n h);
  aw_more : hasMoreOlder (v_ledger v) = bool_decide (n < length h)%nat;
  aw_fetched : fetchedBeforeOrders (v_ledger v) = v_sent v;
  aw_sent : NoDup (v_sent v) ∧ ∀ c m, c ∈ v_sent v → head (newest n h) = Some m → m_order m < c;
}.

(** The first message goes down as the window grows. *)
Lemma head_grows h n k m a l l' : ascending h → (n < k ≤ length h)%nat → newest n h = m :: l → newest k h = a :: l' → m_order a < m_order m.
Proof.
  intros Hh Hk Hn Hl. pose proof (newest_ascending h k Hh) as Ha. rewrite <-(newest_newest h n k) in Hn by lia. rewrite Hl in Hn, Ha.
  inversion Ha as [|? ? _ Hall]; subst. rewrite Forall_forall in Hall. apply Hall.
  assert (Hlen : length (a :: l') = k) by (by rewrite <-Hl, length_newest, Nat.min_l by lia).
  unfold newest in Hn. rewrite Hlen in Hn. destruct (k - n)%nat as [|i] eqn:E; [lia|]. simpl in Hn.
  rewrite <-(take_drop i l'), Hn. apply elem_of_app. right. left.
Qed.

(** The page a window asks for, and what merging it gives. *)
Lemma load_page uuid now h n v : history_ok h → at_window h n v → (n < length h)%nat →
  ∃ m l v', newest n h = m :: l ∧ loadMore uuid now (older_page h) v = rendered uuid now v'
    ∧ v_messages v' = newest (min (n + MESSAGE_PAGE_SIZE) (length h)) h ∧ v_sent v' = v_sent v ++ [m_order m]
    ∧ fetchedBeforeOrders (v_ledger v') = v_sent v ++ [m_order m]
    ∧ hasMoreOlder (v_ledger v') = bool_decide (min (n + MESSAGE_PAGE_SIZE) (length h) < length h)%nat.
Proof.
  intros Hok [Hmsg [Hn _] Hmin Hmore Hf [Hnd Hlt]] Hlen.
  destruct (newest_cons h n) as (m & l & Hcons); [lia|by intros ->; simpl in *; lia|].
  destruct (merge_older h n n m l Hok Hcons) as (rows & Hpage & Hrows & Hmerge); [lia|].
  exists m, l. unfold loadMore, shouldFetchOlderPage. rewrite Hmore, bool_decide_true by lia. rewrite Hmin, Hmsg, Hcons.
  assert (Hni : hasFetchedBeforeOrder (v_ledger v) (m_order m) = false).
  { apply bool_decide_eq_false. rewrite Hf. intros Hc. specialize (Hlt _ m Hc). rewrite Hcons in Hlt. specialize (Hlt eq_refl). lia. }
  cbn [head fmap option_fmap option_map negb orb length Nat.eqb]. rewrite Hni, Hpage. eexists. split; [done|]. split; [done|]. cbn [v_messages v_sent v_ledger].
  split. { rewrite <-Hcons, Hmerge. f_equal. lia. }
  split; [done|]. unfold applyOlderPageToLedger. rewrite Hni. cbn [fetchedBeforeOrders hasMoreOlder]. rewrite Hf. split; [done|].
  rewrite bool_decide_false; [cbn [andb]; apply bool_decide_ext; unfold MESSAGE_PAGE_SIZE; lia|].
  intros Hnil. apply (f_equal length) in Hnil. rewrite length_fmap, Hrows in Hnil. cbn [length] in Hnil. unfold MESSAGE_PAGE_SIZE in *. lia.
Qed.

Lemma load_window uuid now h n v : history_ok h → at_window h n v → (min (n + MESSAGE_PAGE_SIZE) (length h) ≤ MAX_MESSAGES_PER_GROUP)%nat →
  at_window h (min (n + MESSAGE_PAGE_SIZE) (length h)) (loadMore uuid now (older_page h) v).
Proof.
  intros Hok Hw Hsize. pose proof (aw_size _ _ _ Hw) as [Hn _]. destruct (decide (n < length h)%nat) as [Hlen|Hlen].
  2:{ rewrite Nat.min_r by lia. assert (n = length h) as -> by lia. unfold loadMore, shouldFetchOlderPage.
      by rewrite (aw_more _ _ _ Hw), bool_decide_false by lia. }
  destruct (load_page uuid now h n v Hok Hw Hlen) as (m & l & v' & Hm & -> & Hmsg & Hsent & Hf & Hmore).
  set (k := min (n + MESSAGE_PAGE_SIZE) (length h)) in *. assert (Hk : (n < k ≤ length h)%nat) by (unfold k, MESSAGE_PAGE_SIZE; lia).
  destruct (newest_cons h k) as (a & l' & Ha); [lia|by intros ->; simpl in *; lia|].
  destruct (rendered_small uuid now v' a l') as (R1 & R2 & R3 & R4 & R5).
  { by rewrite Hmsg. } { rewrite <-Ha. by apply newest_ascending, ho_ascending. } { rewrite <-Ha, length_newest. lia. }
  pose proof (head_grows h n k m a l l' (ho_ascending _ Hok) Hk Hm Ha) as Hgrow.
  destruct (aw_sent _ _ _ Hw) as [Hnd Hlt]. rewrite Hm in Hlt.
  split; rewrite ?R1, ?R2, ?R3, ?R4, ?R5, ?Ha; [done|lia|done|done|by rewrite Hf, Hsent|]. rewrite Hsent. split.
  - apply NoDup_app. split; [done|]. split; [|apply NoDup_singleton]. intros c Hc Hcm. apply list_elem_of_singleton in Hcm as ->.
    specialize (Hlt _ m Hc eq_refl). lia.
  - intros c b [Hc|Hc]%elem_of_app [= <-]; [|by apply list_elem_of_singleton in Hc as ->]. specialize (Hlt _ m Hc eq_refl). lia.
Qed.

Lemma opened_window uuid now reactions cache h : history_ok h → h ≠ [] →
  at_window h (min MESSAGE_PAGE_SIZE (length h))
    (opened uuid now reactions cache (newest MESSAGE_PAGE_SIZE h) (bool_decide (MESSAGE_PAGE_SIZE < length h)%nat)).
Proof.
  intros Hok Hne. assert (Hpos : (0 < length h)%nat) by (destruct h; simpl; [done|lia]).
  assert (Hmin : newest (min MESSAGE_PAGE_SIZE (length h)) h = newest MESSAGE_PAGE_SIZE h) by (unfold newest; f_equal; lia).
  assert (Hsort : sortMessagesByOrder (newest MESSAGE_PAGE_SIZE h) = newest MESSAGE_PAGE_SIZE h).
  { pose proof (newest_ascending h MESSAGE_PAGE_SIZE (ho_ascending _ Hok)) as Ha.
    apply sorted_members; [apply sortMessages_sorted| |done|intros m; by rewrite sortMessages_perm].
    rewrite sortMessages_perm. by eapply NoDup_fmap_1, ascending_NoDup. }
  destruct (newest_cons h MESSAGE_PAGE_SIZE) as (a & l & Ha); [unfold MESSAGE_PAGE_SIZE; lia|done|].
  unfold opened. rewrite Hsort. match goal with |- context [rendered uuid now ?w] => set (v := w) end.
  destruct (rendered_small uuid now v a l) as (R1 & R2 & R3 & R4 & R5).
  { done. } { rewrite <-Ha. by apply newest_ascending, ho_ascending. }
  { rewrite <-Ha, length_newest. unfold MESSAGE_PAGE_SIZE, MAX_MESSAGES_PER_GROUP. lia. }
  split; rewrite ?Hmin, ?R1, ?R2, ?R3, ?R4, ?R5, ?Ha; try done.
  - unfold MESSAGE_PAGE_SIZE, MAX_MESSAGES_PER_GROUP. lia.
  - unfold v. rewrite Ha. cbn [v_ledger ledgerFromMessages fmap list_fmap hasMoreOlder]. apply bool_decide_ext. unfold MESSAGE_PAGE_SIZE. lia.
  - unfold v. by rewrite Ha.
  - unfold v. simpl. split; [constructor|set_solver].
Qed.

Lemma loads_window uuid h nows n v : history_ok h → at_window h n v →
  (min (n + length nows * MESSAGE_PAGE_SIZE) (length h) ≤ MAX_MESSAGES_PER_GROUP)%nat →
  at_window h (min (n + length nows * MESSAGE_PAGE_SIZE) (length h)) (foldl (λ v now, loadMore uuid now (older_page h) v) v nows).
Proof.
  intros Hok. revert n v. induction nows as [|now nows IH]; intros n v Hw Hs; cbn [length foldl] in *.
  { pose proof (aw_size _ _ _ Hw). by replace (min _ _) with n by lia. }
  pose proof (aw_size _ _ _ Hw). pose proof (load_window uuid now h n v Hok Hw) as Hl.
  replace (min (n + S (length nows) * MESSAGE_PAGE_SIZE) (length h)) with
    (min (min (n + MESSAGE_PAGE_SIZE) (length h) + length nows * MESSAGE_PAGE_SIZE) (length h)) in * by (unfold MESSAGE_PAGE_SIZE; lia).
  apply IH; [apply Hl; lia|done].
Qed.

(** C15.  Paging back reaches every message once.  From a conversation opened on its
    newest page, against a relayer with a fixed history, each load extends the window by the
    page before it: after [k] loads exactly the newest [50 (k + 1)] messages are shown, in
    order and each once, more is offered exactly while the history has more, and no page
    is ever asked for twice; as long as that is no more than the 300 messages the cache
    keeps. *)
Theorem older_pages uuid now reactions cache h nows : history_ok h → h ≠ [] →
  let v0 := opened uuid now reactions cache (newest MESSAGE_PAGE_SIZE h) (bool_decide (MESSAGE_PAGE_SIZE < length h)%nat) in
  let v := foldl (λ v now, loadMore uuid now (older_page h) v) v0 nows in
  let shown := ((1 + length nows) * MESSAGE_PAGE_SIZE)%nat in
  (min shown (length h) ≤ MAX_MESSAGES_PER_GROUP)%nat →
  v_messages v = newest shown h ∧ hasMoreOlder (v_ledger v) = bool_decide (shown < length h)%nat ∧ NoDup (v_sent v).
Proof.
  intros Hok Hne v0 v shown Hs. pose proof (opened_window uuid now reactions cache h Hok Hne) as H0. fold v0 in H0.
  pose proof (loads_window uuid h nows _ v0 Hok H0) as Hw. fold v in Hw.
  replace (min (min MESSAGE_PAGE_SIZE (length h) + length nows * MESSAGE_PAGE_SIZE) (length h)) with (min shown (length h)) in Hw
    by (unfold shown, MESSAGE_PAGE_SIZE; lia).
  specialize (Hw Hs). split; [|split].
  - rewrite (aw_messages _ _ _ Hw). unfold newest. f_equal. lia.
  - rewrite (aw_more _ _ _ Hw). apply bool_decide_ext. lia.
  - apply Hw.
Qed.

(** The window past the cache's limit. *)
Record at_limit (h : list Message) (m : Message) (v : view) : Prop := {
  al_messages : v_messages v = newest (min (MAX_MESSAGES_PER_GROUP + MESSAGE_PAGE_SIZE) (length h)) h;
  al_min : minOrder (v_ledger v) = Some (m_order m);
  al_more : hasMoreOlder (v_ledger v) = true;
  al_fetched : fetchedBeforeOrders (v_ledger v) = [];
}.

Lemma load_at_limit uuid now h m l v : history_ok h → newest MAX_MESSAGES_PER_GROUP h = m :: l → (MAX_MESSAGES_PER_GROUP < length h)%nat →
  at_limit h m v → at_limit h m (loadMore uuid now (older_page h) v) ∧ v_sent (loadMore uuid now (older_page h) v) = v_sent v ++ [m_order m].
Proof.
  intros Hok Hm Hlen [Hmsg Hmin Hmore Hf]. set (k := min (MAX_MESSAGES_PER_GROUP + MESSAGE_PAGE_SIZE) (length h)) in *.
  assert (Hk : (MAX_MESSAGES_PER_GROUP < k ≤ length h)%nat) by (unfold k, MESSAGE_PAGE_SIZE; lia).
  destruct (merge_older h MAX_MESSAGES_PER_GROUP k m l Hok Hm) as (rows & Hpage & Hrows & Hmerge); [lia|].
  replace (max k (min (MAX_MESSAGES_PER_GROUP + MESSAGE_PAGE_SIZE) (length h))) with k in Hmerge by (fold k; lia).
  unfold loadMore, shouldFetchOlderPage. rewrite Hmore, Hmin, Hmsg, length_newest. unfold hasFetchedBeforeOrder. rewrite Hf.
  rewrite (proj2 (Nat.eqb_neq _ _)) by lia. rewrite bool_decide_false by set_solver. cbn [negb orb]. rewrite Hpage, Hmerge.
  match goal with |- context [rendered uuid now ?w] => set (v' := w) end.
  destruct (rendered_large uuid now v' h k m l (ho_ascending _ Hok) eq_refl Hm Hk) as (R1 & R2 & R3 & R4 & R5).
  split; [|by rewrite R5]. split; rewrite ?R1, ?R2, ?R3, ?R4; try done. unfold v'. cbn [v_ledger applyOlderPageToLedger fetchedBeforeOrders].
  unfold hasFetchedBeforeOrder. rewrite Hf, bool_decide_false by set_solver. cbn [app]. by rewrite filter_cons_False by lia.
Qed.

Lemma loads_at_limit uuid h m l nows v : history_ok h → newest MAX_MESSAGES_PER_GROUP h = m :: l → (MAX_MESSAGES_PER_GROUP < length h)%nat →
  at_limit h m v →
  let v' := foldl (λ v now, loadMore uuid now (older_page h) v) v nows in
  at_limit h m v' ∧ v_sent v' = v_sent v ++ replicate (length nows) (m_order m).
Proof.
  intros Hok Hm Hlen. revert v. induction nows as [|now nows IH]; intros v Hv; cbn [foldl length replicate]; [by rewrite app_nil_r|].
  destruct (load_at_limit uuid now h m l v Hok Hm Hlen Hv) as [Hv' Hs]. destruct (IH _ Hv') as [Hv'' Hs'].
  split; [done|]. by rewrite Hs', Hs, <-app_assoc.
Qed.

(** The load that takes the window past the limit. *)
Lemma load_past uuid now h m l v : history_ok h → newest MAX_MESSAGES_PER_GROUP h = m :: l → (MAX_MESSAGES_PER_GROUP < length h)%nat →
  at_window h MAX_MESSAGES_PER_GROUP v →
  at_limit h m (loadMore uuid now (older_page h) v) ∧ v_sent (loadMore uuid now (older_page h) v) = v_sent v ++ [m_order m].
Proof.
  intros Hok Hm Hlen Hw. destruct (load_page uuid now h _ v Hok Hw Hlen) as (m' & l' & v' & Hm' & -> & Hmsg & Hsent & Hf & _).
  rewrite Hm in Hm'. injection Hm' as <- <-.
  set (k := min (MAX_MESSAGES_PER_GROUP + MESSAGE_PAGE_SIZE) (length h)) in *.
  destruct (rendered_large uuid now v' h k m l (ho_ascending _ Hok) Hmsg Hm) as (R1 & R2 & R3 & R4 & R5); [unfold k, MESSAGE_PAGE_SIZE; lia|].
  split; [|by rewrite R5]. split; rewrite ?R1, ?R2, ?R3, ?R4; try done. rewrite Hf. apply filter_none, Forall_forall.
  destruct (aw_sent _ _ _ Hw) as [_ Hlt]. intros c [Hc|Hc]%elem_of_app; [|apply list_elem_of_singleton in Hc as ->; lia].
  specialize (Hlt c m Hc). rewrite Hm in Hlt. specialize (Hlt eq_refl). lia.
Qed.

(** Past 300 messages paging back stops, and does not end.  In a history of more than
    300 messages the sixth load is cut back by the cache, whose trimmed ledger becomes
    the window's: from then on every load asks again for the page before the 300th newest
    message, the window never goes past the newest 350, and more is offered for ever, even
    when nothing older exists. *)
Lemma window_frozen uuid now reactions cache h nows : history_ok h → (MAX_MESSAGES_PER_GROUP < length h)%nat → (6 ≤ length nows)%nat →
  let v0 := opened uuid now reactions cache (newest MESSAGE_PAGE_SIZE h) (bool_decide (MESSAGE_PAGE_SIZE < length h)%nat) in
  let v := foldl (λ v now, loadMore uuid now (older_page h) v) v0 nows in
  ∃ m asked, head (newest MAX_MESSAGES_PER_GROUP h) = Some m
    ∧ v_messages v = newest (min 350 (length h)) h ∧ hasMoreOlder (v_ledger v) = true
    ∧ NoDup asked ∧ v_sent v = asked ++ replicate (length nows - 5) (m_order m).
Proof.
  intros Hok Hlen Hn v0 v. assert (Hne : h ≠ []) by (intros ->; simpl in *; lia).
  destruct (newest_cons h MAX_MESSAGES_PER_GROUP) as (m & l & Hm); [unfold MAX_MESSAGES_PER_GROUP; lia|done|].
  pose proof (opened_window uuid now reactions cache h Hok Hne) as H0. fold v0 in H0.
  assert (H5 : length (take 5 nows) = 5%nat) by (rewrite length_take; lia).
  assert (Hw : at_window h MAX_MESSAGES_PER_GROUP (foldl (λ v now, loadMore uuid now (older_page h) v) v0 (take 5 nows))).
  { pose proof (loads_window uuid h (take 5 nows) _ v0 Hok H0) as Hw. rewrite H5 in Hw. unfold MESSAGE_PAGE_SIZE, MAX_MESSAGES_PER_GROUP in *.
    replace (min (min 50 (length h) + 5 * 50) (length h)) with 300%nat in Hw by lia. by apply Hw. }
  assert (Hd : length (drop 5 nows) = (length nows - 5)%nat) by apply length_drop.
  set (v5 := foldl _ v0 (take 5 nows)) in *.
  assert (Hv : v = foldl (λ v now, loadMore uuid now (older_page h) v) v5 (drop 5 nows)) by (unfold v, v5; by rewrite <-foldl_app, take_drop).
  rewrite Hv. clearbody v. clear Hv.
  destruct (drop 5 nows) as [|now6 rest] eqn:E; [simpl in Hd; lia|]. cbn [foldl].
  destruct (load_past uuid now6 h m l v5 Hok Hm Hlen Hw) as [H6 Hs6].
  destruct (loads_at_limit uuid h m l rest _ Hok Hm Hlen H6) as [Hl Hsl].
  exists m, (v_sent v5). rewrite Hm. split; [done|]. split; [apply Hl|]. split; [apply Hl|]. split; [apply Hw|].
  rewrite Hsl, Hs6, <-app_assoc. f_equal. rewrite <-Hd. done.
Qed.

(** * The cache *)

Definition cache_ok (t : threads) : Prop :=
  map_ok t ∧ (length t ≤ MAX_CACHED_GROUPS)%nat
  ∧ ∀ uuid e, (uuid, e) ∈ t → (length (ct_messages e) ≤ MAX_MESSAGES_PER_GROUP)%nat.

Lemma trim_small messages ledger : (length (trimMessagesWithLedger messages ledger).1 ≤ MAX_MESSAGES_PER_GROUP)%nat.
Proof.
  unfold trimMessagesWithLedger. destruct (Nat.leb_spec (length messages) MAX_MESSAGES_PER_GROUP); [done|].
  cbn [fst]. rewrite length_drop. lia.
Qed.

(** The entry touched comes last, the others keep their places, the oldest goes. *)
Lemma touch_ok uuid e t : (length (ct_messages e) ≤ MAX_MESSAGES_PER_GROUP)%nat → cache_ok t →
  cache_ok (touch uuid e t) ∧ map_get uuid (touch uuid e t) = Some e ∧ last (touch uuid e t) = Some (uuid, e).
Proof.
  intros He (Hok & Hlen & Hm). unfold touch.
  assert (Hni : uuid ∉ (map_delete uuid t).*1) by (apply map_get_None, map_get_delete_eq).
  assert (Hd : (length (map_delete uuid t) ≤ length t)%nat).
  { clear. induction t as [|[k v] t IH]; simpl; [done|]. case_decide; simpl; lia. }
  assert (Hsub : ∀ x, x ∈ map_delete uuid t → x ∈ t).
  { clear. intros x. induction t as [|[k v] t IH]; simpl; [done|]. case_decide; set_solver. }
  rewrite map_set_fresh by done. set (t' := map_delete uuid t) in *.
  assert (Hsplit : drop (length (t' ++ [(uuid, e)]) - MAX_CACHED_GROUPS) (t' ++ [(uuid, e)])
                   = drop (length t' + 1 - MAX_CACHED_GROUPS) t' ++ [(uuid, e)]).
  { rewrite length_app. simpl length. rewrite drop_app_le by (unfold MAX_CACHED_GROUPS in *; lia). done. }
  rewrite Hsplit.
  assert (Hok' : map_ok (drop (length t' + 1 - MAX_CACHED_GROUPS) t' ++ [(uuid, e)])).
  { unfold map_ok. rewrite fmap_app. assert (Hkeys : map_ok t') by (by apply map_delete_ok). unfold map_ok in Hkeys.
    rewrite <-(take_drop (length t' + 1 - MAX_CACHED_GROUPS) t'), fmap_app in Hkeys, Hni. apply NoDup_app in Hkeys as (_ & _ & Hkeys).
    apply NoDup_app. split; [done|]. split; [|apply NoDup_singleton]. set_solver. }
  split; [split; [done|split]|split].
  - rewrite length_app, length_drop. simpl. unfold MAX_CACHED_GROUPS in *. lia.
  - intros u x [Hx|Hx]%elem_of_app; [|by apply list_elem_of_singleton in Hx; simplify_eq].
    apply (Hm u x), Hsub. rewrite <-(take_drop (length t' + 1 - MAX_CACHED_GROUPS) t'). apply elem_of_app. by right.
  - apply elem_of_map_get; [done|]. apply elem_of_app. right. left.
  - apply last_snoc.
Qed.

(** Writing a thread keeps the cache within its bounds, and reading it back gives the newest
    300 of the messages written, with the ledger of exactly those. *)
Lemma set_then_get uuid messages hasMore reactions pageLedger cachedAt now t : cache_ok t →
  let stored := setCachedThread uuid messages hasMore reactions pageLedger cachedAt now t in
  let got := getCachedThread uuid stored.2 in
  cache_ok stored.2 ∧ cache_ok got.2
  ∧ ∃ e, got.1 = Some e ∧ ct_messages e = newest MAX_MESSAGES_PER_GROUP messages ∧ ct_pageLedger e = stored.1
    ∧ ct_reactions e = reactions ∧ ct_hasMore e = hasMoreOlder stored.1.
Proof.
  intros Hok. unfold setCachedThread. set (ledger := coercePageLedger _ _ _ _). cbv zeta. cbn [fst snd].
  match goal with |- context [touch uuid ?e t] => set (entry := e) end.
  destruct (touch_ok uuid entry t) as (H1 & H2 & H3); [apply trim_small|done|]. unfold getCachedThread. rewrite H2. cbn [fst snd].
  split; [done|]. split.
  - destruct (touch_ok uuid entry (touch uuid entry t)) as (Ht & _); [apply trim_small|done|]. unfold touch in Ht at 1.
    destruct H1 as (Hok1 & Hlen1 & _). set (t1 := touch uuid entry t) in *.
    assert (Hsz : length (map_set uuid entry (map_delete uuid t1)) = length t1).
    { rewrite map_set_fresh by apply map_get_None, map_get_delete_eq. rewrite length_app. simpl.
      clear -Hok1 H2. induction t1 as [|[k v] t1 IH]; simpl in *; [done|]. apply NoDup_cons in Hok1 as [Hni Hnd]. case_decide as Hk.
      - subst k. assert (map_delete uuid t1 = t1) as ->; [|lia]. clear -Hni. induction t1 as [|[k2 v2] t2 IH2]; simpl in *; [done|].
        rewrite decide_False by set_solver. f_equal. apply IH2. set_solver.
      - simpl. by rewrite IH. }
    rewrite Hsz in Ht. replace (length t1 - MAX_CACHED_GROUPS)%nat with 0%nat in Ht by lia. done.
  - eexists. split; [done|]. split; [|done]. unfold entry, trimMessagesWithLedger. cbn [ct_messages].
    destruct (Nat.leb_spec (length messages) MAX_MESSAGES_PER_GROUP); [|done]. unfold newest.
    by replace (length messages - MAX_MESSAGES_PER_GROUP)%nat with 0%nat by lia.
Qed.
End window.

(** * Runs *)

Definition numbered (n : nat) : list Message := (λ i, {|
  m_id := [Z.of_nat i]; m_order := Z.of_nat i; m_createdAt := 0%Q; m_kind := Some (js "text"); m_system := None; m_body := tt |}) <$> seq 0 n.

Lemma numbered_ok n : history_ok (numbered n).
Proof.
  split.
  - unfold numbered. generalize 0%nat. induction n as [|n IH]; intros i; simpl; constructor; [apply IH|].
    apply Forall_fmap, Forall_forall. intros j [Hj _]%elem_of_seq. simpl. lia.
  - intros a b (i & -> & _)%list_elem_of_fmap (j & -> & _)%list_elem_of_fmap [= Hij]. apply Nat2Z.inj in Hij. by subst.
  - intros m (i & -> & _)%list_elem_of_fmap. split; [done|]. unfold is_optimistic. simpl. by rewrite andb_false_r.
Qed.

Lemma length_numbered n : length (numbered n) = n.
Proof. unfold numbered. by rewrite length_fmap, length_seq. Qed.

Definition by_length (a b : jsstr) : comparison := Nat.compare (length a) (length b).

Lemma older_pages_witness :
  let v := foldl (λ v now, loadMore by_length (js "room") now (older_page (numbered 120)) v)
             (opened by_length (js "room") 0 tt [] (newest MESSAGE_PAGE_SIZE (numbered 120)) true) [1; 2] in
  v_messages v = numbered 120 ∧ hasMoreOlder (v_ledger v) = false ∧ NoDup (v_sent v).
Proof.
  pose proof (older_pages by_length (js "room") 0 tt [] (numbered 120) [1; 2] (numbered_ok 120) ltac:(discriminate)) as H.
  rewrite length_numbered in H. apply H. vm_compute. lia.
Defined.

Lemma window_frozen_witness : ∃ m asked,
  v_sent (foldl (λ v now, loadMore by_length (js "room") now (older_page (numbered 400)) v)
            (opened by_length (js "room") 0 tt [] (newest MESSAGE_PAGE_SIZE (numbered 400)) true) [1; 2; 3; 4; 5; 6; 7; 8])
  = asked ++ [m; m; m] ∧ NoDup asked.
Proof.
  pose proof (window_frozen by_length (js "room") 0 tt [] (numbered 400) [1; 2; 3; 4; 5; 6; 7; 8] (numbered_ok 400)) as H.
  rewrite length_numbered in H. destruct H as (m & asked & _ & _ & _ & Hnd & Hs); [unfold MAX_MESSAGES_PER_GROUP; lia|simpl; lia|].
  exists (m_order m), asked. split; [exact Hs|exact Hnd].
Defined.
