(* ===== verification/ReplyQueue.v ===== *)
(** The queue of agent replies of the chat application
    ([src/chat-app/src/lib/agents/agent-reply-sessions.ts]): one question at a time per
    chat, held while a proposed action waits on the owner, across changes of runner.

    Handlers run to their end; between them, activations of [drain] wait for a gate or
    for the runner's promise.  A machine steps by the calls of the module's functions and
    by those promises, in any order; what a runner does before its first await counts as
    what comes next.  A runner is a value of [R], the action proposed to the owner one of
    [P]; the listeners of the store are React's. *)
From S2P Require Import Prelude JsString JsMap.
#[global] Open Scope Z_scope.

(** * State *)

Record AgentReplyJob := {
  groupId : jsstr; groupUuid : jsstr; question : jsstr; historyLength : Z; thread : list (option jsstr * option jsstr);
}.

Definition with_question (q : jsstr) (j : AgentReplyJob) : AgentReplyJob :=
  {| groupId := groupId j; groupUuid := groupUuid j; question := q; historyLength := historyLength j; thread := thread j |}.

Record AgentReplySession (P : Type) := {
  replying : bool; status : option jsstr; s_error : option jsstr; queued : Z; pending : option P; actionBusy : bool;
}.
Arguments replying {P} _.
Arguments status {P} _.
Arguments s_error {P} _.
Arguments queued {P} _.
Arguments pending {P} _.
Arguments actionBusy {P} _.

(** [Partial<AgentReplySession>] *)
Record SessionPatch (P : Type) := {
  p_replying : option bool; p_status : option (option jsstr); p_error : option (option jsstr); p_queued : option Z;
  p_pending : option (option P); p_actionBusy : option bool;
}.
Arguments p_replying {P} _.
Arguments p_status {P} _.
Arguments p_error {P} _.
Arguments p_queued {P} _.
Arguments p_pending {P} _.
Arguments p_actionBusy {P} _.

(** A promise is its number; [release] resolves the promise it names. *)
Record GroupQueue := { items : list AgentReplyJob; working : bool; gate : option nat; release : option nat }.

Definition new_queue : GroupQueue := {| items := []; working := false; gate := None; release := None |}.

Definition set_items (l : list AgentReplyJob) (q : GroupQueue) : GroupQueue :=
  {| items := l; working := working q; gate := gate q; release := release q |}.
Definition set_working (b : bool) (q : GroupQueue) : GroupQueue :=
  {| items := items q; working := b; gate := gate q; release := release q |}.
Definition set_gate (k : option nat) (q : GroupQueue) : GroupQueue :=
  {| items := items q; working := working q; gate := k; release := k |}.

(** Where an activation of [drain] waits. *)
Inductive stage := AtGate (k : nat) | Running (job : AgentReplyJob).

(** What the runners were asked and what they settled. *)
Inductive entry (R : Type) := Begun (r : R) (job : AgentReplyJob) | Settled (job : AgentReplyJob).
Arguments Begun {R} r job.
Arguments Settled {R} job.

Section reply_queue.
Context {R P : Type}.

Record world := {
  sessions : list (jsstr * AgentReplySession P);
  tick : Z;
  queues : list (jsstr * GroupQueue);
  runner : option R;
  gates : nat;
  released : list nat;
  waiting : list (jsstr * stage);
  calls : list (entry R);
}.

Definition init : world :=
  {| sessions := []; tick := 0; queues := []; runner := None; gates := 0; released := []; waiting := []; calls := [] |}.

Definition EMPTY : AgentReplySession P :=
  {| replying := false; status := None; s_error := None; queued := 0; pending := None; actionBusy := false |}.

Definition set_session (g : jsstr) (s : AgentReplySession P) (w : world) : world := {|
  sessions := map_set g s (sessions w); tick := tick w + 1; queues := queues w; runner := runner w; gates := gates w;
  released := released w; waiting := waiting w; calls := calls w |}.

Definition queueFor (g : jsstr) (w : world) : GroupQueue := default new_queue (map_get g (queues w)).

(** A change of the queue [queueFor] gives, which it has put in the map. *)
Definition on_queue (g : jsstr) (f : GroupQueue → GroupQueue) (w : world) : world := {|
  sessions := sessions w; tick := tick w; queues := map_set g (f (queueFor g w)) (queues w); runner := runner w;
  gates := gates w; released := released w; waiting := waiting w; calls := calls w |}.

Definition suspend (g : jsstr) (s : stage) (w : world) : world := {|
  sessions := sessions w; tick := tick w; queues := queues w; runner := runner w; gates := gates w;
  released := released w; waiting := waiting w ++ [(g, s)]; calls := calls w |}.

Definition record_call (c : entry R) (w : world) : world := {|
  sessions := sessions w; tick := tick w; queues := queues w; runner := runner w; gates := gates w;
  released := released w; waiting := waiting w; calls := calls w ++ [c] |}.

(** A new promise, the [gates w]-th; resolving the [k]-th. *)
Definition new_promise (w : world) : world := {|
  sessions := sessions w; tick := tick w; queues := queues w; runner := runner w; gates := S (gates w);
  released := released w; waiting := waiting w; calls := calls w |}.

Definition resolve (k : option nat) (w : world) : world := {|
  sessions := sessions w; tick := tick w; queues := queues w; runner := runner w; gates := gates w;
  released := option_list k ++ released w; waiting := waiting w; calls := calls w |}.

Definition with_runner (r : option R) (w : world) : world := {|
  sessions := sessions w; tick := tick w; queues := queues w; runner := r; gates := gates w;
  released := released w; waiting := waiting w; calls := calls w |}.

(** * [drain] *)

Definition getAgentReplySession (g : jsstr) (w : world) : AgentReplySession P := default EMPTY (map_get g (sessions w)).

Definition with_queued (n : Z) (s : AgentReplySession P) : AgentReplySession P := {|
  replying := replying s; status := status s; s_error := s_error s; queued := n; pending := pending s; actionBusy := actionBusy s |}.

Definition publishQueueSize (g : jsstr) (n : Z) (w : world) : world :=
  let current := getAgentReplySession g w in
  if bool_decide (queued current = n) && map_has g (sessions w) then w else set_session g (with_queued n current) w.

(** The [finally] block; [again] drains anew. *)
Definition finally (again : world → option world) (g : jsstr) (w : world) : option world :=
  let w := on_queue g (set_working false) w in
  if bool_decide (items (queueFor g w) ≠ []) && bool_decide (is_Some (runner w)) then again w else Some w.

(** The body of the loop, from its wait for the gate to its next wait or to [leave]. *)
Definition gated (leave : world → option world) (g : jsstr) (w : world) : option world :=
  let q := queueFor g w in
  match gate q with
  | Some k => Some (suspend g (AtGate k) w)
  | None =>
      let w1 := publishQueueSize g (Z.of_nat (length (tail (items q)))) (on_queue g (set_items (tail (items q))) w) in
      match items q, runner w1 with
      | [], _ => leave w1
      | job :: _, None => leave (on_queue g (λ q, set_items (job :: items q) q) w1)
      | job :: _, Some r => Some (suspend g (Running job) (record_call (Begun r job) w1))
      end
  end.

(** The loop from its head.  [None]: the fuel, which counts restarts, ran out. *)
Fixpoint loop (fuel : nat) (g : jsstr) (w : world) : option world :=
  match fuel with
  | O => None
  | S fuel' =>
      let leave := finally (λ w, loop fuel' g (on_queue g (set_working true) w)) g in
      if bool_decide (items (queueFor g w) = []) then leave w else gated leave g w
  end.

Definition drain (fuel : nat) (g : jsstr) (w : world) : option world :=
  if working (queueFor g w) then Some w else loop fuel g (on_queue g (set_working true) w).

(** * The module's functions *)

Definition patchAgentReplySession (g : jsstr) (p : SessionPatch P) (w : world) : world :=
  let s := getAgentReplySession g w in
  set_session g {| replying := default (replying s) (p_replying p); status := default (status s) (p_status p);
                   s_error := default (s_error s) (p_error p); queued := default (queued s) (p_queued p);
                   pending := default (pending s) (p_pending p); actionBusy := default (actionBusy s) (p_actionBusy p) |} w.

Definition holdAgentReplyQueue (g : jsstr) (w : world) : world :=
  let w := on_queue g id w in
  match gate (queueFor g w) with
  | Some _ => w
  | None => on_queue g (set_gate (Some (gates w))) (new_promise w)
  end.

Definition resumeAgentReplyQueue (fuel : nat) (g : jsstr) (w : world) : option world :=
  match map_get g (queues w) with
  | None => Some w
  | Some q =>
      let w := on_queue g (set_gate None) (resolve (release q) w) in
      if bool_decide (items q ≠ []) && negb (working q) then drain fuel g w else Some w
  end.

Definition enqueueAgentReply (fuel : nat) (job : AgentReplyJob) (w : world) : option world :=
  let text := trim (question job) in
  if bool_decide (text = []) then Some w else
  let g := groupId job in
  let w := on_queue g (λ q, set_items (items q ++ [with_question text job]) q) w in
  drain fuel g (publishQueueSize g (Z.of_nat (length (items (queueFor g w)))) w).

(** [for (const [groupId, queue] of queues)]; draining adds no queue. *)
Definition drain_all (fuel : nat) (gs : list jsstr) (w : world) : option world :=
  foldl (λ ow g, w ← ow; if bool_decide (items (queueFor g w) ≠ []) && negb (working (queueFor g w)) then drain fuel g w else Some w)
    (Some w) gs.

Definition setAgentReplyRunner (fuel : nat) (next : option R) (w : world) : option world :=
  let w := with_runner next w in
  match next with None => Some w | Some _ => drain_all fuel (queues w).*1 w end.

(** [Thinking…] *)
Definition THINKING : jsstr := js "Thinking" ++ [8230].

Definition agentReplyPreview (g : jsstr) (fallback : jsstr) (w : world) : jsstr :=
  let session := getAgentReplySession g w in
  let busy := replying session || ((0 <? queued session) && bool_decide (pending session = None)) in
  if negb busy then fallback
  else match trim <$> status session with Some (c :: s) => c :: s | _ => THINKING end.

(** * The machine *)

Inductive event :=
  | Enqueue (job : AgentReplyJob)
  | Hold (g : jsstr)
  | Resume (g : jsstr)
  | SetRunner (r : option R)
  | Patch (g : jsstr) (p : SessionPatch P)
  | Continue (i : nat).

Definition unwait (i : nat) (w : world) : world := {|
  sessions := sessions w; tick := tick w; queues := queues w; runner := runner w; gates := gates w;
  released := released w; waiting := delete i (waiting w); calls := calls w |}.

(** The [i]-th waiting activation goes on: its gate was released, or the runner's promise
    settled, fulfilled or rejected alike. *)
Definition continue (fuel : nat) (i : nat) (w : world) : option world :=
  match waiting w !! i with
  | None => None
  | Some (g, AtGate k) =>
      if bool_decide (k ∈ released w)
      then gated (finally (λ w, loop fuel g (on_queue g (set_working true) w)) g) g (unwait i w)
      else None
  | Some (g, Running job) => loop fuel g (record_call (Settled job) (unwait i w))
  end.

Definition step (fuel : nat) (w : world) (e : event) : option world :=
  match e with
  | Enqueue job => enqueueAgentReply fuel job w
  | Hold g => Some (holdAgentReplyQueue g w)
  | Resume g => resumeAgentReplyQueue fuel g w
  | SetRunner r => setAgentReplyRunner fuel r w
  | Patch g p => Some (patchAgentReplySession g p w)
  | Continue i => continue fuel i w
  end.

Definition run (fuel : nat) (es : list event) (w : world) : option world := foldl (λ ow e, w ← ow; step fuel w e) (Some w) es.

(** * What the machine keeps *)

Definition begun_of (g : jsstr) (c : entry R) : option AgentReplyJob :=
  match c with Begun _ job => if decide (groupId job = g) then Some job else None | Settled _ => None end.
Definition settled_of (g : jsstr) (c : entry R) : option AgentReplyJob :=
  match c with Settled job => if decide (groupId job = g) then Some job else None | Begun _ _ => None end.
Definition running_of (g : jsstr) (x : jsstr * stage) : option AgentReplyJob :=
  match x with (g', Running job) => if decide (g' = g) then Some job else None | _ => None end.
Definition asked_of (g : jsstr) (e : event) : option AgentReplyJob :=
  match e with
  | Enqueue job => if decide (groupId job = g ∧ trim (question job) ≠ []) then Some (with_question (trim (question job)) job) else None
  | _ => None
  end.

(** The questions given to a runner, those it has finished with, the one it is at, those
    that wait, and those asked by a sequence of events. *)
Definition begun (g : jsstr) (w : world) : list AgentReplyJob := omap (begun_of g) (calls w).
Definition settled (g : jsstr) (w : world) : list AgentReplyJob := omap (settled_of g) (calls w).
Definition running (g : jsstr) (w : world) : list AgentReplyJob := omap (running_of g) (waiting w).
Definition asked (g : jsstr) (es : list event) : list AgentReplyJob := omap (asked_of g) es.
Abbreviation queue g w := (items (queueFor g w)).
Abbreviation held g w := (gate (queueFor g w)).

(** Between handlers [D] is [None]; while [drain] runs for a group it is that group.  The
    groups of [X] may be idle with questions waiting. *)
Record inv (D : option jsstr) (X : jsstr → Prop) (w : world) : Prop := {
  inv_single : NoDup (waiting w).*1;
  inv_current g : D = Some g → g ∉ (waiting w).*1;
  inv_working g : working (queueFor g w) = true ↔ g ∈ (waiting w).*1 ∨ D = Some g;
  inv_gate g k : held g w = Some k → release (queueFor g w) = Some k ∧ (k ∉ released w) ∧ (k < gates w)%nat;
  inv_gates g g' k : held g w = Some k → held g' w = Some k → g = g';
  inv_released k : k ∈ released w → (k < gates w)%nat;
  inv_atgate g k : (g, AtGate k) ∈ waiting w → queue g w ≠ [] ∧ (held g w = Some k ∨ k ∈ released w);
  inv_idle g : working (queueFor g w) = false → queue g w ≠ [] → runner w = None ∨ X g;
  inv_items g : Forall (λ j, groupId j = g) (queue g w);
  inv_running g job : (g, Running job) ∈ waiting w → groupId job = g;
  inv_order g : begun g w = settled g w ++ running g w;
  inv_release g : held g w = None → release (queueFor g w) = None;
}.

Abbreviation ok := (inv None (λ _, False)).

Lemma ok_init : ok init.
Proof. split; try done; simpl; try set_solver; try constructor. Qed.

(** What only changes sessions. *)
Lemma inv_sessions D X w s t : inv D X w → inv D X {| sessions := s; tick := t; queues := queues w; runner := runner w;
  gates := gates w; released := released w; waiting := waiting w; calls := calls w |}.
Proof. by intros []; split. Qed.

Lemma queueFor_on g g' f w : queueFor g' (on_queue g f w) = if decide (g = g') then f (queueFor g w) else queueFor g' w.
Proof.
  unfold queueFor at 1. simpl. case_decide; subst; [by rewrite map_get_set_eq|]. by rewrite map_get_set_ne.
Qed.

Lemma publish_sessions g n w : ∃ s t, publishQueueSize g n w = {| sessions := s; tick := t; queues := queues w; runner := runner w;
  gates := gates w; released := released w; waiting := waiting w; calls := calls w |}.
Proof. unfold publishQueueSize. destruct w. case_match; eauto. Qed.

(** What [drain] changes: questions go from the queue to the runner, where the queue is
    not held. *)
Record moved (w w' : world) : Prop := {
  mv_jobs g : begun g w' ++ queue g w' = begun g w ++ queue g w;
  mv_runner : runner w' = runner w;
  mv_held g : held g w' = held g w;
  mv_begun g : begun g w' = begun g w ∨ held g w = None;
}.

Lemma moves_refl w : moved w w.
Proof. split; auto. Qed.

Lemma moves_trans w1 w2 w3 : moved w1 w2 → moved w2 w3 → moved w1 w3.
Proof.
  intros [J1 R1 H1 B1] [J2 R2 H2 B2]. split; intros; [by rewrite J2, J1|congruence|by rewrite H2, H1|].
  destruct (B2 g) as [->|Hg]; [apply B1|]. right. by rewrite <-H1.
Qed.

Lemma queueFor_suspend h g s w : queueFor h (suspend g s w) = queueFor h w.
Proof. done. Qed.
Lemma queueFor_record h c w : queueFor h (record_call c w) = queueFor h w.
Proof. done. Qed.
Lemma queueFor_unwait h i w : queueFor h (unwait i w) = queueFor h w.
Proof. done. Qed.
Lemma queueFor_promise h w : queueFor h (new_promise w) = queueFor h w.
Proof. done. Qed.
Lemma queueFor_resolve h k w : queueFor h (resolve k w) = queueFor h w.
Proof. done. Qed.
Lemma queueFor_runner h r w : queueFor h (with_runner r w) = queueFor h w.
Proof. done. Qed.
Create Rewrite HintDb queues.
#[local] Hint Rewrite queueFor_suspend queueFor_record queueFor_unwait queueFor_promise queueFor_resolve queueFor_runner queueFor_on : queues.

#[local] Ltac on_queues :=
  intros; cbn [suspend record_call unwait new_promise resolve with_runner waiting runner gates released calls on_queue] in *;
  autorewrite with queues in *; repeat case_decide; subst; cbn [id items working gate release set_items set_working set_gate] in *.

(** ** Leaving the loop *)

Lemma leave_spec again g X w : inv (Some g) X w → queue g w = [] ∨ runner w = None →
  ∃ w', finally again g w = Some w' ∧ inv None (λ h, X h ∧ h ≠ g) w' ∧ moved w w'
    ∧ waiting w' = waiting w ∧ calls w' = calls w ∧ queue g w' = queue g w.
Proof.
  intros Hw Hq. unfold finally. rewrite queueFor_on, decide_True by done. cbn [items set_working].
  assert (bool_decide (queue g w ≠ []) && bool_decide (is_Some (runner (on_queue g (set_working false) w))) = false) as ->.
  { apply andb_false_iff. simpl. destruct Hq as [-> | ->]; [by left|right]. done. }
  eexists. split; [done|]. destruct Hw as [I1 I2 I3 I4 I5 I6 I7 I8 I9 I10 I11 I12]. split; [|split].
  - split; on_queues; eauto; try done.
    + split; [done|]. intros [?|?]; [by edestruct I2|done].
    + rewrite I3. naive_solver.
    + destruct Hq; [done|by left].
    + destruct (I8 g0); auto.
  - split; on_queues; eauto.
  - split; [done|]. split; [done|]. by on_queues.
Qed.

(** ** The body of the loop *)

Definition same (w w' : world) : Prop :=
  (∀ g, queueFor g w' = queueFor g w) ∧ runner w' = runner w ∧ gates w' = gates w ∧ released w' = released w
  ∧ waiting w' = waiting w ∧ calls w' = calls w.

Lemma inv_same D X w w' : same w w' → inv D X w → inv D X w'.
Proof.
  intros (Hq & Hr & Hg & Hl & Hw & Hc) []. split; intros; rewrite ?Hq, ?Hr, ?Hg, ?Hl, ?Hw in *; eauto.
  unfold begun, settled, running in *. rewrite ?Hc, ?Hw. auto.
Qed.

Lemma moved_same w w' : same w w' → moved w w'.
Proof. intros (Hq & Hr & _ & _ & _ & Hc). unfold begun. split; intros; unfold begun; rewrite ?Hq, ?Hc; auto. Qed.

Lemma same_publish g n w : same w (publishQueueSize g n w).
Proof. destruct (publish_sessions g n w) as (s & t & ->). done. Qed.

Lemma running_suspend h g s w : running h (suspend g s w) = running h w ++ match s with Running job => if decide (g = h) then [job] else [] | _ => [] end.
Proof. unfold running. simpl. rewrite omap_app. simpl. destruct s; [done|]. by case_decide. Qed.

Lemma begun_record h c w : begun h (record_call c w) = begun h w ++ match begun_of h c with Some j => [j] | None => [] end.
Proof. unfold begun. simpl. rewrite omap_app. simpl. by destruct (begun_of h c). Qed.

Lemma settled_record h c w : settled h (record_call c w) = settled h w ++ match settled_of h c with Some j => [j] | None => [] end.
Proof. unfold settled. simpl. rewrite omap_app. simpl. by destruct (settled_of h c). Qed.

(** What one turn gives: the next question begins if nothing keeps it. *)
Definition turned (g : jsstr) (w w' : world) : Prop :=
  held g w = None → is_Some (runner w) →
  queue g w' = tail (queue g w) ∧ settled g w' = settled g w
  ∧ match queue g w with
    | [] => waiting w' = waiting w
    | job :: _ => waiting w' = waiting w ++ [(g, Running job)]
    end.

Lemma waiting_elem g s w : (g, s) ∈ waiting w → g ∈ (waiting w).*1.
Proof. apply (list_elem_of_fmap_2 fst). Qed.

Lemma suspend_inv g X w s : inv (Some g) X w →
  match s with AtGate k => queue g w ≠ [] ∧ held g w = Some k | Running job => False end →
  inv None (λ h, X h ∧ h ≠ g) (suspend g s w).
Proof.
  destruct s as [k|]; [|done]. intros [I1 I2 I3 I4 I5 I6 I7 I8 I9 I10 I11 I12] [Hq Hk]. split; on_queues; eauto; try done.
  - rewrite fmap_app. apply NoDup_app. split; [done|]. split; [|apply NoDup_singleton]. set_solver.
  - rewrite I3, fmap_app. set_solver.
  - set_solver.
  - destruct (I8 g0) as [?|?]; auto. right. split; [done|]. intros ->.
    specialize (I3 g). destruct (working (queueFor g w)); [done|]. naive_solver.
  - set_solver.
  - rewrite running_suspend, app_nil_r. apply I11.
Qed.

Lemma begin_inv g X w job rest r : inv (Some g) X w → queue g w = job :: rest → held g w = None →
  inv None (λ h, X h ∧ h ≠ g) (suspend g (Running job) (record_call (Begun r job) (on_queue g (set_items rest) w))).
Proof.
  intros [I1 I2 I3 I4 I5 I6 I7 I8 I9 I10 I11 I12] Hq Hg. assert (Hj : groupId job = g ∧ Forall (λ j, groupId j = g) rest).
  { specialize (I9 g). rewrite Hq in I9. by inversion I9. } destruct Hj as [Hj Hrest].
  split; on_queues; eauto; try done.
  - rewrite fmap_app. apply NoDup_app. split; [done|]. split; [|apply NoDup_singleton]. set_solver.
  - rewrite I3, fmap_app. set_solver.
  - rewrite I3, fmap_app. set_solver.
  - exfalso. apply elem_of_app in H as [H|H]; [|set_solver]. by eapply I2, waiting_elem.
  - set_solver.
  - exfalso. specialize (I3 (groupId job)). destruct (working _); [done|]. naive_solver.
  - destruct (I8 g0); auto.
  - apply elem_of_app in H as [H|H]; [by eapply I10|]. set_solver.
  - change (begun g0 (record_call (Begun r job) w) = settled g0 (record_call (Begun r job) w) ++ running g0 (suspend (groupId job) (Running job) w)).
    rewrite running_suspend, begun_record, settled_record, I11, app_nil_r, <-app_assoc. simpl. by case_decide.
Qed.

Lemma settled_begun h g s r job w : settled h (suspend g s (record_call (Begun r job) w)) = settled h w.
Proof. etrans; [apply settled_record|]. apply app_nil_r. Qed.

Lemma begin_moved g w job rest r : queue g w = job :: rest → groupId job = g → held g w = None →
  moved w (suspend g (Running job) (record_call (Begun r job) (on_queue g (set_items rest) w))).
Proof.
  intros Hi Hj Hg.
  assert (Hb : ∀ h, begun h (suspend g (Running job) (record_call (Begun r job) (on_queue g (set_items rest) w)))
                    = begun h w ++ if decide (g = h) then [job] else []).
  { intros h. etrans; [apply begun_record|]. simpl. rewrite Hj. by case_decide. }
  split; try done; intros h; rewrite ?Hb; on_queues; rewrite ?app_nil_r; auto. by rewrite Hi, <-app_assoc.
Qed.

Lemma gated_spec again g X w : inv (Some g) X w → queue g w ≠ [] →
  ∃ w', gated (finally again g) g w = Some w' ∧ inv None (λ h, X h ∧ h ≠ g) w' ∧ moved w w' ∧ turned g w w'.
Proof.
  intros Hw Hq. unfold gated. destruct (held g w) as [k|] eqn:Hk.
  { eexists. split; [done|]. split; [by apply suspend_inv|]. split; [|intros ?; congruence]. split; on_queues; eauto. }
  destruct (queue g w) as [|job rest] eqn:Hi; [done|]. cbn [tail].
  assert (runner (publishQueueSize g (Z.of_nat (length rest)) (on_queue g (set_items rest) w)) = runner w) as ->
    by (by destruct (same_publish g (Z.of_nat (length rest)) (on_queue g (set_items rest) w)) as (_ & -> & _)).
  destruct (runner w) as [r|] eqn:Hr.
  - assert (Hs : same (suspend g (Running job) (record_call (Begun r job) (on_queue g (set_items rest) w)))
                      (suspend g (Running job) (record_call (Begun r job) (publishQueueSize g (Z.of_nat (length rest)) (on_queue g (set_items rest) w))))).
    { destruct (publish_sessions g (Z.of_nat (length rest)) (on_queue g (set_items rest) w)) as (s & t & ->). done. }
    eexists. split; [done|]. split; [eapply inv_same, begin_inv; done|].
    assert (groupId job = g) by (pose proof (inv_items _ _ _ Hw g) as Hj; rewrite Hi in Hj; by inversion Hj).
    split; [eapply moves_trans, moved_same, Hs; by apply begin_moved|].
    intros _ _. destruct Hs as (Hs & _ & _ & _ & Hw' & Hc'). rewrite Hs, Hw', Hi. split; [by on_queues|].
    split; [|done]. unfold settled at 1. rewrite Hc'. exact (settled_begun g g (Running job) r job (on_queue g (set_items rest) w)).
  - match goal with |- context [finally _ _ ?w] => set (w2 := w) end.
    assert (Hs : same w w2).
    { destruct (same_publish g (Z.of_nat (length rest)) (on_queue g (set_items rest) w)) as (Hp & Hp1 & Hp2).
      split; [|split; [exact Hp1|exact Hp2]].
      intros h. unfold w2. rewrite queueFor_on, !Hp. on_queues; [|done..]. rewrite <-Hi. by destruct (queueFor h w). }
    destruct (leave_spec again g X w2) as (w' & E & Hi' & Hm & _); [by eapply inv_same|right; by destruct Hs as (_ & -> & _)|].
    exists w'. split; [done|]. split; [done|]. split; [|intros _ [? ?]; congruence].
    eapply moves_trans; [by apply moved_same|done].
Qed.

(** ** [drain] and the loop *)

Lemma inv_weaken D (X Y : jsstr → Prop) w : (∀ h, working (queueFor h w) = false → queue h w ≠ [] → X h → Y h) → inv D X w → inv D Y w.
Proof. intros HX []. split; auto. intros g Hg Hi. destruct (inv_idle0 g Hg Hi); auto. Qed.

Lemma loop_spec n g X w : inv (Some g) X w →
  ∃ w', loop (S n) g w = Some w' ∧ inv None (λ h, X h ∧ h ≠ g) w' ∧ moved w w' ∧ turned g w w'.
Proof.
  intros Hw. cbn [loop]. case_bool_decide as Hq; [|by apply gated_spec].
  destruct (leave_spec (λ w, loop n g (on_queue g (set_working true) w)) g X w) as (w' & E & Hi & Hm & Hwt & Hc & Hq'); [done|by left|].
  exists w'. split; [done|]. split; [done|]. split; [done|]. intros _ _. rewrite Hq', Hq. split; [done|].
  split; [|done]. unfold settled. by rewrite Hc.
Qed.

Lemma enter_inv g X w : inv None X w → working (queueFor g w) = false → inv (Some g) X (on_queue g (set_working true) w).
Proof.
  intros [I1 I2 I3 I4 I5 I6 I7 I8 I9 I10 I11 I12] Hw. split; on_queues; eauto; try done.
  - simplify_eq. intros Hin. rewrite (proj2 (I3 _)) in Hw; [done|by left].
  - split; [by right|done].
  - rewrite I3. naive_solver.
Qed.

Lemma enter_moved g w : moved w (on_queue g (set_working true) w).
Proof. split; on_queues; auto. Qed.

Lemma drain_spec n g X w : inv None X w → ∃ w', drain (S n) g w = Some w' ∧ inv None (λ h, X h ∧ h ≠ g) w' ∧ moved w w'.
Proof.
  intros Hw. unfold drain. destruct (working (queueFor g w)) eqn:Hwk.
  { exists w. split; [done|]. split; [|apply moves_refl]. eapply inv_weaken; [|done]. intros h Hh _ HX. split; [done|]. intros ->. congruence. }
  destruct (loop_spec n g X (on_queue g (set_working true) w)) as (w' & E & Hi & Hm & _); [by apply enter_inv|].
  exists w'. split; [done|]. split; [done|]. eapply moves_trans; [apply enter_moved|done].
Qed.

(** A group with questions and no activation is drained. *)
Lemma drain_if_spec n g X w : inv None X w →
  ∃ w', (if bool_decide (queue g w ≠ []) && negb (working (queueFor g w)) then drain (S n) g w else Some w) = Some w'
    ∧ inv None (λ h, X h ∧ h ≠ g) w' ∧ moved w w'.
Proof.
  intros Hw. case_match eqn:Hc; [by apply drain_spec|]. exists w. split; [done|]. split; [|apply moves_refl].
  eapply inv_weaken; [|done]. intros h Hwk Hq HX. split; [done|]. intros ->. rewrite Hwk, bool_decide_true in Hc; done.
Qed.

Lemma drain_all_spec n gs X w : inv None X w → (∀ h, X h → h ∈ gs) → ∃ w', drain_all (S n) gs w = Some w' ∧ ok w' ∧ moved w w'.
Proof.
  revert X w. induction gs as [|g gs IH]; intros X w Hw HX.
  - exists w. split; [done|]. split; [|apply moves_refl]. eapply inv_weaken; [|done]. intros h _ _ Hh%HX. by apply elem_of_nil in Hh.
  - destruct (drain_if_spec n g X w Hw) as (w1 & E & H1 & M1).
    destruct (IH _ w1 H1) as (w2 & E2 & H2 & M2).
    { intros h [Hh Hne]. apply HX, elem_of_cons in Hh as [->|Hh]; done. }
    exists w2. split; [|split; [done|by eapply moves_trans]]. unfold drain_all. cbn [foldl mbind option_bind]. by rewrite E.
Qed.

(** * Steps *)

Record stepped (e : event) (w w' : world) : Prop := {
  st_jobs g : begun g w' ++ queue g w' = begun g w ++ queue g w ++ option_list (asked_of g e);
  st_begun g : begun g w' = begun g w ∨ held g w' = None;
}.

Lemma moved_stepped e w w' : moved w w' → (∀ g, asked_of g e = None) → stepped e w w'.
Proof.
  intros [J R' H B] He. split; intros g; [by rewrite J, He, app_nil_r|]. rewrite H. apply B.
Qed.

Definition enabled (e : event) (w : world) : Prop :=
  match e with
  | Continue i => match waiting w !! i with Some (_, AtGate k) => k ∈ released w | Some (_, Running _) => True | None => False end
  | _ => True
  end.

Lemma inv_current_none D X w g : inv D X w → D = None → working (queueFor g w) = true ↔ g ∈ (waiting w).*1.
Proof. intros Hw ->. rewrite (inv_working _ _ _ Hw). naive_solver. Qed.

Lemma enqueue_spec n job w : ok w → ∃ w', enqueueAgentReply (S n) job w = Some w' ∧ ok w' ∧ stepped (Enqueue job) w w'.
Proof.
  intros Hw. unfold enqueueAgentReply. set (text := trim (question job)). set (g := groupId job).
  case_bool_decide as Ht.
  { exists w. split; [done|]. split; [done|]. apply moved_stepped; [apply moves_refl|]. intros h. simpl. case_decide as Hd; [|done]. by destruct Hd. }
  set (w1 := on_queue g (λ q, set_items (items q ++ [with_question text job]) q) w).
  assert (Hi : inv None (λ h, h = g) w1).
  { destruct Hw as [I1 I2 I3 I4 I5 I6 I7 I8 I9 I10 I11 I12]. unfold w1. split; on_queues; eauto; try done.
    - destruct (I7 _ _ H) as [_ ?]. split; [by destruct (queue g w)|done].
    - destruct (I8 g0) as [?|[]]; auto.
    - apply Forall_app. split; [apply I9|by repeat constructor]. }
  set (n1 := Z.of_nat (length (queue g w1))).
  destruct (drain_spec n g _ (publishQueueSize g n1 w1) (inv_same _ _ _ _ (same_publish g n1 w1) Hi)) as (w' & E & Hi' & Hm).
  exists w'. split; [done|]. split; [eapply inv_weaken; [|done]; naive_solver|].
  pose proof (moves_trans _ _ _ (moved_same _ _ (same_publish g n1 w1)) Hm) as [J _ H B].
  split; intros h.
  - rewrite J. unfold w1. rewrite queueFor_on. change (begun h (on_queue _ _ _)) with (begun h w). simpl. fold g text.
    case_decide as Hd; [|by rewrite decide_False, app_nil_r; [|intros [? _]]]. subst h. by rewrite decide_True.
  - rewrite H. apply B.
Qed.

Lemma hold_spec g w : ok w → ok (holdAgentReplyQueue g w) ∧ stepped (Hold g) w (holdAgentReplyQueue g w).
Proof.
  intros Hw. unfold holdAgentReplyQueue. rewrite queueFor_on, decide_True by done. change (id (queueFor g w)) with (queueFor g w).
  assert (Hs : same w (on_queue g id w)). { split; [|done]. intros h. by on_queues. }
  destruct (held g w) as [k|] eqn:Hk.
  { split; [by eapply inv_same|]. apply moved_stepped; [by apply moved_same|done]. }
  destruct Hw as [I1 I2 I3 I4 I5 I6 I7 I8 I9 I10 I11 I12]. split.
  - split; on_queues; eauto; try done.
    + simplify_eq. split; [done|]. split; [|lia]. intros ?%I6. lia.
    + destruct (I4 _ _ H) as (? & ? & ?). split; [done|]. split; [done|lia].
    + exfalso. simplify_eq. edestruct I4 as (? & ? & ?); [done|]. lia.
    + exfalso. simplify_eq. edestruct I4 as (? & ? & ?); [done|]. lia.
    + specialize (I6 _ H). lia.
    + destruct (I7 _ _ H) as [? [?|?]]; [congruence|by split; [|right]].
  - split; on_queues; rewrite ?app_nil_r; auto.
Qed.

Lemma resume_spec n g w : ok w → ∃ w', resumeAgentReplyQueue (S n) g w = Some w' ∧ ok w' ∧ stepped (Resume g) w w'.
Proof.
  intros Hw. unfold resumeAgentReplyQueue. destruct (map_get g (queues w)) as [q|] eqn:Hg; cycle 1.
  { exists w. split; [done|]. split; [done|]. by apply moved_stepped; [apply moves_refl|]. }
  assert (queueFor g w = q) as <- by (unfold queueFor; by rewrite Hg).
  set (w1 := on_queue g (set_gate None) (resolve (release (queueFor g w)) w)).
  assert (Hi : ok w1).
  { destruct Hw as [I1 I2 I3 I4 I5 I6 I7 I8 I9 I10 I11 I12]. unfold w1. split; on_queues; eauto; try done.
    - destruct (I4 _ _ H) as (? & ? & ?). split; [done|]. split; [|done]. destruct (release (queueFor g w)) as [k'|] eqn:Hr; simpl; [|done].
      intros [->|?]%elem_of_cons; [|done]. destruct (held g w) as [k2|] eqn:Hk; [|by rewrite I12 in Hr].
      destruct (I4 _ _ Hk) as (Hr2 & _ & _). assert (g0 = g) by (eapply I5; [done|congruence]). congruence.
    - apply elem_of_app in H as [H|H]; [|by apply I6]. destruct (held g w) as [k2|] eqn:Hk; [|by rewrite I12 in H; [apply elem_of_nil in H|]].
      destruct (I4 _ _ Hk) as (Hr2 & _ & ?). rewrite Hr2 in H. apply list_elem_of_singleton in H as ->. done.
    - destruct (I7 _ _ H) as [? [Hk|?]]; (split; [done|]); right; [|set_solver]. destruct (I4 _ _ Hk) as (-> & _ & _). set_solver.
    - destruct (I7 _ _ H) as [? [?|?]]; set_solver. }
  destruct (drain_if_spec n g _ w1 Hi) as (w' & E & Hi' & [J _ H B]).
  assert (Hq1 : queueFor g w1 = set_gate None (queueFor g w)) by (unfold w1; by on_queues).
  rewrite Hq1 in E. exists w'. split; [exact E|]. split; [eapply inv_weaken; [|done]; naive_solver|]. split; intros h.
  - rewrite J. unfold w1. on_queues; by rewrite app_nil_r.
  - destruct (B h) as [->|Hb]; [by left|right]. by rewrite H.
Qed.

Lemma runner_spec n r w : ok w → ∃ w', setAgentReplyRunner (S n) r w = Some w' ∧ ok w' ∧ stepped (SetRunner r) w w'.
Proof.
  intros Hw. unfold setAgentReplyRunner.
  assert (Hi : inv None (λ h, r ≠ None ∧ h ∈ (queues w).*1) (with_runner r w)).
  { destruct Hw as [I1 I2 I3 I4 I5 I6 I7 I8 I9 I10 I11 I12]. split; on_queues; eauto; try done.
    destruct r; [right|by left]. split; [done|]. destruct (decide (g ∈ (queues w).*1)) as [|Hn]; [done|].
    apply map_get_absent in Hn. unfold queueFor in H0. by rewrite Hn in H0. }
  destruct r as [r|]; cycle 1.
  { eexists. split; [done|]. split; [eapply inv_weaken; [|done]; naive_solver|]. split; on_queues; rewrite ?app_nil_r; auto. }
  destruct (drain_all_spec n (queues w).*1 _ _ Hi) as (w' & E & Hi' & [J _ H B]); [naive_solver|].
  exists w'. split; [exact E|]. split; [done|]. split; intros h; [by rewrite J, app_nil_r|]. rewrite H. apply B.
Qed.

Lemma same_patch g p w : same w (patchAgentReplySession g p w).
Proof. done. Qed.

Lemma running_absent g (l : list (jsstr * stage)) : g ∉ l.*1 → omap (running_of g) l = [].
Proof.
  induction l as [|[h s] l IH]; [done|]. intros Hg.
  change (match running_of g (h, s) with Some y => y :: omap (running_of g) l | None => omap (running_of g) l end = []).
  rewrite fmap_cons, not_elem_of_cons in Hg. rewrite IH by apply Hg. destruct s; [done|]. cbn [running_of].
  by rewrite decide_False by (intros ->; by destruct Hg).
Qed.

(** What the [i]-th activation was at. *)
Lemma running_unwait i g s w : ok w → waiting w !! i = Some (g, s) →
  running g w = match s with Running job => [job] | _ => [] end ∧ running g (unwait i w) = []
  ∧ ∀ h, h ≠ g → running h (unwait i w) = running h w.
Proof.
  intros Hw Hi. pose proof (take_drop_middle _ _ _ Hi) as Hl. pose proof (inv_single _ _ _ Hw) as Hn.
  rewrite <-Hl, fmap_app, fmap_cons in Hn. apply NoDup_app in Hn as (_ & Ht & Hd). apply NoDup_cons in Hd as [Hd _]. cbn [fst] in Hd.
  assert (Ht' : g ∉ (take i (waiting w)).*1) by (intros ?%Ht; set_solver).
  pose proof (running_absent _ _ Ht') as R1. pose proof (running_absent _ _ Hd) as R2.
  unfold running. cbn [waiting unwait].
  assert (Ho : ∀ h, omap (running_of h) (waiting w) = omap (running_of h) (take i (waiting w)) ++ omap (running_of h) [(g, s)]
                                                       ++ omap (running_of h) (drop (S i) (waiting w))).
  { intros h. by rewrite <-Hl at 1; rewrite <-!omap_app. }
  rewrite delete_take_drop. split; [|split].
  - rewrite Ho, R1, R2, app_nil_r. destruct s; [done|]. cbn. by rewrite decide_True.
  - by rewrite omap_app, R1, R2.
  - intros h Hh. rewrite Ho, omap_app. destruct s; [done|]. cbn. by rewrite decide_False.
Qed.

(** An activation that goes on is the current one of its group. *)
Lemma unwait_inv i g s w : ok w → waiting w !! i = Some (g, s) →
  inv (Some g) (λ _, False) (match s with AtGate _ => unwait i w | Running job => record_call (Settled job) (unwait i w) end).
Proof.
  intros Hw Hi. destruct (running_unwait _ _ _ _ Hw Hi) as (Hr & Hr0 & Hr1).
  assert (Hj : ∀ job, s = Running job → groupId job = g). { intros job ->. eapply (inv_running _ _ _ Hw), list_elem_of_lookup_2, Hi. }
  destruct Hw as [I1 I2 I3 I4 I5 I6 I7 I8 I9 I10 I11 I12].
  assert (Hp : waiting w ≡ₚ (g, s) :: delete i (waiting w)) by (by apply delete_Permutation).
  assert (Hn : (g ∉ (delete i (waiting w)).*1) ∧ NoDup (delete i (waiting w)).*1).
  { rewrite Hp in I1. by apply NoDup_cons in I1. } destruct Hn as [Hn Hd].
  assert (Hin : ∀ x, x ∈ delete i (waiting w) → x ∈ waiting w) by (intros x Hx; rewrite Hp; right; exact Hx).
  assert (Hk : ∀ h, working (queueFor h w) = true ↔ h ∈ (delete i (waiting w)).*1 ∨ Some g = Some h).
  { intros h. pose proof (fmap_Permutation fst _ _ Hp) as Hp'. rewrite I3, Hp', fmap_cons, elem_of_cons. simpl. naive_solver. }
  assert (Ho : ∀ h, begun h (match s with AtGate _ => unwait i w | Running job => record_call (Settled job) (unwait i w) end)
      = settled h (match s with AtGate _ => unwait i w | Running job => record_call (Settled job) (unwait i w) end) ++ running h (unwait i w)).
  { intros h. destruct s as [k|job].
    - change (begun h w = settled h w ++ running h (unwait i w)). rewrite I11. f_equal. destruct (decide (h = g)) as [->|Hh]; [congruence|by rewrite Hr1].
    - rewrite begun_record, settled_record. cbn [begun_of settled_of]. rewrite app_nil_r.
      change (begun h w = (settled h w ++ match (if decide (groupId job = h) then Some job else None) with Some j => [j] | None => [] end) ++ running h (unwait i w)).
      rewrite I11, (Hj job) by done. case_decide as Hh; [subst h; by rewrite Hr, Hr0, app_nil_r|]. by rewrite app_nil_r, Hr1. }
  destruct s; split; on_queues; eauto; try done; simplify_eq; try done; naive_solver.
Qed.

Lemma continue_spec n i w : ok w → enabled (Continue i) w →
  ∃ w', continue (S n) i w = Some w' ∧ ok w' ∧ stepped (Continue i) w w'
  ∧ runner w' = runner w ∧ (∀ g, held g w' = held g w) ∧ ∀ g s, waiting w !! i = Some (g, s) → held g w = None → is_Some (runner w) →
      queue g w' = tail (queue g w) ∧ settled g w' = settled g w ++ running g w
      ∧ waiting w' = delete i (waiting w) ++ match queue g w with [] => [] | job :: _ => [(g, Running job)] end.
Proof.
  intros Hw He. unfold continue. simpl in He. destruct (waiting w !! i) as [[g s]|] eqn:Hi; [|done].
  destruct (running_unwait _ _ _ _ Hw Hi) as (Hr & _ & _). pose proof (unwait_inv _ _ _ _ Hw Hi) as Hu.
  set (w0 := match s with AtGate _ => _ | Running job => _ end) in Hu.
  assert (Hend : ∀ w', inv None (λ h, False ∧ h ≠ g) w' → moved w0 w' → turned g w0 w' →
    ok w' ∧ stepped (Continue i) w w' ∧ runner w' = runner w ∧ (∀ g, held g w' = held g w) ∧ ∀ g' s', Some (g, s) = Some (g', s') → held g' w = None → is_Some (runner w) →
      queue g' w' = tail (queue g' w) ∧ settled g' w' = settled g' w ++ running g' w
      ∧ waiting w' = delete i (waiting w) ++ match queue g' w with [] => [] | job :: _ => [(g', Running job)] end).
  { intros w' H1 [J R' H B] H3.
    assert (Hb : ∀ h, begun h w0 = begun h w).
    { intros h. unfold w0. destruct s; [done|]. by rewrite begun_record, app_nil_r. }
    assert (Hq : ∀ h, queueFor h w0 = queueFor h w) by (intros h; unfold w0; by destruct s).
    split; [eapply inv_weaken; [|done]; naive_solver|]. split.
    { split; intros h; [by rewrite J, Hb, Hq, app_nil_r|]. rewrite H, <-Hb. apply B. }
    split; [rewrite R'; unfold w0; by destruct s|]. split; [intros h; by rewrite H, Hq|].
    intros g' s' [= <- <-] Hh Hrn. destruct H3 as (Q & S & W); [by rewrite Hq|unfold w0; by destruct s|].
    rewrite Q, S, Hq. split; [done|]. split.
    - rewrite Hr. unfold w0. destruct s as [k|job]; [by rewrite app_nil_r|].
      rewrite settled_record. simpl. rewrite decide_True; [done|]. eapply (inv_running _ _ _ Hw), list_elem_of_lookup_2, Hi.
    - rewrite Hq in W. assert (waiting w0 = delete i (waiting w)) as Hwt by (unfold w0; by destruct s). rewrite Hwt in W.
      destruct (queue g w); [by rewrite app_nil_r|done]. }
  destruct s as [k|job].
  - rewrite bool_decide_true by done. destruct (gated_spec (λ w, loop (S n) g (on_queue g (set_working true) w)) g _ _ Hu) as (w' & E & H1 & H2 & H3).
    { by destruct (inv_atgate _ _ _ Hw g k (list_elem_of_lookup_2 _ _ _ Hi)). }
    exists w'. split; [exact E|]. by apply Hend.
  - destruct (loop_spec n g _ _ Hu) as (w' & E & H1 & H2 & H3). exists w'. split; [exact E|]. by apply Hend.
Qed.

Lemma step_spec n e w : ok w → enabled e w → ∃ w', step (S n) w e = Some w' ∧ ok w' ∧ stepped e w w'.
Proof.
  intros Hw He. destruct e as [job|g|g|r|g p|i]; cbn [step].
  - by apply enqueue_spec.
  - eexists. split; [done|]. by apply hold_spec.
  - by apply resume_spec.
  - by apply runner_spec.
  - eexists. split; [done|]. split; [eapply inv_same, Hw; apply same_patch|].
    apply moved_stepped; [|done]. apply moved_same, same_patch.
  - destruct (continue_spec n i w Hw He) as (w' & E & H1 & H2 & _). eauto.
Qed.

Lemma step_enabled n e w w' : step n w e = Some w' → enabled e w.
Proof.
  destruct e as [| | | | |i]; try done. simpl. unfold continue. destruct (waiting w !! i) as [[g [k|job]]|]; [|done..].
  by case_bool_decide.
Qed.

Lemma run_none n es : foldl (λ ow e, w ← ow; step n w e) None es = None.
Proof. induction es as [|e es IH]; [done|exact IH]. Qed.

Lemma run_spec n es w w' : ok w → run (S n) es w = Some w' → ok w' ∧ ∀ g, begun g w' ++ queue g w' = begun g w ++ queue g w ++ asked g es.
Proof.
  revert w. induction es as [|e es IH]; intros w Hw Hr.
  { assert (w' = w) as -> by (unfold run in Hr; simpl in Hr; congruence). split; [done|]. intros g. unfold asked. simpl. by rewrite !app_nil_r. }
  unfold run in Hr. cbn [foldl mbind option_bind] in Hr. destruct (step (S n) w e) as [w1|] eqn:E; [|by rewrite run_none in Hr].
  destruct (step_spec n e w Hw (step_enabled _ _ _ _ E)) as (w2 & E2 & Hw2 & [J _]). simplify_eq.
  destruct (IH _ Hw2 Hr) as (Hok & Hj). split; [done|]. intros g. rewrite Hj, app_assoc, J, <-!app_assoc. do 2 f_equal.
  unfold asked. simpl. by destruct (asked_of g e).
Qed.

Lemma running_single g w : ok w → running g w = [] ∨ ∃ i job, waiting w !! i = Some (g, Running job) ∧ running g w = [job].
Proof.
  intros Hw. destruct (running g w) as [|job l] eqn:Hr; [by left|]. right.
  assert (Hin : job ∈ running g w) by (rewrite Hr; left). unfold running in Hin.
  apply list_elem_of_omap in Hin as ([h s] & Hin & Hs). simpl in Hs. destruct s as [|j]; [done|]. case_decide; simplify_eq.
  apply list_elem_of_lookup in Hin as [i Hi]. exists i, job. split; [done|].
  destruct (running_unwait _ _ _ _ Hw Hi) as (Hj & _). congruence.
Qed.

(** Questions waiting for a runner that is there, in a chat that is not held. *)
Lemma not_stranded g w : ok w → queue g w ≠ [] → is_Some (runner w) → ∃ i s, waiting w !! i = Some (g, s).
Proof.
  intros Hw Hq [r Hr]. destruct (working (queueFor g w)) eqn:Hk.
  - apply (inv_working _ _ _ Hw) in Hk as [Hk|]; [|done]. apply list_elem_of_fmap in Hk as ([h s] & -> & Hk).
    apply list_elem_of_lookup in Hk as [i Hi]. eauto.
  - destruct (inv_idle _ _ _ Hw g Hk Hq); [congruence|done].
Qed.

Lemma waiting_enabled g i s w : ok w → held g w = None → waiting w !! i = Some (g, s) → enabled (Continue i) w.
Proof.
  intros Hw Hg Hi. simpl. rewrite Hi. destruct s as [k|]; [|done].
  destruct (inv_atgate _ _ _ Hw g k (list_elem_of_lookup_2 _ _ _ Hi)) as [_ [?|?]]; [congruence|done].
Qed.

(** * Nothing keeps a chat from its answers *)

(** The activation of a group goes on, [n] times. *)
Fixpoint drive (fuel : nat) (g : jsstr) (n : nat) (w : world) : option world :=
  match n with
  | O => Some w
  | S n' =>
      match list_find (λ x, x.1 = g) (waiting w) with
      | None => Some w
      | Some (i, _) => w' ← continue fuel i w; drive fuel g n' w'
      end
  end.

Lemma drive_done fuel g n w : g ∉ (waiting w).*1 → drive fuel g n w = Some w.
Proof.
  intros Hg. destruct n; [done|]. simpl. destruct (list_find _ _) as [[i [h s]]|] eqn:Hf; [|done].
  apply list_find_Some in Hf as (Hi & Hh & _). simpl in Hh. subst h. exfalso. by eapply Hg, waiting_elem, list_elem_of_lookup_2.
Qed.

Lemma drive_spec n m g w : ok w → is_Some (runner w) → held g w = None → (length (queue g w) < m)%nat →
  ∃ w', drive (S n) g m w = Some w' ∧ queue g w' = [] ∧ running g w' = [] ∧ settled g w' = settled g w ++ running g w ++ queue g w.
Proof.
  revert w. induction m as [|m IH]; intros w Hw Hr Hg Hm; [lia|]. simpl.
  destruct (list_find (λ x, x.1 = g) (waiting w)) as [[i [h s]]|] eqn:Hf; cycle 1.
  { exists w. split; [done|]. apply list_find_None in Hf. rewrite Forall_forall in Hf.
    assert (Hn : g ∉ (waiting w).*1) by (intros ([h s] & -> & Hin)%list_elem_of_fmap; by eapply Hf).
    assert (queue g w = []) as Hq.
    { destruct (decide (queue g w = [])) as [|Hq]; [done|]. destruct (not_stranded g w Hw Hq Hr) as (i & s & Hi).
      exfalso. by eapply Hn, waiting_elem, list_elem_of_lookup_2. }
    pose proof (running_absent _ _ Hn) as Hrun. fold (running g w) in Hrun. by rewrite Hq, Hrun, !app_nil_r. }
  apply list_find_Some in Hf as (Hi & Hh & _). simpl in Hh. subst h.
  destruct (continue_spec n i w Hw (waiting_enabled _ _ _ _ Hw Hg Hi)) as (w1 & E & Hw1 & _ & Hr1 & Hg1 & Hs).
  destruct (Hs _ _ Hi Hg Hr) as (Q & S1 & W). rewrite E. cbn [mbind option_bind].
  pose proof (running_unwait _ _ _ _ Hw Hi) as (_ & Hrun & _). unfold running in Hrun. cbn [waiting unwait] in Hrun.
  destruct (queue g w) as [|job rest] eqn:Hq; cbn [tail] in Q.
  - rewrite app_nil_r in W. exists w1. rewrite drive_done; cycle 1.
    { rewrite W. intros Hin. pose proof (inv_single _ _ _ Hw) as Hnd.
      rewrite (fmap_Permutation fst _ _ (delete_Permutation _ _ _ Hi)) in Hnd. by apply NoDup_cons in Hnd as [? _]. }
    split; [done|]. split; [done|]. split; [unfold running; by rewrite W|]. by rewrite S1, app_nil_r.
  - destruct (IH w1) as (w' & E' & Q' & R' & S'); [done|by rewrite Hr1|by rewrite Hg1|rewrite Q; simpl in Hm; lia|].
    exists w'. split; [done|]. split; [done|]. split; [done|]. rewrite S', S1, Q. unfold running at 2. rewrite W, omap_app, Hrun.
    simpl. by rewrite decide_True, <-app_assoc.
Qed.

(** * What the queue promises *)

(** C14. Whatever the owner, the component and the runners do, and in whatever order gates
    open and answers arrive: in each chat the questions asked, in the order asked, are
    those answered (or failed), then the one being answered (at most one), then those that
    wait, so none is lost, repeated or overtaken; a question goes to a runner only in a
    chat that is not held; questions that wait where nothing keeps them have an activation
    that can go on; and every call and every promise is handled, [finally] never draining
    again. *)
Theorem replies_in_order n es w g : run (S n) es init = Some w →
  asked g es = settled g w ++ running g w ++ queue g w
  ∧ (length (running g w) ≤ 1)%nat
  ∧ begun g w = settled g w ++ running g w
  ∧ (queue g w ≠ [] → is_Some (runner w) → held g w = None → ∃ i s, waiting w !! i = Some (g, s) ∧ enabled (Continue i) w)
  ∧ (∀ e w', step (S n) w e = Some w' → begun g w' ≠ begun g w → held g w' = None)
  ∧ (∀ e, enabled e w → is_Some (step (S n) w e)).
Proof.
  intros Hr. destruct (run_spec _ _ _ _ ok_init Hr) as (Hw & Hj). pose proof (inv_order _ _ _ Hw g) as Ho.
  split; [|split; [|split; [done|split; [|split]]]].
  - specialize (Hj g). rewrite Ho, <-app_assoc in Hj. by rewrite Hj.
  - destruct (running_single g w Hw) as [->|(i & job & _ & ->)]; simpl; lia.
  - intros Hq Hs Hg. destruct (not_stranded g w Hw Hq Hs) as (i & s & Hi). exists i, s. split; [done|]. by eapply waiting_enabled.
  - intros e w' E Hb. destruct (step_spec n e w Hw (step_enabled _ _ _ _ E)) as (w2 & E2 & _ & [_ B]). simplify_eq. by destruct (B g).
  - intros e He. destruct (step_spec n e w Hw He) as (w' & -> & _). by eexists.
Qed.

(** C10. Once a runner is there and a chat is not held, as many promises as it has questions
    waiting, and one more, leave every question asked in it answered, in order, with none
    left and none running, whatever came before: runners gone and replaced, holds, answers
    that failed. *)
Theorem questions_answered n es w g : run (S n) es init = Some w → is_Some (runner w) → held g w = None →
  ∃ w', drive (S n) g (S (length (queue g w))) w = Some w' ∧ queue g w' = [] ∧ running g w' = [] ∧ settled g w' = asked g es.
Proof.
  intros Hr Hs Hg. destruct (run_spec _ _ _ _ ok_init Hr) as (Hw & Hj).
  destruct (drive_spec n (S (length (queue g w))) g w Hw Hs Hg) as (w' & E & Q & R' & S'); [lia|].
  exists w'. split; [done|]. split; [done|]. split; [done|]. rewrite S'.
  specialize (Hj g). rewrite (inv_order _ _ _ Hw g), <-app_assoc in Hj. by rewrite Hj.
Qed.

End reply_queue.

Arguments world : clear implicits.
Arguments event : clear implicits.

(** * Runs *)

Definition example_job (g q : string) : AgentReplyJob :=
  {| groupId := js g; groupUuid := js g; question := js q; historyLength := 1; thread := [] |}.

(** Two questions before there is a runner, a hold while the first is answered, a second
    chat, the answer, the resume. *)
Definition example_events : list (event nat nat) :=
  [Enqueue (example_job "a" " one "); Enqueue (example_job "a" "two"); Enqueue (example_job "b" "other"); SetRunner (Some 7%nat);
   Hold (js "a"); Continue 0%nat; Enqueue (example_job "a" "three"); Resume (js "a")].

Definition example_world : world nat nat := default init (run 1 example_events init).

Lemma example_run : run 1 example_events init = Some example_world.
Proof. by vm_compute. Qed.

Lemma replies_in_order_witness :
  asked (js "a") example_events = settled (js "a") example_world ++ running (js "a") example_world ++ items (queueFor (js "a") example_world).
Proof. apply (replies_in_order 0 example_events example_world (js "a")). vm_compute. reflexivity. Defined.

Lemma questions_answered_witness :
  ∃ w', drive 1 (js "a") (S (length (items (queueFor (js "a") example_world)))) example_world = Some w' ∧ items (queueFor (js "a") w') = []
    ∧ running (js "a") w' = [] ∧ settled (js "a") w' = asked (js "a") example_events.
Proof.
  apply (questions_answered 0 example_events example_world (js "a")); [vm_compute; reflexivity|vm_compute; by eexists|by vm_compute].
Defined.

(** Without a runner the number shown is one less than the questions that wait: [drain]
    publishes the length of the queue without the question it is about to put back, so a
    chat whose only question waits shows its usual line, not that an answer is coming. *)
Lemma waiting_unseen :
  let w := default init (run (R := nat) (P := nat) 1 [Enqueue (example_job "a" "one")] init) in
  length (items (queueFor (js "a") w)) = 1%nat ∧ queued (getAgentReplySession (js "a") w) = 0
  ∧ agentReplyPreview (js "a") (js "last message") w = js "last message".
Proof. by vm_compute. Qed.
